(* ===== verification/_CoqProject ===== *)
-Q . S2P
Prelude.v
Store.v
Facade.v
Sqlite.v
GoText.v
Query.v
Plan.v
Json.v
Chefjson.v
Float.v
GoJson.v
Normalize.v
Stored.v
Flatten.v
SearchIndex.v
Search.v
Parallel.v
Runlist.v
Groups.v
Http.v
Effects.v
Acl.v
AclDocs.v
GroupApi.v
Classify.v
Authz.v
SearchFilter.v
Version.v
Presign.v
Objects.v
GoMarshal.v
Manifest.v
Cookbooks.v
Blobs.v
Environments.v
DataBags.v
RunSearch.v
Auth.v
Time.v
Records.v
Passwords.v
Users.v
Keys.v
ServerAuth.v
Associations.v
Actors.v
ActorDelete.v
Policies.v
Organizations.v
Bootstrap.v
Import.v
Endpoints.v
Metrics.v
Differential.v
