(* ===== verification/Prelude.v ===== *)
(** * cinc-server-ng, verified

    cinc-server-ng is a Chef Infra Server in Go: an HTTP API over a document
    store, with signed requests, ACLs, search and a file store. This library
    models its logic as Rocq functions and proves what makes it correct.

    ** The program and its parts

    A server starts (server/server.go) by choosing a store, creating its admin
    and organizations, upgrading what older versions stored and loading what it
    was pointed at on disk (internal/repo, internal/state). A request then passes
    the instruments (internal/metrics), the authentication middleware
    (server/auth.go, over internal/auth), the authorization middleware
    (internal/api/authz_enforce.go), and reaches a handler of internal/api.
    Handlers decode bodies with internal/chefjson, read and write documents
    through internal/store (an organization handle over a Backend, in memory or
    SQLite), and reply with JSON. Two caches are kept beside the store from its
    write stream: the inverted search index (internal/api/searchindex.go) and the
    reverse group index (internal/api/groupindex.go).

    ** Files

    Foundations.
    - Prelude: Go's errors and results, the state monad [ST], strings, sorting,
      the rewriting database [go] and small tactics.
    - GoText: bytes, UTF-8, the string functions the sources use. Time: RFC 3339
      timestamps.
    - Effects: weakest preconditions [ensures] and [h_ensures] of store calls
      and handlers, one rule per call, used by the handler proofs.

    Store.
    - Store: [space], the abstract contents; the class [Backend] with its laws
      [BackendSpec] (internal/store/backend.go); the memory backend in Module
      [Memory] (memory.go), an instance of it.
    - Facade: [Store] and organization handles (store.go), observers and
      transactions (watch.go). Its observers type [O] is what the caches
      instantiate.
    - Sqlite: the SQLite backend (sqlite.go) over a database engine [Engine]:
      the writer that commits in groups, its isolated retries, transactions,
      migrations; a second instance of [Backend].

    Documents.
    - Json, Chefjson, Float, Normalize, Stored: JSON texts and trees, chefjson's
      Parse, Marshal, Normalize and member access (internal/chefjson), doubles
      and their shortest decimal form.
    - GoJson, GoMarshal: encoding/json as the sources use it, authzdoc.go,
      jsonstr.go. Records: objects that are read, edited and written back.
    - Runlist: internal/runlist.

    Search.
    - Query, Plan, Flatten: internal/search. [Plan] works over the class of
      postings that [SearchIndex] implements.
    - SearchIndex, Search, SearchFilter, RunSearch: searchindex.go and search.go
      of internal/api; RunSearch composes them into the endpoints. Parallel: the
      workers of a cold scan as a step relation over atomic operations.

    Authentication.
    - Auth: the signed-header protocol (internal/auth/auth.go, sign.go, cache.go).
      Presign: internal/auth/presign.go. ServerAuth: the middleware.
    - Passwords: password.go, authenticate.go.

    Authorization.
    - Groups, GroupApi: groupmembers.go, groupindex.go, authz.go.
    - Acl, AclDocs: acl.go and acl_policy.go.
    - Classify: the routes (api.go and the register functions), their
      classification (authz_enforce.go) and the declared open writes
      (failclosed.go). Authz: ACL evaluation and the middleware.

    Endpoints.
    - Http: replies, handlers as [handler], requests (respond.go, preread.go).
    - Objects: object.go, role_environment_validate.go, environments.go.
    - Version: constraint.go, constraint_valid.go and compareVersions.
    - Manifest: cookbook_segments.go, cookbook_validate.go, the manifest readers
      of cookbooks.go, and API version negotiation of server_endpoints.go.
    - Cookbooks: the endpoints of cookbooks.go and cookbook_artifacts.go; Blobs
      holds their theorems.
    - Environments: environment_subendpoints.go.
    - DataBags: databags.go and envelope.go.
    - Policies: policies.go, policy_validate.go.
    - Users, Actors: user_validation.go, actor.go; ActorDelete holds the theorem on
      deletion. Keys: keys.go, keyvalidation.go.
    - Associations: association.go, association_requests.go.
    - Organizations: organizations.go.
    - Endpoints: the rest of server_endpoints.go, system.go.
    - Metrics: internal/metrics and the instruments of stats.go.

    Start.
    - Bootstrap: New of server/server.go up to its listeners, internal/auth/keys.go.
    - Import: internal/repo, internal/state and their use at start.

    Around the server.
    - Differential: the comparison of two servers' answers (differential/).

    ** How the code is modelled

    A Go function is a Definition or Fixpoint of its name (with a trailing
    underscore or the receiver in front where Rocq or another file needs the
    name). [(T, error)] is [result T]; a method that reads or writes the store is
    an [ST] computation over [Store B O]; a handler is a [handler], which either
    goes on with a value or has replied, so every early return is a branch.
    Values are [value] trees whose numbers keep their literals; a decoded map is
    its list of members. 64-bit integers are Z with the wrap or the range written
    out (strconv.Atoi, the result window, version components, times).

    What is not in the sources is a parameter, given as a class with the laws
    its documentation states and an instance for the witnesses: [Backend] (any
    store; errors may come at any call), [Engine] (the database), [Unicode],
    [UnicodeText] and [UnicodeUpper] (case and space tables), [Double] with the
    instance [ieee_double], [Float64] (ParseFloat) and [Float] (the sums of
    histograms), [GoQuote] (the table of printable runes), [HMAC], [MD5],
    [PBKDF2], [Crypto] (digests and RSA), [X509] and [PrivateX509] (PEM and DER),
    [SliceSort] (the order sort.Slice leaves), [MapRange] (the order a map is
    ranged over), [FileSystem] (the disk). Random bytes, generated keys and the
    clock are arguments.

    ** What the theorems show

    - Store: [memory_refines_space] and [sqlite_refines_space], every sequence of
      calls and transactions (for SQLite one that meets no fault) is answered as
      the abstract space answers it; [group_commit_serial], writes committed
      together are as if made one after the other; [write_stream_replays], the
      events given to observers replay to the contents, but for an organization
      whose drop failed half-way; [rolled_back_tx_invisible];
      [groups_write_advances_generation].
    - Documents: [marshal_parse_roundtrip], [normalize_is_marshal],
      [stored_documents_read_back], [decode_object_first_member];
      [needs_change_exact], [normalize_canonical] for run lists.
    - Search: [search_answers_exactly], from the request to the rows, on a server
      whose caches are in step with its store;
      [Parse_total], [Plan_is_scan], [index_describes_store], [search_is_scan]
      (index and cache never change an answer), [search_shows_readable],
      [flatten_indexes_suffixes], [deep_merge_precedence]; [concurrent_scan_exact]
      and [concurrent_scans_end], whatever the interleaving of the workers.
    - Authentication: [authentication_exact], who is let through and as whom;
      [signed_requests_admitted], [signed_requests_verify],
      [signature_binds_request], [public_decrypt_exact], [grant_authorizes_exactly],
      [authentication_by_password], [upgrade_keeps_passwords].
    - Authorization: [mutating_routes_decided] (a mutating request is declared
      open, classified or refused), [middleware_enforces_policy], [allowed_iff_granted],
      [membership_is_transitive_closure], [cached_groups_agree] (while no
      organization is dropped), [revocation_is_exact] (of groups in the form the
      server writes), [deleted_group_leaves_nothing],
      [acl_update_guarded], [seeding_only_adds], [upgrade_touches_seeded_only].
    - Actors: [updates_grant_no_privilege], [principals_stay_distinct],
      [secrets_never_stored], [deleted_actor_revoked], [key_calls_refine]
      (keys against an abstract keyring), [invitations_answered],
      [principals_answer].
    - Organizations and policies: [organization_created_whole],
      [organizations_registered], [deployments_resolve], [deployed_policy_served],
      [stored_revisions_typed].
    - Objects: [object_writes_exact], [listing_reads_back],
      [layouts_round_trip], [gc_deletes_orphans_only], [manifests_stay_backed],
      [latest_is_newest], [constraint_semantics], [solver_closes_dependencies],
      [items_never_outlive_bag], [wrapped_item_unwraps].
    - Start: [restart_keeps_credentials]; [repo_loaded_exactly] (what is on disk is
      in the store in the form of an upload, and loading it again changes nothing), [repo_load_confined],
      [imported_manifests_backed], [loaded_users_hide_passwords].
    - Metrics: [histogram_counts_exact], [requests_measured].
    - Comparison: [compare_exact], [passing_run_agrees], [baseline_exact],
      [normalizeKey_fresh].
    - Where the code does not do what it says, a closed theorem exhibits it, among
      them [unreadable_manifest_loses_files], [fallback_grant_loses_admins],
      [refused_create_clears_members], [stale_update_revives_group],
      [acl_name_escapes], [dropped_org_keeps_index], [handwritten_docs_diverge],
      [pessimistic_ceiling_wraps], [comparison_is_no_order],
      [environment_update_does_not_rename], [item_update_keeps_key],
      [half_deleted_organization], [validator_takes_user_name],
      [interrupted_start_stays_down], [configured_after_created],
      [deleted_stays_deleted], [indented_dependency_lost],
      [dependency_taken_for_file], [bulk_reads_other_case],
      [half_dropped_unseen], [leftover_chunk_breaks], [stale_update_revives],
      [tiny_key_out_of_range], [deleted_user_leaves_password].

    ** Fuel and bounds

    JSON decoding of a text takes fuel twice its length plus two, which no text
    exhausts ([fuel_free] lemmas in Json), and stops at nesting 10000, as the Go
    decoders do. The query parser takes fuel from the number of tokens;
    [Parse_total] shows it is enough. Group expansion and the dependency solver
    recurse on what is left to visit; [membership_is_transitive_closure] and
    [solver_closes_dependencies] show the bound is never met. The scan of
    metadata.rb takes its length, enough by [all_depends_fuel]. The shortest
    decimal search stops at 17 digits, enough for any double.

    ** Not modelled

    - Listeners, TLS, graceful shutdown, prewarming of the caches and the external
      URL (server/): set-up around the handlers, without state of their own.
    - Opening and closing the SQLite database, its connection string and file
      modes: the engine is a parameter.
    - Headers of replies but the ones named above (the Location of a renamed key
      among them), the rewriting of the router's own errors and the JSON encoding
      of the statistics.
    - [%q] of text beyond ASCII ([go_quote]: the admin's name, messages).
    - The difference of two times as a double (the clock skew is compared exactly).
    - The commands under cmd/ (flags, load generators, reports), the requests the
      comparison sends and the conformance tests of the backends: tools around the
      server.
    - Concurrency of requests is modelled as sequences of calls and transactions;
      where an interleaving matters (the group update) the stale read is an
      argument. The workers of a scan are modelled as they interleave, and group
      commits for any way the queue is cut into batches. *)
From stdpp Require Export base tactics strings list gmap sets sorting fin_maps.
From Stdlib Require Export ZArith Lia.
From Stdlib Require Import Ascii.
Export Stdlib.Strings.Ascii (ascii(..), nat_of_ascii, ascii_of_nat, nat_ascii_bounded, nat_ascii_embedding, ascii_nat_embedding).
Export (notations) Stdlib.Strings.Ascii.

(** Appending computes on its first argument. *)
#[global] Arguments String.append !_ _ / : simpl nomatch.

(** ** Scope and notations *)

Declare Scope go_scope.
Delimit Scope go_scope with go.

(** ** Errors and results

    Go's [(value, error)] pairs: [Ok] carries the value of a nil error. *)

Inductive gerror :=
  | ErrConflict                (* store.ErrConflict *)
  | ErrOther (msg : string).   (* any other error value, by its text *)

#[export] Instance gerror_eq_dec : EqDecision gerror.
Proof. solve_decision. Defined.

Inductive result (A : Type) :=
  | Ok (a : A)
  | Err (e : gerror).
Arguments Ok {A} a.
Arguments Err {A} e.

Definition is_Ok {A} (r : result A) : bool := match r with Ok _ => true | Err _ => false end.

(** A computation over a state [S] that may fail: the state reached so far is
    kept when it does, as Go keeps the effects made before an early return. *)
Definition ST (S A : Type) : Type := S → result A * S.

Definition st_ret {S A} (a : A) : ST S A := λ s, (Ok a, s).
Definition st_fail {S A} (e : gerror) : ST S A := λ s, (Err e, s).
Definition st_bind {S A B} (m : ST S A) (k : A → ST S B) : ST S B := λ s,
  match m s with
  | (Ok a, s') => k a s'
  | (Err e, s') => (Err e, s')
  end.

Notation "'let!' x := m 'in' k" := (st_bind m (λ x, k))
  (at level 10, x name, m at level 100, k at level 200) : go_scope.
Notation "'let!' ' p := m 'in' k" := (st_bind m (λ x, match x with p => k end))
  (at level 10, p pattern, m at level 100, k at level 200) : go_scope.
Notation "m ';;!' k" := (st_bind m (λ _, k))
  (at level 199, right associativity) : go_scope.

(** Running a list of steps in order, stopping at the first error: the shape of
    every [for ... { if err := f(x); err != nil { return err } }]. *)
Fixpoint st_each {S A} (f : A → ST S unit) (l : list A) : ST S unit :=
  match l with
  | [] => st_ret tt
  | x :: l' => st_bind (f x) (λ _, st_each f l')
  end.

(** ** Machine integers *)

Definition wrap64 (z : Z) : Z := z mod 2 ^ 64.
(** Two's complement wrap-around of a signed 64-bit counter. *)
Definition wrap_int64 (z : Z) : Z := (z + 2 ^ 63) mod 2 ^ 64 - 2 ^ 63.
Definition max_int64 : Z := 2 ^ 63 - 1.
Definition min_int64 : Z := - 2 ^ 63.

Lemma wrap64_succ_ne (z : Z) : wrap64 (z + 1) ≠ wrap64 z.
Proof.
  unfold wrap64. intros H.
  pose proof (Z.div_mod (z + 1) (2 ^ 64) ltac:(lia)).
  pose proof (Z.div_mod z (2 ^ 64) ltac:(lia)). nia.
Qed.

(** ** Byte strings

    Go strings and byte slices are sequences of bytes; both are [string]. *)

Definition byte_of (c : ascii) : Z := Z.of_nat (nat_of_ascii c).
Definition chr (z : Z) : ascii := ascii_of_nat (Z.to_nat z).

Definition NUL : ascii := "000"%char.
Definition quote : ascii := "034"%char.
Definition backslash : ascii := "092"%char.

Fixpoint str_rev_app (s acc : string) : string :=
  match s with
  | EmptyString => acc
  | String c s' => str_rev_app s' (String c acc)
  end.
Definition str_rev (s : string) : string := str_rev_app s "".

(** [slices.Contains] on strings. *)
Definition contains_str (l : list string) (s : string) : bool :=
  bool_decide (s ∈ l).

(** [strings.CutPrefix] and [strings.HasPrefix]. *)
Fixpoint cut_prefix (p s : string) : option string :=
  match p, s with
  | EmptyString, _ => Some s
  | String a p', String b s' => if decide (a = b) then cut_prefix p' s' else None
  | String _ _, EmptyString => None
  end.
Definition has_prefix (p s : string) : bool :=
  match cut_prefix p s with Some _ => true | None => false end.

(** [strings.HasSuffix]. *)
Definition has_suffix (p s : string) : bool := has_prefix (str_rev p) (str_rev s).

(** [strings.Split] for a one-byte separator: never empty. *)
Fixpoint split_on (sep : ascii) (s : string) : list string :=
  match s with
  | EmptyString => [""]
  | String c s' =>
      if decide (c = sep) then "" :: split_on sep s'
      else match split_on sep s' with
           | w :: ws => String c w :: ws
           | [] => [String c ""]
           end
  end.

(** [strings.Join]. *)
Fixpoint join (sep : string) (l : list string) : string :=
  match l with
  | [] => ""
  | [w] => w
  | w :: ws => w +:+ sep +:+ join sep ws
  end.

(** [strings.Cut] for a non-empty separator: the text around its first
    occurrence. *)
Fixpoint cut (sep s : string) : option (string * string) :=
  match cut_prefix sep s with
  | Some rest => Some ("", rest)
  | None =>
      match s with
      | EmptyString => None
      | String c s' =>
          match cut sep s' with
          | Some (a, b) => Some (String c a, b)
          | None => None
          end
      end
  end.

(** [strings.IndexByte] together with the text around the byte found. *)
Fixpoint cut_byte (b : ascii) (s : string) : option (string * string) :=
  match s with
  | EmptyString => None
  | String c s' =>
      if decide (c = b) then Some ("", s')
      else match cut_byte b s' with
           | Some (x, y) => Some (String c x, y)
           | None => None
           end
  end.

Fixpoint str_in (c : ascii) (s : string) : Prop :=
  match s with
  | EmptyString => False
  | String d s' => c = d ∨ str_in c s'
  end.

#[export] Instance str_in_dec (c : ascii) (s : string) : Decision (str_in c s).
Proof.
  induction s as [|d s IH]; simpl; [right; tauto|].
  destruct (decide (c = d)); [left; by left|].
  destruct IH; [left; by right | right; tauto].
Defined.

(** [strings.TrimLeft] and [strings.Trim] for a one-byte cutset. *)
Fixpoint trim_left (c : ascii) (s : string) : string :=
  match s with
  | EmptyString => ""
  | String d s' => if decide (d = c) then trim_left c s' else s
  end.
Definition trim (c : ascii) (s : string) : string :=
  str_rev (trim_left c (str_rev (trim_left c s))).
Definition trim_right (c : ascii) (s : string) : string :=
  str_rev (trim_left c (str_rev s)).

(** The sorted order of [sort.Strings]: bytewise. *)
Definition sort_strings (l : list string) : list string := merge_sort String.le l.

(** ** Tactics *)

(** Split the conjunctions and existentials of the context. *)
Ltac split_hyps :=
  repeat match goal with
  | H : _ ∧ _ |- _ => destruct H
  | H : ∃ _, _ |- _ => destruct H
  end.

(** [lia] with division and remainder by constants. *)
Ltac zlia := Z.to_euclidean_division_equations; lia.

(** Case analysis on every [match]/[if] in sight, closing absurd branches. *)
Ltac crush_match := try done; repeat (case_match; simplify_eq/=; try done).

(** Runs every [decide] whose proposition is settled by its literals. *)
Ltac decide_literals :=
  repeat match goal with |- context [decide ?P] =>
    first [rewrite (decide_True (P:=P)) by (done || tauto)
          |rewrite (decide_False (P:=P)) by (done || intuition discriminate)] end.

(** ** Generic lemmas on byte strings *)

Lemma app_string_nil_r (s : string) : s +:+ "" = s.
Proof. induction s as [|c s IH]; by f_equal/=. Qed.

Lemma app_string_assoc (a b c : string) : (a +:+ b) +:+ c = a +:+ (b +:+ c).
Proof. induction a as [|x a IH]; by f_equal/=. Qed.

Lemma length_app_string (a b : string) :
  String.length (a +:+ b) = String.length a + String.length b.
Proof. induction a as [|x a IH]; by f_equal/=. Qed.

Lemma str_in_app (c : ascii) (a b : string) :
  str_in c (a +:+ b) ↔ str_in c a ∨ str_in c b.
Proof. induction a as [|x a IH]; simpl; [tauto|]. rewrite IH. tauto. Qed.

Lemma cut_prefix_app (p s : string) : cut_prefix p (p +:+ s) = Some s.
Proof. induction p as [|c p IH]; [by destruct s|]. simpl. by rewrite decide_True. Qed.

Lemma cut_prefix_Some (p s r : string) : cut_prefix p s = Some r ↔ s = p +:+ r.
Proof.
  split; [|intros ->; apply cut_prefix_app].
  revert s; induction p as [|c p IH]; intros s H; [by destruct s; simplify_eq/=|].
  destruct s as [|d s]; simplify_eq/=. case_decide; simplify_eq.
  by rewrite (IH _ H).
Qed.

Lemma has_prefix_true (p s : string) : has_prefix p s = true ↔ ∃ r, s = p +:+ r.
Proof.
  unfold has_prefix. destruct (cut_prefix p s) as [r|] eqn:E.
  - split; [|done]. intros _. exists r. by apply cut_prefix_Some.
  - split; [done|]. intros [r ->]. by rewrite cut_prefix_app in E.
Qed.

Lemma str_rev_app_spec (s acc : string) : str_rev_app s acc = str_rev s +:+ acc.
Proof.
  unfold str_rev. revert acc. induction s as [|c s IH]; intros acc; [done|].
  simpl. rewrite IH, (IH (String c "")), app_string_assoc. done.
Qed.

Lemma str_rev_cons (c : ascii) (s : string) :
  str_rev (String c s) = str_rev s +:+ String c "".
Proof. unfold str_rev at 1. simpl. by rewrite str_rev_app_spec. Qed.

Lemma str_rev_app_str (a b : string) : str_rev (a +:+ b) = str_rev b +:+ str_rev a.
Proof.
  induction a as [|c a IH]; simpl.
  - change (str_rev "") with "". by rewrite app_string_nil_r.
  - rewrite !str_rev_cons, IH, app_string_assoc. done.
Qed.

Lemma str_rev_involutive (s : string) : str_rev (str_rev s) = s.
Proof.
  induction s as [|c s IH]; [done|].
  rewrite str_rev_cons, str_rev_app_str, IH. done.
Qed.

Lemma has_suffix_true (p s : string) : has_suffix p s = true ↔ ∃ r, s = r +:+ p.
Proof.
  unfold has_suffix. rewrite has_prefix_true. split; intros [r Hr].
  - exists (str_rev r).
    by rewrite <-(str_rev_involutive s), Hr, str_rev_app_str, str_rev_involutive.
  - exists (str_rev r). by rewrite Hr, str_rev_app_str.
Qed.

(** Joining and splitting on a byte. *)
Lemma split_on_nonempty (sep : ascii) (s : string) : split_on sep s ≠ [].
Proof. destruct s; simpl; crush_match. Qed.

Lemma split_on_no_sep (sep : ascii) (s : string) :
  ¬ str_in sep s → split_on sep s = [s].
Proof.
  induction s as [|c s IH]; simpl; [done|]. intros H.
  rewrite decide_False by (intros ->; tauto). by rewrite IH by tauto.
Qed.

Lemma split_on_app (sep : ascii) (a b : string) :
  ¬ str_in sep a → split_on sep (a +:+ String sep b) = a :: split_on sep b.
Proof.
  induction a as [|c a IH]; simpl; intros H.
  - by rewrite decide_True.
  - rewrite decide_False by (intros ->; tauto). by rewrite IH by tauto.
Qed.

Lemma split_on_app_any (sep : ascii) (a b : string) :
  split_on sep (a +:+ String sep b) = split_on sep a ++ split_on sep b.
Proof.
  induction a as [|c a IH]; simpl; [by rewrite decide_True|].
  case_decide; [by rewrite IH|]. rewrite IH.
  destruct (split_on sep a) as [|w ws] eqn:E; [by apply split_on_nonempty in E|]. done.
Qed.

Lemma join_split (sep : ascii) (s : string) :
  join (String sep "") (split_on sep s) = s.
Proof.
  induction s as [|c s IH]; [done|]. simpl. case_decide as Hc; subst.
  - pose proof (split_on_nonempty sep s) as Hne.
    destruct (split_on sep s) as [|w ws] eqn:E; [done|]. simpl in *. by rewrite IH.
  - pose proof (split_on_nonempty sep s) as Hne.
    destruct (split_on sep s) as [|w [|w' ws]] eqn:E; [done| |]; simpl in *; by rewrite IH.
Qed.

Lemma split_on_parts (sep : ascii) (s : string) : Forall (λ w, ¬ str_in sep w) (split_on sep s).
Proof.
  induction s as [|c s IH]; simpl; [constructor; [tauto|done]|].
  case_decide as Hc; [by constructor; [simpl; tauto|]|].
  destruct (split_on sep s) as [|w ws]; [constructor; [simpl; naive_solver|done]|].
  apply Forall_cons in IH as [Hw IH]. constructor; [simpl; naive_solver|done].
Qed.

Lemma split_on_join (sep : ascii) (l : list string) :
  l ≠ [] → Forall (λ w, ¬ str_in sep w) l → split_on sep (join (String sep "") l) = l.
Proof.
  induction l as [|w [|w' ws] IH]; intros Hne Hl; [done|..].
  - apply split_on_no_sep. by apply Forall_cons in Hl as [? _].
  - apply Forall_cons in Hl as [Hw Hl].
    change (join (String sep "") (w :: w' :: ws)) with (w +:+ String sep (join (String sep "") (w' :: ws))).
    rewrite split_on_app by done. f_equal. by apply IH.
Qed.

Lemma sort_strings_perm (l : list string) : sort_strings l ≡ₚ l.
Proof. apply merge_sort_Permutation. Qed.

Lemma filter_all {A} (P : A → Prop) `{∀ x, Decision (P x)} (l : list A) : Forall P l → filter P l = l.
Proof. induction 1 as [|x l Hx _ IH]; [done|]. by rewrite filter_cons_True, IH. Qed.

Lemma filter_none {A} (P : A → Prop) `{∀ x, Decision (P x)} (l : list A) : Forall (λ x, ¬ P x) l → filter P l = [].
Proof. induction 1 as [|x l Hx _ IH]; [done|]. by rewrite filter_cons_False. Qed.

Lemma sort_strings_sorted (l : list string) : StronglySorted String.le (sort_strings l).
Proof. apply StronglySorted_merge_sort; apply _. Qed.

(** Two sorted lists with the same elements are the same list, so a sorted
    listing does not depend on the order a Go map was iterated in. *)
Lemma sort_strings_unique (l k : list string) : l ≡ₚ k → sort_strings l = sort_strings k.
Proof.
  intros H. eapply (StronglySorted_unique String.le); try apply sort_strings_sorted.
  by rewrite !sort_strings_perm.
Qed.

Lemma contains_str_true (l : list string) (s : string) :
  contains_str l s = true ↔ s ∈ l.
Proof. unfold contains_str. by rewrite bool_decide_eq_true. Qed.

Lemma contains_str_false (l : list string) (s : string) :
  contains_str l s = false ↔ s ∉ l.
Proof. unfold contains_str. by rewrite bool_decide_eq_false. Qed.

Create HintDb go.
Create Rewrite HintDb go.
#[export] Hint Rewrite app_string_assoc app_string_nil_r str_in_app : go.
#[export] Hint Resolve sort_strings_perm split_on_nonempty : go.
