(* ===== verification/Store.v ===== *)
(** * internal/store: the pluggable backend, the memory backend and the facade

    - [Backend]/[BackendSpec]: the interface of store/backend.go and what it
      promises, stated against the abstract [space];
    - [Memory]: store/memory.go, with the proof that it keeps the promise;
    - [Faulty]: any backend whose calls may fail at chosen points;
    - [Facade]: store/store.go and store/watch.go: organization handles, the
      groups generation, operation counts, the write stream and transactions. *)
From S2P Require Import Prelude.
#[local] Open Scope go_scope.

(** ** The abstract object space *)

(** What a backend holds: the named organizations, the objects keyed by
    (org, collection, key) and the blobs keyed by (org, checksum). *)
Record space := mkSpace {
  s_orgs : gset string;
  s_objs : gmap (string * string * string) string;
  s_blobs : gmap (string * string) string;
}.

Definition empty_space : space := mkSpace ∅ ∅ ∅.

Definition sp_put (o c k v : string) (s : space) : space :=
  mkSpace (s_orgs s) (<[(o, c, k) := v]> (s_objs s)) (s_blobs s).
Definition sp_delete (o c k : string) (s : space) : space :=
  mkSpace (s_orgs s) (delete (o, c, k) (s_objs s)) (s_blobs s).
Definition sp_put_blob (o k v : string) (s : space) : space :=
  mkSpace (s_orgs s) (s_objs s) (<[(o, k) := v]> (s_blobs s)).
Definition sp_delete_blob (o k : string) (s : space) : space :=
  mkSpace (s_orgs s) (s_objs s) (delete (o, k) (s_blobs s)).
Definition sp_create_org (o : string) (s : space) : space :=
  mkSpace ({[o]} ∪ s_orgs s) (s_objs s) (s_blobs s).

(** The objects that belong to an organization. *)
Definition drop_objs (o : string) (m : gmap (string * string * string) string) :=
  filter (λ kv, kv.1.1.1 ≠ o) m.
Definition sp_drop_org (o : string) (s : space) : space :=
  mkSpace (s_orgs s ∖ {[o]}) (drop_objs o (s_objs s))
    (filter (λ kv, kv.1.1 ≠ o) (s_blobs s)).

Lemma s_objs_put o c k v s : s_objs (sp_put o c k v s) = <[(o, c, k) := v]> (s_objs s).
Proof. done. Qed.
Lemma s_objs_delete o c k s : s_objs (sp_delete o c k s) = delete (o, c, k) (s_objs s).
Proof. done. Qed.
Lemma s_objs_drop o s : s_objs (sp_drop_org o s) = drop_objs o (s_objs s).
Proof. done. Qed.
Lemma s_blobs_put o k v s : s_blobs (sp_put_blob o k v s) = <[(o, k) := v]> (s_blobs s).
Proof. done. Qed.
Lemma s_blobs_delete o k s : s_blobs (sp_delete_blob o k s) = delete (o, k) (s_blobs s).
Proof. done. Qed.
Lemma s_blobs_drop o s :
  s_blobs (sp_drop_org o s) = filter (λ kv, kv.1.1 ≠ o) (s_blobs s).
Proof. done. Qed.

(** The key/value pairs of one collection. *)
Definition coll_of (o c : string) (m : gmap (string * string * string) string)
  : gmap string string :=
  default ∅ (map_curry (M1 := gmap (string * string)) (M2 := gmap string) m !! (o, c)).

Lemma lookup_coll_of o c k m : coll_of o c m !! k = m !! (o, c, k).
Proof.
  unfold coll_of.
  rewrite <-(lookup_map_curry (M1 := gmap (string * string)) (M2 := gmap string) m (o, c) k).
  by destruct (map_curry _ !! (o, c)).
Qed.

Lemma coll_of_put o c k v o' c' m :
  coll_of o' c' (<[(o, c, k) := v]> m) =
  if decide ((o, c) = (o', c')) then <[k := v]> (coll_of o' c' m) else coll_of o' c' m.
Proof.
  apply map_eq. intros k'. rewrite lookup_coll_of.
  case_decide as E; simplify_eq.
  - destruct (decide (k = k')) as [->|]; [by rewrite !lookup_insert_eq|].
    rewrite !lookup_insert_ne by congruence. by rewrite lookup_coll_of.
  - rewrite lookup_insert_ne by congruence. by rewrite lookup_coll_of.
Qed.

Lemma coll_of_delete o c k o' c' m :
  coll_of o' c' (delete (o, c, k) m) =
  if decide ((o, c) = (o', c')) then delete k (coll_of o' c' m) else coll_of o' c' m.
Proof.
  apply map_eq. intros k'. rewrite lookup_coll_of.
  case_decide as E; simplify_eq.
  - destruct (decide (k = k')) as [->|]; [by rewrite !lookup_delete_eq|].
    rewrite !lookup_delete_ne by congruence. by rewrite lookup_coll_of.
  - rewrite lookup_delete_ne by congruence. by rewrite lookup_coll_of.
Qed.

Lemma lookup_drop_objs o o' c k m :
  drop_objs o m !! (o', c, k) = if decide (o' = o) then None else m !! (o', c, k).
Proof.
  unfold drop_objs. rewrite map_lookup_filter. simpl.
  destruct (m !! (o', c, k)); simpl; repeat case_decide; try done;
    unfold guard; crush_match.
Qed.

Lemma coll_of_drop o o' c m :
  coll_of o' c (drop_objs o m) = if decide (o' = o) then ∅ else coll_of o' c m.
Proof.
  apply map_eq. intros k. rewrite lookup_coll_of, lookup_drop_objs.
  case_decide; [by rewrite lookup_empty | by rewrite lookup_coll_of].
Qed.

(** ** The Backend interface (store/backend.go) *)

Class Backend (B : Type) := {
  Get : string → string → string → ST B (option string);
  Put : string → string → string → string → ST B unit;
  Create : string → string → string → string → ST B unit;
  Delete : string → string → string → ST B (option string);
  Keys : string → string → ST B (list string);
  Range : string → string → ST B (list (string * string));
  Collections : string → ST B (list string);
  PutBlob : string → string → string → ST B unit;
  Blob : string → string → ST B (option string);
  HasBlob : string → string → ST B bool;
  DeleteBlob : string → string → ST B unit;
  CreateOrg : string → ST B unit;
  DeleteOrg : string → ST B bool;
  ListOrgs : ST B (list string);
  HasOrg : string → ST B bool;
  (* [fn] also threads what a transaction does not roll back *)
  Tx : ∀ {X : Type}, ST (B * X) unit → ST (B * X) unit;
}.

(** A read that failed, or answered: the space is as it was. *)
Definition reads {B A} (view : B → space) (m : ST B A) (b : B) (P : A → Prop) : Prop :=
  match m b with
  | (Ok a, b') => P a ∧ view b' = view b
  | (Err e, b') => e ≠ ErrConflict ∧ view b' = view b
  end.

(** A write that failed, or made the change [f]. *)
Definition writes {B A} (view : B → space) (m : ST B A) (b : B)
    (P : A → Prop) (f : space → space) : Prop :=
  match m b with
  | (Ok a, b') => P a ∧ view b' = f (view b)
  | (Err e, b') => e ≠ ErrConflict ∧ view b' = view b
  end.

(** A write that is refused with [ErrConflict] exactly when [taken]. *)
Definition creates {B} (view : B → space) (m : ST B unit) (b : B)
    (taken : Prop) (f : space → space) : Prop :=
  match m b with
  | (Ok _, b') => ¬ taken ∧ view b' = f (view b)
  | (Err ErrConflict, b') => taken ∧ view b' = view b
  | (Err _, b') => view b' = view b
  end.

Class BackendSpec (B : Type) `{Backend B} := {
  view : B → space;
  Get_spec o c k b : reads view (Get o c k) b (λ v, v = s_objs (view b) !! (o, c, k));
  Put_spec o c k v b : writes view (Put o c k v) b (λ _, True) (sp_put o c k v);
  Create_spec o c k v b :
    creates view (Create o c k v) b (is_Some (s_objs (view b) !! (o, c, k))) (sp_put o c k v);
  Delete_spec o c k b :
    writes view (Delete o c k) b (λ v, v = s_objs (view b) !! (o, c, k)) (sp_delete o c k);
  Keys_spec o c b :
    reads view (Keys o c) b
      (λ l, l = sort_strings ((map_to_list (coll_of o c (s_objs (view b)))).*1));
  Range_spec o c b :
    reads view (Range o c) b (λ l, l ≡ₚ map_to_list (coll_of o c (s_objs (view b))));
  Collections_spec o b :
    reads view (Collections o) b
      (λ l, StronglySorted String.le l ∧ NoDup l ∧
            ∀ c, c ∈ l ↔ ∃ k, is_Some (s_objs (view b) !! (o, c, k)));
  PutBlob_spec o k v b : writes view (PutBlob o k v) b (λ _, True) (sp_put_blob o k v);
  Blob_spec o k b : reads view (Blob o k) b (λ v, v = s_blobs (view b) !! (o, k));
  HasBlob_spec o k b :
    reads view (HasBlob o k) b (λ r, (r = true) ↔ is_Some (s_blobs (view b) !! (o, k)));
  DeleteBlob_spec o k b : writes view (DeleteBlob o k) b (λ _, True) (sp_delete_blob o k);
  CreateOrg_spec o b :
    creates view (CreateOrg o) b (o ∈ s_orgs (view b)) (sp_create_org o);
  (* an error may leave an organization partly dropped, never another one *)
  DeleteOrg_spec o b :
    match DeleteOrg o b with
    | (Ok true, b') => o ∈ s_orgs (view b) ∧ view b' = sp_drop_org o (view b)
    | (Ok false, b') => (o ∉ s_orgs (view b)) ∧ view b' = view b
    | (Err e, b') => e ≠ ErrConflict ∧
        ∀ o' c k, o' ≠ o → s_objs (view b') !! (o', c, k) = s_objs (view b) !! (o', c, k)
    end;
  ListOrgs_spec b : reads view ListOrgs b (λ l, l = sort_strings (elements (s_orgs (view b))));
  HasOrg_spec o b : reads view (HasOrg o) b (λ r, (r = true) ↔ o ∈ s_orgs (view b));
  (* commit keeps what [fn] wrote; a rollback restores the space *)
  Tx_spec {X} (fn : ST (B * X) unit) b x :
    match Tx fn (b, x) with
    | (Ok _, (b', x')) =>
        ∃ b1 b2, view b1 = view b ∧ fn (b1, x) = (Ok tt, (b2, x')) ∧ view b' = view b2
    | (Err e, (b', x')) =>
        view b' = view b ∧
        (x' = x ∨ ∃ b1 r b2, view b1 = view b ∧ fn (b1, x) = (r, (b2, x')))
    end;
  (* a conflict is the answer of [fn], never of the transaction *)
  Tx_conflict {X} (fn : ST (B * X) unit) b x st' :
    Tx fn (b, x) = (Err ErrConflict, st') →
    ∃ b1 st2, view b1 = view b ∧ fn (b1, x) = (Err ErrConflict, st2);
}.

(** ** The memory backend (store/memory.go) *)

Module Memory.

Record memoryBackend := mkMem {
  orgs : gset string;                                     (* named orgs *)
  data : gmap string (gmap string (gmap string string));  (* org -> coll -> key -> body *)
  blobs : gmap string (gmap string string);               (* org -> checksum -> content *)
}.

Definition NewMemoryBackend : memoryBackend := mkMem ∅ ∅ ∅.

(** [m.data[org][coll]]: indexing a missing or nil Go map yields nil. *)
Definition colls (m : memoryBackend) (org : string) : gmap string (gmap string string) :=
  default ∅ (data m !! org).
Definition bodies (m : memoryBackend) (org coll : string) : gmap string string :=
  default ∅ (colls m org !! coll).
Definition blobs_of (m : memoryBackend) (org : string) : gmap string string :=
  default ∅ (blobs m !! org).

Definition get (org coll key : string) : ST memoryBackend (option string) := λ m,
  (Ok (bodies m org coll !! key), m).

(** [set]: creates the missing inner maps, then stores a copy of [val]. *)
Definition set (org coll key val : string) (m : memoryBackend) : memoryBackend :=
  mkMem (orgs m)
    (<[org := <[coll := <[key := val]> (bodies m org coll)]> (colls m org)]> (data m))
    (blobs m).

Definition put (org coll key val : string) : ST memoryBackend unit := λ m,
  (Ok tt, set org coll key val m).

Definition create (org coll key val : string) : ST memoryBackend unit := λ m,
  match bodies m org coll !! key with
  | Some _ => (Err ErrConflict, m)
  | None => (Ok tt, set org coll key val m)
  end.

(** [Delete] leaves the (possibly now empty) collection map in place. *)
Definition delete_ (org coll key : string) : ST memoryBackend (option string) := λ m,
  match bodies m org coll !! key with
  | None => (Ok None, m)
  | Some v =>
      (Ok (Some v),
       mkMem (orgs m)
         (<[org := <[coll := delete key (bodies m org coll)]> (colls m org)]> (data m))
         (blobs m))
  end.

Definition keys (org coll : string) : ST memoryBackend (list string) := λ m,
  (Ok (sort_strings ((map_to_list (bodies m org coll)).*1)), m).

Definition range (org coll : string) : ST memoryBackend (list (string * string)) := λ m,
  (Ok (map_to_list (bodies m org coll)), m).

Definition collections (org : string) : ST memoryBackend (list string) := λ m,
  (Ok (sort_strings
         ((map_to_list (filter (λ kv, 0 < size kv.2) (colls m org))).*1)), m).

Definition putBlob (org checksum content : string) : ST memoryBackend unit := λ m,
  (Ok tt, mkMem (orgs m) (data m) (<[org := <[checksum := content]> (blobs_of m org)]> (blobs m))).

Definition blob (org checksum : string) : ST memoryBackend (option string) := λ m,
  (Ok (blobs_of m org !! checksum), m).

Definition hasBlob (org checksum : string) : ST memoryBackend bool := λ m,
  (Ok (bool_decide (is_Some (blobs_of m org !! checksum))), m).

(** [delete(m.blobs[org], checksum)]: a no-op when the org has no blob map. *)
Definition deleteBlob (org checksum : string) : ST memoryBackend unit := λ m,
  (Ok tt, mkMem (orgs m) (data m) (alter (delete checksum) org (blobs m))).

Definition createOrg (name : string) : ST memoryBackend unit := λ m,
  if bool_decide (name ∈ orgs m) then (Err ErrConflict, m)
  else (Ok tt, mkMem ({[name]} ∪ orgs m) (data m) (blobs m)).

Definition deleteOrg (name : string) : ST memoryBackend bool := λ m,
  if bool_decide (name ∉ orgs m) then (Ok false, m)
  else (Ok true, mkMem (orgs m ∖ {[name]}) (delete name (data m)) (delete name (blobs m))).

Definition listOrgs : ST memoryBackend (list string) := λ m,
  (Ok (sort_strings (elements (orgs m))), m).

Definition hasOrg (name : string) : ST memoryBackend bool := λ m,
  (Ok (bool_decide (name ∈ orgs m)), m).

(** [Tx]: snapshot, run [fn] on the backend itself, restore on error. What
    [fn] did outside the backend (the [X] component) is not undone. *)
Definition tx {X : Type} (fn : ST (memoryBackend * X) unit) : ST (memoryBackend * X) unit :=
  λ '(m, x),
  let snap := m in
  match fn (m, x) with
  | (Ok _, (m', x')) => (Ok tt, (m', x'))
  | (Err e, (m', x')) => (Err e, (mkMem (orgs snap) (data snap) (blobs snap), x'))
  end.

#[global] Instance memory_backend : Backend memoryBackend := {|
  Get := get; Put := put; Create := create; Delete := delete_; Keys := keys;
  Range := range; Collections := collections; PutBlob := putBlob; Blob := blob;
  HasBlob := hasBlob; DeleteBlob := deleteBlob; CreateOrg := createOrg;
  DeleteOrg := deleteOrg; ListOrgs := listOrgs; HasOrg := hasOrg; Tx := @tx
|}.

(** The abstraction function: nested maps as one map. *)
Definition mview (m : memoryBackend) : space :=
  mkSpace (orgs m)
    (map_uncurry (M12 := gmap (string * string * string))
       (map_uncurry (M12 := gmap (string * string)) (data m)))
    (map_uncurry (M12 := gmap (string * string)) (blobs m)).

#[global] Arguments mview : simpl never.

Lemma lookup_mview m o c k : s_objs (mview m) !! (o, c, k) = bodies m o c !! k.
Proof.
  unfold mview; simpl. rewrite !lookup_map_uncurry. unfold bodies, colls.
  destruct (data m !! o) as [cs|]; [|by simpl; rewrite lookup_empty].
  simpl. by destruct (cs !! c).
Qed.

Lemma lookup_mview_blob m o k : s_blobs (mview m) !! (o, k) = blobs_of m o !! k.
Proof.
  unfold mview; simpl. rewrite lookup_map_uncurry. unfold blobs_of. by destruct (blobs m !! o).
Qed.

Lemma bodies_set m o c k v o' c' :
  bodies (set o c k v m) o' c' =
  if decide ((o, c) = (o', c')) then <[k := v]> (bodies m o' c') else bodies m o' c'.
Proof.
  unfold bodies, colls, set; simpl. case_decide; simplify_eq.
  - by rewrite !lookup_insert_eq; simpl; rewrite lookup_insert_eq.
  - destruct (decide (o = o')) as [->|]; [|by rewrite lookup_insert_ne].
    rewrite lookup_insert_eq; simpl. rewrite lookup_insert_ne by congruence. done.
Qed.

Lemma space_eq (s t : space) :
  s_orgs s = s_orgs t →
  (∀ o c k, s_objs s !! (o, c, k) = s_objs t !! (o, c, k)) →
  (∀ o k, s_blobs s !! (o, k) = s_blobs t !! (o, k)) → s = t.
Proof.
  destruct s, t; simpl; intros -> H1 H2. f_equal.
  - apply map_eq. intros [[??]?]. apply H1.
  - apply map_eq. intros [??]. apply H2.
Qed.

Lemma mview_set m o c k v : mview (set o c k v m) = sp_put o c k v (mview m).
Proof.
  apply space_eq; [done| |done]. intros o' c' k'.
  rewrite lookup_mview, bodies_set. rewrite s_objs_put.
  destruct (decide ((o, c, k) = (o', c', k'))) as [?|Hne]; simplify_eq.
  - rewrite decide_True by done. by rewrite !lookup_insert_eq.
  - rewrite (lookup_insert_ne _ _ _ _ Hne), lookup_mview.
    case_decide; simplify_eq; [|done]. by rewrite lookup_insert_ne by congruence.
Qed.

Lemma bodies_coll_of m o c : bodies m o c = coll_of o c (s_objs (mview m)).
Proof. apply map_eq. intros k. by rewrite lookup_coll_of, lookup_mview. Qed.

Lemma mview_delete m o c k :
  mview (delete_ o c k m).2 = sp_delete o c k (mview m).
Proof.
  apply space_eq; [by unfold delete_; case_match | | by unfold delete_; case_match].
  intros o' c' k'. rewrite s_objs_delete. unfold delete_.
  destruct (bodies m o c !! k) as [v|] eqn:E; cbn [snd].
  - rewrite lookup_mview.
    destruct (decide ((o, c, k) = (o', c', k'))) as [?|Hne]; simplify_eq.
    + unfold bodies, colls; simpl. rewrite !lookup_insert_eq; simpl.
      by rewrite !lookup_insert_eq; simpl; rewrite !lookup_delete_eq.
    + rewrite (lookup_delete_ne _ _ _ Hne), lookup_mview.
      unfold bodies, colls; simpl.
      destruct (decide (o = o')) as [->|]; [|by rewrite lookup_insert_ne].
      rewrite lookup_insert_eq; simpl.
      destruct (decide (c = c')) as [->|]; [|by rewrite lookup_insert_ne].
      rewrite lookup_insert_eq; simpl. by rewrite lookup_delete_ne by congruence.
  - destruct (decide ((o, c, k) = (o', c', k'))) as [?|Hne]; simplify_eq.
    + by rewrite lookup_delete_eq, lookup_mview.
    + by rewrite lookup_delete_ne.
Qed.

Lemma mview_putBlob m o k v : mview (putBlob o k v m).2 = sp_put_blob o k v (mview m).
Proof.
  apply space_eq; [done|done|]. intros o' k'.
  rewrite lookup_mview_blob. rewrite s_blobs_put.
  unfold blobs_of, putBlob; cbn [snd blobs].
  destruct (decide (o = o')) as [->|Hne].
  - rewrite lookup_insert_eq; cbn [from_option id].
    destruct (decide (k = k')) as [->|]; [by rewrite !lookup_insert_eq|].
    rewrite !lookup_insert_ne by congruence. by rewrite lookup_mview_blob.
  - rewrite !lookup_insert_ne by congruence. by rewrite lookup_mview_blob.
Qed.

Lemma mview_deleteBlob m o k : mview (deleteBlob o k m).2 = sp_delete_blob o k (mview m).
Proof.
  apply space_eq; [done|done|]. intros o' k'.
  rewrite lookup_mview_blob. rewrite s_blobs_delete.
  unfold blobs_of, deleteBlob; cbn [snd blobs]. rewrite lookup_alter.
  case_decide as Ho; subst.
  - destruct (decide (k = k')) as [->|].
    + rewrite lookup_delete_eq. destruct (blobs m !! o'); simpl;
        [by rewrite lookup_delete_eq | by rewrite lookup_empty].
    + rewrite lookup_delete_ne by congruence. rewrite lookup_mview_blob. unfold blobs_of.
      destruct (blobs m !! o'); simpl; [by rewrite lookup_delete_ne | done].
  - rewrite lookup_delete_ne by congruence. by rewrite lookup_mview_blob.
Qed.

Lemma mview_deleteOrg m o :
  o ∈ orgs m → mview (deleteOrg o m).2 = sp_drop_org o (mview m).
Proof.
  intros Ho. unfold deleteOrg. rewrite bool_decide_eq_false_2 by tauto.
  apply space_eq; [done| |]; cbn [snd].
  - intros o' c k. rewrite lookup_mview.
    rewrite s_objs_drop. rewrite lookup_drop_objs, lookup_mview.
    unfold bodies, colls; cbn [data]. case_decide; subst.
    + by rewrite lookup_delete_eq.
    + by rewrite lookup_delete_ne.
  - intros o' k. rewrite lookup_mview_blob.
    rewrite s_blobs_drop. rewrite map_lookup_filter, lookup_mview_blob.
    unfold blobs_of; cbn [blobs]. destruct (decide (o' = o)) as [->|].
    + rewrite lookup_delete_eq; cbn [from_option id]. rewrite lookup_empty.
      destruct (default ∅ _ !! k); simpl; [|done]. case_guard; naive_solver.
    + rewrite lookup_delete_ne by done.
      destruct (default ∅ _ !! k); simpl; [|done]. case_guard; naive_solver.
Qed.

Lemma collections_spec m o :
  let l := sort_strings ((map_to_list (filter (λ kv, 0 < size kv.2) (colls m o))).*1) in
  StronglySorted String.le l ∧ NoDup l ∧
  ∀ c, c ∈ l ↔ ∃ k, is_Some (s_objs (mview m) !! (o, c, k)).
Proof.
  intros l. split; [apply sort_strings_sorted|]. split.
  - unfold l. rewrite sort_strings_perm. apply NoDup_fst_map_to_list.
  - intros c. unfold l. rewrite sort_strings_perm, list_elem_of_fmap. split.
    + intros [[c' bs] [-> Hin]]. apply elem_of_map_to_list in Hin.
      apply map_lookup_filter_Some in Hin as [Hc Hsz]. cbn [fst snd] in *.
      destruct (map_choose bs) as (k & v & Hk).
      { intros ->. rewrite map_size_empty in Hsz. lia. }
      exists k. rewrite lookup_mview. unfold bodies. rewrite Hc. simpl. by rewrite Hk.
    + intros [k [v Hk]]. rewrite lookup_mview in Hk. unfold bodies in Hk.
      destruct (colls m o !! c) as [bs|] eqn:E; simpl in Hk; [|done].
      exists (c, bs). split; [done|]. apply elem_of_map_to_list, map_lookup_filter_Some.
      split; [done|]. simpl. destruct (decide (size bs = 0)) as [Hz|]; [|lia].
      apply map_size_empty_inv in Hz. by simplify_map_eq.
Qed.

(** Expose the memory backend's operation behind an interface call. *)
Ltac open_mem :=
  intros; unfold reads, writes, creates;
  cbn [Get Put Create Delete Keys Range Collections PutBlob Blob HasBlob DeleteBlob
       CreateOrg DeleteOrg ListOrgs HasOrg Tx memory_backend];
  unfold get, put, create, keys, range, collections, blob, hasBlob, createOrg,
    listOrgs, hasOrg; cbn beta iota.

(** The memory backend keeps the promise of the interface. *)
#[global] Program Instance memory_spec : BackendSpec memoryBackend := {| view := mview |}.
Next Obligation. open_mem. by rewrite lookup_mview. Qed.
Next Obligation. open_mem. by rewrite mview_set. Qed.
Next Obligation.
  open_mem. rewrite lookup_mview. destruct (bodies b o c !! k) eqn:E; [done|].
  split; [by intros [? ?] | by rewrite mview_set].
Qed.
Next Obligation.
  open_mem. pose proof (mview_delete b o c k) as H.
  rewrite lookup_mview. unfold delete_ in *.
  destruct (bodies b o c !! k) eqn:E; cbn [snd] in H; by rewrite <-H.
Qed.
Next Obligation. open_mem. by rewrite bodies_coll_of. Qed.
Next Obligation. open_mem. by rewrite bodies_coll_of. Qed.
Next Obligation. open_mem. split; [apply collections_spec | done]. Qed.
Next Obligation. open_mem. by rewrite <-mview_putBlob. Qed.
Next Obligation. open_mem. by rewrite lookup_mview_blob. Qed.
Next Obligation. open_mem. by rewrite lookup_mview_blob, bool_decide_eq_true. Qed.
Next Obligation. open_mem. by rewrite <-mview_deleteBlob. Qed.
Next Obligation. open_mem. by case_bool_decide. Qed.
Next Obligation.
  open_mem. unfold deleteOrg. case_bool_decide as H; [done|].
  split; [done|]. rewrite <-mview_deleteOrg by done.
  unfold deleteOrg. by rewrite bool_decide_eq_false_2 by tauto.
Qed.
Next Obligation. by open_mem. Qed.
Next Obligation. open_mem. by rewrite bool_decide_eq_true. Qed.
Next Obligation.
  open_mem. unfold tx. destruct (fn (b, x)) as [[[]|e] [b' x']] eqn:E.
  - by exists b, b'.
  - split; [by destruct b|]. right. by exists b, (Err e), b'.
Qed.
Next Obligation.
  intros X fn b x st'. cbn. unfold tx. destruct (fn (b, x)) as [[[]|e] [b' x']] eqn:E; [done|]. intros [= -> <-]. by exists b, (b', x').
Qed.

End Memory.

(** ** Runs of backend calls

    A sequence of calls, as a client of the interface makes them, and what each
    one answers. [Range] answers with the map it lists, since the order of a Go
    map iteration is unspecified. *)

Inductive call :=
  | CGet (o c k : string) | CPut (o c k v : string) | CCreate (o c k v : string)
  | CDelete (o c k : string) | CKeys (o c : string) | CRange (o c : string)
  | CCollections (o : string)
  | CPutBlob (o k v : string) | CBlob (o k : string) | CHasBlob (o k : string) | CDeleteBlob (o k : string)
  | CCreateOrg (o : string) | CDeleteOrg (o : string) | CListOrgs | CHasOrg (o : string).

Inductive answer :=
  | AError (e : gerror) | AUnit | ABool (b : bool) | AValue (v : option string)
  | AList (l : list string) | AMap (m : gmap string string).

Definition answer_of {B A} (f : A → answer) (m : ST B A) (b : B) : answer * B :=
  match m b with
  | (Ok a, b') => (f a, b')
  | (Err e, b') => (AError e, b')
  end.

Definition perform `{Backend B} (c : call) : B → answer * B :=
  match c with
  | CGet o c k => answer_of AValue (Get o c k)
  | CPut o c k v => answer_of (λ _, AUnit) (Put o c k v)
  | CCreate o c k v => answer_of (λ _, AUnit) (Create o c k v)
  | CDelete o c k => answer_of AValue (Delete o c k)
  | CKeys o c => answer_of AList (Keys o c)
  | CRange o c => answer_of (λ l, AMap (list_to_map l)) (Range o c)
  | CCollections o => answer_of AList (Collections o)
  | CPutBlob o k v => answer_of (λ _, AUnit) (PutBlob o k v)
  | CBlob o k => answer_of AValue (Blob o k)
  | CHasBlob o k => answer_of ABool (HasBlob o k)
  | CDeleteBlob o k => answer_of (λ _, AUnit) (DeleteBlob o k)
  | CCreateOrg o => answer_of (λ _, AUnit) (CreateOrg o)
  | CDeleteOrg o => answer_of ABool (DeleteOrg o)
  | CListOrgs => answer_of AList ListOrgs
  | CHasOrg o => answer_of ABool (HasOrg o)
  end.

(** The collections of an organization that hold an object. *)
Definition sp_collections (o : string) (s : space) : list string :=
  sort_strings (elements (set_map (λ k : string * string * string, k.1.2)
    (filter (λ k : string * string * string, k.1.1 = o) (dom (s_objs s))) : gset string)).

(** The same calls on the abstract space. *)
Definition perform_space (c : call) (s : space) : answer * space :=
  match c with
  | CGet o c k => (AValue (s_objs s !! (o, c, k)), s)
  | CPut o c k v => (AUnit, sp_put o c k v s)
  | CCreate o c k v =>
      match s_objs s !! (o, c, k) with
      | Some _ => (AError ErrConflict, s)
      | None => (AUnit, sp_put o c k v s)
      end
  | CDelete o c k => (AValue (s_objs s !! (o, c, k)), sp_delete o c k s)
  | CKeys o c => (AList (sort_strings ((map_to_list (coll_of o c (s_objs s))).*1)), s)
  | CRange o c => (AMap (coll_of o c (s_objs s)), s)
  | CCollections o => (AList (sp_collections o s), s)
  | CPutBlob o k v => (AUnit, sp_put_blob o k v s)
  | CBlob o k => (AValue (s_blobs s !! (o, k)), s)
  | CHasBlob o k => (ABool (bool_decide (is_Some (s_blobs s !! (o, k)))), s)
  | CDeleteBlob o k => (AUnit, sp_delete_blob o k s)
  | CCreateOrg o =>
      if decide (o ∈ s_orgs s) then (AError ErrConflict, s) else (AUnit, sp_create_org o s)
  | CDeleteOrg o =>
      if decide (o ∈ s_orgs s) then (ABool true, sp_drop_org o s) else (ABool false, s)
  | CListOrgs => (AList (sort_strings (elements (s_orgs s))), s)
  | CHasOrg o => (ABool (bool_decide (o ∈ s_orgs s)), s)
  end.

(** The function given to a transaction: calls on the backend it is handed, each
    chosen by the answers before it, and in the end the error it returns, or
    none. *)
Inductive body :=
  | Return (r : result unit)
  | Then (c : call) (next : answer → body).

(** A run of the function, with the answers it got. *)
Fixpoint run_body {S} (step : call → S → answer * S) (p : body) (s : S) : result unit * list answer * S :=
  match p with
  | Return r => (r, [], s)
  | Then c next =>
      let '(a, s1) := step c s in
      let '(r, as_, s2) := run_body step (next a) s1 in (r, a :: as_, s2)
  end.

(** What a client does: one call, or a transaction; it answers with what the
    calls in it answered and what [Tx] returned. *)
Inductive op := Call (c : call) | InTransaction (p : body).
Inductive outcome := Answered (a : answer) | Ended (as_ : list answer) (r : result unit).

Definition body_fn `{Backend B} (p : body) : ST (B * list answer) unit := λ '(b, _),
  let '(r, as_, b') := run_body perform p b in (r, (b', as_)).

Definition perform_op `{Backend B} (o : op) (b : B) : outcome * B :=
  match o with
  | Call c => let '(a, b') := perform c b in (Answered a, b')
  | InTransaction p => let '(r, (b', as_)) := Tx (body_fn p) (b, []) in (Ended as_ r, b')
  end.

(** On the space: all of the transaction, or nothing when it returned an error. *)
Definition perform_op_space (o : op) (s : space) : outcome * space :=
  match o with
  | Call c => let '(a, s') := perform_space c s in (Answered a, s')
  | InTransaction p =>
      let '(r, as_, s') := run_body perform_space p s in
      (Ended as_ r, match r with Ok _ => s' | Err _ => s end)
  end.

Fixpoint perform_all {S} (step : op → S → outcome * S) (ops : list op) (s : S) : list outcome * S :=
  match ops with
  | [] => ([], s)
  | o :: ops' =>
      let '(a, s1) := step o s in
      let '(as_, s2) := perform_all step ops' s1 in (a :: as_, s2)
  end.

(** A call that answered, and was not a fault of the store. *)
Definition answered (a : answer) : Prop := match a with AError (ErrOther _) => False | _ => True end.

(** What the function returns, given the answers it got. *)
Fixpoint verdict (p : body) (as_ : list answer) : option (result unit) :=
  match p, as_ with
  | Return r, [] => Some r
  | Then _ next, a :: as_ => verdict (next a) as_
  | _, _ => None
  end.

(** No fault was met: no call in it failed, and a transaction ended as its
    function did (it began, and its commit did not fail). *)
Definition faultless (o : op) (out : outcome) : Prop :=
  match o, out with
  | Call _, Answered a => answered a
  | InTransaction p, Ended as_ r => Forall answered as_ ∧ verdict p as_ = Some r
  | _, _ => False
  end.

Lemma elem_of_sp_collections o s c : c ∈ sp_collections o s ↔ ∃ k, is_Some (s_objs s !! (o, c, k)).
Proof.
  unfold sp_collections. rewrite sort_strings_perm, elem_of_elements, elem_of_map. split.
  - intros ([[o' c'] k] & -> & [Ho Hd]%elem_of_filter). cbn in *. subst. exists k. by apply elem_of_dom.
  - intros [k Hk]. exists (o, c, k). split; [done|]. apply elem_of_filter. split; [done|]. by apply elem_of_dom.
Qed.

(** A sorted list without repetitions is its members. *)
Lemma collections_unique o s l : StronglySorted String.le l → NoDup l →
  (∀ c, c ∈ l ↔ ∃ k, is_Some (s_objs s !! (o, c, k))) → l = sp_collections o s.
Proof.
  intros Hs Hn Hl. eapply (StronglySorted_unique String.le); [done|apply sort_strings_sorted|].
  apply NoDup_Permutation; [done|unfold sp_collections; rewrite sort_strings_perm; apply NoDup_elements|].
  intros c. by rewrite Hl, elem_of_sp_collections.
Qed.

Section Refinement.
Context {B : Type} `{BackendSpec B}.

(** An answer that is not a backend fault is the abstract space's answer, and
    the abstract state moves as the space does. *)
Definition agrees (c : call) (b : B) : Prop :=
  match perform c b with
  | (AError (ErrOther _), _) => True
  | (a, b') => perform_space c (view b) = (a, view b')
  end.

Lemma list_to_map_perm (l : list (string * string)) (m : gmap string string) :
  l ≡ₚ map_to_list m → list_to_map l = m.
Proof.
  intros Hl. rewrite <-(list_to_map_to_list m). apply list_to_map_proper; [|done].
  rewrite Hl. apply NoDup_fst_map_to_list.
Qed.

(** Resolve one interface call by its law. *)
Ltac by_law L :=
  let K := fresh "K" in
  pose proof L as K; unfold reads, writes, creates in K;
  repeat case_match; simplify_eq; split_hyps; simplify_eq; try done.

Lemma perform_agrees (c : call) (b : B) : agrees c b.
Proof.
  unfold agrees, perform, answer_of, perform_space. destruct c.
  - by_law (Get_spec o c k b). congruence.
  - by_law (Put_spec o c k v b). congruence.
  - by_law (Create_spec o c k v b); try (exfalso; naive_solver); congruence.
  - by_law (Delete_spec o c k b). congruence.
  - by_law (Keys_spec o c b). congruence.
  - by_law (Range_spec o c b). erewrite list_to_map_perm by done. congruence.
  - by_law (Collections_spec o b). rewrite <-(collections_unique o (view b) a); [congruence|done..].
  - by_law (PutBlob_spec o k v b). congruence.
  - by_law (Blob_spec o k b). congruence.
  - by_law (HasBlob_spec o k b). destruct a; case_bool_decide; intuition congruence.
  - by_law (DeleteBlob_spec o k b). congruence.
  - by_law (CreateOrg_spec o b); congruence.
  - by_law (DeleteOrg_spec o b); congruence.
  - by_law (ListOrgs_spec b); congruence.
  - by_law (HasOrg_spec o b). destruct a; case_bool_decide; intuition congruence.
Qed.

Lemma perform_answered (c : call) (b : B) : answered (perform c b).1 →
  perform_space c (view b) = ((perform c b).1, view (perform c b).2).
Proof. pose proof (perform_agrees c b) as Ha. unfold agrees in Ha. by destruct (perform c b) as [[[]| | | | |] b']. Qed.

(** A function whose calls all answered ran as on the space. *)
Lemma run_body_agrees (p : body) (b : B) : let '(r, as_, b') := run_body perform p b in
  verdict p as_ = Some r ∧ (Forall answered as_ → run_body perform_space p (view b) = (r, as_, view b')).
Proof.
  revert b. induction p as [r|c next IH]; intros b; [done|]. cbn [run_body].
  pose proof (perform_answered c b) as Hc. destruct (perform c b) as [a b1]. cbn [fst snd] in Hc.
  specialize (IH a b1). destruct (run_body perform (next a) b1) as [[r as_] b2]. destruct IH as [Hv IH]. split; [done|].
  intros [Ha Has]%Forall_cons. rewrite (Hc Ha). by rewrite (IH Has).
Qed.

(** An operation that met no fault. *)
Lemma perform_op_agrees (o : op) (b : B) : faultless o (perform_op o b).1 →
  perform_op_space o (view b) = ((perform_op o b).1, view (perform_op o b).2).
Proof.
  destruct o as [c|p]; cbn [perform_op perform_op_space].
  - pose proof (perform_answered c b) as Hc. destruct (perform c b) as [a b1]. cbn. intros Ha. by rewrite (Hc Ha).
  - pose proof (Tx_spec (body_fn p) b []) as L. destruct (Tx (body_fn p) (b, [])) as [r [b' as_]]. cbn [fst snd faultless].
    intros [Has Hv].
    assert (∀ b1 r' b2, view b1 = view b → body_fn p (b1, []) = (r', (b2, as_)) →
      r' = r ∧ run_body perform_space p (view b) = (r, as_, view b2)) as Hrun.
    { intros b1 r' b2 <- Hf. unfold body_fn in Hf. pose proof (run_body_agrees p b1) as Hb.
      destruct (run_body perform p b1) as [[r1 as1] b3]. simplify_eq. destruct Hb as [Hv' Hb].
      rewrite Hv in Hv'. simplify_eq. auto. }
    destruct r as [[]|e].
    + destruct L as (b1 & b2 & Hv1 & Hf & ->). by destruct (Hrun _ _ _ Hv1 Hf) as [_ ->].
    + destruct L as [-> [->|(b1 & r' & b2 & Hv1 & Hf)]].
      * destruct p; cbn in Hv; [|done]. by simplify_eq.
      * by destruct (Hrun _ _ _ Hv1 Hf) as [_ ->].
Qed.

(** A run that met no fault. *)
Lemma perform_all_agrees (ops : list op) (b : B) : Forall2 faultless ops (perform_all perform_op ops b).1 →
  perform_all perform_op_space ops (view b) =
  ((perform_all perform_op ops b).1, view (perform_all perform_op ops b).2).
Proof.
  revert b. induction ops as [|o ops IH]; intros b Hok; [done|]. cbn [perform_all] in *.
  pose proof (perform_op_agrees o b) as Ho. destruct (perform_op o b) as [out b1]. specialize (IH b1).
  destruct (perform_all perform_op ops b1) as [outs b2]. cbn [fst snd] in *.
  apply Forall2_cons in Hok as [H1 Hok]. by rewrite (Ho H1), (IH Hok).
Qed.
End Refinement.

(** A memory backend call never reports a fault. *)
Lemma perform_memory_answered (c : call) (m : Memory.memoryBackend) : answered (perform c m).1.
Proof.
  destruct c; unfold perform, answer_of; simpl;
    unfold Memory.create, Memory.delete_, Memory.createOrg, Memory.deleteOrg; crush_match.
Qed.

Lemma run_body_memory_answered (p : body) (m : Memory.memoryBackend) : Forall answered (run_body perform p m).1.2.
Proof.
  revert m. induction p as [r|c next IH]; intros m; [by constructor|]. cbn [run_body].
  pose proof (perform_memory_answered c m) as Hc. destruct (perform c m) as [a m1]. specialize (IH a m1).
  destruct (run_body perform (next a) m1) as [[r as_] m2]. by constructor.
Qed.

Lemma perform_op_memory_faultless (o : op) (m : Memory.memoryBackend) : faultless o (perform_op o m).1.
Proof.
  destruct o as [c|p]; cbn [perform_op].
  - pose proof (perform_memory_answered c m) as Hc. by destruct (perform c m).
  - change (Tx (body_fn p) (m, [])) with (Memory.tx (body_fn p) (m, [])). unfold Memory.tx, body_fn.
    pose proof (run_body_memory_answered p m) as Ha. pose proof (run_body_agrees p m) as Hv.
    destruct (run_body perform p m) as [[[[]|e] as_] m']; by destruct Hv.
Qed.

Lemma perform_all_memory_faultless (ops : list op) (m : Memory.memoryBackend) :
  Forall2 faultless ops (perform_all perform_op ops m).1.
Proof.
  revert m. induction ops as [|o ops IH]; intros m; [constructor|]. cbn [perform_all].
  pose proof (perform_op_memory_faultless o m) as Ho. destruct (perform_op o m) as [out m1]. specialize (IH m1).
  destruct (perform_all perform_op ops m1) as [outs m2]. by constructor.
Qed.

(** C16. The memory backend refines the Backend contract: from empty, every
    sequence of the interface's calls (reads, writes and creates of objects and
    blobs, listings of keys, collections and organizations, organization drops)
    and of transactions, whose function makes any calls on the backend it is
    handed, each chosen by the answers before it, and then returns nil or an
    error, is answered exactly as the abstract object space answers it, and the
    nested maps it reaches are that space: all of a transaction that returned
    nil, nothing of one that returned an error. (A transaction inside a
    transaction, which the interface forbids, is not among the calls.) *)
Theorem memory_refines_space (ops : list op) :
  perform_all perform_op_space ops empty_space =
  ((perform_all perform_op ops Memory.NewMemoryBackend).1,
   Memory.mview (perform_all perform_op ops Memory.NewMemoryBackend).2).
Proof.
  exact (perform_all_agrees ops Memory.NewMemoryBackend (perform_all_memory_faultless ops _)).
Qed.

(** A transaction that looks before it writes, and is rolled back. *)
Definition sample_ops : list op :=
  [Call (CCreateOrg "acme"); Call (CPut "acme" "nodes" "web" "{}");
   InTransaction (Then (CGet "acme" "nodes" "web") (λ a, Then (CDelete "acme" "nodes" "web") (λ _,
     Then (CPut "acme" "roles" "db" "{}") (λ _, Return (match a with AValue (Some _) => Err ErrConflict | _ => Ok tt end)))));
   Call (CCollections "acme"); Call (CHasBlob "acme" "c0ffee")].

Example sample_ops_answers : (perform_all perform_op sample_ops Memory.NewMemoryBackend).1 =
  [Answered AUnit; Answered AUnit; Ended [AValue (Some "{}"); AValue (Some "{}"); AUnit] (Err ErrConflict);
   Answered (AList ["nodes"]); Answered (ABool false)].
Proof. vm_compute. reflexivity. Qed.

(** ** A backend that may fail

    [Faulty B] is [B] behind a schedule of faults: each call consumes one entry
    and fails, without effect, when it is [true]. It stands for a database whose
    reads and writes can fail at any point; an empty schedule never fails. *)

Module Faulty.

Record faulty (B : Type) := mkFaulty { inner : B; schedule : list bool }.
Arguments mkFaulty {B}.
Arguments inner {B}.
Arguments schedule {B}.

Definition fault_msg : string := "backend fault".

Definition guarded {B A} (m : ST B A) : ST (faulty B) A := λ f,
  match schedule f with
  | true :: sch => (Err (ErrOther fault_msg), mkFaulty (inner f) sch)
  | sch => let '(r, b) := m (inner f) in (r, mkFaulty b (tail sch))
  end.

(** A transaction may fail to begin; its rollback restores the inner backend. *)
Definition tx {B X} (fn : ST (faulty B * X) unit) : ST (faulty B * X) unit :=
  λ '(f, x),
  match schedule f with
  | true :: sch => (Err (ErrOther fault_msg), (mkFaulty (inner f) sch, x))
  | sch =>
      match fn (mkFaulty (inner f) (tail sch), x) with
      | (Ok _, st) => (Ok tt, st)
      | (Err e, (f', x')) => (Err e, (mkFaulty (inner f) (schedule f'), x'))
      end
  end.

#[global] Instance faulty_backend `{Backend B} : Backend (faulty B) := {|
  Get o c k := guarded (Get o c k); Put o c k v := guarded (Put o c k v);
  Create o c k v := guarded (Create o c k v); Delete o c k := guarded (Delete o c k);
  Keys o c := guarded (Keys o c); Range o c := guarded (Range o c);
  Collections o := guarded (Collections o); PutBlob o k v := guarded (PutBlob o k v);
  Blob o k := guarded (Blob o k); HasBlob o k := guarded (HasBlob o k);
  DeleteBlob o k := guarded (DeleteBlob o k); CreateOrg o := guarded (CreateOrg o);
  DeleteOrg o := guarded (DeleteOrg o); ListOrgs := guarded ListOrgs;
  HasOrg o := guarded (HasOrg o); Tx _ fn := tx fn
|}.

Section Spec.
Context {B : Type} `{BackendSpec B}.

Definition fview (f : faulty B) : space := view (inner f).

Lemma guarded_reads {A} (m : ST B A) P f :
  reads view m (inner f) P → reads fview (guarded m) f P.
Proof.
  unfold reads, guarded, fview. intros Hm.
  destruct (schedule f) as [|[] sch]; [|done|]; destruct (m (inner f)) as [[]]; done.
Qed.

Lemma guarded_writes {A} (m : ST B A) P g f :
  writes view m (inner f) P g → writes fview (guarded m) f P g.
Proof.
  unfold writes, guarded, fview. intros Hm.
  destruct (schedule f) as [|[] sch]; [|done|]; destruct (m (inner f)) as [[]]; done.
Qed.

Lemma guarded_creates (m : ST B unit) P g f :
  creates view m (inner f) P g → creates fview (guarded m) f P g.
Proof.
  unfold creates, guarded, fview. intros Hm.
  destruct (schedule f) as [|[] sch]; [|done|]; destruct (m (inner f)) as [[|[]]]; done.
Qed.

#[global] Program Instance faulty_spec : BackendSpec (faulty B) := {| view := fview |}.
Next Obligation. intros. apply guarded_reads, Get_spec. Qed.
Next Obligation. intros. apply guarded_writes, Put_spec. Qed.
Next Obligation. intros. apply guarded_creates, Create_spec. Qed.
Next Obligation. intros. apply guarded_writes, Delete_spec. Qed.
Next Obligation. intros. apply guarded_reads, Keys_spec. Qed.
Next Obligation. intros. apply guarded_reads, Range_spec. Qed.
Next Obligation. intros. apply guarded_reads, Collections_spec. Qed.
Next Obligation. intros. apply guarded_writes, PutBlob_spec. Qed.
Next Obligation. intros. apply guarded_reads, Blob_spec. Qed.
Next Obligation. intros. apply guarded_reads, HasBlob_spec. Qed.
Next Obligation. intros. apply guarded_writes, DeleteBlob_spec. Qed.
Next Obligation. intros. apply guarded_creates, CreateOrg_spec. Qed.
Next Obligation.
  intros o f. simpl. pose proof (DeleteOrg_spec o (inner f)) as Hd. unfold guarded, fview.
  destruct (schedule f) as [|[] sch]; [|done|];
    destruct (DeleteOrg o (inner f)) as [[[]|]]; done.
Qed.
Next Obligation. intros. apply guarded_reads, ListOrgs_spec. Qed.
Next Obligation. intros. apply guarded_reads, HasOrg_spec. Qed.
Next Obligation.
  intros X fn f x. simpl. unfold tx, fview.
  destruct (schedule f) as [|[] sch]; [| by split; [|left] |];
    (match goal with |- context [fn (?f0, _)] => destruct (fn (f0, x)) as [[[]|e] [f' x']] eqn:E end);
    simpl; first [ by eexists _, _; split_and!; [|exact E|]
                 | split; [done|]; right; by eexists _, _, _; split; [|exact E] ].
Qed.
Next Obligation.
  intros X fn f x st'. simpl. unfold tx, fview. destruct (schedule f) as [|[] sch]; [|done|];
    (match goal with |- context [fn (?f0, _)] => destruct (fn (f0, x)) as [[[]|e] [f' x']] eqn:E end);
    simpl; [done| |done|]; intros [= -> <-]; by eexists _, _; split; [|exact E].
Qed.
End Spec.

End Faulty.
