(* ===== verification/Facade.v ===== *)
(** * internal/store: the Store/Org facade and its write stream

    Models store/store.go and store/watch.go over any [Backend]: organization
    handles, the groups generation, the operation counts, the observers of the
    write stream and transactions, whose events are buffered until they commit. *)
From S2P Require Import Prelude Store.
#[local] Open Scope go_scope.

(** ** Events and emitters (store/watch.go) *)

Record Event := mkEvent {
  ev_org : string;
  ev_coll : string;
  ev_key : string;
  ev_value : option string;   (* nil for a delete *)
  ev_deleted : bool;
}.

#[export] Instance Event_eq_dec : EqDecision Event.
Proof. solve_decision. Defined.

Record Counts := mkCounts { Reads : Z; Writes : Z; Deletes : Z; Scans : Z }.

Definition zero_counts : Counts := mkCounts 0 0 0 0.
Definition count_read (c : Counts) := mkCounts (wrap_int64 (Reads c + 1)) (Writes c) (Deletes c) (Scans c).
Definition count_write (c : Counts) := mkCounts (Reads c) (wrap_int64 (Writes c + 1)) (Deletes c) (Scans c).
Definition count_delete (c : Counts) := mkCounts (Reads c) (Writes c) (wrap_int64 (Deletes c + 1)) (Scans c).
Definition count_scan (c : Counts) := mkCounts (Reads c) (Writes c) (Deletes c) (wrap_int64 (Scans c + 1)).

(** What a Store shares with every handle it gives out. The observers are
    functions on the derived state [O] they keep current. [txbuf] is the
    emitter: [None] sends events straight to the observers, [Some evs] is a
    transaction's buffer. *)
Record shared (O : Type) := mkShared {
  groupsGen : Z;                    (* atomic.Uint64 *)
  watch : list (Event → O → O);
  obs : O;
  txbuf : option (list Event);
  counts : Counts;
}.
Arguments mkShared {O}.
Arguments groupsGen {O}.
Arguments watch {O}.
Arguments obs {O}.
Arguments txbuf {O}.
Arguments counts {O}.

Section Shared.
Context {O : Type}.
Implicit Types sh : shared O.

Definition with_gen (g : Z) sh := mkShared g (watch sh) (obs sh) (txbuf sh) (counts sh).
Definition with_obs (o : O) sh := mkShared (groupsGen sh) (watch sh) o (txbuf sh) (counts sh).
Definition with_buf (b : option (list Event)) sh :=
  mkShared (groupsGen sh) (watch sh) (obs sh) b (counts sh).
Definition with_counts (c : Counts) sh :=
  mkShared (groupsGen sh) (watch sh) (obs sh) (txbuf sh) c.

(** [watchers.add]: observers are kept in registration order. *)
Definition watchers_add (fn : Event → O → O) sh : shared O :=
  mkShared (groupsGen sh) (watch sh ++ [fn]) (obs sh) (txbuf sh) (counts sh).

(** [watchers.emit]: every observer, in registration order. *)
Definition watchers_emit (ev : Event) (fns : list (Event → O → O)) (o : O) : O :=
  foldl (λ o fn, fn ev o) o fns.

(** [txBuffer.emit]. *)
Definition txBuffer_emit (ev : Event) (events : list Event) : list Event := events ++ [ev].

(** The handle's emitter: the observers, or the buffer inside a transaction. *)
Definition emit (ev : Event) sh : shared O :=
  match txbuf sh with
  | None => with_obs (watchers_emit ev (watch sh) (obs sh)) sh
  | Some evs => with_buf (Some (txBuffer_emit ev evs)) sh
  end.

(** [txBuffer.flushTo]: replay the buffered events, in order. *)
Definition flushTo (evs : list Event) sh : shared O := foldl (λ s ev, emit ev s) sh evs.

Definition groupsColl : string := "groups".

(** [Org.noteWrite]. *)
Definition noteWrite (coll : string) sh : shared O :=
  if decide (coll = groupsColl) then with_gen (wrap64 (groupsGen sh + 1)) sh else sh.

(** [Org.note]: after a write has landed. *)
Definition note (org coll key : string) (val : option string) (deleted : bool) sh : shared O :=
  emit (mkEvent org coll key val deleted) (noteWrite coll sh).

End Shared.

(** ** Store and Org (store/store.go) *)

Section Store.
Context {B : Type} `{Backend B} {O : Type}.

(** A Store: its backend and what its handles share. *)
Definition Store : Type := B * shared O.

Definition lift {A} (m : ST B A) : ST Store A := λ '(b, sh),
  let '(r, b') := m b in (r, (b', sh)).

Definition tally (f : Counts → Counts) : ST Store unit := λ '(b, sh),
  (Ok tt, (b, with_counts (f (counts sh)) sh)).

Definition noted (org coll key : string) (val : option string) (deleted : bool) : ST Store unit :=
  λ '(b, sh), (Ok tt, (b, note org coll key val deleted sh)).

Definition NewWithBackend (b : B) (o : O) : Store := (b, mkShared 0 [] o None zero_counts).

Definition Watch (fn : Event → O → O) (s : Store) : Store := (s.1, watchers_add fn s.2).

(** A handle is its organization's name; [Global] is the empty name. *)
Definition Global : string := "".

Definition Store_CreateOrg (name : string) : ST Store string :=
  lift (CreateOrg name) ;;! st_ret name.

Definition Store_Org (name : string) : ST Store (option string) :=
  let! ok := lift (HasOrg name) in st_ret (if ok then Some name else None).

(** An org-wide drop is reported with no collection. *)
Definition Store_DeleteOrg (name : string) : ST Store bool := λ '(b, sh),
  match DeleteOrg name b with
  | (Ok existed, b') =>
      (Ok existed, (b', if existed then emit (mkEvent name "" "" None true) sh else sh))
  | (Err e, b') => (Err e, (b', sh))
  end.

Definition Store_ListOrgs : ST Store (list string) := lift ListOrgs.

(** [fn] sees a Store whose events go to a fresh buffer; the buffer is flushed
    to this Store's emitter only when the backend committed. *)
Definition Store_Tx (fn : ST Store unit) : ST Store unit := λ '(b, sh),
  match Tx fn (b, with_buf (Some []) sh) with
  | (Ok _, (b', sh')) =>
      (Ok tt, (b', flushTo (default [] (txbuf sh')) (with_buf (txbuf sh) sh')))
  | (Err e, (b', sh')) => (Err e, (b', with_buf (txbuf sh) sh'))
  end.

Definition GroupsGeneration (s : Store) : Z := groupsGen s.2.

Definition Org_Create (org coll key val : string) : ST Store unit :=
  tally count_write ;;! lift (Create org coll key val) ;;!
  noted org coll key (Some val) false.

Definition Org_Put (org coll key val : string) : ST Store unit :=
  tally count_write ;;! lift (Put org coll key val) ;;!
  noted org coll key (Some val) false.

Definition Org_Get (org coll key : string) : ST Store (option string) :=
  tally count_read ;;! lift (Get org coll key).

Definition Org_View (org coll key : string) : ST Store (option string) :=
  tally count_read ;;! lift (Get org coll key).

Definition Org_Range (org coll : string) : ST Store (list (string * string)) :=
  tally count_scan ;;! lift (Range org coll).

Definition Org_Delete (org coll key : string) : ST Store (option string) :=
  tally count_delete ;;!
  let! old := lift (Delete org coll key) in
  match old with
  | Some _ => noted org coll key None true ;;! st_ret old
  | None => st_ret None
  end.

Definition Org_Keys (org coll : string) : ST Store (list string) := lift (Keys org coll).
Definition Org_PutBlob (org checksum content : string) : ST Store unit :=
  lift (PutBlob org checksum content).
Definition Org_Blob (org checksum : string) : ST Store (option string) := lift (Blob org checksum).
Definition Org_HasBlob (org checksum : string) : ST Store bool := lift (HasBlob org checksum).
Definition Org_DeleteBlob (org checksum : string) : ST Store unit := lift (DeleteBlob org checksum).
Definition Org_Collections (org : string) : ST Store (list string) := lift (Collections org).

End Store.
Arguments Store : clear implicits.

(** ** Replaying the write stream *)

(** What one event says happened to the objects: an org-wide drop, a delete or
    a write. *)
Definition apply_event (ev : Event) (m : gmap (string * string * string) string) :=
  if ev_deleted ev then
    if decide (ev_coll ev = "") then drop_objs (ev_org ev) m
    else delete (ev_org ev, ev_coll ev, ev_key ev) m
  else
    match ev_value ev with
    | Some v => <[(ev_org ev, ev_coll ev, ev_key ev) := v]> m
    | None => m
    end.

Definition replay (evs : list Event) (m : gmap (string * string * string) string) :=
  foldl (λ m ev, apply_event ev m) m evs.

(** The writes a program makes through the facade. *)
Inductive write :=
  | WCreate (o c k v : string)
  | WPut (o c k v : string)
  | WDelete (o c k : string)
  | WCreateOrg (o : string)
  | WDeleteOrg (o : string).

(** A write on its own, or a transaction: writes in order up to the first
    error, then the error [fn] itself returns, if any. *)
Inductive action :=
  | One (w : write)
  | Atomically (ws : list write) (fail : option gerror).

(** A delete names a collection (none of the server's is the empty string,
    which the stream reserves for an org-wide drop). *)
Definition named (w : write) : Prop :=
  match w with WDelete _ c _ => c ≠ "" | _ => True end.
Definition named_action (a : action) : Prop :=
  match a with One w => named w | Atomically ws _ => Forall named ws end.

Section Run.
Context {B : Type} `{Backend B} {O : Type}.

Definition run_write (w : write) : ST (Store B O) unit :=
  match w with
  | WCreate o c k v => Org_Create o c k v
  | WPut o c k v => Org_Put o c k v
  | WDelete o c k => Org_Delete o c k ;;! st_ret tt
  | WCreateOrg o => Store_CreateOrg o ;;! st_ret tt
  | WDeleteOrg o => Store_DeleteOrg o ;;! st_ret tt
  end.

Definition tx_body (ws : list write) (fail : option gerror) : ST (Store B O) unit :=
  st_each run_write ws ;;! match fail with None => st_ret tt | Some e => st_fail e end.

Definition run_action (a : action) : ST (Store B O) unit :=
  match a with
  | One w => run_write w
  | Atomically ws fail => Store_Tx (tx_body ws fail)
  end.

(** A program goes on after a failed action, as a server does. *)
Definition run_actions (acts : list action) (s : Store B O) : Store B O :=
  foldl (λ s a, (run_action a s).2) s acts.

End Run.

(** ** The write stream describes the store *)

(** What the observers make of a list of events. *)
Definition observed {O} (fns : list (Event → O → O)) (o : O) (evs : list Event) : O :=
  foldl (λ o ev, watchers_emit ev fns o) o evs.

Lemma observed_app {O} (fns : list (Event → O → O)) o evs evs' :
  observed fns o (evs ++ evs') = observed fns (observed fns o evs) evs'.
Proof. unfold observed. by rewrite foldl_app. Qed.

(** An observer that keeps every event it is given. *)
Definition logger : Event → list Event → list Event := λ ev log, log ++ [ev].

Lemma observed_logger log evs : observed [logger] log evs = log ++ evs.
Proof.
  revert log. induction evs as [|ev evs IH]; intros log; [by rewrite app_nil_r|].
  unfold observed in *. cbn [foldl]. rewrite IH. unfold watchers_emit, logger. cbn [foldl].
  by rewrite <-app_assoc.
Qed.

(** From [sh] to [sh'] exactly the events [evs] went to the emitter, in order. *)
Definition emitted {O} (evs : list Event) (sh sh' : shared O) : Prop :=
  watch sh' = watch sh ∧
  match txbuf sh with
  | None => txbuf sh' = None ∧ obs sh' = observed (watch sh) (obs sh) evs
  | Some l => txbuf sh' = Some (l ++ evs) ∧ obs sh' = obs sh
  end.

Section Emitted.
Context {O : Type}.
Implicit Types sh : shared O.

Lemma emitted_nil sh sh' :
  watch sh' = watch sh → txbuf sh' = txbuf sh → obs sh' = obs sh → emitted [] sh sh'.
Proof.
  intros Hw Ht Ho. split; [done|]. rewrite Ht, Ho.
  destruct (txbuf sh); [by rewrite app_nil_r|done].
Qed.

Lemma emitted_trans evs evs' sh1 sh2 sh3 :
  emitted evs sh1 sh2 → emitted evs' sh2 sh3 → emitted (evs ++ evs') sh1 sh3.
Proof.
  unfold emitted. intros [Hw1 H1] [Hw H2]. rewrite Hw1 in *. split; [done|].
  destruct (txbuf sh1); destruct H1 as [Ht Ho]; rewrite Ht in H2;
    destruct H2 as [-> ->]; rewrite ?Ho, ?app_assoc, ?observed_app; done.
Qed.

Lemma emitted_one ev sh : emitted [ev] sh (emit ev sh).
Proof. unfold emitted, emit. destruct (txbuf sh) eqn:E; simpl; [done|]. by rewrite E. Qed.

Lemma emitted_note o c k v d sh : emitted [mkEvent o c k v d] sh (note o c k v d sh).
Proof.
  unfold note.
  assert (emitted [] sh (noteWrite c sh)) as H1.
  { apply emitted_nil; unfold noteWrite; by case_decide. }
  apply (emitted_trans [] _ _ _ _ H1), emitted_one.
Qed.

Lemma flushTo_emitted evs sh : emitted evs sh (flushTo evs sh).
Proof.
  revert sh. induction evs as [|ev evs IH]; intros sh; [by apply emitted_nil|].
  cbn [flushTo foldl]. apply (emitted_trans [ev] _ _ _ _ (emitted_one ev sh)), IH.
Qed.
End Emitted.

Lemma replay_app evs evs' m : replay (evs ++ evs') m = replay evs' (replay evs m).
Proof. unfold replay. by rewrite foldl_app. Qed.

(** The event a write is reported with when it lands. *)
Definition event_of (w : write) : option Event :=
  match w with
  | WCreate o c k v | WPut o c k v => Some (mkEvent o c k (Some v) false)
  | WDelete o c k => Some (mkEvent o c k None true)
  | WCreateOrg _ => None
  | WDeleteOrg o => Some (mkEvent o "" "" None true)
  end.

(** Writes whose events satisfy [P]. *)
Definition allowed (P : Event → Prop) (w : write) : Prop :=
  named w ∧ match event_of w with Some ev => P ev | None => True end.
Definition allowed_action (P : Event → Prop) (a : action) : Prop :=
  match a with One w => allowed P w | Atomically ws _ => Forall (allowed P) ws end.

Lemma named_allowed ws : Forall named ws → Forall (allowed (λ _, True)) ws.
Proof. intros H. eapply Forall_impl; [exact H|]. intros w Hw. split; [done|]. by destruct (event_of w). Qed.

Lemma named_actions_allowed acts :
  Forall named_action acts → Forall (allowed_action (λ _, True)) acts.
Proof.
  intros H. eapply Forall_impl; [exact H|]. intros [w|ws fail] Ha; cbn; [|by apply named_allowed].
  split; [done|]. by destruct (event_of w).
Qed.

(** ** Objects that agree away from some organizations *)

Definition agree_outside (F : gset string) (m m' : gmap (string * string * string) string) : Prop :=
  ∀ o c k, o ∉ F → m !! (o, c, k) = m' !! (o, c, k).

Lemma agree_outside_empty m m' : agree_outside ∅ m m' ↔ m = m'.
Proof.
  split; [|by intros -> ?]. intros Hm. apply map_eq. intros [[o c] k]. apply Hm. set_solver.
Qed.

Lemma agree_outside_mono F F' m m' : F ⊆ F' → agree_outside F m m' → agree_outside F' m m'.
Proof. intros Hs Hm o c k Ho. apply Hm. set_solver. Qed.

Lemma agree_outside_trans F F' m1 m2 m3 :
  agree_outside F m1 m2 → agree_outside F' m2 m3 → agree_outside (F ∪ F') m1 m3.
Proof. intros H1 H2 o c k Ho. rewrite H1, H2 by set_solver. done. Qed.

Lemma coll_of_outside F m m' o c : agree_outside F m m' → o ∉ F → coll_of o c m = coll_of o c m'.
Proof. intros Hm Ho. apply map_eq. intros k. rewrite !lookup_coll_of. by apply Hm. Qed.

Lemma apply_event_outside F ev m m' :
  agree_outside F m m' → agree_outside F (apply_event ev m) (apply_event ev m').
Proof.
  intros Hm o c k Ho. unfold apply_event. specialize (Hm o c k Ho).
  destruct (ev_deleted ev), (ev_value ev); try case_decide;
    rewrite ?lookup_drop_objs, ?Hm; try done;
    first [ destruct (decide ((ev_org ev, ev_coll ev, ev_key ev) = (o, c, k))) as [->|];
            [by rewrite ?lookup_delete_eq, ?lookup_insert_eq | by rewrite ?lookup_delete_ne, ?lookup_insert_ne] ].
Qed.

Lemma replay_outside F evs m m' : agree_outside F m m' → agree_outside F (replay evs m) (replay evs m').
Proof.
  revert m m'. induction evs as [|ev evs IH]; intros m m' Hm; [done|]. cbn. by apply IH, apply_event_outside.
Qed.

Section Stream.
Context {B : Type} `{BackendSpec B} {O : Type}.

(** What every event of the stream satisfies. *)
Variable P : Event → Prop.

Abbreviation st := (Store B O).

(** The organization an action has dropped in part: a drop on its own (a
    transaction is rolled back) that failed and still removed objects. *)
Definition half_dropped (a : action) (s : st) : gset string :=
  match a, run_action a s with
  | One (WDeleteOrg o), (Err _, s') => if decide (s_objs (view s'.1) = s_objs (view s.1)) then ∅ else {[o]}
  | _, _ => ∅
  end.

(** The organizations dropped in part somewhere in a program. *)
Fixpoint half_dropped_in (acts : list action) (s : st) : gset string :=
  match acts with
  | [] => ∅
  | a :: acts' => half_dropped a s ∪ half_dropped_in acts' (run_action a s).2
  end.

(** The step from [s] to [s'] is what the emitted events say it is, for the
    organizations not in [F]. *)
Definition streamed (F : gset string) (s s' : st) : Prop :=
  ∃ evs, Forall P evs ∧ emitted evs s.2 s'.2 ∧
         agree_outside F (s_objs (view s'.1)) (replay evs (s_objs (view s.1))).

Lemma streamed_trans F F' s1 s2 s3 : streamed F s1 s2 → streamed F' s2 s3 → streamed (F ∪ F') s1 s3.
Proof.
  intros (e1 & P1 & H1 & R1) (e2 & P2 & H2 & R2). exists (e1 ++ e2).
  split; [by apply Forall_app|]. split; [by eapply emitted_trans|]. rewrite replay_app, (comm_L (∪)).
  eapply agree_outside_trans; [done|]. by apply replay_outside.
Qed.

Lemma streamed_exact s s' : streamed ∅ s s' →
  ∃ evs, Forall P evs ∧ emitted evs s.2 s'.2 ∧ s_objs (view s'.1) = replay evs (s_objs (view s.1)).
Proof. intros (evs & ? & ? & ?%agree_outside_empty). eauto. Qed.

Lemma streamed_quiet b b' sh sh' :
  s_objs (view b') = s_objs (view b) → watch sh' = watch sh → txbuf sh' = txbuf sh → obs sh' = obs sh →
  streamed ∅ (b, sh) (b', sh').
Proof.
  intros Hv ???. exists []. split; [constructor|]. split; [by apply emitted_nil|].
  apply agree_outside_empty. cbn. by rewrite Hv.
Qed.

(** A write that landed and was noted. *)
Lemma streamed_noted b b' sh sh1 o c k v d :
  P (mkEvent o c k v d) → watch sh1 = watch sh → txbuf sh1 = txbuf sh → obs sh1 = obs sh →
  s_objs (view b') = apply_event (mkEvent o c k v d) (s_objs (view b)) →
  streamed ∅ (b, sh) (b', note o c k v d sh1).
Proof.
  intros HP Hw1 Ht1 Ho1 Hm. exists [mkEvent o c k v d].
  split; [by constructor|]. split; [|by apply agree_outside_empty].
  apply (emitted_trans [] _ _ sh1); [by apply emitted_nil|].
  apply emitted_note.
Qed.

(** A drop that failed emits nothing. *)
Lemma failed_drop_streamed o b e b' (sh : shared O) : DeleteOrg o b = (Err e, b') →
  streamed (if decide (s_objs (view b') = s_objs (view b)) then ∅ else {[o]}) (b, sh) (b', sh).
Proof.
  intros E. case_decide as Hd; [by apply streamed_quiet|]. pose proof (DeleteOrg_spec o b) as L. rewrite E in L.
  exists []. split; [constructor|]. split; [by apply emitted_nil|]. cbn. intros o' c k Ho. apply L. set_solver.
Qed.

Lemma run_write_streamed w (s : st) :
  allowed P w → streamed (half_dropped (One w) s) s (run_write w s).2.
Proof.
  destruct s as [b sh]. intros [Hn HP]. unfold half_dropped.
  destruct w as [o c k v|o c k v|o c k|o|o]; cbn [run_action run_write named event_of] in *;
    unfold Org_Create, Org_Put, Org_Delete, Store_CreateOrg, Store_DeleteOrg,
      st_bind, tally, lift, noted.
  - pose proof (Create_spec o c k v b) as L. unfold creates in L.
    destruct (Create o c k v b) as [[?|[|]] b'].
    + apply streamed_noted; try done. by destruct L as [_ ->].
    + destruct L as [_ L]. apply streamed_quiet; by rewrite ?L.
    + apply streamed_quiet; by rewrite ?L.
  - pose proof (Put_spec o c k v b) as L. unfold writes in L.
    destruct (Put o c k v b) as [[?|?] b'], L as [_ L].
    + apply streamed_noted; try done. by rewrite L.
    + apply streamed_quiet; by rewrite ?L.
  - pose proof (Delete_spec o c k b) as L. unfold writes in L.
    destruct (Delete o c k b) as [[[old|]|?] b'], L as [Hv L].
    + apply streamed_noted; try done. rewrite L. unfold apply_event; simpl.
      by rewrite decide_False.
    + apply streamed_quiet; try done. rewrite L, s_objs_delete. by rewrite delete_id.
    + apply streamed_quiet; by rewrite ?L.
  - pose proof (CreateOrg_spec o b) as L. unfold creates in L.
    destruct (CreateOrg o b) as [[?|[|]] b']; apply streamed_quiet; try done;
      first [by rewrite L | by destruct L as [_ ->]].
  - pose proof (DeleteOrg_spec o b) as L.
    destruct (DeleteOrg o b) as [[[]|e] b'] eqn:E.
    + exists [mkEvent o "" "" None true].
      split; [by constructor|]. split; [apply emitted_one|].
      destruct L as [_ L]. apply agree_outside_empty. cbn. by rewrite L.
    + destruct L as [_ L]. apply streamed_quiet; by rewrite ?L.
    + by apply failed_drop_streamed with e.
Qed.

Lemma half_dropped_ok a (s : st) : (run_action a s).1 = Ok tt → half_dropped a s = ∅.
Proof. unfold half_dropped. destruct a as [[]|]; try done. destruct (run_action _ s) as [[[]|e] s']; [done|by intros [=]]. Qed.

(** A list of writes stops at the first error. *)
Lemma st_each_streamed ws (s : st) :
  Forall (allowed P) ws → ∃ F, streamed F s (st_each run_write ws s).2 ∧
    (is_Ok (st_each run_write ws s).1 = true → F = ∅).
Proof.
  revert s. induction ws as [|w ws IH]; intros s Hn.
  - exists ∅. split; [|done]. destruct s. by apply streamed_quiet.
  - apply Forall_cons in Hn as [Hn1 Hn2]. cbn [st_each]. unfold st_bind.
    pose proof (run_write_streamed w s Hn1) as H1. pose proof (half_dropped_ok (One w) s) as Hd. cbn [run_action] in Hd.
    destruct (run_write w s) as [[[]|e] s1]; [|by exists (half_dropped (One w) s)].
    destruct (IH s1 Hn2) as (F & H2 & HF). exists (half_dropped (One w) s ∪ F).
    split; [by eapply streamed_trans|]. intros Hok. rewrite (HF Hok), Hd by done. set_solver.
Qed.

Lemma tx_body_streamed ws fail (s : st) :
  Forall (allowed P) ws → ∃ F, streamed F s (tx_body ws fail s).2 ∧ (is_Ok (tx_body ws fail s).1 = true → F = ∅).
Proof.
  intros Hn. destruct (st_each_streamed ws s Hn) as (F & H1 & HF). exists F.
  unfold tx_body, st_bind. destruct (st_each run_write ws s) as [[[]|e] s1]; [|done].
  by destruct fail.
Qed.

(** Inside a transaction nothing reaches the observers. *)
Lemma tx_body_buffers ws fail (s : st) l :
  Forall (allowed P) ws → txbuf s.2 = Some l →
  obs (tx_body ws fail s).2.2 = obs s.2 ∧
  watch (tx_body ws fail s).2.2 = watch s.2.
Proof.
  intros Hn Ht. destruct (tx_body_streamed ws fail s Hn) as (F & (evs & _ & [? Hb] & _) & _).
  rewrite Ht in Hb. by destruct Hb.
Qed.

Lemma run_action_streamed a (s : st) :
  allowed_action P a → streamed (half_dropped a s) s (run_action a s).2.
Proof.
  destruct a as [w|ws fail]; [apply run_write_streamed|].
  destruct s as [b sh]. unfold half_dropped. cbn [allowed_action run_action snd]. intros Hn.
  unfold Store_Tx. pose proof (Tx_spec (tx_body ws fail) b (with_buf (Some []) sh)) as L.
  destruct (Tx _ _) as [[[]|e] [b' sh']].
  - destruct L as (b1 & b2 & Hv1 & Hf & Hv2).
    destruct (tx_body_streamed ws fail (b1, with_buf (Some []) sh) Hn) as (F & (evs & HP & [Hw' Hb] & Hr) & HF).
    rewrite Hf in Hw', Hb, Hr, HF. simpl in Hw', Hb, Hr, HF. destruct Hb as [Hb Ho].
    exists evs. split; [done|]. split; [|by cbn; rewrite Hv2, <-Hv1, <-(HF eq_refl)].
    rewrite Hb. apply (emitted_trans [] _ _ (with_buf (txbuf sh) sh')).
    + by apply emitted_nil.
    + apply flushTo_emitted.
  - destruct L as [Hv Hx]. apply streamed_quiet; try done.
    + cbn. by rewrite Hv.
    + destruct Hx as [->|(b1 & r & b2 & _ & Hf)]; [done|].
      destruct (tx_body_buffers ws fail (b1, with_buf (Some []) sh) []) as [_ H2]; [done..|].
      by rewrite Hf in H2.
    + destruct Hx as [->|(b1 & r & b2 & _ & Hf)]; [done|].
      destruct (tx_body_buffers ws fail (b1, with_buf (Some []) sh) []) as [H1 _]; [done..|].
      by rewrite Hf in H1.
Qed.

Lemma run_actions_streamed acts (s : st) :
  Forall (allowed_action P) acts → streamed (half_dropped_in acts s) s (run_actions acts s).
Proof.
  revert s. induction acts as [|a acts IH]; intros s Hn.
  - destruct s. by apply streamed_quiet.
  - apply Forall_cons in Hn as [Hn1 Hn2]. cbn [run_actions foldl half_dropped_in].
    eapply streamed_trans; [by apply run_action_streamed|]. by apply IH.
Qed.
End Stream.

(** On a backend whose failed drop removes nothing, no organization is dropped in
    part: the memory backend, which never fails one. *)
Lemma half_dropped_none `{BackendSpec B} {O} (acts : list action) (s : Store B O) :
  (∀ o (b : B) e b', DeleteOrg o b = (Err e, b') → view b' = view b) → half_dropped_in acts s = ∅.
Proof.
  intros Ha. revert s. induction acts as [|a acts IH]; intros s; [done|]. cbn [half_dropped_in]. rewrite IH.
  assert (half_dropped a s = ∅) as -> by (
    destruct s as [b sh], a as [[]|]; unfold half_dropped; try done;
    cbn [run_action run_write]; unfold Store_DeleteOrg, st_bind, lift;
    destruct (DeleteOrg o b) as [[[]|e] b'] eqn:E; try done; rewrite decide_True; [done|];
    cbn; by rewrite (Ha _ _ _ _ E)).
  set_solver.
Qed.

Lemma memory_DeleteOrg_atomic o (b : Memory.memoryBackend) e b' :
  DeleteOrg o b = (Err e, b') → view b' = view b.
Proof. cbn. unfold Memory.deleteOrg. by case_bool_decide. Qed.

(** C18. The write stream is complete and exact: for any program of creates,
    puts, deletes, organization creations and drops and transactions (committed,
    failed part-way or rolled back) on any backend, replaying the events the
    observers were given, in order, over the initial objects yields the final
    objects of every organization but those whose drop, made outside a
    transaction, failed after it had removed objects ([half_dropped_in]: none on
    a backend whose failed drop removes nothing). Deletes name a collection, as
    the server's do. *)
Theorem write_stream_replays `{BackendSpec B} (acts : list action) (b : B) (org coll key : string) :
  Forall named_action acts →
  let s := Watch logger (NewWithBackend b []) in
  let s' := run_actions acts s in
  org ∉ half_dropped_in acts s →
  txbuf s'.2 = None ∧ s_objs (view s'.1) !! (org, coll, key) = replay (obs s'.2) (s_objs (view b)) !! (org, coll, key).
Proof.
  intros Hn s s' Ho.
  destruct (run_actions_streamed _ acts s (named_actions_allowed _ Hn))
    as (evs & _ & [_ [Ht Hob]] & Hr).
  split; [done|]. unfold s'. rewrite (Hr org coll key Ho), Hob. cbn [watch obs s Watch NewWithBackend snd watchers_add].
  by rewrite observed_logger.
Qed.

(** A program that exercises every kind of step. *)
Definition sample_actions : list action :=
  [ One (WCreateOrg "acme"); One (WPut "acme" "nodes" "web01" "{}");
    One (WCreate "acme" "nodes" "web01" "x");                     (* conflict *)
    Atomically [WPut "acme" "groups" "admins" "g"; WDelete "acme" "nodes" "web01"] None;
    Atomically [WPut "acme" "nodes" "db01" "{}"] (Some ErrConflict);  (* rolled back *)
    Atomically [WPut "" "organizations" "beta" "{}"; WCreateOrg "beta";
                WPut "beta" "nodes" "n" "1"] None;
    One (WDeleteOrg "acme") ].

Lemma write_stream_replays_witness :
  let b := Memory.NewMemoryBackend in
  let s := Watch logger (NewWithBackend b []) in
  s_objs (view (run_actions sample_actions s).1) = replay (obs (run_actions sample_actions s).2) (s_objs (view b)).
Proof.
  intros b s. apply map_eq. intros [[o c] k].
  assert (Forall named_action sample_actions) as Hn by (repeat constructor; done).
  assert (o ∉ half_dropped_in sample_actions s) as Ho
    by (rewrite (half_dropped_none _ _ memory_DeleteOrg_atomic); apply not_elem_of_empty).
  exact (proj2 (write_stream_replays sample_actions b o c k Hn Ho)).
Defined.

(** A transaction that fails is invisible: the objects, organizations and
    blobs are as before it, no observer saw an event of it, and the Store's own
    emitter is back in place. *)
Theorem rolled_back_tx_invisible `{BackendSpec B} {O} (ws : list write) (fail : option gerror) (s : Store B O) (e : gerror) :
  Forall named ws →
  (run_action (Atomically ws fail) s).1 = Err e →
  let s' := (run_action (Atomically ws fail) s).2 in
  view s'.1 = view s.1 ∧ obs s'.2 = obs s.2 ∧ txbuf s'.2 = txbuf s.2.
Proof.
  destruct s as [b sh]. cbn [run_action]. intros Hn. unfold Store_Tx.
  pose proof (Tx_spec (tx_body ws fail) b (with_buf (Some []) sh)) as L.
  destruct (Tx _ _) as [[[]|e'] [b' sh']]; [done|]. intros _.
  destruct L as [Hv Hx]. split; [done|]. split; [|done]. cbn.
  destruct Hx as [->|(b1 & r & b2 & _ & Hf)]; [done|].
  destruct (tx_body_buffers _ ws fail (b1, with_buf (Some []) sh) [] (named_allowed _ Hn))
    as [H1 _]; [done|].
  by rewrite Hf in H1.
Qed.

Lemma rolled_back_tx_invisible_witness :
  let s := Watch logger (NewWithBackend Memory.NewMemoryBackend []) in
  let s' := (run_action (Atomically [WPut "acme" "nodes" "db01" "{}"] (Some ErrConflict)) s).2 in
  view s'.1 = view s.1 ∧ obs s'.2 = obs s.2 ∧ txbuf s'.2 = txbuf s.2.
Proof.
  apply (rolled_back_tx_invisible
           [WPut "acme" "nodes" "db01" "{}"] (Some ErrConflict) _ ErrConflict);
    [by repeat constructor | vm_compute; done].
Defined.

(** ** The groups generation *)

Lemma wrap64_succ_fresh (g : Z) : wrap64 (g + 1) ≠ g.
Proof.
  intros E. apply (wrap64_succ_ne g). rewrite E at 1. unfold wrap64 in *.
  symmetry. apply Z.mod_small. rewrite <-E. apply Z.mod_pos_bound. lia.
Qed.

Lemma groupsGen_emit {O} ev (sh : shared O) : groupsGen (emit ev sh) = groupsGen sh.
Proof. unfold emit. by destruct (txbuf sh). Qed.

Lemma groupsGen_note {O} o c k v d (sh : shared O) :
  groupsGen (note o c k v d sh) =
  if decide (c = groupsColl) then wrap64 (groupsGen sh + 1) else groupsGen sh.
Proof. unfold note. rewrite groupsGen_emit. unfold noteWrite. by case_decide. Qed.

(** The generation after [k] notes. *)
Definition ticks (k : nat) (g : Z) : Z := Nat.iter k (λ g, wrap64 (g + 1)) g.

Lemma ticks_add j k g : ticks (j + k) g = ticks k (ticks j g).
Proof. unfold ticks. rewrite Nat.add_comm. apply Nat.iter_add. Qed.

(** Short of a wrap-around the generation counts the notes. *)
Lemma ticks_exact k g : (0 ≤ g)%Z → (g + Z.of_nat k < 2 ^ 64)%Z → ticks k g = (g + Z.of_nat k)%Z.
Proof.
  intros Hg. induction k as [|k IH]; intros Hk; [simpl; lia|].
  change (ticks (S k) g) with (wrap64 (ticks k g + 1)). rewrite IH by lia.
  unfold wrap64. rewrite Z.mod_small by lia. lia.
Qed.

(** Writes other than organization drops, which advance no generation. *)
Definition no_drop (w : write) : Prop := match w with WDeleteOrg _ => False | _ => True end.
Definition no_drop_action (a : action) : Prop :=
  match a with One w => no_drop w | Atomically ws _ => Forall no_drop ws end.
Definition writes_in (a : action) : nat :=
  match a with One _ => 1 | Atomically ws _ => length ws end.

Lemma half_dropped_no_drop `{BackendSpec B} {O} a (s : Store B O) : no_drop_action a → half_dropped a s = ∅.
Proof. by destruct a as [[]|]. Qed.

Section Generation.
Context {B : Type} `{BackendSpec B} {O : Type}.
Abbreviation st := (Store B O).

(** At most [n] notes, and none only if no groups collection changed. *)
Definition noticed (n : nat) (s s' : st) : Prop :=
  ∃ k, k ≤ n ∧ groupsGen s'.2 = ticks k (groupsGen s.2) ∧
    (k = 0 → ∀ org, coll_of org groupsColl (s_objs (view s'.1)) =
                    coll_of org groupsColl (s_objs (view s.1))).

Lemma noticed_trans n m s1 s2 s3 : noticed n s1 s2 → noticed m s2 s3 → noticed (n + m) s1 s3.
Proof.
  intros (j & Hj & Ej & Fj) (k & Hk & Ek & Fk). exists (j + k). split; [lia|].
  split; [by rewrite ticks_add, <-Ej|]. intros Hz org. by rewrite Fk, Fj by lia.
Qed.

Lemma noticed_quiet n s s' :
  s_objs (view s'.1) = s_objs (view s.1) → groupsGen s'.2 = groupsGen s.2 → noticed n s s'.
Proof. intros Hv Hg. exists 0. split; [lia|]. split; [done|]. intros _ org. by rewrite Hv. Qed.

(** A noted write to one key. *)
Lemma noticed_note b b' (sh sh1 : shared O) o c k v d :
  groupsGen sh1 = groupsGen sh →
  (∀ org, c ≠ groupsColl → coll_of org groupsColl (s_objs (view b')) = coll_of org groupsColl (s_objs (view b))) →
  noticed 1 (b, sh) (b', note o c k v d sh1).
Proof.
  intros Hg Hc. unfold noticed. cbn [fst snd]. rewrite groupsGen_note, Hg.
  case_decide; [by exists 1|]. exists 0. split; [lia|]. split; [done|]. auto.
Qed.

Lemma run_write_noticed w (s : st) : no_drop w → noticed 1 s (run_write w s).2.
Proof.
  destruct s as [b sh]. intros Hw.
  destruct w as [o c k v|o c k v|o c k|o|o]; [| | | |done]; cbn [run_write];
    unfold Org_Create, Org_Put, Org_Delete, Store_CreateOrg, st_bind, tally, lift, noted.
  - pose proof (Create_spec o c k v b) as L. unfold creates in L.
    destruct (Create o c k v b) as [[?|[|]] b'].
    + destruct L as [_ L]. apply noticed_note; [done|]. intros org Hc.
      rewrite L, s_objs_put, coll_of_put. rewrite decide_False; congruence.
    + destruct L as [_ L]. apply noticed_quiet; cbn; by rewrite ?L.
    + apply noticed_quiet; cbn; by rewrite ?L.
  - pose proof (Put_spec o c k v b) as L. unfold writes in L.
    destruct (Put o c k v b) as [[?|?] b'], L as [_ L].
    + apply noticed_note; [done|]. intros org Hc.
      rewrite L, s_objs_put, coll_of_put. rewrite decide_False; congruence.
    + apply noticed_quiet; cbn; by rewrite ?L.
  - pose proof (Delete_spec o c k b) as L. unfold writes in L.
    destruct (Delete o c k b) as [[[old|]|?] b'], L as [Hv L].
    + apply noticed_note; [done|]. intros org Hc.
      rewrite L, s_objs_delete, coll_of_delete. rewrite decide_False; congruence.
    + apply noticed_quiet; [|done]. cbn. by rewrite L, s_objs_delete, delete_id.
    + apply noticed_quiet; cbn; by rewrite ?L.
  - pose proof (CreateOrg_spec o b) as L. unfold creates in L.
    destruct (CreateOrg o b) as [[?|[|]] b']; [destruct L as [_ L]|destruct L as [_ L]|];
      apply noticed_quiet; cbn; by rewrite ?L.
Qed.

Lemma tx_body_noticed ws fail (s : st) :
  Forall no_drop ws → noticed (length ws) s (tx_body ws fail s).2.
Proof.
  intros Hw. assert (noticed (length ws) s (st_each run_write ws s).2) as Hs.
  { revert s. induction Hw as [|w ws Hw Hws IH]; intros s; [by apply noticed_quiet|].
    cbn [st_each length]. unfold st_bind. pose proof (run_write_noticed w s Hw) as H1.
    destruct (run_write w s) as [[[]|e] s1]; [by eapply (noticed_trans 1); [|apply IH]|].
    destruct H1 as (k & Hk & Hr). exists k. split; [lia|done]. }
  unfold tx_body, st_bind. destruct (st_each run_write ws s) as [[[]|e] s1]; [|done].
  by destruct fail.
Qed.

Lemma groupsGen_flush evs (sh : shared O) : groupsGen (flushTo evs sh) = groupsGen sh.
Proof.
  unfold flushTo. revert sh. induction evs as [|ev evs IH]; intros sh; [done|].
  cbn [foldl]. by rewrite IH, groupsGen_emit.
Qed.

Lemma run_action_noticed a (s : st) : no_drop_action a → noticed (writes_in a) s (run_action a s).2.
Proof.
  destruct a as [w|ws fail]; [apply run_write_noticed|]. destruct s as [b sh].
  cbn [no_drop_action run_action writes_in]. intros Hw. unfold Store_Tx.
  pose proof (Tx_spec (tx_body ws fail) b (with_buf (Some []) sh)) as L.
  destruct (Tx _ _) as [[[]|e] [b' sh']].
  - destruct L as (b1 & b2 & Hv1 & Hf & Hv2).
    destruct (tx_body_noticed ws fail (b1, with_buf (Some []) sh) Hw) as (k & Hk & Eg & Fc).
    rewrite Hf in Eg, Fc. exists k. split; [done|]. cbn [fst snd] in *. rewrite groupsGen_flush.
    split; [done|]. intros Hz org. by rewrite Hv2, Fc, Hv1.
  - destruct L as [Hv Hx]. destruct Hx as [->|(b1 & r & b2 & _ & Hf)].
    + apply noticed_quiet; cbn; by rewrite ?Hv.
    + destruct (tx_body_noticed ws fail (b1, with_buf (Some []) sh) Hw) as (k & Hk & Eg & _).
      rewrite Hf in Eg. exists k. cbn in *. split; [done|]. split; [done|]. intros _ org. by rewrite Hv.
Qed.
End Generation.

(** No write to a groups collection goes unnoticed: when a create, put or
    delete changes what the groups collection of any organization holds, the
    groups generation differs from what it was (wrap-around included), so an
    index cached under the old generation is discarded. *)
Theorem groups_write_advances_generation `{BackendSpec B} {O}
  (w : write) (s : Store B O) (org : string) :
  no_drop w →
  let s' := (run_write w s).2 in
  coll_of org groupsColl (s_objs (view s'.1)) ≠ coll_of org groupsColl (s_objs (view s.1)) →
  GroupsGeneration s' ≠ GroupsGeneration s.
Proof.
  intros Hw s' Hne. destruct (run_write_noticed w s Hw) as (k & Hk & Eg & Fc).
  unfold GroupsGeneration, s'. rewrite Eg. destruct k as [|[|k]]; [|apply wrap64_succ_fresh|lia].
  by destruct Hne; apply Fc.
Qed.

Lemma groups_write_advances_generation_witness :
  let s := Watch logger (NewWithBackend Memory.NewMemoryBackend []) in
  GroupsGeneration (run_write (WPut "acme" "groups" "admins" "{}") s).2 ≠ GroupsGeneration s.
Proof.
  apply (groups_write_advances_generation (WPut "acme" "groups" "admins" "{}")
           (Watch logger (NewWithBackend Memory.NewMemoryBackend [])) "acme"); [done|].
  vm_compute. discriminate.
Defined.

(** ** Reasoning about handlers

    What a handler made of facade operations does to the stored objects when it
    returns without an error: [pre] of the objects before, [post] of its result
    and the objects after. *)

Abbreviation objects := (gmap (string * string * string) string).

Section Triples.
Context {B : Type} `{BackendSpec B} {O : Type}.
Abbreviation st := (Store B O).

Definition objs (s : st) : objects := s_objs (view s.1).

Definition triple {A : Type} (pre : objects → Prop) (m : ST st A) (post : A → objects → Prop) : Prop :=
  ∀ s, pre (objs s) → match m s with (Ok a, s') => post a (objs s') | (Err _, _) => True end.

Lemma triple_conseq {A : Type} (pre pre' : objects → Prop) (m : ST st A) post post' :
  triple pre' m post' → (∀ x, pre x → pre' x) → (∀ a x, post' a x → post a x) → triple pre m post.
Proof. intros Hm Hp Hq s Hs. specialize (Hm s (Hp _ Hs)). destruct (m s) as [[]]; auto. Qed.

Lemma triple_ret {A : Type} (a : A) (pre : objects → Prop) (post : A → objects → Prop) :
  (∀ x, pre x → post a x) → triple pre (st_ret a) post.
Proof. intros Hp s Hs. cbn. auto. Qed.

Lemma triple_bind {A C : Type} (m : ST st A) (k : A → ST st C) pre mid post :
  triple pre m mid → (∀ a, triple (mid a) (k a) post) → triple pre (st_bind m k) post.
Proof.
  intros Hm Hk s Hs. unfold st_bind. specialize (Hm s Hs). destruct (m s) as [[a|e] s']; [|done].
  by apply Hk.
Qed.

Lemma triple_Get (org coll key : string) (pre : objects → Prop) :
  triple pre (Org_Get org coll key) (λ v x, pre x ∧ v = x !! (org, coll, key)).
Proof.
  intros [b sh] Hs. unfold Org_Get, st_bind, tally, lift.
  pose proof (Get_spec org coll key b) as L. unfold reads in L.
  destruct (Get org coll key b) as [[v|e] b']; [|done]. destruct L as [-> Hv]. unfold objs in *. cbn in *.
  by rewrite Hv.
Qed.

Lemma triple_Range (org coll : string) (pre : objects → Prop) :
  triple pre (Org_Range org coll) (λ l x, pre x ∧ l ≡ₚ map_to_list (coll_of org coll x)).
Proof.
  intros [b sh] Hs. unfold Org_Range, st_bind, tally, lift.
  pose proof (Range_spec org coll b) as L. unfold reads in L.
  destruct (Range org coll b) as [[v|e] b']; [|done]. destruct L as [? Hv]. unfold objs in *. cbn in *.
  by rewrite Hv.
Qed.

Lemma triple_Keys (org coll : string) (pre : objects → Prop) :
  triple pre (Org_Keys org coll)
    (λ l x, pre x ∧ l = sort_strings ((map_to_list (coll_of org coll x)).*1)).
Proof.
  intros [b sh] Hs. unfold Org_Keys, lift.
  pose proof (Keys_spec org coll b) as L. unfold reads in L.
  destruct (Keys org coll b) as [[v|e] b']; [|done]. destruct L as [? Hv]. unfold objs in *. cbn in *.
  by rewrite Hv.
Qed.

Lemma triple_Put (org coll key val : string) (pre : objects → Prop) :
  triple pre (Org_Put org coll key val) (λ _ x', ∃ x, pre x ∧ x' = <[(org, coll, key) := val]> x).
Proof.
  intros [b sh] Hs. unfold Org_Put, st_bind, tally, lift, noted.
  pose proof (Put_spec org coll key val b) as L. unfold writes in L.
  destruct (Put org coll key val b) as [[v|e] b']; [|done]. destruct L as [_ Hv]. unfold objs in *. cbn in *.
  rewrite Hv. eauto.
Qed.

Lemma triple_Create (org coll key val : string) (pre : objects → Prop) :
  triple pre (Org_Create org coll key val)
    (λ _ x', ∃ x, pre x ∧ x !! (org, coll, key) = None ∧ x' = <[(org, coll, key) := val]> x).
Proof.
  intros [b sh] Hs. unfold Org_Create, st_bind, tally, lift, noted.
  pose proof (Create_spec org coll key val b) as L. unfold creates in L.
  destruct (Create org coll key val b) as [[v|e] b']; [|done]. destruct L as [Hn Hv].
  unfold objs in *. cbn in *. rewrite Hv. exists (s_objs (view b)). split; [done|]. split; [|done].
  by apply eq_None_not_Some.
Qed.

Lemma triple_Delete (org coll key : string) (pre : objects → Prop) :
  triple pre (Org_Delete org coll key)
    (λ old x', ∃ x, pre x ∧ old = x !! (org, coll, key) ∧ x' = delete (org, coll, key) x).
Proof.
  intros [b sh] Hs. unfold Org_Delete, st_bind, tally, lift, noted.
  pose proof (Delete_spec org coll key b) as L. unfold writes in L.
  destruct (Delete org coll key b) as [[[v|]|e] b']; [| |done]; destruct L as [Ho Hv];
    unfold objs in *; cbn in *; rewrite Hv; eauto.
Qed.

(** A put that fails changes nothing. *)
Lemma Put_frame (org coll key val : string) (s : st) :
  match Org_Put org coll key val s with
  | (Ok _, s') => objs s' = <[(org, coll, key) := val]> (objs s)
  | (Err _, s') => objs s' = objs s
  end.
Proof.
  destruct s as [b sh]. unfold Org_Put, st_bind, tally, lift, noted.
  pose proof (Put_spec org coll key val b) as L. unfold writes in L.
  destruct (Put org coll key val b) as [[v|e] b']; destruct L as [_ Hv]; unfold objs; cbn; by rewrite Hv.
Qed.

(** A loop that keeps [inv] of the part of the list already done. *)
Lemma triple_each {A : Type} (f : A → ST st unit) (l : list A) (inv : list A → objects → Prop) :
  (∀ done a rest, l = done ++ a :: rest →
     triple (inv done) (f a) (λ _, inv (done ++ [a]))) →
  triple (inv []) (st_each f l) (λ _, inv l).
Proof.
  assert (∀ rest done, l = done ++ rest →
    (∀ done a rest, l = done ++ a :: rest → triple (inv done) (f a) (λ _, inv (done ++ [a]))) →
    triple (inv done) (st_each f rest) (λ _, inv l)) as Hgo.
  { induction rest as [|a rest IH]; intros dn El Hf; cbn [st_each].
    - apply triple_ret. by rewrite El, app_nil_r.
    - eapply triple_bind; [by apply (Hf dn a rest)|]. intros []. apply IH; [|done].
      by rewrite El, <-app_assoc. }
  intros Hf. by apply (Hgo l []).
Qed.
End Triples.

(** ** Reasoning about readers

    A reader leaves the stored space alone, whatever it answers, and keeps an
    invariant [inv] of the server (a cache kept current, say); when it answers,
    [P] relates the space it read to the answer. *)

(** [s'] is [s] after reads only: the counters aside, nothing changed. *)
Definition peeked `{BackendSpec B} {O} (s s' : Store B O) : Prop :=
  view s'.1 = view s.1 ∧ ∃ c, s'.2 = with_counts c s.2.

Class ReadStable `{BackendSpec B} {O} (inv : Store B O → Prop) : Prop :=
  read_stable s s' : peeked s s' → inv s → inv s'.

#[export] Instance stable_True `{BackendSpec B} {O} : ReadStable (λ _ : Store B O, True).
Proof. done. Qed.

Section Readers.
Context {B : Type} `{BackendSpec B} {O : Type} (inv : Store B O → Prop) `{!ReadStable inv}.
Abbreviation st := (Store B O).

Definition observes {A : Type} (m : ST st A) (P : space → A → Prop) : Prop := ∀ s, inv s →
  let '(r, s') := m s in
  inv s' ∧ view s'.1 = view s.1 ∧ match r with Ok a => P (view s.1) a | Err _ => True end.

Lemma observes_conseq {A : Type} (m : ST st A) (P P' : space → A → Prop) :
  observes m P' → (∀ sp a, P' sp a → P sp a) → observes m P.
Proof.
  intros Hm HP s Hs. specialize (Hm s Hs). destruct (m s) as [[a|e] s']; naive_solver.
Qed.

Lemma observes_ret {A : Type} (a : A) (P : space → A → Prop) : (∀ sp, P sp a) → observes (st_ret a) P.
Proof. intros HP s Hs. by split. Qed.

Lemma observes_bind {A C : Type} (m : ST st A) (k : A → ST st C) (P : space → A → Prop) (Q : space → C → Prop) :
  observes m P → (∀ a, observes (k a) (λ sp c, P sp a → Q sp c)) → observes (st_bind m k) Q.
Proof.
  intros Hm Hk s Hs. unfold st_bind. specialize (Hm s Hs). destruct (m s) as [[a|e] s']; [|done].
  destruct Hm as (Hi & Hv & HP). specialize (Hk a s' Hi). destruct (k a s') as [[c|e] s''];
    destruct Hk as (? & Hv' & Hc); rewrite Hv in *; [|done]. split; [done|]. split; [done|]. auto.
Qed.

Lemma observes_lift {A : Type} (m : ST B A) (P : space → A → Prop) :
  (∀ b, reads view m b (P (view b))) → observes (lift m) P.
Proof.
  intros Hm [b sh] Hs. unfold lift. specialize (Hm b). unfold reads in Hm.
  assert (∀ b', view b' = view b → inv (b', sh)) as Hi.
  { intros b' Hv. eapply read_stable, Hs. split; [done|]. exists (counts sh). by destruct sh. }
  destruct (m b) as [[a|e] b']; destruct Hm as [HP Hv]; auto.
Qed.

Lemma observes_tally f : observes (tally f) (λ _ _, True).
Proof.
  intros [b sh] Hs. split; [|done]. eapply read_stable, Hs. split; [done|]. eauto.
Qed.

Lemma observes_then {C : Type} f (k : ST st C) (Q : space → C → Prop) :
  observes k Q → observes (tally f ;;! k) Q.
Proof.
  intros Hk. eapply observes_bind; [apply observes_tally|]. intros []. eapply observes_conseq; eauto.
Qed.

Lemma observes_Get (org coll key : string) :
  observes (Org_Get org coll key) (λ sp v, v = s_objs sp !! (org, coll, key)).
Proof. apply observes_then, observes_lift. intros b. apply Get_spec. Qed.

Lemma observes_View (org coll key : string) :
  observes (Org_View org coll key) (λ sp v, v = s_objs sp !! (org, coll, key)).
Proof. apply observes_Get. Qed.

Lemma observes_Range (org coll : string) :
  observes (Org_Range org coll) (λ sp l, l ≡ₚ map_to_list (coll_of org coll (s_objs sp))).
Proof. apply observes_then, observes_lift. intros b. apply Range_spec. Qed.

Lemma observes_Keys (org coll : string) :
  observes (Org_Keys org coll) (λ sp l, l = sort_strings ((map_to_list (coll_of org coll (s_objs sp))).*1)).
Proof. apply observes_lift. intros b. apply Keys_spec. Qed.

Lemma observes_Org (name : string) :
  observes (Store_Org name) (λ sp o, o = if decide (name ∈ s_orgs sp) then Some name else None).
Proof.
  eapply observes_bind.
  { apply (observes_lift (HasOrg name) (λ sp r, r = true ↔ name ∈ s_orgs sp)). intros b. apply HasOrg_spec. }
  intros ok. apply observes_ret. intros sp Hok. destruct ok.
  - rewrite decide_True; [done|]. by apply Hok.
  - rewrite decide_False; [done|]. intros Hin. by apply Hok in Hin.
Qed.
End Readers.
