(* ===== verification/Sqlite.v ===== *)
(** * The SQLite backend (internal/store/sqlite/sqlite.go)

    The durable backend: one SQL statement per data method, transactions, the
    group-commit writer and the schema migrations. The database engine is a
    parameter: what a statement does to the tables is written out, and the
    engine's calls may fail at any point. *)
From S2P Require Import Prelude Store Facade.
#[local] Open Scope go_scope.

(** ** Tables and statements *)

(** The schema_migrations table, and the objects, blobs and orgs tables once a
    migration has created them. *)
Record tables := mkTables { t_versions : option (gset Z); t_space : option space }.

(** The statements that write. *)
Inductive stmt :=
  | CreateVersions                             (* CREATE TABLE IF NOT EXISTS schema_migrations *)
  | InsertVersion (v : Z)                      (* INSERT INTO schema_migrations(version) *)
  | CreateSchema                               (* CREATE TABLE objects, blobs, orgs *)
  | sqlObjPut (org coll key body : string)     (* INSERT ... ON CONFLICT DO UPDATE *)
  | sqlObjCreate (org coll key body : string)  (* INSERT ... ON CONFLICT DO NOTHING *)
  | sqlObjDelete (org coll key : string)
  | sqlBlobPut (org checksum content : string)
  | sqlBlobDelete (org checksum : string)
  | InsertOrg (name : string)                  (* INSERT ... ON CONFLICT DO NOTHING *)
  | DeleteOrgRow (name : string)
  | DeleteObjectsOf (name : string)
  | DeleteBlobsOf (name : string).

(** A write to the three tables: how many rows it affects and what it leaves. *)
Definition affects (f : space → Z * space) (t : tables) : option (Z * tables) :=
  match t_space t with
  | None => None
  | Some sp => let '(n, sp') := f sp in Some (n, mkTables (t_versions t) (Some sp'))
  end.

Definition one_if (P : Prop) `{Decision P} : Z := if decide P then 1 else 0.

(** [None]: an SQL error (no such table, a table that exists, a repeated key). *)
Definition run_stmt (s : stmt) (t : tables) : option (Z * tables) :=
  match s with
  | CreateVersions => Some (0%Z, mkTables (Some (default ∅ (t_versions t))) (t_space t))
  | InsertVersion v =>
      match t_versions t with
      | None => None
      | Some vs => if decide (v ∈ vs) then None else Some (1%Z, mkTables (Some ({[v]} ∪ vs)) (t_space t))
      end
  | CreateSchema =>
      match t_space t with Some _ => None | None => Some (0%Z, mkTables (t_versions t) (Some empty_space)) end
  | sqlObjPut o c k v => affects (λ sp, (1%Z, sp_put o c k v sp)) t
  | sqlObjCreate o c k v =>
      affects (λ sp, match s_objs sp !! (o, c, k) with Some _ => (0%Z, sp) | None => (1%Z, sp_put o c k v sp) end) t
  | sqlObjDelete o c k => affects (λ sp, (one_if (is_Some (s_objs sp !! (o, c, k))), sp_delete o c k sp)) t
  | sqlBlobPut o k v => affects (λ sp, (1%Z, sp_put_blob o k v sp)) t
  | sqlBlobDelete o k => affects (λ sp, (one_if (is_Some (s_blobs sp !! (o, k))), sp_delete_blob o k sp)) t
  | InsertOrg o => affects (λ sp, if decide (o ∈ s_orgs sp) then (0%Z, sp) else (1%Z, sp_create_org o sp)) t
  | DeleteOrgRow o =>
      affects (λ sp, (one_if (o ∈ s_orgs sp), mkSpace (s_orgs sp ∖ {[o]}) (s_objs sp) (s_blobs sp))) t
  | DeleteObjectsOf o =>
      affects (λ sp, (Z.of_nat (size (s_objs sp)) - Z.of_nat (size (drop_objs o (s_objs sp))),
                      mkSpace (s_orgs sp) (drop_objs o (s_objs sp)) (s_blobs sp))%Z) t
  | DeleteBlobsOf o =>
      affects (λ sp, (Z.of_nat (size (s_blobs sp)) - Z.of_nat (size (filter (λ kv, kv.1.1 ≠ o) (s_blobs sp))),
                      mkSpace (s_orgs sp) (s_objs sp) (filter (λ kv, kv.1.1 ≠ o) (s_blobs sp)))%Z) t
  end.

(** The queries, by what their rows are read into. *)
Inductive query : Type → Type :=
  | SelectVersion : query Z                                     (* COALESCE(MAX(version), 0) *)
  | sqlObjGet (org coll key : string) : query (option string)
  | sqlBlobGet (org checksum : string) : query (option string)
  | sqlBlobHas (org checksum : string) : query bool
  | sqlHasOrg (name : string) : query bool
  | SelectKeys (org coll : string) : query (list string)        (* ORDER BY key *)
  | SelectRows (org coll : string) : query (list (string * string))
  | SelectCollections (org : string) : query (list string)      (* DISTINCT, ORDER BY collection *)
  | SelectOrgs : query (list string).                           (* ORDER BY name *)

Definition max_version (vs : gset Z) : Z := foldr Z.max 0%Z (elements vs).

(** The keys and the rows in the order of the key, bytewise as TEXT compares. *)
Definition sorted_keys {A} (m : gmap string A) : list string := sort_strings ((map_to_list m).*1).
Definition sorted_rows (m : gmap string string) : list (string * string) :=
  omap (λ k, (λ v, (k, v)) <$> m !! k) (sorted_keys m).
Definition collections_of (org : string) (sp : space) : list string :=
  sort_strings (remove_dups ((λ e : string * string * string * string, e.1.1.2) <$>
    filter (λ e : string * string * string * string, e.1.1.1 = org) (map_to_list (s_objs sp)))).

Definition from_space {R} (f : space → R) (t : tables) : option R := f <$> t_space t.

Definition run_query {R} (q : query R) (t : tables) : option R :=
  match q in query R return option R with
  | SelectVersion => max_version <$> t_versions t
  | sqlObjGet o c k => from_space (λ sp, s_objs sp !! (o, c, k)) t
  | sqlBlobGet o k => from_space (λ sp, s_blobs sp !! (o, k)) t
  | sqlBlobHas o k => from_space (λ sp, bool_decide (is_Some (s_blobs sp !! (o, k)))) t
  | sqlHasOrg o => from_space (λ sp, bool_decide (o ∈ s_orgs sp)) t
  | SelectKeys o c => from_space (λ sp, sorted_keys (coll_of o c (s_objs sp))) t
  | SelectRows o c => from_space (λ sp, sorted_rows (coll_of o c (s_objs sp))) t
  | SelectCollections o => from_space (collections_of o) t
  | SelectOrgs => from_space (λ sp, sort_strings (elements (s_orgs sp))) t
  end.

(** ** The engine (database/sql and the SQLite driver)

    [D]: the pools on one database file; [T]: an open transaction. Every call may
    fail. *)
Class Engine (D T : Type) := {
  db_Exec : stmt → ST D Z;
  db_Query : ∀ {R}, query R → ST D R;
  db_Begin : ST D T;
  tx_Exec : stmt → ST T Z;
  tx_Query : ∀ {R}, query R → ST T R;
  tx_Commit : T → ST D unit;
  tx_Rollback : T → D → D;
}.

(** A statement that failed changed nothing; outside a transaction it is one. A
    transaction starts from what is committed and keeps its changes to itself
    until it commits; a commit that failed, or a rollback, leaves the database as
    it was. *)
Class EngineSpec (D T : Type) `{Engine D T} := {
  committed : D → tables;
  held : T → tables;
  db_Exec_spec s d : match db_Exec s d with
    | (Ok n, d') => run_stmt s (committed d) = Some (n, committed d')
    | (Err e, d') => e ≠ ErrConflict ∧ committed d' = committed d end;
  db_Query_spec {R} (q : query R) d : match db_Query q d with
    | (Ok r, d') => run_query q (committed d) = Some r ∧ committed d' = committed d
    | (Err e, d') => e ≠ ErrConflict ∧ committed d' = committed d end;
  db_Begin_spec d : match db_Begin d with
    | (Ok t, d') => held t = committed d ∧ committed d' = committed d
    | (Err e, d') => e ≠ ErrConflict ∧ committed d' = committed d end;
  tx_Exec_spec s t : match tx_Exec s t with
    | (Ok n, t') => run_stmt s (held t) = Some (n, held t')
    | (Err e, t') => e ≠ ErrConflict ∧ held t' = held t end;
  tx_Query_spec {R} (q : query R) t : match tx_Query q t with
    | (Ok r, t') => run_query q (held t) = Some r ∧ held t' = held t
    | (Err e, t') => e ≠ ErrConflict ∧ held t' = held t end;
  tx_Commit_spec t d : match tx_Commit t d with
    | (Ok _, d') => committed d' = held t
    | (Err e, d') => e ≠ ErrConflict ∧ committed d' = committed d end;
  tx_Rollback_spec t d : committed (tx_Rollback t d) = committed d;
}.

(** ** The backend *)

Section Backend.
Context {D T : Type} `{Engine D T}.

(** The top-level backend, with or without the group-commit writer, or the view a
    transaction has. *)
Inductive sqlite :=
  | Pool (groupCommit : bool) (d : D)
  | InTx (t : T).

(** [exec] and [queryRow]: the prepared statement on the pool, or raw SQL on the
    connection of the transaction. *)
Definition exec (s : stmt) : ST sqlite Z := λ b,
  match b with
  | Pool gc d => let '(r, d') := db_Exec s d in (r, Pool gc d')
  | InTx t => let '(r, t') := tx_Exec s t in (r, InTx t')
  end.
Definition queryRow {R} (q : query R) : ST sqlite R := λ b,
  match b with
  | Pool gc d => let '(r, d') := db_Query q d in (r, Pool gc d')
  | InTx t => let '(r, t') := tx_Query q t in (r, InTx t')
  end.

(** The transaction at a view, at its end. *)
Definition tx_of (b : sqlite) (t : T) : T := match b with InTx t' => t' | Pool _ _ => t end.

(** ** The group-commit writer *)

Definition is_failure {A} (r : result A) : bool :=
  match r with Ok _ | Err ErrConflict => false | Err (ErrOther _) => true end.

(** The loop of [runBatch]: every job on the transaction, up to a failure. *)
Fixpoint apply_jobs {A} (jobs : list (ST sqlite A)) (t : T) : option (list (result A)) * T :=
  match jobs with
  | [] => (Some [], t)
  | job :: jobs' =>
      let '(r, b) := job (InTx t) in
      let t1 := tx_of b t in
      if is_failure r then (None, t1)
      else let '(rs, t2) := apply_jobs jobs' t1 in (cons r <$> rs, t2)
  end.

(** One job in its own transaction. *)
Definition run_alone {A} (job : ST sqlite A) (d : D) : result A * D :=
  match db_Begin d with
  | (Err e, d1) => (Err e, d1)
  | (Ok t, d1) =>
      let '(r, b) := job (InTx t) in
      if is_failure r then (r, tx_Rollback (tx_of b t) d1)
      else match tx_Commit (tx_of b t) d1 with
           | (Err e, d2) => (Err e, d2)
           | (Ok _, d2) => (r, d2)
           end
  end.

Fixpoint runIsolated {A} (jobs : list (ST sqlite A)) (d : D) : list (result A) * D :=
  match jobs with
  | [] => ([], d)
  | job :: jobs' =>
      let '(r, d1) := run_alone job d in
      let '(rs, d2) := runIsolated jobs' d1 in (r :: rs, d2)
  end.

(** [fail]: the error goes to every job. *)
Definition runBatch {A} (jobs : list (ST sqlite A)) (d : D) : list (result A) * D :=
  match db_Begin d with
  | (Err e, d1) => (map (λ _, Err e) jobs, d1)
  | (Ok t, d1) =>
      match apply_jobs jobs t with
      | (None, t') => runIsolated jobs (tx_Rollback t' d1)
      | (Some rs, t') =>
          match tx_Commit t' d1 with
          | (Err _, d2) => runIsolated jobs d2
          | (Ok _, d2) => (rs, d2)
          end
      end
  end.

(** [loop]: the batches it drains from the queue, one after the other. *)
Fixpoint coalescer_loop {A} (batches : list (list (ST sqlite A))) (d : D) : list (result A) * D :=
  match batches with
  | [] => ([], d)
  | batch :: batches' =>
      let '(rs, d1) := runBatch batch d in
      let '(rs', d2) := coalescer_loop batches' d1 in (rs ++ rs', d2)
  end.

(** [coalesce]: a write of the top-level backend with the writer on joins a batch,
    alone when nothing else is queued; any other runs where it is. *)
Definition coalesce {A} (fn : ST sqlite A) : ST sqlite A := λ b,
  match b with
  | Pool true d =>
      match runBatch [fn] d with
      | ([r], d') => (r, Pool true d')
      | (_, d') => (Err (ErrOther "no result"), Pool true d')
      end
  | _ => fn b
  end.

(** ** The data methods *)

Definition Backend_Get (org coll key : string) : ST sqlite (option string) := queryRow (sqlObjGet org coll key).

Definition put_fn (org coll key val : string) : ST sqlite unit := exec (sqlObjPut org coll key val) ;;! st_ret tt.
Definition Backend_Put (org coll key val : string) : ST sqlite unit := coalesce (put_fn org coll key val).

(** No row affected: the key was taken. *)
Definition inserted (s : stmt) : ST sqlite unit :=
  let! n := exec s in if decide (n = 0)%Z then st_fail ErrConflict else st_ret tt.
Definition Backend_Create (org coll key val : string) : ST sqlite unit := coalesce (inserted (sqlObjCreate org coll key val)).

Definition delete_fn (org coll key : string) : ST sqlite (option string) :=
  let! o := Backend_Get org coll key in
  match o with
  | None => st_ret None
  | Some old => exec (sqlObjDelete org coll key) ;;! st_ret (Some old)
  end.
Definition Backend_Delete (org coll key : string) : ST sqlite (option string) := coalesce (delete_fn org coll key).

Definition Backend_Keys (org coll : string) : ST sqlite (list string) := queryRow (SelectKeys org coll).
Definition Backend_Range (org coll : string) : ST sqlite (list (string * string)) := queryRow (SelectRows org coll).
Definition Backend_Collections (org : string) : ST sqlite (list string) := queryRow (SelectCollections org).

Definition putBlob_fn (org checksum content : string) : ST sqlite unit := exec (sqlBlobPut org checksum content) ;;! st_ret tt.
Definition Backend_PutBlob (org checksum content : string) : ST sqlite unit := coalesce (putBlob_fn org checksum content).
Definition Backend_Blob (org checksum : string) : ST sqlite (option string) := queryRow (sqlBlobGet org checksum).
Definition Backend_HasBlob (org checksum : string) : ST sqlite bool := queryRow (sqlBlobHas org checksum).
Definition deleteBlob_fn (org checksum : string) : ST sqlite unit := exec (sqlBlobDelete org checksum) ;;! st_ret tt.
Definition Backend_DeleteBlob (org checksum : string) : ST sqlite unit := coalesce (deleteBlob_fn org checksum).

Definition Backend_CreateOrg (name : string) : ST sqlite unit := coalesce (inserted (InsertOrg name)).

Definition deleteOrg_fn (name : string) : ST sqlite bool :=
  let! n := exec (DeleteOrgRow name) in
  if decide (n = 0)%Z then st_ret false
  else exec (DeleteObjectsOf name) ;;! exec (DeleteBlobsOf name) ;;! st_ret true.
Definition Backend_DeleteOrg (name : string) : ST sqlite bool := coalesce (deleteOrg_fn name).

Definition Backend_ListOrgs : ST sqlite (list string) := queryRow SelectOrgs.
Definition Backend_HasOrg (name : string) : ST sqlite bool := queryRow (sqlHasOrg name).

(** A transaction begun inside another waits for the only connection and never
    returns; that case stands as a failed call. *)
Definition Backend_Tx {X : Type} (fn : ST (sqlite * X) unit) : ST (sqlite * X) unit := λ '(b, x),
  match b with
  | InTx t => (Err (ErrOther "sqlite: transaction inside a transaction"), (b, x))
  | Pool gc d =>
      match db_Begin d with
      | (Err e, d1) => (Err e, (Pool gc d1, x))
      | (Ok t, d1) =>
          match fn (InTx t, x) with
          | (Err e, (b2, x2)) => (Err e, (Pool gc (tx_Rollback (tx_of b2 t) d1), x2))
          | (Ok _, (InTx t2, x2)) =>
              match tx_Commit t2 d1 with
              | (Err e, d2) => (Err e, (Pool gc d2, x2))
              | (Ok _, d2) => (Ok tt, (Pool gc d2, x2))
              end
          | (Ok _, (Pool gc2 d2, x2)) => (Ok tt, (Pool gc2 d2, x2))
          end
      end
  end.

#[global] Instance sqlite_backend : Backend sqlite := {|
  Get := Backend_Get; Put := Backend_Put; Create := Backend_Create; Delete := Backend_Delete; Keys := Backend_Keys;
  Range := Backend_Range; Collections := Backend_Collections; PutBlob := Backend_PutBlob; Blob := Backend_Blob;
  HasBlob := Backend_HasBlob; DeleteBlob := Backend_DeleteBlob; CreateOrg := Backend_CreateOrg;
  DeleteOrg := Backend_DeleteOrg; ListOrgs := Backend_ListOrgs; HasOrg := Backend_HasOrg; Tx := @Backend_Tx
|}.

(** ** Migrations *)

(** A migration is the statements its function issues. *)
Record migration := mkMigration { m_version : Z; m_name : string; m_up : list stmt }.
Definition migrations : list migration := [mkMigration 1 "initial schema" [CreateSchema]].

Fixpoint tx_Execs (ss : list stmt) : ST T unit :=
  match ss with [] => st_ret tt | s :: ss' => tx_Exec s ;;! tx_Execs ss' end.

Definition schemaVersion : ST D Z := db_Query SelectVersion.

Definition apply_migration (m : migration) : ST D unit := λ d,
  match db_Begin d with
  | (Err e, d1) => (Err e, d1)
  | (Ok t, d1) =>
      match tx_Execs (m_up m) t with
      | (Err e, t1) => (Err (ErrOther ("migration (" +:+ m_name m +:+ ")")), tx_Rollback t1 d1)
      | (Ok _, t1) =>
          match tx_Exec (InsertVersion (m_version m)) t1 with
          | (Err e, t2) => (Err (ErrOther "record migration"), tx_Rollback t2 d1)
          | (Ok _, t2) => tx_Commit t2 d1
          end
      end
  end.

Definition last_version (migs : list migration) : Z := match last migs with Some m => m_version m | None => 0%Z end.

Definition applyMigrations (migs : list migration) : ST D unit :=
  db_Exec CreateVersions ;;!
  let! current := schemaVersion in
  if decide (last_version migs < current)%Z then st_fail (ErrOther "database schema is newer than this server; upgrade the binary")
  else st_each (λ m, if decide (m_version m ≤ current)%Z then st_ret tt else apply_migration m) migs.

Definition migrate : ST D unit := applyMigrations migrations.
End Backend.
Arguments sqlite : clear implicits.

(** ** What a write means *)

Section Laws.
Context {D T : Type} `{EngineSpec D T}.
Abbreviation sqlite := (sqlite D T).

(** The tables a backend sees. *)
Definition tabs (b : sqlite) : tables := match b with Pool _ d => committed d | InTx t => held t end.
Definition space_of (t : tables) : space := default empty_space (t_space t).
Definition sview (b : sqlite) : space := space_of (tabs b).

Definition same_kind (b b' : sqlite) : Prop :=
  match b, b' with Pool gc _, Pool gc' _ => gc = gc' | InTx _, InTx _ => True | _, _ => False end.

Lemma exec_law s b : let '(r, b') := exec s b in same_kind b b' ∧
  match r with
  | Ok n => run_stmt s (tabs b) = Some (n, tabs b')
  | Err e => e ≠ ErrConflict ∧ tabs b' = tabs b
  end.
Proof.
  destruct b as [gc d|t]; cbn.
  - pose proof (db_Exec_spec s d) as L. by destruct (db_Exec s d) as [[]].
  - pose proof (tx_Exec_spec s t) as L. by destruct (tx_Exec s t) as [[]].
Qed.

Lemma query_law {R} (q : query R) b : let '(r, b') := queryRow q b in same_kind b b' ∧ tabs b' = tabs b ∧
  match r with Ok a => run_query q (tabs b) = Some a | Err e => e ≠ ErrConflict end.
Proof.
  destruct b as [gc d|t]; cbn.
  - pose proof (db_Query_spec q d) as L. destruct (db_Query q d) as [[]]; naive_solver.
  - pose proof (tx_Query_spec q t) as L. destruct (tx_Query q t) as [[]]; naive_solver.
Qed.

(** The meaning of a write: its result and the tables it leaves, or nothing when
    it is no valid SQL there. *)
Abbreviation meaning A := (tables → option (result A * tables)).

(** [P]: what a failed write may leave outside a transaction. *)
Definition write_law {A} (P : tables → tables → Prop) (f : ST sqlite A) (g : meaning A) : Prop :=
  ∀ b, let '(r, b') := f b in same_kind b b' ∧
    if is_failure r then P (tabs b) (tabs b') else g (tabs b) = Some (r, tabs b').

(** Writes one after another: each takes effect as it means, or fails without
    effect. *)
Inductive serial {A} : list (meaning A) → list (result A) → tables → tables → Prop :=
  | SerialNil t : serial [] [] t t
  | SerialDone g gs r rs t t1 t2 : is_failure r = false → g t = Some (r, t1) → serial gs rs t1 t2 → serial (g :: gs) (r :: rs) t t2
  | SerialFailed g gs r rs t t2 : is_failure r = true → serial gs rs t t2 → serial (g :: gs) (r :: rs) t t2.

Lemma failure_other {A} (e : gerror) : e ≠ ErrConflict → is_failure (Err e : result A) = true.
Proof. by destruct e. Qed.

Section Batches.
Context {A : Type} (P : tables → tables → Prop).

Lemma write_in_tx f (g : meaning A) t : write_law P f g →
  ∃ r t', f (InTx t) = (r, InTx t') ∧ (is_failure r = false → g (held t) = Some (r, held t')).
Proof.
  intros Hf. specialize (Hf (InTx t)). destruct (f (InTx t)) as [r [gc d|t']]; destruct Hf as [Hk Hg]; [done|].
  exists r, t'. split; [done|]. intros E. by rewrite E in Hg.
Qed.

Lemma apply_jobs_law fs (gs : list (meaning A)) : Forall2 (write_law P) fs gs → ∀ t,
  match apply_jobs fs t with (Some rs, t') => serial gs rs (held t) (held t') | (None, _) => True end.
Proof.
  induction 1 as [|f g fs gs Hf Hfs IH]; intros t; cbn [apply_jobs]; [constructor|].
  destruct (write_in_tx f g t Hf) as (r & t1 & -> & Hg). cbn [tx_of]. destruct (is_failure r) eqn:Er; [done|].
  specialize (IH t1). destruct (apply_jobs fs t1) as [[rs|] t2]; [|done]. cbn. eapply SerialDone; [done|by apply Hg|done].
Qed.

Lemma run_alone_law f (g : meaning A) d : write_law P f g → let '(r, d') := run_alone f d in
  if is_failure r then committed d' = committed d else g (committed d) = Some (r, committed d').
Proof.
  intros Hf. unfold run_alone. pose proof (db_Begin_spec d) as Lb. destruct (db_Begin d) as [[t|e] d1].
  2:{ destruct Lb as [He E]. by rewrite (failure_other e He). }
  destruct Lb as [Eh Ec]. destruct (write_in_tx f g t Hf) as (r & t1 & -> & Hg). cbn [tx_of].
  destruct (is_failure r) eqn:Er; [rewrite Er, tx_Rollback_spec; done|].
  pose proof (tx_Commit_spec t1 d1) as Lc. destruct (tx_Commit t1 d1) as [[[]|e] d2].
  - rewrite Er, Lc, <-Eh. by apply Hg.
  - destruct Lc as [He E]. rewrite (failure_other e He). congruence.
Qed.

Lemma runIsolated_law fs (gs : list (meaning A)) : Forall2 (write_law P) fs gs → ∀ d,
  let '(rs, d') := runIsolated fs d in serial gs rs (committed d) (committed d').
Proof.
  induction 1 as [|f g fs gs Hf Hfs IH]; intros d; cbn [runIsolated]; [constructor|].
  pose proof (run_alone_law f g d Hf) as L. destruct (run_alone f d) as [r d1]. specialize (IH d1).
  destruct (runIsolated fs d1) as [rs d2]. destruct (is_failure r) eqn:Er.
  - rewrite L in IH. by apply SerialFailed.
  - by eapply SerialDone.
Qed.

Lemma failed_serial (fs : list (ST sqlite A)) (gs : list (meaning A)) e t : e ≠ ErrConflict → Forall2 (write_law P) fs gs →
  serial gs (map (λ _, Err e) fs) t t.
Proof. intros He. induction 1; constructor; [by apply failure_other|done]. Qed.

Lemma runBatch_law fs (gs : list (meaning A)) : Forall2 (write_law P) fs gs → ∀ d,
  let '(rs, d') := runBatch fs d in serial gs rs (committed d) (committed d').
Proof.
  intros Hfs d. unfold runBatch. pose proof (db_Begin_spec d) as Lb. destruct (db_Begin d) as [[t|e] d1].
  2:{ destruct Lb as [He ->]. by apply failed_serial. }
  destruct Lb as [Eh Ec]. pose proof (apply_jobs_law fs gs Hfs t) as L. destruct (apply_jobs fs t) as [[rs|] t1].
  - pose proof (tx_Commit_spec t1 d1) as Lc. destruct (tx_Commit t1 d1) as [[[]|e] d2].
    + by rewrite Lc, <-Eh.
    + destruct Lc as [_ Ed2]. pose proof (runIsolated_law fs gs Hfs d2) as Li. destruct (runIsolated fs d2). by rewrite Ed2, Ec in Li.
  - pose proof (runIsolated_law fs gs Hfs (tx_Rollback t1 d1)) as Li. destruct (runIsolated fs (tx_Rollback t1 d1)).
    by rewrite tx_Rollback_spec, Ec in Li.
Qed.

Lemma coalesce_law f (g : meaning A) b : write_law P f g → (∀ t, P t t) → let '(r, b') := coalesce f b in
  if is_failure r then P (tabs b) (tabs b') else g (tabs b) = Some (r, tabs b').
Proof.
  intros Hf Hp. assert (let '(r, b') := f b in if is_failure r then P (tabs b) (tabs b') else g (tabs b) = Some (r, tabs b')) as Hd.
  { specialize (Hf b). destruct (f b) as [r b']. apply Hf. }
  unfold coalesce. destruct b as [[] d|t]; [|exact Hd..]. clear Hd.
  pose proof (runBatch_law [f] [g] ltac:(by repeat constructor) d) as L. destruct (runBatch [f] d) as [rs d'].
  inversion L as [|? ? r rs' ? t1 ? Er Hg Hn|? ? r rs' ? ? Hr Hn]; simplify_eq; inversion Hn; simplify_eq; cbn [tabs].
  - by rewrite Er.
  - rewrite Hr. match goal with E : _ = committed d' |- _ => rewrite <-E end. apply Hp.
Qed.
End Batches.
(** ** The data methods mean what the object space does *)

Definition stmt_meaning {A} (s : stmt) (f : Z → result A) : meaning A := λ t,
  match run_stmt s t with Some (n, t') => Some (f n, t') | None => None end.
Definition no_row {A} (a : A) (n : Z) : result A := if decide (n = 0)%Z then Err ErrConflict else Ok a.

Definition delete_meaning (o c k : string) : meaning (option string) := λ t,
  match run_query (sqlObjGet o c k) t with
  | None => None
  | Some None => Some (Ok None, t)
  | Some (Some old) => stmt_meaning (sqlObjDelete o c k) (λ _, Ok (Some old)) t
  end.
Definition deleteOrg_meaning (o : string) : meaning bool := λ t,
  match run_stmt (DeleteOrgRow o) t with
  | None => None
  | Some (n, t1) =>
      if decide (n = 0)%Z then Some (Ok false, t1)
      else match run_stmt (DeleteObjectsOf o) t1 with
           | None => None
           | Some (_, t2) => stmt_meaning (DeleteBlobsOf o) (λ _, Ok true) t2
           end
  end.

(** The objects of the other organizations stay. *)
Definition others_kept (o : string) (t t' : tables) : Prop :=
  ∀ o' c k, o' ≠ o → s_objs (space_of t') !! (o', c, k) = s_objs (space_of t) !! (o', c, k).

Lemma same_kind_trans b1 b2 b3 : same_kind b1 b2 → same_kind b2 b3 → same_kind b1 b3.
Proof. destruct b1, b2, b3; naive_solver. Qed.

Lemma exec_ret_law {A} s (a : A) : write_law (λ t t', t' = t) (exec s ;;! st_ret a) (stmt_meaning s (λ _, Ok a)).
Proof.
  intros b. unfold st_bind, st_ret, stmt_meaning. pose proof (exec_law s b) as L.
  destruct (exec s b) as [[n|e] b']; destruct L as [Hk L]; cbn; [by rewrite L|]. destruct L as [He ->]. by destruct e.
Qed.

Lemma inserted_law s : write_law (λ t t', t' = t) (inserted s) (stmt_meaning s (no_row tt)).
Proof.
  intros b. unfold inserted, st_bind, stmt_meaning, no_row. pose proof (exec_law s b) as L.
  destruct (exec s b) as [[n|e] b']; destruct L as [Hk L].
  - rewrite L. case_decide; done.
  - destruct L as [He ->]. by destruct e.
Qed.

Lemma delete_fn_law o c k : write_law (λ t t', t' = t) (delete_fn o c k) (delete_meaning o c k).
Proof.
  intros b. unfold delete_fn, Backend_Get, delete_meaning, st_bind at 1. pose proof (query_law (sqlObjGet o c k) b) as L.
  destruct (queryRow (sqlObjGet o c k) b) as [[[old|]|e] b1]; destruct L as (Hk & Et & L).
  - rewrite L. pose proof (exec_ret_law (sqlObjDelete o c k) (Some old) b1) as Le.
    destruct ((exec (sqlObjDelete o c k) ;;! st_ret (Some old)) b1) as [r b2]. rewrite Et in Le. destruct Le as [Hk2 Le].
    split; [by eapply same_kind_trans|done].
  - rewrite L. cbn [st_ret is_failure]. by rewrite Et.
  - by destruct e.
Qed.

Lemma deleteOrg_fn_law o : write_law (others_kept o) (deleteOrg_fn o) (deleteOrg_meaning o).
Proof.
  assert (∀ s t n t', s = DeleteOrgRow o ∨ s = DeleteObjectsOf o ∨ s = DeleteBlobsOf o → run_stmt s t = Some (n, t') → others_kept o t t') as Hkept.
  { intros s t n t' Hs Hr o' c' k Hne. unfold space_of.
    destruct Hs as [->|[->| ->]]; cbn in Hr; unfold affects in Hr; destruct (t_space t) as [sp|]; simplify_eq; cbn; try done.
    rewrite lookup_drop_objs. by rewrite decide_False. }
  intros b. unfold deleteOrg_fn, deleteOrg_meaning, st_bind at 1. pose proof (exec_law (DeleteOrgRow o) b) as L1.
  destruct (exec (DeleteOrgRow o) b) as [[n|e] b1]; destruct L1 as [Hk1 L1]; [|destruct L1 as [He ->]; by destruct e].
  rewrite L1. destruct (decide (n = 0)%Z); [done|]. unfold st_bind at 1. pose proof (exec_law (DeleteObjectsOf o) b1) as L2.
  destruct (exec (DeleteObjectsOf o) b1) as [[n2|e] b2]; destruct L2 as [Hk2 L2].
  2:{ destruct L2 as [He ->]. destruct e; [done|]. split; [by eapply same_kind_trans|]. cbn. eapply Hkept; [|exact L1]; auto. }
  rewrite L2. pose proof (exec_ret_law (DeleteBlobsOf o) true b2) as L3.
  destruct ((exec (DeleteBlobsOf o) ;;! st_ret true) b2) as [r b3]. destruct L3 as [Hk3 L3].
  split; [by do 2 (eapply same_kind_trans; [done|])|]. destruct (is_failure r); [|done]. rewrite L3.
  intros o' c k Hne. rewrite (Hkept _ _ _ _ (or_intror (or_introl eq_refl)) L2) by done.
  by rewrite (Hkept _ _ _ _ (or_introl eq_refl) L1).
Qed.

Lemma failure_err {A} (r : result A) : is_failure r = true → ∃ msg, r = Err (ErrOther msg).
Proof. destruct r as [|[|msg]]; naive_solver. Qed.

(** A write whose meaning is a change of the space. *)
Lemma coalesced_writes {A} (f : ST sqlite A) g b (Q : A → Prop) (h : space → space) :
  write_law (λ t t', t' = t) f g →
  (∀ r t', g (tabs b) = Some (r, t') → is_failure r = false → ∃ a, r = Ok a ∧ Q a ∧ space_of t' = h (space_of (tabs b))) →
  writes sview (coalesce f) b Q h.
Proof.
  intros Hf Hg. pose proof (coalesce_law _ f g b Hf ltac:(done)) as L. unfold writes, sview.
  destruct (coalesce f b) as [r b']. destruct (is_failure r) eqn:Er.
  - apply failure_err in Er as [msg ->]. by rewrite L.
  - destruct (Hg _ _ L Er) as (a & -> & Hq & E). done.
Qed.

Lemma coalesced_creates (f : ST sqlite unit) g b (taken : Prop) (h : space → space) :
  write_law (λ t t', t' = t) f g →
  (∀ r t', g (tabs b) = Some (r, t') → (r = Ok tt ∧ ¬ taken ∧ space_of t' = h (space_of (tabs b))) ∨
     (r = Err ErrConflict ∧ taken ∧ space_of t' = space_of (tabs b))) →
  creates sview (coalesce f) b taken h.
Proof.
  intros Hf Hg. pose proof (coalesce_law _ f g b Hf ltac:(done)) as L. unfold creates, sview.
  destruct (coalesce f b) as [r b']. destruct (is_failure r) eqn:Er.
  - apply failure_err in Er as [msg ->]. by rewrite L.
  - by destruct (Hg _ _ L) as [(-> & ? & ?)|(-> & ? & ?)].
Qed.

(** A query of the three tables. *)
Lemma space_reads {R} (q : query R) (f : space → R) b (Q : R → Prop) :
  (∀ t, run_query q t = from_space f t) → Q (f (sview b)) → reads sview (queryRow q) b Q.
Proof.
  intros Hq HQ. unfold reads. pose proof (query_law q b) as L. destruct (queryRow q b) as [[r|e] b']; destruct L as (_ & E & L).
  - unfold sview in *. rewrite E. split; [|done]. rewrite Hq in L. unfold from_space, space_of in *.
    destruct (t_space (tabs b)); [|done]. by injection L as <-.
  - unfold sview. by rewrite E.
Qed.

(** The rows a listing returns. *)
Lemma sorted_rows_perm (m : gmap string string) : sorted_rows m ≡ₚ map_to_list m.
Proof.
  unfold sorted_rows, sorted_keys. rewrite (omap_Permutation _ _ _ (sort_strings_perm ((map_to_list m).*1))).
  assert (∀ l : list (string * string), (∀ e, e ∈ l → m !! e.1 = Some e.2) → omap (λ k, (λ v, (k, v)) <$> m !! k) l.*1 = l) as Hl.
  { induction l as [|[k v] l IH]; intros Hl; [done|]. cbn. rewrite (Hl (k, v) ltac:(set_solver) : m !! k = Some v). cbn. rewrite IH; [done|]. intros e He. apply Hl. set_solver. }
  rewrite Hl; [done|]. intros [k v] Hin. by apply elem_of_map_to_list in Hin.
Qed.

Lemma collections_of_spec o sp : StronglySorted String.le (collections_of o sp) ∧ NoDup (collections_of o sp) ∧
  ∀ c, c ∈ collections_of o sp ↔ ∃ k, is_Some (s_objs sp !! (o, c, k)).
Proof.
  unfold collections_of. split_and!.
  - apply sort_strings_sorted.
  - rewrite sort_strings_perm. apply NoDup_remove_dups.
  - intros c. rewrite sort_strings_perm, elem_of_remove_dups, list_elem_of_fmap. split.
    + intros ([[[o' c'] k] v] & -> & Hin). apply list_elem_of_filter in Hin as [Ho Hin]. cbn in *. subst o'.
      apply elem_of_map_to_list in Hin. eauto.
    + intros (k & v & Hv). exists (o, c, k, v). split; [done|]. apply list_elem_of_filter. split; [done|]. by apply elem_of_map_to_list.
Qed.

(** A statement on the three tables. *)
Lemma affects_space f t n t' : affects f t = Some (n, t') → (n, space_of t') = f (space_of t).
Proof. unfold affects, space_of. destruct (t_space t) as [sp|]; [|done]. cbn. destruct (f sp). by intros [= <- <-]. Qed.

Lemma stmt_space {A} s f (h : Z → result A) t r t' : (∀ t, run_stmt s t = affects f t) → stmt_meaning s h t = Some (r, t') →
  r = h (f (space_of t)).1 ∧ space_of t' = (f (space_of t)).2.
Proof.
  intros Hs. unfold stmt_meaning. rewrite Hs. destruct (affects f t) as [[n t1]|] eqn:E; [|done]. intros [= <- <-].
  apply affects_space in E. by rewrite <-E.
Qed.

Lemma sqlite_Tx_law {X} (fn : ST (sqlite * X) unit) b x :
  match Backend_Tx fn (b, x) with
  | (Ok _, (b', x')) => ∃ b1 b2, sview b1 = sview b ∧ fn (b1, x) = (Ok tt, (b2, x')) ∧ sview b' = sview b2
  | (Err e, (b', x')) => sview b' = sview b ∧ (x' = x ∨ ∃ b1 r b2, sview b1 = sview b ∧ fn (b1, x) = (r, (b2, x')))
  end.
Proof.
  unfold Backend_Tx, sview. destruct b as [gc d|t]; [|by split; [|left]]. pose proof (db_Begin_spec d) as Lb.
  destruct (db_Begin d) as [[t|e] d1]; [|by cbn; split; [f_equal; apply Lb|left]]. destruct Lb as [Eh Ec].
  destruct (fn (InTx t, x)) as [[[]|e] [[gc2 d2|t2] x2]] eqn:Ef.
  - exists (InTx t), (Pool gc2 d2). split_and!; [cbn; by rewrite Eh|done..].
  - pose proof (tx_Commit_spec t2 d1) as Lc. destruct (tx_Commit t2 d1) as [[[]|e] d2].
    + exists (InTx t), (InTx t2). split_and!; [cbn; by rewrite Eh|done|cbn; by rewrite Lc].
    + destruct Lc as [_ Lc]. cbn. rewrite Lc, Ec. split; [done|]. right. exists (InTx t), (Ok tt), (InTx t2). cbn. by rewrite Eh.
  - cbn. rewrite tx_Rollback_spec, Ec. split; [done|]. right. exists (InTx t), (Err e), (Pool gc2 d2). cbn. by rewrite Eh.
  - cbn. rewrite tx_Rollback_spec, Ec. split; [done|]. right. exists (InTx t), (Err e), (InTx t2). cbn. by rewrite Eh.
Qed.

Lemma sqlite_Tx_conflict {X} (fn : ST (sqlite * X) unit) b x st' : Backend_Tx fn (b, x) = (Err ErrConflict, st') →
  ∃ b1 st2, sview b1 = sview b ∧ fn (b1, x) = (Err ErrConflict, st2).
Proof.
  unfold Backend_Tx, sview. destruct b as [gc d|t]; [|done]. pose proof (db_Begin_spec d) as Lb.
  destruct (db_Begin d) as [[t|e] d1]; [|intros [= -> _]; by destruct Lb]. destruct Lb as [Eh _].
  destruct (fn (InTx t, x)) as [[[]|e] [b2 x2]] eqn:Ef.
  - destruct b2 as [|t2]; [done|]. pose proof (tx_Commit_spec t2 d1) as Lc. destruct (tx_Commit t2 d1) as [[[]|e] d2]; [done|].
    intros [= -> _]. by destruct Lc.
  - intros [= -> _]. exists (InTx t), (b2, x2). split; [|done]. cbn. by rewrite Eh.
Qed.

Lemma simple_write (s : stmt) (f : space → Z * space) b (h : space → space) : (∀ t, run_stmt s t = affects f t) →
  (∀ sp, (f sp).2 = h sp) → writes sview (coalesce (exec s ;;! st_ret tt)) b (λ _, True) h.
Proof.
  intros Hs Hf. eapply coalesced_writes; [apply exec_ret_law|]. intros r t' Hg _.
  apply (stmt_space _ f) in Hg as [-> ->]; [|done]. exists tt. by rewrite Hf.
Qed.

Lemma insert_write (s : stmt) (f : space → Z * space) b (taken : Prop) (h : space → space) : (∀ t, run_stmt s t = affects f t) →
  (taken ∧ f (sview b) = (0%Z, sview b) ∨ ¬ taken ∧ f (sview b) = (1%Z, h (sview b))) →
  creates sview (coalesce (inserted s)) b taken h.
Proof.
  intros Hs Hf. eapply coalesced_creates; [apply inserted_law|]. intros r t' Hg.
  apply (stmt_space _ f) in Hg as [-> ->]; [|done]. unfold sview in Hf. destruct Hf as [[? ->]|[? ->]]; cbn; auto.
Qed.

Lemma delete_meaning_space o c k t r t' : delete_meaning o c k t = Some (r, t') →
  r = Ok (s_objs (space_of t) !! (o, c, k)) ∧ space_of t' = sp_delete o c k (space_of t).
Proof.
  unfold delete_meaning. destruct (run_query (sqlObjGet o c k) t) as [old|] eqn:Eq; [|done].
  assert (old = s_objs (space_of t) !! (o, c, k)) as ->.
  { cbn in Eq. unfold from_space, space_of in *. destruct (t_space t); [|done]. by injection Eq as <-. }
  destruct (s_objs (space_of t) !! (o, c, k)) as [old|] eqn:E.
  - intros Hg. by apply (stmt_space _ (λ sp, (one_if (is_Some (s_objs sp !! (o, c, k))), sp_delete o c k sp))) in Hg as [-> ->].
  - intros [= <- <-]. split; [done|]. apply Memory.space_eq; [done| |done]. intros o' c' k'. rewrite s_objs_delete. by rewrite delete_id.
Qed.

Lemma deleteOrg_meaning_space o t r t' : deleteOrg_meaning o t = Some (r, t') →
  (o ∈ s_orgs (space_of t) ∧ r = Ok true ∧ space_of t' = sp_drop_org o (space_of t)) ∨
  ((o ∉ s_orgs (space_of t)) ∧ r = Ok false ∧ space_of t' = space_of t).
Proof.
  unfold deleteOrg_meaning. destruct (run_stmt (DeleteOrgRow o) t) as [[n t1]|] eqn:E1; [|done].
  apply affects_space in E1. cbn in E1. injection E1 as -> E1. unfold one_if. destruct (decide (o ∈ s_orgs (space_of t))) as [Ho|Ho].
  - destruct (run_stmt (DeleteObjectsOf o) t1) as [[n2 t2]|] eqn:E2; [|done]. apply affects_space in E2. injection E2 as _ E2. intros L.
    apply (stmt_space _ (λ sp, (Z.of_nat (size (s_blobs sp)) - Z.of_nat (size (filter (λ kv, kv.1.1 ≠ o) (s_blobs sp))),
      mkSpace (s_orgs sp) (s_objs sp) (filter (λ kv, kv.1.1 ≠ o) (s_blobs sp)))%Z)) in L as [-> ->]; [|done].
    left. cbn. by rewrite E2, E1.
  - intros [= <- <-]. right. split_and!; [done..|]. rewrite E1. apply Memory.space_eq; [cbn; set_solver|done..].
Qed.

Lemma delete_write o c k b : writes sview (Backend_Delete o c k) b (λ v, v = s_objs (sview b) !! (o, c, k)) (sp_delete o c k).
Proof.
  eapply coalesced_writes; [apply delete_fn_law|]. intros r t' [-> ->]%delete_meaning_space _. by eexists.
Qed.

Lemma deleteOrg_write o b : match Backend_DeleteOrg o b with
  | (Ok true, b') => o ∈ s_orgs (sview b) ∧ sview b' = sp_drop_org o (sview b)
  | (Ok false, b') => (o ∉ s_orgs (sview b)) ∧ sview b' = sview b
  | (Err e, b') => e ≠ ErrConflict ∧ ∀ o' c k, o' ≠ o → s_objs (sview b') !! (o', c, k) = s_objs (sview b) !! (o', c, k)
  end.
Proof.
  pose proof (coalesce_law _ _ _ b (deleteOrg_fn_law o) ltac:(done)) as L. unfold Backend_DeleteOrg.
  destruct (coalesce (deleteOrg_fn o) b) as [r b']. destruct (is_failure r) eqn:Er; [by apply failure_err in Er as [msg ->]|].
  by apply deleteOrg_meaning_space in L as [(? & -> & ?)|(? & -> & ?)].
Qed.

(** With the group-commit writer a drop is one transaction: one that fails removes
    nothing. *)
Lemma coalesced_drop_whole o d e b' : Backend_DeleteOrg o (Pool true d) = (Err e, b') → sview b' = sview (Pool true d).
Proof.
  unfold Backend_DeleteOrg, coalesce. pose proof (runBatch_law _ [deleteOrg_fn o] _ ltac:(repeat constructor; apply (deleteOrg_fn_law o)) d) as L.
  destruct (runBatch [deleteOrg_fn o] d) as [rs d']. inversion L as [|? ? r rs' ? t1 ? Er Hg Hn|? ? r rs' ? ? Hr Hn]; simplify_eq;
    inversion Hn; simplify_eq; intros [= -> <-].
  - by destruct (deleteOrg_meaning_space _ _ _ _ Hg) as [(_ & ? & _)|(_ & ? & _)].
  - unfold sview. cbn [tabs]. congruence.
Qed.

#[global] Program Instance sqlite_spec : BackendSpec sqlite := {| view := sview |}.
Next Obligation. intros. by eapply space_reads. Qed.
Next Obligation. intros. by eapply simple_write. Qed.
Next Obligation.
  intros. eapply insert_write; [done|]. cbn. destruct (s_objs (sview b) !! (o, c, k)); [left|right]; split; eauto.
Qed.
Next Obligation. intros. apply delete_write. Qed.
Next Obligation. intros. by eapply space_reads. Qed.
Next Obligation. intros. eapply space_reads; [done|]. apply sorted_rows_perm. Qed.
Next Obligation. intros. eapply space_reads; [done|]. apply collections_of_spec. Qed.
Next Obligation. intros. by eapply simple_write. Qed.
Next Obligation. intros. by eapply space_reads. Qed.
Next Obligation. intros. eapply space_reads; [done|]. apply bool_decide_eq_true. Qed.
Next Obligation. intros. by eapply simple_write. Qed.
Next Obligation. intros. eapply insert_write; [done|]. cbn. destruct (decide (o ∈ s_orgs (sview b))); auto. Qed.
Next Obligation. intros. apply deleteOrg_write. Qed.
Next Obligation. intros. by eapply space_reads. Qed.
Next Obligation. intros. eapply space_reads; [done|]. apply bool_decide_eq_true. Qed.
Next Obligation. intros. apply sqlite_Tx_law. Qed.
Next Obligation. intros. by eapply sqlite_Tx_conflict. Qed.
End Laws.

(** C17. The SQLite backend refines the Backend contract: whatever the engine beneath
    it, with or without group commit, a run of the interface's calls and of
    transactions, whose function makes any calls, each chosen by the answers
    before it, and returns nil or an error, is answered as the abstract space
    answers it and leaves the tables that are that space, provided it meets no
    fault: no call fails with an error of the engine and every transaction ends
    as its function does (its beginning and its commit do not fail). So a
    transaction whose function returns nil is committed whole and one whose
    function returns an error leaves nothing. *)
Theorem sqlite_refines_space `{EngineSpec D T} (ops : list op) (b : sqlite D T)
    (Hok : Forall2 faultless ops (perform_all perform_op ops b).1) :
  perform_all perform_op_space ops (sview b) = ((perform_all perform_op ops b).1, sview (perform_all perform_op ops b).2).
Proof. exact (perform_all_agrees ops b Hok). Qed.

(** ** Group commit *)

Section GroupCommit.
Context {D T : Type} `{EngineSpec D T}.
Abbreviation sqlite := (sqlite D T).

Definition st_map {S A C} (h : A → C) (m : ST S A) : ST S C := let! a := m in st_ret (h a).

(** The job a writing call submits; a call that reads submits none. *)
Definition job (c : call) : option (ST sqlite answer) :=
  match c with
  | CPut o c k v => Some (st_map (λ _, AUnit) (put_fn o c k v))
  | CCreate o c k v => Some (st_map (λ _, AUnit) (inserted (sqlObjCreate o c k v)))
  | CDelete o c k => Some (st_map AValue (delete_fn o c k))
  | CPutBlob o k v => Some (st_map (λ _, AUnit) (putBlob_fn o k v))
  | CDeleteBlob o k => Some (st_map (λ _, AUnit) (deleteBlob_fn o k))
  | CCreateOrg o => Some (st_map (λ _, AUnit) (inserted (InsertOrg o)))
  | CDeleteOrg o => Some (st_map ABool (deleteOrg_fn o))
  | _ => None
  end.

Definition to_answer (r : result answer) : answer := match r with Ok a => a | Err e => AError e end.

(** Calls one after another on the space; one that failed did nothing. *)
Inductive in_order : list call → list answer → space → space → Prop :=
  | OrderNil sp : in_order [] [] sp sp
  | OrderDone c cs a as_ sp sp1 sp2 : perform_space c sp = (a, sp1) → in_order cs as_ sp1 sp2 → in_order (c :: cs) (a :: as_) sp sp2
  | OrderFailed c cs msg as_ sp sp2 : in_order cs as_ sp sp2 → in_order (c :: cs) (AError (ErrOther msg) :: as_) sp sp2.

Definition map_meaning {A C} (h : A → C) (g : tables → option (result A * tables)) (t : tables) : option (result C * tables) :=
  match g t with
  | Some (Ok a, t') => Some (Ok (h a), t')
  | Some (Err e, t') => Some (Err e, t')
  | None => None
  end.

Lemma st_map_law {A C} P (h : A → C) (f : ST sqlite A) g : write_law P f g → write_law (λ _ _, True) (st_map h f) (map_meaning h g).
Proof.
  intros Hf b. specialize (Hf b). unfold st_map, st_bind, st_ret, map_meaning. destruct (f b) as [[a|e] b'].
  - destruct Hf as [? Hg]. cbn in *. by rewrite Hg.
  - destruct Hf as [? Hg]. destruct e; cbn in *; [|done]. by rewrite Hg.
Qed.

(** A job means its call. *)
Definition means (c : call) (g : tables → option (result answer * tables)) : Prop :=
  ∀ t r t', g t = Some (r, t') → is_failure r = false → perform_space c (space_of t) = (to_answer r, space_of t').

Lemma map_meaning_Some {A C} (h : A → C) g t r t' : map_meaning h g t = Some (r, t') →
  (∃ a, g t = Some (Ok a, t') ∧ r = Ok (h a)) ∨ (∃ e, g t = Some (Err e, t') ∧ r = Err e).
Proof. unfold map_meaning. destruct (g t) as [[[a|e] t1]|]; intros [= <- <-]; eauto. Qed.

Lemma stmt_means {A} c s f (h : A → answer) k : (∀ t, run_stmt s t = affects f t) →
  (∀ sp, perform_space c sp = (to_answer (match k (f sp).1 with Ok a => Ok (h a) | Err e => Err e end), (f sp).2)) →
  means c (map_meaning h (stmt_meaning s k)).
Proof.
  intros Hs Hc t r t' Hg _. rewrite Hc.
  apply map_meaning_Some in Hg as [(a & Hg & ->)|(e & Hg & ->)]; apply (stmt_space _ f) in Hg as [<- ->]; done.
Qed.

Lemma job_law c f : job c = Some f → ∃ g, write_law (λ _ _, True) f g ∧ means c g.
Proof.
  destruct c; cbn [job]; intros [= <-].
  - eexists. split; [apply (st_map_law _ _ _ _ (exec_ret_law _ _))|]. by eapply stmt_means.
  - eexists. split; [apply (st_map_law _ _ _ _ (inserted_law _))|]. eapply stmt_means; [done|]. intros sp. cbn.
    by destruct (s_objs sp !! (o, c, k)).
  - eexists. split; [apply (st_map_law _ _ _ _ (delete_fn_law _ _ _))|]. intros t r t' Hg _.
    by apply map_meaning_Some in Hg as [(a & [[= ->] ->]%delete_meaning_space & ->)|(e & [? _]%delete_meaning_space & _)].
  - eexists. split; [apply (st_map_law _ _ _ _ (exec_ret_law _ _))|]. by eapply stmt_means.
  - eexists. split; [apply (st_map_law _ _ _ _ (exec_ret_law _ _))|]. by eapply stmt_means.
  - eexists. split; [apply (st_map_law _ _ _ _ (inserted_law _))|]. eapply stmt_means; [done|]. intros sp. cbn. by case_decide.
  - eexists. split; [apply (st_map_law _ _ _ _ (deleteOrg_fn_law _))|]. intros t r t' Hg _. cbn [perform_space].
    apply map_meaning_Some in Hg as [(a & Hg & ->)|(e & Hg & ->)];
      apply deleteOrg_meaning_space in Hg as [(Ho & Er & E)|(Ho & Er & E)]; try done; injection Er as ->; rewrite E;
      [by rewrite decide_True|by rewrite decide_False].
Qed.

(** The jobs of a queue of writing calls. *)
Lemma jobs_law cs fs : mapM job cs = Some fs → ∃ gs, Forall2 (write_law (λ _ _, True)) fs gs ∧ Forall2 means cs gs.
Proof.
  intros Hm%mapM_Some_1. induction Hm as [|c f cs fs Hc Hcs (gs & Hg & Hm)]; [by exists []|].
  destruct (job_law c f Hc) as (g & ? & ?). exists (g :: gs). split; by constructor.
Qed.

Lemma serial_in_order cs gs rs t t' : Forall2 means cs gs → serial gs rs t t' → in_order cs (map to_answer rs) (space_of t) (space_of t').
Proof.
  intros Hm Hs. revert cs Hm. induction Hs as [|g gs r rs t t1 t2 Er Hg Hs IH|g gs r rs t t2 Er Hs IH]; intros cs Hm;
    inversion Hm as [|c ? cs' ? Hc Hcs]; simplify_eq; cbn [map]; [constructor|eapply OrderDone; [by eapply Hc|by apply IH]|].
  apply failure_err in Er as [msg ->]. apply OrderFailed, IH, Hcs.
Qed.

Lemma in_order_app cs cs' as_ as' sp sp1 sp2 : in_order cs as_ sp sp1 → in_order cs' as' sp1 sp2 → in_order (cs ++ cs') (as_ ++ as') sp sp2.
Proof. induction 1; intros Hr; cbn; [done|eapply OrderDone|eapply OrderFailed]; eauto. Qed.
End GroupCommit.


(** ** Migrations *)

Fixpoint run_stmts (ss : list stmt) (t : tables) : option tables :=
  match ss with
  | [] => Some t
  | s :: ss' => match run_stmt s t with Some (_, t1) => run_stmts ss' t1 | None => None end
  end.

(** Migrations applied whole and recorded, one after the other. *)
Fixpoint run_migrations (ms : list migration) (t : tables) : option tables :=
  match ms with
  | [] => Some t
  | m :: ms' => t1 ← run_stmts (m_up m ++ [InsertVersion (m_version m)]) t; run_migrations ms' t1
  end.

Definition pending (current : Z) (migs : list migration) : list migration := filter (λ m, (current < m_version m)%Z) migs.

(** The version table, made if it was not there. *)
Definition versioned (t : tables) : tables := mkTables (Some (default ∅ (t_versions t))) (t_space t).
Definition version_of (t : tables) : Z := max_version (default ∅ (t_versions t)).

(** The statements of a migration leave the version table to the server. *)
Definition data_only (m : migration) : Prop :=
  Forall (λ s, match s with CreateVersions | InsertVersion _ => False | _ => True end) (m_up m).

Lemma run_stmts_app ss ss' t : run_stmts (ss ++ ss') t = run_stmts ss t ≫= run_stmts ss'.
Proof. revert t. induction ss as [|s ss IH]; intros t; [done|]. cbn. destruct (run_stmt s t) as [[]|]; [apply IH|done]. Qed.

Lemma run_migrations_app ms ms' t : run_migrations (ms ++ ms') t = run_migrations ms t ≫= run_migrations ms'.
Proof.
  revert t. induction ms as [|m ms IH]; intros t; [done|]. cbn [app run_migrations]. destruct (run_stmts _ t) as [t1|]; [apply IH|done].
Qed.

Lemma max_version_le vs b : (max_version vs ≤ b)%Z ↔ (0 ≤ b ∧ ∀ v, v ∈ vs → v ≤ b)%Z.
Proof.
  unfold max_version. setoid_rewrite <-elem_of_elements. induction (elements vs) as [|x l IH]; cbn.
  - split; [intros; split; [lia|]; intros v Hv; set_solver|lia].
  - rewrite Z.max_lub_iff, IH. set_solver.
Qed.

Lemma data_versions ss t t' : Forall (λ s, match s with CreateVersions | InsertVersion _ => False | _ => True end) ss →
  run_stmts ss t = Some t' → t_versions t' = t_versions t.
Proof.
  intros Hs. revert t. induction Hs as [|s ss Hs Hss IH]; intros t; cbn; [by intros [= <-]|].
  destruct (run_stmt s t) as [[n t1]|] eqn:E; [|done]. intros Hr. rewrite (IH t1 Hr).
  destruct s; try done; cbn in E; unfold affects in E; destruct (t_space t) as [sp|]; try done; by repeat case_match; simplify_eq.
Qed.

Lemma migrated_versions ms t t' vs : Forall data_only ms → t_versions t = Some vs → run_migrations ms t = Some t' →
  t_versions t' = Some (list_to_set (map m_version ms) ∪ vs).
Proof.
  intros Hd. revert t vs. induction Hd as [|m ms Hm Hms IH]; intros t vs Ht; cbn [run_migrations map list_to_set].
  - intros [= <-]. rewrite Ht. f_equal. set_solver.
  - rewrite run_stmts_app. destruct (run_stmts (m_up m) t) as [t1|] eqn:E; [|done]. cbn.
    apply data_versions in E; [|done]. rewrite E, Ht. case_decide; [done|]. cbn. intros Hr.
    eapply IH in Hr; [|done]. rewrite Hr. f_equal. set_solver.
Qed.

Section Migrations.
Context {D T : Type} `{EngineSpec D T}.

Lemma tx_Execs_law ss t : let '(r, t') := tx_Execs ss t in match r with Ok _ => run_stmts ss (held t) = Some (held t') | Err _ => True end.
Proof.
  revert t. induction ss as [|s ss IH]; intros t; [done|]. cbn [tx_Execs run_stmts]. unfold st_bind.
  pose proof (tx_Exec_spec s t) as L. destruct (tx_Exec s t) as [[n|e] t1]; [|done]. specialize (IH t1).
  destruct (tx_Execs ss t1) as [[[]|e] t2]; [by rewrite L|done].
Qed.

Lemma apply_migration_law m d : let '(r, d') := apply_migration m d in
  match r with
  | Ok _ => run_stmts (m_up m ++ [InsertVersion (m_version m)]) (committed d) = Some (committed d')
  | Err _ => committed d' = committed d
  end.
Proof.
  unfold apply_migration. pose proof (db_Begin_spec d) as Lb. destruct (db_Begin d) as [[t|e] d1]; [|apply Lb]. destruct Lb as [Eh Ec].
  pose proof (tx_Execs_law (m_up m) t) as Lu. destruct (tx_Execs (m_up m) t) as [[[]|e] t1]; [|by rewrite tx_Rollback_spec].
  pose proof (tx_Exec_spec (InsertVersion (m_version m)) t1) as Li.
  destruct (tx_Exec (InsertVersion (m_version m)) t1) as [[n|e] t2]; [|by rewrite tx_Rollback_spec].
  pose proof (tx_Commit_spec t2 d1) as Lc. destruct (tx_Commit t2 d1) as [[[]|e] d2]; [|destruct Lc; congruence].
  rewrite run_stmts_app, <-Eh, Lu, Lc. cbn [mbind option_bind run_stmts]. by rewrite Li.
Qed.

(** The loop: the migrations done so far, and whether it got to the end. *)
Lemma migration_loop_law current migs d : ∃ ms rest, pending current migs = ms ++ rest ∧
  let '(r, d') := st_each (λ m, if decide (m_version m ≤ current)%Z then st_ret tt else apply_migration m) migs d in
  run_migrations ms (committed d) = Some (committed d') ∧ (is_Ok r = true → rest = []).
Proof.
  revert d. induction migs as [|m migs IH]; intros d; [by exists [], []|]. cbn [st_each]. unfold st_bind, pending. rewrite filter_cons.
  destruct (decide (m_version m ≤ current)%Z) as [Hle|Hgt].
  - rewrite decide_False by lia. apply IH.
  - rewrite decide_True by lia. pose proof (apply_migration_law m d) as L. destruct (apply_migration m d) as [[[]|e] d1].
    + destruct (IH d1) as (ms & rest & Ep & Hr). exists (m :: ms), rest. rewrite <-app_comm_cons. split; [by f_equal|].
      destruct (st_each _ migs d1) as [r d2]. destruct Hr as [Hr Hok]. split; [|done]. cbn [run_migrations]. rewrite L. exact Hr.
    + exists [], (m :: pending current migs). split; [done|]. rewrite L. done.
Qed.
End Migrations.

(** Opening a database migrates it exactly. A database newer than the server is
    refused as it is; otherwise the migrations it does not record are applied in
    order, each whole and together with its record, up to the first that fails;
    and when all went well, opening the database again applies none. *)
Theorem migrations_apply_once `{EngineSpec D T} (migs : list migration) (d : D) (Hdata : Forall data_only migs) :
  let '(r, d') := applyMigrations migs d in
  (is_Ok r = false ∧ (committed d' = committed d ∨ committed d' = versioned (committed d))) ∨
  (version_of (committed d) ≤ last_version migs)%Z ∧
  ∃ ms rest, pending (version_of (committed d)) migs = ms ++ rest ∧
    run_migrations ms (versioned (committed d)) = Some (committed d') ∧
    (is_Ok r = true → rest = [] ∧ pending (version_of (committed d')) migs = []).
Proof.
  unfold applyMigrations, schemaVersion, st_bind at 1. pose proof (db_Exec_spec CreateVersions d) as L1.
  destruct (db_Exec CreateVersions d) as [[n|e] d1]; [|left; split; [done|by left; apply L1]]. cbn in L1. injection L1 as _ L1.
  fold (versioned (committed d)) in L1. unfold st_bind. pose proof (db_Query_spec SelectVersion d1) as L2.
  destruct (db_Query SelectVersion d1) as [[v|e] d2]; destruct L2 as [L2 Ec]; [|left; split; [done|right; congruence]].
  cbn in L2. rewrite <-L1 in L2. cbn in L2. injection L2 as <-. fold (version_of (committed d)).
  destruct (decide (last_version migs < version_of (committed d))%Z) as [Hnew|Hold]; [left; split; [done|right; cbn; congruence]|].
  destruct (migration_loop_law (version_of (committed d)) migs d2) as (ms & rest & Ep & Hl).
  destruct (st_each _ migs d2) as [r d'] eqn:Er. destruct Hl as [Hrun Hok]. right. split; [lia|]. exists ms, rest.
  assert (committed d2 = versioned (committed d)) as E2 by congruence. rewrite E2 in Hrun. split_and!; [done..|]. intros Hr.
  rewrite (Hok Hr), app_nil_r in Ep. split; [by apply Hok|].
  assert (Forall data_only ms) as Hms.
  { rewrite <-Ep. unfold pending. rewrite !Forall_forall in *. intros m [_ Hm]%list_elem_of_filter. auto. }
  pose proof (migrated_versions ms (versioned (committed d)) _ _ Hms eq_refl Hrun) as Ev.
  assert (∀ m, m ∈ migs → (m_version m ≤ version_of (committed d'))%Z) as Hle.
  { intros m Hm. unfold version_of. rewrite Ev. cbn [default].
    pose proof (proj1 (max_version_le _ _) (Z.le_refl (max_version (list_to_set (map m_version ms) ∪ default ∅ (t_versions (committed d)))))) as [H0' Hall].
    destruct (decide (version_of (committed d) < m_version m)%Z) as [Hlt|Hge].
    - apply Hall. apply elem_of_union_l, elem_of_list_to_set, list_elem_of_fmap. exists m. split; [done|]. rewrite <-Ep.
      by apply list_elem_of_filter.
    - transitivity (version_of (committed d)); [lia|]. unfold version_of. apply max_version_le. split; [done|]. intros v Hv. apply Hall. set_solver. }
  unfold pending. apply filter_none, Forall_forall. intros m Hm. specialize (Hle m Hm). lia.
Qed.

(** ** A database whose calls fail by a schedule *)

Module Toy.
(** The tables, and which of the next calls fail. *)
Definition db : Type := tables * list bool.

Definition sql_error : gerror := ErrOther "SQL logic error".
Definition scheduled {A} (m : tables → option (A * tables)) : ST db A := λ '(t, sch),
  match sch with
  | true :: sch' => (Err (ErrOther "disk I/O error"), (t, sch'))
  | _ => match m t with Some (a, t') => (Ok a, (t', tail sch)) | None => (Err sql_error, (t, tail sch)) end
  end.

(** A transaction works on a copy; the outcomes of its calls are those of the
    schedule from its beginning on. *)
#[export] Instance engine : Engine db db := {|
  db_Exec s := scheduled (run_stmt s);
  db_Query _ q := scheduled (λ t, (λ r, (r, t)) <$> run_query q t);
  db_Begin := λ '(t, sch), match sch with
    | true :: sch' => (Err (ErrOther "database is locked"), (t, sch'))
    | _ => (Ok (t, tail sch), (t, drop 3 sch)) end;
  tx_Exec s := scheduled (run_stmt s);
  tx_Query _ q := scheduled (λ t, (λ r, (r, t)) <$> run_query q t);
  tx_Commit x := λ '(t, sch), match sch with
    | true :: sch' => (Err (ErrOther "database is full"), (t, sch'))
    | _ => (Ok tt, (x.1, tail sch)) end;
  tx_Rollback _ d := d
|}.

Lemma scheduled_law {A} (m : tables → option (A * tables)) (d : db) : match scheduled m d with
  | (Ok a, d') => m d.1 = Some (a, d'.1)
  | (Err e, d') => e ≠ ErrConflict ∧ d'.1 = d.1 end.
Proof. destruct d as [t [|[] sch]]; cbn; try done; by destruct (m t) as [[]|]. Qed.

Lemma scheduled_query {R} (q : query R) (d : db) : match scheduled (λ t, (λ r, (r, t)) <$> run_query q t) d with
  | (Ok a, d') => run_query q d.1 = Some a ∧ d'.1 = d.1
  | (Err e, d') => e ≠ ErrConflict ∧ d'.1 = d.1 end.
Proof.
  pose proof (scheduled_law (λ t, (λ r, (r, t)) <$> run_query q t) d) as L. destruct (scheduled _ d) as [[a|e] d']; [|done].
  destruct (run_query q d.1); [|done]. cbn in L. by simplify_eq.
Qed.

#[export] Program Instance engine_spec : EngineSpec db db := {| committed := fst; held := fst |}.
Next Obligation. intros. apply (scheduled_law (run_stmt s)). Qed.
Next Obligation. intros. apply scheduled_query. Qed.
Next Obligation. intros [t [|[] sch]]; done. Qed.
Next Obligation. intros. apply (scheduled_law (run_stmt s)). Qed.
Next Obligation. intros. apply scheduled_query. Qed.
Next Obligation. intros t [t' [|[] sch]]; done. Qed.
Next Obligation. done. Qed.

Definition fresh (sch : list bool) : db := (mkTables None None, sch).
Definition opened_db (sch : list bool) : db := ((migrate (fresh [])).2.1, sch).

Definition queue : list (list call) :=
  [[CCreateOrg "acme"; CPut "acme" "nodes" "web" "{}"]; [CCreate "acme" "nodes" "web" "[]"; CDelete "acme" "nodes" "web"]].
Definition jobs : list (list (ST (sqlite db db) answer)) := default [] (mapM (mapM job) queue).


Lemma migrations_apply_once_witness :
  let '(r, d') := applyMigrations migrations (fresh []) in is_Ok r = true ∧ pending (version_of (committed d')) migrations = [].
Proof.
  pose proof (migrations_apply_once migrations (fresh [])) as Ht.
  assert (is_Ok (applyMigrations migrations (fresh [])).1 = true) as E by (vm_compute; reflexivity).
  destruct (applyMigrations migrations (fresh [])) as [r d']. split; [exact E|].
  destruct Ht as [[Hf _]|(_ & ms & rest & _ & _ & Hok)]; [repeat constructor|cbn in E; congruence|]. apply (Hok E).
Defined.

(** Calls and transactions, one of which its function rolls back. *)
Lemma sqlite_refines_space_witness :
  let b := Pool true (opened_db []) in
  (perform_all perform_op sample_ops b).1 =
    [Answered AUnit; Answered AUnit; Ended [AValue (Some "{}"); AValue (Some "{}"); AUnit] (Err ErrConflict);
     Answered (AList ["nodes"]); Answered (ABool false)] ∧
  perform_all perform_op_space sample_ops (sview b) =
  ((perform_all perform_op sample_ops b).1, sview (perform_all perform_op sample_ops b).2).
Proof.
  assert ((perform_all perform_op sample_ops (Pool true (opened_db []) : sqlite db db)).1 =
    [Answered AUnit; Answered AUnit; Ended [AValue (Some "{}"); AValue (Some "{}"); AUnit] (Err ErrConflict);
     Answered (AList ["nodes"]); Answered (ABool false)]) as E by (vm_compute; reflexivity).
  split; [exact E|]. apply (sqlite_refines_space sample_ops (Pool true (opened_db []))).
  rewrite E. repeat constructor.
Defined.

(** Without group commit an organization is dropped by three statements of their
    own. When the third fails the drop is answered with an error and the objects
    are gone, and no observer hears of it: replaying the write stream, a
    search index and the like still have them. *)
Example half_dropped_unseen :
  let s := Watch logger (NewWithBackend (Pool false (opened_db [false; false; false; false; true])) []) in
  let acts := [One (WCreateOrg "acme"); One (WPut "acme" "nodes" "web" "{}"); One (WDeleteOrg "acme")] in
  let s' := run_actions acts s in
  s_objs (sview s'.1) !! ("acme", "nodes", "web") = None ∧
  replay (obs s'.2) ∅ !! ("acme", "nodes", "web") = Some "{}" ∧
  half_dropped_in acts s = {["acme"]}.
Proof.
  intros s acts s'. split_and!; [vm_compute; reflexivity..|].
  apply (bool_decide_unpack _). vm_compute. exact I.
Qed.
End Toy.
