(* ===== verification/GoText.v ===== *)
(** * Go text: UTF-8, letter case and white space

    The parts of unicode/utf8, unicode and strings the server's code uses on
    byte strings: rune decoding and encoding, [strings.ToLower],
    [strings.TrimSpace], [strconv.Itoa]. ASCII text is computed here; the case
    mapping and the space class of other characters are the [Unicode] class. *)
From S2P Require Import Prelude.

(** ** Byte string slices *)

Fixpoint str_drop (n : nat) (s : string) : string :=
  match n, s with
  | S n', String _ s' => str_drop n' s'
  | _, _ => s
  end.

Fixpoint str_take (n : nat) (s : string) : string :=
  match n, s with
  | S n', String c s' => String c (str_take n' s')
  | _, _ => ""
  end.

Lemma str_take_drop n s : str_take n s +:+ str_drop n s = s.
Proof.
  revert s. induction n as [|n IH]; intros [|c s]; simpl; by rewrite ?IH.
Qed.

Lemma length_str_drop n s : String.length (str_drop n s) = String.length s - n.
Proof. revert s. induction n as [|n IH]; intros [|c s]; by simpl. Qed.

(** ** Runes (unicode/utf8) *)

#[local] Open Scope Z_scope.

Definition RuneError : Z := 0xFFFD.

(** A continuation byte in [lo, hi]; its payload is its low six bits. *)
Definition cont_in (lo hi : Z) (c : ascii) : option Z :=
  if decide (lo ≤ byte_of c ≤ hi) then Some (byte_of c mod 64) else None.

(** [utf8.DecodeRuneInString]: the rune and its width; an invalid byte decodes
    as [RuneError] of width 1, the empty string as [RuneError] of width 0. *)
Definition decode_rune (s : string) : Z * nat :=
  let bad := (RuneError, 1%nat) in
  let two b c1 := match cont_in 0x80 0xBF c1 with
    | Some p1 => ((b mod 32) * 64 + p1, 2%nat) | None => bad end in
  let three b lo hi c1 c2 := match cont_in lo hi c1, cont_in 0x80 0xBF c2 with
    | Some p1, Some p2 => ((b mod 16) * 4096 + p1 * 64 + p2, 3%nat) | _, _ => bad end in
  let four b lo hi c1 c2 c3 :=
    match cont_in lo hi c1, cont_in 0x80 0xBF c2, cont_in 0x80 0xBF c3 with
    | Some p1, Some p2, Some p3 =>
        ((b mod 8) * 262144 + p1 * 4096 + p2 * 64 + p3, 4%nat)
    | _, _, _ => bad end in
  match s with
  | EmptyString => (RuneError, 0%nat)
  | String c0 s1 =>
      let b := byte_of c0 in
      if decide (b < 0x80) then (b, 1%nat)
      else if decide (0xC2 ≤ b ≤ 0xDF) then
        match s1 with String c1 _ => two b c1 | _ => bad end
      else if decide (0xE0 ≤ b ≤ 0xEF) then
        match s1 with
        | String c1 (String c2 _) =>
            three b (if decide (b = 0xE0) then 0xA0 else 0x80)
              (if decide (b = 0xED) then 0x9F else 0xBF) c1 c2
        | _ => bad
        end
      else if decide (0xF0 ≤ b ≤ 0xF4) then
        match s1 with
        | String c1 (String c2 (String c3 _)) =>
            four b (if decide (b = 0xF0) then 0x90 else 0x80)
              (if decide (b = 0xF4) then 0x8F else 0xBF) c1 c2 c3
        | _ => bad
        end
      else bad
  end.

Lemma decode_rune_width s : ((decode_rune s).2 ≤ String.length s)%nat.
Proof.
  unfold decode_rune, cont_in. destruct s as [|c0 s1]; simpl; [lia|].
  repeat case_match; simplify_eq/=; lia.
Qed.

Lemma decode_rune_width_pos c s : (1 ≤ (decode_rune (String c s)).2)%nat.
Proof. unfold decode_rune. repeat case_match; simplify_eq/=; lia. Qed.

(** [for _, r := range s]: the runes of a string, invalid bytes as [RuneError].
    The fuel is the length: every step consumes at least a byte. *)
Fixpoint runes_go (n : nat) (s : string) : list Z :=
  match n, s with
  | S n', String _ _ => let '(r, w) := decode_rune s in r :: runes_go n' (str_drop w s)
  | _, _ => []
  end.
Definition runes (s : string) : list Z := runes_go (String.length s) s.

(** [utf8.ValidString]. *)
Fixpoint valid_utf8_go (n : nat) (s : string) : bool :=
  match s with
  | EmptyString => true
  | String _ _ =>
      match n with
      | O => false
      | S n' =>
          let '(r, w) := decode_rune s in
          if decide (r = RuneError ∧ w = 1%nat) then false
          else valid_utf8_go n' (str_drop w s)
      end
  end.
Definition valid_utf8 (s : string) : bool := valid_utf8_go (String.length s) s.

(** [utf8.AppendRune] for a rune that is a Unicode scalar value. *)
Definition encode_rune (r : Z) : string :=
  if decide (r < 0x80) then String (chr r) ""
  else if decide (r < 0x800) then
    String (chr (0xC0 + r / 64)) (String (chr (0x80 + r mod 64)) "")
  else if decide (r < 0x10000) then
    String (chr (0xE0 + r / 4096))
      (String (chr (0x80 + r / 64 mod 64)) (String (chr (0x80 + r mod 64)) ""))
  else
    String (chr (0xF0 + r / 262144))
      (String (chr (0x80 + r / 4096 mod 64))
        (String (chr (0x80 + r / 64 mod 64)) (String (chr (0x80 + r mod 64)) ""))).

(** ** ASCII letter case and white space *)

Definition is_ascii_char (c : ascii) : bool := bool_decide (byte_of c < 0x80).

Fixpoint str_forall (P : ascii → bool) (s : string) : bool :=
  match s with EmptyString => true | String c s' => P c && str_forall P s' end.

Definition is_ascii (s : string) : bool := str_forall is_ascii_char s.

Definition lower_char (c : ascii) : ascii :=
  if decide (65 ≤ byte_of c ≤ 90) then chr (byte_of c + 32) else c.

Fixpoint str_map (f : ascii → ascii) (s : string) : string :=
  match s with EmptyString => "" | String c s' => String (f c) (str_map f s') end.

Definition space_char (c : ascii) : bool :=
  bool_decide (byte_of c = 32 ∨ 9 ≤ byte_of c ≤ 13).

Fixpoint drop_space (s : string) : string :=
  match s with
  | String c s' => if space_char c then drop_space s' else s
  | EmptyString => ""
  end.

(** Case mapping and space trimming of text that is not all ASCII:
    [strings.Map(unicode.ToLower, s)] and [strings.TrimFunc(s, unicode.IsSpace)]. *)
Class Unicode := {
  unicode_lower : string → string;
  unicode_trim : string → string;
}.

(** [strings.ToLower] and [strings.TrimSpace]. *)
Definition ToLower `{Unicode} (s : string) : string :=
  if is_ascii s then str_map lower_char s else unicode_lower s.
Definition TrimSpace `{Unicode} (s : string) : string :=
  if is_ascii s then str_rev (drop_space (str_rev (drop_space s))) else unicode_trim s.

(** A concrete instance that leaves non-ASCII characters alone: exact for
    scripts without letter case. *)
Definition caseless_unicode : Unicode :=
  {| unicode_lower := str_map lower_char;
     unicode_trim s := str_rev (drop_space (str_rev (drop_space s))) |}.

(** ** Lemmas *)

Lemma str_forall_app P a b : str_forall P (a +:+ b) = str_forall P a && str_forall P b.
Proof. induction a as [|c a IH]; [done|]. cbn. by rewrite IH, andb_assoc. Qed.

Lemma str_forall_impl (P Q : ascii → bool) s : (∀ c, P c = true → Q c = true) →
  str_forall P s = true → str_forall Q s = true.
Proof.
  intros HPQ. induction s as [|c s IH]; [done|]. cbn. intros [Hc Hs]%andb_prop. by rewrite HPQ, IH.
Qed.

Lemma str_forall_rev P s : str_forall P (str_rev s) = str_forall P s.
Proof.
  induction s as [|c s IH]; [done|]. rewrite str_rev_cons, str_forall_app, IH. cbn.
  rewrite andb_true_r. apply andb_comm.
Qed.

Lemma str_forall_in P c s : str_forall P s = true → str_in c s → P c = true.
Proof.
  induction s as [|d s IH]; [done|]. cbn. intros [Hd Hs]%andb_prop [->|Hc]; [done|]. by apply IH.
Qed.

Lemma byte_of_range c : 0 ≤ byte_of c < 256.
Proof. unfold byte_of. pose proof (nat_ascii_bounded c). lia. Qed.

Lemma byte_of_chr z : 0 ≤ z < 256 → byte_of (chr z) = z.
Proof. intros Hz. unfold byte_of, chr. rewrite nat_ascii_embedding by lia. lia. Qed.

Lemma chr_byte_of c : chr (byte_of c) = c.
Proof. unfold byte_of, chr. rewrite Nat2Z.id. apply ascii_nat_embedding. Qed.

Lemma byte_of_inj c d : byte_of c = byte_of d → c = d.
Proof. intros Hcd. by rewrite <-(chr_byte_of c), Hcd, chr_byte_of. Qed.

(** A Unicode scalar value: in range and not a surrogate. *)
Definition scalar (r : Z) : Prop := 0 ≤ r ≤ 0x10FFFF ∧ ¬ (0xD800 ≤ r ≤ 0xDFFF).

Lemma cont_in_chr lo hi z :
  lo ≤ 0x80 + z ≤ hi → 0 ≤ z < 64 → 0x80 ≤ lo → cont_in lo hi (chr (0x80 + z)) = Some z.
Proof.
  intros Hb Hz Hlo. unfold cont_in. rewrite byte_of_chr by lia.
  rewrite decide_True by lia. f_equal. zlia.
Qed.

(** Encoding a scalar value and decoding it are inverse. *)
Lemma decode_encode_rune r s :
  scalar r → decode_rune (encode_rune r +:+ s) = (r, String.length (encode_rune r)).
Proof.
  intros [Hr Hs]. unfold encode_rune.
  case_decide; [|case_decide; [|case_decide]]; cbn [String.append String.length];
    unfold decode_rune; rewrite !byte_of_chr by zlia;
    repeat first [rewrite decide_True by zlia | rewrite decide_False by zlia];
    repeat (rewrite cont_in_chr; [| repeat case_decide; zlia ..]); f_equal; zlia.
Qed.
