(* ===== verification/Query.v ===== *)
(** * internal/search/query.go: the query language

    The AST and its evaluation over a document's flattened fields, the lexer
    and the recursive-descent parser. Outcomes separate a query error from a Go
    panic and from an exhausted fuel, so that neither of the last two happening
    is a theorem. *)
From S2P Require Import Prelude GoText.

(** ** Outcomes *)

Inductive parseError :=
  | UnterminatedPhrase | UnterminatedRange | MalformedRange (inner : string)
  | TrailingEscape | UnexpectedChar (c : string)
  | UnexpectedToken (text : string) | MissingParen | ExpectedValue.

Inductive outcome (A : Type) :=
  | Done (a : A)
  | Fail (e : parseError)   (* the error the function returns *)
  | Panic                   (* an index or slice out of range *)
  | OutOfFuel.
Arguments Done {A} a.
Arguments Fail {A} e.
Arguments Panic {A}.
Arguments OutOfFuel {A}.

Definition obind {A B} (m : outcome A) (k : A → outcome B) : outcome B :=
  match m with
  | Done a => k a
  | Fail e => Fail e
  | Panic => Panic
  | OutOfFuel => OutOfFuel
  end.

(** A Go function that returned: with a value or an error. *)
Definition returns {A} (m : outcome A) : Prop :=
  match m with Done _ | Fail _ => True | _ => False end.

(** ** Numbers: [strconv.ParseFloat] and the order on float64 *)

Class Float64 := {
  F : Type;
  ParseFloat : string → option F;
  float_lt : F → F → bool;
  float_eq : F → F → bool;
}.

(** ** Wildcards *)

(** What [wildcardToRegexp] builds between [^] and [$]: a quoted rune, [.] or
    [.*]. As in Go's regexp, [.] does not match a newline. *)
Inductive atom := Lit (r : Z) | AnyOne | AnyMany.

Definition newline : Z := 10.
Definition dot (r : Z) : bool := bool_decide (r ≠ newline).

(** [re.MatchString] of the anchored pattern, over the runes of the value. *)
Fixpoint re_match (p : list atom) (v : list Z) : bool :=
  match p with
  | [] => bool_decide (v = [])
  | Lit r :: p' => match v with x :: v' => bool_decide (x = r) && re_match p' v' | [] => false end
  | AnyOne :: p' => match v with x :: v' => dot x && re_match p' v' | [] => false end
  | AnyMany :: p' =>
      (fix star (v : list Z) : bool :=
         re_match p' v || match v with x :: v' => dot x && star v' | [] => false end) v
  end.

Definition star_rune : Z := 42.       (* '*' *)
Definition question_rune : Z := 63.   (* '?' *)
Definition backslash_rune : Z := 92.

Fixpoint wildcard_atoms (escaped : bool) (rs : list Z) : list atom :=
  match rs with
  | [] => []
  | r :: rs' =>
      if escaped then Lit r :: wildcard_atoms false rs'
      else if decide (r = backslash_rune) then wildcard_atoms true rs'
      else if decide (r = star_rune) then AnyMany :: wildcard_atoms false rs'
      else if decide (r = question_rune) then AnyOne :: wildcard_atoms false rs'
      else Lit r :: wildcard_atoms false rs'
  end.

Definition wildcardToRegexp (pattern : string) : list atom := wildcard_atoms false (runes pattern).

(** [hasWildcard]: an unescaped star or question mark, bytewise. *)
Fixpoint hasWildcard (glob : string) : bool :=
  match glob with
  | EmptyString => false
  | String c rest =>
      if decide (c = backslash) then
        match rest with EmptyString => false | String _ rest' => hasWildcard rest' end
      else if decide (c = "*"%char ∨ c = "?"%char) then true
      else hasWildcard rest
  end.

(** ** The AST *)

(** The flattened fields of a document. *)
Abbreviation fields := (gmap string (list string)).

Inductive Query :=
  | matchAll
  | andQ (l r : Query)
  | orQ (l r : Query)
  | notQ (q : Query)
  | termQ (field value : string) (phrase : bool) (re : option (list atom))
  | existsQ (field : string)
  | rangeQ (field lo hi : string) (incLo incHi : bool).

Definition IsMatchAll (q : Query) : bool := match q with matchAll => true | _ => false end.

(** [f[field]]: nil when the field is absent. *)
Definition values_of (f : fields) (field : string) : list string := default [] (f !! field).

Definition term_matchVal (value : string) (re : option (list atom)) (v : string) : bool :=
  match re with
  | None => bool_decide (v = value)
  | Some p => re_match p (runes v)
  end.

Section Eval.
Context `{Float64}.

Definition inRange (lo hi : string) (incLo incHi : bool) (v : string) : bool :=
  let vn := ParseFloat v in
  let lon := ParseFloat lo in
  let hin := ParseFloat hi in
  let open s := bool_decide (s = "*") in
  let lexical :=
    negb (negb (open lo) && (negb (String.leb lo v) || negb incLo && bool_decide (v = lo))) &&
    negb (negb (open hi) && (negb (String.leb v hi) || negb incHi && bool_decide (v = hi))) in
  match vn with
  | None => lexical
  | Some x =>
      if (open lo || bool_decide (is_Some lon)) && (open hi || bool_decide (is_Some hin)) then
        match (if open lo then None else lon) with
        | Some l => negb (float_lt x l || negb incLo && float_eq x l)
        | None => true
        end &&
        match (if open hi then None else hin) with
        | Some h => negb (float_lt h x || negb incHi && float_eq x h)
        | None => true
        end
      else lexical
  end.

Fixpoint Matches (q : Query) (f : fields) : bool :=
  match q with
  | matchAll => true
  | andQ l r => Matches l f && Matches r f
  | orQ l r => Matches l f || Matches r f
  | notQ q => negb (Matches q f)
  | termQ field value _ re =>
      if decide (field = "") then
        existsb (λ kv, existsb (term_matchVal value re) kv.2) (map_to_list f)
      else existsb (term_matchVal value re) (values_of f field)
  | existsQ field =>
      if decide (field = "") then bool_decide (0 < size f)
      else bool_decide (0 < length (values_of f field))
  | rangeQ field lo hi incLo incHi => existsb (inRange lo hi incLo incHi) (values_of f field)
  end.

End Eval.

(** ** Terms *)

Section Parse.
Context `{Unicode}.

Definition buildTerm (field value glob : string) (phrase : bool) : Query :=
  let field := ToLower field in
  let value := ToLower value in
  let glob := ToLower glob in
  if decide (glob = "*") then
    if decide (field = "" ∨ field = "*") then matchAll else existsQ field
  else
    termQ field value phrase
      (if negb phrase && hasWildcard glob then Some (wildcardToRegexp glob) else None).

(** ** Lexer *)

Inductive tokKind :=
  | tEOF | tLParen | tRParen | tAnd | tOr | tNot | tColon | tWord | tPhrase | tRange.

#[global] Instance tokKind_eq_dec : EqDecision tokKind.
Proof. solve_decision. Defined.

Record token := mkTok {
  kind : tokKind;
  text : string;
  lo : string; hi : string;           (* for tRange *)
  incLo : bool; incHi : bool;         (* for tRange *)
  glob : string; negate : bool;       (* for tWord *)
}.

Definition tok (k : tokKind) (t : string) : token := mkTok k t "" "" false false "" false.
Definition tok_word (t g : string) (n : bool) : token := mkTok tWord t "" "" false false g n.
Definition tok_range (l h : string) (i j : bool) : token := mkTok tRange "" l h i j "" false.

Definition blank (c : ascii) : bool :=
  bool_decide (c = " "%char ∨ byte_of c = 9%Z ∨ byte_of c = 10%Z ∨ byte_of c = 13%Z).

(** The bytes that end a word. *)
Definition delimiter (c : ascii) : bool :=
  blank c || bool_decide (c ∈ ["("; ")"; "["; "]"; "{"; "}"; quote; ":"]%char).

(** The word loop: the raw word, its text with escapes resolved, its glob and
    the rest of the input. The fuel bounds the bytes consumed. *)
Fixpoint scan_word (n : nat) (s : string) : outcome (string * string * string * string) :=
  match s with
  | EmptyString => Done ("", "", "", "")
  | String c rest =>
      if delimiter c then Done ("", "", "", s)
      else match n with
      | O => OutOfFuel
      | S n' =>
          if decide (c ≠ backslash) then
            obind (scan_word n' rest) (λ '(w, t, g, r),
              Done (String c w, String c t, String c g, r))
          else
            match rest with
            | EmptyString => Fail TrailingEscape
            | String _ _ =>
                let k := (decode_rune rest).2 in
                let esc := str_take k rest in
                obind (scan_word n' (str_drop k rest)) (λ '(w, t, g, r),
                  Done (String backslash (esc +:+ w), esc +:+ t,
                        (if decide (esc = "*" ∨ esc = "?" ∨ esc = String backslash "")
                         then String backslash (esc +:+ g) else esc +:+ g), r))
            end
      end
  end.

(** The token of a scanned word. *)
Definition word_token (w t g : string) : token :=
  if decide (w = "AND") then tok tAnd w
  else if decide (w = "OR") then tok tOr w
  else if decide (w = "NOT") then tok tNot w
  else tok_word t g
         (bool_decide (1 < String.length w) && has_prefix "-" w).

Fixpoint lex_go (n : nat) (s : string) : outcome (list token) :=
  match s with
  | EmptyString => Done [tok tEOF ""]
  | String c rest =>
      match n with
      | O => OutOfFuel
      | S n' =>
          let cons t m := obind m (λ ts, Done (t :: ts)) in
          let range close inc :=
            match cut_byte close rest with
            | None => Fail UnterminatedRange
            | Some (inner, after) =>
                match cut " TO " inner with
                | None => Fail (MalformedRange inner)
                | Some (l, h) =>
                    cons (tok_range (ToLower (TrimSpace l)) (ToLower (TrimSpace h)) inc inc)
                      (lex_go n' after)
                end
            end in
          if blank c then lex_go n' rest
          else if decide (c = "("%char) then cons (tok tLParen "(") (lex_go n' rest)
          else if decide (c = ")"%char) then cons (tok tRParen ")") (lex_go n' rest)
          else if decide (c = ":"%char) then cons (tok tColon ":") (lex_go n' rest)
          else if decide (c = quote) then
            match cut_byte quote rest with
            | None => Fail UnterminatedPhrase
            | Some (inner, after) => cons (tok tPhrase inner) (lex_go n' after)
            end
          else if decide (c = "["%char) then range "]"%char true
          else if decide (c = "{"%char) then range "}"%char false
          else
            obind (scan_word n' s) (λ '(w, t, g, after),
              if decide (w = "") then Fail (UnexpectedChar (String c ""))
              else cons (word_token w t g) (lex_go n' after))
      end
  end.

(** Each step of either loop consumes a byte, so this fuel is never exhausted. *)
Definition lex (s : string) : outcome (list token) := lex_go (S (String.length s)) s.

(** ** Parser

    The parser's position is the suffix of tokens still to be read. *)

Definition peek (ts : list token) : outcome token :=
  match ts with t :: _ => Done t | [] => Panic end.

(** [next] does not move past the last token. *)
Definition next (ts : list token) : outcome (token * list token) :=
  match ts with
  | [] => Panic
  | [t] => Done (t, [t])
  | t :: ts' => Done (t, ts')
  end.

(** [s[1:]]. *)
Definition slice1 (s : string) : outcome string :=
  match s with EmptyString => Panic | String _ s' => Done s' end.

Definition parseClause (ts : list token) : outcome (Query * list token) :=
  obind (next ts) (λ '(f, ts),
  obind (if negate f then slice1 (text f) else Done (text f)) (λ field,
  obind (if negate f then slice1 (glob f) else Done (glob f)) (λ gl,
  obind (peek ts) (λ p,
  obind
    (if decide (kind p = tColon) then
       obind (next ts) (λ '(_, ts),
       obind (next ts) (λ '(v, ts),
         match kind v with
         | tWord => Done (buildTerm field (text v) (glob v) false, ts)
         | tPhrase => Done (buildTerm field (text v) (text v) true, ts)
         | tRange => Done (rangeQ (ToLower field) (lo v) (hi v) (incLo v) (incHi v), ts)
         | _ => Fail ExpectedValue
         end))
     else Done (buildTerm "" field gl false, ts)) (λ '(q, ts),
  Done (if negate f then notQ q else q, ts)))))).

Fixpoint parseOr (n : nat) (ts : list token) : outcome (Query * list token) :=
  match n with O => OutOfFuel | S n =>
    obind (parseAnd n ts) (λ '(lq, ts), orLoop n lq ts)
  end
with orLoop (n : nat) (lq : Query) (ts : list token) : outcome (Query * list token) :=
  match n with O => OutOfFuel | S n =>
    obind (peek ts) (λ t,
    if decide (kind t = tOr) then
      obind (next ts) (λ '(_, ts),
      obind (parseAnd n ts) (λ '(rq, ts), orLoop n (orQ lq rq) ts))
    else Done (lq, ts))
  end
with parseAnd (n : nat) (ts : list token) : outcome (Query * list token) :=
  match n with O => OutOfFuel | S n =>
    obind (parseUnary n ts) (λ '(lq, ts), andLoop n lq ts)
  end
with andLoop (n : nat) (lq : Query) (ts : list token) : outcome (Query * list token) :=
  match n with O => OutOfFuel | S n =>
    obind (peek ts) (λ t,
    match kind t with
    | tAnd =>
        obind (next ts) (λ '(_, ts),
        obind (parseUnary n ts) (λ '(rq, ts), andLoop n (andQ lq rq) ts))
    | tWord | tPhrase | tLParen | tNot =>   (* implicit AND *)
        obind (parseUnary n ts) (λ '(rq, ts), andLoop n (andQ lq rq) ts)
    | _ => Done (lq, ts)
    end)
  end
with parseUnary (n : nat) (ts : list token) : outcome (Query * list token) :=
  match n with O => OutOfFuel | S n =>
    obind (peek ts) (λ t,
    if decide (kind t = tNot) then
      obind (next ts) (λ '(_, ts),
      obind (parseUnary n ts) (λ '(q, ts), Done (notQ q, ts)))
    else parsePrimary n ts)
  end
with parsePrimary (n : nat) (ts : list token) : outcome (Query * list token) :=
  match n with O => OutOfFuel | S n =>
    obind (peek ts) (λ t,
    match kind t with
    | tLParen =>
        obind (next ts) (λ '(_, ts),
        obind (parseOr n ts) (λ '(q, ts),
        obind (peek ts) (λ t,
        if decide (kind t = tRParen) then obind (next ts) (λ '(_, ts), Done (q, ts))
        else Fail MissingParen)))
    | tPhrase => obind (next ts) (λ '(_, ts), Done (buildTerm "" (text t) (text t) true, ts))
    | tWord => parseClause ts
    | _ => Fail (UnexpectedToken (text t))
    end)
  end.

(** Every call descends at most four levels per token. *)
Definition parse_fuel (ts : list token) : nat := 4 * length ts + 4.

Definition Parse (s : string) : outcome Query :=
  obind (lex s) (λ toks,
  obind (parseOr (parse_fuel toks) toks) (λ '(q, ts),
  obind (peek ts) (λ t,
  if decide (kind t = tEOF) then Done q else Fail (UnexpectedToken (text t))))).

(** ** The lexer returns, and produces what the parser relies on *)

(** Strict consumption: the rest of a scanned word is no longer than the input. *)
Lemma length_str_drop_le k s : String.length (str_drop k s) ≤ String.length s - k.
Proof. rewrite length_str_drop. lia. Qed.

Definition word_ok (s : string) (r : string * string * string * string) : Prop :=
  let '(w, t, g, after) := r in
  String.length after + String.length w = String.length s ∧
  (has_prefix "-" w = true → t ≠ "" ∧ g ≠ "").

Lemma scan_word_ok n s :
  String.length s ≤ n →
  match scan_word n s with
  | Done r => word_ok s r
  | Fail _ => True
  | _ => False
  end.
Proof.
  revert s. induction n as [|n IH]; intros [|c rest] Hn; cbn [scan_word];
    [done | simpl in Hn; lia | done |].
  destruct (delimiter c); [cbn; split; [lia | done]|].
  case_decide as Hc.
  - simpl in Hn. specialize (IH rest ltac:(lia)).
    destruct (scan_word n rest) as [[[[w t] g] r]| | |]; simpl in *; try done.
    destruct IH as [IH _]. split; [lia | done].
  - destruct rest as [|d rest']; [done|]. subst c.
    pose proof (decode_rune_width (String d rest')) as Hw.
    pose proof (decode_rune_width_pos d rest') as Hp.
    revert Hn Hw Hp. generalize (String d rest') as rest. intros rest Hn Hw Hp.
    generalize dependent ((decode_rune rest).2). intros k Hw Hp.
    pose proof (f_equal String.length (str_take_drop k rest)) as Ht.
    rewrite length_app_string, length_str_drop in Ht. simpl in Hn.
    specialize (IH (str_drop k rest)). rewrite length_str_drop in IH.
    specialize (IH ltac:(lia)).
    destruct (scan_word n _) as [[[[w t] g] r]| | |]; try done.
    destruct IH as [IH _]. split; [|done].
    cbn [String.length]. rewrite length_app_string. rewrite length_str_drop in IH. lia.
Qed.

(** What the parser relies on: the last token is tEOF and a negated word has
    its dash to drop. *)
Definition token_ok (t : token) : Prop := negate t = true → text t ≠ "" ∧ glob t ≠ "".
Definition ends_eof (ts : list token) : Prop := ∃ t, last ts = Some t ∧ kind t = tEOF.
Definition tokens_ok (ts : list token) : Prop := ends_eof ts ∧ Forall token_ok ts.

Lemma tokens_ok_cons t ts : token_ok t → tokens_ok ts → tokens_ok (t :: ts).
Proof.
  intros Ht [(e & He & Hk) Hf]. split; [|by constructor].
  exists e. split; [|done]. destruct ts; [done|]. by rewrite last_cons, He.
Qed.

Lemma cut_byte_length b s x y :
  cut_byte b s = Some (x, y) → S (String.length y + String.length x) = String.length s.
Proof.
  revert x y. induction s as [|c s IH]; intros x y; simpl; [done|].
  case_decide; intros Hc; simplify_eq/=; [lia|].
  destruct (cut_byte b s) as [[x' y']|]; simplify_eq/=. specialize (IH _ _ eq_refl). lia.
Qed.

Definition lexed (m : outcome (list token)) : Prop :=
  match m with Done ts => tokens_ok ts | Fail _ => True | _ => False end.

Lemma lexed_cons t m :
  token_ok t → lexed m → lexed (obind m (λ ts, Done (t :: ts))).
Proof. destruct m; simpl; try done. apply tokens_ok_cons. Qed.

Lemma word_token_ok w t g :
  (has_prefix "-" w = true → t ≠ "" ∧ g ≠ "") → token_ok (word_token w t g).
Proof.
  intros Hw. unfold word_token. do 3 (case_decide; [done|]).
  unfold token_ok; cbn [negate tok_word text glob].
  intros [_ Hp]%andb_true_iff. by apply Hw.
Qed.

Lemma lex_go_ok n s : String.length s < n → lexed (lex_go n s).
Proof.
  revert s. induction n as [|n IH]; intros [|c rest] Hn; cbn [lex_go]; try lia.
  - split; [by exists (tok tEOF "") | by repeat constructor].
  - simpl in Hn.
    assert (Hrest : lexed (lex_go n rest)) by (apply IH; lia).
    assert (Hrange : ∀ close inc,
      lexed match cut_byte close rest with
        | None => Fail UnterminatedRange
        | Some (inner, after) =>
            match cut " TO " inner with
            | None => Fail (MalformedRange inner)
            | Some (l, h) =>
                obind (lex_go n after) (λ ts, Done
                  (tok_range (ToLower (TrimSpace l)) (ToLower (TrimSpace h)) inc inc :: ts))
            end
        end).
    { intros close inc. destruct (cut_byte close rest) as [[inner after]|] eqn:E; [|done].
      apply cut_byte_length in E.
      destruct (cut " TO " inner) as [[l h]|]; [|done].
      apply lexed_cons; [done | apply IH; lia]. }
    case_match; [done|].
    do 3 (case_decide; [by apply lexed_cons|]).
    case_decide.
    { destruct (cut_byte quote rest) as [[inner after]|] eqn:E; [|done].
      apply cut_byte_length in E. apply lexed_cons; [done | apply IH; lia]. }
    case_decide; [apply Hrange|]. case_decide; [apply Hrange|].
    pose proof (scan_word_ok n (String c rest)) as Hw.
    specialize (Hw ltac:(simpl; lia)).
    destruct (scan_word n (String c rest)) as [[[[w t] g] after]| | |]; try done.
    destruct Hw as [Hlen Hneg]. simpl. case_decide as Hne; [done|].
    apply lexed_cons; [by apply word_token_ok|]. apply IH.
    destruct w; [done|]. simpl in Hlen. lia.
Qed.

Lemma lex_ok s : lexed (lex s).
Proof. apply lex_go_ok. lia. Qed.

(** ** The parser returns *)

Definition consumed (m : nat) (r : outcome (Query * list token)) : Prop :=
  match r with
  | Done (_, ts') => tokens_ok ts' ∧ length ts' ≤ m
  | Fail _ => True
  | _ => False
  end.

Lemma consumed_weaken m m' r : m ≤ m' → consumed m r → consumed m' r.
Proof. destruct r as [[]| | |]; simpl; try done. intros ? [? ?]. split; [done|lia]. Qed.

Lemma consumed_bind m r m' k :
  consumed m r →
  (∀ q ts, tokens_ok ts → length ts ≤ m → consumed m' (k (q, ts))) →
  consumed m' (obind r k).
Proof. destruct r as [[q ts]| | |]; simpl; try done. intros [? ?] Hk. by apply Hk. Qed.

Lemma tokens_ok_head ts : tokens_ok ts → ∃ t ts', ts = t :: ts'.
Proof. intros [(e & He & _) _]. destruct ts; [done|]. by eauto. Qed.

(** A token that is not tEOF is not the last one, so [next] moves past it. *)
Lemma next_moves t ts :
  tokens_ok (t :: ts) → kind t ≠ tEOF → next (t :: ts) = Done (t, ts) ∧ tokens_ok ts.
Proof.
  intros [(e & He & Hk) Hf] Hne. destruct ts as [|t' ts].
  - simpl in He. simplify_eq.
  - split; [done|]. split; [|by inversion Hf]. exists e. by rewrite last_cons_cons in He.
Qed.

Lemma next_ok ts : tokens_ok ts → ∃ t ts', next ts = Done (t, ts') ∧ tokens_ok ts' ∧
  length ts' ≤ length ts.
Proof.
  intros Hts. destruct (tokens_ok_head ts Hts) as (t & ts' & ->).
  destruct ts' as [|t' ts']; [by exists t, [t]|].
  exists t, (t' :: ts'). split; [done|]. split; [|simpl; lia].
  destruct Hts as [(e & He & Hk) Hf]. split; [|by inversion Hf].
  exists e. by rewrite last_cons_cons in He.
Qed.

Lemma parseClause_ok t ts :
  tokens_ok (t :: ts) → kind t = tWord → consumed (length ts) (parseClause (t :: ts)).
Proof.
  intros Hok Hk. destruct (next_moves t ts) as [Hn Hts]; [done | by rewrite Hk|].
  unfold parseClause. rewrite Hn. cbn [obind].
  assert (token_ok t) as Ht by (destruct Hok as [_ Hf]; by inversion Hf).
  assert (∃ f g, (if negate t then slice1 (text t) else Done (text t)) = Done f ∧
                 (if negate t then slice1 (glob t) else Done (glob t)) = Done g)
    as (f & g & -> & ->).
  { unfold token_ok in Ht. destruct (negate t); [|by eauto].
    destruct (Ht eq_refl) as [H1 H2].
    destruct (text t), (glob t); try done; simpl; by eauto. }
  cbn [obind]. destruct (tokens_ok_head ts Hts) as (p & ts1 & ->). cbn [peek obind].
  case_decide as Hcol; [|by cbn].
  destruct (next_moves p ts1) as [-> Hts1]; [done | by rewrite Hcol|]. cbn [obind].
  destruct (next_ok ts1 Hts1) as (v & ts2 & -> & Hts2 & Hl). cbn [obind].
  destruct (kind v); cbn; try done; (split; [done | lia]).
Qed.

Lemma parser_ok n :
  (∀ ts, tokens_ok ts → 4 * length ts + 4 ≤ n → consumed (length ts - 1) (parseOr n ts)) ∧
  (∀ q ts, tokens_ok ts → 4 * length ts + 1 ≤ n → consumed (length ts) (orLoop n q ts)) ∧
  (∀ ts, tokens_ok ts → 4 * length ts + 3 ≤ n → consumed (length ts - 1) (parseAnd n ts)) ∧
  (∀ q ts, tokens_ok ts → 4 * length ts + 3 ≤ n → consumed (length ts) (andLoop n q ts)) ∧
  (∀ ts, tokens_ok ts → 4 * length ts + 2 ≤ n → consumed (length ts - 1) (parseUnary n ts)) ∧
  (∀ ts, tokens_ok ts → 4 * length ts + 1 ≤ n → consumed (length ts - 1) (parsePrimary n ts)).
Proof.
  induction n as [|n (IHor & IHorl & IHand & IHandl & IHun & IHpr)];
    [by split_and!; intros; lia|].
  split_and!.
  - intros ts Hts Hn. cbn [parseOr].
    destruct (tokens_ok_head ts Hts) as (t & ts1 & ->). simpl in Hn.
    eapply consumed_bind; [apply IHand; simpl; [done|lia]|].
    intros q ts' Hts' Hl. simpl in Hl.
    eapply consumed_weaken; [|apply IHorl; [done|lia]]. simpl. lia.
  - intros q ts Hts Hn. cbn [orLoop].
    destruct (tokens_ok_head ts Hts) as (t & ts1 & ->). cbn [peek obind]. simpl in Hn.
    case_decide as Hk; [|by cbn].
    destruct (next_moves t ts1) as [-> Hts1]; [done | by rewrite Hk|]. cbn [obind].
    eapply consumed_bind; [apply IHand; [done|lia]|].
    intros q' ts' Hts' Hl. eapply consumed_weaken; [|apply IHorl; [done|lia]]. simpl. lia.
  - intros ts Hts Hn. cbn [parseAnd].
    destruct (tokens_ok_head ts Hts) as (t & ts1 & ->). simpl in Hn.
    eapply consumed_bind; [apply IHun; simpl; [done|lia]|].
    intros q ts' Hts' Hl. simpl in Hl.
    eapply consumed_weaken; [|apply IHandl; [done|lia]]. simpl. lia.
  - intros q ts Hts Hn. cbn [andLoop].
    destruct (tokens_ok_head ts Hts) as (t & ts1 & ->). cbn [peek obind]. simpl in Hn.
    assert (consumed (length (t :: ts1)) (obind (parseUnary n (t :: ts1))
      (λ '(rq, ts), andLoop n (andQ q rq) ts))) as Himp.
    { eapply consumed_bind; [apply IHun; simpl; [done|lia]|].
      intros q' ts' Hts' Hl. simpl in Hl.
      eapply consumed_weaken; [|apply IHandl; [done|lia]]. simpl. lia. }
    destruct (kind t) eqn:Hk; try done; try (by cbn; split).
    destruct (next_moves t ts1) as [-> Hts1]; [done | by rewrite Hk|]. cbn [obind].
    eapply consumed_bind; [apply IHun; [done|lia]|].
    intros q' ts' Hts' Hl. eapply consumed_weaken; [|apply IHandl; [done|lia]]. simpl. lia.
  - intros ts Hts Hn. cbn [parseUnary].
    destruct (tokens_ok_head ts Hts) as (t & ts1 & ->). cbn [peek obind]. simpl in Hn.
    case_decide as Hk; [|apply IHpr; simpl; [done|lia]].
    destruct (next_moves t ts1) as [-> Hts1]; [done | by rewrite Hk|]. cbn [obind].
    eapply consumed_bind; [apply IHun; [done|lia]|].
    intros q' ts' Hts' Hl. cbn. split; [done|]. lia.
  - intros ts Hts Hn. cbn [parsePrimary].
    destruct (tokens_ok_head ts Hts) as (t & ts1 & ->). cbn [peek obind]. simpl in Hn.
    destruct (kind t) eqn:Hk; try done; cbn [length]; rewrite Nat.sub_1_r; cbn [Nat.pred].
    + destruct (next_moves t ts1) as [-> Hts1]; [done | by rewrite Hk|]. cbn [obind].
      eapply consumed_bind; [apply IHor; [done|lia]|].
      intros q' ts' Hts' Hl. destruct (tokens_ok_head ts' Hts') as (p & ts2 & ->).
      cbn [peek obind]. case_decide as Hp; [|done].
      destruct (next_moves p ts2) as [-> Hts2]; [done | by rewrite Hp|].
      cbn. simpl in Hl. split; [done|lia].
    + by apply parseClause_ok.
    + destruct (next_moves t ts1) as [-> Hts1]; [done | by rewrite Hk|]. by cbn.
Qed.

Lemma Parse_returns (s : string) : returns (Parse s).
Proof.
  unfold Parse. pose proof (lex_ok s) as Hl.
  destruct (lex s) as [ts| | |]; try done. cbn [obind lexed] in *.
  destruct (parser_ok (parse_fuel ts)) as (Hor & _).
  specialize (Hor ts Hl). unfold parse_fuel in *. specialize (Hor ltac:(lia)).
  destruct (parseOr _ ts) as [[q ts']| | |]; try done. cbn [obind consumed] in *.
  destruct Hor as [Hts' _]. destruct (tokens_ok_head ts' Hts') as (t & ts2 & ->).
  cbn. by case_decide.
Qed.

(** C37. Parsing is total: for every byte string, [Parse] returns a query or an
    error. It neither panics (no token or slice index is out of range) nor
    loops (the fuel that bounds the lexer and the recursive descent is never
    exhausted). *)
Theorem Parse_total (s : string) : returns (Parse s).
Proof. apply Parse_returns. Qed.

(** ** What the parser builds *)

(** A property of queries closed under everything the parser builds holds of
    every query it returns. *)
Section Built.
Variable P : Query → Prop.
Hypothesis P_and : ∀ l r, P l → P r → P (andQ l r).
Hypothesis P_or : ∀ l r, P l → P r → P (orQ l r).
Hypothesis P_not : ∀ q, P q → P (notQ q).
Hypothesis P_term : ∀ f v g ph, P (buildTerm f v g ph).
Hypothesis P_range : ∀ f l h i j, P (rangeQ f l h i j).

Definition built (r : outcome (Query * list token)) : Prop :=
  match r with Done (q, _) => P q | _ => True end.

Lemma built_bind r k : built r → (∀ q ts, P q → built (k (q, ts))) → built (obind r k).
Proof using. destruct r as [[q ts]| | |]; simpl; auto. Qed.

Lemma built_any {A} (r : outcome A) k : (∀ a, built (k a)) → built (obind r k).
Proof using. destruct r; simpl; auto. Qed.

Lemma parseClause_built ts : built (parseClause ts).
Proof using P_not P_range P_term.
  unfold parseClause. apply built_any. intros [f ts1]. do 3 (apply built_any; intros ?).
  apply built_bind; [|intros q ts2 Hq; simpl; destruct (negate f); auto].
  case_decide; [|apply P_term].
  do 2 (apply built_any; intros [? ?]). case_match; simpl; auto.
Qed.

Lemma parser_built n :
  (∀ ts, built (parseOr n ts)) ∧ (∀ q ts, P q → built (orLoop n q ts)) ∧
  (∀ ts, built (parseAnd n ts)) ∧ (∀ q ts, P q → built (andLoop n q ts)) ∧
  (∀ ts, built (parseUnary n ts)) ∧ (∀ ts, built (parsePrimary n ts)).
Proof using P_and P_not P_or P_range P_term.
  induction n as [|n (IHor & IHorl & IHand & IHandl & IHun & IHpr)]; [done|].
  split_and!.
  - intros ts. cbn [parseOr]. by apply built_bind; auto.
  - intros q ts Hq. cbn [orLoop]. apply built_any. intros t. case_decide; [|done].
    apply built_any. intros [? ts1]. apply built_bind; auto.
  - intros ts. cbn [parseAnd]. by apply built_bind; auto.
  - intros q ts Hq. cbn [andLoop]. apply built_any. intros t.
    assert (∀ ts', built (obind (parseUnary n ts') (λ '(rq, ts), andLoop n (andQ q rq) ts)))
      as Hgo by (intros ts'; apply built_bind; auto).
    case_match; try done; try apply Hgo. apply built_any. intros [? ?]. apply Hgo.
  - intros ts. cbn [parseUnary]. apply built_any. intros t. case_decide; [|auto].
    apply built_any. intros [? ts1]. apply built_bind; [auto|]. intros q' ? Hq'. by apply P_not.
  - intros ts. cbn [parsePrimary]. apply built_any. intros t.
    case_match; try done; [| apply parseClause_built | apply built_any; intros [? ?]; apply P_term].
    apply built_any. intros [? ?]. apply built_bind; [done|]. intros q ts1 Hq.
    apply built_any. intros ?. case_decide; [|done]. apply built_any. by intros [? ?].
Qed.

Lemma Parse_built s q : Parse s = Done q → P q.
Proof using P_and P_not P_or P_range P_term.
  unfold Parse. destruct (lex s) as [ts| | |]; try done. cbn [obind].
  destruct (parser_built (parse_fuel ts)) as (Hor & _). specialize (Hor ts).
  destruct (parseOr _ ts) as [[q' ts']| | |]; try done. cbn [obind built] in *.
  destruct ts'; try done. cbn. case_decide; [|done]. by intros [= ->].
Qed.
End Built.

(** The planner's existence case is only exact for a named field; the parser
    builds no other. *)
Fixpoint plannable (q : Query) : Prop :=
  match q with
  | andQ l r | orQ l r => plannable l ∧ plannable r
  | notQ q => plannable q
  | existsQ field => field ≠ ""
  | _ => True
  end.

Lemma Parse_plannable s q : Parse s = Done q → plannable q.
Proof.
  apply (Parse_built plannable); try done. intros f v g ph. unfold buildTerm.
  case_decide; [|done]. case_decide as Hf; [done|]. simpl. tauto.
Qed.

End Parse.
