(* ===== verification/Plan.v ===== *)
(** * internal/search/plan.go: planning a query against an inverted index

    [Postings] is the interface the planner asks, [PostingsSpec] what an index
    of the documents [docs] promises it. The planner is proved against the
    interface: it finds exactly the documents the query matches. *)
From S2P Require Import Prelude GoText Query.

(** ** The Postings interface *)

Abbreviation DocIDs := (gset string).

Class Postings (P : Type) := {
  Exact : P → string → string → DocIDs;
  Exists : P → string → DocIDs;
  Match : P → string → (string → bool) → DocIDs;
  MatchAny : P → (string → bool) → DocIDs;
  All : P → DocIDs;
}.

(** The documents of a collection, by id, in flattened form. *)
Abbreviation documents := (gmap string fields).

(** No field of a flattened document is empty (see [Flatten]). *)
Definition full_fields (f : fields) : Prop := ∀ k vs, f !! k = Some vs → vs ≠ [].
Definition full_docs (docs : documents) : Prop := ∀ id f, docs !! id = Some f → full_fields f.

Class PostingsSpec {P : Type} `{Postings P} (p : P) (docs : documents) : Prop := {
  Exact_spec f v id :
    id ∈ Exact p f v ↔ ∃ fs, docs !! id = Some fs ∧ v ∈ values_of fs f;
  Exists_spec f id :
    id ∈ Exists p f ↔ ∃ fs, docs !! id = Some fs ∧ is_Some (fs !! f);
  Match_spec f pred id :
    id ∈ Match p f pred ↔
    ∃ fs v, docs !! id = Some fs ∧ v ∈ values_of fs f ∧ pred v = true;
  MatchAny_spec pred id :
    id ∈ MatchAny p pred ↔
    ∃ fs f v, docs !! id = Some fs ∧ v ∈ values_of fs f ∧ pred v = true;
  All_spec : All p = dom docs;
}.

(** ** Set operations

    The three set functions of the planner, on sets of ids. *)

(** [intersect] iterates the smaller set. *)
Definition intersect (a b : DocIDs) : DocIDs :=
  let '(a, b) := if decide (size b < size a) then (b, a) else (a, b) in
  filter (λ id, id ∈ b) a.

(** [union] grows the larger set by the smaller one's ids. *)
Definition union_ (a b : DocIDs) : DocIDs :=
  let '(a, b) := if decide (size a < size b) then (b, a) else (a, b) in
  set_fold (λ id acc, {[id]} ∪ acc) a b.

(** [difference] deletes b's ids from a. *)
Definition difference_ (a b : DocIDs) : DocIDs :=
  set_fold (λ id acc, acc ∖ {[id]}) a b.

Lemma elem_of_intersect x a b : x ∈ intersect a b ↔ x ∈ a ∧ x ∈ b.
Proof. unfold intersect. destruct (decide _); rewrite elem_of_filter; tauto. Qed.

Lemma set_fold_add (a b : DocIDs) : set_fold (λ id acc, {[id]} ∪ acc) a b = b ∪ a.
Proof.
  pattern (set_fold (λ id acc, {[id]} ∪ acc) a b), b.
  apply (set_fold_ind_L (λ r X, r = X ∪ a)); [set_solver|].
  intros x X r Hx ->. set_solver.
Qed.

Lemma set_fold_remove (a b : DocIDs) : set_fold (λ id acc, acc ∖ {[id]}) a b = a ∖ b.
Proof.
  apply (set_fold_ind_L (λ r X, r = a ∖ X)); [set_solver|].
  intros x X r Hx ->. set_solver.
Qed.

Lemma elem_of_union_ x a b : x ∈ union_ a b ↔ x ∈ a ∨ x ∈ b.
Proof. unfold union_. destruct (decide _); rewrite set_fold_add; set_solver. Qed.

Lemma elem_of_difference_ x a b : x ∈ difference_ a b ↔ x ∈ a ∧ x ∉ b.
Proof. unfold difference_. rewrite set_fold_remove. set_solver. Qed.

(** ** The planner *)

Section Plan.
Context `{Float64} {P : Type} `{Postings P}.

Fixpoint Plan (q : Query) (p : P) : option DocIDs :=
  match q with
  | matchAll => Some (All p)
  | termQ field value _ re =>
      if decide (field = "") then Some (MatchAny p (term_matchVal value re))
      else match re with
           | None => Some (Exact p field value)
           | Some _ => Some (Match p field (term_matchVal value re))
           end
  | existsQ field => if decide (field = "") then Some (All p) else Some (Exists p field)
  | rangeQ field lo hi incLo incHi => Some (Match p field (inRange lo hi incLo incHi))
  | andQ l r =>
      match Plan l p with
      | None => None
      | Some a =>
          if decide (size a = 0) then Some a   (* the right side is not resolved *)
          else match Plan r p with None => None | Some b => Some (intersect a b) end
      end
  | orQ l r =>
      match Plan l p with
      | None => None
      | Some a => match Plan r p with None => None | Some b => Some (union_ a b) end
      end
  | notQ q =>
      match Plan q p with None => None | Some inner => Some (difference_ (All p) inner) end
  end.

(** The documents the scanning path keeps. *)
Definition scan (q : Query) (docs : documents) : DocIDs :=
  dom (filter (λ kv, Matches q kv.2 = true) docs).

Lemma elem_of_scan q docs id :
  id ∈ scan q docs ↔ ∃ fs, docs !! id = Some fs ∧ Matches q fs = true.
Proof.
  unfold scan. rewrite elem_of_dom. split.
  - intros [fs Hfs%map_lookup_filter_Some]. by exists fs.
  - intros (fs & ? & ?). exists fs. by apply map_lookup_filter_Some.
Qed.

Context (p : P) (docs : documents) `{!PostingsSpec p docs}.
Hypothesis Hfull : full_docs docs.

Lemma existsb_elem (pred : string → bool) (l : list string) :
  existsb pred l = true ↔ ∃ v, v ∈ l ∧ pred v = true.
Proof.
  rewrite existsb_exists. setoid_rewrite <-list_elem_of_In. done.
Qed.

Lemma existsb_fields (pred : string → bool) (fs : fields) :
  existsb (λ kv, existsb pred kv.2) (map_to_list fs) = true ↔
  ∃ f v, v ∈ values_of fs f ∧ pred v = true.
Proof.
  rewrite existsb_exists. split.
  - intros ([f vs] & Hin%list_elem_of_In%elem_of_map_to_list & (v & Hv & Hp)%existsb_elem).
    exists f, v. unfold values_of. by rewrite Hin.
  - intros (f & v & Hv & Hp). unfold values_of in Hv.
    destruct (fs !! f) as [vs|] eqn:E; [|by apply not_elem_of_nil in Hv].
    exists (f, vs). split; [by apply list_elem_of_In, elem_of_map_to_list|].
    apply existsb_elem. by exists v.
Qed.

(** Every leaf of the planner agrees with evaluating it on each document. *)
Lemma Plan_spec q :
  plannable q → ∃ ids, Plan q p = Some ids ∧ ids = scan q docs.
Proof using Hfull PostingsSpec0.
  induction q as [|l IHl r IHr|l IHl r IHr|q IH|field value ph re|field|field lo hi i j];
    cbn [Plan plannable]; intros Hq.
  - eexists. split; [done|]. rewrite All_spec. apply set_eq. intros id.
    rewrite elem_of_scan, elem_of_dom. cbn. split; [intros [fs ?] | intros (fs & ? & _)]; eauto.
  - destruct Hq as [Hl Hr]. destruct (IHl Hl) as (a & -> & ->), (IHr Hr) as (b & Hb & ->).
    case_decide as Hz.
    + eexists. split; [done|]. apply size_empty_inv, leibniz_equiv in Hz. rewrite Hz.
      apply set_eq. intros id. rewrite elem_of_scan. cbn. split; [set_solver|].
      intros (fs & Hfs & [Hm _]%andb_true_iff).
      rewrite <-Hz. apply elem_of_scan. by exists fs.
    + rewrite Hb. eexists. split; [done|]. apply set_eq. intros id.
      rewrite elem_of_intersect, !elem_of_scan. cbn. setoid_rewrite andb_true_iff.
      naive_solver.
  - destruct Hq as [Hl Hr]. destruct (IHl Hl) as (a & -> & ->), (IHr Hr) as (b & -> & ->).
    eexists. split; [done|]. apply set_eq. intros id.
    rewrite elem_of_union_, !elem_of_scan. cbn. setoid_rewrite orb_true_iff. naive_solver.
  - destruct (IH Hq) as (a & -> & ->). eexists. split; [done|]. apply set_eq. intros id.
    rewrite elem_of_difference_, All_spec, !elem_of_scan, elem_of_dom. cbn.
    setoid_rewrite negb_true_iff. split.
    + intros [[fs Hfs] Hn]. exists fs. split; [done|]. apply not_true_iff_false. naive_solver.
    + intros (fs & Hfs & Hm). split; [by eexists|]. intros (fs' & Hfs' & Hm'). congruence.
  - case_decide as Hf; [|destruct re as [re|]]; (eexists; split; [done|]); apply set_eq;
      intros id; rewrite elem_of_scan; cbn.
    + rewrite MatchAny_spec. setoid_rewrite decide_True; [|done..].
      setoid_rewrite existsb_fields. naive_solver.
    + rewrite Match_spec. setoid_rewrite decide_False; [|done..].
      setoid_rewrite existsb_elem. naive_solver.
    + rewrite Exact_spec. setoid_rewrite decide_False; [|done..].
      setoid_rewrite existsb_elem. unfold term_matchVal.
      setoid_rewrite bool_decide_eq_true. naive_solver.
  - rewrite decide_False by done. eexists. split; [done|]. apply set_eq. intros id.
    rewrite elem_of_scan, Exists_spec. cbn. setoid_rewrite decide_False; [|done..].
    setoid_rewrite bool_decide_eq_true. unfold values_of. split.
    + intros (fs & Hfs & [vs Hvs]). exists fs. split; [done|]. rewrite Hvs.
      specialize (Hfull id fs Hfs field vs Hvs). destruct vs; simpl; [done|lia].
    + intros (fs & Hfs & Hlen). exists fs. split; [done|].
      destruct (fs !! field); simpl in *; [done|lia].
  - eexists. split; [done|]. apply set_eq. intros id.
    rewrite elem_of_scan, Match_spec. cbn. setoid_rewrite existsb_elem. naive_solver.
Qed.

End Plan.

(** The planner is an optimization of the scan, never a second definition
    of the query language: against any index that keeps the [Postings] promise
    for the documents, planning a parsed query always succeeds and yields
    exactly the ids of the documents the query matches. *)
Theorem Plan_is_scan `{Unicode} `{Float64} {P : Type} `{Postings P}
  (p : P) (docs : documents) `{!PostingsSpec p docs} (s : string) (q : Query) :
  full_docs docs → Parse s = Done q → Plan q p = Some (scan q docs).
Proof.
  intros Hfull Hq. destruct (Plan_spec p docs Hfull q) as (ids & -> & ->); [|done].
  by eapply Parse_plannable.
Qed.

(** An index that answers by looking at every document: the trivial instance
    of the interface. *)
Module Naive.
Definition select (docs : documents) (P : fields → bool) : DocIDs :=
  dom (filter (λ kv, P kv.2 = true) docs).

#[global] Instance naive_postings : Postings documents := {|
  Exact docs f v := select docs (λ fs, bool_decide (v ∈ values_of fs f));
  Exists docs f := select docs (λ fs, bool_decide (is_Some (fs !! f)));
  Match docs f pred := select docs (λ fs, existsb pred (values_of fs f));
  MatchAny docs pred := select docs (λ fs, existsb (λ kv, existsb pred kv.2) (map_to_list fs));
  All docs := dom docs
|}.

Lemma elem_of_select docs P id :
  id ∈ select docs P ↔ ∃ fs, docs !! id = Some fs ∧ P fs = true.
Proof.
  unfold select. rewrite elem_of_dom. split.
  - intros [fs Hfs%map_lookup_filter_Some]. by exists fs.
  - intros (fs & ? & ?). exists fs. by apply map_lookup_filter_Some.
Qed.

#[global] Instance naive_spec (docs : documents) : PostingsSpec docs docs.
Proof.
  split; cbn; intros; rewrite ?elem_of_select; try done.
  - by setoid_rewrite bool_decide_eq_true.
  - by setoid_rewrite bool_decide_eq_true.
  - setoid_rewrite existsb_elem. naive_solver.
  - setoid_rewrite existsb_fields. naive_solver.
Qed.
End Naive.

(** A number class for examples: decimal digits only. *)
Definition digits_float : Float64 :=
  {| F := Z; ParseFloat _ := None; float_lt := Z.ltb; float_eq := Z.eqb |}.

Definition sample_docs : documents :=
  {[ "web01" := {[ "role" := ["web"; "base"]; "name" := ["web01"] ]};
     "db01" := {[ "role" := ["db"]; "name" := ["db01"] ]} ]}.

Lemma Plan_is_scan_witness :
  ∃ q, @Parse caseless_unicode "role:W* AND NOT name:db01" = Done q ∧
       @Plan digits_float documents _ q sample_docs = Some (@scan digits_float q sample_docs).
Proof.
  eexists. split; [vm_compute; reflexivity|].
  eapply (@Plan_is_scan caseless_unicode digits_float documents _ sample_docs sample_docs _
            "role:W* AND NOT name:db01"); [|vm_compute; reflexivity].
  intros id f. unfold sample_docs, full_fields.
  intros [[<- <-]|[_ [<- <-]%lookup_singleton_Some]]%lookup_insert_Some k vs;
    intros [[<- <-]|[_ [<- <-]%lookup_singleton_Some]]%lookup_insert_Some; done.
Defined.
