(* ===== verification/Json.v ===== *)
(** * JSON text

    JSON values as the server's code holds them, the decoder it reads them with
    (encoding/json/jsontext and encoding/json: one grammar, two readings of bad
    UTF-8) and the compact printer, with the round trip between the two. The
    string escaper is a parameter of the printer: chefjson's and encoding/json's
    differ. *)
From S2P Require Import Prelude GoText.

(** ** Values *)

(** A decoded value. An object keeps its members in order, repeats included; a
    number keeps its literal. *)
Inductive value :=
  | VNull
  | VBool (b : bool)
  | VNum (lit : string)
  | VStr (s : string)
  | VArr (l : list value)
  | VObj (ms : list (string * value)).

(** Induction through the nested lists. *)
Section Ind.
Variable P : value → Prop.
Hypothesis H_null : P VNull.
Hypothesis H_bool : ∀ b, P (VBool b).
Hypothesis H_num : ∀ lit, P (VNum lit).
Hypothesis H_str : ∀ s, P (VStr s).
Hypothesis H_arr : ∀ l, Forall P l → P (VArr l).
Hypothesis H_obj : ∀ ms, Forall (λ m, P m.2) ms → P (VObj ms).

Fixpoint value_ind' (v : value) : P v :=
  match v with
  | VNull => H_null
  | VBool b => H_bool b
  | VNum lit => H_num lit
  | VStr s => H_str s
  | VArr l =>
      H_arr l ((fix go (l : list value) : Forall P l :=
        match l with
        | [] => Forall_nil_2 _
        | x :: l' => Forall_cons_2 _ _ _ (value_ind' x) (go l')
        end) l)
  | VObj ms =>
      H_obj ms ((fix go (ms : list (string * value)) : Forall (λ m, P m.2) ms :=
        match ms with
        | [] => Forall_nil_2 _
        | m :: ms' => Forall_cons_2 (λ m, P m.2) m ms' (value_ind' m.2) (go ms')
        end) ms)
  end.
End Ind.

(** [obj[name]] of a decoded map, and chefjson's [Object.Get]: the first member
    with the name. *)
Fixpoint assoc (ms : list (string * value)) (name : string) : option value :=
  match ms with
  | [] => None
  | (k, v) :: ms' => if decide (k = name) then Some v else assoc ms' name
  end.

Lemma assoc_None ms k : k ∉ map fst ms → assoc ms k = None.
Proof.
  induction ms as [|[k' x] ms IH]; [done|]. simpl. intros Hk.
  rewrite decide_False by set_solver. apply IH. set_solver.
Qed.

(** ** The decoder *)

Definition json_ws (c : ascii) : bool :=
  bool_decide (c = " "%char ∨ byte_of c = 9%Z ∨ byte_of c = 10%Z ∨ byte_of c = 13%Z).

Fixpoint skip_ws (s : string) : string :=
  match s with
  | String c s' => if json_ws c then skip_ws s' else s
  | EmptyString => ""
  end.

Definition hex_val (c : ascii) : option Z :=
  let b := byte_of c in
  (if decide (48 ≤ b ≤ 57) then Some (b - 48)
   else if decide (97 ≤ b ≤ 102) then Some (b - 87)
   else if decide (65 ≤ b ≤ 70) then Some (b - 55)
   else None)%Z.

Definition hex4 (s : string) : option (Z * string) :=
  match s with
  | String a (String b (String c (String d s'))) =>
      match hex_val a, hex_val b, hex_val c, hex_val d with
      | Some x, Some y, Some z, Some w => Some ((x * 4096 + y * 256 + z * 16 + w)%Z, s')
      | _, _, _, _ => None
      end
  | _ => None
  end.

Definition replacement : string := encode_rune RuneError.

(** The rune of a [\u] escape (after the [u]) and the rest. An unpaired
    surrogate is an error for jsontext and U+FFFD for encoding/json. *)
Definition unicode_escape (strict : bool) (s : string) : option (string * string) :=
  match hex4 s with
  | None => None
  | Some (r, s1) =>
      if decide (0xD800 ≤ r ≤ 0xDFFF)%Z then
        match (match cut_prefix (String backslash "u") s1 with Some s2 => hex4 s2 | None => None end) with
        | Some (r2, s3) =>
            if decide (r ≤ 0xDBFF ∧ 0xDC00 ≤ r2 ≤ 0xDFFF)%Z then
              Some (encode_rune (0x10000 + (r - 0xD800) * 1024 + (r2 - 0xDC00))%Z, s3)
            else if strict then None else Some (replacement, s1)
        | None => if strict then None else Some (replacement, s1)
        end
      else Some (encode_rune r, s1)
  end.

(** The short escapes. *)
Definition short_escape (c : ascii) : option ascii :=
  if decide (c ∈ [quote; backslash; "/"%char]) then Some c
  else if decide (c = "b"%char) then Some (chr 8)
  else if decide (c = "f"%char) then Some (chr 12)
  else if decide (c = "n"%char) then Some (chr 10)
  else if decide (c = "r"%char) then Some (chr 13)
  else if decide (c = "t"%char) then Some (chr 9)
  else None.

(** A string after its opening quote: its decoded bytes and the rest. *)
Fixpoint scan_string (strict : bool) (n : nat) (s : string) : option (string * string) :=
  match n with
  | O => None
  | S n' =>
      let more t r := match scan_string strict n' r with
        | Some (u, r') => Some (t +:+ u, r') | None => None end in
      match s with
      | EmptyString => None
      | String c rest =>
          if decide (c = quote) then Some ("", rest)
          else if decide (c = backslash) then
            match rest with
            | EmptyString => None
            | String e rest' =>
                if decide (e = "u"%char) then
                  match unicode_escape strict rest' with
                  | Some (t, r) => more t r
                  | None => None
                  end
                else match short_escape e with
                     | Some x => more (String x "") rest'
                     | None => None
                     end
            end
          else if decide (byte_of c < 0x20)%Z then None
          else
            let '(r, w) := decode_rune s in
            if decide (r = RuneError ∧ w = 1) then
              if strict then None else more replacement rest
            else more (str_take w s) (str_drop w s)
      end
  end.

Definition digit (c : ascii) : bool := bool_decide (48 ≤ byte_of c ≤ 57)%Z.

Fixpoint span_digits (s : string) : string * string :=
  match s with
  | String c s' => if digit c then let '(d, r) := span_digits s' in (String c d, r) else ("", s)
  | EmptyString => ("", "")
  end.

(** One or more digits. *)
Definition digits1 (s : string) : option (string * string) :=
  match span_digits s with ("", _) => None | p => Some p end.

(** An optional part of a number: absent, malformed or present. *)
Definition scan_frac (s : string) : option (string * string) :=
  match s with
  | String c s' =>
      if decide (c = "."%char) then
        match digits1 s' with Some (d, r) => Some (String c d, r) | None => None end
      else Some ("", s)
  | EmptyString => Some ("", "")
  end.

Definition scan_exp (s : string) : option (string * string) :=
  match s with
  | String c s' =>
      if decide (c = "e"%char ∨ c = "E"%char) then
        let '(sg, s2) := match s' with
          | String g s2 => if decide (g = "+"%char ∨ g = "-"%char) then (String g "", s2) else ("", s')
          | EmptyString => ("", s')
          end in
        match digits1 s2 with Some (d, r) => Some (String c (sg +:+ d), r) | None => None end
      else Some ("", s)
  | EmptyString => Some ("", "")
  end.

(** A number literal: no leading zeros. *)
Definition scan_number (s : string) : option (string * string) :=
  let '(sg, s1) := match s with
    | String c s' => if decide (c = "-"%char) then ("-", s') else ("", s)
    | EmptyString => ("", s)
    end in
  let int := match s1 with
    | String c s2 =>
        if decide (c = "0"%char) then Some ("0", s2) else digits1 s1
    | EmptyString => None
    end in
  match int with
  | None => None
  | Some (i, s3) =>
      match scan_frac s3 with
      | None => None
      | Some (f, s4) =>
          match scan_exp s4 with
          | None => None
          | Some (e, s5) => Some (sg +:+ i +:+ f +:+ e, s5)
          end
      end
  end.

(** Containers nest at most this deep in both decoders. *)
Definition max_depth : nat := 100 * 100.

(** The byte [c] after white space. *)
Definition expect (c : ascii) (s : string) : option string :=
  match skip_ws s with
  | String x r => if decide (x = c) then Some r else None
  | EmptyString => None
  end.

Definition omap2 {A B R} (f : A → B) (o : option (A * R)) : option (B * R) :=
  match o with Some (a, r) => Some (f a, r) | None => None end.

(** The literals. *)
Definition scan_word_literal (s : string) : option (value * string) :=
  match cut_prefix "true" s with
  | Some r => Some (VBool true, r)
  | None =>
      match cut_prefix "false" s with
      | Some r => Some (VBool false, r)
      | None => match cut_prefix "null" s with Some r => Some (VNull, r) | None => None end
      end
  end.

(** One value after white space; [d] is how many more containers may open. *)
Fixpoint parse_value (strict : bool) (n d : nat) (s : string) : option (value * string) :=
  match n with
  | O => None
  | S n =>
      match skip_ws s with
      | EmptyString => None
      | String c rest =>
          if decide (c = "{"%char) then
            match d with
            | O => None
            | S d =>
                match expect "}" rest with
                | Some r => Some (VObj [], r)
                | None => omap2 VObj (parse_members strict n d rest)
                end
            end
          else if decide (c = "["%char) then
            match d with
            | O => None
            | S d =>
                match expect "]" rest with
                | Some r => Some (VArr [], r)
                | None => omap2 VArr (parse_elems strict n d rest)
                end
            end
          else if decide (c = quote) then
            omap2 VStr (scan_string strict (S (String.length rest)) rest)
          else if decide (c = "-"%char ∨ digit c = true) then
            omap2 VNum (scan_number (String c rest))
          else scan_word_literal (String c rest)
      end
  end
with parse_members (strict : bool) (n d : nat) (s : string)
  : option (list (string * value) * string) :=
  match n with
  | O => None
  | S n =>
      match expect quote s with
      | None => None
      | Some rest =>
          match scan_string strict (S (String.length rest)) rest with
          | None => None
          | Some (k, r1) =>
              match expect ":" r1 with
              | None => None
              | Some r2 =>
                  match parse_value strict n d r2 with
                  | None => None
                  | Some (v, r3) =>
                      match expect "," r3 with
                      | Some r4 => omap2 (cons (k, v)) (parse_members strict n d r4)
                      | None =>
                          match expect "}" r3 with
                          | Some r4 => Some ([(k, v)], r4)
                          | None => None
                          end
                      end
                  end
              end
          end
      end
  end
with parse_elems (strict : bool) (n d : nat) (s : string) : option (list value * string) :=
  match n with
  | O => None
  | S n =>
      match parse_value strict n d s with
      | None => None
      | Some (v, r1) =>
          match expect "," r1 with
          | Some r2 => omap2 (cons v) (parse_elems strict n d r2)
          | None =>
              match expect "]" r1 with
              | Some r2 => Some ([v], r2)
              | None => None
              end
          end
      end
  end.

(** Exactly one value: only white space may follow it. Two calls are made per
    byte consumed at most, so the fuel is never what stops the decoder. *)
Definition decode (strict : bool) (s : string) : option value :=
  match parse_value strict (2 * String.length s + 2) max_depth s with
  | Some (v, r) => if decide (skip_ws r = "") then Some v else None
  | None => None
  end.

(** ** The compact printer *)

Section Print.
Variable esc : string → string.    (* the escaped contents of a string *)

Definition print_string (s : string) : string :=
  String quote (esc s +:+ String quote "").

Fixpoint print (v : value) : string :=
  match v with
  | VNull => "null"
  | VBool true => "true"
  | VBool false => "false"
  | VNum lit => lit
  | VStr s => print_string s
  | VArr l => "[" +:+ join "," (map print l) +:+ "]"
  | VObj ms => "{" +:+ join "," (map (λ m, print_string m.1 +:+ ":" +:+ print m.2) ms) +:+ "}"
  end.
End Print.

(** ** The round trip *)

(** What follows a value in a document. *)
Definition delim (rest : string) : Prop :=
  match rest with EmptyString => True | String c _ => c ∈ [","; "]"; "}"]%char end.

Lemma delim_not_digit c rest : delim (String c rest) → digit c = false ∧
  c ≠ "."%char ∧ c ≠ "e"%char ∧ c ≠ "E"%char.
Proof. simpl. rewrite !elem_of_cons, elem_of_nil. intros [->|[->|[->|[]]]]; done. Qed.

Lemma span_digits_app s rest : delim rest →
  span_digits (s +:+ rest) = ((span_digits s).1, (span_digits s).2 +:+ rest).
Proof.
  intros Hd. induction s as [|c s IH]; simpl.
  - destruct rest as [|c rest]; [done|]. apply delim_not_digit in Hd as [Hd _].
    simpl. by rewrite Hd.
  - destruct (digit c); [|done]. rewrite IH. by destruct (span_digits s).
Qed.

Lemma digits1_app s rest d r : delim rest → digits1 s = Some (d, r) →
  digits1 (s +:+ rest) = Some (d, r +:+ rest).
Proof.
  intros Hd. unfold digits1. rewrite span_digits_app by done.
  destruct (span_digits s) as [[|c d'] r']; intros [= <- <-]; done.
Qed.

Lemma scan_frac_app s rest f r : delim rest → scan_frac s = Some (f, r) →
  scan_frac (s +:+ rest) = Some (f, r +:+ rest).
Proof.
  intros Hd. destruct s as [|c s]; simpl.
  - intros [= <- <-]. destruct rest as [|c rest]; [done|].
    apply delim_not_digit in Hd as (_ & Hd & _). simpl. by rewrite decide_False.
  - case_decide; [|by intros [= <- <-]].
    destruct (digits1 s) as [[d r']|] eqn:E; [|done]. intros [= <- <-].
    by rewrite (digits1_app _ _ _ _ Hd E).
Qed.

Lemma scan_exp_app s rest e r : delim rest → scan_exp s = Some (e, r) →
  scan_exp (s +:+ rest) = Some (e, r +:+ rest).
Proof.
  intros Hd. destruct s as [|c s]; simpl.
  - intros [= <- <-]. destruct rest as [|c rest]; [done|].
    apply delim_not_digit in Hd as (_ & _ & Hd1 & Hd2). simpl.
    rewrite decide_False by tauto. done.
  - case_decide; [|by intros [= <- <-]].
    destruct s as [|g s]; simpl; [done|]. case_decide.
    + destruct (digits1 s) as [[d r']|] eqn:E; [|done]. intros [= <- <-].
      by rewrite (digits1_app _ _ _ _ Hd E).
    + destruct (digits1 (String g s)) as [[d r']|] eqn:E; [|done]. intros [= <- <-].
      pose proof (digits1_app (String g s) _ _ _ Hd E) as Hx.
      cbn [String.append] in Hx. by rewrite Hx.
Qed.

(** A literal the decoder reads whole. *)
Definition number (lit : string) : Prop := scan_number lit = Some (lit, "").

#[global] Instance number_dec lit : Decision (number lit).
Proof. unfold number. solve_decision. Defined.

Lemma scan_number_app lit rest : delim rest → number lit →
  scan_number (lit +:+ rest) = Some (lit, rest).
Proof.
  intros Hd. unfold number, scan_number.
  destruct lit as [|c lit]; [done|]. cbn [String.append].
  assert (∀ sg s1,
    match match s1 with String c s2 => if decide (c = "0"%char) then Some ("0", s2) else digits1 s1
          | EmptyString => None end with
    | None => None
    | Some (i, s3) => match scan_frac s3 with None => None | Some (f, s4) =>
        match scan_exp s4 with None => None | Some (e, s5) => Some (sg +:+ i +:+ f +:+ e, s5) end end
    end = Some (String c lit, "") →
    match match s1 +:+ rest with String c s2 => if decide (c = "0"%char) then Some ("0", s2)
            else digits1 (s1 +:+ rest) | EmptyString => None end with
    | None => None
    | Some (i, s3) => match scan_frac s3 with None => None | Some (f, s4) =>
        match scan_exp s4 with None => None | Some (e, s5) => Some (sg +:+ i +:+ f +:+ e, s5) end end
    end = Some (String c lit, rest)) as Hgo.
  { intros sg s1. destruct s1 as [|x s1]; [done|]. cbn [String.append].
    destruct (if decide (x = "0"%char) then Some ("0", s1) else digits1 (String x s1))
      as [[i s3]|] eqn:Ei; [|done].
    destruct (scan_frac s3) as [[f s4]|] eqn:Ef; [|done].
    destruct (scan_exp s4) as [[e s5]|] eqn:Ee; [|done]. intros [= Heq ->].
    assert ((if decide (x = "0"%char) then Some ("0", s1 +:+ rest)
             else digits1 (String x (s1 +:+ rest))) = Some (i, s3 +:+ rest)) as ->.
    { case_decide; [by simplify_eq|]. by apply (digits1_app (String x s1)). }
    rewrite (scan_frac_app _ _ _ _ Hd Ef), (scan_exp_app _ _ _ _ Hd Ee).
    by rewrite <-Heq. }
  case_decide; [apply (Hgo "-" lit) | apply (Hgo "" (String c lit))].
Qed.

(** How deep the containers of a value nest. *)
Fixpoint depth (v : value) : nat :=
  match v with
  | VArr l => S (max_list (map depth l))
  | VObj ms => S (max_list (map (λ m, depth m.2) ms))
  | _ => 0
  end.

Lemma skip_ws_nonspace c s : json_ws c = false → skip_ws (String c s) = String c s.
Proof. simpl. by intros ->. Qed.

Lemma expect_hit c s : json_ws c = false → expect c (String c s) = Some s.
Proof. intros H. unfold expect. rewrite skip_ws_nonspace by done. by rewrite decide_True. Qed.

Lemma expect_miss c x s : json_ws x = false → x ≠ c → expect c (String x s) = None.
Proof. intros H Hx. unfold expect. rewrite skip_ws_nonspace by done. by rewrite decide_False. Qed.

Lemma join_cons (sep w : string) (ws : list string) :
  join sep (w :: ws) = w +:+ match ws with [] => "" | _ => sep +:+ join sep ws end.
Proof. destruct ws; [by rewrite app_string_nil_r|done]. Qed.

Section RoundTrip.
Context (strict : bool) (esc : string → string) (ok : string → Prop).

(** What the escaper promises: the decoder reads its output back. *)
Hypothesis esc_scan : ∀ s rest n, ok s → String.length (esc s) < n →
  scan_string strict n (esc s +:+ String quote rest) = Some (s, rest).

(** Values the printer writes faithfully. *)
Fixpoint printable (v : value) : Prop :=
  match v with
  | VNum lit => number lit
  | VStr s => ok s
  | VArr l => foldr (λ x P, printable x ∧ P) True l
  | VObj ms => foldr (λ m P, ok m.1 ∧ printable m.2 ∧ P) True ms
  | _ => True
  end.

Local Abbreviation pr := (print esc).

(** The first byte of a printed value. *)
Definition opens (s : string) : Prop :=
  match s with
  | EmptyString => False
  | String c _ => json_ws c = false ∧ c ≠ "]"%char ∧ c ≠ "}"%char ∧ c ≠ ","%char
  end.

Lemma digits1_first c s d r : digits1 (String c s) = Some (d, r) → digit c = true.
Proof. unfold digits1. simpl. destruct (digit c); [done|]. by destruct s. Qed.

Lemma digit_opens c s : digit c = true → opens (String c s).
Proof.
  unfold digit, opens, json_ws. rewrite bool_decide_eq_true. intros H.
  repeat split; try (intros ->; vm_compute in H; destruct H; done).
  apply bool_decide_eq_false. intros [->|[?|[?|?]]]; try lia. vm_compute in H. by destruct H.
Qed.

Lemma number_first lit : number lit → ∃ c s, lit = String c s ∧ (c = "-"%char ∨ digit c = true).
Proof.
  unfold number, scan_number. destruct lit as [|c s]; [done|]. intros H.
  exists c, s. split; [done|]. case_decide as Hm; [by left|]. right.
  case_decide as Hz; [by subst|].
  destruct (digits1 (String c s)) as [[]|] eqn:E; [|done]. by eapply digits1_first.
Qed.

Lemma number_opens lit : number lit → opens lit.
Proof.
  intros (c & s & -> & [-> | Hc])%number_first; [done|by apply digit_opens].
Qed.

Lemma print_opens v : printable v → opens (pr v).
Proof. destruct v as [|[]|lit|s|l|ms]; simpl; try done. apply number_opens. Qed.

Lemma opens_app s t : opens s → opens (s +:+ t).
Proof. by destruct s. Qed.

Lemma opens_expect s c : opens s → c ∈ ["]"; "}"; ","]%char → expect c s = None.
Proof.
  destruct s as [|x s]; [done|]. simpl. intros (? & ? & ? & ?) Hc.
  apply expect_miss; [done|]. intros ->. set_solver.
Qed.

(** What the induction carries for one value. *)
Definition reads (v : value) : Prop := ∀ n d rest,
  2 * String.length (pr v) < n → depth v ≤ d → delim rest →
  parse_value strict n d (pr v +:+ rest) = Some (v, rest).

Lemma reads_elems x l : Forall reads (x :: l) →
  ∀ n d rest, 2 * String.length (join "," (map pr (x :: l))) + 1 < n →
  max_list (map depth (x :: l)) ≤ d →
  parse_elems strict n d (join "," (map pr (x :: l)) +:+ String "]" rest) = Some (x :: l, rest).
Proof.
  revert x. induction l as [|y l IH]; intros x [Hx Hl]%Forall_cons n d rest Hn Hd.
  - destruct n as [|n]; [lia|]. simpl in Hn, Hd |- *.
    rewrite Hx; [|lia|lia|set_solver]. rewrite expect_miss, expect_hit by done. done.
  - destruct n as [|n]; [lia|]. rewrite map_cons, join_cons in Hn |- *.
    cbn [map] in Hn |- *.
    rewrite !length_app_string in Hn. rewrite !app_string_assoc.
    cbn [parse_elems]. change (max_list (map depth (x :: y :: l)))
      with (depth x `max` max_list (map depth (y :: l))) in Hd.
    change (String.length ",") with 1 in Hn.
    rewrite Hx; [|lia|lia|simpl; set_solver]. cbn [String.append].
    rewrite expect_hit by done.
    change (pr y :: map pr l) with (map pr (y :: l)) in Hn |- *.
    pose proof (IH y Hl n d rest ltac:(lia) ltac:(lia)) as ->. done.
Qed.

Definition member_text (m : string * value) : string :=
  print_string esc m.1 +:+ ":" +:+ pr m.2.

Lemma length_member_text m :
  String.length (member_text m) = String.length (esc m.1) + String.length (pr m.2) + 3.
Proof.
  unfold member_text, print_string. cbn [String.append String.length].
  rewrite !length_app_string. cbn [String.append String.length]. lia.
Qed.

Lemma reads_member k v n d rest : ok k → reads v →
  2 * String.length (member_text (k, v)) < n → depth v ≤ d → delim rest →
  parse_members strict (S n) d (member_text (k, v) +:+ rest) =
    match expect "," rest with
    | Some r => omap2 (cons (k, v)) (parse_members strict n d r)
    | None => match expect "}" rest with Some r => Some ([(k, v)], r) | None => None end
    end.
Proof.
  intros Hk Hv Hn Hd Hr. rewrite length_member_text in Hn. cbn [fst snd] in Hn.
  unfold member_text, print_string. cbn [fst snd parse_members String.append].
  rewrite !app_string_assoc. cbn [String.append].
  rewrite expect_hit by done.
  rewrite esc_scan by (try done; rewrite length_app_string; lia).
  rewrite expect_hit by done. rewrite Hv by (done || lia). done.
Qed.

Lemma reads_members x l : Forall (λ m, ok m.1 ∧ reads m.2) (x :: l) →
  ∀ n d rest, 2 * String.length (join "," (map member_text (x :: l))) + 1 < n →
  max_list (map (λ m, depth m.2) (x :: l)) ≤ d →
  parse_members strict n d (join "," (map member_text (x :: l)) +:+ String "}" rest) = Some (x :: l, rest).
Proof.
  revert x. induction l as [|y l IH]; intros x [[Hk Hx] Hl]%Forall_cons n d rest Hn Hd;
    (destruct n as [|n]; [lia|]); destruct x as [k v]; rewrite map_cons, join_cons in Hn |- *.
  - rewrite length_app_string in Hn. rewrite app_string_assoc.
    simpl in Hk, Hx, Hd. rewrite reads_member by (done || lia || (simpl; set_solver)). done.
  - cbn [map] in Hn |- *.
    change (member_text y :: map member_text l) with (map member_text (y :: l)) in *.
    change (max_list (map (λ m : string * value, depth m.2) ((k, v) :: y :: l)))
      with (depth v `max` max_list (map (λ m : string * value, depth m.2) (y :: l))) in Hd.
    rewrite !length_app_string in Hn. change (String.length ",") with 1 in Hn.
    rewrite !app_string_assoc. simpl in Hk, Hx.
    rewrite reads_member by (done || lia || (simpl; set_solver)).
    cbn [String.append]. rewrite expect_hit by done.
    pose proof (IH y Hl n d rest ltac:(lia) ltac:(lia)) as ->. done.
Qed.

Lemma printable_arr l : printable (VArr l) ↔ Forall printable l.
Proof. simpl. induction l as [|x l IH]; simpl; [by rewrite Forall_nil|by rewrite Forall_cons, IH]. Qed.

Lemma printable_obj ms : printable (VObj ms) ↔ Forall (λ m, ok m.1 ∧ printable m.2) ms.
Proof.
  simpl. induction ms as [|x l IH]; simpl; [by rewrite Forall_nil|].
  rewrite Forall_cons, IH. tauto.
Qed.

Lemma print_reads v : printable v → reads v.
Proof.
  induction v as [|b|lit|s|l IH|ms IH] using value_ind'; intros Hv n d rest Hn Hd Hr;
    (destruct n as [|n]; [simpl in Hn; lia|]).
  - done.
  - by destruct b.
  - simpl in Hv. destruct (number_first _ Hv) as (c & s & -> & Hc).
    pose proof (number_opens _ Hv) as (Hws & _).
    pose proof (scan_number_app _ _ Hr Hv) as Hs.
    cbn [print parse_value]. cbn [String.append] in Hs |- *. rewrite skip_ws_nonspace by done.
    rewrite (decide_False (P := c = "{"%char)) by (intros ->; destruct Hc; done).
    rewrite (decide_False (P := c = "["%char)) by (intros ->; destruct Hc; done).
    rewrite (decide_False (P := c = quote)) by (intros ->; destruct Hc; done).
    rewrite decide_True by done. by rewrite Hs.
  - simpl in Hv. cbn [print]. unfold print_string. cbn [String.append parse_value].
    rewrite skip_ws_nonspace by done. simpl decide. cbn iota. rewrite app_string_assoc. cbn [String.append].
    rewrite esc_scan; [done..|rewrite length_app_string; simpl; lia].
  - apply printable_arr in Hv. destruct d as [|d]; [simpl in Hd; lia|].
    destruct l as [|x l]; [done|]. pose proof Hv as [Hx _]%Forall_cons.
    change (pr (VArr (x :: l))) with ("[" +:+ join "," (map pr (x :: l)) +:+ "]") in *.
    rewrite !length_app_string in Hn. cbn [String.length] in Hn.
    rewrite !app_string_assoc. cbn [String.append parse_value].
    rewrite skip_ws_nonspace by done. simpl decide. cbn iota.
    rewrite (opens_expect _ "]"); [|rewrite map_cons, join_cons, app_string_assoc;
      by apply opens_app, print_opens|set_solver].
    pose proof (reads_elems x l) as ->; [done| |lia|simpl in Hd |- *; lia].
    rewrite Forall_forall in IH, Hv |- *. auto.
  - apply printable_obj in Hv. destruct d as [|d]; [simpl in Hd; lia|].
    destruct ms as [|x l]; [done|].
    change (pr (VObj (x :: l))) with ("{" +:+ join "," (map member_text (x :: l)) +:+ "}") in *.
    rewrite !length_app_string in Hn. cbn [String.length] in Hn.
    rewrite !app_string_assoc. cbn [String.append parse_value].
    rewrite skip_ws_nonspace by done. simpl decide. cbn iota.
    rewrite (opens_expect _ "}"); [|by rewrite map_cons, join_cons|set_solver].
    pose proof (reads_members x l) as ->; [done| |lia|simpl in Hd |- *; lia];
      rewrite Forall_forall in IH, Hv |- *; intros m Hm; destruct (Hv m Hm); auto.
Qed.

(** A printed value decodes to itself. *)
Lemma decode_print v : printable v → depth v ≤ max_depth → decode strict (pr v) = Some v.
Proof.
  intros Hv Hd. unfold decode.
  pose proof (print_reads v Hv (2 * String.length (pr v) + 2) max_depth ""
    ltac:(lia) Hd I) as H. rewrite app_string_nil_r in H. by rewrite H.
Qed.
End RoundTrip.

(** ** Fuel

    A result does not depend on the fuel, and twice the bytes consumed are
    enough for it. *)

Local Abbreviation len := String.length.

Lemma skip_ws_len s : len (skip_ws s) ≤ len s.
Proof. induction s as [|c s IH]; simpl; [done|]. destruct (json_ws c); simpl; lia. Qed.

Lemma expect_len c s r : expect c s = Some r → len r < len s.
Proof.
  unfold expect. pose proof (skip_ws_len s). destruct (skip_ws s) as [|x t]; [done|].
  case_decide; [|done]. intros [= ->]. simpl in *. lia.
Qed.

Lemma cut_prefix_len p s r : cut_prefix p s = Some r → len s = len p + len r.
Proof. intros ->%cut_prefix_Some. apply length_app_string. Qed.

Lemma hex4_len s z r : hex4 s = Some (z, r) → len s = 4 + len r.
Proof.
  destruct s as [|a [|b [|c [|d s]]]]; cbn [hex4]; try done.
  destruct (hex_val a), (hex_val b), (hex_val c), (hex_val d); try done. by intros [= <- <-].
Qed.

Lemma unicode_escape_len strict s t r : unicode_escape strict s = Some (t, r) → len r < len s.
Proof.
  unfold unicode_escape. destruct (hex4 s) as [[z s1]|] eqn:E; [|done].
  apply hex4_len in E. case_decide; [|intros [= <- <-]; lia].
  destruct (cut_prefix _ s1) as [s2|] eqn:E2; [|destruct strict; [done|intros [= <- <-]; lia]].
  apply cut_prefix_len in E2.
  destruct (hex4 s2) as [[r2 s3]|] eqn:E3; [|destruct strict; [done|intros [= <- <-]; lia]].
  apply hex4_len in E3. case_decide; [intros [= <- <-]; lia|].
  destruct strict; [done|intros [= <- <-]; lia].
Qed.

Lemma scan_string_len strict n s u r : scan_string strict n s = Some (u, r) → len r < len s.
Proof.
  revert s u r. induction n as [|n IH]; intros s u r; [done|]. cbn [scan_string].
  assert (∀ t s', len s' < len s → match scan_string strict n s' with
    | Some (u, r') => Some (t +:+ u, r') | None => None end = Some (u, r) → len r < len s) as Hmore.
  { intros t s' Hlt. destruct (scan_string strict n s') as [[u' r']|] eqn:E; [|done].
    intros [= <- <-]. apply IH in E. lia. }
  destruct s as [|c s]; [done|]. case_decide; [intros [= <- <-]; simpl; lia|].
  case_decide.
  { destruct s as [|e s]; [done|]. case_decide.
    - destruct (unicode_escape strict s) as [[t r']|] eqn:E; [|done].
      apply unicode_escape_len in E. apply Hmore. simpl. lia.
    - destruct (short_escape e); [|done]. apply Hmore. simpl. lia. }
  case_decide; [done|]. destruct (decode_rune (String c s)) as [z w] eqn:E.
  case_decide.
  - destruct strict; [done|]. apply Hmore. simpl. lia.
  - apply Hmore. rewrite length_str_drop.
    pose proof (decode_rune_width_pos c s) as Hw. rewrite E in Hw. simpl in Hw |- *. lia.
Qed.

Lemma span_digits_len s : len (span_digits s).1 + len (span_digits s).2 = len s.
Proof.
  induction s as [|c s IH]; simpl; [done|]. destruct (digit c); [|done].
  destruct (span_digits s); simpl in *. lia.
Qed.

Lemma digits1_len s d r : digits1 s = Some (d, r) → len r < len s.
Proof.
  unfold digits1. pose proof (span_digits_len s). destruct (span_digits s) as [[|] ?]; [done|].
  intros [= <- <-]. simpl in *. lia.
Qed.

Lemma scan_number_len s lit r : scan_number s = Some (lit, r) → len r < len s.
Proof.
  assert (∀ s f r, scan_frac s = Some (f, r) → len r ≤ len s) as Hf.
  { intros [|c t] f r'; simpl; [by intros [= <- <-]|]. case_decide; [|by intros [= <- <-]].
    destruct (digits1 t) as [[]|] eqn:E; [|done]. apply digits1_len in E. intros [= <- <-]. lia. }
  assert (∀ s e r, scan_exp s = Some (e, r) → len r ≤ len s) as He.
  { intros [|c t] f r'; simpl; [by intros [= <- <-]|]. case_decide; [|by intros [= <- <-]].
    destruct t as [|g t]; [done|]. case_decide.
    - destruct (digits1 t) as [[]|] eqn:E; [|done]. apply digits1_len in E.
      intros [= <- <-]. simpl. lia.
    - destruct (digits1 (String g t)) as [[]|] eqn:E; [|done]. apply digits1_len in E.
      intros [= <- <-]. lia. }
  assert (∀ s i r, match s with String c s2 => if decide (c = "0"%char) then Some ("0", s2)
      else digits1 s | EmptyString => None end = Some (i, r) → len r < len s) as Hi.
  { intros [|c t] i r'; [done|]. case_decide; [intros [= <- <-]; simpl; lia|apply digits1_len]. }
  unfold scan_number. destruct s as [|c s]; [done|].
  destruct (if decide (c = "-"%char) then ("-", s) else ("", String c s)) as [sg s1] eqn:E1.
  assert (len s1 ≤ len (String c s)) by (case_decide; simplify_eq/=; lia).
  destruct (match s1 with EmptyString => None | String _ _ => _ end) as [[i s3]|] eqn:E2; [|done].
  destruct (scan_frac s3) as [[f s4]|] eqn:E3; [|done].
  destruct (scan_exp s4) as [[e s5]|] eqn:E4; [|done]. intros [= <- <-].
  apply Hi in E2. apply Hf in E3. apply He in E4. lia.
Qed.

Lemma scan_word_literal_len s v r : scan_word_literal s = Some (v, r) → len r < len s.
Proof.
  unfold scan_word_literal.
  destruct (cut_prefix "true" s) as [x|] eqn:E1; [|destruct (cut_prefix "false" s) as [x|] eqn:E2;
    [|destruct (cut_prefix "null" s) as [x|] eqn:E3; [|done]]]; intros [= <- <-];
    match goal with H : cut_prefix _ _ = Some _ |- _ => apply cut_prefix_len in H; simpl in H; lia end.
Qed.

(** The promise of each of the three readers, at fuel [n]. *)
Definition fuel_free {A} (f : nat → nat → string → option (A * string)) (n : nat) : Prop :=
  ∀ d s v r, f n d s = Some (v, r) →
    len r < len s ∧ ∀ m, 2 * (len s - len r) ≤ m → f m d s = Some (v, r).

Lemma omap2_Some {A B R} (f : A → B) (o : option (A * R)) b r :
  omap2 f o = Some (b, r) ↔ ∃ a, o = Some (a, r) ∧ f a = b.
Proof. destruct o as [[a r']|]; simpl; naive_solver. Qed.

Lemma parse_fuel_free strict n :
  fuel_free (parse_value strict) n ∧ fuel_free (parse_members strict) n ∧
  fuel_free (parse_elems strict) n.
Proof.
  induction n as [|n (IHv & IHm & IHe)]; [by split_and!; intros ????|].
  split_and!.
  - intros d s v r. cbn [parse_value]. pose proof (skip_ws_len s) as Hs.
    destruct (skip_ws s) as [|c t] eqn:Es; [done|]. simpl in Hs.
    repeat case_decide; subst.
    + destruct d as [|d]; [done|]. destruct (expect "}" t) as [r'|] eqn:Ex.
      * intros [= <- <-]. apply expect_len in Ex as Hx. split; [lia|].
        intros [|m] Hm; [lia|]. cbn [parse_value]. by rewrite Es, decide_True, Ex.
      * intros (ms & (Hlt & Hm) %IHm & <-)%omap2_Some. split; [lia|].
        intros [|m] Hle; [lia|]. cbn [parse_value]. rewrite Es, decide_True, Ex by done.
        by rewrite Hm by lia.
    + destruct d as [|d]; [done|]. destruct (expect "]" t) as [r'|] eqn:Ex.
      * intros [= <- <-]. apply expect_len in Ex as Hx. split; [lia|].
        intros [|m] Hm; [lia|]. cbn [parse_value]. by rewrite Es, decide_False, decide_True, Ex.
      * intros (ms & (Hlt & Hm) %IHe & <-)%omap2_Some. split; [lia|].
        intros [|m] Hle; [lia|]. cbn [parse_value]. rewrite Es, decide_False, decide_True, Ex by done.
        by rewrite Hm by lia.
    + intros Ho. pose proof Ho as (u & Hu%scan_string_len & _)%omap2_Some. split; [lia|].
      intros [|m] Hm; [lia|]. cbn [parse_value]. by rewrite Es.
    + intros Ho. pose proof Ho as (u & Hu%scan_number_len & _)%omap2_Some. simpl in Hu.
      split; [lia|]. intros [|m] Hm; [lia|]. cbn [parse_value]. rewrite Es.
      rewrite !decide_False by done. by rewrite decide_True.
    + intros Ho. pose proof Ho as Hu%scan_word_literal_len. simpl in Hu.
      split; [lia|]. intros [|m] Hm; [lia|]. cbn [parse_value]. rewrite Es.
      by rewrite !decide_False by done.
  - intros d s ms r. cbn [parse_members].
    destruct (expect quote s) as [r0|] eqn:E0; [|done].
    destruct (scan_string strict _ r0) as [[k r1]|] eqn:E1; [|done].
    destruct (expect ":" r1) as [r2|] eqn:E2; [|done].
    destruct (parse_value strict n d r2) as [[v r3]|] eqn:E3; [|done].
    apply IHv in E3 as [Hlt3 H3]. apply expect_len in E0 as L0, E2 as L2.
    apply scan_string_len in E1 as L1.
    destruct (expect "," r3) as [r4|] eqn:E4.
    + apply expect_len in E4 as L4. intros (ms' & (Hlt & Hm)%IHm & <-)%omap2_Some. split; [lia|].
      intros [|m] Hle; [lia|]. cbn [parse_members]. rewrite E0, E1, E2, H3, E4 by lia.
      by rewrite Hm by lia.
    + destruct (expect "}" r3) as [r4|] eqn:E5; [|done]. apply expect_len in E5 as L5.
      intros [= <- <-]. split; [lia|]. intros [|m] Hle; [lia|]. cbn [parse_members].
      by rewrite E0, E1, E2, H3, E4, E5 by lia.
  - intros d s l r. cbn [parse_elems].
    destruct (parse_value strict n d s) as [[v r3]|] eqn:E3; [|done].
    apply IHv in E3 as [Hlt3 H3].
    destruct (expect "," r3) as [r4|] eqn:E4.
    + apply expect_len in E4 as L4. intros (ms' & (Hlt & Hm)%IHe & <-)%omap2_Some. split; [lia|].
      intros [|m] Hle; [lia|]. cbn [parse_elems]. rewrite H3, E4 by lia. by rewrite Hm by lia.
    + destruct (expect "]" r3) as [r4|] eqn:E5; [|done]. apply expect_len in E5 as L5.
      intros [= <- <-]. split; [lia|]. intros [|m] Hle; [lia|]. cbn [parse_elems].
      by rewrite H3, E4, E5 by lia.
Qed.

(** The fuel of [decode] is enough for every document some fuel reads. *)
Lemma parse_value_enough strict n d s v r :
  parse_value strict n d s = Some (v, r) →
  ∀ m, 2 * len s ≤ m → parse_value strict m d s = Some (v, r).
Proof. intros H m Hm. destruct (parse_fuel_free strict n) as [Hv _]. apply (Hv _ _ _ _ H). lia. Qed.

(** ** The strict reading is a lenient reading *)

Lemma unicode_escape_lenient s r : unicode_escape true s = Some r → unicode_escape false s = Some r.
Proof.
  unfold unicode_escape. destruct (hex4 s) as [[z s1]|]; [|done]. case_decide; [|done].
  destruct (match cut_prefix _ s1 with Some s2 => hex4 s2 | None => None end) as [[r2 s3]|]; [|done].
  by case_decide.
Qed.

Lemma scan_string_lenient n s r : scan_string true n s = Some r → scan_string false n s = Some r.
Proof.
  revert s r. induction n as [|n IH]; intros s r; [done|]. cbn [scan_string].
  assert (∀ t s', match scan_string true n s' with Some (u, r') => Some (t +:+ u, r') | None => None end = Some r →
    match scan_string false n s' with Some (u, r') => Some (t +:+ u, r') | None => None end = Some r) as Hmore.
  { intros t s'. destruct (scan_string true n s') as [[u r']|] eqn:E; [|done]. by rewrite (IH _ _ E). }
  destruct s as [|c s]; [done|]. case_decide; [done|]. case_decide.
  - destruct s as [|e s]; [done|]. case_decide.
    + destruct (unicode_escape true s) as [[t r']|] eqn:E; [|done].
      rewrite (unicode_escape_lenient _ _ E). apply Hmore.
    + destruct (short_escape e); [apply Hmore|done].
  - case_decide; [done|]. destruct (decode_rune (String c s)). case_decide; [done|apply Hmore].
Qed.

Lemma parse_lenient n :
  (∀ d s r, parse_value true n d s = Some r → parse_value false n d s = Some r) ∧
  (∀ d s r, parse_members true n d s = Some r → parse_members false n d s = Some r) ∧
  (∀ d s r, parse_elems true n d s = Some r → parse_elems false n d s = Some r).
Proof.
  induction n as [|n (IHv & IHm & IHe)]; [done|]. split_and!; intros d s r.
  - cbn [parse_value]. destruct (skip_ws s) as [|c t]; [done|]. repeat case_decide; subst; try done.
    + destruct d; [done|]. destruct (expect "}" t); [done|]. unfold omap2.
      destruct (parse_members true n d t) as [[]|] eqn:E; [|done]. by rewrite (IHm _ _ _ E).
    + destruct d; [done|]. destruct (expect "]" t); [done|]. unfold omap2.
      destruct (parse_elems true n d t) as [[]|] eqn:E; [|done]. by rewrite (IHe _ _ _ E).
    + unfold omap2. destruct (scan_string true _ t) as [[]|] eqn:E; [|done].
      by rewrite (scan_string_lenient _ _ _ E).
  - cbn [parse_members]. destruct (expect quote s) as [t|]; [|done].
    destruct (scan_string true _ t) as [[k r1]|] eqn:E1; [|done].
    rewrite (scan_string_lenient _ _ _ E1). destruct (expect ":" r1) as [r2|]; [|done].
    destruct (parse_value true n d r2) as [[v r3]|] eqn:E2; [|done]. rewrite (IHv _ _ _ E2).
    destruct (expect "," r3) as [r4|]; [|done]. unfold omap2.
    destruct (parse_members true n d r4) as [[]|] eqn:E3; [|done]. by rewrite (IHm _ _ _ E3).
  - cbn [parse_elems]. destruct (parse_value true n d s) as [[v r3]|] eqn:E2; [|done].
    rewrite (IHv _ _ _ E2). destruct (expect "," r3) as [r4|]; [|done]. unfold omap2.
    destruct (parse_elems true n d r4) as [[]|] eqn:E3; [|done]. by rewrite (IHe _ _ _ E3).
Qed.

Lemma decode_lenient s v : decode true s = Some v → decode false s = Some v.
Proof.
  unfold decode. destruct (parse_value true _ _ s) as [[u r]|] eqn:E; [|done].
  destruct (parse_lenient (2 * String.length s + 2)) as [Hv _]. by rewrite (Hv _ _ _ E).
Qed.
