(* ===== verification/Chefjson.v ===== *)
(** * Chef's JSON documents (internal/chefjson/chefjson.go)

    The document codec: [Parse], [Marshal] and the editing operations on ordered
    objects, first-member-wins reading, and the number layout. The jsontext
    decoder is [Json.decode true]. *)
From stdpp Require Import pretty.
From S2P Require Import Prelude GoText Json.

#[local] Open Scope go_scope.

(** What the codec uses of IEEE doubles (strconv, math). *)
Class Double := {
  double : Type;
  (** [strconv.ParseFloat(lit, 64)] of a JSON literal: [None] when the value is
      out of range upwards, the only error the caller does not accept. *)
  ParseDouble : string → option double;
  (** [math.Abs(f) < 0x1p-1022]. *)
  double_tiny : double → bool;
  double_neg : double → bool;
  (** [strconv.AppendFloat(nil, math.Abs(f), 'e', -1, 64)]. *)
  double_sci : double → string;
}.

(** ** Strings *)

Definition hexUpper (z : Z) : ascii := chr (if decide (z < 10)%Z then 48 + z else 55 + z)%Z.

(** One byte of a string as jiffy escapes it. *)
Definition escape_char (c : ascii) : string :=
  let b := byte_of c in
  if decide (c = quote ∨ c = backslash) then String backslash (String c "")
  else if decide (0x20 ≤ b)%Z then String c ""
  else if decide (b = 8)%Z then String backslash "b"
  else if decide (b = 12)%Z then String backslash "f"
  else if decide (b = 10)%Z then String backslash "n"
  else if decide (b = 13)%Z then String backslash "r"
  else if decide (b = 9)%Z then String backslash "t"
  else String backslash ("u00" +:+ String (hexUpper (Z.shiftr b 4)) (String (hexUpper (Z.land b 15)) "")).

Fixpoint escape (s : string) : string :=
  match s with
  | EmptyString => ""
  | String c s' => escape_char c +:+ escape s'
  end.

Definition appendString (dst s : string) : string := dst +:+ print_string escape s.

(** ** Numbers *)

Definition containsAny (s chars : string) : bool :=
  negb (str_forall (λ c, bool_decide (¬ str_in c chars)) s).

Definition is_dot (c : ascii) : bool := bool_decide (c = "."%char).

Fixpoint drop_dots (s : string) : string :=
  match s with
  | EmptyString => ""
  | String c s' => if is_dot c then drop_dots s' else String c (drop_dots s')
  end.

(** [strconv.Atoi] of an exponent ([+05], [-07], [21]); 0 when malformed, as the
    error is dropped. *)
Fixpoint digits_val (acc : Z) (s : string) : option Z :=
  match s with
  | EmptyString => Some acc
  | String c s' => if digit c then digits_val (acc * 10 + (byte_of c - 48)) s' else None
  end.
Definition Atoi (s : string) : Z :=
  match s with
  | String c s' =>
      if decide (c = "+"%char) then default 0%Z (digits_val 0 s')
      else if decide (c = "-"%char) then (- default 0 (digits_val 0 s'))%Z
      else default 0%Z (digits_val 0 s)
  | EmptyString => 0%Z
  end.

Fixpoint zeros (n : nat) : string := match n with O => "" | S n' => String "0" (zeros n') end.

(** The digits and exponent laid out as ECMAScript prints a number, with [.0]
    after a whole one: the [switch] of [appendFloat]. *)
Definition layout (digits : string) (exp : Z) : string :=
  let k := Z.of_nat (String.length digits) in
  let n := (exp + 1)%Z in
  if decide (k ≤ n ∧ n ≤ 21)%Z then digits +:+ zeros (Z.to_nat (n - k)) +:+ ".0"
  else if decide (0 < n ∧ n ≤ 21)%Z then
    str_take (Z.to_nat n) digits +:+ "." +:+ str_drop (Z.to_nat n) digits
  else if decide (-6 < n ∧ n ≤ 0)%Z then "0." +:+ zeros (Z.to_nat (- n)) +:+ digits
  else str_take 1 digits
    +:+ (if decide (1 < k)%Z then "." +:+ str_drop 1 digits else "")
    +:+ "e" +:+ (if decide (0 < n - 1)%Z then "+" else "") +:+ pretty (n - 1)%Z.

Section Doubles.
Context `{Double}.

Definition appendFloat (dst : string) (f : double) : string :=
  if double_tiny f then dst +:+ "0.0"
  else
    let dst := if double_neg f then dst +:+ "-" else dst in
    match cut_byte "e" (double_sci f) with
    | Some (mant, e) => dst +:+ layout (drop_dots mant) (Atoi e)
    | None => dst
    end.

Definition appendNumber (dst lit : string) : result string :=
  if negb (containsAny lit ".eE") then
    if decide (lit = "-0") then Ok (dst +:+ "0") else Ok (dst +:+ lit)
  else match ParseDouble lit with
       | Some f => Ok (appendFloat dst f)
       | None => Err (ErrOther ("chefjson: number " +:+ lit +:+ " is out of range"))
       end.

(** ** Trees *)

(** The loops over the elements of an array and the members of an object. *)
Section Loops.
Variable appendValue : string → value → string.

Fixpoint appendElems (first : bool) (dst : string) (l : list value) : string :=
  match l with
  | [] => dst +:+ "]"
  | x :: l' => appendElems false (appendValue (if first then dst else dst +:+ ",") x) l'
  end.

Fixpoint appendMembers (first : bool) (dst : string) (ms : list (string * value)) : string :=
  match ms with
  | [] => dst +:+ "}"
  | (k, x) :: ms' =>
      let dst := if first then dst else dst +:+ "," in
      appendMembers false (appendValue (appendString dst k +:+ ":") x) ms'
  end.
End Loops.

Fixpoint appendValue (dst : string) (v : value) : string :=
  match v with
  | VObj ms => appendMembers appendValue true (dst +:+ "{") ms
  | VArr l => appendElems appendValue true (dst +:+ "[") l
  | VStr s => appendString dst s
  | VNum lit => match appendNumber dst lit with Ok out => out | Err _ => dst +:+ lit end
  | VBool true => dst +:+ "true"
  | VBool false => dst +:+ "false"
  | VNull => dst +:+ "null"
  end.

Definition Marshal (v : value) : string := appendValue "" v.
End Doubles.

(** Names seen so far drop their repeats, at every depth. *)
Section FirstMembers.
Variable firstMembers : value → value.

Fixpoint firsts (seen : list string) (ms : list (string * value)) : list (string * value) :=
  match ms with
  | [] => []
  | (k, x) :: ms' =>
      if contains_str seen k then firsts seen ms'
      else (k, firstMembers x) :: firsts (k :: seen) ms'
  end.
End FirstMembers.

Fixpoint firstMembers (v : value) : value :=
  match v with
  | VObj ms => VObj (firsts firstMembers [] ms)
  | VArr l => VArr (map firstMembers l)
  | _ => v
  end.

Definition Get (ms : list (string * value)) (name : string) : option value := assoc ms name.

Fixpoint Set_ (ms : list (string * value)) (name : string) (v : value) : list (string * value) :=
  match ms with
  | [] => [(name, v)]
  | (k, x) :: ms' => if decide (k = name) then (k, v) :: ms' else (k, x) :: Set_ ms' name v
  end.

(** ** Reading documents *)

Definition trailing_data : gerror := ErrOther "chefjson: unexpected data after the top-level value".
Definition bad_json : gerror := ErrOther "jsontext: syntax error".

Definition decodeOne (doc : string) (ordered : bool) : result value :=
  match parse_value true (2 * String.length doc + 2) max_depth doc with
  | Some (v, r) =>
      if decide (skip_ws r = "") then Ok (if ordered then v else firstMembers v)
      else Err trailing_data
  | None => Err bad_json
  end.

Definition Parse (doc : string) : result value := decodeOne doc true.

Definition DecodeObject (doc : string) : result (list (string * value)) :=
  match decodeOne doc false with
  | Err e => Err e
  | Ok (VObj ms) => Ok ms
  | Ok _ => Err (ErrOther "chefjson: not a JSON object")
  end.

(** Whether some object in the tree repeats a name. *)
Fixpoint repeats (v : value) : bool :=
  match v with
  | VObj ms => negb (bool_decide (NoDup (map fst ms))) || existsb (λ m, repeats m.2) ms
  | VArr l => existsb repeats l
  | _ => false
  end.

Definition HasRepeatedNames (doc : string) : bool :=
  match decode true doc with Some v => repeats v | None => true end.

(** What [Unmarshal] hands to encoding/json. *)
Definition Unmarshal_doc `{Double} (doc : string) : result string :=
  if HasRepeatedNames doc then
    match Parse doc with
    | Ok tree => Ok (Marshal (firstMembers tree))
    | Err e => Err e
    end
  else Ok doc.

(** The members of an object read one by one up to [name]; nothing after the
    value found is looked at. *)
Fixpoint string_member (n : nat) (s name : string) : option string :=
  match n with
  | O => None
  | S n =>
      match expect quote s with
      | None => None
      | Some rest =>
          match scan_string true (S (String.length rest)) rest with
          | None => None
          | Some (k, r1) =>
              match expect ":" r1 with
              | None => None
              | Some r2 =>
                  if decide (k ≠ name) then
                    match parse_value true (2 * String.length r2 + 2) (max_depth - 1) r2 with
                    | None => None
                    | Some (_, r3) =>
                        match expect "," r3 with
                        | Some r4 => string_member n r4 name
                        | None => None
                        end
                    end
                  else
                    match expect quote r2 with
                    | None => None
                    | Some r3 => fst <$> scan_string true (S (String.length r3)) r3
                    end
              end
          end
      end
  end.

Definition String_ (doc name : string) : option string :=
  match expect "{" doc with
  | None => None
  | Some rest => string_member (S (String.length rest)) rest name
  end.

(** ** The escaper is read back *)

Definition high (s : string) : bool := str_forall (λ c, bool_decide (0x80 ≤ byte_of c)%Z) s.

Lemma escape_high h t : high h = true → escape (h +:+ t) = h +:+ escape t.
Proof.
  induction h as [|c h IH]; [done|]. simpl. intros [Hc Hh]%andb_prop.
  apply bool_decide_eq_true in Hc. rewrite IH by done. unfold escape_char.
  rewrite (decide_False (P := c = quote ∨ _)), decide_True; [done|lia|].
  intros [->| ->]; vm_compute in Hc; done.
Qed.

Lemma cont_in_high lo hi c p : cont_in lo hi c = Some p → (0x80 ≤ lo)%Z → (0x80 ≤ byte_of c)%Z.
Proof. unfold cont_in. case_decide; [lia|done]. Qed.

(** A rune that is not ASCII is decoded from its own bytes only. *)
Lemma decode_rune_high c s r w t :
  (0x80 ≤ byte_of c)%Z → decode_rune (String c s) = (r, w) → ¬ (r = RuneError ∧ w = 1) →
  high (str_take w (String c s)) = true ∧ 1 < w ≤ String.length (String c s) ∧
  decode_rune (str_take w (String c s) +:+ t) = (r, w).
Proof.
  intros Hc. unfold decode_rune. rewrite (decide_False (P := (byte_of c < 0x80)%Z)) by lia.
  assert (∀ b : bool, (0x80 ≤ if b then 0xA0 else 0x80)%Z) as Ha by (intros []; lia).
  assert (∀ b : bool, (0x80 ≤ if b then 0x90 else 0x80)%Z) as Hb by (intros []; lia).
  unfold high.
  destruct (decide (0xC2 ≤ byte_of c ≤ 0xDF)%Z) as [H2|H2];
  [|destruct (decide (0xE0 ≤ byte_of c ≤ 0xEF)%Z) as [H3|H3];
  [|destruct (decide (0xF0 ≤ byte_of c ≤ 0xF4)%Z) as [H4|H4]]];
    [destruct s as [|c1 s]|destruct s as [|c1 [|c2 s]]|destruct s as [|c1 [|c2 [|c3 s]]]|];
    try (intros [= <- <-] Hbad; by destruct Hbad).
  - destruct (cont_in _ _ c1) as [p1|] eqn:E1; intros [= <- <-] Hbad; [|by destruct Hbad].
    apply cont_in_high in E1 as L1; [|lia].
    split; [|split; [simpl; lia|]].
    + cbn [str_take str_forall]. rewrite !bool_decide_eq_true_2 by done. done.
    + cbn [str_take String.append]. rewrite (decide_False (P := (byte_of c < 0x80)%Z)) by lia.
      rewrite decide_True by done. by rewrite E1.
  - destruct (cont_in _ _ c1) as [p1|] eqn:E1; [|intros [= <- <-] []; done].
    destruct (cont_in _ _ c2) as [p2|] eqn:E2; intros [= <- <-] Hbad; [|by destruct Hbad].
    apply cont_in_high in E1 as L1; [|case_decide; lia]. apply cont_in_high in E2 as L2; [|lia].
    split; [|split; [simpl; lia|]].
    + cbn [str_take str_forall]. rewrite !bool_decide_eq_true_2 by done. done.
    + cbn [str_take String.append]. rewrite (decide_False (P := (byte_of c < 0x80)%Z)) by lia.
      rewrite decide_False, decide_True by done. by rewrite E1, E2.
  - destruct (cont_in _ _ c1) as [p1|] eqn:E1; [|intros [= <- <-] []; done].
    destruct (cont_in _ _ c2) as [p2|] eqn:E2; [|intros [= <- <-] []; done].
    destruct (cont_in _ _ c3) as [p3|] eqn:E3; intros [= <- <-] Hbad; [|by destruct Hbad].
    apply cont_in_high in E1 as L1; [|case_decide; lia]. apply cont_in_high in E2 as L2; [|lia].
    apply cont_in_high in E3 as L3; [|lia].
    split; [|split; [simpl; lia|]].
    + cbn [str_take str_forall]. rewrite !bool_decide_eq_true_2 by done. done.
    + cbn [str_take String.append]. rewrite (decide_False (P := (byte_of c < 0x80)%Z)) by lia.
      rewrite decide_False, decide_False, decide_True by done. by rewrite E1, E2, E3.
Qed.

Lemma scan_ascii c t n : (0x20 ≤ byte_of c < 0x80)%Z → c ≠ quote → c ≠ backslash →
  scan_string true (S n) (String c t) =
  match scan_string true n t with Some (u, r) => Some (String c u, r) | None => None end.
Proof.
  intros Hc Hq Hb. cbn [scan_string]. rewrite !decide_False by (done || lia).
  assert (decode_rune (String c t) = (byte_of c, 1)) as ->.
  { cbn [decode_rune]. by rewrite decide_True by lia. }
  rewrite decide_False by (unfold RuneError; lia). done.
Qed.

Definition control_chars : list ascii := Eval vm_compute in map ascii_of_nat (seq 0 32).

Lemma control_char c : (byte_of c < 0x20)%Z → c ∈ control_chars.
Proof.
  intros Hc. assert (control_chars = map ascii_of_nat (seq 0 32)) as -> by (vm_compute; done).
  apply list_elem_of_fmap. exists (nat_of_ascii c). split.
  - by rewrite ascii_nat_embedding.
  - apply elem_of_seq. unfold byte_of in Hc. lia.
Qed.

(** The witnesses of [escape_control], computed for a closed character. *)
Ltac solve_escape :=
  match goal with |- (∃ _, escape_char ?c = _ ∧ _) ∨ _ =>
    let e := eval vm_compute in (str_drop 1 (escape_char c)) in
    lazymatch e with
    | String "u" ?h => right; exists h
    | String ?x _ => left; exists x
    end; vm_compute; repeat split; done
  end.

(** A control character is escaped as a short or a [\u] escape of itself. *)
Lemma escape_control c : (byte_of c < 0x20)%Z →
  (∃ e, escape_char c = String backslash (String e "") ∧ e ≠ "u"%char ∧ short_escape e = Some c) ∨
  (∃ h, escape_char c = String backslash (String "u" h) ∧
        ∀ t, unicode_escape true (h +:+ t) = Some (String c "", t)).
Proof.
  intros Hin%control_char. revert c Hin. apply Forall_forall. unfold control_chars.
  repeat (apply Forall_cons; split; [solve_escape|]). by apply Forall_nil.
Qed.

(** An ASCII byte is read back from its escaped form in one step. *)
Lemma escape_char_low c t n : (byte_of c < 0x80)%Z →
  scan_string true (S n) (escape_char c +:+ t) =
  match scan_string true n t with Some (u, r) => Some (String c u, r) | None => None end.
Proof.
  intros Hc. destruct (decide (c = quote)) as [->|Hq]; [done|].
  destruct (decide (c = backslash)) as [->|Hb]; [done|].
  destruct (decide (0x20 ≤ byte_of c)%Z).
  - unfold escape_char. rewrite decide_False, decide_True by (done || tauto).
    by apply scan_ascii.
  - destruct (escape_control c) as [(e & -> & He & Hs)|(h & -> & Hs)]; [lia| |];
      cbn [String.append scan_string].
    + rewrite decide_False, decide_True, decide_False by done. by rewrite Hs.
    + rewrite decide_False, !decide_True by done. by rewrite Hs.
Qed.

(** What [appendString] writes is read back by the strict decoder. *)
Lemma escape_scan s rest n : valid_utf8 s = true → String.length (escape s) < n →
  scan_string true n (escape s +:+ String quote rest) = Some (s, rest).
Proof.
  unfold valid_utf8.
  assert (∀ m s n, valid_utf8_go m s = true → String.length s ≤ m → String.length (escape s) < n →
    scan_string true n (escape s +:+ String quote rest) = Some (s, rest)) as Hgo; [|by intros; eapply Hgo].
  clear s n. induction m as [|m IH]; intros s n Hv Hm Hn;
    (destruct n as [|n]; [lia|]); (destruct s as [|c s]; [done|]); simpl in Hm; [lia|].
  cbn [valid_utf8_go] in Hv. destruct (decode_rune (String c s)) as [r w] eqn:Ed.
  destruct (decide (r = RuneError ∧ w = 1)) as [|Hok]; [done|].
  destruct (decide (byte_of c < 0x80)%Z) as [Hc|Hc].
  - cbn [decode_rune] in Ed. rewrite decide_True in Ed by done. injection Ed as <- <-.
    cbn [escape]. rewrite app_string_assoc, escape_char_low by done.
    rewrite IH; [done| done | lia |].
    cbn [escape] in Hn. rewrite length_app_string in Hn.
    assert (1 ≤ String.length (escape_char c)); [|lia].
    unfold escape_char. repeat case_decide; simpl; lia.
  - destruct (decode_rune_high c s r w (escape (str_drop w (String c s)) +:+ String quote rest))
      as (Hh & Hw & Hd); [lia|done..|].
    assert (escape (String c s) = str_take w (String c s) +:+ escape (str_drop w (String c s))) as He.
    { rewrite <-escape_high by done. by rewrite str_take_drop. }
    rewrite He, app_string_assoc. destruct w as [|w]; [lia|]. cbn [str_take String.append] in *.
    rewrite He in Hn. cbn [String.append String.length] in Hn. rewrite length_app_string in Hn.
    cbn [scan_string]. rewrite !decide_False; [|lia|intros ->; by apply Hc..].
    rewrite Hd. rewrite decide_False by done. cbn [str_take str_drop] in *.
    assert (∀ a b k, String.length a = k → str_take k (a +:+ b) = a ∧ str_drop k (a +:+ b) = b) as Hsplit.
    { clear. induction a as [|x a IH]; intros b k <-; [by destruct b|].
      simpl. destruct (IH b _ eq_refl) as [-> ->]. done. }
    assert (String.length (str_take w s) = w) as Hlen.
    { clear -Hw. simpl in Hw. assert (w ≤ String.length s) as H by lia. clear Hw. revert s H.
      induction w as [|w IH]; intros [|x s] H; simpl in *; try lia. rewrite IH; lia. }
    destruct (Hsplit (str_take w s) (escape (str_drop w s) +:+ String quote rest) w Hlen) as [-> ->].
    rewrite IH; [cbn [String.append]; by rewrite str_take_drop|done|rewrite length_str_drop; lia|lia].
Qed.

(** ** Marshalled trees parse back *)

Section Marshal.
Context `{Double}.

(** The literal [Marshal] writes for a number. *)
Definition number_text (lit : string) : string :=
  match appendNumber "" lit with Ok out => out | Err _ => lit end.

Lemma appendFloat_app dst f : appendFloat dst f = dst +:+ appendFloat "" f.
Proof.
  unfold appendFloat. destruct (double_tiny f); [done|].
  destruct (cut_byte _ _) as [[]|]; destruct (double_neg f); cbn [String.append];
    autorewrite with go; done.
Qed.

Lemma appendNumber_app dst lit :
  match appendNumber dst lit with Ok out => out | Err _ => dst +:+ lit end = dst +:+ number_text lit.
Proof.
  unfold number_text, appendNumber. destruct (negb _); [by case_decide|].
  destruct (ParseDouble lit); [apply appendFloat_app|done].
Qed.

(** The tree with its numbers as [Marshal] writes them. *)
Fixpoint canon (v : value) : value :=
  match v with
  | VNum lit => VNum (number_text lit)
  | VArr l => VArr (map canon l)
  | VObj ms => VObj (map (λ m, (m.1, canon m.2)) ms)
  | _ => v
  end.

(** What the loops over elements and members append. *)
Lemma appendElems_print l : Forall (λ x, ∀ dst, appendValue dst x = dst +:+ print escape (canon x)) l →
  ∀ first dst, appendElems appendValue first dst l = dst +:+
    (if first then "" else match l with [] => "" | _ => "," end) +:+
    join "," (map (print escape) (map canon l)) +:+ "]".
Proof.
  induction 1 as [|x l Hx Hl IH]; intros first dst; [by destruct first|].
  cbn [map appendElems]. rewrite IH, Hx, join_cons.
  destruct first, l; cbn [map String.append]; autorewrite with go; done.
Qed.

Lemma appendMembers_print ms :
  Forall (λ m, ∀ dst, appendValue dst m.2 = dst +:+ print escape (canon m.2)) ms →
  ∀ first dst, appendMembers appendValue first dst ms = dst +:+
    (if first then "" else match ms with [] => "" | _ => "," end) +:+
    join "," (map (λ m, print_string escape m.1 +:+ ":" +:+ print escape m.2)
                  (map (λ m, (m.1, canon m.2)) ms)) +:+ "}".
Proof.
  induction 1 as [|[k x] l Hx Hl IH]; intros first dst; [by destruct first|].
  cbn [map appendMembers]. cbn [fst snd] in *. rewrite IH, Hx, join_cons.
  unfold appendString. destruct first, l; cbn [map String.append]; autorewrite with go; done.
Qed.

Lemma appendValue_print v : ∀ dst, appendValue dst v = dst +:+ print escape (canon v).
Proof.
  induction v as [|[]|lit|s|l IH|ms IH] using value_ind'; intros dst; try done.
  - apply appendNumber_app.
  - cbn [appendValue]. rewrite appendElems_print by done. cbn [canon print]. by autorewrite with go.
  - cbn [appendValue]. rewrite appendMembers_print by done. cbn [canon print]. by autorewrite with go.
Qed.

Lemma Marshal_print v : Marshal v = print escape (canon v).
Proof. apply appendValue_print. Qed.

Lemma Parse_decode doc v : decode true doc = Some v → Parse doc = Ok v.
Proof.
  unfold decode, Parse, decodeOne. destruct (parse_value _ _ _ _) as [[u r]|]; [|done].
  case_decide; [|done]. by intros [= ->].
Qed.

(** A tree of valid text that [Marshal] writes is the tree [Parse] reads
    back, numbers in the form they are stored in: member order and repeated
    names included. *)
Theorem marshal_parse_roundtrip v :
  printable (λ s, valid_utf8 s = true) (canon v) → depth v ≤ max_depth →
  Parse (Marshal v) = Ok (canon v).
Proof.
  intros Hp Hd. apply Parse_decode. rewrite Marshal_print.
  apply decode_print with (ok := λ s, valid_utf8 s = true); [apply escape_scan|done|].
  cut (depth (canon v) = depth v); [lia|]. clear. 
  induction v as [|[]|lit|s|l IH|ms IH] using value_ind'; try done; simpl; do 2 f_equal.
  - rewrite map_map. by apply map_ext_Forall.
  - rewrite map_map. by apply (map_ext_Forall (λ m, depth (canon m.2)) (λ m, depth m.2)).
Qed.
End Marshal.

(** ** Reading one member agrees with the tree *)

#[local] Opaque max_depth.

Lemma expect_cons c s x t : skip_ws s = String x t → expect c s = if decide (x = c) then Some t else None.
Proof. unfold expect. by intros ->. Qed.

Lemma scan_word_literal_str s v r u : scan_word_literal s = Some (v, r) → v ≠ VStr u.
Proof. unfold scan_word_literal. repeat case_match; intros; simplify_eq; done. Qed.

(** Reading a value as a string token. *)
Lemma read_string n d s v r : parse_value true n d s = Some (v, r) →
  match expect quote s with
  | None => None
  | Some t => fst <$> scan_string true (S (String.length t)) t
  end = match v with VStr u => Some u | _ => None end.
Proof.
  destruct n as [|n]; [done|]. cbn [parse_value]. unfold expect.
  destruct (skip_ws s) as [|c t]; [done|].
  destruct (decide (c = "{"%char)) as [->|]; [|destruct (decide (c = "["%char)) as [->|];
    [|destruct (decide (c = quote)) as [->|]; [|case_decide]]].
  - destruct d; [done|]. destruct (match skip_ws t with EmptyString => None | String _ _ => _ end).
    + by intros [= <- <-].
    + by intros (? & _ & <-)%omap2_Some.
  - destruct d; [done|]. destruct (match skip_ws t with EmptyString => None | String _ _ => _ end).
    + by intros [= <- <-].
    + by intros (? & _ & <-)%omap2_Some.
  - intros (u & -> & <-)%omap2_Some. done.
  - by intros (? & _ & <-)%omap2_Some.
  - intros Hw. destruct v; try done. by eapply scan_word_literal_str in Hw.
Qed.

Lemma string_member_assoc n s d ms r name : parse_members true n d s = Some (ms, r) →
  d = max_depth - 1 → ∀ m, String.length s < m →
  string_member m s name = match assoc ms name with Some (VStr u) => Some u | _ => None end.
Proof.
  revert s ms. induction n as [|n IH]; intros s ms Hp Hd m Hm; [done|].
  destruct m as [|m]; [lia|]. cbn [parse_members] in Hp. cbn [string_member].
  destruct (expect quote s) as [r0|] eqn:E0; [|done].
  destruct (scan_string true _ r0) as [[k r1]|] eqn:E1; [|done].
  destruct (expect ":" r1) as [r2|] eqn:E2; [|done].
  destruct (parse_value true n d r2) as [[v r3]|] eqn:E3; [|done].
  apply expect_len in E0 as L0, E2 as L2. apply scan_string_len in E1 as L1.
  destruct (decide (k ≠ name)) as [Hk|Hk].
  - rewrite <-Hd, (parse_value_enough _ _ _ _ _ _ E3) by lia.
    destruct (parse_fuel_free true n) as [Hv _]. destruct (Hv _ _ _ _ E3) as [L3 _].
    destruct (expect "," r3) as [r4|] eqn:E4.
    + apply omap2_Some in Hp as (ms' & Hp & <-). apply expect_len in E4 as L4.
      simpl. rewrite decide_False by done. eapply IH; eauto. lia.
    + destruct (expect "}" r3); simplify_eq/=. by rewrite decide_False.
  - apply dec_stable in Hk. subst k. rewrite (read_string _ _ _ _ _ E3).
    destruct (expect "," r3) as [r4|] eqn:E4.
    + apply omap2_Some in Hp as (ms' & Hp & <-). simpl. by rewrite decide_True.
    + destruct (expect "}" r3); simplify_eq/=. by rewrite decide_True.
Qed.

Lemma String_object n d s ms r name : parse_value true n d s = Some (VObj ms, r) →
  d = max_depth →
  String_ s name = match assoc ms name with Some (VStr u) => Some u | _ => None end.
Proof.
  destruct n as [|n]; [done|]. cbn [parse_value]. unfold String_.
  destruct (skip_ws s) as [|c t] eqn:Es; [done|].
  rewrite (expect_cons _ _ _ _ Es).
  destruct (decide (c = "{"%char)) as [->|]; [|destruct (decide (c = "["%char)) as [->|];
    [|destruct (decide (c = quote)) as [->|]; [|case_decide]]].
  - destruct d as [|d]; [done|]. destruct (expect "}" t) as [r'|] eqn:Ex.
    + intros [= <- <-] _. simpl. destruct (expect quote t) as [q|] eqn:Eq; [|done].
      unfold expect in Ex, Eq. destruct (skip_ws t); [done|]. by repeat case_decide; subst.
    + intros (ms' & Hm & [= ->])%omap2_Some Hd.
      eapply string_member_assoc; [exact Hm|lia|lia].
  - destruct d as [|d]; [done|]. destruct (expect "]" t); [done|].
    by intros (? & _ & ?)%omap2_Some.
  - by intros (? & _ & ?)%omap2_Some.
  - by intros (? & _ & ?)%omap2_Some.
  - unfold scan_word_literal. intros. repeat case_match; simplify_eq.
Qed.

(** Reading one member of a document without decoding the rest gives what
    the first member of that name holds in the parsed tree, when it is a
    string. *)
Theorem string_reads_first_member doc ms name :
  Parse doc = Ok (VObj ms) →
  String_ doc name = match Get ms name with Some (VStr u) => Some u | _ => None end.
Proof.
  unfold Parse, decodeOne. destruct (parse_value _ _ _ doc) as [[v r]|] eqn:E; [|done].
  case_decide; [|done]. intros [= ->]. eapply String_object; [exact E|done].
Qed.

Lemma string_reads_first_member_witness :
  let doc := "{" +:+ print_string id "a" +:+ ":" +:+ print_string id "x" +:+ ","
                 +:+ print_string id "a" +:+ ":1}" in
  String_ doc "a" = Some "x".
Proof.
  intros doc.
  pose proof (string_reads_first_member doc [("a", VStr "x"); ("a", VNum "1")] "a") as H.
  apply H. vm_compute. reflexivity.
Defined.

(** ** First member wins *)

Lemma firsts_assoc fm seen ms name : name ∉ seen →
  assoc (firsts fm seen ms) name = fm <$> assoc ms name.
Proof.
  revert seen. induction ms as [|[k x] ms IH]; intros seen Hs; [done|]. cbn [firsts assoc].
  destruct (contains_str seen k) eqn:Ek.
  - apply contains_str_true in Ek. rewrite decide_False by congruence. by apply IH.
  - cbn [assoc]. case_decide; [done|]. apply IH. set_solver.
Qed.

Lemma firsts_names fm seen ms :
  NoDup (map fst (firsts fm seen ms)) ∧ (∀ k, k ∈ map fst (firsts fm seen ms) → k ∉ seen).
Proof.
  revert seen. induction ms as [|[k x] ms IH]; intros seen; cbn [firsts].
  { split; [constructor|set_solver]. }
  destruct (contains_str seen k) eqn:Ek; [apply IH|]. apply contains_str_false in Ek.
  destruct (IH (k :: seen)) as [Hnd Hs]. cbn [map fst]. split.
  - constructor; [|done]. intros Hk. apply Hs in Hk. set_solver.
  - intros k' [->|Hk]%elem_of_cons; [done|]. apply Hs in Hk. set_solver.
Qed.

Lemma existsb_false {A} (f : A → bool) l : existsb f l = false ↔ Forall (λ x, f x = false) l.
Proof.
  induction l as [|x l IH]; simpl; [by rewrite Forall_nil|].
  by rewrite orb_false_iff, Forall_cons, IH.
Qed.

Lemma firsts_Forall fm (P : string * value → Prop) seen ms :
  (∀ m, m ∈ ms → P (m.1, fm m.2)) → Forall P (firsts fm seen ms).
Proof.
  revert seen. induction ms as [|[k x] ms IH]; intros seen Hm; cbn [firsts]; [constructor|].
  destruct (contains_str seen k); [apply IH; set_solver|].
  constructor; [apply (Hm (k, x)); set_solver|apply IH; set_solver].
Qed.

Lemma firstMembers_no_repeats v : repeats (firstMembers v) = false.
Proof.
  induction v as [| | | |l IH|ms IH] using value_ind'; try done; cbn [firstMembers repeats].
  - apply existsb_false. by apply Forall_fmap.
  - rewrite bool_decide_eq_true_2 by apply firsts_names. simpl.
    apply existsb_false, firsts_Forall. intros m Hm. rewrite Forall_forall in IH. by apply IH.
Qed.

(** What [DecodeObject] reads of a document holds, under every name, the
    first member of that name of the parsed tree, and no name twice at any
    depth. *)
Theorem decode_object_first_member doc ms :
  Parse doc = Ok (VObj ms) →
  ∃ ms', DecodeObject doc = Ok ms' ∧ repeats (VObj ms') = false ∧
    ∀ name, Get ms' name = firstMembers <$> Get ms name.
Proof.
  unfold Parse, DecodeObject, decodeOne. destruct (parse_value _ _ _ doc) as [[v r]|]; [|done].
  case_decide; [|done]. intros [= ->]. eexists. split; [done|]. split.
  - apply (firstMembers_no_repeats (VObj ms)).
  - intros name. apply firsts_assoc. set_solver.
Qed.

Lemma decode_object_first_member_witness :
  let doc := "{" +:+ print_string id "a" +:+ ":[1]," +:+ print_string id "a" +:+ ":2}" in
  ∃ ms', DecodeObject doc = Ok ms' ∧ repeats (VObj ms') = false ∧
    ∀ name, Get ms' name = firstMembers <$> Get [("a", VArr [VNum "1"]); ("a", VNum "2")] name.
Proof. apply decode_object_first_member. vm_compute. reflexivity. Defined.

(** ** Editing *)

Lemma Get_Set ms name v k :
  Get (Set_ ms name v) k = if decide (k = name) then Some v else Get ms k.
Proof.
  unfold Get. induction ms as [|[k' x] ms IH]; cbn [Set_ assoc].
  - repeat case_decide; congruence.
  - destruct (decide (k' = name)) as [->|Hk]; cbn [assoc].
    + repeat case_decide; congruence.
    + rewrite IH. repeat case_decide; congruence.
Qed.

Lemma Set_names ms name v :
  map fst (Set_ ms name v) = if decide (name ∈ map fst ms) then map fst ms else map fst ms ++ [name].
Proof.
  induction ms as [|[k' x] ms IH]; simpl; [done|].
  destruct (decide (k' = name)) as [->|Hk]; simpl.
  - rewrite decide_True by set_solver. done.
  - rewrite IH. destruct (decide (name ∈ map fst ms)).
    + rewrite decide_True by set_solver. done.
    + rewrite decide_False by set_solver. done.
Qed.

(** Setting a member changes the value read under that name only, keeps
    every name at its place, and appends the name only when it is new. *)
Theorem set_edits_in_place ms name v :
  (∀ k, Get (Set_ ms name v) k = if decide (k = name) then Some v else Get ms k) ∧
  map fst (Set_ ms name v) = (if decide (name ∈ map fst ms) then map fst ms else map fst ms ++ [name]).
Proof. split; [intros; apply Get_Set|apply Set_names]. Qed.
