(* ===== verification/Float.v ===== *)
(** * IEEE 754 doubles (strconv, math)

    Exact arithmetic on finite doubles, as far as the JSON codec uses it:
    [strconv.ParseFloat] of a JSON number literal (nearest double, ties to
    even) and [strconv.AppendFloat] in the shortest exponent form. *)
From stdpp Require Import pretty.
From S2P Require Import Prelude GoText Json Chefjson.

#[local] Open Scope Z_scope.

(** [(-1)^neg * mant * 2^ex]. *)
Record f64 := F64 { f_neg : bool; f_mant : Z; f_ex : Z }.

#[global] Instance f64_eq_dec : EqDecision f64.
Proof. solve_decision. Defined.

(** The nearest double to [n/d > 0], ties to even; [None] beyond the range. *)
Definition round_ratio (n d : Z) : option (Z * Z) :=
  let e0 := Z.log2 n - Z.log2 d - 53 in
  let scaled e := if decide (0 <= e) then (n, d * 2 ^ e) else (n * 2 ^ (- e), d) in
  let e1 := let '(a, b) := scaled e0 in if decide (2 ^ 53 <= a / b) then e0 + 1 else e0 in
  let e := Z.max e1 (-1074) in
  let '(a, b) := scaled e in
  let q := a / b in
  let r := a mod b in
  let q := if decide (2 * r < b \/ (2 * r = b /\ Z.even q = true)) then q else q + 1 in
  let '(q, e) := if decide (q = 2 ^ 53) then (2 ^ 52, e + 1) else (q, e) in
  if decide (971 < e) then None else Some (q, e).

(** The digits of a literal as an integer, with the exponent of ten they carry. *)
Fixpoint digits_acc (s : string) (acc : Z) : Z :=
  match s with
  | EmptyString => acc
  | String c s' => if digit c then digits_acc s' (acc * 10 + (byte_of c - 48)) else digits_acc s' acc
  end.

Definition decimal_of (lit : string) : bool * Z * Z :=
  let '(neg, s) := match cut_prefix "-" lit with Some s => (true, s) | None => (false, lit) end in
  let '(m, e) := match cut_byte "e" (ToLower (H := caseless_unicode) s) with
    | Some (m, e) => (m, Atoi e) | None => (s, 0) end in
  match cut_byte "." m with
  | Some (i, f) => (neg, digits_acc (i +:+ f) 0, e - Z.of_nat (String.length f))
  | None => (neg, digits_acc m 0, e)
  end.

(** [n * 10^e] as a double; magnitudes far out of range are settled before the
    power is taken. *)
Definition of_decimal (neg : bool) (n e : Z) : option f64 :=
  if decide (n = 0) then Some (F64 neg 0 0)
  else if decide (400 < Z.log2 n * 3 / 10 + e) then None
  else if decide (Z.log2 n / 3 + 1 + e < -400) then Some (F64 neg 0 0)
  else
    let r := if decide (0 <= e) then round_ratio (n * 10 ^ e) 1 else round_ratio n (10 ^ (- e)) in
    match r with
    | None => None
    | Some (0, _) => Some (F64 neg 0 0)
    | Some (q, x) => Some (F64 neg q x)
    end.

Definition parse_double (lit : string) : option f64 :=
  let '(neg, n, e) := decimal_of lit in of_decimal neg n e.

(** Below [0x1p-1022]. *)
Definition tiny (f : f64) : bool := bool_decide (f_mant f < 2 ^ 52).

(** The decimal exponent of [n/d > 0]: [10^p <= n/d < 10^(p+1)], searched for
    from an estimate that is never above it. *)
Definition pow10_le (p n d : Z) : bool :=
  if decide (0 <= p) then bool_decide (10 ^ p * d <= n) else bool_decide (d <= n * 10 ^ (- p)).
Fixpoint exp10_from (k : nat) (p n d : Z) : Z :=
  match k with
  | O => p
  | S k' => if pow10_le (p + 1) n d then exp10_from k' (p + 1) n d else p
  end.
Definition exp10 (n d : Z) : Z := exp10_from 6 ((Z.log2 n - Z.log2 d - 1) * 30103 / 100000 - 2) n d.

(** The shortest digits that read back as the double, the nearest first;
    seventeen always do. *)
Fixpoint shortest (fuel : nat) (k : Z) (f : f64) (n d p : Z) : Z * Z :=
  let e := p - k + 1 in
  let '(a, b) := if decide (0 <= e) then (n, d * 10 ^ e) else (n * 10 ^ (- e), d) in
  let lo := a / b in
  let near := if decide (2 * (a mod b) <= b) then lo else lo + 1 in
  let far := if decide (near = lo) then lo + 1 else lo in
  let ok c := bool_decide (of_decimal false c e = Some f) in
  if ok near then (near, e)
  else if ok far then (far, e)
  else match fuel with O => (Z.max 1 near, e) | S fuel' => shortest fuel' (k + 1) f n d p end.

Fixpoint strip_zeros (fuel : nat) (c e : Z) : Z * Z :=
  match fuel with
  | O => (c, e)
  | S fuel' => if decide (c mod 10 = 0) then strip_zeros fuel' (c / 10) (e + 1) else (c, e)
  end.

Definition two_digits (z : Z) : string := if decide (z < 10) then "0" +:+ pretty z else pretty z.

(** [d.ddde±XX] of a positive double. *)
Definition format_sci (f : f64) : string :=
  let f := F64 false (f_mant f) (f_ex f) in
  let '(n, d) := if decide (0 <= f_ex f) then (f_mant f * 2 ^ f_ex f, 1) else (f_mant f, 2 ^ (- f_ex f)) in
  let '(c, e) := shortest 17 1 f n d (exp10 n d) in
  let '(c, e) := strip_zeros 20 c e in
  let ds := pretty c in
  let x := e + Z.of_nat (String.length ds) - 1 in
  str_take 1 ds +:+ (if decide (1 < Z.of_nat (String.length ds)) then "." +:+ str_drop 1 ds else "")
    +:+ "e" +:+ (if decide (0 <= x) then "+" else "-") +:+ two_digits (Z.abs x).

#[global] Instance ieee_double : Double := {|
  double := f64;
  ParseDouble := parse_double;
  double_tiny := tiny;
  double_neg := f_neg;
  double_sci := format_sci;
|}.

(** The forms the package comment promises. *)
Example stored_numbers :
  map number_text
    ["1.0"; "1e3"; "0.1"; "100000000000000000000.0"; "1e21"; "1.5e-7"; "0.000001"; "-0.0"; "-0";
     "123456789012345678901234567890"; "1.7976931348623157e308"; "4.9e-324"; "2.2250738585072014e-308";
     "0.30000000000000004"; "-12.50"]
  = ["1.0"; "1000.0"; "0.1"; "100000000000000000000.0"; "1e+21"; "1.5e-7"; "0.000001"; "0.0"; "0";
     "123456789012345678901234567890"; "1.7976931348623157e+308"; "0.0"; "2.2250738585072014e-308";
     "0.30000000000000004"; "-12.5"].
Proof. vm_compute. reflexivity. Qed.

Example out_of_range : ParseDouble "1e309" = None ∧ ParseDouble "1e999999999999" = None.
Proof. vm_compute. done. Qed.

Lemma marshal_parse_roundtrip_witness :
  let v := VObj [("name", VStr "web"); ("load", VNum "1.50"); ("name", VArr [VNum "1e3"; VNull])] in
  Parse (Marshal v) = Ok (canon v).
Proof.
  intros v. apply (marshal_parse_roundtrip v).
  - vm_compute. repeat split.
  - vm_compute. lia.
Defined.
