(* ===== verification/GoJson.v ===== *)
(** * encoding/json as the server uses it

    Decoding into [map[string]any] and into the typed authorization documents,
    and encoding with [SetEscapeHTML(false)] (internal/api: [mustEncode],
    [appendJSONStringContent], authzdoc.go). *)
From stdpp Require Import pretty.
From S2P Require Import Prelude GoText Json Chefjson Float.
#[local] Open Scope go_scope.

(** ** Decoding into [any] *)

(** [strconv.AppendFloat] as encoding/json writes a float64. *)
Definition json_number (lit : string) : string :=
  match parse_double lit with
  | None => lit
  | Some f =>
      let sign := if f_neg f then "-" else "" in
      if decide (f_mant f = 0%Z) then sign +:+ "0"
      else
        match cut_byte "e" (format_sci f) with
        | None => lit
        | Some (mant, e) =>
            let ds := drop_dots mant in
            let k := Z.of_nat (String.length ds) in
            let x := Atoi e in
            sign +:+
            (if decide (-6 ≤ x < 21)%Z then
               if decide (k ≤ x + 1)%Z then ds +:+ zeros (Z.to_nat (x + 1 - k))
               else if decide (0 ≤ x)%Z then
                 str_take (Z.to_nat (x + 1)) ds +:+ "." +:+ str_drop (Z.to_nat (x + 1)) ds
               else "0." +:+ zeros (Z.to_nat (- x - 1)) +:+ ds
             else str_take 1 ds +:+ (if decide (1 < k)%Z then "." +:+ str_drop 1 ds else "")
                    +:+ "e" +:+ (if decide (0 ≤ x)%Z then "+" else "-") +:+
                    (if decide (0 ≤ x)%Z then two_digits x else pretty (Z.abs x)))
        end
  end.

(** A number beyond a float64 makes the whole decode an error. *)
Fixpoint numbers_fit (v : value) : bool :=
  match v with
  | VNum lit => match parse_double lit with Some _ => true | None => false end
  | VArr l => forallb numbers_fit l
  | VObj ms => forallb (λ m, numbers_fit m.2) ms
  | _ => true
  end.

(** The value as [any] holds it: the last member of a repeated name, numbers as
    float64. *)
Fixpoint any_of (v : value) : value :=
  match v with
  | VNum lit => VNum (json_number lit)
  | VArr l => VArr (map any_of l)
  | VObj ms => VObj (foldl (λ acc m, Set_ acc m.1 (any_of m.2)) [] ms)
  | _ => v
  end.

Definition as_any (v : value) : option value := if numbers_fit v then Some (any_of v) else None.

(** [json.Unmarshal] into [map[string]any]: [Some None] is the nil map that
    [null] leaves. *)
Definition unmarshal_map (raw : string) : option (option (list (string * value))) :=
  match decode false raw with
  | None => None
  | Some v =>
      match as_any v with
      | Some (VObj ms) => Some (Some ms)
      | Some VNull => Some None
      | _ => None
      end
  end.

(** [json.NewDecoder(body).Decode] into [map[string]any]: what follows the first
    value is not read. [EOF] of an empty body is an error too. *)
Definition decode_body_map (body : string) : option (option (list (string * value))) :=
  match parse_value false (2 * String.length body + 2) max_depth body with
  | None => None
  | Some (v, _) =>
      match as_any v with
      | Some (VObj ms) => Some (Some ms)
      | Some VNull => Some None
      | _ => None
      end
  end.

(** Reading a nil map finds nothing. *)
Definition members (m : option (list (string * value))) : list (string * value) := default [] m.

(** [jsonStrings] and [anyStrings]: the strings of an array. *)
Definition elem_string (v : value) : option string := match v with VStr s => Some s | _ => None end.
Definition jsonStrings (v : option value) : list string :=
  match v with Some (VArr l) => omap elem_string l | _ => [] end.

(** ** Typed decoding *)

(** Field names match up to simple case folding. *)
Fixpoint fold_name (s : string) : string :=
  match s with
  | EmptyString => ""
  | String a s1 =>
      let plain := String (lower_char a) (fold_name s1) in
      match s1 with
      | String b s2 =>
          if decide (byte_of a = 0xC5 ∧ byte_of b = 0xBF)%Z then String "s" (fold_name s2)
          else match s2 with
               | String c s3 =>
                   if decide (byte_of a = 0xE2 ∧ byte_of b = 0x84 ∧ byte_of c = 0xAA)%Z
                   then String "k" (fold_name s3) else plain
               | EmptyString => plain
               end
      | EmptyString => plain
      end
  end.

(** Decoding into a [[]string] that already holds [old]: a null element leaves
    what the slot held. *)
Fixpoint fill_strings (old : list string) (l : list value) : option (list string) :=
  match l with
  | [] => Some []
  | v :: l' =>
      match v with
      | VStr s => cons s <$> fill_strings (tail old) l'
      | VNull => cons (default "" (head old)) <$> fill_strings (tail old) l'
      | _ => None
      end
  end.
Definition decode_strings (old : list string) (v : value) : option (list string) :=
  match v with
  | VNull => Some []
  | VArr l => fill_strings old l
  | _ => None
  end.

(** A struct is decoded member by member; one that does not fit is an error. *)
Definition decode_struct {S} (field : S → string → value → option S) (zero : S) (v : value) : option S :=
  match v with
  | VNull => Some zero
  | VObj ms => foldl (λ acc m, match acc with Some s => field s m.1 m.2 | None => None end) (Some zero) ms
  | _ => None
  end.

Record memberDoc := mkMembers { Users : list string; Clients : list string; Groups : list string }.

Definition memberDoc_field (m : memberDoc) (name : string) (v : value) : option memberDoc :=
  let f := fold_name name in
  if decide (f = "users") then (λ l, mkMembers l (Clients m) (Groups m)) <$> decode_strings (Users m) v
  else if decide (f = "clients") then (λ l, mkMembers (Users m) l (Groups m)) <$> decode_strings (Clients m) v
  else if decide (f = "groups") then (λ l, mkMembers (Users m) (Clients m) l) <$> decode_strings (Groups m) v
  else Some m.

Definition decodeMembers (raw : string) : option memberDoc :=
  match decode false raw with
  | Some v => decode_struct memberDoc_field (mkMembers [] [] []) v
  | None => None
  end.

Record aceDoc := mkAce { a_actors : list string; a_groups : list string }.

Definition aceDoc_field (a : aceDoc) (name : string) (v : value) : option aceDoc :=
  let f := fold_name name in
  if decide (f = "actors") then (λ l, mkAce l (a_groups a)) <$> decode_strings (a_actors a) v
  else if decide (f = "groups") then (λ l, mkAce (a_actors a) l) <$> decode_strings (a_groups a) v
  else Some a.

Definition readACEDoc_field (a : aceDoc) (name : string) (v : value) : option aceDoc :=
  if decide (fold_name name = "read") then decode_struct aceDoc_field a v else Some a.

Definition decodeReadACE (raw : string) : option aceDoc :=
  match decode false raw with
  | Some v => decode_struct readACEDoc_field (mkAce [] []) v
  | None => None
  end.

Definition allows (e : aceDoc) (name : string) (member : gset string) : bool :=
  contains_str (a_actors e) name || existsb (λ g, bool_decide (g ∈ member)) (a_groups e).

(** ** Encoding *)

Definition hexDigits (z : Z) : ascii := chr (if decide (z < 10)%Z then 48 + z else 87 + z)%Z.

(** One ASCII byte; [short] writes backspace and form feed as short escapes. *)
Definition json_escape_char (short : bool) (c : ascii) : string :=
  let b := byte_of c in
  if decide (c = quote ∨ c = backslash) then String backslash (String c "")
  else if decide (0x20 ≤ b)%Z then String c ""
  else if decide (b = 8 ∧ short = true)%Z then String backslash "b"
  else if decide (b = 12 ∧ short = true)%Z then String backslash "f"
  else if decide (b = 10)%Z then String backslash "n"
  else if decide (b = 13)%Z then String backslash "r"
  else if decide (b = 9)%Z then String backslash "t"
  else String backslash ("u00" +:+ String (hexDigits (Z.shiftr b 4)) (String (hexDigits (Z.land b 15)) "")).

(** The contents of a JSON string. The fuel is its length: every step consumes
    a byte. *)
Fixpoint json_escape_from (short : bool) (n : nat) (s : string) : string :=
  match n, s with
  | S n', String c s' =>
      if decide (byte_of c < 0x80)%Z then json_escape_char short c +:+ json_escape_from short n' s'
      else
        let '(r, w) := decode_rune s in
        if decide (r = RuneError ∧ w = 1) then replacement +:+ json_escape_from short n' s'
        else if decide (r = 0x2028 ∨ r = 0x2029)%Z then
          String backslash ("u202" +:+ String (hexDigits (Z.land r 15)) "")
            +:+ json_escape_from short n' (str_drop w s)
        else str_take w s +:+ json_escape_from short n' (str_drop w s)
  | _, _ => ""
  end.

(** What encoding/json writes, and what [appendJSONStringContent] appends. *)
Definition json_escape (s : string) : string := json_escape_from true (String.length s) s.
Definition appendJSONStringContent (dst s : string) : string :=
  dst +:+ json_escape_from false (String.length s) s.

(** Map keys are written in sorted order. *)
Definition by_name (a b : string * value) : Prop := String.le a.1 b.1.
#[global] Instance by_name_dec a b : Decision (by_name a b).
Proof. unfold by_name. apply _. Defined.

Fixpoint sorted (v : value) : value :=
  match v with
  | VArr l => VArr (map sorted l)
  | VObj ms => VObj (merge_sort by_name (map (λ m, (m.1, sorted m.2)) ms))
  | _ => v
  end.

Definition mustEncode (v : value) : string := print json_escape (sorted v).

Example encode_sample :
  mustEncode (VObj [("b", VArr [VNum "1"; VBool true]); ("a", VStr (String (chr 8) (String "<" "")))])
  = "{" +:+ print_string id "a" +:+ ":" +:+ print_string id (String backslash "b<") +:+ ","
    +:+ print_string id "b" +:+ ":[1,true]}".
Proof. vm_compute. reflexivity. Qed.

Example number_samples :
  map json_number ["1.0"; "1e21"; "100000000000000000000"; "1e-7"; "0.000001"; "-0"; "1.50"; "123456789"]
  = ["1"; "1e+21"; "100000000000000000000"; "1e-7"; "0.000001"; "-0"; "1.5"; "123456789"].
Proof. vm_compute. reflexivity. Qed.

(** ** What is encoded is read back *)

Lemma scan_plain strict c t n : (0x20 ≤ byte_of c < 0x80)%Z → c ≠ quote → c ≠ backslash →
  scan_string strict (S n) (String c t) =
  match scan_string strict n t with Some (u, r) => Some (String c u, r) | None => None end.
Proof.
  intros Hc Hq Hb. cbn [scan_string]. rewrite !decide_False by (done || lia).
  assert (decode_rune (String c t) = (byte_of c, 1)) as ->.
  { cbn [decode_rune]. by rewrite decide_True by lia. }
  rewrite decide_False by (unfold RuneError; lia). done.
Qed.

(** The witnesses of [json_escape_control], computed for a closed character. *)
Ltac solve_json_escape :=
  match goal with |- (∃ _, json_escape_char ?b ?c = _ ∧ _) ∨ _ =>
    let e := eval vm_compute in (str_drop 1 (json_escape_char b c)) in
    lazymatch e with
    | String "u" ?h => right; exists h
    | String ?x _ => left; exists x
    end; vm_compute; repeat split; done
  end.

Lemma json_escape_control short strict c : (byte_of c < 0x20)%Z →
  (∃ e, json_escape_char short c = String backslash (String e "") ∧ e ≠ "u"%char ∧ short_escape e = Some c) ∨
  (∃ h, json_escape_char short c = String backslash (String "u" h) ∧
        ∀ t, unicode_escape strict (h +:+ t) = Some (String c "", t)).
Proof.
  intros Hin%control_char. revert c Hin. apply Forall_forall. unfold control_chars.
  destruct short, strict; repeat (apply Forall_cons; split; [solve_json_escape|]); by apply Forall_nil.
Qed.

Lemma json_escape_low short strict c t n : (byte_of c < 0x80)%Z →
  scan_string strict (S n) (json_escape_char short c +:+ t) =
  match scan_string strict n t with Some (u, r) => Some (String c u, r) | None => None end.
Proof.
  intros Hc. destruct (decide (c = quote)) as [->|Hq]; [done|].
  destruct (decide (c = backslash)) as [->|Hb]; [done|].
  destruct (decide (0x20 ≤ byte_of c)%Z).
  - unfold json_escape_char. rewrite decide_False, decide_True by (done || tauto).
    by apply scan_plain.
  - destruct (json_escape_control short strict c) as [(e & -> & He & Hs)|(h & -> & Hs)]; [lia| |];
      cbn [String.append scan_string].
    + rewrite decide_False, decide_True, decide_False by done. by rewrite Hs.
    + rewrite decide_False, !decide_True by done. by rewrite Hs.
Qed.

(** A rune that is not ASCII read raw. *)
Lemma scan_rune strict c s r w n t :
  (0x80 ≤ byte_of c)%Z → decode_rune (String c s) = (r, w) → ¬ (r = RuneError ∧ w = 1) →
  scan_string strict (S n) (str_take w (String c s) +:+ t) =
  match scan_string strict n t with
  | Some (u, r) => Some (str_take w (String c s) +:+ u, r) | None => None end.
Proof.
  intros Hc Ed Hok. destruct (decode_rune_high c s r w t Hc Ed Hok) as (Hh & Hw & Hd).
  destruct w as [|w]; [lia|]. cbn [str_take String.append] in *.
  cbn [scan_string]. rewrite !decide_False; [|lia|intros ->; vm_compute in Hc; by apply Hc..].
  rewrite Hd. rewrite decide_False by done.
  assert (∀ a b k, String.length a = k → str_take k (a +:+ b) = a ∧ str_drop k (a +:+ b) = b) as Hsplit.
  { clear. induction a as [|x a IH]; intros b k <-; [by destruct b|].
    simpl. destruct (IH b _ eq_refl) as [-> ->]. done. }
  assert (String.length (str_take w s) = w) as Hlen.
  { clear -Hw. simpl in Hw. assert (w ≤ String.length s) as H by lia. clear Hw. revert s H.
    induction w as [|w IH]; intros [|x s] H; simpl in *; try lia. rewrite IH; lia. }
  cbn [str_take str_drop]. destruct (Hsplit (str_take w s) t w Hlen) as [-> ->]. done.
Qed.

(** The two line separators are the only runes that decode to their code. *)
Lemma line_separator c s r w : decode_rune (String c s) = (r, w) → (r = 0x2028 ∨ r = 0x2029)%Z →
  str_take w (String c s) = encode_rune r ∧ ∀ strict t,
  unicode_escape strict (str_drop 1 ("u202" +:+ String (hexDigits (Z.land r 15)) "") +:+ t)
    = Some (encode_rune r, t).
Proof.
  intros Ed Hr. split.
  - revert Ed. unfold decode_rune.
    pose proof (byte_of_range c) as Hb. destruct (decide (byte_of c < 0x80)%Z); [intros [= <- _]; lia|].
    destruct (decide (0xC2 ≤ byte_of c ≤ 0xDF)%Z).
    { destruct s as [|c1 s]; [intros [= <- _]; unfold RuneError in Hr; lia|]. unfold cont_in.
      case_decide; intros [= <- _]; [|unfold RuneError in Hr; lia]. zlia. }
    destruct (decide (0xE0 ≤ byte_of c ≤ 0xEF)%Z).
    { destruct s as [|c1 [|c2 s]]; try (intros [= <- _]; unfold RuneError in Hr; lia). unfold cont_in.
      pose proof (byte_of_range c1) as Hb1. pose proof (byte_of_range c2) as Hb2.
      destruct (decide (_ ≤ byte_of c1 ≤ _)%Z) as [H1|]; [|intros [= <- _]; unfold RuneError in Hr; lia].
      destruct (decide (_ ≤ byte_of c2 ≤ _)%Z) as [H2|]; [|intros [= <- _]; unfold RuneError in Hr; lia].
      intros [= Hz <-]. assert (0x80 ≤ byte_of c1 ≤ 0xBF)%Z as H1' by (revert H1; repeat case_decide; lia).
      clear H1. assert (byte_of c = 0xE2 ∧ byte_of c1 = 0x80)%Z as [Hc Hc1] by (destruct Hr; zlia).
      assert (byte_of c2 = 0x80 + (r mod 64))%Z as Hc2 by (destruct Hr; zlia).
      cbn [str_take].
      rewrite <-(chr_byte_of c), <-(chr_byte_of c1), <-(chr_byte_of c2), Hc, Hc1, Hc2.
      by destruct Hr as [-> | ->]. }
    destruct (decide (0xF0 ≤ byte_of c ≤ 0xF4)%Z); [|intros [= <- _]; unfold RuneError in Hr; lia].
    destruct s as [|c1 [|c2 [|c3 s]]]; try (intros [= <- _]; unfold RuneError in Hr; lia). unfold cont_in.
    destruct (decide (_ ≤ byte_of c1 ≤ _)%Z) as [H1|]; [|intros [= <- _]; unfold RuneError in Hr; lia].
    destruct (decide (_ ≤ byte_of c2 ≤ _)%Z) as [H2|]; [|intros [= <- _]; unfold RuneError in Hr; lia].
    destruct (decide (_ ≤ byte_of c3 ≤ _)%Z) as [H3|]; [|intros [= <- _]; unfold RuneError in Hr; lia].
    intros [= Hz _]. exfalso. revert H1. repeat case_decide; intros; destruct Hr; zlia.
  - intros strict t. destruct Hr as [-> | ->]; destruct strict; vm_compute; done.
Qed.

Lemma json_escape_scan_go short strict rest m : ∀ s n, valid_utf8_go m s = true → String.length s ≤ m →
  String.length (json_escape_from short m s) < n →
  scan_string strict n (json_escape_from short m s +:+ String quote rest) = Some (s, rest).
Proof.
  induction m as [|m IH]; intros s n Hv Hm Hn;
    (destruct n as [|n]; [lia|]); (destruct s as [|c s]; [done|]); simpl in Hm; [lia|].
  cbn [valid_utf8_go] in Hv. destruct (decode_rune (String c s)) as [r w] eqn:Ed.
  destruct (decide (r = RuneError ∧ w = 1)) as [|Hok]; [done|].
  cbn [json_escape_from] in *. destruct (decide (byte_of c < 0x80)%Z) as [Hc|Hc].
  - cbn [decode_rune] in Ed. rewrite decide_True in Ed by done. injection Ed as <- <-.
    rewrite app_string_assoc, json_escape_low by done. rewrite IH; [done|done|lia|].
    rewrite length_app_string in Hn. assert (1 ≤ String.length (json_escape_char short c)); [|lia].
    unfold json_escape_char. repeat case_decide; simpl; lia.
  - rewrite Ed in Hn |- *. rewrite decide_False in Hn |- * by done.
    destruct (decode_rune_high c s r w "" ltac:(lia) Ed Hok) as (_ & Hw & _).
    assert (String.length (str_drop w (String c s)) ≤ m) as Hlen.
    { rewrite length_str_drop. simpl. lia. }
    destruct (decide (r = 0x2028 ∨ r = 0x2029)%Z) as [Hr|Hr].
    + destruct (line_separator c s r w Ed Hr) as [Ht Hu].
      rewrite app_string_assoc. cbn [String.append scan_string].
      rewrite decide_False, !decide_True by done.
      pose proof (Hu strict (json_escape_from short m (str_drop w (String c s)) +:+ String quote rest)) as Hu'.
      cbn [String.append str_drop] in Hu'. rewrite Hu'.
      rewrite length_app_string in Hn. cbn [String.append String.length] in Hn.
      rewrite IH; [|done|done|lia]. rewrite <-Ht. by rewrite str_take_drop.
    + rewrite app_string_assoc, (scan_rune strict c s r w) by (done || lia).
      rewrite length_app_string in Hn.
      assert (1 ≤ String.length (str_take w (String c s))) by (destruct w; [lia|]; simpl; lia).
      rewrite IH; [|done|done|lia]. by rewrite str_take_drop.
Qed.

Lemma json_escape_scan strict s rest n : valid_utf8 s = true → String.length (json_escape s) < n →
  scan_string strict n (json_escape s +:+ String quote rest) = Some (s, rest).
Proof. intros Hv Hn. by apply json_escape_scan_go. Qed.

(** Values [mustEncode] writes faithfully: text is valid UTF-8 and numbers are
    in the form a float64 is written in. *)
Abbreviation encodable := (printable (λ s, valid_utf8 s = true)).

Lemma sorted_obj ms : sorted (VObj ms) = VObj (merge_sort by_name (map (λ m, (m.1, sorted m.2)) ms)).
Proof. done. Qed.

Lemma encodable_sorted v : encodable v → encodable (sorted v).
Proof.
  induction v as [| | | |l IH|ms IH] using value_ind'; try done; intros Hv.
  - apply printable_arr in Hv. apply (printable_arr _ (map sorted l)). apply Forall_fmap.
    rewrite Forall_forall in IH, Hv |- *. intros x Hx. apply IH; auto.
  - apply printable_obj in Hv. rewrite sorted_obj. apply printable_obj.
    rewrite merge_sort_Permutation. apply Forall_fmap. rewrite Forall_forall in IH, Hv |- *.
    intros m Hm. destruct (Hv m Hm). split; [done|]. by apply IH.
Qed.

Lemma max_list_perm l k : l ≡ₚ k → max_list l = max_list k.
Proof. induction 1; simpl in *; lia. Qed.

Lemma depth_sorted v : depth (sorted v) = depth v.
Proof.
  induction v as [| | | |l IH|ms IH] using value_ind'; try done; simpl; f_equal.
  - f_equal. rewrite map_map. by apply map_ext_Forall.
  - erewrite max_list_perm; [|apply fmap_Permutation, merge_sort_Permutation].
    f_equal. rewrite <-list_fmap_compose. by apply (map_ext_Forall (λ m, depth (sorted m.2)) (λ m, depth m.2)).
Qed.

Lemma decode_mustEncode strict v : encodable v → depth v ≤ max_depth →
  decode strict (mustEncode v) = Some (sorted v).
Proof.
  intros Hv Hd. unfold mustEncode.
  apply decode_print with (ok := λ s, valid_utf8 s = true); [|by apply encodable_sorted|by rewrite depth_sorted].
  apply json_escape_scan.
Qed.
