(* ===== verification/Normalize.v ===== *)
(** * chefjson.Normalize: re-encoding a request body token by token

    The loop over the decoder's tokens with its stack of open containers
    (internal/chefjson/chefjson.go), and that it writes what parsing the body
    and marshalling the tree would write. *)
From S2P Require Import Prelude GoText Json Chefjson Float.
#[local] Open Scope go_scope.

(** The tokens jsontext.Decoder hands out for a value: [Begin] and [End] of an
    object ([true]) or an array, and the scalars. A name is a string token. *)
Inductive token := Begin (object : bool) | End_ (object : bool) | Str (s : string) | Num (lit : string) | Word (w : string).

Section Tokens.
Variable tokens : value → list token.
Fixpoint member_tokens (ms : list (string * value)) : list token :=
  match ms with [] => [] | (k, v) :: ms' => Str k :: tokens v ++ member_tokens ms' end.
End Tokens.

Fixpoint tokens (v : value) : list token :=
  match v with
  | VObj ms => Begin true :: member_tokens tokens ms ++ [End_ true]
  | VArr l => Begin false :: concat (map tokens l) ++ [End_ false]
  | VStr s => [Str s]
  | VNum lit => [Num lit]
  | VBool true => [Word "true"]
  | VBool false => [Word "false"]
  | VNull => [Word "null"]
  end.

(** An open container: whether it is an object, and the tokens it has held. *)
Record frame := mkFrame { object : bool; n : nat }.

Section Normalize.
Context `{Double}.

(** The separator before a token of the innermost container, which counts it. *)
Definition separate (stack : list frame) (out : string) : list frame * string :=
  match stack with
  | [] => ([], out)
  | top :: rest =>
      (mkFrame (object top) (S (n top)) :: rest,
       if object top && Nat.odd (n top) then out +:+ ":" else if decide (0 < n top) then out +:+ "," else out)
  end.

(** One turn of the loop. A string is re-escaped; a literal without escapes is
    copied, which is the same bytes ([literal_is_escaped]). *)
Definition step (t : token) (stack : list frame) (out : string) : result (list frame * string) :=
  match t with
  | End_ o => Ok (tail stack, out +:+ (if o then "}" else "]"))
  | _ =>
      let '(stack, out) := separate stack out in
      match t with
      | Str s => Ok (stack, appendString out s)
      | Num lit => match appendNumber out lit with Ok out' => Ok (stack, out') | Err e => Err e end
      | Begin o => Ok (mkFrame o 0 :: stack, out +:+ (if o then "{" else "["))
      | Word w => Ok (stack, out +:+ w)
      | End_ _ => Ok (stack, out)
      end
  end.

(** The loop: it ends when the stack is empty after a token; what is left of
    the tokens is returned too. *)
Fixpoint loop (ts : list token) (stack : list frame) (out : string) : result (string * list token) :=
  match ts with
  | [] => Err (ErrOther "unexpected EOF")
  | t :: ts' =>
      match step t stack out with
      | Err e => Err e
      | Ok ([], out') => Ok (out', ts')
      | Ok (stack', out') => loop ts' stack' out'
      end
  end.

Definition Normalize (body : string) : result string :=
  match decodeOne body true with
  | Err e => Err e
  | Ok v => match loop (tokens v) [] "" with Ok (out, _) => Ok out | Err e => Err e end
  end.

(** Every number of the tree is in the range of a double, or an integer. *)
Fixpoint numbers_ok (v : value) : bool :=
  match v with
  | VNum lit => is_Ok (appendNumber "" lit)
  | VArr l => forallb numbers_ok l
  | VObj ms => forallb (λ m, numbers_ok m.2) ms
  | _ => true
  end.

Lemma appendNumber_ok dst lit : is_Ok (appendNumber "" lit) = true →
  appendNumber dst lit = Ok (dst +:+ match appendNumber "" lit with Ok out => out | Err _ => lit end).
Proof.
  unfold appendNumber. repeat case_match; simplify_eq/=; try done. intros _. by rewrite appendFloat_app.
Qed.

Lemma appendNumber_err dst lit : is_Ok (appendNumber "" lit) = false → is_Ok (appendNumber dst lit) = false.
Proof. unfold appendNumber. by repeat case_match. Qed.

(** The loop after a token: over, or going on. *)
Definition resume (ts : list token) (stack : list frame) (out : string) : result (string * list token) :=
  match stack with [] => Ok (out, ts) | _ => loop ts stack out end.

Lemma loop_cons t ts stack out :
  loop (t :: ts) stack out = match step t stack out with Ok (st, out') => resume ts st out' | Err e => Err e end.
Proof. cbn [loop]. by destruct (step t stack out) as [[[|] ]|]. Qed.

(** The loop over the tokens of [v] writes [v], or fails on one of its numbers. *)
Definition runs (v : value) : Prop := ∀ ts stack out,
  if numbers_ok v
  then loop (tokens v ++ ts) stack out
       = resume ts (separate stack out).1 (appendValue (separate stack out).2 v)
  else is_Ok (loop (tokens v ++ ts) stack out) = false.

Lemma separate_cons f stack out :
  separate (f :: stack) out =
  (mkFrame (object f) (S (n f)) :: stack,
   if object f && Nat.odd (n f) then out +:+ ":" else if decide (0 < n f) then out +:+ "," else out).
Proof. done. Qed.

Lemma odd_double i : Nat.odd (2 * i) = false ∧ Nat.odd (S (2 * i)) = true.
Proof. rewrite Nat.odd_succ, Nat.even_mul, Nat.odd_mul. done. Qed.

Lemma elems_run l : Forall runs l → ∀ i ts stack out,
  if forallb numbers_ok l
  then loop (concat (map tokens l) ++ End_ false :: ts) (mkFrame false i :: stack) out
       = resume ts stack (appendElems appendValue (bool_decide (i = 0)) out l)
  else is_Ok (loop (concat (map tokens l) ++ End_ false :: ts) (mkFrame false i :: stack) out) = false.
Proof.
  induction 1 as [|v l Hv Hl IH]; intros i ts stack out; [done|].
  cbn [forallb map concat]. rewrite <-app_assoc.
  specialize (Hv (concat (map tokens l) ++ End_ false :: ts) (mkFrame false i :: stack) out).
  destruct (numbers_ok v); cbn [andb]; [|done]. rewrite Hv, separate_cons. cbn [fst snd object n andb resume].
  specialize (IH (S i) ts stack). destruct (forallb numbers_ok l).
  - rewrite IH. cbn [appendElems]. f_equal. rewrite (bool_decide_false (S i = 0)) by done. f_equal. f_equal.
    destruct i; [done|]. by rewrite decide_True, bool_decide_false by lia.
  - apply IH.
Qed.

Lemma members_run ms : Forall (λ m, runs m.2) ms → ∀ i ts stack out,
  if forallb (λ m, numbers_ok m.2) ms
  then loop (member_tokens tokens ms ++ End_ true :: ts) (mkFrame true (2 * i) :: stack) out
       = resume ts stack (appendMembers appendValue (bool_decide (i = 0)) out ms)
  else is_Ok (loop (member_tokens tokens ms ++ End_ true :: ts) (mkFrame true (2 * i) :: stack) out) = false.
Proof.
  induction 1 as [|[k v] ms Hv Hms IH]; intros i ts stack out; [done|]. destruct (odd_double i) as [He Ho].
  cbn [forallb member_tokens]. cbn [fst snd app] in *. rewrite <-app_assoc, loop_cons.
  cbn [step]. rewrite separate_cons. cbn [object n andb]. rewrite He. cbn [resume].
  set (out1 := appendString _ k).
  specialize (Hv (member_tokens tokens ms ++ End_ true :: ts) (mkFrame true (S (2 * i)) :: stack) out1).
  destruct (numbers_ok v); cbn [andb]; [|done]. rewrite Hv, separate_cons. cbn [fst snd object n andb resume].
  rewrite Ho. specialize (IH (S i) ts stack). replace (S (S (2 * i))) with (2 * S i) by lia.
  destruct (forallb (λ m, numbers_ok m.2) ms).
  - rewrite IH. cbn [appendMembers]. f_equal. rewrite (bool_decide_false (S i = 0)) by done. f_equal. f_equal.
    unfold out1. f_equal. f_equal. destruct i; [done|]. by rewrite decide_True, bool_decide_false by lia.
  - apply IH.
Qed.

Lemma value_runs v : runs v.
Proof.
  induction v as [|[]|lit|s|l IH|ms IH] using value_ind'; intros ts stack out; cbn [numbers_ok tokens app].
  - rewrite loop_cons. cbn [step]. by destruct (separate stack out).
  - rewrite loop_cons. cbn [step]. by destruct (separate stack out).
  - rewrite loop_cons. cbn [step]. by destruct (separate stack out).
  - rewrite loop_cons. cbn [step appendValue]. destruct (separate stack out) as [st o]. cbn [fst snd].
    destruct (is_Ok (appendNumber "" lit)) eqn:E.
    + by rewrite appendNumber_ok.
    + apply (appendNumber_err o) in E. by destruct (appendNumber o lit).
  - rewrite loop_cons. cbn [step]. by destruct (separate stack out).
  - rewrite <-app_assoc. cbn [app]. rewrite loop_cons. cbn [step]. destruct (separate stack out) as [st o].
    cbn [fst snd resume]. pose proof (elems_run l IH 0 ts st (o +:+ "[")) as Hr.
    by destruct (forallb numbers_ok l).
  - rewrite <-app_assoc. cbn [app]. rewrite loop_cons. cbn [step]. destruct (separate stack out) as [st o].
    cbn [fst snd resume]. pose proof (members_run ms IH 0 ts st (o +:+ "{")) as Hr.
    by destruct (forallb _ ms).
Qed.

(** Normalizing a body token by token writes exactly what parsing it and
    marshalling the tree writes, and fails exactly when the body does not parse
    or one of its numbers is beyond a double: the stack of open containers puts
    every separator where the tree has it, at any depth. *)
Theorem normalize_is_marshal (body : string) :
  match Parse body with
  | Err _ => is_Ok (Normalize body) = false
  | Ok v => if numbers_ok v then Normalize body = Ok (Marshal v) else is_Ok (Normalize body) = false
  end.
Proof.
  unfold Normalize, Parse. destruct (decodeOne body true) as [v|e]; [|done].
  pose proof (value_runs v [] [] "") as Hr. rewrite app_nil_r in Hr.
  destruct (numbers_ok v); [by rewrite Hr|]. by destruct (loop (tokens v) [] "") as [[]|].
Qed.

(** What [Normalize] accepts is the text of a tree. *)
Lemma Normalize_Ok body out : Normalize body = Ok out →
  ∃ v, Parse body = Ok v ∧ numbers_ok v = true ∧ out = Marshal v.
Proof.
  unfold Normalize, Parse. destruct (decodeOne body true) as [v|e]; [|done].
  pose proof (value_runs v [] [] "") as Hr. rewrite app_nil_r in Hr.
  destruct (numbers_ok v) eqn:En.
  - rewrite Hr. intros [= <-]. eauto.
  - by destruct (loop (tokens v) [] "") as [[]|].
Qed.

Lemma Normalize_Parse body v : Parse body = Ok v → numbers_ok v = true → Normalize body = Ok (Marshal v).
Proof.
  unfold Normalize, Parse. intros -> Hn. pose proof (value_runs v [] [] "") as Hr. rewrite app_nil_r, Hn in Hr. by rewrite Hr.
Qed.
End Normalize.

(** ** Copying a literal *)

(** The text of a string that has no escape is that text escaped. *)
Lemma scan_plain_literal n s u rest : ¬ str_in backslash s → scan_string true n s = Some (u, rest) →
  s = u +:+ String quote rest ∧ escape u = u.
Proof.
  revert s u. induction n as [|n IH]; intros s u Hb; [done|]. cbn [scan_string].
  destruct s as [|c s]; [done|]. destruct (decide (c = quote)) as [->|Hq]; [by intros [= <- <-]|].
  rewrite decide_False by (intros ->; apply Hb; by left).
  destruct (decide (byte_of c < 0x20)%Z) as [|Hc]; [done|].
  destruct (decode_rune (String c s)) as [r w] eqn:Ed. destruct (decide (r = RuneError ∧ w = 1)) as [|Hok]; [done|].
  destruct (scan_string true n (str_drop w (String c s))) as [[u' r']|] eqn:Es; [|done].
  intros [= <- <-].
  assert (¬ str_in backslash (str_drop w (String c s))) as Hb'.
  { intros Hi. apply Hb. rewrite <-(str_take_drop w (String c s)). apply str_in_app. by right. }
  destruct (IH _ _ Hb' Es) as [E1 E2]. split.
  { by rewrite app_string_assoc, <-E1, str_take_drop. }
  destruct (decide (byte_of c < 0x80)%Z) as [Hlow|Hhigh].
  - cbn [decode_rune] in Ed. rewrite decide_True in Ed by done. injection Ed as <- <-.
    cbn [str_take String.append escape]. rewrite E2. unfold escape_char.
    rewrite decide_False, decide_True; [done|lia|].
    intros [->| ->]; [done|]. apply Hb. by left.
  - destruct (decode_rune_high c s r w "" ltac:(lia) Ed Hok) as (Hh & _ & _).
    rewrite escape_high by done. by rewrite E2.
Qed.

Lemma literal_is_escaped n s u : ¬ str_in backslash s → scan_string true n s = Some (u, "") →
  String quote s = print_string escape u.
Proof.
  intros Hb Hs. destruct (scan_plain_literal n s u "" Hb Hs) as [-> E]. unfold print_string. by rewrite E.
Qed.
