(* ===== verification/Stored.v ===== *)
(** * What the server stores, it reads back

    The trees [chefjson.Parse] returns are the trees [chefjson.Marshal] writes
    faithfully: their text is valid UTF-8, their numbers and the form they are
    stored in are JSON numbers, and they nest no deeper than the decoder
    allows. So a document that was accepted once is read back as the tree it
    was. *)
From stdpp Require Import pretty.
From S2P Require Import Prelude GoText Json Chefjson Float Normalize.
#[local] Open Scope go_scope.

(** ** Decoded text is valid UTF-8 *)

Lemma valid_go_fuel n : ∀ m s, String.length s ≤ n → String.length s ≤ m → valid_utf8_go n s = valid_utf8_go m s.
Proof.
  induction n as [|n IH]; intros m s Hn Hm; (destruct s as [|c s]; [by destruct m|]); simpl in Hn, Hm; [lia|].
  destruct m as [|m]; [lia|]. cbn [valid_utf8_go]. pose proof (decode_rune_width_pos c s) as Hw.
  destruct (decode_rune (String c s)) as [r w]. cbn in Hw. case_decide; [done|].
  apply IH; rewrite length_str_drop; simpl; lia.
Qed.

Lemma str_take_drop_app a b : str_drop (String.length a) (a +:+ b) = b.
Proof. by induction a as [|c a IH]; [destruct b|]. Qed.

Lemma length_str_take w s : w ≤ String.length s → String.length (str_take w s) = w.
Proof. revert s. induction w as [|w IH]; intros [|c s] Hw; simpl in *; try lia. rewrite IH; lia. Qed.

(** A rune in front of valid text. *)
Lemma valid_rune_app t u r : t ≠ "" → decode_rune (t +:+ u) = (r, String.length t) →
  ¬ (r = RuneError ∧ String.length t = 1) → valid_utf8 u = true → valid_utf8 (t +:+ u) = true.
Proof.
  intros Hne Ed Hok Hu. unfold valid_utf8. destruct t as [|c t]; [done|].
  cbn [String.append String.length valid_utf8_go] in *. rewrite Ed, decide_False by done.
  cbn [str_drop]. rewrite str_take_drop_app. rewrite <-Hu. apply valid_go_fuel; [|done].
  rewrite length_app_string. lia.
Qed.

Lemma valid_encode_rune r u : scalar r → valid_utf8 u = true → valid_utf8 (encode_rune r +:+ u) = true.
Proof.
  intros Hr Hu. apply valid_rune_app with (r := r); [| |  |done].
  - unfold encode_rune. by repeat case_decide.
  - by apply decode_encode_rune.
  - intros [-> Hl]. by vm_compute in Hl.
Qed.

Lemma hex_val_range c x : hex_val c = Some x → (0 ≤ x < 16)%Z.
Proof. unfold hex_val. repeat case_decide; intros [= <-]; lia. Qed.

Lemma hex4_range s z r : hex4 s = Some (z, r) → (0 ≤ z ≤ 0xFFFF)%Z.
Proof.
  unfold hex4. destruct s as [|a [|b [|c [|d s]]]]; try done.
  destruct (hex_val a) as [x|] eqn:Ea; [|done]. destruct (hex_val b) as [y|] eqn:Eb; [|done].
  destruct (hex_val c) as [v|] eqn:Ec; [|done]. destruct (hex_val d) as [w|] eqn:Ed; [|done].
  apply hex_val_range in Ea, Eb, Ec, Ed. intros [= <- <-]. lia.
Qed.

Lemma unicode_escape_scalar strict s t r : unicode_escape strict s = Some (t, r) → ∃ z, scalar z ∧ t = encode_rune z.
Proof.
  unfold unicode_escape, scalar. destruct (hex4 s) as [[z s1]|] eqn:E1; [|done]. apply hex4_range in E1.
  case_decide; [|intros [= <- <-]; exists z; split; [lia|done]].
  assert ((if strict then None else Some (replacement, s1)) = Some (t, r) →
    ∃ z, ((0 ≤ z ≤ 0x10FFFF) ∧ ¬ (0xD800 ≤ z ≤ 0xDFFF))%Z ∧ t = encode_rune z) as Hlone.
  { destruct strict; [done|]. intros [= <- <-]. exists RuneError. split; [|done]. unfold RuneError. lia. }
  destruct (cut_prefix _ s1) as [s2|]; [|done]. destruct (hex4 s2) as [[z2 s3]|] eqn:E2; [|done].
  apply hex4_range in E2. case_decide; [|done]. intros [= <- <-]. eexists. split; [|done]. lia.
Qed.

Lemma short_escape_ascii e x : short_escape e = Some x → (byte_of x < 0x80)%Z.
Proof.
  unfold short_escape. destruct (decide (e ∈ _)) as [Hin|_].
  - intros [= <-]. apply list_elem_of_In in Hin. by repeat destruct Hin as [<-|Hin]; [..|done].
  - repeat case_decide; by intros [= <-].
Qed.

Lemma scan_string_valid strict n s u r : scan_string strict n s = Some (u, r) → valid_utf8 u = true.
Proof.
  revert s u r. induction n as [|n IH]; intros s u r; [done|]. cbn [scan_string].
  assert (∀ t s', (∀ u, valid_utf8 u = true → valid_utf8 (t +:+ u) = true) →
    match scan_string strict n s' with Some (u, r') => Some (t +:+ u, r') | None => None end = Some (u, r) →
    valid_utf8 u = true) as Hmore.
  { intros t s' Ht. destruct (scan_string strict n s') as [[u' r']|] eqn:E; [|done].
    intros [= <- <-]. by apply Ht, (IH _ _ _ E). }
  destruct s as [|c s]; [done|]. case_decide; [by intros [= <- <-]|]. case_decide.
  - destruct s as [|e s]; [done|]. case_decide.
    + destruct (unicode_escape strict s) as [[t r']|] eqn:E; [|done].
      apply unicode_escape_scalar in E as (z & Hz & ->). apply Hmore. intros u' Hu'. by apply valid_encode_rune.
    + destruct (short_escape e) as [x|] eqn:E; [|done]. apply short_escape_ascii in E.
      apply Hmore. intros u' Hu'. apply valid_rune_app with (r := byte_of x); try done.
      * cbn [String.append decode_rune]. by rewrite decide_True.
      * unfold RuneError. lia.
  - case_decide; [done|]. destruct (decode_rune (String c s)) as [z w] eqn:Ed.
    case_decide as Hok.
    { destruct strict; [done|]. apply Hmore. intros u' Hu'. apply valid_encode_rune; [|done].
      unfold scalar, RuneError. lia. }
    apply Hmore. intros u' Hu'.
    destruct (decide (byte_of c < 0x80)%Z) as [Hc|Hc].
    + cbn [decode_rune] in Ed. rewrite decide_True in Ed by done. injection Ed as <- <-.
      apply valid_rune_app with (r := byte_of c); try done. cbn [String.append decode_rune str_take]. by rewrite decide_True.
    + destruct (decode_rune_high c s z w u' ltac:(lia) Ed Hok) as (_ & Hw & Hd).
      apply valid_rune_app with (r := z); try done.
      * destruct w; [lia|done].
      * by rewrite length_str_take by lia.
      * rewrite length_str_take by lia. lia.
Qed.

(** ** Number literals *)

Definition all_digits (s : string) : Prop := str_forall digit s = true.

(** Text that does not go on with a digit. *)
Definition stops (s : string) : Prop := match s with String c _ => digit c = false | EmptyString => True end.

Lemma span_digits_all d rest : all_digits d → stops rest → span_digits (d +:+ rest) = (d, rest).
Proof.
  unfold all_digits. induction d as [|c d IH]; intros Hd Hs.
  - destruct rest as [|c rest]; [done|]. cbn in *. by rewrite Hs.
  - cbn in *. apply andb_prop in Hd as [-> Hd]. by rewrite (IH Hd Hs).
Qed.

Lemma span_digits_spec s d r : span_digits s = (d, r) → all_digits d.
Proof.
  unfold all_digits. revert d r. induction s as [|c s IH]; intros d r; cbn; [by intros [= <- _]|].
  destruct (digit c) eqn:Ec; [|by intros [= <- _]]. destruct (span_digits s) as [d' r'].
  intros [= <- <-]. cbn. rewrite Ec. cbn. by eapply IH.
Qed.

Lemma digits1_spec s d r : digits1 s = Some (d, r) → d ≠ "" ∧ all_digits d.
Proof.
  unfold digits1. destruct (span_digits s) as [[|c d'] r'] eqn:E; [done|]. intros [= <- <-].
  split; [done|]. by eapply span_digits_spec.
Qed.

Lemma digits1_all d rest : d ≠ "" → all_digits d → stops rest → digits1 (d +:+ rest) = Some (d, rest).
Proof. intros Hne Hd Hs. unfold digits1. rewrite span_digits_all by done. by destruct d. Qed.

(** The parts of a number. *)
Definition int_form (i : string) : Prop :=
  i = "0" ∨ ∃ c d, digit c = true ∧ c ≠ "0"%char ∧ all_digits d ∧ i = String c d.
Definition frac_form (f : string) : Prop := f = "" ∨ ∃ d, d ≠ "" ∧ all_digits d ∧ f = String "." d.
Definition exp_form (e : string) : Prop :=
  e = "" ∨ ∃ c sg d, (c = "e"%char ∨ c = "E"%char) ∧ (sg = "" ∨ sg = "+" ∨ sg = "-") ∧
    d ≠ "" ∧ all_digits d ∧ e = String c (sg +:+ d).
Definition number_form (lit : string) : Prop := ∃ sg i f e,
  (sg = "" ∨ sg = "-") ∧ int_form i ∧ frac_form f ∧ exp_form e ∧ lit = sg +:+ i +:+ f +:+ e.

Lemma exp_stops e : exp_form e → stops e.
Proof. by intros [-> | (c & sg & d & [-> | ->] & _ & _ & _ & ->)]. Qed.

Lemma frac_stops f e : frac_form f → exp_form e → stops (f +:+ e).
Proof. intros [-> | (d & _ & _ & ->)] He; [by apply exp_stops|done]. Qed.

Lemma scan_exp_form e : exp_form e → scan_exp e = Some (e, "").
Proof.
  intros [-> | (c & sg & d & Hc & Hsg & Hne & Hd & ->)]; [done|]. cbn [scan_exp].
  rewrite decide_True by tauto.
  assert (digits1 d = Some (d, "")) as E by (rewrite <-(app_string_nil_r d) at 1; by apply digits1_all).
  destruct Hsg as [-> | [-> | ->]]; cbn [String.append]; [|decide_literals; by rewrite E..].
  destruct d as [|x d]; [done|]. cbn in Hd. unfold all_digits in Hd. cbn in Hd.
  apply andb_prop in Hd as [Hx _]. rewrite decide_False; [by rewrite E|].
  by intros [-> | ->].
Qed.

Lemma scan_frac_form f e : frac_form f → exp_form e → scan_frac (f +:+ e) = Some (f, e).
Proof.
  intros [-> | (d & Hne & Hd & ->)] He; cbn [String.append].
  - destruct He as [-> | (c & sg & d & [-> | ->] & _ & _ & _ & ->)]; done.
  - cbn [scan_frac]. rewrite decide_True by done. rewrite digits1_all; [done..|by apply exp_stops].
Qed.

Lemma number_of_form lit : number_form lit → number lit.
Proof.
  intros (sg & i & f & e & Hsg & Hi & Hf & He & ->). unfold number, scan_number.
  assert (∀ rest, stops rest → (match i +:+ rest with String c s2 => if decide (c = "0"%char) then Some ("0", s2) else digits1 (i +:+ rest)
    | EmptyString => None end) = Some (i, rest)) as Hint.
  { intros rest Hs. destruct Hi as [-> | (c & d & Hc & H0 & Hd & ->)]; [done|]. cbn [String.append]. rewrite decide_False by done.
    apply (digits1_all (String c d)); [done| |done]. unfold all_digits. cbn. by rewrite Hc. }
  specialize (Hint (f +:+ e) (frac_stops f e Hf He)).
  assert (∃ c t, i +:+ f +:+ e = String c t ∧ c ≠ "-"%char) as (c & t & Et & Hc).
  { destruct Hi as [-> | (c & d & Hc & H0 & Hd & ->)]; cbn; eexists _, _; (split; [done|]); [done|].
    by intros ->. }
  destruct Hsg as [-> | ->]; cbn [String.append].
  - rewrite Et in Hint |- *. rewrite decide_False by done. rewrite Hint.
    rewrite scan_frac_form, scan_exp_form by done. cbn [String.append]. by rewrite Et.
  - rewrite decide_True by done. rewrite Hint. rewrite scan_frac_form, scan_exp_form by done. done.
Qed.

Lemma scan_number_form s lit r : scan_number s = Some (lit, r) → number_form lit.
Proof.
  unfold scan_number.
  assert (∀ sg s1, sg = "" ∨ sg = "-" →
    match match s1 with String c s2 => if decide (c = "0"%char) then Some ("0", s2) else digits1 s1
          | EmptyString => None end with
    | None => None
    | Some (i, s3) => match scan_frac s3 with None => None | Some (f, s4) =>
        match scan_exp s4 with None => None | Some (e, s5) => Some (sg +:+ i +:+ f +:+ e, s5) end end
    end = Some (lit, r) → number_form lit) as Hgo.
  { intros sg s1 Hsg. destruct s1 as [|x s1]; [done|].
    destruct (if decide (x = "0"%char) then Some ("0", s1) else digits1 (String x s1)) as [[i s3]|] eqn:Ei; [|done].
    destruct (scan_frac s3) as [[f s4]|] eqn:Ef; [|done].
    destruct (scan_exp s4) as [[e s5]|] eqn:Ee; [|done]. intros [= <- <-].
    exists sg, i, f, e. split_and!; try done.
    - destruct (decide (x = "0"%char)); [injection Ei as <- <-; by left|]. right.
      unfold digits1 in Ei. cbn [span_digits] in Ei. destruct (digit x) eqn:Ex; [|done].
      destruct (span_digits s1) as [d q] eqn:Es. injection Ei as <- <-.
      exists x, d. split_and!; try done. by eapply span_digits_spec.
    - unfold scan_frac in Ef. destruct s3 as [|c s3]; [injection Ef as <- <-; by left|].
      case_decide; [|injection Ef as <- <-; by left]. subst.
      destruct (digits1 s3) as [[d q]|] eqn:Ed; [|done]. injection Ef as <- <-.
      apply digits1_spec in Ed as []. right. eauto.
    - unfold scan_exp in Ee. destruct s4 as [|c s4]; [injection Ee as <- <-; by left|].
      case_decide as Hc; [|injection Ee as <- <-; by left].
      destruct (match s4 with EmptyString => _ | String _ _ => _ end) as [g s2] eqn:Eg.
      destruct (digits1 s2) as [[d q]|] eqn:Ed; [|done]. injection Ee as <- <-.
      apply digits1_spec in Ed as [? ?]. right. exists c, g, d. split_and!; try done.
      destruct s4 as [|y s4]; [injection Eg as <- <-; by left|].
      case_decide as Hy; injection Eg as <- <-; [|by left]. right. destruct Hy as [-> | ->]; auto. }
  destruct s as [|c s]; [done|]. case_decide; [apply (Hgo "-" s); by right|apply (Hgo "" (String c s)); by left].
Qed.

(** ** The stored form of a number is a number *)

Lemma pretty_char_digit (x : N) : (x < 10)%N →
  digit (pretty_N_char x) = true ∧ (byte_of (pretty_N_char x) - 48)%Z = Z.of_N x.
Proof.
  intros Hx. assert (x = 0 ∨ x = 1 ∨ x = 2 ∨ x = 3 ∨ x = 4 ∨ x = 5 ∨ x = 6 ∨ x = 7 ∨ x = 8 ∨ x = 9)%N
    as Hcases by lia. by repeat destruct Hcases as [->|Hcases]; [..|subst].
Qed.

(** The decimal text of a positive integer: digits, the first one not zero. *)
Lemma pretty_pos_form (x : N) : (0 < x)%N → ∀ s, ∃ c d,
  pretty_N_go x s = String c (d +:+ s) ∧ digit c = true ∧ c ≠ "0"%char ∧ all_digits d.
Proof.
  induction (N.lt_wf_0 x) as [x _ IH]; intros Hx s. rewrite pretty_N_go_step by lia.
  destruct (decide (x < 10)%N) as [Hlt|Hge].
  - rewrite N.div_small, pretty_N_go_0, N.mod_small by done. exists (pretty_N_char x), "".
    destruct (pretty_char_digit x Hlt) as [Hd Hv]. split_and!; try done. intros E. rewrite E in Hv.
    change (byte_of "0" - 48)%Z with 0%Z in Hv. lia.
  - destruct (IH (x `div` 10)%N) with (s := String (pretty_N_char (x `mod` 10)) s) as (c & d & -> & Hc & H0 & Hd).
    + apply N.div_lt; lia.
    + apply N.div_str_pos. lia.
    + destruct (pretty_char_digit (x `mod` 10)) as [Hm _]; [apply N.mod_lt; lia|].
      exists c, (d +:+ String (pretty_N_char (x `mod` 10)) ""). rewrite app_string_assoc. split_and!; try done.
      unfold all_digits in *. rewrite str_forall_app, Hd. cbn. by rewrite Hm.
Qed.

Lemma pretty_Z_pos (z : Z) : (1 ≤ z)%Z → ∃ c d,
  pretty z = String c d ∧ digit c = true ∧ c ≠ "0"%char ∧ all_digits d.
Proof.
  intros Hz. destruct z as [|p|p]; try lia. destruct (pretty_pos_form (N.pos p) ltac:(lia) "") as (c & d & E & H).
  exists c, d. change (pretty (Z.pos p)) with (pretty_N_go (N.pos p) ""). rewrite E, app_string_nil_r. tauto.
Qed.

Lemma pretty_Z_signed (z : Z) : ∃ sg d, (sg = if decide (z < 0)%Z then "-" else "") ∧ d ≠ "" ∧ all_digits d ∧ pretty z = sg +:+ d.
Proof.
  destruct z as [|p|p]; [exists "", "0"; by auto|..];
    destruct (pretty_Z_pos (Z.pos p) ltac:(lia)) as (c & d & E & Hc & _ & Hd);
    [exists "", (String c d)|exists "-", (String c d)]; (split; [done|]); (split; [done|]);
    (split; [unfold all_digits in *; cbn; by rewrite Hc|]); [done|].
  change (pretty (Z.neg p)) with ("-" +:+ pretty (Z.pos p)). by rewrite E.
Qed.

Lemma zeros_digits n : all_digits (zeros n).
Proof. unfold all_digits. by induction n. Qed.

Lemma take_digits n s : all_digits s → all_digits (str_take n s) ∧ all_digits (str_drop n s).
Proof.
  unfold all_digits. revert s. induction n as [|n IH]; intros [|c s] Hs; try done. cbn in *.
  apply andb_prop in Hs as [Hc Hs]. rewrite Hc. by apply IH.
Qed.

(** Digits laid out in any position are a number. *)
Lemma layout_form c d exp : digit c = true → c ≠ "0"%char → all_digits d → ∃ i f e,
  int_form i ∧ frac_form f ∧ exp_form e ∧ layout (String c d) exp = i +:+ f +:+ e.
Proof.
  intros Hc H0 Hd. assert (all_digits (String c d)) as Hcd by (unfold all_digits in *; cbn; by rewrite Hc).
  unfold layout. set (k := Z.of_nat (String.length (String c d))). set (n := (exp + 1)%Z).
  assert (∀ e, all_digits e → int_form (String c e)) as Hint by (intros e He; right; eauto 10).
  destruct (decide (k ≤ n ∧ n ≤ 21)%Z); [|destruct (decide (0 < n ∧ n ≤ 21)%Z);
    [|destruct (decide (-6 < n ∧ n ≤ 0)%Z)]].
  - exists (String c d +:+ zeros (Z.to_nat (n - k))), ".0", "". split_and!; [| |by left|].
    + cbn [String.append]. apply Hint. unfold all_digits in *. by rewrite str_forall_app, Hd, zeros_digits.
    + right. by exists "0".
    + autorewrite with go. done.
  - exists (str_take (Z.to_nat n) (String c d)), (String "." (str_drop (Z.to_nat n) (String c d))), "".
    split_and!; [| |by left|by autorewrite with go].
    + destruct (Z.to_nat n) as [|m] eqn:Em; [lia|]. cbn [str_take]. apply Hint. by apply take_digits.
    + right. eexists. split_and!; [|by apply take_digits|done].
      intros E. apply (f_equal String.length) in E. rewrite length_str_drop in E. cbn [String.length] in *. lia.
  - exists "0", (String "." (zeros (Z.to_nat (- n)) +:+ String c d)), "". split_and!; [by left| |by left|].
    + right. eexists. split_and!; [| |done]; [by destruct (zeros _)|].
      unfold all_digits in *. by rewrite str_forall_app, Hcd, zeros_digits.
    + by autorewrite with go.
  - destruct (pretty_Z_signed (n - 1)) as (sg & x & Hsg & Hx & Hxd & ->).
    exists (String c ""), (if decide (1 < k)%Z then "." +:+ str_drop 1 (String c d) else ""),
      ("e" +:+ (if decide (0 < n - 1)%Z then "+" else "") +:+ sg +:+ x).
    split_and!; [by apply Hint| | |done].
    + destruct (decide (1 < k)%Z); [|by left]. right. exists d. split_and!; [|done|done].
      subst k. destruct d; [cbn in *; lia|done].
    + right. exists "e"%char, ((if decide (0 < n - 1)%Z then "+" else "") +:+ sg), x. 
      split_and!; [by left| |done|done|by rewrite app_string_assoc].
      subst sg. repeat case_decide; try lia; auto.
Qed.

Lemma strip_zeros_pos fuel c e : (1 ≤ c)%Z → (1 ≤ (strip_zeros fuel c e).1)%Z.
Proof.
  revert c e. induction fuel as [|fuel IH]; intros c e Hc; [done|]. cbn [strip_zeros].
  case_decide; [|done]. apply IH. zlia.
Qed.

Lemma of_decimal_zero neg e f : of_decimal neg 0 e = Some f → f_mant f = 0%Z.
Proof. unfold of_decimal. rewrite decide_True by done. by intros [= <-]. Qed.

Lemma shortest_pos fuel : ∀ k f n d p, (0 ≤ n)%Z → (0 < d)%Z → f_mant f ≠ 0%Z → (1 ≤ (shortest fuel k f n d p).1)%Z.
Proof.
  induction fuel as [|fuel IH]; intros k f n d p Hn Hd Hf; cbn [shortest];
    destruct (if decide (0 ≤ p - k + 1)%Z then _ else _) as [a b] eqn:Eab;
    (assert (0 ≤ a ∧ 0 < b)%Z as [Ha Hb];
      [destruct (decide (0 ≤ p - k + 1)%Z); injection Eab as <- <-;
       pose proof (Z.pow_pos_nonneg 10 (p - k + 1) ltac:(lia));
       pose proof (Z.pow_nonneg 10 (- (p - k + 1)) ltac:(lia)); split; nia|]);
    pose proof (Z.div_pos a b Ha Hb) as Hlo;
    set (near := if decide (2 * (a mod b) ≤ b)%Z then (a / b)%Z else (a / b + 1)%Z);
    set (far := if decide (near = (a / b)%Z) then (a / b + 1)%Z else (a / b)%Z);
    (assert (∀ x : Z, (0 ≤ x)%Z → of_decimal false x (p - k + 1) = Some f → (1 ≤ x)%Z) as Hpos;
      [intros x Hx E; destruct (decide (x = 0)%Z) as [->|]; [by apply of_decimal_zero in E|lia]|]);
    (assert (0 ≤ near ∧ 0 ≤ far)%Z as [Hnear Hfar]; [subst near far; repeat case_decide; lia|]).
  - destruct (bool_decide_reflect (of_decimal false near (p - k + 1) = Some f)); [cbn; auto|].
    destruct (bool_decide_reflect (of_decimal false far (p - k + 1) = Some f)); [cbn; auto|]. cbn. lia.
  - destruct (bool_decide_reflect (of_decimal false near (p - k + 1) = Some f)); [cbn; auto|].
    destruct (bool_decide_reflect (of_decimal false far (p - k + 1) = Some f)); [cbn; auto|]. by apply IH.
Qed.

Lemma digits_no_char c s : digit c = false → all_digits s → ¬ str_in c s.
Proof. intros Hc Hs Hin. unfold all_digits in Hs. eapply str_forall_in in Hin; [|exact Hs]. congruence. Qed.

Lemma drop_dots_digits s : all_digits s → drop_dots s = s.
Proof.
  unfold all_digits. induction s as [|c s IH]; [done|]. cbn. intros [Hc Hs]%andb_prop. unfold is_dot.
  rewrite bool_decide_eq_false_2 by (by intros ->). by rewrite IH.
Qed.

Lemma cut_byte_found c a b : ¬ str_in c a → cut_byte c (a +:+ String c b) = Some (a, b).
Proof.
  induction a as [|d a IH]; simpl; intros Hn; [by rewrite decide_True|].
  rewrite decide_False by (intros ->; tauto). by rewrite IH by tauto.
Qed.

(** The exponent form of a double: its digits, and some exponent. *)
Lemma format_sci_digits f : (0 < f_mant f)%Z → ∃ c d mant e,
  digit c = true ∧ c ≠ "0"%char ∧ all_digits d ∧
  cut_byte "e" (format_sci f) = Some (mant, e) ∧ drop_dots mant = String c d.
Proof.
  intros Ht. unfold format_sci. cbn [f_mant f_ex].
  set (f' := F64 false (f_mant f) (f_ex f)).
  destruct (if decide (0 ≤ f_ex f)%Z then _ else _) as [n d] eqn:End.
  assert (0 ≤ n ∧ 0 < d)%Z as [Hn Hd].
  { destruct (decide (0 ≤ f_ex f)%Z); injection End as <- <-.
    - pose proof (Z.pow_nonneg 2 (f_ex f) ltac:(lia)). nia.
    - pose proof (Z.pow_pos_nonneg 2 (- f_ex f) ltac:(lia) ltac:(lia)). lia. }
  pose proof (shortest_pos 17 1 f' n d (exp10 n d) Hn Hd ltac:(cbn; lia)) as Hc.
  destruct (shortest 17 1 f' n d (exp10 n d)) as [c e]. cbn [fst] in Hc.
  pose proof (strip_zeros_pos 20 c e Hc) as Hc'. destruct (strip_zeros 20 c e) as [c' e']. cbn [fst] in Hc'.
  destruct (pretty_Z_pos c' Hc') as (x & ds & -> & Hx & H0 & Hds).
  assert (digit "e" = false) as He by done.
  exists x, ds. cbn [str_take str_drop String.append].
  destruct (decide (1 < Z.of_nat (String.length (String x ds)))%Z) as [Hl|Hl].
  - eexists (String x (String "." ds)), _. split_and!; try done.
    + apply (cut_byte_found "e" (String x (String "." ds))). cbn [str_in].
      intros [<-|[?|Hin]]; [done..|]. by eapply digits_no_char.
    + cbn. unfold is_dot. rewrite bool_decide_eq_false_2 by (by intros ->). by rewrite drop_dots_digits.
  - destruct ds; [|cbn in Hl; lia]. eexists (String x ""), _. split_and!; try done.
    + apply (cut_byte_found "e" (String x "")). cbn [str_in]. intros [<-|?]; done.
    + cbn. unfold is_dot. by rewrite bool_decide_eq_false_2 by (by intros ->).
Qed.

(** What [Marshal] writes for a number is a number. *)
Lemma number_text_form lit : number_form lit → number_form (number_text lit).
Proof.
  intros Hl. unfold number_text, appendNumber. destruct (negb _).
  { case_decide; [|done]. exists "", "0", "", "". split_and!; by first [left|done]. }
  destruct (ParseDouble lit) as [f|]; [|done]. unfold appendFloat. cbn [double_tiny double_neg double_sci ieee_double].
  destruct (tiny f) eqn:Et.
  { exists "", "0", ".0", "". split_and!; [by left|by left| |by left|done]. right. by exists "0". }
  apply bool_decide_eq_false in Et. destruct (format_sci_digits f ltac:(lia)) as (c & d & mant & e & Hc & H0 & Hd & -> & ->).
  destruct (layout_form c d (Atoi e) Hc H0 Hd) as (i & fr & ex & Hi & Hf & He & ->).
  exists (if f_neg f then "-" else ""), i, fr, ex. split_and!; try done.
  all: by destruct (f_neg f); auto.
Qed.

(** ** Parsed trees are written faithfully *)

(** Strings are valid UTF-8 and numbers are JSON numbers. *)
Abbreviation faithful := (printable (λ s, valid_utf8 s = true)).

Lemma parse_printable strict n :
  (∀ d s v r, parse_value strict n d s = Some (v, r) → faithful v ∧ depth v ≤ d) ∧
  (∀ d s ms r, parse_members strict n d s = Some (ms, r) →
     Forall (λ m, valid_utf8 m.1 = true ∧ faithful m.2 ∧ depth m.2 ≤ d) ms) ∧
  (∀ d s l r, parse_elems strict n d s = Some (l, r) → Forall (λ v, faithful v ∧ depth v ≤ d) l).
Proof.
  assert (∀ (l : list nat) d, Forall (λ x, x ≤ d) l → max_list l ≤ d) as Hmax.
  { intros l d. induction 1; cbn in *; lia. }
  induction n as [|n (IHv & IHm & IHe)]; [done|]. split_and!; intros d s x r.
  - cbn [parse_value]. destruct (skip_ws s) as [|c t]; [done|]. repeat case_decide; subst.
    + destruct d; [done|]. destruct (expect "}" t); [by intros [= <- <-]; cbn; split; [|lia]|].
      intros (ms & Hm & <-)%omap2_Some. apply IHm in Hm. split.
      * apply printable_obj. eapply Forall_impl; [exact Hm|]. by intros m (? & ? & _).
      * cbn [depth]. apply le_n_S, Hmax. apply Forall_fmap. eapply Forall_impl; [exact Hm|]. by intros m (_ & _ & ?).
    + destruct d; [done|]. destruct (expect "]" t); [by intros [= <- <-]; cbn; split; [|lia]|].
      intros (l & Hl & <-)%omap2_Some. apply IHe in Hl. split.
      * apply printable_arr. eapply Forall_impl; [exact Hl|]. by intros v [? _].
      * cbn [depth]. apply le_n_S, Hmax. apply Forall_fmap. eapply Forall_impl; [exact Hl|]. by intros v [_ ?].
    + intros (u & Hu & <-)%omap2_Some. split; [by eapply scan_string_valid|cbn; lia].
    + intros (lit & Hu & <-)%omap2_Some. split; [|cbn; lia]. cbn.
      by eapply number_of_form, scan_number_form.
    + unfold scan_word_literal. intros Hw. repeat case_match; simplify_eq; (split; [done|cbn; lia]).
  - cbn [parse_members]. destruct (expect quote s) as [t|]; [|done].
    destruct (scan_string strict _ t) as [[k r1]|] eqn:E1; [|done]. apply scan_string_valid in E1.
    destruct (expect ":" r1) as [r2|]; [|done].
    destruct (parse_value strict n d r2) as [[v r3]|] eqn:E2; [|done]. apply IHv in E2 as [? ?].
    destruct (expect "," r3) as [r4|].
    + intros (ms & Hm%IHm & <-)%omap2_Some. by constructor.
    + destruct (expect "}" r3); [|done]. intros [= <- <-]. by repeat constructor.
  - cbn [parse_elems]. destruct (parse_value strict n d s) as [[v r3]|] eqn:E2; [|done]. apply IHv in E2 as [? ?].
    destruct (expect "," r3) as [r4|].
    + intros (ms & Hm%IHe & <-)%omap2_Some. by constructor.
    + destruct (expect "]" r3); [|done]. intros [= <- <-]. by repeat constructor.
Qed.

Lemma faithful_canon v : faithful v → faithful (canon v).
Proof.
  induction v as [| |lit|s|l IH|ms IH] using value_ind'; try done.
  - cbn. intros Hl. by eapply number_of_form, number_text_form, scan_number_form.
  - intros Hl%printable_arr. apply (printable_arr _ (map canon l)), Forall_fmap. rewrite Forall_forall in *. naive_solver.
  - intros Hl%printable_obj. cbn [canon]. apply printable_obj, Forall_fmap.
    rewrite Forall_forall in *. naive_solver.
Qed.

Lemma parse_faithful strict n d s v r : parse_value strict n d s = Some (v, r) → faithful (canon v) ∧ depth v ≤ d.
Proof. destruct (parse_printable strict n) as [Hp _]. intros [Hf Hd]%Hp. split; [by apply faithful_canon|done]. Qed.

Lemma Parse_faithful doc v : Parse doc = Ok v → faithful (canon v) ∧ depth v ≤ max_depth.
Proof.
  unfold Parse, decodeOne. destruct (parse_value true _ _ doc) as [[u r]|] eqn:E; [|done].
  case_decide; [|done]. intros [= ->]. by eapply parse_faithful.
Qed.

Lemma depth_canon v : depth (canon v) = depth v.
Proof.
  induction v as [|[]|lit|s|l IH|ms IH] using value_ind'; try done; simpl; do 2 f_equal.
  - rewrite map_map. by apply map_ext_Forall.
  - rewrite map_map. by apply (map_ext_Forall (λ m, depth (canon m.2)) (λ m, depth m.2)).
Qed.

(** A tree that is written faithfully is read back by both decoders. *)
Lemma decode_Marshal strict v : faithful (canon v) → depth v ≤ max_depth → decode strict (Marshal v) = Some (canon v).
Proof.
  intros Hp Hd. assert (decode true (Marshal v) = Some (canon v)) as Ht.
  { rewrite Marshal_print. apply decode_print with (ok := λ s, valid_utf8 s = true); [apply escape_scan|done|].
    by rewrite depth_canon. }
  destruct strict; [done|]. by apply decode_lenient.
Qed.

(** Both decoders read the text as the tree, its numbers in stored form. *)
Definition reads_back (out : string) (v : value) : Prop := ∀ strict, decode strict out = Some (canon v).

(** Every document the server accepts is stored in a form both of its decoders
    read back: the tree that was sent, member order and repeated names
    included, its numbers in the form they are stored in. *)
Theorem stored_documents_read_back (body out : string) (Hout : Normalize body = Ok out) :
  ∃ v, Parse body = Ok v ∧ reads_back out v.
Proof.
  apply Normalize_Ok in Hout as (v & Hp & _ & ->). exists v. split; [done|]. intros strict.
  destruct (Parse_faithful _ _ Hp). by apply decode_Marshal.
Qed.

Lemma stored_documents_read_back_witness :
  let body := "{ " +:+ print_string id "a" +:+ ":[1.50, -0]," +:+ print_string id "a" +:+ ":null }" in
  ∃ v, Parse body = Ok v ∧
    reads_back ("{" +:+ print_string id "a" +:+ ":[1.5,0]," +:+ print_string id "a" +:+ ":null}") v.
Proof.
  intros body. apply (stored_documents_read_back body). vm_compute. reflexivity.
Defined.
