(* ===== verification/Flatten.v ===== *)
(** * internal/search/flatten.go and the node search view

    The searchable fields of a document ([Flatten]) and, of internal/api/search.go,
    the attribute precedence merge of a node ([deepMerge], [nodeSearchDoc]) and
    the projection of a partial search ([traversePath]). Documents are decoded
    objects: members with distinct names. *)
From S2P Require Import Prelude GoText Json Chefjson Query Plan.

Section Flatten.
Context `{Unicode}.

Definition scalarString (v : value) : string :=
  match v with
  | VStr s => s
  | VNum lit => lit
  | VBool b => if b then "true" else "false"
  | _ => ""
  end.

(** The keys [add] writes under, from the last path segment outwards: the path
    is given in reverse. *)
Fixpoint suffix_keys (rpath : list string) (key : string) : list string :=
  match rpath with
  | [] => []
  | seg :: rest =>
      let key := if decide (key = "") then seg else seg +:+ "_" +:+ key in
      key :: suffix_keys rest key
  end.

Definition append_field (val : string) (fs : fields) (key : string) : fields :=
  <[key := values_of fs key ++ [val]]> fs.

Definition add (path : list string) (val : string) (fs : fields) : fields :=
  foldl (append_field (ToLower val)) fs (suffix_keys (rev path) "").

Fixpoint walk (path : list string) (v : value) (fs : fields) : fields :=
  match v with
  | VObj ms => foldl (λ fs m, walk (path ++ [ToLower m.1]) m.2 fs) fs ms
  | VArr l => foldl (λ fs x, walk path x fs) fs l
  | VNull => if decide (path = []) then fs else add path "" fs
  | _ => if decide (path = []) then fs else add path (scalarString v) fs
  end.

Definition Flatten (doc : list (string * value)) : fields := walk [] (VObj doc) ∅.

(** ** What the fields hold *)

(** The leaves of a value with their lowercased paths. *)
Fixpoint leaves (path : list string) (v : value) : list (list string * string) :=
  match v with
  | VObj ms => concat (map (λ m, leaves (path ++ [ToLower m.1]) m.2) ms)
  | VArr l => concat (map (leaves path) l)
  | _ => if decide (path = []) then [] else [(path, scalarString v)]
  end.

Lemma values_of_append val fs key f v :
  v ∈ values_of (append_field val fs key) f ↔ v ∈ values_of fs f ∨ (f = key ∧ v = val).
Proof.
  unfold append_field, values_of at 1. destruct (decide (f = key)) as [->|Hf].
  - rewrite lookup_insert_eq. simpl. set_solver.
  - rewrite lookup_insert_ne by done. unfold values_of. naive_solver.
Qed.

Lemma values_of_add path val fs f v :
  v ∈ values_of (add path val fs) f ↔
  v ∈ values_of fs f ∨ (f ∈ suffix_keys (rev path) "" ∧ v = ToLower val).
Proof.
  unfold add. generalize (suffix_keys (rev path) ""). intros keys. revert fs.
  induction keys as [|k keys IH]; intros fs; cbn [foldl]; [set_solver|].
  rewrite IH, values_of_append. set_solver.
Qed.

Definition indexed (l : list (list string * string)) (f v : string) : Prop :=
  ∃ p s, (p, s) ∈ l ∧ f ∈ suffix_keys (rev p) "" ∧ v = ToLower s.

Lemma indexed_app l l' f v : indexed (l ++ l') f v ↔ indexed l f v ∨ indexed l' f v.
Proof. unfold indexed. setoid_rewrite elem_of_app. naive_solver. Qed.

Lemma walk_values v : ∀ path fs f x,
  x ∈ values_of (walk path v fs) f ↔ x ∈ values_of fs f ∨ indexed (leaves path v) f x.
Proof.
  assert (∀ path s fs f x, x ∈ values_of (if decide (path = []) then fs else add path s fs) f ↔
    x ∈ values_of fs f ∨ indexed (if decide (path = []) then [] else [(path, s)]) f x) as Hleaf.
  { intros path s fs f x. unfold indexed. case_decide; [set_solver|].
    rewrite values_of_add. split.
    - intros [?|[? ->]]; [by left|right]. exists path, s. set_solver.
    - intros [?|(p & s' & Hin & ?)]; [by left|right]. set_solver. }
  induction v as [|b|lit|s|l IH|ms IH] using value_ind'; intros path fs f x; try apply Hleaf.
  - cbn [walk leaves]. revert fs. induction IH as [|y l Hy Hl IHl]; intros fs; cbn.
    + unfold indexed. set_solver.
    + rewrite IHl, Hy, indexed_app. tauto.
  - cbn [walk leaves]. revert fs. induction IH as [|y l Hy Hl IHl]; intros fs; cbn.
    + unfold indexed. set_solver.
    + rewrite IHl, Hy, indexed_app. tauto.
Qed.

Lemma append_field_full val fs key : full_fields fs → full_fields (append_field val fs key).
Proof.
  intros Hf k vs. unfold append_field.
  intros [[<- <-]|[_ Hk]]%lookup_insert_Some; [|by eapply Hf].
  by destruct (values_of fs key).
Qed.

Lemma add_full path val fs : full_fields fs → full_fields (add path val fs).
Proof.
  unfold add. generalize (suffix_keys (rev path) ""). intros keys. revert fs.
  induction keys as [|k keys IH]; intros fs Hf; cbn [foldl]; [done|].
  by apply IH, append_field_full.
Qed.

Lemma walk_full v : ∀ path fs, full_fields fs → full_fields (walk path v fs).
Proof.
  induction v as [|b|lit|s|l IH|ms IH] using value_ind'; intros path fs Hf; cbn [walk];
    try (case_decide; [done|by apply add_full]).
  - revert fs Hf. induction IH; intros fs Hf; cbn; auto.
  - revert fs Hf. induction IH; intros fs Hf; cbn; auto.
Qed.

Lemma Flatten_full doc : full_fields (Flatten doc).
Proof. apply walk_full. intros k vs. by rewrite lookup_empty. Qed.

(** A field of a flattened document holds a value exactly when some leaf of
    the document has that value (lowercased) and a path one of whose suffixes,
    joined with underscores, is the field; and no field is left empty. *)
Theorem flatten_indexes_suffixes (doc : list (string * value)) :
  full_fields (Flatten doc) ∧
  ∀ f v, v ∈ values_of (Flatten doc) f ↔ indexed (leaves [] (VObj doc)) f v.
Proof.
  split; [apply Flatten_full|]. intros f v. unfold Flatten.
  rewrite walk_values. unfold values_of. rewrite lookup_empty. set_solver.
Qed.
End Flatten.

(** ** Attribute precedence (api/search.go) *)

(** The value a key has after merging [v] over what the key held. A map is
    merged into the map already there, or into a fresh one. *)
Fixpoint merge_value (old : option value) (v : value) : value :=
  match v with
  | VObj sub =>
      VObj (foldl (λ d m, Set_ d m.1 (merge_value (assoc d m.1) m.2))
                  (match old with Some (VObj existing) => existing | _ => [] end) sub)
  | _ => v
  end.

Definition deepMerge (dst src : list (string * value)) : list (string * value) :=
  foldl (λ d m, Set_ d m.1 (merge_value (assoc d m.1) m.2)) dst src.

Definition levels : list string := ["default"; "normal"; "override"; "automatic"].

Definition nodeSearchDoc (node : list (string * value)) : list (string * value) :=
  let merged := foldl (λ d level,
    match assoc node level with Some (VObj attrs) => deepMerge d attrs | _ => d end) [] levels in
  foldl (λ out m, Set_ out m.1 m.2) node merged.

(** The value at a path, [nil] when a segment is absent. *)
Fixpoint traversePath (v : value) (path : list string) : value :=
  match path with
  | [] => v
  | key :: path' =>
      match v with
      | VObj ms => match assoc ms key with Some x => traversePath x path' | None => VNull end
      | _ => VNull
      end
  end.

(** Names are distinct at every depth, as in a decoded map. *)
Fixpoint distinct (v : value) : Prop :=
  match v with
  | VObj ms => NoDup (map fst ms) ∧ foldr (λ m P, distinct m.2 ∧ P) True ms
  | VArr l => foldr (λ x P, distinct x ∧ P) True l
  | _ => True
  end.

Lemma assoc_Set ms name v k : assoc (Set_ ms name v) k = if decide (k = name) then Some v else assoc ms k.
Proof. apply Get_Set. Qed.

Lemma assoc_foldl_merge src : NoDup (map fst src) → ∀ dst k,
  assoc (deepMerge dst src) k =
  match assoc src k with None => assoc dst k | Some v => Some (merge_value (assoc dst k) v) end.
Proof.
  unfold deepMerge. induction src as [|[k' x] src IH]; intros Hnd dst k; [done|].
  apply NoDup_cons in Hnd as [Hk' Hnd]. cbn [foldl assoc fst snd]. rewrite IH by done.
  rewrite assoc_Set. destruct (decide (k' = k)) as [->|Hk].
  - rewrite decide_True by done. by rewrite assoc_None.
  - rewrite decide_False by done. done.
Qed.

Lemma merge_value_obj old sub :
  merge_value old (VObj sub) =
  VObj (deepMerge (match old with Some (VObj existing) => existing | _ => [] end) sub).
Proof. done. Qed.

(** Along the path every segment is found in an object until one is missing. *)
Fixpoint absent (v : value) (path : list string) : Prop :=
  match path, v with
  | key :: path', VObj ms => match assoc ms key with Some x => absent x path' | None => True end
  | _, _ => False
  end.

Definition scalar_value (v : value) : Prop := match v with VObj _ | VNull => False | _ => True end.

Lemma distinct_assoc ms k v : distinct (VObj ms) → assoc ms k = Some v → distinct v.
Proof.
  intros [_ Hd]. induction ms as [|[k' x] ms IH]; [done|]. destruct Hd as [Hx Hd]. simpl.
  case_decide; [by intros [= <-]|by apply IH].
Qed.

Lemma merge_src_wins path : ∀ old src, distinct src →
  scalar_value (traversePath src path) →
  traversePath (merge_value old src) path = traversePath src path.
Proof.
  induction path as [|k path IH]; intros old src Hd Hs.
  - by destruct src.
  - destruct src as [| | | | |sub]; try done. rewrite merge_value_obj. cbn [traversePath] in *.
    destruct Hd as [Hnd Hd]. rewrite assoc_foldl_merge by done.
    destruct (assoc sub k) as [x|] eqn:Ek; [|done]. apply IH; [|done].
    by eapply (distinct_assoc sub k).
Qed.

Lemma merge_dst_kept path : ∀ old src, distinct src → absent src path →
  traversePath (merge_value old src) path = traversePath (default VNull old) path.
Proof.
  induction path as [|k path IH]; intros old src Hd Ha; [by destruct src|].
  destruct src as [| | | | |sub]; try done. rewrite merge_value_obj. cbn [traversePath absent] in *.
  destruct Hd as [Hnd Hd]. rewrite assoc_foldl_merge by done.
  destruct (assoc sub k) as [x|] eqn:Ek.
  - rewrite IH; [|by eapply (distinct_assoc sub k)|done].
    destruct old as [[]|]; try (by destruct path). simpl.
    destruct (assoc ms k); [reflexivity|by destruct path].
  - by destruct old as [[]|].
Qed.

(** Merging attributes of a higher precedence level over a lower one: a
    scalar (or array) the higher level has at a path wins, and a path the higher
    level does not reach keeps what the lower level had. *)
Theorem deep_merge_precedence (dst src : list (string * value)) (path : list string) :
  distinct (VObj src) →
  (scalar_value (traversePath (VObj src) path) →
     traversePath (VObj (deepMerge dst src)) path = traversePath (VObj src) path) ∧
  (absent (VObj src) path →
     traversePath (VObj (deepMerge dst src)) path = traversePath (VObj dst) path).
Proof.
  intros Hd. change (VObj (deepMerge dst src)) with (merge_value (Some (VObj dst)) (VObj src)).
  split; intros; [by apply merge_src_wins|by apply merge_dst_kept].
Qed.

Lemma deep_merge_precedence_witness :
  let dst := [("apache", VObj [("port", VNum "80"); ("user", VStr "www")])] in
  let src := [("apache", VObj [("port", VNum "8080")])] in
  traversePath (VObj (deepMerge dst src)) ["apache"; "port"] = VNum "8080" ∧
  traversePath (VObj (deepMerge dst src)) ["apache"; "user"] = VStr "www".
Proof.
  intros dst src. split.
  - apply (deep_merge_precedence dst src ["apache"; "port"]); [|done].
    vm_compute. repeat split; repeat constructor; set_solver.
  - apply (deep_merge_precedence dst src ["apache"; "user"]); [|done].
    vm_compute. repeat split; repeat constructor; set_solver.
Defined.
