(* ===== verification/SearchIndex.v ===== *)
(** * internal/api/searchindex.go: the inverted search index

    [collIndex] with its maintenance ([put], [remove], [retract]), the view the
    planner reads ([postingsView]) and the registry kept current from the write
    stream ([searchIndexes]). The index is proved to be the index of exactly the
    stored documents, whatever writes led to them. *)
From S2P Require Import Prelude GoText Json Chefjson Query Plan Flatten Store Facade.
#[local] Open Scope go_scope.

(** ** One collection's index *)

Abbreviation idset := (gset string).

Record collIndex := mkIndex {
  merge : bool;
  postings : gmap string (gmap string idset);
  fieldDocs : gmap string idset;
  docTerms : gmap string (list (string * string));
  all : idset;
}.

Definition newCollIndex (m : bool) : collIndex := mkIndex m ∅ ∅ ∅ ∅.

(** [delete(m[k], id)], dropping the key when its set becomes empty. *)
Definition prune {K} `{Countable K} (k : K) (id : string) (m : gmap K idset) : gmap K idset :=
  match m !! k with
  | Some ids =>
      let ids := ids ∖ {[id]} in
      if decide (size ids = 0) then delete k m else <[k := ids]> m
  | None => m
  end.

(** One round of the loop of [retract]. *)
Definition retract_term (id : string) (c : collIndex) (t : string * string) : collIndex :=
  let '(field, val) := t in
  let postings' :=
    match postings c !! field with
    | Some byValue =>
        let byValue := prune val id byValue in
        if decide (size byValue = 0) then delete field (postings c)
        else <[field := byValue]> (postings c)
    | None => postings c
    end in
  mkIndex (merge c) postings' (prune field id (fieldDocs c)) (docTerms c) (all c).

Definition retract (c : collIndex) (id : string) : collIndex :=
  let c := foldl (retract_term id) c (default [] (docTerms c !! id)) in
  mkIndex (merge c) (postings c) (fieldDocs c) (<[id := []]> (docTerms c)) (all c).

(** [m[k][id] = struct{}{}], creating the set. *)
Definition enlist {K} `{Countable K} (k : K) (id : string) (m : gmap K idset) : gmap K idset :=
  <[k := {[id]} ∪ default ∅ (m !! k)]> m.

(** One field of the loop of [put]; the terms are collected beside. *)
Definition put_field (id : string) (st : collIndex * list (string * string)) (fv : string * list string)
  : collIndex * list (string * string) :=
  let '(c, terms) := st in
  let '(field, vals) := fv in
  let byValue := foldl (λ bv v, enlist v id bv) (default ∅ (postings c !! field)) vals in
  (mkIndex (merge c) (<[field := byValue]> (postings c)) (enlist field id (fieldDocs c))
     (docTerms c) (all c),
   terms ++ map (λ v, (field, v)) vals).

Definition put (c : collIndex) (id : string) (fs : fields) : collIndex :=
  let '(c, terms) := foldl (put_field id) (retract c id, []) (map_to_list fs) in
  mkIndex (merge c) (postings c) (fieldDocs c) (<[id := terms]> (docTerms c)) ({[id]} ∪ all c).

Definition remove (c : collIndex) (id : string) : collIndex :=
  let c := retract c id in
  mkIndex (merge c) (postings c) (fieldDocs c) (delete id (docTerms c)) (all c ∖ {[id]}).

Definition size_ (c : collIndex) : nat := size (all c).

(** The fields of a stored document, or [None] when it does not decode. *)
Definition doc_fields `{Unicode} (mergeAttrs : bool) (raw : string) : option fields :=
  match DecodeObject raw with
  | Err _ => None
  | Ok doc => Some (Flatten (if mergeAttrs then nodeSearchDoc doc else doc))
  end.

Definition putRaw `{Unicode} (c : collIndex) (id raw : string) : collIndex :=
  match DecodeObject raw with
  | Err _ => remove c id
  | Ok doc => put c id (Flatten (if merge c then nodeSearchDoc doc else doc))
  end.

(** ** The planner's view *)

Definition posting (c : collIndex) (field val : string) : idset :=
  default ∅ (default ∅ (postings c !! field) !! val).
Definition docs_with (c : collIndex) (field : string) : idset := default ∅ (fieldDocs c !! field).

Definition match_values (byValue : gmap string idset) (pred : string → bool) : idset :=
  ⋃ (map snd (filter (λ kv, pred kv.1 = true) (map_to_list byValue))).

#[global] Instance postingsView : Postings collIndex := {|
  All c := all c;
  Exact c field val := posting c field val;
  Exists c field := docs_with c field;
  Match c field pred := match_values (default ∅ (postings c !! field)) pred;
  MatchAny c pred := ⋃ (map (λ kv, match_values kv.2 pred) (map_to_list (postings c)));
|}.

(** ** The index of a set of documents *)

Record Repr (c : collIndex) (docs : documents) : Prop := {
  repr_full : full_docs docs;
  repr_all : all c = dom docs;
  repr_posting f v id :
    id ∈ posting c f v ↔ ∃ fs, docs !! id = Some fs ∧ v ∈ values_of fs f;
  repr_field f id :
    id ∈ docs_with c f ↔ ∃ fs, docs !! id = Some fs ∧ is_Some (fs !! f);
  repr_terms id f v :
    (f, v) ∈ default [] (docTerms c !! id) ↔ ∃ fs, docs !! id = Some fs ∧ v ∈ values_of fs f;
  (* nothing empty is kept *)
  repr_pruned :
    (∀ f m, postings c !! f = Some m → m ≠ ∅ ∧ ∀ v s, m !! v = Some s → s ≠ ∅) ∧
    (∀ f s, fieldDocs c !! f = Some s → s ≠ ∅);
}.

Lemma full_field_value (fs : fields) f : full_fields fs →
  is_Some (fs !! f) ↔ ∃ v, v ∈ values_of fs f.
Proof.
  intros Hf. unfold values_of. split.
  - intros [vs Hvs]. rewrite Hvs. pose proof (Hf _ _ Hvs). destruct vs as [|v vs]; [done|].
    exists v. simpl. set_solver.
  - intros [v Hv]. destruct (fs !! f); [done|]. simpl in Hv. set_solver.
Qed.

Lemma lookup_prune {K} `{Countable K} (k : K) id (m : gmap K idset) k' :
  default ∅ (prune k id m !! k') = default ∅ (m !! k') ∖ (if decide (k' = k) then {[id]} else ∅).
Proof.
  unfold prune. destruct (m !! k) as [ids|] eqn:E.
  - case_decide as Hz.
    + apply size_empty_inv in Hz. destruct (decide (k' = k)) as [->|].
      * rewrite lookup_delete_eq, E. simpl. set_solver.
      * rewrite lookup_delete_ne by done. set_solver.
    + destruct (decide (k' = k)) as [->|].
      * rewrite lookup_insert_eq, E. done.
      * rewrite lookup_insert_ne by done. set_solver.
  - case_decide; subst; rewrite ?E; set_solver.
Qed.

Definition nonempty_sets {K} `{Countable K} (m : gmap K idset) : Prop :=
  ∀ k s, m !! k = Some s → s ≠ ∅.

Lemma prune_nonempty {K} `{Countable K} (k : K) id (m : gmap K idset) :
  nonempty_sets m → nonempty_sets (prune k id m).
Proof.
  intros Hm k' s. unfold prune. destruct (m !! k) as [ids|] eqn:E; [|apply Hm].
  case_decide as Hz.
  - intros [_ ?]%lookup_delete_Some. by eapply Hm.
  - intros [[<- <-]|[_ ?]]%lookup_insert_Some; [|by eapply Hm].
    intros Heq. rewrite Heq in Hz. by rewrite size_empty in Hz.
Qed.

Lemma lookup_enlist {K} `{Countable K} (k : K) id (m : gmap K idset) k' :
  default ∅ (enlist k id m !! k') = (if decide (k' = k) then {[id]} else ∅) ∪ default ∅ (m !! k').
Proof.
  unfold enlist. case_decide as E; [subst; by rewrite lookup_insert_eq|].
  rewrite lookup_insert_ne by done. set_solver.
Qed.

Lemma enlist_nonempty {K} `{Countable K} (k : K) id (m : gmap K idset) :
  nonempty_sets m → nonempty_sets (enlist k id m).
Proof.
  intros Hm k' s. unfold enlist. intros [[<- <-]|[_ ?]]%lookup_insert_Some; [set_solver|by eapply Hm].
Qed.

(** ** Retracting a document *)

Lemma posting_retract_term id c f v f' v' :
  posting (retract_term id c (f, v)) f' v' =
  posting c f' v' ∖ (if decide ((f', v') = (f, v)) then {[id]} else ∅).
Proof.
  unfold posting, retract_term. cbn [postings].
  destruct (postings c !! f) as [m|] eqn:E.
  - pose proof (lookup_prune v id m v') as Hp.
    destruct (decide (size (prune v id m) = 0)) as [Hz|Hz].
    + apply map_size_empty_inv in Hz. rewrite Hz, lookup_empty in Hp.
      destruct (decide (f' = f)) as [->|Hf].
      * rewrite lookup_delete_eq, E. cbn [default]. rewrite lookup_empty. cbn [default] in *.
        etrans; [exact Hp|]. f_equal. repeat case_decide; congruence.
      * rewrite lookup_delete_ne, decide_False by congruence. set_solver.
    + destruct (decide (f' = f)) as [->|Hf].
      * rewrite lookup_insert_eq, E. cbn [default].
        etrans; [exact Hp|]. f_equal. repeat case_decide; congruence.
      * rewrite lookup_insert_ne, decide_False by congruence. set_solver.
  - case_decide; simplify_eq; rewrite ?E; set_solver.
Qed.

Lemma docs_with_retract_term id c f v f' :
  docs_with (retract_term id c (f, v)) f' =
  docs_with c f' ∖ (if decide (f' = f) then {[id]} else ∅).
Proof. unfold docs_with, retract_term. cbn [fieldDocs]. apply lookup_prune. Qed.

Definition pruned (c : collIndex) : Prop :=
  (∀ f m, postings c !! f = Some m → m ≠ ∅ ∧ nonempty_sets m) ∧ nonempty_sets (fieldDocs c).

Lemma retract_term_pruned id c t : pruned c → pruned (retract_term id c t).
Proof.
  destruct t as [f v]. intros [Hp Hf]. split; [|by apply prune_nonempty].
  intros f' m'. unfold retract_term. cbn [postings].
  destruct (postings c !! f) as [m|] eqn:E; [|apply Hp]. case_decide as Hz.
  - intros [_ ?]%lookup_delete_Some. by apply (Hp f').
  - intros [[<- <-]|[_ ?]]%lookup_insert_Some; [|by apply (Hp f')].
    split; [|by apply prune_nonempty; apply (Hp f)].
    intros Heq. rewrite Heq in Hz. by rewrite map_size_empty in Hz.
Qed.

Lemma retract_terms_spec id ts c :
  let c' := foldl (retract_term id) c ts in
  (∀ f v x, x ∈ posting c' f v ↔ x ∈ posting c f v ∧ ¬ (x = id ∧ (f, v) ∈ ts)) ∧
  (∀ f x, x ∈ docs_with c' f ↔ x ∈ docs_with c f ∧ ¬ (x = id ∧ ∃ v, (f, v) ∈ ts)) ∧
  merge c' = merge c ∧ docTerms c' = docTerms c ∧ all c' = all c ∧ (pruned c → pruned c').
Proof.
  revert c. induction ts as [|[f0 v0] ts IH]; intros c; cbn [foldl].
  { split_and!; try done; set_solver. }
  destruct (IH (retract_term id c (f0, v0))) as (H1 & H2 & H3 & H4 & H5 & H6).
  split_and!; try done; [| |by intros; apply H6, retract_term_pruned].
  - intros f v x. rewrite H1, posting_retract_term. case_decide; set_solver.
  - intros f x. rewrite H2, docs_with_retract_term. case_decide; set_solver.
Qed.

(** After retracting, the index is that of the other documents, except that the
    id is still listed. *)
Lemma retract_spec c docs id : Repr c docs →
  let c' := retract c id in
  (∀ f v x, x ∈ posting c' f v ↔ x ≠ id ∧ x ∈ posting c f v) ∧
  (∀ f x, x ∈ docs_with c' f ↔ x ≠ id ∧ x ∈ docs_with c f) ∧
  merge c' = merge c ∧ docTerms c' = <[id := []]> (docTerms c) ∧ all c' = all c ∧ pruned c'.
Proof.
  intros R. unfold retract.
  destruct (retract_terms_spec id (default [] (docTerms c !! id)) c) as (H1 & H2 & H3 & H4 & H5 & H6).
  set (c1 := foldl _ c _) in *. cbn zeta. split_and!; try done.
  - intros f v x. etrans; [apply (H1 f v x)|].
    rewrite (repr_terms _ _ R), !(repr_posting _ _ R). naive_solver.
  - intros f x. etrans; [apply (H2 f x)|].
    setoid_rewrite (repr_terms _ _ R). rewrite !(repr_field _ _ R). split.
    + intros ((fs & Hfs & Hf) & Hn). split; [|eauto]. intros ->. apply Hn. split; [done|].
      apply full_field_value in Hf as [v Hv]; [|by eapply repr_full]. by exists v, fs.
    + intros (Hx & Hfs). split; [done|]. by intros [-> _].
  - cbn. by rewrite H4.
  - apply H6. apply (repr_pruned _ _ R).
Qed.

(** ** Indexing a document *)

Lemma enlist_all id vals (bv : gmap string idset) :
  let bv' := foldl (λ bv v, enlist v id bv) bv vals in
  (∀ v x, x ∈ default ∅ (bv' !! v) ↔ x ∈ default ∅ (bv !! v) ∨ (x = id ∧ v ∈ vals)) ∧
  (nonempty_sets bv → nonempty_sets bv') ∧ (vals ≠ [] → bv' ≠ ∅).
Proof.
  revert bv. induction vals as [|v0 vals IH]; intros bv; cbn [foldl].
  { split_and!; [set_solver|done|done]. }
  destruct (IH (enlist v0 id bv)) as (H1 & H2 & H3). split_and!.
  - intros v x. rewrite H1, lookup_enlist. case_decide; set_solver.
  - intros Hb. by apply H2, enlist_nonempty.
  - intros _ He. specialize (H1 v0 id). cbn zeta in H1. rewrite He, lookup_empty, lookup_enlist in H1.
    rewrite decide_True in H1 by done. set_solver.
Qed.

Lemma put_field_spec id c ts f0 vs :
  let '(c', ts') := put_field id (c, ts) (f0, vs) in
  (∀ f v x, x ∈ posting c' f v ↔ x ∈ posting c f v ∨ (x = id ∧ f = f0 ∧ v ∈ vs)) ∧
  (∀ f x, x ∈ docs_with c' f ↔ x ∈ docs_with c f ∨ (x = id ∧ f = f0)) ∧
  (∀ f v, (f, v) ∈ ts' ↔ (f, v) ∈ ts ∨ (f = f0 ∧ v ∈ vs)) ∧
  merge c' = merge c ∧ docTerms c' = docTerms c ∧ all c' = all c ∧
  (vs ≠ [] → pruned c → pruned c').
Proof.
  cbn [put_field].
  destruct (enlist_all id vs (default ∅ (postings c !! f0))) as (H1 & H2 & H3).
  set (bv := foldl _ _ vs) in *. split_and!; try done.
  - intros f v x. unfold posting. cbn [postings]. destruct (decide (f = f0)) as [->|Hf].
    + rewrite lookup_insert_eq. cbn [default]. etrans; [apply H1|]. naive_solver.
    + rewrite lookup_insert_ne by done. naive_solver.
  - intros f x. unfold docs_with. cbn [fieldDocs]. rewrite lookup_enlist. case_decide; set_solver.
  - intros f v. rewrite elem_of_app, list_elem_of_fmap. naive_solver.
  - intros Hvs [Hp Hf]. split; [|by apply enlist_nonempty]. intros f m. cbn [postings].
    intros [[<- <-]|[_ ?]]%lookup_insert_Some; [|by apply (Hp f)].
    split; [by apply H3|]. apply H2. destruct (postings c !! f0) eqn:E; simpl; [by apply (Hp f0)|].
    intros k s. by rewrite lookup_empty.
Qed.

Lemma put_fields_spec id l c ts :
  let '(c', ts') := foldl (put_field id) (c, ts) l in
  (∀ f v x, x ∈ posting c' f v ↔ x ∈ posting c f v ∨ (x = id ∧ ∃ vs, (f, vs) ∈ l ∧ v ∈ vs)) ∧
  (∀ f x, x ∈ docs_with c' f ↔ x ∈ docs_with c f ∨ (x = id ∧ ∃ vs, (f, vs) ∈ l)) ∧
  (∀ f v, (f, v) ∈ ts' ↔ (f, v) ∈ ts ∨ ∃ vs, (f, vs) ∈ l ∧ v ∈ vs) ∧
  merge c' = merge c ∧ docTerms c' = docTerms c ∧ all c' = all c ∧
  (Forall (λ fv, fv.2 ≠ []) l → pruned c → pruned c').
Proof.
  revert c ts. induction l as [|[f0 vs] l IH]; intros c ts; cbn [foldl].
  { split_and!; try done; set_solver. }
  pose proof (put_field_spec id c ts f0 vs) as Hs.
  destruct (put_field id (c, ts) (f0, vs)) as [c1 ts1] eqn:E. destruct Hs as (A1 & A2 & A3 & A4 & A5 & A6 & A7).
  specialize (IH c1 ts1). destruct (foldl (put_field id) (c1, ts1) l) as [c' ts'].
  destruct IH as (B1 & B2 & B3 & B4 & B5 & B6 & B7). split_and!; try congruence.
  - intros f v x. rewrite B1, A1. set_solver.
  - intros f x. rewrite B2, A2. set_solver.
  - intros f v. rewrite B3, A3. set_solver.
  - intros [Hv Hl]%Forall_cons Hp. auto.
Qed.

Lemma put_Repr c docs id fs :
  Repr c docs → full_fields fs → Repr (put c id fs) (<[id := fs]> docs).
Proof.
  intros R Hfs. destruct (retract_spec c docs id R) as (R1 & R2 & R3 & R4 & R5 & R6).
  unfold put. pose proof (put_fields_spec id (map_to_list fs) (retract c id) []) as P.
  destruct (foldl (put_field id) (retract c id, []) (map_to_list fs)) as [c' ts'].
  destruct P as (P1 & P2 & P3 & P4 & P5 & P6 & P7).
  assert (∀ f v, (∃ vs, (f, vs) ∈ map_to_list fs ∧ v ∈ vs) ↔ v ∈ values_of fs f) as Hv.
  { intros f v. unfold values_of. setoid_rewrite elem_of_map_to_list. split.
    - intros (vs & -> & ?). done.
    - destruct (fs !! f) as [vs|]; simpl; [|set_solver]. eauto. }
  split.
  - intros x gs [[_ <-]|[_ ?]]%lookup_insert_Some; [done|by eapply (repr_full _ _ R)].
  - cbn [all]. rewrite P6, R5, (repr_all _ _ R), dom_insert_L. done.
  - intros f v x. etrans; [apply (P1 f v x)|]. rewrite Hv, R1, (repr_posting _ _ R).
    destruct (decide (x = id)) as [->|Hx].
    + rewrite lookup_insert_eq. naive_solver.
    + rewrite lookup_insert_ne by done. naive_solver.
  - intros f x. etrans; [apply (P2 f x)|]. rewrite R2, (repr_field _ _ R).
    assert ((∃ vs, (f, vs) ∈ map_to_list fs) ↔ is_Some (fs !! f)) as ->.
    { setoid_rewrite elem_of_map_to_list. done. }
    destruct (decide (x = id)) as [->|Hx].
    + rewrite lookup_insert_eq. naive_solver.
    + rewrite lookup_insert_ne by done. naive_solver.
  - intros x f v. cbn [docTerms]. rewrite P5, R4. destruct (decide (x = id)) as [->|Hx].
    + rewrite lookup_insert_eq. cbn [default]. rewrite lookup_insert_eq.
      etrans; [apply P3|]. rewrite Hv. set_solver.
    + rewrite !lookup_insert_ne by done. apply (repr_terms _ _ R).
  - apply P7; [|done]. apply Forall_forall. intros [f vs] Hin%elem_of_map_to_list. by eapply Hfs.
Qed.

Lemma remove_Repr c docs id : Repr c docs → Repr (remove c id) (delete id docs).
Proof.
  intros R. destruct (retract_spec c docs id R) as (R1 & R2 & R3 & R4 & R5 & R6).
  unfold remove. split.
  - intros x gs [_ ?]%lookup_delete_Some. by eapply (repr_full _ _ R).
  - cbn [all]. rewrite R5, (repr_all _ _ R), dom_delete_L. done.
  - intros f v x. etrans; [apply (R1 f v x)|]. rewrite (repr_posting _ _ R).
    setoid_rewrite lookup_delete_Some. naive_solver.
  - intros f x. etrans; [apply (R2 f x)|]. rewrite (repr_field _ _ R).
    setoid_rewrite lookup_delete_Some. naive_solver.
  - intros x f v. cbn [docTerms]. rewrite R4. setoid_rewrite lookup_delete_Some.
    destruct (decide (x = id)) as [->|Hx].
    + rewrite lookup_delete_eq. cbn. set_solver.
    + rewrite lookup_delete_ne, lookup_insert_ne by done. rewrite (repr_terms _ _ R). naive_solver.
  - exact R6.
Qed.

Lemma newCollIndex_Repr m : Repr (newCollIndex m) ∅.
Proof.
  split.
  - intros x gs. by rewrite lookup_empty.
  - by rewrite dom_empty_L.
  - intros f v id. unfold posting. cbn [newCollIndex postings]. rewrite lookup_empty. cbn.
    rewrite !lookup_empty. cbn. set_solver.
  - intros f id. unfold docs_with. cbn. rewrite lookup_empty. set_solver.
  - intros id f v. cbn. rewrite !lookup_empty. set_solver.
  - split; intros ??; cbn; by rewrite lookup_empty.
Qed.

(** ** The view keeps the planner's promise *)

Lemma elem_of_match_values bv pred x :
  x ∈ match_values bv pred ↔ ∃ v, x ∈ default ∅ (bv !! v) ∧ pred v = true.
Proof.
  unfold match_values. rewrite elem_of_union_list. setoid_rewrite list_elem_of_fmap. split.
  - intros (X & ([v s] & -> & [Hp Hin%elem_of_map_to_list]%list_elem_of_filter) & Hx).
    exists v. by rewrite Hin.
  - intros (v & Hx & Hp). destruct (bv !! v) as [s|] eqn:E; [|set_solver].
    exists s. split; [|done]. exists (v, s). split; [done|].
    apply list_elem_of_filter. split; [done|]. by apply elem_of_map_to_list.
Qed.

Lemma Repr_view c docs : Repr c docs → PostingsSpec c docs.
Proof.
  intros R. split; cbn.
  - apply (repr_posting _ _ R).
  - apply (repr_field _ _ R).
  - intros f pred id. rewrite elem_of_match_values.
    setoid_rewrite (repr_posting _ _ R f). naive_solver.
  - intros pred id. rewrite elem_of_union_list. setoid_rewrite list_elem_of_fmap. split.
    + intros (X & ([f bv] & -> & Hin%elem_of_map_to_list) & (v & Hx & Hp)%elem_of_match_values).
      assert (id ∈ posting c f v) as (fs & ? & ?)%(repr_posting _ _ R).
      { unfold posting. simpl in Hx. by rewrite Hin. }
      eauto 10.
    + intros (fs & f & v & Hfs & Hv & Hp).
      assert (id ∈ posting c f v) as Hx by (apply (repr_posting _ _ R); eauto).
      unfold posting in Hx. destruct (postings c !! f) as [bv|] eqn:E; cbn [default] in Hx;
        [|rewrite lookup_empty in Hx; set_solver].
      eexists. split; [eexists (f, bv); split; [reflexivity|by apply elem_of_map_to_list]|].
      apply elem_of_match_values. eauto.
  - apply (repr_all _ _ R).
Qed.

(** ** The registry *)

Section Registry.
Context `{Unicode}.

(** One index per (organization, collection), under its [indexKey]. *)
Abbreviation searchIndexes := (gmap string collIndex).

Definition newSearchIndexes : searchIndexes := ∅.

Definition indexKey (org coll : string) : string := org +:+ String NUL coll.

(** The body of the build's [Range] callback over the whole collection. *)
Definition build (c : collIndex) (docs : list (string * string)) : collIndex :=
  foldl (λ c kv, putRaw c kv.1 kv.2) c docs.

(** The registry is the state the store's observer keeps. A failed build leaves
    no index behind. *)
Definition get `{Backend B} (org coll : string) (mergeAttrs : bool)
  : ST (Store B searchIndexes) collIndex := λ s,
  let key := indexKey org coll in
  match obs s.2 !! key with
  | Some idx => (Ok idx, s)
  | None =>
      let s := (s.1, with_obs (<[key := newCollIndex mergeAttrs]> (obs s.2)) s.2) in
      match Org_Range org coll s with
      | (Ok docs, s') =>
          let idx := build (newCollIndex mergeAttrs) docs in
          (Ok idx, (s'.1, with_obs (<[key := idx]> (obs s'.2)) s'.2))
      | (Err e, s') => (Err e, (s'.1, with_obs (delete key (obs s'.2)) s'.2))
      end
  end.

Definition dropOrg (org : string) (m : searchIndexes) : searchIndexes :=
  filter (λ kv, has_prefix (org +:+ String NUL "") kv.1 = false) m.

Definition observe (ev : Event) (m : searchIndexes) : searchIndexes :=
  if decide (ev_deleted ev = true ∧ ev_coll ev = "") then dropOrg (ev_org ev) m
  else
    let key := indexKey (ev_org ev) (ev_coll ev) in
    match m !! key with
    | None => m
    | Some idx =>
        if ev_deleted ev then <[key := remove idx (ev_key ev)]> m
        else <[key := putRaw idx (ev_key ev) (default "" (ev_value ev))]> m
    end.

(** ** The indexes describe the store *)

Definition docs_of (mergeAttrs : bool) (coll : gmap string string) : documents :=
  omap (doc_fields mergeAttrs) coll.

(** Away from the organizations in [F]. *)
Definition tracked (F : gset string) (m : searchIndexes) (objs : gmap (string * string * string) string) : Prop :=
  ∀ org coll idx, org ∉ F → ¬ str_in NUL org → m !! indexKey org coll = Some idx →
    Repr idx (docs_of (merge idx) (coll_of org coll objs)).

Lemma indexKey_inj o c o' c' : ¬ str_in NUL o → ¬ str_in NUL o' →
  indexKey o c = indexKey o' c' → o = o' ∧ c = c'.
Proof.
  unfold indexKey. revert o'. induction o as [|x o IH]; intros [|y o']; simpl; intros H1 H2 E;
    simplify_eq; try tauto.
  destruct (IH o') as [-> ->]; tauto.
Qed.

Lemma indexKey_prefix org o c : ¬ str_in NUL o → ¬ str_in NUL org →
  has_prefix (org +:+ String NUL "") (indexKey o c) = true ↔ o = org.
Proof.
  intros Ho Horg. rewrite has_prefix_true. split.
  - intros [r Hr]. rewrite app_string_assoc in Hr. cbn [String.append] in Hr.
    by apply (indexKey_inj o c org r) in Hr as [-> _].
  - intros ->. exists c. unfold indexKey. by rewrite app_string_assoc.
Qed.

Lemma merge_retract_terms id ts c : merge (foldl (retract_term id) c ts) = merge c.
Proof. revert c. induction ts as [|[]]; intros c; cbn [foldl]; [done|]. by rewrite IHts. Qed.

Lemma merge_put c id fs : merge (put c id fs) = merge c.
Proof.
  unfold put. pose proof (put_fields_spec id (map_to_list fs) (retract c id) []) as P.
  destruct (foldl _ _ _) as [c' ts']. destruct P as (_ & _ & _ & -> & _). apply merge_retract_terms.
Qed.

Lemma merge_remove c id : merge (remove c id) = merge c.
Proof. apply merge_retract_terms. Qed.

Lemma merge_putRaw c id raw : merge (putRaw c id raw) = merge c.
Proof. unfold putRaw. destruct (DecodeObject raw); [apply merge_put|apply merge_remove]. Qed.

Lemma doc_fields_full b raw fs : doc_fields b raw = Some fs → full_fields fs.
Proof. unfold doc_fields. destruct (DecodeObject raw); [|done]. intros [= <-]. apply Flatten_full. Qed.

(** Writing a document moves the index with the collection. *)
Lemma putRaw_Repr c coll id raw : Repr c (docs_of (merge c) coll) →
  Repr (putRaw c id raw) (docs_of (merge c) (<[id := raw]> coll)).
Proof.
  intros R. unfold docs_of.
  destruct (doc_fields (merge c) raw) as [fs|] eqn:E.
  - rewrite (omap_insert_Some _ _ _ _ fs) by done.
    unfold putRaw. pose proof E as Hfull%doc_fields_full. unfold doc_fields in E.
    destruct (DecodeObject raw); [|done]. injection E as ->. by apply put_Repr.
  - rewrite omap_insert_None by done. unfold putRaw. unfold doc_fields in E.
    destruct (DecodeObject raw); [done|]. by apply remove_Repr.
Qed.

Lemma remove_docs_of c coll id : Repr c (docs_of (merge c) coll) →
  Repr (remove c id) (docs_of (merge c) (delete id coll)).
Proof. intros R. unfold docs_of. rewrite omap_delete. by apply remove_Repr. Qed.

(** Events as the store emits them: a write carries its value, and organization
    names hold no NUL. *)
Definition wf_event (ev : Event) : Prop :=
  ¬ str_in NUL (ev_org ev) ∧ (ev_deleted ev = false → is_Some (ev_value ev)).

Lemma tracked_outside F F' m objs objs' : F ⊆ F' → agree_outside F' objs' objs → tracked F m objs → tracked F' m objs'.
Proof.
  intros Hs Ha Ht org coll idx HF Hn Hl. rewrite (coll_of_outside _ _ _ _ _ Ha HF). apply Ht; [set_solver|done..].
Qed.

Lemma observe_tracks F ev m objs :
  wf_event ev → tracked F m objs → tracked F (observe ev m) (apply_event ev objs).
Proof.
  intros [Hnul Hval] Ht org coll idx HF Horg. unfold observe, apply_event.
  destruct ev as [eo ec ek eval []]; cbn [ev_org ev_coll ev_key ev_value ev_deleted] in *.
  - destruct (decide (ec = "")) as [->|Hc].
    + rewrite decide_True by done. unfold dropOrg.
      intros [Hl Hp]%map_lookup_filter_Some. cbn [fst] in Hp.
      rewrite coll_of_drop. rewrite decide_False; [by apply Ht|].
      intros ->. pose proof (indexKey_prefix eo eo coll Hnul Hnul) as [_ Hx].
      rewrite Hx in Hp by done. done.
    + rewrite decide_False by tauto. rewrite coll_of_delete.
      destruct (m !! indexKey eo ec) as [old|] eqn:E.
      * intros [[Hk <-]|[Hk Hl]]%lookup_insert_Some.
        -- apply indexKey_inj in Hk as [-> ->]; [|done..]. rewrite decide_True by done.
           rewrite merge_remove. apply remove_docs_of. by apply Ht.
        -- rewrite decide_False by congruence. by apply Ht.
      * intros Hl. rewrite decide_False by congruence. by apply Ht.
  - rewrite decide_False by naive_solver. destruct (Hval eq_refl) as [v ->]. cbn [default].
    rewrite coll_of_put. destruct (m !! indexKey eo ec) as [old|] eqn:E.
    + intros [[Hk <-]|[Hk Hl]]%lookup_insert_Some.
      * apply indexKey_inj in Hk as [-> ->]; [|done..]. rewrite decide_True by done.
        rewrite merge_putRaw. apply putRaw_Repr. by apply Ht.
      * rewrite decide_False by congruence. by apply Ht.
    + intros Hl. rewrite decide_False by congruence. by apply Ht.
Qed.

Lemma observed_tracks F evs m objs :
  Forall wf_event evs → tracked F m objs → tracked F (observed [observe] m evs) (replay evs objs).
Proof.
  intros Hwf. revert m objs. induction Hwf as [|ev evs Hev Hwf IH]; intros m objs Ht; [done|].
  cbn [replay foldl observed]. apply IH. unfold watchers_emit. cbn [foldl]. by apply observe_tracks.
Qed.

(** A collection as the list a [Range] gives, in any order. *)
Lemma build_Repr c0 coll (docs : list (string * string)) :
  Repr c0 (docs_of (merge c0) coll) →
  Repr (build c0 docs) (docs_of (merge c0) (foldl (λ m kv, <[kv.1 := kv.2]> m) coll docs)) ∧
  merge (build c0 docs) = merge c0.
Proof.
  revert c0 coll. induction docs as [|[k v] docs IH]; intros c0 coll R; [done|].
  cbn [build foldl]. destruct (IH (putRaw c0 k v) (<[k := v]> coll)) as [R' Hm].
  - rewrite merge_putRaw. by apply putRaw_Repr.
  - rewrite merge_putRaw in *. done.
Qed.

Lemma foldl_insert_perm (coll : gmap string string) docs : docs ≡ₚ map_to_list coll →
  foldl (λ m kv, <[kv.1 := kv.2]> m) ∅ docs = coll.
Proof.
  intros Hp. assert (∀ l (m : gmap string string), NoDup l.*1 → (∀ k, k ∈ l.*1 → m !! k = None) →
    foldl (λ m kv, <[kv.1 := kv.2]> m) m l = list_to_map l ∪ m) as Hgo.
  { induction l as [|[k v] l IH]; intros m Hnd Hm; simpl.
    - by rewrite map_empty_union.
    - apply NoDup_cons in Hnd as [Hk Hnd]. rewrite IH.
      + rewrite <-insert_union_r, <-insert_union_l; [done|]. by apply not_elem_of_list_to_map_1.
      + done.
      + intros k' Hk'. rewrite lookup_insert_ne; [apply Hm; set_solver|].
        intros ->. set_solver. }
  rewrite Hgo.
  - rewrite map_union_empty. rewrite <-(list_to_map_to_list coll).
    apply list_to_map_proper; [|done]. rewrite Hp. apply NoDup_fst_map_to_list.
  - rewrite Hp. apply NoDup_fst_map_to_list.
  - intros k _. apply lookup_empty.
Qed.
End Registry.

(** ** Searches and writes in any order *)

(** What a server does: writes (alone or in transactions) and index lookups.
    A collection is always looked up with the same merge flag. *)
Inductive step := Write (a : action) | Lookup (org coll : string).

Definition clean_step (st : step) : Prop :=
  match st with
  | Write a => allowed_action wf_event a
  | Lookup org _ => ¬ str_in NUL org
  end.

(** Only the nodes collection is merged ([resolveIndex]). *)
Definition coll_merge (coll : string) : bool := bool_decide (coll = "nodes").

Section Steps.
Context `{Unicode} {B : Type} `{BackendSpec B}.
Abbreviation server := (Store B (gmap string collIndex)).

Definition run_step (s : server) (st : step) : server :=
  match st with
  | Write a => (run_action a s).2
  | Lookup org coll => (get org coll (coll_merge coll) s).2
  end.

Definition run_steps (sts : list step) (s : server) : server := foldl run_step s sts.

Definition current_outside (F : gset string) (s : server) : Prop :=
  watch s.2 = [observe] ∧ txbuf s.2 = None ∧ tracked F (obs s.2) (s_objs (view s.1)) ∧
  ∀ org coll idx, ¬ str_in NUL org → obs s.2 !! indexKey org coll = Some idx →
    merge idx = coll_merge coll.
Definition current : server → Prop := current_outside ∅.

(** A lookup answers with the index of the stored documents. *)
Lemma get_outside F org coll (s : server) : current_outside F s → ¬ str_in NUL org →
  match get org coll (coll_merge coll) s with
  | (Ok idx, s') => current_outside F s' ∧ view s'.1 = view s.1 ∧
      (org ∉ F → Repr idx (docs_of (coll_merge coll) (coll_of org coll (s_objs (view s.1)))))
  | (Err e, s') => e ≠ ErrConflict ∧ current_outside F s' ∧ view s'.1 = view s.1
  end.
Proof.
  intros (Hw & Hb & Ht & Hm) Hn. unfold get.
  destruct (obs s.2 !! indexKey org coll) as [idx|] eqn:E.
  { split; [done|]. split; [done|]. intros HF. rewrite <-(Hm org coll idx Hn E). by apply Ht. }
  destruct s as [b sh]. unfold Org_Range, st_bind, tally, lift. cbn [fst snd] in *.
  pose proof (Range_spec org coll b) as L. unfold reads in L.
  destruct (Range org coll b) as [[docs|e] b'].
  - destruct L as [Hd Hv]. cbn [fst snd obs with_obs with_counts].
    destruct (build_Repr (newCollIndex (coll_merge coll)) ∅ docs) as [R Hmg].
    { unfold docs_of. rewrite omap_empty. apply newCollIndex_Repr. }
    rewrite (foldl_insert_perm _ _ Hd) in R. cbn [merge newCollIndex] in R, Hmg.
    split; [|done]. split; [done|]. split; [done|]. cbn [snd fst obs with_obs with_counts]. rewrite Hv.
    rewrite insert_insert_eq. split.
    + intros o c i HF Ho [[Hk <-]|[_ Hl]]%lookup_insert_Some; [|by apply Ht].
      apply indexKey_inj in Hk as [-> ->]; [|done..]. by rewrite Hmg.
    + intros o c i Ho [[Hk <-]|[_ Hl]]%lookup_insert_Some; [|by apply (Hm o)].
      apply indexKey_inj in Hk as [-> ->]; done.
  - destruct L as [He Hv]. cbn [fst snd obs with_obs with_counts]. split; [done|]. split; [|done].
    rewrite delete_insert_id by done. split; [done|]. split; [done|]. cbn [fst snd obs with_obs with_counts].
    rewrite Hv. by split.
Qed.

Lemma get_current org coll (s : server) : current s → ¬ str_in NUL org →
  match get org coll (coll_merge coll) s with
  | (Ok idx, s') => current s' ∧ view s'.1 = view s.1 ∧
      Repr idx (docs_of (coll_merge coll) (coll_of org coll (s_objs (view s.1))))
  | (Err e, s') => e ≠ ErrConflict ∧ current s' ∧ view s'.1 = view s.1
  end.
Proof.
  intros Hs Hn. pose proof (get_outside ∅ org coll s Hs Hn) as L. destruct (get _ _ _ s) as [[]]; [|done].
  destruct L as (? & ? & L). split; [done|]. split; [done|]. apply L. set_solver.
Qed.

Lemma observed_merge evs m : Forall wf_event evs →
  (∀ org coll idx, ¬ str_in NUL org → m !! indexKey org coll = Some idx → merge idx = coll_merge coll) →
  ∀ org coll idx, ¬ str_in NUL org → observed [observe] m evs !! indexKey org coll = Some idx →
    merge idx = coll_merge coll.
Proof.
  intros Hwf. revert m. induction Hwf as [|ev evs [Hn _] Hwf IH]; intros m Hm; [done|].
  cbn [observed foldl]. apply IH. unfold watchers_emit. cbn [foldl].
  intros org coll idx Horg. unfold observe. case_decide.
  - intros [? _]%map_lookup_filter_Some. by apply (Hm org).
  - destruct (m !! indexKey _ _) as [old|] eqn:E; [|by apply Hm].
    destruct (ev_deleted ev);
      (intros [[Hk <-]|[_ ?]]%lookup_insert_Some; [|by apply (Hm org)]);
      apply indexKey_inj in Hk as [Ho <-]; try done;
      rewrite ?merge_remove, ?merge_putRaw; by apply (Hm (ev_org ev)).
Qed.

(** The organizations dropped in part in a run. *)
Definition step_half_dropped (st : step) (s : server) : gset string :=
  match st with Write a => half_dropped a s | Lookup _ _ => ∅ end.
Fixpoint steps_half_dropped (sts : list step) (s : server) : gset string :=
  match sts with
  | [] => ∅
  | st :: sts' => step_half_dropped st s ∪ steps_half_dropped sts' (run_step s st)
  end.

Lemma run_step_current F st (s : server) : clean_step st → current_outside F s →
  current_outside (F ∪ step_half_dropped st s) (run_step s st).
Proof.
  intros Hc Hs. destruct st as [a|org coll]; cbn [run_step step_half_dropped].
  - destruct Hs as (Hw & Hb & Ht & Hm).
    destruct (run_action_streamed wf_event a s Hc) as (evs & Hwf & [Hw' He] & Hr).
    rewrite Hb, Hw in He. destruct He as [Hb' Ho].
    split; [by rewrite Hw'|]. split; [done|]. rewrite Ho. split; [|by apply observed_merge].
    apply (tracked_outside F _ _ (replay evs (s_objs (view s.1)))); [set_solver| |by apply observed_tracks].
    eapply agree_outside_mono; [|done]. set_solver.
  - rewrite (right_id_L ∅ (∪)). pose proof (get_outside F org coll s Hs Hc) as Hg.
    destruct (get _ _ _ s) as [[]]; apply Hg.
Qed.

Lemma run_steps_outside F sts (s : server) :
  Forall clean_step sts → current_outside F s → current_outside (F ∪ steps_half_dropped sts s) (run_steps sts s).
Proof.
  intros Hc. revert F s. induction Hc as [|st sts Hst Hc IH]; intros F s Hs; cbn [steps_half_dropped run_steps foldl].
  - by rewrite (right_id_L ∅ (∪)).
  - rewrite (assoc_L (∪)). apply IH. by apply run_step_current.
Qed.

Lemma run_steps_current sts (s : server) : steps_half_dropped sts s = ∅ →
  Forall clean_step sts → current s → current (run_steps sts s).
Proof.
  intros He Hc Hs. pose proof (run_steps_outside ∅ sts s Hc Hs) as Hr. by rewrite He, (left_id_L ∅ (∪)) in Hr.
Qed.

Lemma steps_half_dropped_none sts (s : server) :
  (∀ o (b : B) e b', DeleteOrg o b = (Err e, b') → view b' = view b) → steps_half_dropped sts s = ∅.
Proof.
  intros Ha. revert s. induction sts as [|st sts IH]; intros s; [done|]. cbn [steps_half_dropped]. rewrite IH.
  destruct st as [a|]; cbn [step_half_dropped]; [|set_solver].
  pose proof (half_dropped_none [a] s Ha) as Hn. cbn [half_dropped_in] in Hn. set_solver.
Qed.

Lemma new_current (b : B) : current (Watch observe (NewWithBackend b newSearchIndexes)).
Proof.
  split; [done|]. split; [done|]. cbn. split; intros ????; unfold newSearchIndexes;
    by rewrite lookup_empty.
Qed.
End Steps.

(** C24. After any sequence of writes, transactions and searches on any backend,
    looking up the index of a collection gives exactly the inverted index of the
    documents the store holds in it: what a rebuild from the store would give,
    with nothing stale, nothing missing and no empty posting kept. The only
    organizations left out are those whose drop, made outside a transaction,
    failed after it had removed objects, which emits no event
    ([steps_half_dropped]: none on a backend whose failed drop removes nothing).
    Organization names hold no NUL byte and deletes name a collection. *)
Theorem index_describes_store `{Unicode} `{BackendSpec B}
  (b : B) (sts : list step) (org coll : string) (idx : collIndex) s' :
  Forall clean_step sts → ¬ str_in NUL org →
  let s0 := Watch observe (NewWithBackend b newSearchIndexes) in
  let s := run_steps sts s0 in
  org ∉ steps_half_dropped sts s0 →
  get org coll (coll_merge coll) s = (Ok idx, s') →
  Repr idx (docs_of (coll_merge coll) (coll_of org coll (s_objs (view s.1)))).
Proof.
  intros Hc Hn s0 s HF Hg.
  pose proof (run_steps_outside ∅ sts s0 Hc (new_current b)) as Hs. rewrite (left_id_L ∅ (∪)) in Hs.
  pose proof (get_outside _ org coll s Hs Hn) as L. rewrite Hg in L. by apply L.
Qed.

(** Closed facts about names. *)
Ltac solve_clean :=
  lazymatch goal with
  | |- ¬ _ => apply (bool_decide_unpack _); vm_compute; exact I
  | |- _ → False => apply (bool_decide_unpack _); vm_compute; exact I
  | |- _ => cbn; first [exact I | eexists; reflexivity | intros; discriminate]
  end.

(** A session: a search before, between and after writes to the same documents. *)
Definition sample_steps : list step :=
  let doc (v : string) := "{" +:+ print_string id "role" +:+ ":" +:+ print_string id v +:+ "}" in
  [ Write (One (WCreateOrg "acme")); Write (One (WPut "acme" "nodes" "n1" (doc "web")));
    Lookup "acme" "nodes"; Write (One (WPut "acme" "nodes" "n1" (doc "db")));
    Write (Atomically [WPut "acme" "nodes" "n2" (doc "web")] None);
    Write (Atomically [WPut "acme" "nodes" "n3" (doc "web")] (Some ErrConflict));
    Write (One (WDelete "acme" "nodes" "n1")) ].

Lemma sample_steps_clean : Forall clean_step sample_steps.
Proof.
  unfold sample_steps. repeat (apply Forall_cons_2 || apply Forall_nil_2);
    cbn [clean_step allowed_action]; unfold allowed, wf_event;
    repeat (apply Forall_cons_2 || apply Forall_nil_2 || apply conj); solve_clean.
Qed.

Lemma index_describes_store_witness :
  let s := run_steps (H := caseless_unicode) sample_steps
             (Watch (observe (H := caseless_unicode)) (NewWithBackend Memory.NewMemoryBackend newSearchIndexes)) in
  match get (H := caseless_unicode) "acme" "nodes" (coll_merge "nodes") s with
  | (Ok idx, _) =>
      Repr idx (docs_of (H := caseless_unicode) (coll_merge "nodes")
                  (coll_of "acme" "nodes" (s_objs (view s.1))))
  | (Err _, _) => False
  end.
Proof.
  intros s.
  assert (is_Ok (get (H := caseless_unicode) "acme" "nodes" (coll_merge "nodes") s).1 = true) as Hok
    by (vm_compute; reflexivity).
  destruct (get _ _ _ s) as [[idx|e] s'] eqn:E; [|discriminate Hok].
  assert (¬ str_in NUL "acme") as Hn by solve_clean.
  assert ("acme" ∉ steps_half_dropped (H := caseless_unicode) sample_steps
    (Watch (observe (H := caseless_unicode)) (NewWithBackend Memory.NewMemoryBackend newSearchIndexes))) as HF
    by (rewrite steps_half_dropped_none by apply memory_DeleteOrg_atomic; apply not_elem_of_empty).
  exact (@index_describes_store caseless_unicode Memory.memoryBackend _ _
           Memory.NewMemoryBackend sample_steps "acme" "nodes" idx s' sample_steps_clean Hn HF E).
Defined.

(** The documents of that session, as the planner sees them. *)
Example sample_index :
  let s := run_steps (H := caseless_unicode) sample_steps
             (Watch (observe (H := caseless_unicode)) (NewWithBackend Memory.NewMemoryBackend newSearchIndexes)) in
  match get (H := caseless_unicode) "acme" "nodes" true s with
  | (Ok idx, _) => elements (Exact idx "role" "web") = ["n2"] ∧ elements (all idx) = ["n2"]
  | _ => False
  end.
Proof. vm_compute. done. Qed.
