(* ===== verification/Search.v ===== *)
(** * internal/api/search.go: answering a query

    The flatten cache, the scan of a collection, the lookup through the inverted
    index with its two ways of fetching the rows, and the result window. The
    lookup is proved to answer exactly what a scan of the store would. *)
From S2P Require Import Prelude GoText Json Chefjson Query Plan Flatten Store Facade SearchIndex.
#[local] Open Scope go_scope.

(** ** The flatten cache *)

Record searchEntry := mkEntry { e_raw : string; e_merged : list (string * value); e_fields : fields }.

Record searchCache := mkCache { c_m : gmap string searchEntry; c_n : Z }.

Definition newSearchCache : searchCache := mkCache ∅ 0.

Definition maxSearchCacheEntries : Z := 16384.

Definition cache_store (key : string) (e : searchEntry) (c : searchCache) : searchCache :=
  let c := if decide (maxSearchCacheEntries ≤ c_n c)%Z then mkCache ∅ 0 else c in
  mkCache (<[key := e]> (c_m c)) (match c_m c !! key with Some _ => c_n c | None => wrap_int64 (c_n c + 1) end).

(** [bytes.Equal]. *)
Definition sameBytes (a b : string) : bool := bool_decide (a = b).

Section Search.
Context `{Unicode} `{Float64} {B : Type} `{Backend B}.

Definition searchDocCached (coll id raw : string) (c : searchCache) : option fields :=
  match c_m c !! (coll +:+ String NUL id) with
  | Some e => if sameBytes (e_raw e) raw then Some (e_fields e) else None
  | None => None
  end.

Definition searchDoc (coll id raw : string) (mergeAttrs : bool) (c : searchCache)
  : option (list (string * value) * fields) * searchCache :=
  let key := coll +:+ String NUL id in
  let miss :=
    match DecodeObject raw with
    | Err _ => (None, c)
    | Ok doc =>
        let searchable := if mergeAttrs then nodeSearchDoc doc else doc in
        let fs := Flatten searchable in
        (Some (searchable, fs), cache_store key (mkEntry raw searchable fs) c)
    end in
  match c_m c !! key with
  | Some e => if sameBytes (e_raw e) raw then (Some (e_merged e, e_fields e), c) else miss
  | None => miss
  end.

(** ** Scanning *)

Abbreviation match_ := (string * string)%type.    (* id and raw *)
Abbreviation api := (Store B (gmap string collIndex) * searchCache)%type.

Definition by_id (a b : match_) : Prop := String.le a.1 b.1.
#[global] Instance by_id_dec a b : Decision (by_id a b).
Proof. unfold by_id. apply _. Defined.

(** [sort.Slice] by id. *)
Definition sort_matches (l : list match_) : list match_ := merge_sort by_id l.

(** A store operation of the handler. *)
Definition on_store {A} (m : ST (Store B (gmap string collIndex)) A) : ST api A := λ '(s, c),
  let '(r, s') := m s in (r, (s', c)).

Definition collectAll (org coll : string) : ST api (list match_) :=
  let! docs := on_store (Org_Range org coll) in st_ret (sort_matches docs).

(** The callback of the scan: a document is matched from the cache or left for
    the second pass. *)
Definition scan_one (coll : string) (q : Query) (c : searchCache)
    (acc : list match_ * list match_) (d : match_) : list match_ * list match_ :=
  match searchDocCached coll d.1 d.2 c with
  | Some fs => if Matches q fs then (acc.1 ++ [d], acc.2) else acc
  | None => (acc.1, acc.2 ++ [d])
  end.

(** The second pass flattens the documents the cache missed. Its iterations
    write their own slots and the cache, so they are taken in order. *)
Fixpoint match_misses (coll : string) (mergeAttrs : bool) (q : Query) (ms : list match_) (c : searchCache)
  : list match_ * searchCache :=
  match ms with
  | [] => ([], c)
  | d :: ms' =>
      let '(r, c) := searchDoc coll d.1 d.2 mergeAttrs c in
      let '(l, c) := match_misses coll mergeAttrs q ms' c in
      (match r with Some (_, fs) => if Matches q fs then d :: l else l | None => l end, c)
  end.

Definition collectMatches (org coll : string) (mergeAttrs : bool) (q : Query) : ST api (list match_) :=
  let! docs := on_store (Org_Range org coll) in
  λ '(s, c),
    let '(hits, misses) := foldl (scan_one coll q c) ([], []) docs in
    let '(more, c) := match_misses coll mergeAttrs q misses c in
    (Ok (sort_matches (hits ++ more)), (s, c)).

(** ** Through the index *)

Fixpoint view_each (org coll : string) (ids : list string) : ST api (list match_) :=
  match ids with
  | [] => st_ret []
  | id :: ids' =>
      let! raw := on_store (Org_View org coll id) in
      let! rest := view_each org coll ids' in
      st_ret (match raw with Some r => (id, r) :: rest | None => rest end)
  end.

Definition fetchMatches (org coll : string) (ids : gset string) (indexed : nat) : ST api (list match_) :=
  if decide (0 < indexed ∧ indexed ≤ size ids * 4) then
    let! docs := on_store (Org_Range org coll) in
    st_ret (sort_matches (filter (λ d, d.1 ∈ ids) docs))
  else
    let! ms := view_each org coll (elements ids) in
    st_ret (sort_matches ms).

Definition findMatches (org coll : string) (mergeAttrs : bool) (q : Query) : ST api (list match_) :=
  let! ci := on_store (get org coll mergeAttrs) in
  match Plan q ci with
  | None => collectMatches org coll mergeAttrs q
  | Some ids => fetchMatches org coll ids (size_ ci)
  end.
End Search.

(** ** The result window *)

Definition clamp (v lo hi : Z) : Z :=
  if decide (v < lo)%Z then lo else if decide (hi < v)%Z then hi else v.

(** The bounds of the slice of the matches that is returned, in Go's 64-bit
    arithmetic. *)
Definition window (start rows total : Z) : Z * Z :=
  let lo := clamp start 0 total in
  let hi := if decide (rows ≤ wrap_int64 (total - lo))%Z then wrap_int64 (lo + rows) else total in
  (lo, hi).

Lemma wrap_int64_id z : (min_int64 ≤ z ≤ max_int64)%Z → wrap_int64 z = z.
Proof. unfold wrap_int64, min_int64, max_int64. intros. rewrite Z.mod_small by lia. lia. Qed.

(** Whatever 64-bit start and row counts a client asks for, the window is a
    valid slice of the matches: it starts at [start] (or at the end) and holds
    [rows] rows or what is left, and no sum in it overflows. *)
Lemma window_bounds (start rows total : Z) :
  (0 ≤ start ≤ max_int64)%Z → (0 ≤ rows ≤ max_int64)%Z → (0 ≤ total ≤ max_int64)%Z →
  let '(lo, hi) := window start rows total in
  (0 ≤ lo ≤ hi ∧ hi ≤ total ∧ lo = Z.min start total ∧ hi - lo = Z.min rows (total - lo))%Z.
Proof.
  unfold max_int64, window, clamp. intros Hs Hr Ht.
  assert (∀ lo, 0 ≤ lo ≤ total → wrap_int64 (total - lo) = total - lo)%Z as Hw.
  { intros lo Hlo. apply wrap_int64_id. unfold min_int64, max_int64. lia. }
  assert (∀ lo, 0 ≤ lo ≤ total → rows ≤ total - lo → wrap_int64 (lo + rows) = lo + rows)%Z as Hw'.
  { intros lo Hlo Hle. apply wrap_int64_id. unfold min_int64, max_int64. lia. }
  rewrite (decide_False (P := (start < 0)%Z)) by lia.
  case_decide; rewrite Hw by lia; case_decide; rewrite ?Hw' by lia; lia.
Qed.

(** ** The lookup is the scan *)

#[global] Instance by_id_trans : Transitive by_id.
Proof. intros a b c. unfold by_id. apply transitivity. Qed.
#[global] Instance by_id_total : Total by_id.
Proof. intros a b. unfold by_id. apply (total String.le). Qed.

Lemma sort_matches_unique (l k : list (string * string)) :
  NoDup l.*1 → l ≡ₚ k → sort_matches l = sort_matches k.
Proof.
  intros Hnd Hp.
  assert (∀ l', StronglySorted by_id (sort_matches l')) as Hs.
  { intros l'. apply StronglySorted_merge_sort; apply _. }
  eapply (StronglySorted_unique_strong by_id); [|apply Hs|apply Hs|].
  - intros [i r] [j t] Hi Hj Hij Hji. unfold by_id in *. simpl in *.
    assert (i = j) as <- by (by apply (anti_symm String.le)).
    unfold sort_matches in Hi, Hj. rewrite merge_sort_Permutation in Hi, Hj. rewrite <-Hp in Hj.
    f_equal. clear -Hnd Hi Hj. induction l as [|[a b] l IH]; [set_solver|].
    apply NoDup_cons in Hnd as [Ha Hnd]. cbn [fst] in Ha.
    apply elem_of_cons in Hi as [Hi|Hi], Hj as [Hj|Hj]; simplify_eq; try done; [..|by apply IH];
      destruct Ha; by eapply (list_elem_of_fmap_2 fst l (a, _)).
  - unfold sort_matches. by rewrite !merge_sort_Permutation.
Qed.

Section Answer.
Context `{Unicode} `{Float64}.

(** Whether a stored document matches. *)
Definition matches_raw (mergeAttrs : bool) (q : Query) (raw : string) : bool :=
  match doc_fields mergeAttrs raw with Some fs => Matches q fs | None => false end.

(** The rows of a collection a query answers, sorted by id. *)
Definition answer (mergeAttrs : bool) (q : Query) (coll : gmap string string) : list (string * string) :=
  sort_matches (filter (λ d, matches_raw mergeAttrs q d.2 = true) (map_to_list coll)).

Lemma answer_perm m q coll docs : docs ≡ₚ map_to_list coll →
  sort_matches (filter (λ d, matches_raw m q d.2 = true) docs) = answer m q coll.
Proof.
  intros Hp. apply sort_matches_unique; [|by rewrite Hp].
  eapply sublist_NoDup; [|apply fmap_sublist, sublist_filter].
  rewrite Hp. apply NoDup_fst_map_to_list.
Qed.

(** *** The cache *)

(** A document as searches see it: its merged view and its fields. *)
Definition searchable_doc (mergeAttrs : bool) (raw : string) : option (list (string * value) * fields) :=
  match DecodeObject raw with
  | Err _ => None
  | Ok doc => let searchable := if mergeAttrs then nodeSearchDoc doc else doc in Some (searchable, Flatten searchable)
  end.
Lemma searchable_doc_fields m raw : snd <$> searchable_doc m raw = doc_fields m raw.
Proof. unfold searchable_doc, doc_fields. by destruct (DecodeObject raw). Qed.

(** Every entry is what flattening its bytes gives. *)
Definition cache_ok (c : searchCache) : Prop :=
  ∀ coll id e, ¬ str_in NUL coll → c_m c !! (coll +:+ String NUL id) = Some e →
    searchable_doc (coll_merge coll) (e_raw e) = Some (e_merged e, e_fields e).

Lemma newSearchCache_ok : cache_ok newSearchCache.
Proof. intros ????. cbn. by rewrite lookup_empty. Qed.

Lemma searchDocCached_ok c coll id raw fs : cache_ok c → ¬ str_in NUL coll →
  searchDocCached coll id raw c = Some fs → doc_fields (coll_merge coll) raw = Some fs.
Proof.
  intros Hc Hn. unfold searchDocCached, sameBytes. destruct (c_m c !! _) as [e|] eqn:E; [|done].
  case_bool_decide as Hr; [|done]. intros [= <-]. rewrite <-Hr, <-searchable_doc_fields. by erewrite Hc.
Qed.

Lemma searchDoc_ok c coll id raw : cache_ok c → ¬ str_in NUL coll →
  let '(r, c') := searchDoc coll id raw (coll_merge coll) c in
  cache_ok c' ∧ r = searchable_doc (coll_merge coll) raw.
Proof.
  intros Hc Hn. unfold searchDoc, sameBytes.
  assert (let '(r, c') := match DecodeObject raw with
    | Ok doc => let searchable := if coll_merge coll then nodeSearchDoc doc else doc in
        (Some (searchable, Flatten searchable),
         cache_store (coll +:+ String NUL id) (mkEntry raw searchable (Flatten searchable)) c)
    | Err _ => (None, c) end in
    cache_ok c' ∧ r = searchable_doc (coll_merge coll) raw) as Hmiss.
  { unfold searchable_doc. destruct (DecodeObject raw) as [doc|] eqn:Ed; [|done]. split; [|done].
    intros coll' id' e Hn'. unfold cache_store. cbn [c_m].
    intros [[Hk <-]|[_ Hl]]%lookup_insert_Some.
    - apply (indexKey_inj coll id coll' id' Hn Hn') in Hk as [<- <-].
      unfold searchable_doc. cbn [e_raw e_fields e_merged]. by rewrite Ed.
    - case_decide; [cbn in Hl; by rewrite lookup_empty in Hl|by eapply Hc]. }
  destruct (c_m c !! _) as [e|] eqn:E; [|exact Hmiss].
  case_bool_decide as Hr; [|exact Hmiss]. split; [done|]. subst raw. by rewrite (Hc _ _ _ Hn E).
Qed.

(** *** The scan *)

Lemma scan_docs_spec c coll q docs : cache_ok c → ¬ str_in NUL coll → ∀ hs ms,
  let '(hits, misses) := foldl (scan_one coll q c) (hs, ms) docs in
  ∀ keep, (∀ d, keep d = matches_raw (coll_merge coll) q d.2) →
  hits ++ filter (λ d, keep d = true) misses ≡ₚ
  hs ++ filter (λ d, keep d = true) ms ++ filter (λ d, keep d = true) docs.
Proof.
  intros Hc Hn. induction docs as [|d docs IH]; intros hs ms; cbn [foldl].
  { intros keep _. by rewrite filter_nil, app_nil_r. }
  unfold scan_one at 2. destruct (searchDocCached coll d.1 d.2 c) as [fs|] eqn:E.
  - apply searchDocCached_ok in E as Hf; [|done..].
    assert (matches_raw (coll_merge coll) q d.2 = Matches q fs) as Hm.
    { unfold matches_raw. by rewrite Hf. }
    destruct (Matches q fs) eqn:Em.
    + specialize (IH (hs ++ [d]) ms). destruct (foldl _ _ docs) as [hits misses].
      intros keep Hk. rewrite IH by done. rewrite filter_cons_True by (by rewrite Hk).
      solve_Permutation.
    + specialize (IH hs ms). destruct (foldl _ _ docs) as [hits misses].
      intros keep Hk. rewrite IH by done.
      rewrite filter_cons_False by (rewrite Hk, Hm; done). done.
  - specialize (IH hs (ms ++ [d])). destruct (foldl _ _ docs) as [hits misses].
    intros keep Hk. rewrite IH by done. rewrite filter_app.
    destruct (decide (keep d = true)).
    + rewrite !filter_cons_True, filter_nil by done. solve_Permutation.
    + rewrite !filter_cons_False, filter_nil by done. solve_Permutation.
Qed.

Lemma match_misses_spec coll q ms c : cache_ok c → ¬ str_in NUL coll →
  let '(l, c') := match_misses coll (coll_merge coll) q ms c in
  cache_ok c' ∧ l = filter (λ d, matches_raw (coll_merge coll) q d.2 = true) ms.
Proof.
  intros Hc Hn. revert c Hc. induction ms as [|d ms IH]; intros c Hc; [done|]. cbn [match_misses].
  pose proof (searchDoc_ok c coll d.1 d.2 Hc Hn) as Hd.
  destruct (searchDoc _ _ _ _ c) as [r c1]. destruct Hd as [Hc1 Hr].
  specialize (IH c1 Hc1). destruct (match_misses _ _ _ ms c1) as [l c2]. destruct IH as [Hc2 ->].
  split; [done|].
  assert (matches_raw (coll_merge coll) q d.2 =
    match r with Some (_, fs) => Matches q fs | None => false end) as Hm.
  { unfold matches_raw. rewrite <-searchable_doc_fields, <-Hr. by destruct r as [[]|]. }
  destruct r as [[mg fs]|].
  - destruct (Matches q fs).
    + by rewrite filter_cons_True.
    + rewrite filter_cons_False by (by rewrite Hm). done.
  - rewrite filter_cons_False by (by rewrite Hm). done.
Qed.
End Answer.

Section Equiv.
Context `{Unicode} `{Float64} {B : Type} `{BackendSpec B}.
Abbreviation api := (Store B (gmap string collIndex) * searchCache)%type.

(** A server whose indexes and cache are what its store says. *)
Definition settled (a : api) : Prop := current a.1 ∧ cache_ok a.2.

(** A search step reads: on success it answers [P], and either way the store
    holds what it held and the server is still settled. *)
Definition searches {A} (m : ST api A) (a : api) (P : A → Prop) : Prop :=
  match m a with
  | (Ok x, a') => P x ∧ settled a' ∧ view a'.1.1 = view a.1.1
  | (Err e, a') => e ≠ ErrConflict ∧ settled a' ∧ view a'.1.1 = view a.1.1
  end.

Lemma searches_bind {A C} (m : ST api A) (k : A → ST api C) a P Q :
  searches m a P →
  (∀ x a', P x → settled a' → view a'.1.1 = view a.1.1 → searches (k x) a' Q) →
  searches (st_bind m k) a Q.
Proof.
  unfold searches, st_bind. intros Hm Hk. destruct (m a) as [[x|e] a']; [|done].
  destruct Hm as (Hx & Ha & Hv). specialize (Hk x a' Hx Ha Hv).
  destruct (k x a') as [[]]; rewrite <-Hv; done.
Qed.

Lemma searches_ret {A} (x : A) a (P : A → Prop) : P x → settled a → searches (st_ret x) a P.
Proof. done. Qed.

Lemma current_counts f b (sh : shared (gmap string collIndex)) b' :
  current (b, sh) → view b' = view b → current (b', with_counts f sh).
Proof. intros (? & ? & ? & ?) Hv. split; [done|]. split; [done|]. cbn [fst snd] in *. by rewrite Hv. Qed.

Lemma Range_searches org coll a : settled a →
  searches (on_store (Org_Range org coll)) a
    (λ docs, docs ≡ₚ map_to_list (coll_of org coll (s_objs (view a.1.1)))).
Proof.
  destruct a as [[b sh] c]. intros [Hs Hc]. unfold searches, on_store, Org_Range, st_bind, tally, lift.
  pose proof (Range_spec org coll b) as L. unfold reads in L.
  destruct (Range org coll b) as [[docs|e] b']; destruct L as [L Hv];
    (split; [done|]); (split; [|done]); (split; [|done]); by eapply current_counts.
Qed.

Lemma View_searches org coll key a : settled a →
  searches (on_store (Org_View org coll key)) a (λ v, v = coll_of org coll (s_objs (view a.1.1)) !! key).
Proof.
  destruct a as [[b sh] c]. intros [Hs Hc]. unfold searches, on_store, Org_View, st_bind, tally, lift.
  pose proof (Get_spec org coll key b) as L. unfold reads in L. cbn [fst snd]. rewrite lookup_coll_of.
  destruct (Get org coll key b) as [[docs|e] b']; destruct L as [L Hv];
    (split; [done|]); (split; [|done]); (split; [|done]); by eapply current_counts.
Qed.

Lemma collectAll_answers org coll a : settled a →
  searches (collectAll org coll) a (λ l, l = sort_matches (map_to_list (coll_of org coll (s_objs (view a.1.1))))).
Proof.
  intros Ha. eapply searches_bind; [by apply Range_searches|]. intros docs a' Hd Ha' _. apply searches_ret; [|done].
  symmetry. apply sort_matches_unique; [apply NoDup_fst_map_to_list|done].
Qed.

Lemma collectMatches_answers org coll q a : settled a → ¬ str_in NUL coll →
  searches (collectMatches org coll (coll_merge coll) q) a
    (λ l, l = answer (coll_merge coll) q (coll_of org coll (s_objs (view a.1.1)))).
Proof.
  intros Ha Hn. eapply searches_bind; [by apply Range_searches|].
  intros docs [s c] Hd [Hs Hc] Hv. unfold searches.
  pose proof (scan_docs_spec c coll q docs Hc Hn [] []) as Hscan.
  destruct (foldl _ _ docs) as [hits misses].
  pose proof (match_misses_spec coll q misses c Hc Hn) as Hmiss.
  destruct (match_misses _ _ _ misses c) as [more c']. destruct Hmiss as [Hc' ->].
  split; [|done]. rewrite <-(answer_perm _ _ _ _ Hd). symmetry. apply sort_matches_unique.
  - eapply sublist_NoDup; [|apply fmap_sublist, sublist_filter].
    rewrite Hd. apply NoDup_fst_map_to_list.
  - symmetry. apply (Hscan (λ d, matches_raw (coll_merge coll) q d.2)). done.
Qed.

Lemma view_each_answers org coll ids a : settled a →
  searches (view_each org coll ids) a
    (λ l, l = omap (λ id, pair id <$> coll_of org coll (s_objs (view a.1.1)) !! id) ids).
Proof.
  revert a. induction ids as [|id ids IH]; intros a Ha; [done|]. cbn [view_each].
  eapply searches_bind; [by apply View_searches|]. intros raw a' -> Ha' Hv.
  eapply searches_bind; [by apply IH|]. intros rest a'' -> Ha'' Hv'. apply searches_ret; [|done].
  rewrite Hv. cbn [omap list_omap]. by destruct (coll_of _ _ _ !! id).
Qed.

(** Both ways of fetching read the rows with the given ids. *)
Lemma fetchMatches_answers org coll ids indexed a : settled a →
  searches (fetchMatches org coll ids indexed) a
    (λ l, l = sort_matches (filter (λ d, d.1 ∈ ids)
                 (map_to_list (coll_of org coll (s_objs (view a.1.1)))))).
Proof.
  intros Ha. unfold fetchMatches. set (cl := coll_of org coll (s_objs (view a.1.1))).
  assert (NoDup (filter (λ d : string * string, d.1 ∈ ids) (map_to_list cl)).*1) as Hnd.
  { eapply sublist_NoDup; [apply (NoDup_fst_map_to_list cl)|apply fmap_sublist, sublist_filter]. }
  case_decide.
  - eapply searches_bind; [by apply Range_searches|]. intros docs a' Hd Ha' Hv.
    apply searches_ret; [|done]. symmetry. apply sort_matches_unique; [done|]. by rewrite Hd.
  - eapply searches_bind; [by apply view_each_answers|]. intros l a' -> Ha' Hv.
    apply searches_ret; [|done]. symmetry. apply sort_matches_unique; [done|]. fold cl.
    apply NoDup_Permutation.
    + eapply NoDup_fmap_1, Hnd.
    + assert (∀ l, NoDup l → NoDup (omap (λ id : string, pair id <$> cl !! id) l)) as Ho.
      { induction l as [|i l IH]; [constructor|]. intros [Hi Hl]%NoDup_cons. cbn.
        destruct (cl !! i); cbn; [|auto]. constructor; [|auto].
        intros (j & Hj & Hx)%list_elem_of_omap. destruct (cl !! j); simplify_eq/=. done. }
      apply Ho, NoDup_elements.
    + intros [i r]. rewrite list_elem_of_filter, elem_of_map_to_list, list_elem_of_omap. cbn [fst]. split.
      * intros [Hi Hr]. exists i. by rewrite elem_of_elements, Hr.
      * intros (j & Hj%elem_of_elements & Hx). destruct (cl !! j) eqn:E; simplify_eq/=. done.
Qed.

Lemma scan_docs_of m q (cl : gmap string string) id :
  id ∈ scan q (docs_of m cl) ↔ ∃ raw, cl !! id = Some raw ∧ matches_raw m q raw = true.
Proof.
  rewrite elem_of_scan. unfold docs_of, matches_raw. setoid_rewrite lookup_omap. split.
  - intros (fs & Hfs & Hm). destruct (cl !! id) as [raw|]; simplify_eq/=.
    exists raw. by rewrite Hfs.
  - intros (raw & -> & Hm). cbn. destruct (doc_fields m raw); [eauto|done].
Qed.

Lemma findMatches_answers org coll q a :
  settled a → ¬ str_in NUL org → ¬ str_in NUL coll → plannable q →
  searches (findMatches org coll (coll_merge coll) q) a
    (λ l, l = answer (coll_merge coll) q (coll_of org coll (s_objs (view a.1.1)))).
Proof.
  intros Ha Ho Hn Hq. unfold findMatches.
  eapply (searches_bind _ _ _ (λ ci, Repr ci (docs_of (coll_merge coll)
            (coll_of org coll (s_objs (view a.1.1)))))).
  - destruct a as [s c]. destruct Ha as [Hs Hc]. unfold searches, on_store.
    pose proof (get_current org coll s Hs Ho) as Hg.
    destruct (get _ _ _ s) as [[ci|e] s'] eqn:E; [by destruct Hg as (? & ? & ?)|].
    by destruct Hg as (? & ? & ?).
  - intros ci a' R Ha' Hv. apply Repr_view in R as Hp.
    destruct (Plan_spec ci _ (repr_full _ _ R) q Hq) as (ids & -> & ->).
    unfold searches. pose proof (fetchMatches_answers org coll (scan q (docs_of (coll_merge coll)
      (coll_of org coll (s_objs (view a.1.1))))) (size_ ci) a' Ha') as Hf. unfold searches in Hf.
    destruct (fetchMatches _ _ _ _ a') as [[l|e] a'']; [|done]. destruct Hf as (-> & ? & ?).
    split; [|split; [done|congruence]]. rewrite Hv. unfold answer. f_equal.
    generalize (coll_of org coll (s_objs (view a.1.1))). intros cl.
    assert (∀ l : list (string * string), (∀ d, d ∈ l → cl !! d.1 = Some d.2) →
      filter (λ d, d.1 ∈ scan q (docs_of (coll_merge coll) cl)) l =
      filter (λ d, matches_raw (coll_merge coll) q d.2 = true) l) as Hl.
    { induction l as [|d l IH]; intros Hd; [done|].
      pose proof (Hd d ltac:(set_solver)) as Hcl.
      assert (d.1 ∈ scan q (docs_of (coll_merge coll) cl) ↔ matches_raw (coll_merge coll) q d.2 = true) as Hiff.
      { rewrite scan_docs_of. split; [|eauto]. intros (raw & Hr & Hm). by simplify_eq. }
      destruct (decide (matches_raw (coll_merge coll) q d.2 = true)) as [Hm|Hm].
      - rewrite !filter_cons_True by tauto. f_equal. apply IH. set_solver.
      - rewrite !filter_cons_False by tauto. apply IH. set_solver. }
    apply Hl. intros [i r] Hir%elem_of_map_to_list. done.
Qed.
End Equiv.

(** C23. On a server whose indexes and cache follow its store, resolving a parsed
    query through the inverted index and scanning the whole collection answer
    the same rows: exactly the stored documents the query matches, sorted by id.
    Either leaves the store as it was and the server in step with it, also when
    the store fails under it. *)
Theorem search_is_scan `{Unicode} `{Float64} `{BackendSpec B}
  (a : Store B (gmap string collIndex) * searchCache) (org coll qs : string) (q : Query) :
  settled a → ¬ str_in NUL org → ¬ str_in NUL coll → Query.Parse qs = Done q →
  let rows := answer (coll_merge coll) q (coll_of org coll (s_objs (view a.1.1))) in
  searches (findMatches org coll (coll_merge coll) q) a (λ l, l = rows) ∧
  searches (collectMatches org coll (coll_merge coll) q) a (λ l, l = rows).
Proof.
  intros Ha Ho Hn Hq rows. split; [|by apply collectMatches_answers].
  apply findMatches_answers; try done. by eapply Parse_plannable.
Qed.

Definition sample_server : Store Memory.memoryBackend (gmap string collIndex) * searchCache :=
  (run_steps (H := caseless_unicode) sample_steps
     (Watch (observe (H := caseless_unicode)) (NewWithBackend Memory.NewMemoryBackend newSearchIndexes)),
   newSearchCache).

Lemma sample_settled : settled (H := caseless_unicode) sample_server.
Proof.
  split; [|intros ????; cbn; by rewrite lookup_empty].
  apply run_steps_current; [apply steps_half_dropped_none, memory_DeleteOrg_atomic|apply sample_steps_clean|].
  apply (@new_current caseless_unicode).
Qed.

Lemma search_is_scan_witness :
  ∃ q, Query.Parse (H := caseless_unicode) "role:w*" = Done q ∧
    searches (H := caseless_unicode)
      (findMatches (H := caseless_unicode) (H0 := digits_float) "acme" "nodes" (coll_merge "nodes") q)
      sample_server
      (λ l, l = answer (H := caseless_unicode) (H0 := digits_float) (coll_merge "nodes") q
                  (coll_of "acme" "nodes" (s_objs (view sample_server.1.1)))).
Proof.
  eexists. split; [vm_compute; reflexivity|].
  refine (proj1 (@search_is_scan caseless_unicode digits_float Memory.memoryBackend _ _
    sample_server "acme" "nodes" "role:w*" _ sample_settled _ _ _)); [solve_clean|solve_clean|].
  vm_compute. reflexivity.
Defined.
