(* ===== verification/Parallel.v ===== *)
(** * parallelFor (internal/api/search.go)

    The workers of a cold scan, which take indices off a shared counter and fill
    the flatten cache together, as a step relation: every atomic operation is a
    step, in any interleaving. A scan run so finds what the scan in order finds. *)
From stdpp Require Import relations pretty.
From S2P Require Import Prelude GoText Json Chefjson Float GoJson Query Plan Flatten Store Facade SearchIndex Search.
#[local] Open Scope go_scope.

(** ** Tasks and workers *)

Section Pool.
Context {C R : Type}.

(** What a call does to the shared state: one atomic operation after the other,
    the next depending on what the last saw. *)
Inductive task := Return (r : R) | Act (f : C → C * task).

Fixpoint run_task (t : task) (c : C) : R * C :=
  match t with Return r => (r, c) | Act f => let x := f c in run_task x.2 x.1 end.

Inductive worker := Ready | Running (i : nat) (t : task) | Finished.

(** The counter, the workers, the slots the calls write, and what they share. *)
Record pool := mkPool { p_next : nat; p_workers : list worker; p_slots : list (option R); p_shared : C }.

Context (n : nat) (fn : nat → task).

(** [next.Add(1) - 1] and the test against [n] are one step; a call that is done
    writes its slot. *)
Inductive pool_step : pool → pool → Prop :=
  | step_take next ws slots c w : ws !! w = Some Ready → next < n →
      pool_step (mkPool next ws slots c) (mkPool (S next) (<[w := Running next (fn next)]> ws) slots c)
  | step_end next ws slots c w : ws !! w = Some Ready → n ≤ next →
      pool_step (mkPool next ws slots c) (mkPool (S next) (<[w := Finished]> ws) slots c)
  | step_act next ws slots c w i f : ws !! w = Some (Running i (Act f)) →
      pool_step (mkPool next ws slots c) (mkPool next (<[w := Running i (f c).2]> ws) slots (f c).1)
  | step_return next ws slots c w i r : ws !! w = Some (Running i (Return r)) →
      pool_step (mkPool next ws slots c) (mkPool next (<[w := Ready]> ws) (<[i := Some r]> slots) c).

Definition start (k : nat) (c : C) : pool := mkPool 0 (replicate k Ready) (replicate n None) c.
(** [wg.Wait] returns. *)
Definition all_finished (p : pool) : Prop := Forall (λ w, w = Finished) (p_workers p).

(** ** Every call is made once, and each gives its own result *)

(** From any state where [inv] holds, and whatever others do that keeps it, the
    task keeps it and returns [r]. *)
Inductive yields (inv : C → Prop) (r : R) : task → Prop :=
  | yields_return : yields inv r (Return r)
  | yields_act f : (∀ c, inv c → inv (f c).1) → (∀ c, inv c → yields inv r (f c).2) → yields inv r (Act f).

Context (inv : C → Prop) (val : nat → R) (Hfn : ∀ i, i < n → yields inv (val i) (fn i)).

Record pool_ok (p : pool) : Prop := {
  ok_shared : inv (p_shared p);
  ok_length : length (p_slots p) = n;
  ok_running w i t : p_workers p !! w = Some (Running i t) → i < n ∧ i < p_next p ∧ yields inv (val i) t ∧ p_slots p !! i = Some None;
  ok_apart w w' i t t' : p_workers p !! w = Some (Running i t) → p_workers p !! w' = Some (Running i t') → w = w';
  ok_taken i : i < n → i < p_next p → (∃ w t, p_workers p !! w = Some (Running i t)) ∨ p_slots p !! i = Some (Some (val i));
  ok_left i : i < n → p_next p ≤ i → p_slots p !! i = Some None;
  ok_finished w : p_workers p !! w = Some Finished → n ≤ p_next p;
}.

Lemma start_ok k c : inv c → pool_ok (start k c).
Proof.
  intros Hc. constructor; cbn; try done; try (intros *; intros [Hw _]%lookup_replicate; done).
  - apply length_replicate.
  - intros i Hi. lia.
  - intros i Hi _. by apply lookup_replicate.
Qed.

(** A worker other than the one that moves. *)
Lemma moved {A} (ws : list A) w x v y : <[w := x]> ws !! v = Some y → (v = w ∧ y = x) ∨ (v ≠ w ∧ ws !! v = Some y).
Proof. intros [[-> [<- _]]|[Hne Hv]]%list_lookup_insert_Some; [by left|right; by split]. Qed.

Lemma take_ok next ws slots c w : pool_ok (mkPool next ws slots c) → ws !! w = Some Ready → next < n →
  pool_ok (mkPool (S next) (<[w := Running next (fn next)]> ws) slots c).
Proof.
  intros Hp Hw Hn. destruct Hp as [Hs Hl Hr Ha Ht Hf He]. cbn in *. constructor; cbn; try done.
  - intros v i t [[-> [= -> ->]]|[_ Hv]]%moved; [auto with lia|]. destruct (Hr _ _ _ Hv) as (? & ? & ? & ?). auto with lia.
  - intros v v' i t t' [[-> [= -> ->]]|[Hne Hv]]%moved [[-> E]|[Hne' Hv']]%moved; [done| | |by eapply Ha].
    + destruct (Hr _ _ _ Hv') as (_ & ? & _). lia.
    + injection E as -> _. destruct (Hr _ _ _ Hv) as (_ & ? & _). lia.
  - intros i Hi Hlt. destruct (decide (i = next)) as [->|Hne].
    + left. exists w, (fn next). apply list_lookup_insert_eq. by eapply lookup_lt_Some.
    + destruct (Ht i Hi ltac:(lia)) as [(v & t & Hv)|Hd]; [left|by right]. exists v, t. rewrite list_lookup_insert_ne; [done|congruence].
  - intros i Hi Hle. apply Hf; lia.
  - intros v [[_ [=]]|[_ Hv]]%moved. specialize (He _ Hv). lia.
Qed.

Lemma end_ok next ws slots c w : pool_ok (mkPool next ws slots c) → ws !! w = Some Ready → n ≤ next →
  pool_ok (mkPool (S next) (<[w := Finished]> ws) slots c).
Proof.
  intros Hp Hw Hn. destruct Hp as [Hs Hl Hr Ha Ht Hf He]. cbn in *. constructor; cbn; try done.
  - intros v i t [[_ [=]]|[_ Hv]]%moved. destruct (Hr _ _ _ Hv) as (? & ? & ? & ?). auto with lia.
  - intros v v' i t t' [[_ [=]]|[_ Hv]]%moved [[_ [=]]|[_ Hv']]%moved. by eapply Ha.
  - intros i Hi Hlt. destruct (Ht i Hi ltac:(lia)) as [(v & t & Hv)|Hd]; [left|by right]. exists v, t. rewrite list_lookup_insert_ne; [done|congruence].
  - intros i Hi Hle. lia.
  - intros v _. lia.
Qed.

Lemma act_ok next ws slots c w i f : pool_ok (mkPool next ws slots c) → ws !! w = Some (Running i (Act f)) →
  pool_ok (mkPool next (<[w := Running i (f c).2]> ws) slots (f c).1).
Proof.
  intros Hp Hw. destruct Hp as [Hs Hl Hr Ha Ht Hf He]. cbn in *. destruct (Hr _ _ _ Hw) as (Hi & Hlt & Hy & Hn).
  inversion Hy as [|f' Hinv Hnext]; subst. constructor; cbn; try done.
  - by apply Hinv.
  - intros v j t [[-> [= -> ->]]|[_ Hv]]%moved; [auto|by apply (Hr v)].
  - intros v v' j t t' [[-> [= -> ->]]|[Hne Hv]]%moved [[-> E]|[Hne' Hv']]%moved; [done|by eapply Ha| |by eapply Ha].
    injection E as -> _. by eapply Ha.
  - intros j Hj Hlt'. destruct (Ht j Hj Hlt') as [(v & t & Hv)|Hd]; [left|by right].
    destruct (decide (v = w)) as [->|Hne]; [exists w, (f c).2|exists v, t; by rewrite list_lookup_insert_ne].
    rewrite Hw in Hv. injection Hv as -> _. apply list_lookup_insert_eq. by eapply lookup_lt_Some.
  - intros v [[_ [=]]|[_ Hv]]%moved. by eapply He.
Qed.

Lemma return_ok next ws slots c w i r : pool_ok (mkPool next ws slots c) → ws !! w = Some (Running i (Return r)) →
  pool_ok (mkPool next (<[w := Ready]> ws) (<[i := Some r]> slots) c).
Proof.
  intros Hp Hw. destruct Hp as [Hs Hl Hr Ha Ht Hf He]. cbn in *. destruct (Hr _ _ _ Hw) as (Hi & Hlt & Hy & Hn).
  inversion Hy; subst. constructor; cbn; try done.
  - by rewrite length_insert.
  - intros v j t [[_ [=]]|[Hne Hv]]%moved. destruct (Hr _ _ _ Hv) as (? & ? & ? & ?). repeat split; try done.
    rewrite list_lookup_insert_ne; [done|]. intros ->. by destruct Hne, (Ha _ _ _ _ _ Hv Hw).
  - intros v v' j t t' [[_ [=]]|[_ Hv]]%moved [[_ [=]]|[_ Hv']]%moved. by eapply Ha.
  - intros j Hj Hlt'. destruct (decide (j = i)) as [->|Hne]; [right; apply list_lookup_insert_eq; by eapply lookup_lt_Some|].
    rewrite list_lookup_insert_ne by done. destruct (Ht j Hj Hlt') as [(v & t & Hv)|Hd]; [left|by right].
    exists v, t. rewrite list_lookup_insert_ne; [done|]. intros <-. congruence.
  - intros j Hj Hle. rewrite list_lookup_insert_ne by lia. auto.
  - intros v [[_ [=]]|[_ Hv]]%moved. by eapply He.
Qed.

Lemma pool_step_ok p p' : pool_step p p' → pool_ok p → pool_ok p'.
Proof. intros [] Hp; [by apply take_ok|by apply end_ok|by apply act_ok|by apply return_ok]. Qed.

Lemma reachable_ok k c p : inv c → rtc pool_step (start k c) p → pool_ok p.
Proof. intros Hc Hr. pose proof (start_ok k c Hc) as Hs. induction Hr as [|x y z Hxy _ IH]; [done|]. by apply IH, (pool_step_ok x). Qed.

(** When the last worker is done, every slot holds its result. *)
Lemma finished_slots p : pool_ok p → p_workers p ≠ [] → all_finished p → p_slots p = map (λ i, Some (val i)) (seq 0 n) ∧ inv (p_shared p).
Proof.
  intros Hp Hne Hf. split; [|apply Hp]. unfold all_finished in Hf. rewrite Forall_lookup in Hf.
  assert (n ≤ p_next p) as Hn.
  { destruct (p_workers p) as [|x ws] eqn:Ew; [done|]. apply (ok_finished _ Hp 0). rewrite Ew. cbn. f_equal. by apply (Hf 0). }
  apply list_eq. intros i. destruct (decide (i < n)) as [Hi|Hi].
  - rewrite list_lookup_fmap, lookup_seq_lt by done. cbn. destruct (ok_taken _ Hp i Hi ltac:(lia)) as [(w & t & Hw)| -> ]; [|done].
    by specialize (Hf _ _ Hw).
  - rewrite !lookup_ge_None_2; [done|rewrite length_map, length_seq; lia|rewrite (ok_length _ Hp); lia].
Qed.
End Pool.

(** ** Every run ends *)

Section Ends.
Context {C R : Type} (n : nat) (fn : nat → task (C := C) (R := R)).

(** At most [b] operations are left. *)
Inductive bounded : nat → task (C := C) (R := R) → Prop :=
  | bounded_return b r : bounded b (Return r)
  | bounded_act b f : (∀ c, bounded b (f c).2) → bounded (S b) (Act f).

Context (K : nat) (Hfn : ∀ i, bounded K (fn i)).

Inductive cost : worker (C := C) (R := R) → nat → Prop :=
  | cost_ready : cost Ready 1
  | cost_running i t b : bounded b t → cost (Running i t) (b + 2)
  | cost_finished : cost Finished 0.

(** The steps that may be left, from what is left of each call and of the counter. *)
Definition left_ (p : pool) (m : nat) : Prop := ∃ costs,
  Forall2 cost (p_workers p) costs ∧ m = sum_list costs + (n - p_next p) * (K + 3).

Lemma costs_move ws costs w x : Forall2 cost ws costs → ws !! w = Some x →
  ∃ a, cost x a ∧ ∀ y b, cost y b → ∃ costs', Forall2 cost (<[w := y]> ws) costs' ∧ sum_list costs' + a = sum_list costs + b.
Proof.
  intros Hc. revert w. induction Hc as [|v d ws costs Hv Hc IH]; intros [|w] Hw; try done.
  - injection Hw as ->. exists d. split; [done|]. intros y b Hy. exists (b :: costs). split; [by constructor|]. cbn. lia.
  - destruct (IH w Hw) as (a & Ha & Hm). exists a. split; [done|]. intros y b Hy. destruct (Hm y b Hy) as (costs' & Hc' & Hs).
    exists (d :: costs'). split; [by constructor|]. cbn. lia.
Qed.

Lemma step_decreases p p' m : pool_step n fn p p' → left_ p m → ∃ m', m' < m ∧ left_ p' m'.
Proof.
  intros Hs (costs & Hc & ->).
  destruct Hs as [next ws slots c w Hw Hn|next ws slots c w Hw Hn|next ws slots c w i f Hw|next ws slots c w i r Hw]; cbn [p_workers p_next] in *;
    destruct (costs_move _ _ _ _ Hc Hw) as (a & Ha & Hm).
  - inversion Ha; subst. destruct (Hm _ _ (cost_running next _ K (Hfn next))) as (costs' & Hc' & Hs).
    eexists. split; [|exists costs'; split; [exact Hc'|reflexivity]]. cbn [p_next]. nia.
  - inversion Ha; subst. destruct (Hm _ _ cost_finished) as (costs' & Hc' & Hs).
    eexists. split; [|exists costs'; split; [exact Hc'|reflexivity]]. cbn [p_next]. nia.
  - inversion Ha as [|i' t' b Hb|]; subst. inversion Hb as [|b' f' Hb']; subst. destruct (Hm _ _ (cost_running i _ b' (Hb' c))) as (costs' & Hc' & Hs).
    eexists. split; [|exists costs'; split; [exact Hc'|reflexivity]]. cbn [p_next]. lia.
  - inversion Ha as [|i' t' b Hb|]; subst. destruct (Hm _ _ cost_ready) as (costs' & Hc' & Hs).
    eexists. split; [|exists costs'; split; [exact Hc'|reflexivity]]. cbn [p_next]. lia.
Qed.

Lemma steps_bounded j p p' m : nsteps (pool_step n fn) j p p' → left_ p m → j ≤ m.
Proof.
  intros Hs. revert m. induction Hs as [|j x y z Hxy _ IH]; intros m Hm; [lia|].
  destruct (step_decreases _ _ _ Hxy Hm) as (m' & Hlt & Hm'). specialize (IH _ Hm'). lia.
Qed.

Lemma start_left k c : left_ (start n k c) (k + n * (K + 3)).
Proof.
  exists (replicate k 1). split; [cbn; induction k; cbn; repeat constructor; done|]. cbn [p_next start]. rewrite Nat.sub_0_r. f_equal.
  induction k; cbn; lia.
Qed.

(** A worker that is not done can move. *)
Lemma pool_progress p : ¬ all_finished p → ∃ p', pool_step n fn p p'.
Proof.
  destruct p as [next ws slots c]. unfold all_finished. cbn. intros Hn.
  assert (∃ w x, ws !! w = Some x ∧ x ≠ Finished) as (w & x & Hw & Hx).
  { induction ws as [|x ws IH]; [by destruct Hn|]. destruct x as [|i t|]; [by exists 0, Ready|by exists 0, (Running i t)|].
    destruct IH as (w & y & Hw & Hy); [intros Ha; apply Hn; by constructor|]. by exists (S w), y. }
  destruct x as [|i [r|f]|]; [|eexists; by eapply step_return|eexists; by eapply step_act|done].
  destruct (decide (next < n)); eexists; [by eapply step_take|eapply step_end; [done|lia]].
Qed.

Lemma all_finished_dec (p : pool (C := C) (R := R)) : Decision (all_finished p).
Proof. unfold all_finished. apply Forall_dec. intros [|i t|]; [right|right|left]; done. Defined.

Lemma pool_completes p m : left_ p m → ∃ p', rtc (pool_step n fn) p p' ∧ all_finished p'.
Proof.
  revert p. induction (lt_wf m) as [m _ IH]; intros p Hm. destruct (all_finished_dec p) as [Hf|Hf]; [by exists p|].
  destruct (pool_progress p Hf) as [p1 H1]. destruct (step_decreases _ _ _ H1 Hm) as (m1 & Hlt & Hm1).
  destruct (IH m1 Hlt p1 Hm1) as (p' & Hr & Hf'). exists p'. split; [by eapply rtc_l|done].
Qed.
End Ends.

(** ** The cold scan *)

Section Scan.
Context `{Unicode} `{Float64}.
Abbreviation ctask := (task (C := searchCache) (R := bool)).

(** [searchCache.store], with the load, clear, reset, swap and addition as they
    are made. *)
Definition store_task (key : string) (e : searchEntry) (k : ctask) : ctask :=
  let swap := Act (λ c, (mkCache (<[key := e]> (c_m c)) (c_n c),
    match c_m c !! key with Some _ => k | None => Act (λ c, (mkCache (c_m c) (wrap_int64 (c_n c + 1)), k)) end)) in
  Act (λ c, (c, if decide (maxSearchCacheEntries ≤ c_n c)%Z
                then Act (λ c, (mkCache ∅ (c_n c), Act (λ c, (mkCache (c_m c) 0, swap)))) else swap)).

Definition searchDoc_task (coll id raw : string) (mergeAttrs : bool) (k : option (list (string * value) * fields) → ctask) : ctask :=
  let key := coll +:+ String NUL id in
  let miss :=
    match DecodeObject raw with
    | Err _ => k None
    | Ok doc =>
        let searchable := if mergeAttrs then nodeSearchDoc doc else doc in
        let fs := Flatten searchable in
        store_task key (mkEntry raw searchable fs) (k (Some (searchable, fs)))
    end in
  Act (λ c, (c, match c_m c !! key with
                | Some e => if sameBytes (e_raw e) raw then k (Some (e_merged e, e_fields e)) else miss
                | None => miss
                end)).

Definition hits (q : Query) (r : option (list (string * value) * fields)) : bool :=
  match r with Some (_, fs) => Matches q fs | None => false end.
(** The call for one document: whether its slot is set. *)
Definition scan_task (coll : string) (mergeAttrs : bool) (q : Query) (d : string * string) : ctask :=
  searchDoc_task coll d.1 d.2 mergeAttrs (λ r, Return (hits q r)).

(** Alone, the task is the function. *)
Lemma run_searchDoc coll id raw mergeAttrs (k : option (list (string * value) * fields) → ctask) c :
  run_task (searchDoc_task coll id raw mergeAttrs k) c = let '(r, c') := searchDoc coll id raw mergeAttrs c in run_task (k r) c'.
Proof.
  assert (∀ key e k c, run_task (store_task key e k) c = run_task k (cache_store key e c)) as Hs.
  { intros key e k' [m z]. unfold store_task, cache_store. cbn -[decide]. case_decide; cbn -[decide].
    - by rewrite lookup_empty.
    - by destruct (m !! key). }
  unfold searchDoc_task, searchDoc. cbn [run_task fst snd].
  destruct (c_m c !! _) as [e|]; [destruct (sameBytes (e_raw e) raw); [done|]|]; destruct (DecodeObject raw); by rewrite ?Hs.
Qed.

(** [yields] for the caches that are right. *)
Lemma yields_store coll id raw sd fs r (k : ctask) : ¬ str_in NUL coll → searchable_doc (coll_merge coll) raw = Some (sd, fs) →
  yields cache_ok r k → yields cache_ok r (store_task (coll +:+ String NUL id) (mkEntry raw sd fs) k).
Proof.
  intros Hn Hd Hk. unfold store_task. cbn zeta.
  assert (yields cache_ok r (Act (λ c, (mkCache (<[coll +:+ String NUL id := mkEntry raw sd fs]> (c_m c)) (c_n c),
    match c_m c !! (coll +:+ String NUL id) with Some _ => k | None => Act (λ c, (mkCache (c_m c) (wrap_int64 (c_n c + 1)), k)) end)))) as Hswap.
  { constructor.
    - intros c Hc coll' id' e Hn'. cbn. intros [[Hk' <-]|[_ Hl]]%lookup_insert_Some; [|by eapply Hc].
      apply (indexKey_inj coll id coll' id' Hn Hn') in Hk' as [<- <-]. exact Hd.
    - intros c Hc. cbn. destruct (c_m c !! _); [done|]. constructor; [by intros ? ?|by intros ? _]. }
  constructor; [done|]. intros c Hc. cbn [snd]. case_decide; [|exact Hswap].
  constructor; [|intros c1 Hc1; cbn [snd]; constructor; [by intros ? ?|by intros ? _]].
  intros c1 _ coll' id' e _. cbn. by rewrite lookup_empty.
Qed.

Lemma scan_task_yields coll q d : ¬ str_in NUL coll →
  yields cache_ok (matches_raw (coll_merge coll) q d.2) (scan_task coll (coll_merge coll) q d).
Proof.
  intros Hn. assert (matches_raw (coll_merge coll) q d.2 = hits q (searchable_doc (coll_merge coll) d.2)) as Hm.
  { unfold matches_raw, hits. rewrite <-searchable_doc_fields. by destruct (searchable_doc _ d.2) as [[]|]. }
  rewrite Hm. unfold scan_task, searchDoc_task. cbn zeta.
  assert (yields cache_ok (hits q (searchable_doc (coll_merge coll) d.2)) (match DecodeObject d.2 with
    | Err _ => Return (hits q None)
    | Ok doc => store_task (coll +:+ String NUL d.1) (mkEntry d.2 (if coll_merge coll then nodeSearchDoc doc else doc)
        (Flatten (if coll_merge coll then nodeSearchDoc doc else doc)))
        (Return (hits q (Some (if coll_merge coll then nodeSearchDoc doc else doc, Flatten (if coll_merge coll then nodeSearchDoc doc else doc)))))
    end)) as Hmiss.
  { destruct (DecodeObject d.2) as [doc|e] eqn:Ed; unfold searchable_doc; rewrite Ed; [|constructor].
    apply yields_store; [done|unfold searchable_doc; by rewrite Ed|constructor]. }
  constructor; [done|]. intros c Hc. cbn [snd]. destruct (c_m c !! _) as [e|] eqn:E; [|exact Hmiss].
  unfold sameBytes. case_bool_decide as Hr; [|exact Hmiss]. rewrite <-Hr, (Hc _ _ _ Hn E). constructor.
Qed.

(** A task makes at most six operations. *)
Lemma scan_task_bounded coll mergeAttrs q d : bounded 6 (scan_task coll mergeAttrs q d).
Proof.
  assert (∀ b (t : ctask), bounded b t → bounded (S b) t) as Hw.
  { intros b t Ht. induction Ht as [b r|b f Hf IH]; [constructor|]. constructor. apply IH. }
  assert (∀ key e b, bounded 5 (store_task key e (Return b))) as Hs.
  { intros key e b. unfold store_task. cbn zeta. constructor. intros c. cbn [snd]. case_decide.
    - constructor. intros c1. cbn [snd]. constructor. intros c2. cbn [snd]. constructor. intros c3. cbn [snd].
      destruct (c_m c3 !! key); [constructor|]. constructor. intros c4. constructor.
    - apply Hw, Hw. constructor. intros c3. cbn [snd]. destruct (c_m c3 !! key); [constructor|]. constructor. intros c4. constructor. }
  unfold scan_task, searchDoc_task. cbn zeta. constructor. intros c. cbn [snd].
  destruct (c_m c !! _) as [e|]; [destruct (sameBytes (e_raw e) d.2); [constructor|]|]; destruct (DecodeObject d.2); first [apply Hs|constructor].
Qed.
End Scan.

Section ParallelFor.
Context `{Unicode} `{Float64}.

(** The state a fan-out over the documents starts from, for [k] workers. *)
Definition scan_fn (coll : string) (mergeAttrs : bool) (q : Query) (misses : list (string * string)) (i : nat) : task (C := searchCache) (R := bool) :=
  match misses !! i with Some d => scan_task coll mergeAttrs q d | None => Return false end.
Definition scan_step (coll : string) (mergeAttrs : bool) (q : Query) (misses : list (string * string)) :=
  pool_step (length misses) (scan_fn coll mergeAttrs q misses).

(** The documents whose slot is set. *)
Definition selected (misses : list (string * string)) (slots : list (option bool)) : list (string * string) :=
  omap (λ x, match x with (d, Some true) => Some d | _ => None end) (zip misses slots).

Definition serialThreshold : nat := 64.
(** What the second pass of a scan may leave, on [procs] processors: few documents
    are matched in order, more of them by workers in some interleaving. *)
Definition scanned (procs : nat) (coll : string) (mergeAttrs : bool) (q : Query) (misses : list (string * string)) (c : searchCache)
    (found : list (string * string)) (c' : searchCache) : Prop :=
  if decide (length misses < serialThreshold ∨ procs ≤ 1) then match_misses coll mergeAttrs q misses c = (found, c')
  else ∃ p, rtc (scan_step coll mergeAttrs q misses) (start (length misses) (procs `min` length misses) c) p ∧
         all_finished p ∧ found = selected misses (p_slots p) ∧ c' = p_shared p.

Lemma selected_all misses (f : string * string → bool) : selected misses (map (λ d, Some (f d)) misses) = filter (λ d, f d = true) misses.
Proof. induction misses as [|d misses IH]; [done|]. rewrite filter_cons. unfold selected in *. cbn [map zip zip_with omap list_omap]. destruct (f d); cbn; by rewrite <-IH. Qed.
End ParallelFor.

(** C29. However many workers share the flatten cache and however they are scheduled,
    a cold scan finds the documents the scan in order finds, and leaves a cache
    that is right. *)
Theorem concurrent_scan_exact `{Unicode} `{Float64} (procs : nat) (coll : string) (q : Query) (misses : list (string * string))
    (c : searchCache) (found : list (string * string)) (c' : searchCache) (Hc : cache_ok c) (Hn : ¬ str_in NUL coll)
    (Hs : scanned procs coll (coll_merge coll) q misses c found c') :
  found = (match_misses coll (coll_merge coll) q misses c).1 ∧ cache_ok c'.
Proof.
  pose proof (match_misses_spec coll q misses c Hc Hn) as Hm. unfold scanned in Hs.
  destruct (decide _) as [Hd|Hd]; [by rewrite Hs in *; destruct Hm|].
  destruct Hs as (p & Hr & Hf & -> & ->).
  set (val i := match misses !! i with Some d => matches_raw (coll_merge coll) q d.2 | None => false end).
  assert (∀ i, i < length misses → yields cache_ok (val i) (scan_fn coll (coll_merge coll) q misses i)) as Hy.
  { intros i Hi. unfold scan_fn, val. destruct (misses !! i) as [d|]; [by apply scan_task_yields|constructor]. }
  pose proof (reachable_ok _ _ _ _ Hy _ _ _ Hc Hr) as Hp.
  assert (p_workers p ≠ []) as Hw.
  { assert (length (p_workers p) = procs `min` length misses) as Hl; [|intros E; rewrite E in Hl; cbn in Hl; unfold serialThreshold in Hd; lia].
    clear -Hr. remember (start _ _ _) as x eqn:Ex. assert (length (p_workers x) = procs `min` length misses) as Hx by (subst; cbn; apply length_replicate).
    clear Ex. induction Hr as [x|x y z Hxy _ IH]; [done|]. apply IH. rewrite <-Hx. destruct Hxy; cbn; apply length_insert. }
  destruct (finished_slots _ _ _ _ Hp Hw Hf) as [-> Hok]. split; [|done]. destruct (match_misses _ _ _ misses c) as [l c1]. destruct Hm as [_ ->].
  cbn. rewrite <-(selected_all misses (λ d, matches_raw (coll_merge coll) q d.2)). f_equal. apply list_eq. intros i.
  rewrite !list_lookup_fmap. destruct (decide (i < length misses)) as [Hi|Hi].
  - rewrite lookup_seq_lt by done. destruct (lookup_lt_is_Some_2 _ _ Hi) as [d E]. unfold val. cbn. by rewrite E.
  - rewrite (lookup_ge_None_2 misses) by lia. rewrite lookup_ge_None_2; [done|rewrite length_seq; lia].
Qed.

(** C32. A fan-out always ends: it makes at most so many steps, and where it cannot go
    on every worker has finished. *)
Theorem concurrent_scans_end `{Unicode} `{Float64} (k : nat) (coll : string) (mergeAttrs : bool) (q : Query) (misses : list (string * string))
    (c : searchCache) (j : nat) (p : pool) (Hp : nsteps (scan_step coll mergeAttrs q misses) j (start (length misses) k c) p) :
  j ≤ k + length misses * 9 ∧ (all_finished p ∨ ∃ p', scan_step coll mergeAttrs q misses p p').
Proof.
  assert (∀ i, bounded 6 (scan_fn coll mergeAttrs q misses i)) as Hb.
  { intros i. unfold scan_fn. destruct (misses !! i); [apply scan_task_bounded|constructor]. }
  split; [by eapply (steps_bounded _ _ 6 Hb _ _ _ _ Hp), start_left|].
  destruct (all_finished_dec p); [by left|right; by apply pool_progress].
Qed.

(** ** Witnesses *)

Definition sample_misses : list (string * string) :=
  map (λ i, (pretty i, if decide (i < 40) then mustEncode (VObj [("name", VStr "web")]) else "{}")) (seq 0 64).
#[local] Instance scan_unicode : Unicode := caseless_unicode.
#[local] Instance scan_float : Float64 := digits_float.

(** Some interleaving of four workers over sixty-four documents finishes. *)
Lemma sample_run q : ∃ p, rtc (scan_step "nodes" true q sample_misses) (start (length sample_misses) (4 `min` length sample_misses) newSearchCache) p ∧ all_finished p.
Proof.
  eapply (pool_completes _ _ 6); [|apply start_left]. intros i. unfold scan_fn. destruct (sample_misses !! i); [apply scan_task_bounded|constructor].
Qed.

Lemma concurrent_scan_exact_witness : ∃ found c',
  scanned 4 "nodes" true (existsQ "name") sample_misses newSearchCache found c' ∧
  found = (match_misses "nodes" true (existsQ "name") sample_misses newSearchCache).1 ∧ cache_ok c'.
Proof.
  destruct (sample_run (existsQ "name")) as (p & Hr & Hf). exists (selected sample_misses (p_slots p)), (p_shared p).
  assert (scanned 4 "nodes" true (existsQ "name") sample_misses newSearchCache (selected sample_misses (p_slots p)) (p_shared p)) as Hs.
  { unfold scanned. rewrite decide_False by (by vm_compute; intros [?|?]; lia). by exists p. }
  split; [exact Hs|]. apply (concurrent_scan_exact 4 "nodes" (existsQ "name") sample_misses newSearchCache); [apply newSearchCache_ok|vm_compute; intuition discriminate|exact Hs].
Defined.

Lemma concurrent_scans_end_witness : 0 ≤ 4 + length sample_misses * 9 ∧
  (all_finished (R := bool) (start (length sample_misses) 4 newSearchCache) ∨
   ∃ p', scan_step "nodes" true (existsQ "name") sample_misses (start (length sample_misses) 4 newSearchCache) p').
Proof. apply (concurrent_scans_end 4 "nodes" true (existsQ "name") sample_misses newSearchCache 0). constructor. Defined.
