(* ===== verification/Runlist.v ===== *)
(** * internal/runlist/runlist.go: canonical run lists

    Qualifying and deduplicating run list items, the rewrite of a node or role
    document, and the scan that decides whether a rewrite is needed. *)
From S2P Require Import Prelude GoText Json Chefjson.
#[local] Open Scope go_scope.

Definition qualify (item : string) : string :=
  if has_prefix "recipe[" item || has_prefix "role[" item then item
  else "recipe[" +:+ item +:+ "]".

(** The loop of [Normalize]: [seen] holds the items emitted so far. *)
Fixpoint normalize_from (seen : list string) (items : list string) : list string :=
  match items with
  | [] => []
  | item :: items' =>
      let item := qualify item in
      if contains_str seen item then normalize_from seen items'
      else item :: normalize_from (item :: seen) items'
  end.

Definition Normalize (items : list string) : list string := normalize_from [] items.

Fixpoint strings_of (l : list value) : option (list string) :=
  match l with
  | [] => Some []
  | VStr s :: l' => cons s <$> strings_of l'
  | _ :: _ => None
  end.

Definition stringList (v : value) : option (list string) :=
  match v with VArr l => strings_of l | _ => None end.

Definition toAny (items : list string) : value := VArr (map VStr items).

Definition listChanges (v : value) : bool :=
  match stringList v with
  | Some items => negb (bool_decide (Normalize items = items))
  | None => false
  end.

Definition envListsChange (v : value) : bool :=
  match v with VObj envs => existsb (λ m, listChanges m.2) envs | _ => false end.

(** The members of the document up to the first run list that changes. *)
Fixpoint needs_members (n : nat) (role seenRunList seenEnvRunLists : bool) (s : string) : bool :=
  match n with
  | O => false
  | S n =>
      match expect quote s with
      | None => false
      | Some rest =>
          match scan_string true (S (String.length rest)) rest with
          | None => false
          | Some (name, r1) =>
              match expect ":" r1 with
              | None => false
              | Some r2 =>
                  match parse_value true (2 * String.length r2 + 2) (max_depth - 1) r2 with
                  | None => false
                  | Some (v, r3) =>
                      let next rl env := match expect "," r3 with
                        | Some r4 => needs_members n role rl env r4 | None => false end in
                      if decide (name = "run_list" ∧ seenRunList = false) then
                        if listChanges v then true else next true seenEnvRunLists
                      else if decide (name = "env_run_lists" ∧ role = true ∧ seenEnvRunLists = false) then
                        if envListsChange v then true else next seenRunList true
                      else next seenRunList seenEnvRunLists
                  end
              end
          end
      end
  end.

Definition needsChange (doc : string) (role : bool) : bool :=
  match expect "{" doc with
  | None => false
  | Some rest => needs_members (S (String.length rest)) role false false rest
  end.

(** A value with its list normalized, when it is a list of strings. *)
Definition normalize_value (v : value) : value :=
  match stringList v with Some items => toAny (Normalize items) | None => v end.

(** The edits of [normalize] on the tree. *)
Definition normalize_tree (role : bool) (obj : list (string * value)) : list (string * value) :=
  let obj :=
    match Get obj "run_list" with
    | Some v =>
        match stringList v with
        | Some items => Set_ obj "run_list" (toAny (Normalize items))
        | None => obj
        end
    | None => obj
    end in
  if role then
    match Get obj "env_run_lists" with
    | Some (VObj envs) =>
        Set_ obj "env_run_lists" (VObj (map (λ m, (m.1, normalize_value m.2)) envs))
    | _ => obj
    end
  else obj.

Definition normalize `{Double} (doc : string) (role : bool) : result string :=
  if needsChange doc role then
    match Parse doc with
    | Err e => Err e
    | Ok (VObj obj) => Ok (Marshal (VObj (normalize_tree role obj)))
    | Ok _ => Ok doc
    end
  else Ok doc.

Definition NormalizeNode `{Double} (doc : string) : result string := normalize doc false.
Definition NormalizeRole `{Double} (doc : string) : result string := normalize doc true.

(** ** Canonical lists *)

Definition qualified (item : string) : bool := has_prefix "recipe[" item || has_prefix "role[" item.

Lemma qualify_qualified item : qualified (qualify item) = true.
Proof.
  unfold qualify, qualified. destruct (has_prefix "recipe[" item || has_prefix "role[" item) eqn:E; [done|].
  apply orb_true_iff. left. apply has_prefix_true. by exists (item +:+ "]").
Qed.

Lemma qualify_id item : qualified item = true → qualify item = item.
Proof. unfold qualify, qualified. by intros ->. Qed.

Lemma elem_of_normalize_from seen items x :
  x ∈ normalize_from seen items ↔ (x ∉ seen) ∧ (∃ i, i ∈ items ∧ x = qualify i).
Proof.
  revert seen. induction items as [|i items IH]; intros seen; cbn [normalize_from]; [set_solver|].
  destruct (contains_str seen (qualify i)) eqn:E.
  - apply contains_str_true in E. rewrite IH. split; [set_solver|].
    intros (Hx & j & [->|Hj]%elem_of_cons & ->); [done|eauto].
  - apply contains_str_false in E. rewrite elem_of_cons, IH. split.
    + intros [->|(Hx & j & Hj & ->)]; set_solver.
    + intros (Hx & j & [->|Hj]%elem_of_cons & ->); [by left|].
      destruct (decide (qualify j = qualify i)); [by left|right]. set_solver.
Qed.

Lemma normalize_from_NoDup seen items : NoDup (normalize_from seen items).
Proof.
  revert seen. induction items as [|i items IH]; intros seen; cbn [normalize_from]; [constructor|].
  destruct (contains_str seen (qualify i)); [apply IH|]. constructor; [|apply IH].
  rewrite elem_of_normalize_from. set_solver.
Qed.

(** A list already canonical is left as it is. *)
Lemma normalize_from_id seen items :
  Forall (λ i, qualified i = true) items → NoDup items → (∀ i, i ∈ items → i ∉ seen) →
  normalize_from seen items = items.
Proof.
  revert seen. induction items as [|i items IH]; intros seen Hq Hnd Hs; [done|].
  apply Forall_cons in Hq as [Hi Hq]. apply NoDup_cons in Hnd as [Hni Hnd].
  cbn [normalize_from]. rewrite qualify_id by done.
  rewrite (proj2 (contains_str_false _ _)) by set_solver. f_equal. apply IH; [done..|set_solver].
Qed.

Lemma normalize_from_qualified seen items :
  Forall (λ i, qualified i = true) (normalize_from seen items).
Proof.
  apply Forall_forall. intros x (_ & i & _ & ->)%elem_of_normalize_from. apply qualify_qualified.
Qed.

Lemma Normalize_idem items : Normalize (Normalize items) = Normalize items.
Proof.
  apply normalize_from_id; [apply normalize_from_qualified|apply normalize_from_NoDup|set_solver].
Qed.

(** The order sent is kept. *)
Lemma normalize_from_sublist seen items : normalize_from seen items `sublist_of` map qualify items.
Proof.
  revert seen. induction items as [|i items IH]; intros seen; [done|]. cbn [normalize_from map].
  destruct (contains_str seen (qualify i)); [by apply sublist_cons|by apply sublist_skip].
Qed.

(** A normalized run list is canonical: every item is a recipe or role item,
    none occurs twice, it holds exactly the qualified items sent, in the order
    sent, and normalizing it again changes nothing; a list is kept as sent exactly
    when it is canonical. *)
Theorem normalize_canonical (items : list string) :
  Forall (λ i, qualified i = true) (Normalize items) ∧ NoDup (Normalize items) ∧
  (∀ x, x ∈ Normalize items ↔ ∃ i, i ∈ items ∧ x = qualify i) ∧
  Normalize items `sublist_of` map qualify items ∧
  Normalize (Normalize items) = Normalize items ∧
  (Forall (λ i, qualified i = true) items ∧ NoDup items ↔ Normalize items = items).
Proof.
  split_and!.
  - apply normalize_from_qualified.
  - apply normalize_from_NoDup.
  - intros x. unfold Normalize. rewrite elem_of_normalize_from. set_solver.
  - apply normalize_from_sublist.
  - apply Normalize_idem.
  - split.
    + intros [Hq Hnd]. apply normalize_from_id; [done..|set_solver].
    + intros <-. split; [apply normalize_from_qualified|apply normalize_from_NoDup].
Qed.

(** ** The scan decides the rewrite *)

Lemma strings_of_map items : strings_of (map VStr items) = Some items.
Proof. induction items as [|i items IH]; [done|]. cbn. by rewrite IH. Qed.

Lemma strings_of_Some l items : strings_of l = Some items → l = map VStr items.
Proof.
  revert items. induction l as [|v l IH]; intros items; [by intros [= <-]|].
  destruct v; try done. cbn. destruct (strings_of l) as [its|]; [|done]. intros [= <-].
  cbn. f_equal. by apply IH.
Qed.

Lemma map_VStr_inj l k : map VStr l = map VStr k → l = k.
Proof.
  revert k. induction l as [|x l IH]; intros [|y k]; cbn; try done. intros E.
  injection E as -> E. by rewrite (IH k E).
Qed.

Lemma listChanges_value v : listChanges v = false ↔ normalize_value v = v.
Proof.
  unfold listChanges, normalize_value. destruct (stringList v) as [items|] eqn:Es; [|by split].
  destruct v as [| | | |l|]; try done. cbn in Es. apply strings_of_Some in Es as ->.
  rewrite negb_false_iff, bool_decide_eq_true. unfold toAny. split.
  - by intros ->.
  - intros E. injection E as E. by apply map_VStr_inj.
Qed.

Lemma envListsChange_value envs :
  envListsChange (VObj envs) = false ↔ map (λ m, (m.1, normalize_value m.2)) envs = envs.
Proof.
  cbn. induction envs as [|[k v] envs IH]; cbn; [by split|].
  rewrite orb_false_iff, listChanges_value, IH. split.
  - intros [H1 H2]. by rewrite H1, H2.
  - intros E. injection E as H1 H2. done.
Qed.

(** The same decision taken on the parsed members. *)
Fixpoint needs_tree (role seenRunList seenEnvRunLists : bool) (ms : list (string * value)) : bool :=
  match ms with
  | [] => false
  | (name, v) :: ms' =>
      if decide (name = "run_list" ∧ seenRunList = false) then
        if listChanges v then true else needs_tree role true seenEnvRunLists ms'
      else if decide (name = "env_run_lists" ∧ role = true ∧ seenEnvRunLists = false) then
        if envListsChange v then true else needs_tree role seenRunList true ms'
      else needs_tree role seenRunList seenEnvRunLists ms'
  end.

#[local] Opaque max_depth.

Lemma needs_members_tree role n s d ms r : parse_members true n d s = Some (ms, r) →
  d = max_depth - 1 → ∀ m rl env, String.length s < m →
  needs_members m role rl env s = needs_tree role rl env ms.
Proof.
  revert s ms. induction n as [|n IH]; intros s ms Hp Hd m rl env Hm; [done|].
  destruct m as [|m]; [lia|]. cbn [parse_members] in Hp. cbn [needs_members].
  destruct (expect quote s) as [r0|] eqn:E0; [|done].
  destruct (scan_string true _ r0) as [[k r1]|] eqn:E1; [|done].
  destruct (expect ":" r1) as [r2|] eqn:E2; [|done].
  destruct (parse_value true n d r2) as [[v r3]|] eqn:E3; [|done].
  apply expect_len in E0 as L0, E2 as L2. apply scan_string_len in E1 as L1.
  rewrite <-Hd, (parse_value_enough _ _ _ _ _ _ E3) by lia.
  destruct (parse_fuel_free true n) as [Hv _]. destruct (Hv _ _ _ _ E3) as [L3 _].
  destruct (expect "," r3) as [r4|] eqn:E4.
  - apply omap2_Some in Hp as (ms' & Hp & <-). apply expect_len in E4 as L4. cbn [needs_tree].
    assert (∀ rl env, needs_members m role rl env r4 = needs_tree role rl env ms') as Hnext.
    { intros. eapply IH; eauto. lia. }
    by rewrite !Hnext.
  - destruct (expect "}" r3); [|done]. injection Hp as <- _. done.
Qed.

Lemma needsChange_object n d s ms r role : parse_value true n d s = Some (VObj ms, r) →
  d = max_depth → needsChange s role = needs_tree role false false ms.
Proof.
  destruct n as [|n]; [done|]. cbn [parse_value]. unfold needsChange.
  destruct (skip_ws s) as [|c t] eqn:Es; [done|]. rewrite (expect_cons _ _ _ _ Es).
  destruct (decide (c = "{"%char)) as [->|]; [|destruct (decide (c = "["%char)) as [->|];
    [|destruct (decide (c = quote)) as [->|]; [|case_decide]]].
  - destruct d as [|d]; [done|]. destruct (expect "}" t) as [r'|] eqn:Ex.
    + intros [= <- <-] _. cbn [needs_members]. destruct (expect quote t) as [q|] eqn:Eq; [|done].
      unfold expect in Ex, Eq. destruct (skip_ws t); [done|]. by repeat case_decide; subst.
    + intros (ms' & Hm & [= ->])%omap2_Some Hd.
      eapply needs_members_tree; [exact Hm|lia|lia].
  - destruct d as [|d]; [done|]. destruct (expect "]" t); [done|].
    by intros (? & _ & ?)%omap2_Some.
  - by intros (? & _ & ?)%omap2_Some.
  - by intros (? & _ & ?)%omap2_Some.
  - unfold scan_word_literal. intros. repeat case_match; simplify_eq.
Qed.

(** What the tree scan looks at: the first member of each name. *)
Lemma needs_tree_spec role ms : ∀ rl env,
  needs_tree role rl env ms =
  (negb rl && match Get ms "run_list" with Some v => listChanges v | None => false end) ||
  (role && negb env && match Get ms "env_run_lists" with Some v => envListsChange v | None => false end).
Proof.
  induction ms as [|[k v] ms IH]; intros rl env; cbn [needs_tree].
  { unfold Get. cbn. by rewrite !andb_false_r. }
  unfold Get in *. cbn [assoc].
  destruct (decide (k = "run_list")) as [->|Hk].
  - rewrite (decide_False (P := "run_list" = "env_run_lists")) by done.
    destruct rl; cbn [negb andb orb].
    + rewrite !decide_False by naive_solver. by rewrite IH.
    + rewrite decide_True by done. destruct (listChanges v); [done|]. by rewrite IH.
  - rewrite decide_False by naive_solver. destruct (decide (k = "env_run_lists")) as [->|Hk'].
    + destruct role, env; cbn [negb andb orb];
        try (rewrite decide_False by naive_solver; rewrite IH; cbn; done).
      rewrite decide_True by done. rewrite IH. cbn [negb andb].
      destruct (envListsChange v), (negb rl && _); done.
    + rewrite decide_False by naive_solver. apply IH.
Qed.

Lemma Set_same ms name v : Get ms name = Some v → Set_ ms name v = ms.
Proof.
  unfold Get. induction ms as [|[k x] ms IH]; [done|]. cbn. case_decide; [by intros [= ->]|].
  intros E. by rewrite IH.
Qed.

Lemma Set_id ms name v w : Get ms name = Some w → Set_ ms name v = ms → v = w.
Proof. intros Hg E. pose proof (Get_Set ms name v name) as H. rewrite E, Hg, decide_True in H by done. by simplify_eq. Qed.

(** The first edit leaves the second one's member alone. *)
Lemma normalize_tree_id role ms : normalize_tree role ms = ms ↔ needs_tree role false false ms = false.
Proof.
  rewrite needs_tree_spec. cbn [negb andb]. rewrite andb_true_r, orb_false_iff. unfold normalize_tree.
  set (ms1 := match Get ms "run_list" with Some v => _ | None => ms end).
  assert (Get ms1 "env_run_lists" = Get ms "env_run_lists") as Henv.
  { unfold ms1. destruct (Get ms "run_list"); [|done]. destruct (stringList _); [|done].
    by rewrite Get_Set. }
  assert (ms1 = ms ↔ match Get ms "run_list" with Some v => listChanges v | None => false end = false) as H1.
  { unfold ms1. destruct (Get ms "run_list") as [v|] eqn:Eg; [|done].
    rewrite listChanges_value. unfold normalize_value.
    destruct (stringList v) as [items|]; [|done]. split.
    - by apply Set_id.
    - intros ->. by apply Set_same. }
  assert (∀ k, k ≠ "env_run_lists" → ∀ v, Get (Set_ ms1 "env_run_lists" v) k = Get ms1 k) as Hother.
  { intros k Hk v. rewrite Get_Set. by rewrite decide_False. }
  destruct role; cbn [andb]; [|rewrite H1; tauto].
  rewrite Henv. destruct (Get ms "env_run_lists") as [[| | | | |envs]|] eqn:Ee;
    try (rewrite H1; cbn; tauto).
  rewrite envListsChange_value, <-H1. split.
  - intros E. assert (Get ms1 "run_list" = Get ms "run_list") as Hr.
    { rewrite <-E at 1. by rewrite Hother. }
    assert (ms1 = ms) as Hm.
    { clear -Hr. unfold ms1 in *. destruct (Get ms "run_list") as [v|] eqn:Eg; [|done].
      destruct (stringList v) as [items|]; [|done]. rewrite Get_Set in Hr. cbn in Hr.
      injection Hr as ->. by apply Set_same. }
    split; [done|]. rewrite Hm in E. apply (Set_id _ _ _ _ Ee) in E. by injection E.
  - intros [-> E]. rewrite E. by apply Set_same.
Qed.

(** The scan that spares a re-encode is exact: a document is reported as
    needing a change exactly when the rewrite would change its tree, whatever
    else it holds and however often a name repeats. *)
Theorem needs_change_exact (doc : string) (role : bool) (ms : list (string * value)) :
  Parse doc = Ok (VObj ms) →
  (needsChange doc role = true ↔ normalize_tree role ms ≠ ms).
Proof.
  unfold Parse, decodeOne. destruct (parse_value _ _ _ doc) as [[v r]|] eqn:E; [|done].
  case_decide; [|done]. intros [= ->].
  rewrite (needsChange_object _ _ _ _ _ role E), normalize_tree_id by done.
  by destruct (needs_tree role false false ms).
Qed.

Lemma needs_change_exact_witness :
  let q := print_string id in
  let doc := "{" +:+ q "name" +:+ ":1, " +:+ q "run_list" +:+ ":[" +:+ q "nginx" +:+ "]}" in
  needsChange doc false = true.
Proof.
  intros q doc. apply (needs_change_exact doc false
    [("name", VNum "1"); ("run_list", VArr [VStr "nginx"])]); [vm_compute; reflexivity|].
  vm_compute. discriminate.
Defined.
