(* ===== verification/Groups.v ===== *)
(** * Group membership (internal/api/groupmembers.go, groupindex.go)

    Membership rows and group documents, the operations that add and revoke
    members, the reverse index from actors to groups with its transitive
    expansion, and the index cache kept current from the write stream. *)
From S2P Require Import Prelude GoText Json Chefjson Float GoJson Store Facade.
#[local] Open Scope go_scope.

(** ** Rows and documents *)

Definition groupMembersColl : string := "group_members".

Definition memberUsers : string := "users".
Definition memberClients : string := "clients".
Definition memberGroups : string := "groups".

Definition memberKey (group kind actor : string) : string :=
  group +:+ String NUL (kind +:+ String NUL actor).

Definition splitMemberKey (key : string) : option (string * string * string) :=
  match split_on NUL key with
  | [group; kind; actor] => Some (group, kind, actor)
  | _ => None
  end.

(** [groupMembers]: the members an update nests under "actors", or those at the
    top level. *)
Definition groupMembers (obj : list (string * value)) : list string * list string * list string :=
  let src := match assoc obj "actors" with Some (VObj nested) => nested | _ => obj end in
  (jsonStrings (assoc src "users"), jsonStrings (assoc src "clients"), jsonStrings (assoc src "groups")).

Definition groupJSON (name orgname : string) (users clients groups : list string) : string :=
  let strs l := map VStr l in
  Marshal (VObj (
    [("actors", VArr (strs clients ++ strs users)); ("users", VArr (strs users));
     ("clients", VArr (strs clients)); ("groups", VArr (strs groups))]
    ++ (if decide (orgname ≠ "") then [("orgname", VStr orgname)] else [])
    ++ [("name", VStr name); ("groupname", VStr name)])).

(** [without]: the other elements, and whether any went. *)
Definition without (s : list string) (v : string) : list string * bool :=
  let out := filter (λ e, e ≠ v) s in (out, bool_decide (length out ≠ length s)).

Section Ops.
Context {B : Type} `{Backend B} {O : Type}.
Abbreviation st := (Store B O).

Definition addMember (org group kind actor : string) : ST st unit :=
  Org_Put org groupMembersColl (memberKey group kind actor) "{}".

(** Keys are collected in the scan and deleted after it. *)
Definition delete_rows (org : string) (keys : list string) : ST st unit :=
  st_each (λ key, Org_Delete org groupMembersColl key ;;! st_ret tt) keys.

Definition clearMembers (org group : string) : ST st unit :=
  let! rows := Org_Range org groupMembersColl in
  delete_rows org (filter (λ k, has_prefix (group +:+ String NUL "") k = true) (map fst rows)).

Definition removeMemberRows (org kind actor : string) : ST st unit :=
  let! rows := Org_Range org groupMembersColl in
  delete_rows org (filter (λ k, has_suffix (String NUL (kind +:+ String NUL actor)) k = true) (map fst rows)).

Definition removeFromGroupDoc (org kind actor name : string) : ST st unit :=
  let! raw := Org_Get org "groups" name in
  match raw with
  | None => st_ret tt
  | Some raw =>
      match unmarshal_map raw with
      | None => st_ret tt
      | Some g =>
          let '(users, clients, groups) := groupMembers (members g) in
          let '(users, clients, groups, changed) :=
            if decide (kind = memberUsers) then
              let '(l, ch) := without users actor in (l, clients, groups, ch)
            else if decide (kind = memberClients) then
              let '(l, ch) := without clients actor in (users, l, groups, ch)
            else if decide (kind = memberGroups) then
              let '(l, ch) := without groups actor in (users, clients, l, ch)
            else (users, clients, groups, false) in
          if changed : bool then Org_Put org "groups" name (groupJSON name "" users clients groups)
          else st_ret tt
      end
  end.

Definition removeFromGroupDocs (org kind actor : string) : ST st unit :=
  let! names := Org_Keys org "groups" in
  st_each (removeFromGroupDoc org kind actor) names.

Definition removeActorFromAllGroups (org kind actor : string) : ST st unit :=
  removeMemberRows org kind actor ;;! removeFromGroupDocs org kind actor.

(** One row folded into the effective membership. *)
Definition fold_row (group : string) (m : list string * list string * list string) (key : string)
  : list string * list string * list string :=
  let '(users, clients, groups) := m in
  let add l a := if contains_str l a then l else l ++ [a] in
  if has_prefix (group +:+ String NUL "") key then
    match splitMemberKey key with
    | None => m
    | Some (_, kind, actor) =>
        if decide (kind = memberUsers) then (add users actor, clients, groups)
        else if decide (kind = memberClients) then (users, add clients actor, groups)
        else if decide (kind = memberGroups) then (users, clients, add groups actor)
        else m
    end
  else m.

Definition groupMembership (org group : string) : ST st (list string * list string * list string) :=
  let! raw := Org_Get org "groups" group in
  let doc := match raw with
    | Some raw => match unmarshal_map raw with Some g => groupMembers (members g) | None => ([], [], []) end
    | None => ([], [], [])
    end in
  let! rows := Org_Range org groupMembersColl in
  st_ret (foldl (fold_row group) doc (map fst rows)).

Definition groupDocWithMembers (org name : string) : ST st (option string) :=
  let! doc := Org_Get org "groups" name in
  let! m := groupMembership org name in
  let '(users, clients, groups) := m in
  st_ret (if decide (doc = None ∧ length users + length clients + length groups = 0) then None
          else Some (groupJSON name org users clients groups)).
End Ops.

(** ** The reverse index *)

Record Actor := mkActor { a_name : string; IsClient : bool; IsGlobalAdmin : bool; ViaWebUI : bool }.

Abbreviation groups_of := (gmap string (list string)).

Record groupIndex := mkGroupIndex { g_gen : Z; g_users : groups_of; g_clients : groups_of; g_nests : groups_of }.

(** [m[k] = append(m[k], group)] for every k. *)
Definition append_group (group : string) (m : groups_of) (k : string) : groups_of :=
  <[k := default [] (m !! k) ++ [group]]> m.

Definition addAll (group : string) (users clients nested : list string) (idx : groupIndex) : groupIndex :=
  mkGroupIndex (g_gen idx)
    (foldl (append_group group) (g_users idx) users)
    (foldl (append_group group) (g_clients idx) clients)
    (foldl (append_group group) (g_nests idx) nested).

Definition add_once (group actor : string) (m : groups_of) : groups_of :=
  if contains_str (default [] (m !! actor)) group then m else append_group group m actor.

Definition addOne (group kind actor : string) (idx : groupIndex) : groupIndex :=
  if decide (kind = memberUsers) then
    mkGroupIndex (g_gen idx) (add_once group actor (g_users idx)) (g_clients idx) (g_nests idx)
  else if decide (kind = memberClients) then
    mkGroupIndex (g_gen idx) (g_users idx) (add_once group actor (g_clients idx)) (g_nests idx)
  else if decide (kind = memberGroups) then
    mkGroupIndex (g_gen idx) (g_users idx) (g_clients idx) (add_once group actor (g_nests idx))
  else idx.

Definition indexMembers (raw : string) : list string * list string * list string :=
  match decodeMembers raw with
  | Some m => (Users m, Clients m, Groups m)
  | None =>
      match unmarshal_map raw with
      | None => ([], [], [])
      | Some g => (jsonStrings (assoc (members g) "users"), jsonStrings (assoc (members g) "clients"),
                   jsonStrings (assoc (members g) "groups"))
      end
  end.

Definition index_doc (idx : groupIndex) (d : string * string) : groupIndex :=
  let '(users, clients, nested) := indexMembers d.2 in addAll d.1 users clients nested idx.

Definition index_row (idx : groupIndex) (d : string * string) : groupIndex :=
  match splitMemberKey d.1 with
  | Some (group, kind, actor) => addOne group kind actor idx
  | None => idx
  end.

(** The generation is sampled before the read. *)
Definition buildGroupIndex `{Backend B} {O} (org : string) : ST (Store B O) groupIndex := λ s,
  let gen := GroupsGeneration s in
  (let! docs := Org_Range org "groups" in
   let idx := foldl index_doc (mkGroupIndex gen ∅ ∅ ∅) docs in
   let! rows := Org_Range org groupMembersColl in
   st_ret (foldl index_row idx rows)) s.

(** [add]: a group not seen before joins the members and the queue. *)
Definition enqueue (acc : gset string * list string) (name : string) : gset string * list string :=
  let '(member, queue) := acc in
  if decide (name ∈ member) then acc else ({[name]} ∪ member, queue ++ [name]).

(** The queue loop; [queue] is what is left of it. *)
Fixpoint expand (fuel : nat) (nests : groups_of) (member : gset string) (queue : list string)
  : option (gset string) :=
  match queue with
  | [] => Some member
  | g :: rest =>
      match fuel with
      | O => None
      | S fuel' =>
          let '(member, queue) := foldl enqueue (member, rest) (default [] (nests !! g)) in
          expand fuel' nests member queue
      end
  end.

(** Every name that can enter the queue, with repeats: more than enough rounds,
    since a name enters it once. *)
Definition names_in (idx : groupIndex) (direct : list string) : list string :=
  direct ++ concat (map snd (map_to_list (g_nests idx))).

Definition membership (idx : groupIndex) (actor : Actor) : option (gset string) :=
  let direct := default [] ((if IsClient actor then g_clients idx else g_users idx) !! a_name actor) in
  let '(member, queue) := foldl enqueue (∅, []) direct in
  expand (length (names_in idx direct)) (g_nests idx) member queue.

(** ** The cache *)

Abbreviation groupIndexCache := (gmap string groupIndex).

Definition newGroupIndexCache : groupIndexCache := ∅.

Definition get `{Backend B} (org : string) : ST (Store B groupIndexCache) groupIndex := λ s,
  let rebuild :=
    match buildGroupIndex org s with
    | (Ok built, s') => (Ok built, (s'.1, with_obs (<[org := built]> (obs s'.2)) s'.2))
    | (Err e, s') => (Err e, s')
    end in
  match obs s.2 !! org with
  | Some idx => if decide (g_gen idx = GroupsGeneration s) then (Ok idx, s) else rebuild
  | None => rebuild
  end.

Definition observe (ev : Event) (m : groupIndexCache) : groupIndexCache :=
  if decide (ev_coll ev ≠ groupMembersColl) then m
  else match splitMemberKey (ev_key ev) with
       | None => m
       | Some (group, kind, actor) =>
           match m !! ev_org ev with
           | None => m
           | Some idx =>
               if ev_deleted ev then delete (ev_org ev) m
               else <[ev_org ev := addOne group kind actor idx]> m
           end
       end.

(** [API.actorGroups], through the cache, and [actorGroups], without it. *)
Definition API_actorGroups `{Backend B} (org : string) (actor : Actor)
  : ST (Store B groupIndexCache) (option (gset string)) :=
  let! idx := get org in st_ret (membership idx actor).
Definition actorGroups `{Backend B} {O} (org : string) (actor : Actor)
  : ST (Store B O) (option (gset string)) :=
  let! idx := buildGroupIndex org in st_ret (membership idx actor).

(** ** Keys *)

Lemma splitMemberKey_memberKey group kind actor :
  ¬ str_in NUL group → ¬ str_in NUL kind → ¬ str_in NUL actor →
  splitMemberKey (memberKey group kind actor) = Some (group, kind, actor).
Proof.
  intros Hg Hk Ha. unfold splitMemberKey, memberKey.
  by rewrite split_on_app, split_on_app, split_on_no_sep.
Qed.

Lemma splitMemberKey_Some key group kind actor :
  splitMemberKey key = Some (group, kind, actor) → key = memberKey group kind actor.
Proof.
  unfold splitMemberKey. pose proof (join_split NUL key) as Hj.
  destruct (split_on NUL key) as [|a [|b [|c [|]]]]; try done. intros [= -> -> ->].
  rewrite <-Hj. unfold memberKey. simpl. done.
Qed.

(** A membership row names one group, kind and actor: for names without NUL
    the key splits back into its parts, and a key that splits is the key of its
    parts. *)
Theorem member_key_roundtrip :
  (∀ group kind actor, ¬ str_in NUL (group +:+ kind +:+ actor) →
     splitMemberKey (memberKey group kind actor) = Some (group, kind, actor)) ∧
  (∀ key group kind actor,
     splitMemberKey key = Some (group, kind, actor) → memberKey group kind actor = key).
Proof.
  split.
  - intros g k a Hn. rewrite !str_in_app in Hn. apply splitMemberKey_memberKey; tauto.
  - intros key g k a E. symmetry. by apply splitMemberKey_Some.
Qed.

(** ** Transitive membership *)

Definition edge (nests : groups_of) (g outer : string) : Prop := outer ∈ default [] (nests !! g).

Lemma enqueue_all names member queue :
  let '(member', queue') := foldl enqueue (member, queue) names in
  (∀ x, x ∈ member' ↔ x ∈ member ∨ x ∈ names) ∧
  (∃ new, queue' = queue ++ new ∧ (∀ x, x ∈ new ↔ x ∈ names ∧ x ∉ member) ∧
     size member' = size member + length new).
Proof.
  revert member queue. induction names as [|n names IH]; intros member queue; cbn [foldl].
  { split; [set_solver|]. exists []. rewrite app_nil_r. split; [done|]. split; [set_solver|]. simpl. lia. }
  unfold enqueue at 2. case_decide as Hn.
  - specialize (IH member queue). destruct (foldl enqueue _ names) as [m' q'].
    destruct IH as (H1 & new & H2 & H3 & H4).
    split; [intros x; rewrite H1, elem_of_cons; naive_solver|].
    exists new. split; [done|]. split; [|done]. intros x. rewrite H3, elem_of_cons. naive_solver.
  - specialize (IH ({[n]} ∪ member) (queue ++ [n])). destruct (foldl enqueue _ names) as [m' q'].
    destruct IH as (H1 & new & -> & H3 & H4).
    split; [intros x; rewrite H1, elem_of_union, elem_of_singleton, elem_of_cons; naive_solver|].
    exists (n :: new). split; [by rewrite <-app_assoc|]. split.
    { intros x. rewrite elem_of_cons, H3, elem_of_union, elem_of_singleton, elem_of_cons.
      destruct (decide (x = n)); naive_solver. }
    rewrite size_union, size_singleton in H4 by set_solver. simpl. lia.
Qed.

Lemma expand_spec nests (U : gset string) :
  (∀ x y, edge nests x y → y ∈ U) → ∀ fuel member queue,
  member ⊆ U → (∀ x, x ∈ queue → x ∈ member) →
  (∀ x y, x ∈ member → x ∉ queue → edge nests x y → y ∈ member) →
  size U + length queue ≤ fuel + size member →
  ∃ m', expand fuel nests member queue = Some m' ∧
    ∀ g, g ∈ m' ↔ ∃ s, s ∈ member ∧ rtc (edge nests) s g.
Proof.
  intros HU. induction fuel as [|fuel IH]; intros member queue Hm Hq Hclosed Hf.
  - destruct queue as [|g rest].
    + exists member. split; [done|]. intros g. split; [eauto using rtc_refl|].
      intros (s & Hs & Hr). induction Hr as [|x y z Hxy Hr IHr]; [done|]. apply IHr. set_solver.
    + exfalso. apply subseteq_size in Hm. simpl in Hf. lia.
  - destruct queue as [|g rest].
    + exists member. split; [done|]. intros g. split; [eauto using rtc_refl|].
      intros (s & Hs & Hr). induction Hr as [|x y z Hxy Hr IHr]; [done|]. apply IHr. set_solver.
    + cbn [expand]. pose proof (enqueue_all (default [] (nests !! g)) member rest) as He.
      destruct (foldl enqueue _ _) as [m' q']. destruct He as (H1 & new & -> & H3 & H4).
      assert (∀ y, y ∈ m' ↔ y ∈ member ∨ edge nests g y) as H1' by done.
      destruct (IH m' (rest ++ new)) as (m'' & -> & Hg).
      * intros y [?|?]%H1'; [set_solver|by eapply HU].
      * intros x [Hx|Hx]%elem_of_app; apply H1'; [left; set_solver|right].
        apply H3 in Hx as [? _]. done.
      * intros x y Hx Hnq Hxy. apply H1'.
        destruct (decide (x = g)) as [->|Hne]; [by right|left].
        apply H1' in Hx as [Hx|Hx].
        -- eapply Hclosed; [done| |done]. set_solver.
        -- destruct (decide (x ∈ member)); [eapply Hclosed; [done| |done]; set_solver|].
           exfalso. apply Hnq, elem_of_app. right. by apply H3.
      * rewrite length_app. simpl in Hf. lia.
      * exists m''. split; [done|]. intros x. rewrite Hg. split.
        -- intros (s & [Hs|Hs]%H1' & Hr); [eauto|].
           exists g. split; [apply Hq; set_solver|]. by eapply rtc_l.
        -- intros (s & Hs & Hr). exists s. split; [apply H1'; by left|done].
Qed.

Definition direct_groups (idx : groupIndex) (actor : Actor) : list string :=
  default [] ((if IsClient actor then g_clients idx else g_users idx) !! a_name actor).

Lemma membership_spec idx actor :
  ∃ m, membership idx actor = Some m ∧
    ∀ g, g ∈ m ↔ ∃ d, d ∈ direct_groups idx actor ∧ rtc (edge (g_nests idx)) d g.
Proof.
  unfold membership. fold (direct_groups idx actor). set (direct := direct_groups idx actor).
  pose proof (enqueue_all direct ∅ []) as He.
  destruct (foldl enqueue (∅, []) direct) as [member queue].
  destruct He as (H1 & new & -> & H3 & H4). cbn [app].
  set (U := list_to_set (names_in idx direct) : gset string).
  destruct (expand_spec (g_nests idx) U) with (fuel := length (names_in idx direct))
    (member := member) (queue := new) as (m & -> & Hm).
  - intros x y Hxy. unfold U, names_in. rewrite elem_of_list_to_set, elem_of_app. right.
    unfold edge in Hxy. destruct (g_nests idx !! x) as [l|] eqn:E; [|set_solver].
    apply list_elem_of_In, in_concat. exists l. split; [|by apply list_elem_of_In].
    apply in_map_iff. exists (x, l). split; [done|]. by apply list_elem_of_In, elem_of_map_to_list.
  - intros x [?|?]%H1; [set_solver|]. unfold U, names_in. rewrite elem_of_list_to_set, elem_of_app. by left.
  - intros x [? _]%H3. apply H1. by right.
  - intros x y [?|?]%H1 Hn; [set_solver|]. exfalso. apply Hn, H3. set_solver.
  - rewrite size_empty in H4. unfold U.
    assert (size (list_to_set (names_in idx direct) : gset string) ≤ length (names_in idx direct)); [|lia].
    generalize (names_in idx direct). intros l. induction l as [|x l IH]; simpl.
    + done.
    + destruct (decide (x ∈ (list_to_set l : gset string))).
      * replace ({[x]} ∪ list_to_set l : gset string) with (list_to_set l : gset string) by set_solver. lia.
      * rewrite size_union, size_singleton by set_solver. lia.
  - exists m. split; [done|]. intros g. rewrite Hm. setoid_rewrite H1. set_solver.
Qed.

(** Expanding an actor's groups terminates whatever the nesting, cycles
    included, and yields exactly the groups that list the actor directly and
    the groups that nest one of those, at any depth. *)
Theorem membership_is_transitive_closure (idx : groupIndex) (actor : Actor) :
  ∃ m, membership idx actor = Some m ∧
    ∀ g, g ∈ m ↔ ∃ d, d ∈ direct_groups idx actor ∧ rtc (edge (g_nests idx)) d g.
Proof. apply membership_spec. Qed.

Example cyclic_membership :
  let idx := mkGroupIndex 0 {[ "alice" := ["dev"] ]} ∅ {[ "dev" := ["ops"]; "ops" := ["dev"; "all"] ]} in
  (λ m, map (λ g, bool_decide (g ∈ m)) ["dev"; "ops"; "all"; "admins"]) <$>
    membership idx (mkActor "alice" false false false) = Some [true; true; true; false].
Proof. vm_compute. reflexivity. Qed.

(** ** The index of what is stored *)

Definition kinds : list string := [memberUsers; memberClients; memberGroups].

Definition idx_kind (kind : string) (idx : groupIndex) : groups_of :=
  if decide (kind = memberUsers) then g_users idx
  else if decide (kind = memberClients) then g_clients idx else g_nests idx.

Definition members_kind (kind : string) (m : list string * list string * list string) : list string :=
  if decide (kind = memberUsers) then m.1.1 else if decide (kind = memberClients) then m.1.2 else m.2.

(** The group lists the actor, in its document or in a row. *)
Definition declared (docs rows : gmap string string) (kind actor group : string) : Prop :=
  (∃ raw, docs !! group = Some raw ∧ actor ∈ members_kind kind (indexMembers raw)) ∨
  (∃ key, is_Some (rows !! key) ∧ splitMemberKey key = Some (group, kind, actor)).

Definition index_of (idx : groupIndex) (docs rows : gmap string string) : Prop :=
  ∀ kind actor group, kind ∈ kinds →
    group ∈ default [] (idx_kind kind idx !! actor) ↔ declared docs rows kind actor group.

Lemma elem_of_append_group group m k actor g :
  g ∈ default [] (append_group group m k !! actor) ↔
  g ∈ default [] (m !! actor) ∨ (actor = k ∧ g = group).
Proof.
  unfold append_group. destruct (decide (actor = k)) as [->|Hk].
  - rewrite lookup_insert_eq. cbn. rewrite elem_of_app, list_elem_of_singleton. naive_solver.
  - rewrite lookup_insert_ne by done. naive_solver.
Qed.

Lemma elem_of_append_groups group l m actor g :
  g ∈ default [] (foldl (append_group group) m l !! actor) ↔
  g ∈ default [] (m !! actor) ∨ (actor ∈ l ∧ g = group).
Proof.
  revert m. induction l as [|k l IH]; intros m; cbn [foldl]; [set_solver|].
  rewrite IH, elem_of_append_group, elem_of_cons. naive_solver.
Qed.

Lemma elem_of_add_once group actor m a g :
  g ∈ default [] (add_once group actor m !! a) ↔ g ∈ default [] (m !! a) ∨ (a = actor ∧ g = group).
Proof.
  unfold add_once. destruct (contains_str _ group) eqn:E; [|apply elem_of_append_group].
  apply contains_str_true in E. naive_solver.
Qed.

(** Resolve the tests on a known kind. *)
Ltac by_kind := repeat first [rewrite decide_True by done | rewrite decide_False by done].

Lemma index_doc_kind idx d kind actor g : kind ∈ kinds →
  g ∈ default [] (idx_kind kind (index_doc idx d) !! actor) ↔
  g ∈ default [] (idx_kind kind idx !! actor) ∨
  (g = d.1 ∧ actor ∈ members_kind kind (indexMembers d.2)).
Proof.
  intros Hk. unfold index_doc. destruct (indexMembers d.2) as [[us cs] gs]. unfold addAll.
  unfold kinds in Hk. rewrite !elem_of_cons, elem_of_nil in Hk.
  destruct Hk as [->|[->|[->|[]]]]; unfold idx_kind, members_kind; by_kind;
    cbn [g_users g_clients g_nests fst snd]; rewrite elem_of_append_groups; naive_solver.
Qed.

Lemma addOne_kind group kind' actor' idx kind actor g : kind ∈ kinds →
  g ∈ default [] (idx_kind kind (addOne group kind' actor' idx) !! actor) ↔
  g ∈ default [] (idx_kind kind idx !! actor) ∨ (kind = kind' ∧ actor = actor' ∧ g = group).
Proof.
  intros Hk. unfold kinds in Hk. rewrite !elem_of_cons, elem_of_nil in Hk. unfold addOne.
  destruct (decide (kind' = memberUsers)) as [->|H1]; [|destruct (decide (kind' = memberClients)) as [->|H2];
    [|destruct (decide (kind' = memberGroups)) as [->|H3]]];
  destruct Hk as [->|[->|[->|[]]]]; unfold idx_kind; by_kind; cbn [g_users g_clients g_nests];
    rewrite ?elem_of_add_once; naive_solver.
Qed.

Lemma g_gen_index_doc idx d : g_gen (index_doc idx d) = g_gen idx.
Proof. unfold index_doc. by destruct (indexMembers d.2) as [[]]. Qed.
Lemma g_gen_addOne g k a idx : g_gen (addOne g k a idx) = g_gen idx.
Proof. unfold addOne. by repeat case_decide. Qed.

Lemma index_docs_spec idx l kind actor g : kind ∈ kinds →
  g ∈ default [] (idx_kind kind (foldl index_doc idx l) !! actor) ↔
  g ∈ default [] (idx_kind kind idx !! actor) ∨
  (∃ raw, (g, raw) ∈ l ∧ actor ∈ members_kind kind (indexMembers raw)).
Proof.
  intros Hk. revert idx. induction l as [|[n raw] l IH]; intros idx; cbn [foldl].
  { split; [by left|]. intros [?|(raw & Hin & _)]; [done|]. by apply elem_of_nil in Hin. }
  rewrite IH, (index_doc_kind _ _ _ _ _ Hk). cbn [fst snd]. split.
  - intros [[Hg|[-> Ha]]|(r & Hr & Ha)]; [by left|right; exists raw|right; exists r];
      (split; [|done]); apply elem_of_cons; auto.
  - intros [Hg|(r & [[= -> ->]|Hr]%elem_of_cons & Ha)]; [by left; left|left; by right|right; eauto].
Qed.

Lemma index_rows_spec idx l kind actor g : kind ∈ kinds →
  g ∈ default [] (idx_kind kind (foldl index_row idx l) !! actor) ↔
  g ∈ default [] (idx_kind kind idx !! actor) ∨
  (∃ key raw, (key, raw) ∈ l ∧ splitMemberKey key = Some (g, kind, actor)).
Proof.
  intros Hk. revert idx. induction l as [|[key raw] l IH]; intros idx; cbn [foldl].
  { split; [by left|]. intros [?|(? & ? & Hin & _)]; [done|]. by apply elem_of_nil in Hin. }
  rewrite IH. unfold index_row. cbn [fst]. destruct (splitMemberKey key) as [[[g' k'] a']|] eqn:E.
  - rewrite (addOne_kind _ _ _ _ _ _ _ Hk). split.
    + intros [[Hg|(-> & -> & ->)]|(k & r & Hr & Ha)]; [by left| |];
        right; [exists key, raw|exists k, r]; (split; [|done]); apply elem_of_cons; auto.
    + intros [Hg|(k & r & [[= -> ->]|Hr]%elem_of_cons & Ha)]; [by left; left| |right; eauto].
      left. right. rewrite E in Ha. naive_solver.
  - split.
    + intros [Hg|(k & r & Hr & Ha)]; [by left|right]. exists k, r. split; [|done]. apply elem_of_cons; auto.
    + intros [Hg|(k & r & [[= -> ->]|Hr]%elem_of_cons & Ha)]; [by left|congruence|right; eauto].
Qed.

Section Cache.
Context {B : Type} `{BackendSpec B}.

Definition docs_of (org : string) (objs : gmap (string * string * string) string) := coll_of org "groups" objs.
Definition rows_of (org : string) (objs : gmap (string * string * string) string) := coll_of org groupMembersColl objs.

Lemma build_spec {O} org (s : Store B O) :
  match buildGroupIndex org s with
  | (Ok idx, s') => g_gen idx = groupsGen s.2 ∧
      index_of idx (docs_of org (s_objs (view s.1))) (rows_of org (s_objs (view s.1))) ∧
      view s'.1 = view s.1 ∧ ∃ c, s'.2 = with_counts c s.2
  | (Err e, s') => e ≠ ErrConflict ∧ view s'.1 = view s.1 ∧ ∃ c, s'.2 = with_counts c s.2
  end.
Proof.
  destruct s as [b sh]. unfold buildGroupIndex, Org_Range, st_bind, tally, lift, GroupsGeneration, st_ret.
  pose proof (Range_spec org "groups" b) as L. unfold reads in L. cbn [fst snd].
  destruct (Range org "groups" b) as [[docs|e] b1]; destruct L as [Hd Hv]; [|split; [done|]; split; [done|]; by eexists].
  pose proof (Range_spec org groupMembersColl b1) as L. unfold reads in L.
  destruct (Range org groupMembersColl b1) as [[rows|e] b2]; destruct L as [Hr Hv2];
    [|split; [done|]; split; [cbn; congruence|]; by eexists].
  split_and!; [| |cbn; congruence|by eexists].
  - clear. assert (∀ l idx, g_gen (foldl index_row idx l) = g_gen idx) as Hrow.
    { induction l as [|d l IH]; intros idx; [done|]. cbn [foldl]. rewrite IH. unfold index_row.
      destruct (splitMemberKey d.1) as [[[]]|]; [apply g_gen_addOne|done]. }
    assert (∀ l idx, g_gen (foldl index_doc idx l) = g_gen idx) as Hdoc.
    { induction l as [|d l IH]; intros idx; [done|]. cbn [foldl]. by rewrite IH, g_gen_index_doc. }
    by rewrite Hrow, Hdoc.
  - intros kind actor g Hk. rewrite (index_rows_spec _ _ _ _ _ Hk), (index_docs_spec _ _ _ _ _ Hk).
    setoid_rewrite Hd. setoid_rewrite Hr. setoid_rewrite elem_of_map_to_list. rewrite Hv.
    assert (idx_kind kind (mkGroupIndex (groupsGen sh) ∅ ∅ ∅) = ∅) as ->.
    { unfold idx_kind. by repeat case_decide. }
    rewrite lookup_empty. unfold declared, docs_of, rows_of. split.
    + intros [[Hn|Hdoc]|(key & raw & Hkey & E)]; [by apply elem_of_nil in Hn|by left|right].
      exists key. split; [by eexists|done].
    + intros [Hdoc|(key & [raw Hkey] & E)]; [left; by right|right; eauto].
Qed.
End Cache.

(** ** The cache follows the store *)

(** Events of writes to a collection; an organization drop is not one. *)
Definition write_event (ev : Event) : Prop :=
  ev_coll ev ≠ "" ∧ (ev_deleted ev = false → is_Some (ev_value ev)).

Lemma rows_of_event ev objs org : write_event ev →
  rows_of org (apply_event ev objs) =
  if decide (ev_org ev = org ∧ ev_coll ev = groupMembersColl) then
    match ev_value ev with
    | Some v => if ev_deleted ev then delete (ev_key ev) (rows_of org objs)
                else <[ev_key ev := v]> (rows_of org objs)
    | None => delete (ev_key ev) (rows_of org objs)
    end
  else rows_of org objs.
Proof.
  intros [Hc Hv]. unfold rows_of, apply_event. destruct (ev_deleted ev).
  - rewrite decide_False by done. rewrite coll_of_delete.
    destruct (decide (ev_org ev = org ∧ ev_coll ev = groupMembersColl)) as [[-> ->]|Hn].
    + rewrite decide_True by done. by destruct (ev_value ev).
    + rewrite decide_False by naive_solver. done.
  - destruct (Hv eq_refl) as [v ->]. rewrite coll_of_put.
    destruct (decide (ev_org ev = org ∧ ev_coll ev = groupMembersColl)) as [[-> ->]|Hn].
    + by rewrite decide_True.
    + rewrite decide_False by naive_solver. done.
Qed.

Lemma index_of_rows_ext idx docs rows rows' :
  (∀ key g k a, splitMemberKey key = Some (g, k, a) → is_Some (rows' !! key) ↔ is_Some (rows !! key)) →
  index_of idx docs rows → index_of idx docs rows'.
Proof.
  intros Hr Hi kind actor g Hk. rewrite (Hi _ _ _ Hk). unfold declared.
  split; (intros [?|(key & Hkey & E)]; [by left|right]); exists key; (split; [|done]);
    by apply (Hr key _ _ _ E).
Qed.

Lemma observe_rows ev m objs gen (D : string → gmap string string) : write_event ev →
  (∀ org idx, m !! org = Some idx → g_gen idx = gen → index_of idx (D org) (rows_of org objs)) →
  (∀ org idx, observe ev m !! org = Some idx → g_gen idx = gen →
     index_of idx (D org) (rows_of org (apply_event ev objs))) ∧
  (∀ org idx, observe ev m !! org = Some idx → ∃ idx0, m !! org = Some idx0 ∧ g_gen idx0 = g_gen idx).
Proof.
  intros Hev Hm. unfold observe. case_decide as Hc.
  { split; [|eauto]. intros org idx Hi Hg. rewrite rows_of_event by done.
    rewrite decide_False by naive_solver. by apply Hm. }
  destruct (splitMemberKey (ev_key ev)) as [[[g k] a]|] eqn:Es.
  - destruct (m !! ev_org ev) as [old|] eqn:Eo.
    + destruct (ev_deleted ev) eqn:Ed.
      * split; (intros org idx [Hne Hi]%lookup_delete_Some); [|eauto]. intros Hg.
        rewrite rows_of_event by done. rewrite decide_False by naive_solver. by apply Hm.
      * split; (intros org idx [[<- <-]|[Hne Hi]]%lookup_insert_Some).
        -- rewrite g_gen_addOne. intros Hg. rewrite rows_of_event by done. rewrite decide_True by done.
           rewrite Ed. destruct Hev as [_ Hv]. destruct (Hv Ed) as [v ->].
           intros kind actor group Hk. rewrite (addOne_kind _ _ _ _ _ _ _ Hk), (Hm _ _ Eo Hg _ _ _ Hk).
           unfold declared. split.
           ++ intros [[?|(key & Hkey & E)]|(-> & -> & ->)]; [by left|right|right].
              ** exists key. split; [|done]. apply lookup_insert_is_Some'. by right.
              ** exists (ev_key ev). split; [|done]. rewrite lookup_insert_eq. by eexists.
           ++ intros [?|(key & Hkey & E)]; [left; by left|].
              apply lookup_insert_is_Some' in Hkey as [<-|Hkey]; [right; naive_solver|left; right; eauto].
        -- intros Hg. rewrite rows_of_event by done. rewrite decide_False by naive_solver. by apply Hm.
        -- exists old. by rewrite g_gen_addOne.
        -- eauto.
    + split; [|eauto]. intros org idx Hi Hg. rewrite rows_of_event by done.
      rewrite decide_False by naive_solver. by apply Hm.
  - split; [|eauto]. intros org idx Hi Hg. rewrite rows_of_event by done.
    case_decide as Ho; [|by apply Hm]. apply (index_of_rows_ext _ _ (rows_of org objs)); [|by apply Hm].
    intros key g k a E. assert (key ≠ ev_key ev) by congruence.
    destruct (ev_value ev); [destruct (ev_deleted ev)|];
      by rewrite ?lookup_delete_ne, ?lookup_insert_ne.
Qed.

Lemma observed_rows evs gen (D : string → gmap string string) : Forall write_event evs → ∀ m objs,
  (∀ org idx, m !! org = Some idx → g_gen idx = gen → index_of idx (D org) (rows_of org objs)) →
  (∀ org idx, observed [observe] m evs !! org = Some idx → g_gen idx = gen →
     index_of idx (D org) (rows_of org (replay evs objs))) ∧
  (∀ org idx, observed [observe] m evs !! org = Some idx →
     ∃ idx0, m !! org = Some idx0 ∧ g_gen idx0 = g_gen idx).
Proof.
  induction 1 as [|ev evs Hev Hevs IH]; intros m objs Hm; [split; [done|eauto]|].
  cbn [observed replay foldl]. unfold watchers_emit. cbn [foldl].
  destruct (observe_rows ev m objs gen D Hev Hm) as [H1 H2].
  destruct (IH (observe ev m) (apply_event ev objs) H1) as [H3 H4]. split; [done|].
  intros org idx Hi. destruct (H4 org idx Hi) as (idx1 & Hi1 & <-). by apply H2.
Qed.

(** A server at work on groups: writes, and checks that consult the index. *)
Inductive gstep := GWrite (a : action) | GCheck (org : string).

Definition gstep_ok (st : gstep) : Prop :=
  match st with GWrite a => allowed_action write_event a ∧ no_drop_action a | GCheck _ => True end.
Definition gstep_writes (st : gstep) : nat := match st with GWrite a => writes_in a | GCheck _ => 0 end.

Section Follow.
Context {B : Type} `{BackendSpec B}.
Abbreviation server := (Store B (gmap string groupIndex)).

Definition run_gstep (s : server) (st : gstep) : server :=
  match st with GWrite a => (run_action a s).2 | GCheck org => (get org s).2 end.

(** Every cached index is of an earlier generation, or of this one and exact. *)
Definition current (s : server) : Prop :=
  watch s.2 = [observe] ∧ txbuf s.2 = None ∧ (0 ≤ groupsGen s.2)%Z ∧
  ∀ org idx, obs s.2 !! org = Some idx →
    (g_gen idx ≤ groupsGen s.2)%Z ∧
    (g_gen idx = groupsGen s.2 →
       index_of idx (docs_of org (s_objs (view s.1))) (rows_of org (s_objs (view s.1)))).

Lemma get_index org (s : server) : current s →
  match get org s with
  | (Ok idx, s') => index_of idx (docs_of org (s_objs (view s.1))) (rows_of org (s_objs (view s.1))) ∧
      current s' ∧ view s'.1 = view s.1 ∧ groupsGen s'.2 = groupsGen s.2
  | (Err e, s') => e ≠ ErrConflict ∧ current s' ∧ view s'.1 = view s.1 ∧ groupsGen s'.2 = groupsGen s.2
  end.
Proof.
  intros (Hw & Ht & Hg & Hc). unfold get, GroupsGeneration.
  assert (match match buildGroupIndex org s with
    | (Ok built, s') => (Ok built, (s'.1, with_obs (<[org := built]> (obs s'.2)) s'.2))
    | (Err e, s') => (Err e, s') end with
    | (Ok idx, s') => index_of idx (docs_of org (s_objs (view s.1))) (rows_of org (s_objs (view s.1))) ∧
        current s' ∧ view s'.1 = view s.1 ∧ groupsGen s'.2 = groupsGen s.2
    | (Err e, s') => e ≠ ErrConflict ∧ current s' ∧ view s'.1 = view s.1 ∧ groupsGen s'.2 = groupsGen s.2
    end) as Hre.
  { pose proof (build_spec org s) as Hb. destruct (buildGroupIndex org s) as [[idx|e] s'].
    - destruct Hb as (Hgen & Hi & Hv & c & Hs). rewrite Hs. cbn [fst snd obs with_counts with_obs].
      split; [done|]. split; [|done]. split; [done|]. split; [done|]. split; [done|].
      cbn [fst snd obs groupsGen with_obs with_counts]. rewrite Hv.
      intros o i [[<- <-]|[_ Hl]]%lookup_insert_Some; [|by apply Hc]. split; [lia|done].
    - destruct Hb as (He & Hv & c & Hs). rewrite Hs. split; [done|]. split; [|done].
      unfold current. rewrite Hs, Hv. done. }
  destruct (obs s.2 !! org) as [idx|] eqn:E; [|exact Hre].
  case_decide as Hgen; [|exact Hre]. destruct (Hc org idx E) as [_ Hi].
  split; [by apply Hi|]. done.
Qed.

Lemma run_gstep_current st (s : server) : gstep_ok st → current s →
  (groupsGen s.2 + Z.of_nat (gstep_writes st) < 2 ^ 64)%Z →
  current (run_gstep s st) ∧
  (groupsGen (run_gstep s st).2 ≤ groupsGen s.2 + Z.of_nat (gstep_writes st))%Z.
Proof.
  intros Hok Hs Hb. destruct st as [a|org]; cbn [run_gstep gstep_writes gstep_ok] in *.
  2:{ pose proof (get_index org s Hs) as Hg. destruct (get org s) as [[] s'];
        destruct Hg as (_ & Hc & _ & Hg); (split; [done|]); cbn [snd]; rewrite Hg; lia. }
  destruct Hok as [Hal Hnd]. destruct Hs as (Hw & Ht & Hg & Hc).
  pose proof (run_action_streamed write_event a s Hal) as Hst. rewrite (half_dropped_no_drop a s Hnd) in Hst.
  destruct (streamed_exact _ _ _ Hst) as (evs & Hev & [Hw' He] & Hr).
  rewrite Ht, Hw in He. destruct He as [Ht' Ho].
  destruct (run_action_noticed a s Hnd) as (k & Hk & Eg & Hdocs).
  rewrite ticks_exact in Eg by lia. split; [|rewrite Eg; lia].
  split; [by rewrite Hw'|]. split; [done|]. split; [lia|]. intros org idx Hi. rewrite Ho in Hi.
  destruct (observed_rows evs (groupsGen s.2) (λ org, docs_of org (s_objs (view s.1))) Hev
              (obs s.2) (s_objs (view s.1))) as [H1 H2].
  { intros o i Hl Hge. by apply Hc. }
  destruct (H2 org idx Hi) as (idx0 & Hi0 & Hge0). destruct (Hc org idx0 Hi0) as [Hle _].
  split; [lia|]. intros Hge. assert (k = 0) as Hz by lia.
  specialize (H1 org idx Hi ltac:(lia)). rewrite Hr. unfold docs_of in *.
  change "groups" with groupsColl in *. rewrite <-Hr, (Hdocs Hz org), Hr. done.
Qed.

Definition total_writes (sts : list gstep) : Z := foldr (λ st z, Z.of_nat (gstep_writes st) + z)%Z 0%Z sts.

Lemma run_gsteps_current sts (s : server) : Forall gstep_ok sts → current s →
  (groupsGen s.2 + total_writes sts < 2 ^ 64)%Z → current (foldl run_gstep s sts).
Proof.
  intros Hok. revert s. induction Hok as [|st sts Hst Hok IH]; intros s Hs Hb; [done|].
  cbn [foldl total_writes foldr] in *. fold (total_writes sts) in Hb.
  assert (0 ≤ total_writes sts)%Z as Hpos by (clear; unfold total_writes; induction sts; simpl; lia).
  destruct (run_gstep_current st s Hst Hs) as [Hc1 Hc2]; [lia|]. apply IH; [done|lia].
Qed.
End Follow.

(** The groups of an actor depend on what the store declares only. *)
Lemma membership_agrees idx idx' docs rows actor :
  index_of idx docs rows → index_of idx' docs rows → membership idx actor = membership idx' actor.
Proof.
  intros Hi Hi'. destruct (membership_spec idx actor) as (m & -> & Hm).
  destruct (membership_spec idx' actor) as (m' & -> & Hm'). f_equal. apply set_eq. intros g.
  rewrite Hm, Hm'.
  assert (∀ x y, edge (g_nests idx) x y ↔ edge (g_nests idx') x y) as He.
  { intros x y. pose proof (Hi memberGroups x y ltac:(unfold kinds; set_solver)) as H1.
    pose proof (Hi' memberGroups x y ltac:(unfold kinds; set_solver)) as H2.
    unfold edge. unfold idx_kind in H1, H2. by_kind. revert H1 H2. by_kind. intros H1 H2. by rewrite H1, H2. }
  assert (∀ d, d ∈ direct_groups idx actor ↔ d ∈ direct_groups idx' actor) as Hd.
  { intros d. unfold direct_groups. destruct (IsClient actor).
    - pose proof (Hi memberClients (a_name actor) d ltac:(unfold kinds; set_solver)) as H1.
      pose proof (Hi' memberClients (a_name actor) d ltac:(unfold kinds; set_solver)) as H2.
      unfold idx_kind in H1, H2. revert H1 H2. by_kind. intros H1 H2. by rewrite H1, H2.
    - pose proof (Hi memberUsers (a_name actor) d ltac:(unfold kinds; set_solver)) as H1.
      pose proof (Hi' memberUsers (a_name actor) d ltac:(unfold kinds; set_solver)) as H2.
      unfold idx_kind in H1, H2. revert H1 H2. by_kind. intros H1 H2. by rewrite H1, H2. }
  assert (∀ x y, rtc (edge (g_nests idx)) x y ↔ rtc (edge (g_nests idx')) x y) as Hr.
  { intros x y. split; intros Hx; (eapply rtc_subrel; [|exact Hx]); intros ? ?; apply He. }
  setoid_rewrite Hd. setoid_rewrite Hr. done.
Qed.

(** C27. The cached index answers as a fresh build would: on any backend, after
    any sequence of creates, puts, deletes, organization creations, transactions
    of them (committed or rolled back) and checks, in which no organization is
    dropped (a dropped one keeps its index: [dropped_org_keeps_index]) and fewer
    than 2^64 writes are made, the groups an actor is found in through the cache
    are those found by re-reading every group. Every write names a collection, as
    the server's do ([gstep_ok]). *)
Theorem cached_groups_agree `{BackendSpec B}
  (b : B) (sts : list gstep) (org : string) (actor : Actor) r r' s1 s2 :
  Forall gstep_ok sts → (total_writes sts < 2 ^ 64)%Z →
  let s := foldl run_gstep (Watch observe (NewWithBackend b newGroupIndexCache)) sts in
  API_actorGroups org actor s = (Ok r, s1) → actorGroups org actor s = (Ok r', s2) →
  r = r' ∧ is_Some r.
Proof.
  intros Hok Hb s. unfold API_actorGroups, actorGroups, st_bind.
  assert (current s) as Hs.
  { apply run_gsteps_current; [done| |done]. split; [done|]. split; [done|]. split; [done|].
    intros o i. cbn. unfold newGroupIndexCache. by rewrite lookup_empty. }
  pose proof (get_index org s Hs) as Hg. pose proof (build_spec org s) as Hbd.
  destruct (get org s) as [[idx|] s1']; [|done]. destruct (buildGroupIndex org s) as [[idx'|] s2']; [|done].
  intros [= <- _] [= <- _]. destruct Hg as [Hi _]. destruct Hbd as (_ & Hi' & _).
  split; [by eapply membership_agrees|]. destruct (membership_spec idx actor) as (m & -> & _). by eexists.
Qed.

(** ** Group documents read back *)

Definition valid_names (l : list string) : Prop := Forall (λ s, valid_utf8 s = true) l.

Lemma printable_strings l : valid_names l → printable (λ s, valid_utf8 s = true) (VArr (map VStr l)).
Proof. intros Hl. apply printable_arr. apply Forall_fmap. exact Hl. Qed.

Lemma canon_strings l : canon (VArr (map VStr l)) = VArr (map VStr l).
Proof. cbn. f_equal. rewrite map_map. done. Qed.

Lemma depth_strings l : depth (VArr (map VStr l)) ≤ 1.
Proof.
  cbn [depth]. rewrite map_map. assert (max_list (map (λ x, depth (VStr x)) l) = 0) as ->; [|lia].
  induction l; simpl in *; lia.
Qed.

(** A stored group document and its members. *)
Definition group_doc (name : string) (us cs gs : list string) : value :=
  VObj [("actors", VArr (map VStr (cs ++ us))); ("users", VArr (map VStr us));
        ("clients", VArr (map VStr cs)); ("groups", VArr (map VStr gs));
        ("name", VStr name); ("groupname", VStr name)].

#[local] Opaque max_depth.

Lemma decode_groupJSON name us cs gs : valid_names (name :: us ++ cs ++ gs) →
  decode false (groupJSON name "" us cs gs) = Some (group_doc name us cs gs).
Proof.
  intros Hv. apply Forall_cons in Hv as [Hn Hv]. apply Forall_app in Hv as [Hu Hv].
  apply Forall_app in Hv as [Hc Hg]. apply decode_lenient.
  assert (groupJSON name "" us cs gs = print escape (group_doc name us cs gs)) as ->.
  { unfold groupJSON. rewrite Marshal_print. rewrite decide_False by tauto. cbn [app].
    rewrite <-map_app. unfold group_doc.
    change (canon (VObj ?ms)) with (VObj (map (λ m, (m.1, canon m.2)) ms)). cbn [map fst snd].
    rewrite !canon_strings. done. }
  apply decode_print with (ok := λ s, valid_utf8 s = true); [apply escape_scan| |].
  - cbn [group_doc]. apply printable_obj.
    repeat (apply Forall_cons; split; [split; [done|]|]); [..|by apply Forall_nil]; cbn [snd]; try done;
      apply printable_strings; try done. apply Forall_app. done.
  - transitivity 2; [|vm_compute; lia]. unfold group_doc. cbn [depth map snd].
    pose proof (depth_strings (cs ++ us)). pose proof (depth_strings us).
    pose proof (depth_strings cs). pose proof (depth_strings gs). cbn [depth] in *. simpl. lia.
Qed.

Lemma fill_VStr old l : fill_strings old (map VStr l) = Some l.
Proof. revert old. induction l as [|x l IH]; intros old; [done|]. cbn. by rewrite IH. Qed.

Lemma jsonStrings_VStr l : jsonStrings (Some (VArr (map VStr l))) = l.
Proof. cbn. induction l as [|x l IH]; [done|]. cbn. by rewrite IH. Qed.

Lemma memberDoc_users m v :
  memberDoc_field m "users" v = (λ l, mkMembers l (Clients m) (Groups m)) <$> decode_strings (Users m) v.
Proof. done. Qed.
Lemma memberDoc_clients m v :
  memberDoc_field m "clients" v = (λ l, mkMembers (Users m) l (Groups m)) <$> decode_strings (Clients m) v.
Proof. done. Qed.
Lemma memberDoc_groups m v :
  memberDoc_field m "groups" v = (λ l, mkMembers (Users m) (Clients m) l) <$> decode_strings (Groups m) v.
Proof. done. Qed.
Lemma memberDoc_other m name v : name ∈ ["actors"; "orgname"; "name"; "groupname"] →
  memberDoc_field m name v = Some m.
Proof. rewrite !elem_of_cons, elem_of_nil. by intros [->|[->|[->|[->|[]]]]]. Qed.

Lemma indexMembers_groupJSON name us cs gs : valid_names (name :: us ++ cs ++ gs) →
  indexMembers (groupJSON name "" us cs gs) = (us, cs, gs).
Proof.
  intros Hv. unfold indexMembers, decodeMembers. rewrite decode_groupJSON by done.
  unfold group_doc, decode_struct. cbn [foldl fst snd].
  rewrite (memberDoc_other _ "actors") by set_solver. rewrite memberDoc_users.
  cbn [decode_strings Users Clients Groups]. rewrite fill_VStr. cbn [fmap option_fmap option_map].
  rewrite memberDoc_clients. cbn [decode_strings Users Clients Groups]. rewrite fill_VStr.
  cbn [fmap option_fmap option_map]. rewrite memberDoc_groups.
  cbn [decode_strings Users Clients Groups]. rewrite fill_VStr. cbn [fmap option_fmap option_map].
  rewrite !memberDoc_other by set_solver. done.
Qed.

Lemma groupMembers_groupJSON name us cs gs : valid_names (name :: us ++ cs ++ gs) →
  ∃ g, unmarshal_map (groupJSON name "" us cs gs) = Some (Some g) ∧ groupMembers g = (us, cs, gs).
Proof.
  intros Hv. unfold unmarshal_map. rewrite decode_groupJSON by done. unfold as_any.
  assert (∀ l, forallb numbers_fit (map VStr l) = true) as Hf by (induction l; done).
  assert (∀ l, any_of (VArr (map VStr l)) = VArr (map VStr l)) as Ha.
  { intros l. cbn. rewrite map_map. done. }
  assert (numbers_fit (group_doc name us cs gs) = true) as ->.
  { unfold group_doc. cbn [numbers_fit forallb snd]. by rewrite !Hf. }
  unfold group_doc. 
  change (any_of (VObj ?ms)) with (VObj (foldl (λ acc m, Set_ acc m.1 (any_of m.2)) [] ms)).
  cbn [foldl fst snd]. rewrite !Ha. cbn [any_of]. eexists. split; [reflexivity|].
  match goal with |- groupMembers ?g = _ =>
    assert (assoc g "actors" = Some (VArr (map VStr (cs ++ us)))) as H1 by reflexivity;
    assert (assoc g "users" = Some (VArr (map VStr us))) as H2 by reflexivity;
    assert (assoc g "clients" = Some (VArr (map VStr cs))) as H3 by reflexivity;
    assert (assoc g "groups" = Some (VArr (map VStr gs))) as H4 by reflexivity;
    unfold groupMembers; rewrite H1, H2, H3, H4
  end.
  by rewrite !jsonStrings_VStr.
Qed.

(** ** Revocation *)

(** The group's document, if it has one, is in the form the server writes. *)
Definition canonical_doc (docs : gmap string string) (name : string) : Prop :=
  ∀ raw, docs !! name = Some raw →
    ∃ us cs gs, raw = groupJSON name "" us cs gs ∧ valid_names (name :: us ++ cs ++ gs).
Definition canonical_docs (docs : gmap string string) : Prop := ∀ name, canonical_doc docs name.

(** What [removeFromGroupDoc] makes of a document. *)
Definition revoked_doc (kind actor name raw : string) : string :=
  match unmarshal_map raw with
  | None => raw
  | Some g =>
      let '(users, clients, groups) := groupMembers (members g) in
      let '(users, clients, groups, changed) :=
        if decide (kind = memberUsers) then
          let '(l, ch) := without users actor in (l, clients, groups, ch)
        else if decide (kind = memberClients) then
          let '(l, ch) := without clients actor in (users, l, groups, ch)
        else if decide (kind = memberGroups) then
          let '(l, ch) := without groups actor in (users, clients, l, ch)
        else (users, clients, groups, false) in
      if changed : bool then groupJSON name "" users clients groups else raw
  end.

Lemma without_spec l v :
  let '(out, changed) := without l v in
  (∀ x, x ∈ out ↔ x ∈ l ∧ x ≠ v) ∧ (changed = false → out = l).
Proof.
  unfold without. split; [intros x; rewrite list_elem_of_filter; tauto|].
  intros Hc%bool_decide_eq_false. apply dec_stable in Hc.
  induction l as [|y l IH]; [done|]. rewrite filter_cons in *. case_decide.
  - simpl in Hc. f_equal. apply IH. lia.
  - pose proof (length_filter (λ e, e ≠ v) l). simpl in Hc. lia.
Qed.

Lemma valid_without l v : valid_names l → valid_names (without l v).1.
Proof.
  unfold valid_names. rewrite !Forall_forall. intros Hl x [_ Hx]%list_elem_of_filter. auto.
Qed.

(** On a canonical document the actor goes and nobody else does. *)
Lemma revoked_doc_members kind actor name us cs gs k a :
  valid_names (name :: us ++ cs ++ gs) → kind ∈ kinds → k ∈ kinds →
  a ∈ members_kind k (indexMembers (revoked_doc kind actor name (groupJSON name "" us cs gs))) ↔
  a ∈ members_kind k (us, cs, gs) ∧ ¬ (k = kind ∧ a = actor).
Proof.
  intros Hv Hkind Hk. destruct (groupMembers_groupJSON name us cs gs Hv) as (g & Hu & Hg).
  unfold revoked_doc. rewrite Hu. change (members (Some g)) with g. rewrite Hg.
  pose proof (indexMembers_groupJSON name us cs gs Hv) as Hraw.
  apply Forall_cons in Hv as [Hn Hv]. apply Forall_app in Hv as [Hvu Hv]. apply Forall_app in Hv as [Hvc Hvg].
  unfold kinds in Hkind, Hk. rewrite !elem_of_cons, elem_of_nil in Hkind, Hk.
  destruct Hkind as [->|[->|[->|[]]]]; by_kind.
  - pose proof (without_spec us actor) as Hw. pose proof (valid_without us actor Hvu) as Hvw.
    destruct (without us actor) as [l []]; destruct Hw as [Hw Hc].
    + rewrite indexMembers_groupJSON by (apply Forall_cons; split; [done|]; rewrite !Forall_app; done).
      destruct Hk as [->|[->|[->|[]]]]; unfold members_kind; by_kind; cbn; rewrite ?Hw; naive_solver.
    + rewrite (Hc eq_refl) in Hw. rewrite Hraw.
      destruct Hk as [->|[->|[->|[]]]]; unfold members_kind; by_kind; cbn; naive_solver.
  - pose proof (without_spec cs actor) as Hw. pose proof (valid_without cs actor Hvc) as Hvw.
    destruct (without cs actor) as [l []]; destruct Hw as [Hw Hc].
    + rewrite indexMembers_groupJSON by (apply Forall_cons; split; [done|]; rewrite !Forall_app; done).
      destruct Hk as [->|[->|[->|[]]]]; unfold members_kind; by_kind; cbn; rewrite ?Hw; naive_solver.
    + rewrite (Hc eq_refl) in Hw. rewrite Hraw.
      destruct Hk as [->|[->|[->|[]]]]; unfold members_kind; by_kind; cbn; naive_solver.
  - pose proof (without_spec gs actor) as Hw. pose proof (valid_without gs actor Hvg) as Hvw.
    destruct (without gs actor) as [l []]; destruct Hw as [Hw Hc].
    + rewrite indexMembers_groupJSON by (apply Forall_cons; split; [done|]; rewrite !Forall_app; done).
      destruct Hk as [->|[->|[->|[]]]]; unfold members_kind; by_kind; cbn; rewrite ?Hw; naive_solver.
    + rewrite (Hc eq_refl) in Hw. rewrite Hraw.
      destruct Hk as [->|[->|[->|[]]]]; unfold members_kind; by_kind; cbn; naive_solver.
Qed.

Section Revocation.
Context {B : Type} `{BackendSpec B} {O : Type}.
Abbreviation st := (Store B O).

(** Rewriting one document. *)
Lemma removeFromGroupDoc_triple (org kind actor name : string) (x0 : objects) :
  triple (B := B) (O := O) (λ x, x = x0) (removeFromGroupDoc org kind actor name)
    (λ _ x, x = match x0 !! (org, "groups", name) with
                | Some raw => <[(org, "groups", name) := revoked_doc kind actor name raw]> x0
                | None => x0
                end).
Proof.
  unfold removeFromGroupDoc. eapply triple_bind; [apply triple_Get|]. intros raw.
  intros s [Hx Hraw]. rewrite Hx in Hraw. rewrite <-Hraw. destruct raw as [raw|]; [|exact Hx].
  unfold revoked_doc. destruct (unmarshal_map raw) as [g|]; [|cbn; rewrite Hx; by rewrite insert_id].
  destruct (groupMembers (members g)) as [[users clients] groups].
  destruct (if decide (kind = memberUsers) then _ else _) as [[[us cs] gs] []].
  - pose proof (triple_Put (O := O) org "groups" name (groupJSON name "" us cs gs) (λ x, x = x0) s Hx) as Hp.
    destruct (Org_Put _ _ _ _ s) as [[]]; [|done]. by destruct Hp as (x & -> & ->).
  - cbn. rewrite Hx. by rewrite insert_id.
Qed.

(** All documents named in [done] rewritten, the rest as before. *)
Definition docs_revoked (org kind actor : string) (x0 : objects) (done : list string) (x : objects) : Prop :=
  ∀ o c n, x !! (o, c, n) =
    if decide (o = org ∧ c = "groups" ∧ n ∈ done)
    then revoked_doc kind actor n <$> x0 !! (o, c, n) else x0 !! (o, c, n).

Lemma removeFromGroupDocs_triple (org kind actor : string) (x0 : objects) :
  triple (B := B) (O := O) (λ x, x = x0) (removeFromGroupDocs org kind actor)
    (λ _ x, ∀ o c n, x !! (o, c, n) =
       if decide (o = org ∧ c = "groups") then revoked_doc kind actor n <$> x0 !! (o, c, n)
       else x0 !! (o, c, n)).
Proof.
  unfold removeFromGroupDocs. eapply triple_bind; [apply triple_Keys|]. intros names.
  intros s [Hx Hn]. rewrite Hx in Hn.
  assert (NoDup names) as Hnd.
  { rewrite Hn, sort_strings_perm. apply NoDup_fst_map_to_list. }
  assert (∀ dn n rest, names = dn ++ n :: rest →
    triple (B := B) (O := O) (docs_revoked org kind actor x0 dn) (removeFromGroupDoc org kind actor n)
      (λ _, docs_revoked org kind actor x0 (dn ++ [n]))) as Hstep.
  { intros dn n rest El s1 Hd.
    pose proof (removeFromGroupDoc_triple org kind actor n (objs s1) s1 eq_refl) as H1.
    destruct (removeFromGroupDoc _ _ _ n s1) as [[] s2]; [|done]. intros o c m. rewrite H1.
    assert (n ∉ dn) as Hndn.
    { rewrite El in Hnd. apply NoDup_app in Hnd as (_ & Hnd & _). intros Hin. apply (Hnd n Hin). set_solver. }
    pose proof (Hd org "groups" n) as Hdn. rewrite decide_False in Hdn by naive_solver.
    rewrite Hdn. specialize (Hd o c m).
    destruct (decide ((o, c, m) = (org, "groups", n))) as [[= -> -> ->]|Hne].
    - rewrite decide_True by set_solver. destruct (x0 !! (org, "groups", n)) as [raw|] eqn:Er.
      + by rewrite lookup_insert_eq.
      + by rewrite Hd, decide_False by naive_solver.
    - assert (match x0 !! (org, "groups", n) with
        | Some raw => <[(org, "groups", n) := revoked_doc kind actor n raw]> (objs s1) | None => objs s1 end
        !! (o, c, m) = objs s1 !! (o, c, m)) as ->.
      { destruct (x0 !! (org, "groups", n)); [by rewrite lookup_insert_ne|done]. }
      rewrite Hd. repeat case_decide; try done; set_solver. }
  pose proof (triple_each (O := O) _ names (docs_revoked org kind actor x0) Hstep s) as Ht.
  destruct (st_each _ names s) as [[] s']; [|done].
  assert (docs_revoked org kind actor x0 names (objs s')) as Hd.
  { apply Ht. intros o c n. rewrite decide_False by set_solver. by rewrite Hx. }
  intros o c n. rewrite Hd. destruct (decide (o = org ∧ c = "groups")) as [[-> ->]|Hne].
  - case_decide as Hin; [done|]. destruct (x0 !! (org, "groups", n)) eqn:Er; [|done]. exfalso. apply Hin.
    split; [done|]. split; [done|]. rewrite Hn, sort_strings_perm. apply list_elem_of_fmap.
    exists (n, s0). split; [done|]. apply elem_of_map_to_list. by rewrite lookup_coll_of.
  - rewrite decide_False by naive_solver. done.
Qed.

(** Deleting rows. *)
Lemma delete_rows_triple (org : string) (keys : list string) (x0 : objects) :
  triple (B := B) (O := O) (λ x, x = x0) (delete_rows org keys)
    (λ _ x, ∀ o c k, x !! (o, c, k) =
       if decide (o = org ∧ c = groupMembersColl ∧ k ∈ keys) then None else x0 !! (o, c, k)).
Proof.
  intros s Hx. unfold delete_rows.
  set (inv := λ (dn : list string) (x : objects), ∀ o c k, x !! (o, c, k) =
    if decide (o = org ∧ c = groupMembersColl ∧ k ∈ dn) then None else x0 !! (o, c, k)).
  assert (∀ dn key rest, keys = dn ++ key :: rest → triple (B := B) (O := O) (inv dn)
    (Org_Delete org groupMembersColl key ;;! st_ret tt) (λ _, inv (dn ++ [key]))) as Hstep.
  { intros dn key rest _. eapply triple_bind; [apply triple_Delete|]. intros old. apply triple_ret.
    intros x (x1 & Hi & _ & ->) o c k. destruct (decide ((o, c, k) = (org, groupMembersColl, key))) as [[= -> -> ->]|Hne].
    - rewrite lookup_delete_eq. by rewrite decide_True by set_solver.
    - rewrite lookup_delete_ne by done. rewrite Hi. repeat case_decide; try done; set_solver. }
  pose proof (triple_each _ keys inv Hstep s) as Ht.
  destruct (st_each _ keys s) as [[] s']; [|done]. apply Ht.
  intros o c k. rewrite decide_False by set_solver. by rewrite Hx.
Qed.

(** Deleting the rows a scan found that satisfy [P]. *)
Lemma delete_rows_where (org : string) (P : string → Prop) `{∀ k, Decision (P k)}
    (rows : list (string * string)) (x0 : objects) :
  ∀ s : st, objs s = x0 → rows ≡ₚ map_to_list (coll_of org groupMembersColl x0) →
  match delete_rows org (filter P (map fst rows)) s with
  | (Ok _, s') => ∀ o c k, objs s' !! (o, c, k) =
      if decide (o = org ∧ c = groupMembersColl ∧ P k) then None else x0 !! (o, c, k)
  | (Err _, _) => True
  end.
Proof.
  intros s Hx Hr. pose proof (delete_rows_triple org (filter P (map fst rows)) x0 s Hx) as Hd.
  destruct (delete_rows _ _ s) as [[] s']; [|done]. intros o c k. rewrite Hd.
  destruct (decide (o = org ∧ c = groupMembersColl ∧ P k)) as [(-> & -> & Hs)|Hne].
  - case_decide as Hin; [done|]. destruct (x0 !! (org, groupMembersColl, k)) as [v|] eqn:E; [|done].
    exfalso. apply Hin. split; [done|]. split; [done|]. apply list_elem_of_filter. split; [done|].
    apply list_elem_of_fmap. exists (k, v). split; [done|]. rewrite Hr.
    apply elem_of_map_to_list. by rewrite lookup_coll_of.
  - rewrite decide_False; [done|]. intros (-> & -> & [? _]%list_elem_of_filter). naive_solver.
Qed.

Lemma removeMemberRows_triple (org kind actor : string) (x0 : objects) :
  triple (B := B) (O := O) (λ x, x = x0) (removeMemberRows org kind actor)
    (λ _ x, ∀ o c k, x !! (o, c, k) =
       if decide (o = org ∧ c = groupMembersColl ∧
                  has_suffix (String NUL (kind +:+ String NUL actor)) k = true)
       then None else x0 !! (o, c, k)).
Proof.
  unfold removeMemberRows. eapply triple_bind; [apply triple_Range|]. intros rows s [Hx Hr].
  apply (delete_rows_where org (λ k, has_suffix (String NUL (kind +:+ String NUL actor)) k = true) rows x0 s Hx).
  by rewrite <-Hx.
Qed.

Lemma clearMembers_triple (org group : string) (x0 : objects) :
  triple (B := B) (O := O) (λ x, x = x0) (clearMembers org group)
    (λ _ x, ∀ o c k, x !! (o, c, k) =
       if decide (o = org ∧ c = groupMembersColl ∧ has_prefix (group +:+ String NUL "") k = true)
       then None else x0 !! (o, c, k)).
Proof.
  unfold clearMembers. eapply triple_bind; [apply triple_Range|]. intros rows s [Hx Hr].
  apply (delete_rows_where org (λ k, has_prefix (group +:+ String NUL "") k = true) rows x0 s Hx). by rewrite <-Hx.
Qed.

Lemma member_prefix (group key g k a : string) :
  ¬ str_in NUL group → splitMemberKey key = Some (g, k, a) →
  has_prefix (group +:+ String NUL "") key = true ↔ g = group.
Proof.
  intros Hg Hs. rewrite has_prefix_true. split.
  - intros [r ->]. unfold splitMemberKey in Hs. rewrite app_string_assoc in Hs. cbn [String.append] in Hs.
    rewrite split_on_app in Hs by done. destruct (split_on NUL r) as [|x [|y [|]]]; try done. congruence.
  - intros ->. apply splitMemberKey_Some in Hs as ->. exists (k +:+ String NUL a). unfold memberKey.
    by rewrite app_string_assoc.
Qed.

Lemma member_suffix (kind actor key g k a : string) :
  ¬ str_in NUL kind → ¬ str_in NUL actor → splitMemberKey key = Some (g, k, a) →
  has_suffix (String NUL (kind +:+ String NUL actor)) key = true ↔ k = kind ∧ a = actor.
Proof.
  intros Hk Ha Hs. rewrite has_suffix_true. split.
  - intros [r ->]. unfold splitMemberKey in Hs. rewrite split_on_app_any in Hs.
    rewrite split_on_app in Hs by done. rewrite (split_on_no_sep NUL actor) in Hs by done.
    destruct (split_on NUL r) as [|x [|y l]] eqn:E; [by apply split_on_nonempty in E| |].
    + cbn in Hs. by injection Hs as -> -> ->.
    + cbn in Hs. by destruct l as [|? []].
  - intros [-> ->]. apply splitMemberKey_Some in Hs as ->. exists g. done.
Qed.
End Revocation.

Lemma kind_no_nul kind : kind ∈ kinds → ¬ str_in NUL kind.
Proof.
  unfold kinds. rewrite !elem_of_cons, elem_of_nil. intros [->|[->|[->|[]]]]; apply (bool_decide_unpack _); vm_compute; exact I.
Qed.

(** Every row that declares the actor goes. *)
Lemma revoked_rows `{BackendSpec B} {O : Type} (org kind actor : string) (s s' : Store B O) :
  kind ∈ kinds → ¬ str_in NUL actor → removeActorFromAllGroups org kind actor s = (Ok tt, s') →
  ∀ key g, splitMemberKey key = Some (g, kind, actor) → rows_of org (objs s') !! key = None.
Proof.
  intros Hkind Hactor. unfold removeActorFromAllGroups, st_bind.
  pose proof (removeMemberRows_triple org kind actor (objs s) s eq_refl) as H1.
  destruct (removeMemberRows org kind actor s) as [[[]|] s1]; [|done].
  pose proof (removeFromGroupDocs_triple org kind actor (objs s1) s1 eq_refl) as H2.
  destruct (removeFromGroupDocs org kind actor s1) as [[[]|] s2]; [|done].
  intros [= ->] key g Hs. unfold rows_of. rewrite lookup_coll_of, H2, decide_False by (by intros [_ ?]).
  rewrite H1, decide_True; [done|]. split; [done|]. split; [done|].
  by apply (member_suffix kind actor key g kind actor (kind_no_nul _ Hkind) Hactor Hs).
Qed.

Lemma revocation_spec `{BackendSpec B} {O : Type} (org kind actor : string)
  (s s' : Store B O) :
  kind ∈ kinds → ¬ str_in NUL actor →
  removeActorFromAllGroups org kind actor s = (Ok tt, s') →
  ∀ k a g, k ∈ kinds → canonical_doc (docs_of org (objs s)) g →
    declared (docs_of org (objs s')) (rows_of org (objs s')) k a g ↔
    declared (docs_of org (objs s)) (rows_of org (objs s)) k a g ∧ ¬ (k = kind ∧ a = actor).
Proof.
  intros Hkind Hactor. unfold removeActorFromAllGroups, st_bind.
  pose proof (removeMemberRows_triple org kind actor (objs s) s eq_refl) as H1.
  destruct (removeMemberRows org kind actor s) as [[[]|] s1]; [|done].
  pose proof (removeFromGroupDocs_triple org kind actor (objs s1) s1 eq_refl) as H2.
  destruct (removeFromGroupDocs org kind actor s1) as [[[]|] s2]; [|done].
  intros [= ->] k a g Hk Hcan. unfold declared, docs_of, rows_of. setoid_rewrite lookup_coll_of.
  setoid_rewrite H2. setoid_rewrite decide_True at 1; [|done].
  assert (∀ key, objs s1 !! (org, "groups", key) = objs s !! (org, "groups", key)) as Hd1.
  { intros key. rewrite H1. by rewrite decide_False by naive_solver. }
  rewrite Hd1.
  pose proof (kind_no_nul _ Hkind) as Hkn.
  assert ((∃ raw, revoked_doc kind actor g <$> objs s !! (org, "groups", g) = Some raw ∧
             a ∈ members_kind k (indexMembers raw)) ↔
          (∃ raw, objs s !! (org, "groups", g) = Some raw ∧ a ∈ members_kind k (indexMembers raw)) ∧
          ¬ (k = kind ∧ a = actor)) as ->.
  { destruct (objs s !! (org, "groups", g)) as [raw|] eqn:E; [|naive_solver].
    destruct (Hcan raw) as (us & cs & gs & -> & Hv); [unfold docs_of; by rewrite lookup_coll_of|].
    pose proof (revoked_doc_members kind actor g us cs gs k a Hv Hkind Hk) as Hrev.
    pose proof (indexMembers_groupJSON g us cs gs Hv) as Hraw. cbn [fmap option_fmap option_map]. split.
    - intros (raw & [= <-] & Ha). apply Hrev in Ha as [Ha Hn]. split; [|done]. rewrite <-Hraw in Ha. eauto.
    - intros [(raw & Hr & Ha) Hn]. injection Hr as <-. rewrite Hraw in Ha.
      eexists. split; [done|]. by apply Hrev. }
  assert ((∃ key, is_Some (if decide (org = org ∧ groupMembersColl = "groups")
                             then revoked_doc kind actor key <$> objs s1 !! (org, groupMembersColl, key)
                             else objs s1 !! (org, groupMembersColl, key)) ∧
             splitMemberKey key = Some (g, k, a)) ↔
          (∃ key, is_Some (objs s !! (org, groupMembersColl, key)) ∧ splitMemberKey key = Some (g, k, a)) ∧
          ¬ (k = kind ∧ a = actor)) as Hrows.
  { split.
    - intros (key & Hkey & Hs). rewrite decide_False, H1 in Hkey by (by intros [_ ?]).
      pose proof (member_suffix kind actor key g k a Hkn Hactor Hs) as Hsuf.
      case_decide as Hc; [by destruct Hkey|]. split; [eauto|]. intros [-> ->]. apply Hc.
      split; [done|]. split; [done|]. by apply Hsuf.
    - intros [(key & Hkey & Hs) Hn]. exists key. split; [|done]. rewrite decide_False by (by intros [_ ?]).
      rewrite H1, decide_False; [done|]. intros (_ & _ & Hc).
      by apply (member_suffix kind actor key g k a Hkn Hactor Hs) in Hc. }
  rewrite Hrows. tauto.
Qed.

(** C28. Revoking an actor removes exactly it: when [removeActorFromAllGroups]
    returns without an error, no row of the organization declares the actor a
    member of any group, and in every group whose document, if it has one, is in
    the form the server writes, nothing declares the actor any more, document or
    row, and every other membership is as it was. A document in another form (a
    loaded or hand-written one) is outside: the index may read members there that
    the revocation does not ([handwritten_docs_diverge]). The name holds no NUL
    byte, as names do. *)
Theorem revocation_is_exact `{BackendSpec B} {O : Type} (org kind actor : string)
  (s s' : Store B O) :
  kind ∈ kinds → ¬ str_in NUL actor →
  removeActorFromAllGroups org kind actor s = (Ok tt, s') →
  (∀ key g, splitMemberKey key = Some (g, kind, actor) → rows_of org (objs s') !! key = None) ∧
  ∀ k a g, k ∈ kinds → canonical_doc (docs_of org (objs s)) g →
    declared (docs_of org (objs s')) (rows_of org (objs s')) k a g ↔
    declared (docs_of org (objs s)) (rows_of org (objs s)) k a g ∧ ¬ (k = kind ∧ a = actor).
Proof. intros Hk Hn E. split; [by apply (revoked_rows org kind actor s)|by apply revocation_spec]. Qed.

(** ** Samples *)

Definition mem_server : Store Memory.memoryBackend groupIndexCache :=
  Watch observe (NewWithBackend Memory.NewMemoryBackend newGroupIndexCache).

Definition sample_gsteps : list gstep :=
  [ GWrite (One (WCreateOrg "acme"));
    GWrite (One (WPut "acme" "groups" "admins" (groupJSON "admins" "" ["alice"] [] ["ops"])));
    GCheck "acme";
    GWrite (One (WPut "acme" groupMembersColl (memberKey "ops" memberUsers "bob") "{}"));
    GCheck "acme";
    GWrite (Atomically [WPut "acme" "groups" "ops" (groupJSON "ops" "" [] ["node1"] [])] None);
    GWrite (One (WDelete "acme" groupMembersColl (memberKey "ops" memberUsers "carol"))) ].

Lemma sample_gsteps_ok : Forall gstep_ok sample_gsteps.
Proof.
  unfold sample_gsteps. repeat (apply Forall_cons_2 || apply Forall_nil_2); cbn [gstep_ok];
    repeat match goal with
    | |- _ ∧ _ => split
    | |- allowed_action _ _ => cbn [allowed_action]
    | |- no_drop_action _ => cbn [no_drop_action no_drop]
    | |- allowed _ _ => split; cbn [named event_of]
    | |- write_event _ => split; cbn [ev_coll ev_deleted ev_value]
    | |- Forall _ _ => first [apply Forall_cons_2 | apply Forall_nil_2]
    | |- _ => first [exact I | discriminate | intros; eexists; reflexivity | done]
    end.
Qed.

Lemma cached_groups_agree_witness :
  let s := foldl run_gstep mem_server sample_gsteps in
  let bob := mkActor "bob" false false false in
  match API_actorGroups "acme" bob s, actorGroups "acme" bob s with
  | (Ok r, _), (Ok r', _) => r = r' ∧ is_Some r
  | _, _ => False
  end.
Proof.
  intros s bob.
  assert (is_Ok (API_actorGroups "acme" bob s).1 = true) as H1 by (vm_compute; reflexivity).
  assert (is_Ok (actorGroups "acme" bob s).1 = true) as H2 by (vm_compute; reflexivity).
  destruct (API_actorGroups "acme" bob s) as [[r|] s1] eqn:E1; [|discriminate H1].
  destruct (actorGroups "acme" bob s) as [[r'|] s2] eqn:E2; [|discriminate H2].
  exact (cached_groups_agree Memory.NewMemoryBackend sample_gsteps
           "acme" bob r r' s1 s2 sample_gsteps_ok ltac:(vm_compute; reflexivity) E1 E2).
Defined.

Example bob_is_an_admin :
  let s := foldl run_gstep mem_server sample_gsteps in
  match (API_actorGroups "acme" (mkActor "bob" false false false) s).1 with
  | Ok (Some m) => bool_decide ("ops" ∈ m) && bool_decide ("admins" ∈ m)
  | _ => false
  end = true.
Proof. vm_compute. reflexivity. Qed.

(** Dropping an organization leaves its cached index in place: neither the
    generation nor the observer reacts to the drop, so an organization created
    again under the name is answered from the old one's groups until a group is
    written. Here alice is still found in a group that is not stored. *)
Theorem dropped_org_keeps_index :
  let s := foldl run_gstep mem_server
    [ GWrite (One (WCreateOrg "acme"));
      GWrite (One (WPut "acme" "groups" "admins" (groupJSON "admins" "" ["alice"] [] [])));
      GCheck "acme";
      GWrite (One (WDeleteOrg "acme")); GWrite (One (WCreateOrg "acme")) ] in
  let alice := mkActor "alice" false false false in
  match (API_actorGroups "acme" alice s).1, (actorGroups "acme" alice s).1 with
  | Ok (Some cached), Ok (Some stored) => "admins" ∈ cached ∧ "admins" ∉ stored
  | _, _ => False
  end.
Proof.
  intros s alice.
  assert (match (API_actorGroups "acme" alice s).1, (actorGroups "acme" alice s).1 with
    | Ok (Some cached), Ok (Some stored) =>
        bool_decide ("admins" ∈ cached) && negb (bool_decide ("admins" ∈ stored))
    | _, _ => false end = true) as H1 by (vm_compute; reflexivity).
  destruct (API_actorGroups "acme" alice s).1 as [[c|]|]; try discriminate H1.
  destruct (actorGroups "acme" alice s).1 as [[c'|]|]; try discriminate H1.
  apply andb_true_iff in H1 as [H1 H2]. split; [by eapply bool_decide_eq_true_1|].
  apply negb_true_iff in H2. by eapply bool_decide_eq_false_1.
Qed.

(** The authorization index and the membership view read a hand-written
    group document differently: members nested under "actors" are shown as
    members but hold nothing, and members under "Users" hold the group without
    being shown, which is also how revocation reads the document. *)
Theorem handwritten_docs_diverge :
  let q := print_string id in
  let nested := "{" +:+ q "actors" +:+ ":{" +:+ q "users" +:+ ":[" +:+ q "alice" +:+ "]}}" in
  let cased := "{" +:+ q "Users" +:+ ":[" +:+ q "alice" +:+ "]}" in
  ((groupMembers ∘ members) <$> unmarshal_map nested = Some (["alice"], [], []) ∧
   indexMembers nested = ([], [], [])) ∧
  ((groupMembers ∘ members) <$> unmarshal_map cased = Some ([], [], []) ∧
   indexMembers cased = (["alice"], [], []) ∧
   indexMembers (revoked_doc memberUsers "alice" "admins" cased) = (["alice"], [], [])).
Proof. vm_compute. done. Qed.

Definition canonical_sample : Store Memory.memoryBackend groupIndexCache :=
  foldl run_gstep mem_server sample_gsteps.

Lemma revocation_is_exact_witness :
  match removeActorFromAllGroups "acme" memberUsers "bob" canonical_sample with
  | (Ok tt, s') =>
      ∀ g, ¬ declared (docs_of "acme" (objs s')) (rows_of "acme" (objs s')) memberUsers "bob" g
  | _ => False
  end.
Proof.
  assert (is_Ok (removeActorFromAllGroups "acme" memberUsers "bob" canonical_sample).1 = true) as H1
    by (vm_compute; reflexivity).
  destruct (removeActorFromAllGroups "acme" memberUsers "bob" canonical_sample) as [[[]|] s'] eqn:E;
    [|discriminate H1].
  assert (docs_of "acme" (objs canonical_sample) =
    {[ "admins" := groupJSON "admins" "" ["alice"] [] ["ops"]; "ops" := groupJSON "ops" "" [] ["node1"] [] ]}) as Hdocs
    by (apply (bool_decide_unpack _); vm_compute; exact I).
  intros g Hg. apply (revocation_is_exact "acme" memberUsers "bob" canonical_sample s') in Hg.
  - destruct Hg as [_ Hn]. apply Hn. split; reflexivity.
  - apply elem_of_cons. left. reflexivity.
  - apply (bool_decide_unpack _). vm_compute. exact I.
  - exact E.
  - apply elem_of_cons. left. reflexivity.
  - rewrite Hdocs. intros raw [[<- <-]|[_ [<- <-]%lookup_singleton_Some]]%lookup_insert_Some;
      eexists _, _, _; (split; [reflexivity|]); repeat constructor.
Defined.
