(* ===== verification/Http.v ===== *)
(** * Handlers: replies, early returns, requests

    What an HTTP handler of internal/api leaves behind: a reply and a store.
    Covers internal/api/respond.go's error bodies, preread.go and the lookup of
    the organization (api.go). *)
From S2P Require Import Prelude GoText Json Chefjson Float GoJson Store Facade Groups.

(** ** Replies *)

(** The body a handler writes: [writeError], [writeJSON] of a decoded value,
    [writeRaw], or nothing. *)
Inductive body :=
  | Messages (msgs : list string)
  | Doc (v : value)
  | Raw (bytes : string)
  | NoBody.

Record reply := mkReply { status : Z; content : body }.

Definition writeError (code : Z) (msgs : list string) : reply := mkReply code (Messages msgs).
Definition writeJSON (code : Z) (v : value) : reply := mkReply code (Doc v).
Definition writeRaw (code : Z) (raw : string) : reply := mkReply code (Raw raw).

(** The bytes on the wire: an encoded document ends in a newline. *)
Definition body_bytes (b : body) : string :=
  match b with
  | Messages msgs => mustEncode (VObj [("error", VArr (map VStr msgs))]) +:+ String (chr 10) ""
  | Doc v => mustEncode v +:+ String (chr 10) ""
  | Raw s => s
  | NoBody => ""
  end.

(** [err.Error()]. *)
Definition error_text (e : gerror) : string :=
  match e with ErrConflict => "store: already exists" | ErrOther msg => msg end.

Definition internal_error (e : gerror) : reply := writeError 500 [error_text e].

(** ** The handler monad: a value to go on with, or the reply already written *)

Definition handler (S A : Type) : Type := S → (A + reply) * S.

Definition h_ret {S A} (a : A) : handler S A := λ s, (inl a, s).
Definition h_reply {S A} (r : reply) : handler S A := λ s, (inr r, s).
Definition h_bind {S A C} (m : handler S A) (k : A → handler S C) : handler S C := λ s,
  match m s with
  | (inl a, s') => k a s'
  | (inr r, s') => (inr r, s')
  end.

(** A store call whose error is answered with a 500. *)
Definition or_500 {S A} (m : ST S A) : handler S A := λ s,
  match m s with
  | (Ok a, s') => (inl a, s')
  | (Err e, s') => (inr (internal_error e), s')
  end.

(** A store call whose error the handler looks at itself. *)
Definition attempt {S A} (m : ST S A) : handler S (result A) := λ s,
  let '(r, s') := m s in (inl r, s').

Declare Scope http_scope.
Delimit Scope http_scope with http.
Notation "'let?' x := m 'in' k" := (h_bind m (λ x, k))
  (at level 10, x name, m at level 100, k at level 200) : http_scope.
Notation "m ';;?' k" := (h_bind m (λ _, k)) (at level 199, right associativity) : http_scope.

(** ** Requests *)

(** What a connection says about the address it was reached on: the configured
    external URL, TLS, the Host and the X-Forwarded-Proto headers. *)
Record conn := mkConn { c_external : option string; c_tls : bool; c_host : string; c_forwarded : string }.

Section BaseURL.
Context `{Unicode}.

Definition forwardedScheme (c : conn) : string :=
  let first := match cut "," (c_forwarded c) with Some (a, _) => a | None => c_forwarded c end in
  let scheme := ToLower (TrimSpace first) in
  if decide (scheme = "http" ∨ scheme = "https") then scheme else "".

Definition requestBaseURL (c : conn) : string :=
  match c_external c with
  | Some base => base
  | None =>
      let scheme := if c_tls c then "https" else "http" in
      let scheme := if decide (forwardedScheme c ≠ "") then forwardedScheme c else scheme in
      scheme +:+ "://" +:+ c_host c
  end.
End BaseURL.

(** The object the authorization layer already read for a request. *)
Record preread := mkPreread { p_org : string; p_coll : string; p_key : string; p_raw : string }.

Record request := mkRequest {
  r_method : string;
  r_path : string;
  r_actor : option Actor;      (* none on an authentication-exempt path *)
  r_body : string;
  r_base : string;             (* [requestBaseURL] of its connection *)
  r_preread : option preread;
}.

Definition withPreread (r : request) (org coll key raw : string) : request :=
  mkRequest (r_method r) (r_path r) (r_actor r) (r_body r) (r_base r) (Some (mkPreread org coll key raw)).

Definition prereadFrom (r : request) (org coll key : string) : option string :=
  match r_preread r with
  | Some p => if decide (p_org p = org ∧ p_coll p = coll ∧ p_key p = key) then Some (p_raw p) else None
  | None => None
  end.

(** The URL of a named object; global collections pass an empty organization. *)
Definition objectURL (r : request) (org segment name : string) : string :=
  if decide (org = "") then r_base r +:+ "/" +:+ segment +:+ "/" +:+ name
  else r_base r +:+ "/organizations/" +:+ org +:+ "/" +:+ segment +:+ "/" +:+ name.

(** The body of a created object: its URL. *)
Definition created_at (url : string) : reply := writeJSON 201 (VObj [("uri", VStr url)]).

Section Handlers.
Context {B : Type} `{Backend B} {O : Type}.
#[local] Open Scope http_scope.

(** [API.org]: the organization a path names. *)
Definition API_org (name : string) : handler (Store B O) string :=
  let? o := or_500 (Store_Org name) in
  match o with
  | Some org => h_ret org
  | None => h_reply (writeError 404 ["Cannot find org " +:+ name])
  end.

Definition viewObject (r : request) (org coll key : string) : ST (Store B O) (option string) :=
  match prereadFrom r org coll key with
  | Some raw => st_ret (Some raw)
  | None => Org_View org coll key
  end.

Definition exists_ (r : request) (org coll key msg : string) : handler (Store B O) unit :=
  let? o := or_500 (viewObject r org coll key) in
  match o with
  | Some _ => h_ret tt
  | None => h_reply (writeError 404 [msg])
  end.
End Handlers.

(** A handler that got to its end. *)
Lemma h_bind_inl {S A C} (m : handler S A) (k : A → handler S C) s c s' :
  h_bind m k s = (inl c, s') → ∃ a s1, m s = (inl a, s1) ∧ k a s1 = (inl c, s').
Proof. unfold h_bind. destruct (m s) as [[a|rep] s1]; [eauto|done]. Qed.

Lemma or_500_inl {S A} (m : ST S A) s a s' : or_500 m s = (inl a, s') → m s = (Ok a, s').
Proof. unfold or_500. destruct (m s) as [[b|e] s1]; [by intros [= -> ->]|done]. Qed.

(** Steps through a run [h_bind m k s = (inl c, s')]. *)
Ltac h_step H a s1 E :=
  apply h_bind_inl in H as (a & s1 & E & H); first [apply or_500_inl in E | idtac].

(** ** Handlers that only read

    Let through, [P] relates the space to what the handler goes on with; with a
    reply already written, [Q] relates it to the reply. *)
Section Readers.
Context {B : Type} `{BackendSpec B} {O : Type} (inv : Store B O → Prop) `{!ReadStable inv}.
Abbreviation st := (Store B O).
#[local] Open Scope http_scope.

Definition h_observes {A : Type} (m : handler st A) (P : space → A → Prop) (Q : space → reply → Prop) : Prop :=
  ∀ s, inv s → let '(r, s') := m s in
  inv s' ∧ view s'.1 = view s.1 ∧ match r with inl a => P (view s.1) a | inr rep => Q (view s.1) rep end.

Lemma h_observes_ret {A : Type} (a : A) (P : space → A → Prop) Q : (∀ sp, P sp a) → h_observes (h_ret a) P Q.
Proof. intros HP s Hs. by split. Qed.

Lemma h_observes_reply {A : Type} (rep : reply) (P : space → A → Prop) (Q : space → reply → Prop) :
  (∀ sp, Q sp rep) → h_observes (h_reply rep) P Q.
Proof. intros HQ s Hs. by split. Qed.

(** [K]: what is known of the space when the handler starts. *)
Lemma h_observes_bind {A C : Type} (m : handler st A) (k : A → handler st C)
    (K : space → Prop) (P : space → A → Prop) (R : space → C → Prop) (Q : space → reply → Prop) :
  h_observes m (λ sp a, K sp → P sp a) (λ sp rep, K sp → Q sp rep) →
  (∀ a, h_observes (k a) (λ sp c, K sp ∧ P sp a → R sp c) (λ sp rep, K sp ∧ P sp a → Q sp rep)) →
  h_observes (h_bind m k) (λ sp c, K sp → R sp c) (λ sp rep, K sp → Q sp rep).
Proof.
  intros Hm Hk s Hs. unfold h_bind. specialize (Hm s Hs). destruct (m s) as [[a|rep] s']; [|done].
  destruct Hm as (Hi & Hv & HP). specialize (Hk a s' Hi). destruct (k a s') as [[c|rep] s''];
    destruct Hk as (? & Hv' & Hc); rewrite Hv in *; (split; [done|]); (split; [done|]); auto.
Qed.

Lemma h_observes_conseq {A : Type} (m : handler st A) (P P' : space → A → Prop) (Q Q' : space → reply → Prop) :
  h_observes m P' Q' → (∀ sp a, P' sp a → P sp a) → (∀ sp rep, Q' sp rep → Q sp rep) → h_observes m P Q.
Proof.
  intros Hm HP HQ s Hs. specialize (Hm s Hs). destruct (m s) as [[a|rep] s']; naive_solver.
Qed.

(** A store error is answered with a 500. *)
Lemma h_observes_or_500 {A : Type} (m : ST st A) (P : space → A → Prop) (Q : space → reply → Prop) :
  observes inv m P → (∀ sp rep, status rep = 500%Z → Q sp rep) → h_observes (or_500 m) P Q.
Proof.
  intros Hm HQ s Hs. unfold or_500. specialize (Hm s Hs). destruct (m s) as [[a|e] s']; [done|].
  destruct Hm as (? & ? & _). split; [done|]. split; [done|]. by apply HQ.
Qed.
End Readers.

(** ** Handlers that write

    What the stored objects are when the handler gets to its end: [pre] of the
    objects before, [post] of its result and the objects after. *)
Section Writers.
Context {B : Type} `{BackendSpec B} {O : Type}.
Abbreviation st := (Store B O).
#[local] Open Scope http_scope.

Definition h_triple {A : Type} (pre : objects → Prop) (m : handler st A) (post : A → objects → Prop) : Prop :=
  ∀ s, pre (objs s) → match m s with (inl a, s') => post a (objs s') | (inr _, _) => True end.

Lemma h_triple_conseq {A : Type} (pre pre' : objects → Prop) (m : handler st A) post post' :
  h_triple pre' m post' → (∀ x, pre x → pre' x) → (∀ a x, post' a x → post a x) → h_triple pre m post.
Proof. intros Hm Hp Hq s Hs. specialize (Hm s (Hp _ Hs)). destruct (m s) as [[]]; auto. Qed.

Lemma h_triple_ret {A : Type} (a : A) (pre : objects → Prop) (post : A → objects → Prop) :
  (∀ x, pre x → post a x) → h_triple pre (h_ret a) post.
Proof. intros Hp s Hs. cbn. auto. Qed.

Lemma h_triple_reply {A : Type} (rep : reply) (pre : objects → Prop) (post : A → objects → Prop) :
  h_triple pre (h_reply rep) post.
Proof. done. Qed.

Lemma h_triple_bind {A C : Type} (m : handler st A) (k : A → handler st C) pre mid post :
  h_triple pre m mid → (∀ a, h_triple (mid a) (k a) post) → h_triple pre (h_bind m k) post.
Proof.
  intros Hm Hk s Hs. unfold h_bind. specialize (Hm s Hs). destruct (m s) as [[a|e] s']; [|done].
  by apply Hk.
Qed.

Lemma h_triple_or_500 {A : Type} (m : ST st A) pre post : triple pre m post → h_triple pre (or_500 m) post.
Proof. intros Hm s Hs. unfold or_500. specialize (Hm s Hs). destruct (m s) as [[a|e] s']; auto. Qed.

Lemma triple_observes {A : Type} (m : ST st A) (P : space → A → Prop) (R : objects → A → Prop) (pre : objects → Prop) :
  observes (λ _, True) m P → (∀ sp a, P sp a → R (s_objs sp) a) →
  triple pre m (λ a x, pre x ∧ R x a).
Proof.
  intros Hm HR s Hs. specialize (Hm s I). destruct (m s) as [[a|e] s']; [|done].
  destruct Hm as (_ & Hv & HP). unfold objs in *. rewrite Hv. auto.
Qed.

Lemma h_triple_org (name : string) (pre : objects → Prop) : h_triple pre (API_org name) (λ org x, pre x ∧ org = name).
Proof.
  eapply h_triple_bind.
  - apply h_triple_or_500. apply (triple_observes _ (λ sp o, o = if decide (name ∈ s_orgs sp) then Some name else None)
      (λ _ o, o = None ∨ o = Some name)); [by apply observes_Org|]. intros sp o ->. case_decide; auto.
  - intros [o|]; [|apply h_triple_reply]. apply h_triple_ret. intros x [Hx [?|?]]; naive_solver.
Qed.
End Writers.
