(* ===== verification/Effects.v ===== *)
(** * Weakest preconditions for store calls and handlers

    [ensures m sp Q]: started on a store whose contents are [sp], [m] leaves a
    result and contents that satisfy [Q], on every branch. [h_ensures] is the
    same for handlers, whose result is the value they go on with or the reply
    they wrote. One rule per store call and per combinator. *)
From S2P Require Import Prelude GoText Json Chefjson Float GoJson Store Facade Groups Http.
#[local] Open Scope go_scope.
#[local] Open Scope http_scope.

(** The keys a listing returns. *)
Lemma elem_of_keys (org coll : string) (objs : objects) (key : string) :
  key ∈ sort_strings ((map_to_list (coll_of org coll objs)).*1) ↔ is_Some (objs !! (org, coll, key)).
Proof.
  rewrite sort_strings_perm, list_elem_of_fmap. split.
  - intros ([k v] & -> & Hk%elem_of_map_to_list). rewrite lookup_coll_of in Hk. eauto.
  - intros [v Hv]. exists (key, v). split; [done|]. apply elem_of_map_to_list. by rewrite lookup_coll_of.
Qed.

Section Effects.
Context {B : Type} `{BackendSpec B} {O : Type}.
Abbreviation st := (Store B O).

Definition ensures {A : Type} (m : ST st A) (sp : space) (Q : result A → space → Prop) : Prop :=
  ∀ s, view s.1 = sp → let '(r, s') := m s in Q r (view s'.1).

Lemma ens_conseq {A : Type} (m : ST st A) sp (Q Q' : result A → space → Prop) :
  ensures m sp Q' → (∀ r sp', Q' r sp' → Q r sp') → ensures m sp Q.
Proof. intros Hm HQ s Hs. specialize (Hm s Hs). destruct (m s). auto. Qed.

Lemma ens_ret {A : Type} (a : A) sp (Q : result A → space → Prop) : Q (Ok a) sp → ensures (st_ret a) sp Q.
Proof. by intros HQ s <-. Qed.

Lemma ens_bind {A C : Type} (m : ST st A) (k : A → ST st C) sp (Q : result C → space → Prop) :
  ensures m sp (λ r sp', match r with Ok a => ensures (k a) sp' Q | Err e => Q (Err e) sp' end) →
  ensures (st_bind m k) sp Q.
Proof.
  intros Hm s Hs. specialize (Hm s Hs). unfold st_bind. destruct (m s) as [[a|e] s1]; [|done]. by apply Hm.
Qed.

Lemma ens_and {A : Type} (m : ST st A) sp (P Q : result A → space → Prop) :
  ensures m sp P → ensures m sp Q → ensures m sp (λ r sp', P r sp' ∧ Q r sp').
Proof. intros HP HQ s Hs. specialize (HP s Hs). specialize (HQ s Hs). by destruct (m s). Qed.

Lemma ens_observes {A : Type} (m : ST st A) (P : space → A → Prop) sp (Q : result A → space → Prop) :
  observes (λ _, True) m P → (∀ a, P sp a → Q (Ok a) sp) → (∀ e, Q (Err e) sp) → ensures m sp Q.
Proof.
  intros Hm HO HE s <-. specialize (Hm s I). destruct (m s) as [[a|e] s']; destruct Hm as (_ & -> & ?); auto.
Qed.

Lemma ens_Get org coll key sp Q :
  Q (Ok (s_objs sp !! (org, coll, key))) sp → (∀ e, Q (Err e) sp) → ensures (Org_Get org coll key) sp Q.
Proof. intros HO HE. eapply ens_observes; [by apply observes_Get|by intros a ->|done]. Qed.

Lemma ens_View org coll key sp Q :
  Q (Ok (s_objs sp !! (org, coll, key))) sp → (∀ e, Q (Err e) sp) → ensures (Org_View org coll key) sp Q.
Proof. apply ens_Get. Qed.

Lemma ens_Keys org coll sp Q :
  Q (Ok (sort_strings ((map_to_list (coll_of org coll (s_objs sp))).*1))) sp → (∀ e, Q (Err e) sp) →
  ensures (Org_Keys org coll) sp Q.
Proof. intros HO HE. eapply ens_observes; [by apply observes_Keys|by intros a ->|done]. Qed.

Lemma ens_Range org coll sp (Q : result (list (string * string)) → space → Prop) :
  (∀ l, l ≡ₚ map_to_list (coll_of org coll (s_objs sp)) → Q (Ok l) sp) → (∀ e, Q (Err e) sp) →
  ensures (Org_Range org coll) sp Q.
Proof. intros HO HE. eapply ens_observes; [by apply observes_Range|done|done]. Qed.

Lemma ens_HasBlob org sum sp (Q : result bool → space → Prop) :
  Q (Ok (bool_decide (is_Some (s_blobs sp !! (org, sum))))) sp → (∀ e, Q (Err e) sp) →
  ensures (Org_HasBlob org sum) sp Q.
Proof.
  intros HO HE [b sh] <-. unfold Org_HasBlob, lift. pose proof (HasBlob_spec org sum b) as L. unfold reads in L.
  destruct (HasBlob org sum b) as [[r|e] b']; destruct L as [Hr Hv]; cbn; rewrite Hv; [|auto].
  assert (r = bool_decide (is_Some (s_blobs (view b) !! (org, sum)))) as ->; [|done].
  destruct r; symmetry; [apply bool_decide_eq_true|apply bool_decide_eq_false]; naive_solver.
Qed.

Lemma ens_Blob org sum sp (Q : result (option string) → space → Prop) :
  Q (Ok (s_blobs sp !! (org, sum))) sp → (∀ e, Q (Err e) sp) → ensures (Org_Blob org sum) sp Q.
Proof.
  intros HO HE [b sh] <-. unfold Org_Blob, lift. pose proof (Blob_spec org sum b) as L. unfold reads in L.
  destruct (Blob org sum b) as [[r|e] b']; destruct L as [Hr Hv]; cbn; rewrite Hv; [|auto]. by rewrite Hr.
Qed.

Lemma ens_Put org coll key val sp (Q : result unit → space → Prop) :
  Q (Ok tt) (sp_put org coll key val sp) → (∀ e, Q (Err e) sp) → ensures (Org_Put org coll key val) sp Q.
Proof.
  intros HO HE [b sh] <-. unfold Org_Put, st_bind, tally, lift, noted.
  pose proof (Put_spec org coll key val b) as L. unfold writes in L.
  destruct (Put org coll key val b) as [[[]|e] b']; destruct L as [_ Hv]; cbn; by rewrite Hv.
Qed.

Lemma ens_Create org coll key val sp (Q : result unit → space → Prop) :
  (s_objs sp !! (org, coll, key) = None → Q (Ok tt) (sp_put org coll key val sp)) →
  (is_Some (s_objs sp !! (org, coll, key)) → Q (Err ErrConflict) sp) → (∀ e, e ≠ ErrConflict → Q (Err e) sp) →
  ensures (Org_Create org coll key val) sp Q.
Proof.
  intros HO HC HE [b sh] <-. unfold Org_Create, st_bind, tally, lift, noted.
  pose proof (Create_spec org coll key val b) as L. unfold creates in L.
  destruct (Create org coll key val b) as [[[]|[|msg]] b']; cbn.
  - destruct L as [Hn ->]. apply HO. by apply eq_None_not_Some.
  - destruct L as [Hn ->]. by apply HC.
  - rewrite L. by apply HE.
Qed.

Lemma ens_Delete org coll key sp (Q : result (option string) → space → Prop) :
  Q (Ok (s_objs sp !! (org, coll, key))) (sp_delete org coll key sp) → (∀ e, Q (Err e) sp) →
  ensures (Org_Delete org coll key) sp Q.
Proof.
  intros HO HE [b sh] <-. unfold Org_Delete, st_bind, tally, lift, noted.
  pose proof (Delete_spec org coll key b) as L. unfold writes in L.
  destruct (Delete org coll key b) as [[[v|]|e] b']; destruct L as [Ho Hv]; cbn; rewrite Hv; try rewrite Ho; auto.
Qed.

Lemma ens_PutBlob org sum content sp (Q : result unit → space → Prop) :
  Q (Ok tt) (sp_put_blob org sum content sp) → (∀ e, Q (Err e) sp) → ensures (Org_PutBlob org sum content) sp Q.
Proof.
  intros HO HE [b sh] <-. unfold Org_PutBlob, lift. pose proof (PutBlob_spec org sum content b) as L. unfold writes in L.
  destruct (PutBlob org sum content b) as [[[]|e] b']; destruct L as [_ Hv]; cbn; by rewrite Hv.
Qed.

Lemma ens_DeleteBlob org sum sp (Q : result unit → space → Prop) :
  Q (Ok tt) (sp_delete_blob org sum sp) → (∀ e, Q (Err e) sp) → ensures (Org_DeleteBlob org sum) sp Q.
Proof.
  intros HO HE [b sh] <-. unfold Org_DeleteBlob, lift. pose proof (DeleteBlob_spec org sum b) as L. unfold writes in L.
  destruct (DeleteBlob org sum b) as [[[]|e] b']; destruct L as [_ Hv]; cbn; by rewrite Hv.
Qed.

(** ** Handlers *)

Definition h_ensures {A : Type} (m : handler st A) (sp : space) (Q : A + reply → space → Prop) : Prop :=
  ∀ s, view s.1 = sp → let '(r, s') := m s in Q r (view s'.1).

Lemma h_ens_conseq {A : Type} (m : handler st A) sp (Q Q' : A + reply → space → Prop) :
  h_ensures m sp Q' → (∀ r sp', Q' r sp' → Q r sp') → h_ensures m sp Q.
Proof. intros Hm HQ s Hs. specialize (Hm s Hs). destruct (m s). auto. Qed.

Lemma h_ens_ret {A : Type} (a : A) sp (Q : A + reply → space → Prop) : Q (inl a) sp → h_ensures (h_ret a) sp Q.
Proof. by intros HQ s <-. Qed.

Lemma h_ens_reply {A : Type} rep sp (Q : A + reply → space → Prop) : Q (inr rep) sp → h_ensures (h_reply rep) sp Q.
Proof. by intros HQ s <-. Qed.

Lemma h_ens_bind {A C : Type} (m : handler st A) (k : A → handler st C) sp (Q : C + reply → space → Prop) :
  h_ensures m sp (λ r sp', match r with inl a => h_ensures (k a) sp' Q | inr rep => Q (inr rep) sp' end) →
  h_ensures (h_bind m k) sp Q.
Proof.
  intros Hm s Hs. specialize (Hm s Hs). unfold h_bind. destruct (m s) as [[a|rep] s1]; [|done]. by apply Hm.
Qed.

Lemma h_ens_or_500 {A : Type} (m : ST st A) sp (Q : A + reply → space → Prop) :
  ensures m sp (λ r sp', match r with Ok a => Q (inl a) sp' | Err e => Q (inr (internal_error e)) sp' end) →
  h_ensures (or_500 m) sp Q.
Proof. intros Hm s Hs. specialize (Hm s Hs). unfold or_500. by destruct (m s) as [[a|e] s1]. Qed.

Lemma h_ens_attempt {A : Type} (m : ST st A) sp (Q : result A + reply → space → Prop) :
  ensures m sp (λ r sp', Q (inl r) sp') → h_ensures (attempt m) sp Q.
Proof. intros Hm s Hs. specialize (Hm s Hs). unfold attempt. by destruct (m s) as [r s1]. Qed.

Lemma h_ens_org name sp (Q : string + reply → space → Prop) :
  (name ∈ s_orgs sp → Q (inl name) sp) → (∀ rep, status rep ∈ [404; 500]%Z → Q (inr rep) sp) →
  h_ensures (API_org name) sp Q.
Proof.
  intros HO HE. apply h_ens_bind, h_ens_or_500. eapply ens_observes; [by apply observes_Org| |].
  - intros o ->. case_decide; [by apply h_ens_ret, HO|]. apply h_ens_reply, HE. set_solver.
  - intros e. apply HE. set_solver.
Qed.

(** What a request sees of an object: the copy read before it, or the store. *)
Definition seen (r : request) (sp : space) (org coll key : string) : option string :=
  match prereadFrom r org coll key with Some raw => Some raw | None => s_objs sp !! (org, coll, key) end.

Lemma ens_viewObject r org coll key sp Q :
  Q (Ok (seen r sp org coll key)) sp → (∀ e, Q (Err e) sp) → ensures (viewObject r org coll key) sp Q.
Proof.
  unfold viewObject, seen. intros HO HE. destruct (prereadFrom r org coll key); [by apply ens_ret|by apply ens_View].
Qed.

Lemma h_ens_exists r org coll key msg sp (Q : unit + reply → space → Prop) :
  (is_Some (seen r sp org coll key) → Q (inl tt) sp) → (∀ rep, status rep ∈ [404; 500]%Z → Q (inr rep) sp) →
  h_ensures (exists_ r org coll key msg) sp Q.
Proof.
  intros HO HE. apply h_ens_bind, h_ens_or_500, ens_viewObject.
  - destruct (seen r sp org coll key) eqn:E; [by apply h_ens_ret, HO|]. apply h_ens_reply, HE. set_solver.
  - intros e. apply HE. set_solver.
Qed.

(** A loop over a list, by an invariant of the part done. *)
Lemma ens_each {A : Type} (f : A → ST st unit) (inv : list A → space → Prop) sp (l : list A) (Q : result unit → space → Prop) :
  inv [] sp →
  (∀ dn x rest sp', l = dn ++ x :: rest → inv dn sp' →
     ensures (f x) sp' (λ r sp'', match r with Ok _ => inv (dn ++ [x]) sp'' | Err e => Q (Err e) sp'' end)) →
  (∀ sp', inv l sp' → Q (Ok tt) sp') → ensures (st_each f l) sp Q.
Proof.
  intros Hinit Hstep Hend.
  assert (∀ rest dn sp', l = dn ++ rest → inv dn sp' → ensures (st_each f rest) sp' Q) as Hgo; [|by eapply (Hgo l [])].
  induction rest as [|x rest IH]; intros dn sp' El Hi; cbn [st_each].
  - apply ens_ret, Hend. by rewrite El, app_nil_r.
  - apply ens_bind. eapply ens_conseq; [by eapply Hstep|]. intros [[]|e] sp'' Hx; [|done].
    eapply IH; [|exact Hx]. by rewrite El, <-app_assoc.
Qed.
End Effects.

(** Applies the rule of the next store call or combinator. *)
Ltac ens_step :=
  first
  [ apply h_ens_bind | apply h_ens_ret | apply h_ens_reply | apply h_ens_or_500 | apply h_ens_attempt
  | apply h_ens_org | apply h_ens_exists | apply ens_viewObject
  | apply ens_bind | apply ens_ret
  | apply ens_Get | apply ens_View | apply ens_Keys | apply ens_Range | apply ens_HasBlob | apply ens_Blob
  | apply ens_Put | apply ens_Create | apply ens_Delete | apply ens_PutBlob | apply ens_DeleteBlob ].
