(* ===== verification/Acl.v ===== *)
(** * ACLs (internal/api/acl.go, acl_policy.go, authzdoc.go)

    The default and policy ACLs, reading and writing an object's ACL, the
    endpoint that replaces one permission, and the clean-up when an actor or a
    group goes. An ACL is a decoded map: permission to {actors, groups}. *)
From S2P Require Import Prelude GoText Json Chefjson Float GoJson Store Facade Groups Http.
#[local] Open Scope go_scope.
#[local] Open Scope http_scope.

Definition aclPerms : list string := ["create"; "read"; "update"; "delete"; "grant"].

Definition aclObjectTypes : list string :=
  ["clients"; "containers"; "cookbooks"; "cookbook_artifacts"; "data";
   "environments"; "groups"; "nodes"; "policies"; "policy_groups"; "roles"].

Definition aclPutStatus (typ : string) : Z := if decide (typ = "policy_groups") then 201 else 200.

Definition aclKey (typ name : string) : string := typ +:+ "/" +:+ name.

Abbreviation acl := (list (string * value)).

Definition ace (actors groups : list string) : value :=
  VObj [("actors", VArr (map VStr actors)); ("groups", VArr (map VStr groups))].

Definition defaultACL : acl :=
  [("create", ace [] ["admins"; "users"]); ("read", ace [] ["admins"; "users"; "clients"]);
   ("update", ace [] ["admins"; "users"]); ("delete", ace [] ["admins"; "users"]);
   ("grant", ace [] ["admins"])].

(** ** The organization policy (acl_policy.go) *)

Definition crud : list string := ["create"; "read"; "update"; "delete"].

Definition containerUserPerms : list (string * list string) :=
  [("cookbooks", crud); ("data", crud); ("nodes", crud); ("roles", crud); ("environments", crud);
   ("policies", crud); ("policy_groups", crud); ("cookbook_artifacts", crud);
   ("clients", ["read"; "delete"]); ("groups", ["read"]); ("containers", ["read"]);
   ("sandboxes", ["create"])].

Definition containerClientPerms : list (string * list string) :=
  [("nodes", ["create"; "read"]); ("policies", ["read"]); ("policy_groups", ["read"]);
   ("cookbook_artifacts", ["read"]); ("data", ["read"]); ("cookbooks", ["read"]);
   ("environments", ["read"]); ("roles", ["read"])].

Fixpoint table (t : list (string * list string)) (k : string) : option (list string) :=
  match t with
  | [] => None
  | (k', v) :: t' => if decide (k = k') then Some v else table t' k
  end.

Record grant := mkGrant { group : string; perms : list string }.

Definition policyACL (grants : list grant) : acl :=
  map (λ p, (p, ace [] (map group (filter (λ g, contains_str (perms g) p = true) grants)))) aclPerms.

Definition containerACL (name : string) : acl :=
  let name := match table containerUserPerms name with Some _ => name | None => "containers" end in
  policyACL [mkGrant "admins" aclPerms;
             mkGrant "users" (default [] (table containerUserPerms name));
             mkGrant "clients" (default [] (table containerClientPerms name))].

Definition groupACL (name : string) : acl :=
  if decide (name ∈ ["admins"; "clients"; "users"]) then policyACL [mkGrant "admins" aclPerms]
  else if decide (name = "billing-admins") then policyACL [mkGrant "billing-admins" ["read"; "update"]]
  else if decide (name = "public_key_read_access") then policyACL [mkGrant "admins" ["read"; "update"]]
  else containerACL "groups".

Definition orgACL : acl := policyACL [mkGrant "admins" aclPerms; mkGrant "users" ["read"]].

(** [acl["create"].(map[string]any)["actors"] = []string{validator}]. *)
Definition set_actors (actors : list string) (entry : value) : value :=
  match entry with VObj ms => VObj (Set_ ms "actors" (VArr (map VStr actors))) | v => v end.

Definition validatorClientsACL (validator : string) : acl :=
  let a := containerACL "clients" in
  Set_ a "create" (set_actors [validator] (default VNull (assoc a "create"))).

Definition legacyClientsACL (validator : string) : acl :=
  Set_ defaultACL "create" (ace [validator] ["admins"; "users"]).

Definition fallbackACL (typ name : string) : acl :=
  if decide (typ = "organizations") then orgACL
  else if decide (typ = "containers") then containerACL name
  else if decide (typ = "groups") then groupACL name
  else defaultACL.

Definition creatorACL (creator : string) : acl :=
  map (λ e, (e.1, match e.2 with
                  | VObj ms => VObj (Set_ ms "actors" (VArr (map VStr (jsonStrings (assoc ms "actors") ++ [creator]))))
                  | v => v end)) defaultACL.

(** What [loadACL] returns: a decoded document ([None] is the nil map [null]
    leaves), whose arrays are [[]any], or a literal of this file, whose arrays
    are [[]string]. *)
Inductive loaded :=
  | Decoded (m : option acl)
  | Literal (a : acl).

Definition entries (l : loaded) : option acl :=
  match l with Decoded m => m | Literal a => Some a end.

(** The ACL in force, given the stored document if there is one. *)
Definition effective (typ name : string) (raw : option string) : loaded :=
  match raw with
  | Some raw => match unmarshal_map raw with
                | Some m => Decoded m
                | None => Literal (fallbackACL typ name)
                end
  | None => Literal (fallbackACL typ name)
  end.

(** The permission's entry, when it is an object. *)
Definition ace_of (l : loaded) (perm : string) : option acl :=
  match assoc (members (entries l)) perm with Some (VObj ms) => Some ms | _ => None end.

(** [jsonStrings] of a member of an entry: it reads [[]any] and finds nothing in
    a [[]string]; [anyStrings] reads both. *)
Definition json_member (l : loaded) (entry : acl) (kind : string) : list string :=
  match l with Decoded _ => jsonStrings (assoc entry kind) | Literal _ => [] end.
Definition any_member (entry : acl) (kind : string) : list string := jsonStrings (assoc entry kind).

Section Ops.
Context {B : Type} `{Backend B} {O : Type}.
Abbreviation st := (Store B O).

Definition UpgradeOrgACLs (org : string) : ST st unit :=
  let validator := org +:+ "-validator" in
  let key := aclKey "containers" "clients" in
  let! raw := Org_Get org "acls" key in
  match raw with
  | None => st_ret tt
  | Some raw =>
      if decide (raw = mustEncode (VObj (legacyClientsACL validator)))
      then Org_Put org "acls" key (mustEncode (VObj (validatorClientsACL validator)))
      else st_ret tt
  end.

(** ** Reading and writing (acl.go) *)

Definition writeCreatorACL (org typ name creator : string) : ST st unit :=
  Org_Put org "acls" (aclKey typ name) (mustEncode (VObj (creatorACL creator))).

Definition grantCreator (enforceACL : bool) (actor : option Actor) (org typ name : string) : ST st unit :=
  if enforceACL then
    match actor with
    | Some a => writeCreatorACL org typ name (a_name a)
    | None => st_ret tt
    end
  else st_ret tt.

Definition deleteACL (org typ name : string) : ST st unit :=
  Org_Delete org "acls" (aclKey typ name) ;;! st_ret tt.

(** Some version of a cookbook or artifact, keyed name/version. *)
Definition hasVersion (org coll name : string) : ST st bool :=
  let! docs := Org_Range org coll in
  st_ret (existsb (λ d, match cut_byte "/" d.1 with Some (cb, _) => bool_decide (cb = name) | None => false end) docs).

Definition policyRevColl (policy : string) : string := "policy_revisions:" +:+ policy.
Definition dataBagsColl : string := "data_bags".

Definition aclObjectExists (org typ name : string) : ST st bool :=
  if decide (typ = "organizations") then st_ret true
  else if decide (typ = "data") then
    let! o := Org_Get org dataBagsColl name in st_ret (bool_decide (is_Some o))
  else if decide (typ = "cookbooks" ∨ typ = "cookbook_artifacts") then hasVersion org typ name
  else if decide (typ = "policies") then
    let! revs := Org_Keys org (policyRevColl name) in st_ret (bool_decide (0 < length revs))
  else let! o := Org_Get org typ name in st_ret (bool_decide (is_Some o)).

Definition aclObjectFound (org typ name : string) : handler st unit :=
  let? ok := or_500 (aclObjectExists org typ name) in
  if ok : bool then h_ret tt
  else h_reply (writeError 404 ["Cannot find " +:+ typ +:+ " " +:+ name]).

Definition loadACL (org typ name : string) : ST st loaded :=
  let! raw := Org_Get org "acls" (aclKey typ name) in st_ret (effective typ name raw).

Definition writeACLDoc (org typ name : string) : handler st reply :=
  aclObjectFound org typ name ;;?
  let? a := or_500 (loadACL org typ name) in
  h_ret (writeJSON 200 (match entries a with Some ms => VObj ms | None => VNull end)).

Definition bad_perm (perm : string) : reply := writeError 404 ["Cannot find ACL permission " +:+ perm].

Definition writeACLPermDoc (org typ name perm : string) : handler st reply :=
  if negb (contains_str aclPerms perm) then h_reply (bad_perm perm)
  else
    aclObjectFound org typ name ;;?
    let? a := or_500 (loadACL org typ name) in
    h_ret (writeJSON 200 (VObj [(perm, default VNull (assoc (members (entries a)) perm))])).

Definition removesAdminsFromGrant (actor : option Actor) (scope typ name perm : string) (entry : acl)
  : ST st bool :=
  if decide (perm ≠ "grant" ∨ "admins" ∈ jsonStrings (assoc entry "groups")) then st_ret false
  else
    match actor with
    | None => st_ret false
    | Some a =>
        if IsGlobalAdmin a then st_ret false
        else
          let! cur := loadACL scope typ name in
          st_ret (bool_decide ("admins" ∈ json_member cur (members (ace_of cur "grant")) "groups"))
    end.

(** The names of the list that resolve in neither space. *)
Fixpoint unknown_actors (org : option string) (names : list string) : ST st (list string) :=
  match names with
  | [] => st_ret []
  | name :: names' =>
      let! u := Org_Get Global "users" name in
      let! ok := match u, org with
        | Some _, _ => st_ret true
        | None, Some o => (let! c := Org_Get o "clients" name in st_ret (bool_decide (is_Some c)))
        | None, None => st_ret false
        end in
      let! rest := unknown_actors org names' in
      st_ret (if ok : bool then rest else name :: rest)
  end.

Fixpoint unknown_groups (org : string) (names : list string) : ST st (list string) :=
  match names with
  | [] => st_ret []
  | name :: names' =>
      let! g := Org_Get org "groups" name in
      let! rest := unknown_groups org names' in
      st_ret (match g with Some _ => rest | None => name :: rest end)
  end.

Definition unknownACEMembers (org : option string) (entry : acl) : ST st (list string * list string) :=
  let! actors := unknown_actors org (jsonStrings (assoc entry "actors")) in
  match org with
  | None => st_ret (actors, [])
  | Some o => let! groups := unknown_groups o (jsonStrings (assoc entry "groups")) in st_ret (actors, groups)
  end.

(** The entry a body carries: under the permission's name, or itself. *)
Definition body_ace (perm : string) (body : option acl) : option acl :=
  match assoc (members body) perm with Some (VObj inner) => Some inner | _ => body end.

Definition ace_value (entry : option acl) : value := match entry with Some ms => VObj ms | None => VNull end.

(** [None]: the assignment to a nil map panics. *)
Definition put_perm (a : option acl) (perm : string) (entry : option acl) : option acl :=
  match a with Some ms => Some (Set_ ms perm (ace_value entry)) | None => None end.

(** The text of a panic that aborts the connection. *)
Definition panic : reply := mkReply 0 NoBody.

Definition unknown_members_messages (actors groups : list string) : list string :=
  (if decide (actors = []) then []
   else ["The actor(s) " +:+ join ", " actors +:+ " do not exist."]) ++
  (if decide (groups = []) then []
   else ["The group(s) " +:+ join ", " groups +:+ " do not exist in this organization."]).

(** The checks of [updateACLPermDoc], and what it goes on to write: the entry
    and the whole ACL. *)
Definition acl_update (actor : option Actor) (body : string) (scope : string) (mem : option string)
    (typ name perm : string) : handler st (option acl * acl) :=
  if negb (contains_str aclPerms perm) then h_reply (bad_perm perm)
  else
    aclObjectFound scope typ name ;;?
    match decode_body_map body with
    | None => h_reply (writeError 400 ["invalid JSON body"])
    | Some b =>
        let entry := body_ace perm b in
        let? removed :=
          match mem with
          | Some _ => or_500 (removesAdminsFromGrant actor scope typ name perm (members entry))
          | None => h_ret false
          end in
        if removed : bool then
          h_reply (writeError 403 ["Admin group cannot be removed from the Grant ACE"])
        else
          let? unknown := or_500 (unknownACEMembers mem (members entry)) in
          if decide (unknown.1 ≠ [] ∨ unknown.2 ≠ []) then
            h_reply (writeError 400 (unknown_members_messages unknown.1 unknown.2))
          else
            let? a := or_500 (loadACL scope typ name) in
            match put_perm (entries a) perm entry with
            | None => h_reply panic
            | Some a' => h_ret (entry, a')
            end
    end.

Definition updateACLPermDoc (actor : option Actor) (body : string) (scope : string) (mem : option string)
    (typ name perm : string) (code : Z) : handler st reply :=
  let? upd := acl_update actor body scope mem typ name perm in
  or_500 (Org_Put scope "acls" (aclKey typ name) (mustEncode (VObj upd.2))) ;;?
  h_ret (writeJSON code (VObj [(perm, ace_value upd.1)])).

(** The endpoints: an object of an organization, the organization, a user. *)
Definition getACL (typ orgname name : string) : handler st reply :=
  let? org := API_org orgname in writeACLDoc org typ name.
Definition getACLPerm (typ orgname name perm : string) : handler st reply :=
  let? org := API_org orgname in writeACLPermDoc org typ name perm.
Definition putACLPerm (typ : string) (r : request) (orgname name perm : string) : handler st reply :=
  let? org := API_org orgname in updateACLPermDoc (r_actor r) (r_body r) org (Some org) typ name perm (aclPutStatus typ).
Definition getOrgACL (orgname : string) : handler st reply :=
  let? org := API_org orgname in writeACLDoc org "organizations" orgname.
Definition getOrgACLPerm (orgname perm : string) : handler st reply :=
  let? org := API_org orgname in writeACLPermDoc org "organizations" orgname perm.
Definition putOrgACLPerm (r : request) (orgname perm : string) : handler st reply :=
  let? org := API_org orgname in updateACLPermDoc (r_actor r) (r_body r) org (Some org) "organizations" orgname perm 200.
Definition getUserACL (name : string) : handler st reply := writeACLDoc Global "users" name.
Definition getUserACLPerm (name perm : string) : handler st reply := writeACLPermDoc Global "users" name perm.
Definition putUserACLPerm (r : request) (name perm : string) : handler st reply :=
  updateACLPermDoc (r_actor r) (r_body r) Global None "users" name perm 200.

(** ** Dropping a name from every ACL (authz.go) *)

(** One permission of a decoded ACL without the name; whether it changed. *)
Definition drop_from_perm (kind name : string) (st : acl * bool) (perm : string) : acl * bool :=
  let '(a, dirty) := st in
  match assoc a perm with
  | Some (VObj entry) =>
      let '(kept, removed) := without (jsonStrings (assoc entry kind)) name in
      if removed : bool then (Set_ a perm (VObj (Set_ entry kind (VArr (map VStr kept)))), true)
      else (a, dirty)
  | _ => (a, dirty)
  end.

(** The rewritten ACL document, when it names the name. *)
Definition dropped_acl (kind name raw : string) : option string :=
  match unmarshal_map raw with
  | None => None
  | Some m =>
      let '(a, dirty) := foldl (drop_from_perm kind name) (members m, false) aclPerms in
      if dirty : bool then Some (mustEncode (VObj a)) else None
  end.

Definition removeFromACLs (org kind name : string) : ST st unit :=
  let! docs := Org_Range org "acls" in
  st_each (λ d, Org_Put org "acls" d.1 d.2)
    (omap (λ d : string * string, (λ raw', (d.1, raw')) <$> dropped_acl kind name d.2) docs).
End Ops.

(** ** What the readers see *)

(** The object an ACL belongs to is stored. *)
Definition object_exists (objs : objects) (org typ name : string) : Prop :=
  if decide (typ = "organizations") then True
  else if decide (typ = "data") then is_Some (objs !! (org, dataBagsColl, name))
  else if decide (typ = "cookbooks" ∨ typ = "cookbook_artifacts") then
    ∃ key version, is_Some (objs !! (org, typ, key)) ∧ cut_byte "/" key = Some (name, version)
  else if decide (typ = "policies") then ∃ rev, is_Some (objs !! (org, policyRevColl name, rev))
  else is_Some (objs !! (org, typ, name)).

Section Exists.
Context {B : Type} `{BackendSpec B} {O : Type} (inv : Store B O → Prop) `{!ReadStable inv}.

Lemma observes_present org coll key :
  observes inv (let! o := Org_Get org coll key in st_ret (bool_decide (is_Some o)))
    (λ sp b, b = true ↔ is_Some (s_objs sp !! (org, coll, key))).
Proof.
  eapply observes_bind; [by apply observes_Get|]. intros o. apply observes_ret. intros sp ->.
  by rewrite bool_decide_eq_true.
Qed.

Lemma observes_hasVersion org coll name :
  observes inv (hasVersion org coll name) (λ sp b, b = true ↔
    ∃ key version, is_Some (s_objs sp !! (org, coll, key)) ∧ cut_byte "/" key = Some (name, version)).
Proof.
  eapply observes_bind; [by apply observes_Range|]. intros docs. apply observes_ret. intros sp Hd.
  rewrite existsb_exists. split.
  - intros ([key raw] & Hin%list_elem_of_In & Hc). rewrite Hd in Hin.
    apply elem_of_map_to_list in Hin. rewrite lookup_coll_of in Hin. cbn [fst] in Hc.
    destruct (cut_byte "/" key) as [[cb ver]|] eqn:E; [|done]. apply bool_decide_eq_true in Hc as ->. eauto.
  - intros (key & ver & [raw Hk] & E). exists (key, raw). split.
    + apply list_elem_of_In. rewrite Hd. apply elem_of_map_to_list. by rewrite lookup_coll_of.
    + cbn [fst]. rewrite E. by apply bool_decide_eq_true.
Qed.

Lemma observes_nonempty org coll :
  observes inv (let! revs := Org_Keys org coll in st_ret (bool_decide (0 < length revs)))
    (λ sp b, b = true ↔ ∃ key, is_Some (s_objs sp !! (org, coll, key))).
Proof.
  eapply observes_bind; [by apply observes_Keys|]. intros l. apply observes_ret. intros sp ->.
  rewrite bool_decide_eq_true, (Permutation_length (sort_strings_perm _)), length_fmap. split.
  - destruct (map_to_list _) as [|[k v] l] eqn:E; [simpl; lia|]. intros _. exists k.
    rewrite <-lookup_coll_of. exists v. apply elem_of_map_to_list. rewrite E. set_solver.
  - intros (k & v & Hk). rewrite <-lookup_coll_of, <-elem_of_map_to_list in Hk.
    destruct (map_to_list _); [set_solver|simpl; lia].
Qed.

Lemma observes_aclObjectExists org typ name :
  observes inv (aclObjectExists org typ name) (λ sp b, b = true ↔ object_exists (s_objs sp) org typ name).
Proof.
  unfold aclObjectExists, object_exists. repeat case_decide; subst.
  - by apply observes_ret.
  - apply observes_present.
  - apply observes_hasVersion.
  - apply observes_nonempty.
  - apply observes_present.
Qed.
Lemma observes_loadACL org typ name :
  observes inv (loadACL org typ name) (λ sp a, a = effective typ name (s_objs sp !! (org, "acls", aclKey typ name))).
Proof.
  eapply observes_bind; [by apply observes_Get|]. intros raw. apply observes_ret. by intros sp ->.
Qed.

End Exists.

(** ** Replacing one permission *)

(** The actor names resolve as users, or as clients of the organization. *)
Definition known_actor (objs : objects) (org : option string) (name : string) : Prop :=
  is_Some (objs !! (Global, "users", name)) ∨
  ∃ o, org = Some o ∧ is_Some (objs !! (o, "clients", name)).

Definition known_group (objs : objects) (org : option string) (name : string) : Prop :=
  ∀ o, org = Some o → is_Some (objs !! (o, "groups", name)).

(** The write would take the admins group off a stored grant entry that lists
    it, and is not the superuser's or an unauthenticated one. *)
Definition locks_out_admins (objs : objects) (actor : option Actor) (scope typ name perm : string)
    (entry : acl) : Prop :=
  perm = "grant" ∧ ("admins" ∉ any_member entry "groups") ∧
  (∃ a, actor = Some a ∧ IsGlobalAdmin a = false) ∧
  let cur := effective typ name (objs !! (scope, "acls", aclKey typ name)) in
  "admins" ∈ json_member cur (members (ace_of cur "grant")) "groups".

(** An update the endpoint accepts: [entry] is what the body carries and
    [cur] the ACL it is set in. *)
Definition acceptable (objs : objects) (actor : option Actor) (body scope : string) (mem : option string)
    (typ name perm : string) (entry : option acl) (cur : acl) : Prop :=
  perm ∈ aclPerms ∧ object_exists objs scope typ name ∧
  (∃ b, decode_body_map body = Some b ∧ entry = body_ace perm b) ∧
  (is_Some mem → ¬ locks_out_admins objs actor scope typ name perm (members entry)) ∧
  (∀ a, a ∈ any_member (members entry) "actors" → known_actor objs mem a) ∧
  (∀ g, g ∈ any_member (members entry) "groups" → known_group objs mem g) ∧
  entries (effective typ name (objs !! (scope, "acls", aclKey typ name))) = Some cur.

Section Update.
Context {B : Type} `{BackendSpec B} {O : Type}.
Abbreviation inv := (λ _ : Store B O, True).

Lemma observes_unknown_actors org names :
  observes inv (unknown_actors org names)
    (λ sp l, l = [] → ∀ a, a ∈ names → known_actor (s_objs sp) org a).
Proof.
  induction names as [|n names IH]; [apply observes_ret; set_solver|].
  cbn [unknown_actors]. eapply observes_bind; [by apply observes_Get|]. intros u.
  eapply observes_bind with (P := λ sp ok, u = s_objs sp !! (Global, "users", n) →
    ok = true → known_actor (s_objs sp) org n).
  { destruct u as [u|]; [|destruct org as [o|]].
    - apply observes_ret. intros sp Hu _. left. by rewrite <-Hu.
    - eapply observes_conseq; [apply observes_present; apply _|]. intros sp b Hb _ Ht. right.
      exists o. split; [done|]. by apply Hb.
    - by apply observes_ret. }
  intros ok. eapply observes_bind; [apply IH|]. intros rest. apply observes_ret.
  intros sp Hrest Hok Hu. destruct ok; [|done]. intros -> a [->|Ha]%elem_of_cons; [by apply Hok|by apply Hrest].
Qed.

Lemma observes_unknown_groups org names :
  observes inv (unknown_groups org names)
    (λ sp l, l = [] → ∀ g, g ∈ names → known_group (s_objs sp) (Some org) g).
Proof.
  induction names as [|n names IH]; [apply observes_ret; set_solver|].
  cbn [unknown_groups]. eapply observes_bind; [by apply observes_Get|]. intros u.
  eapply observes_bind; [apply IH|]. intros rest. apply observes_ret.
  intros sp Hrest Hu. destruct u; [|done]. intros -> g [->|Hg]%elem_of_cons; [|by apply Hrest].
  intros o [= <-]. by rewrite <-Hu.
Qed.

Lemma observes_unknownACEMembers org entry :
  observes inv (unknownACEMembers org entry) (λ sp u, u.1 = [] → u.2 = [] →
    (∀ a, a ∈ any_member entry "actors" → known_actor (s_objs sp) org a) ∧
    (∀ g, g ∈ any_member entry "groups" → known_group (s_objs sp) org g)).
Proof.
  eapply observes_bind; [apply observes_unknown_actors|]. intros actors. destruct org as [o|].
  - eapply observes_bind; [apply observes_unknown_groups|]. intros groups. apply observes_ret. naive_solver.
  - apply observes_ret. intros sp Ha Hn _. split; [by apply Ha|]. by intros g _ o.
Qed.

Lemma observes_removesAdmins actor scope typ name perm entry :
  observes inv (removesAdminsFromGrant actor scope typ name perm entry)
    (λ sp b, b = true ↔ locks_out_admins (s_objs sp) actor scope typ name perm entry).
Proof.
  unfold removesAdminsFromGrant, locks_out_admins.
  destruct (decide (perm ≠ "grant" ∨ "admins" ∈ jsonStrings (assoc entry "groups"))) as [Hd|Hd].
  { apply observes_ret. intros sp. split; [done|]. unfold any_member. tauto. }
  destruct actor as [a|]; [|apply observes_ret; naive_solver].
  destruct (IsGlobalAdmin a) eqn:Eg; [apply observes_ret; naive_solver|].
  eapply observes_bind; [apply observes_loadACL; apply _|]. intros cur. apply observes_ret. intros sp ->.
  rewrite bool_decide_eq_true. split; [|naive_solver]. intros Hin. split_and!; [|unfold any_member; tauto|eauto|done].
  destruct (decide (perm = "grant")); tauto.
Qed.

Lemma acl_update_spec actor body scope mem typ name perm :
  h_observes inv (acl_update actor body scope mem typ name perm)
    (λ sp upd, ∃ cur, acceptable (s_objs sp) actor body scope mem typ name perm upd.1 cur ∧
                      upd.2 = Set_ cur perm (ace_value upd.1))
    (λ _ rep, status rep ∈ [0; 400; 403; 404; 500]%Z).
Proof.
  unfold acl_update. destruct (contains_str aclPerms perm) eqn:Ep; cbn [negb].
  2:{ apply h_observes_reply. intros sp. cbn. set_solver. }
  apply contains_str_true in Ep.
  eapply h_observes_conseq with
    (P' := λ sp upd, True → ∃ cur, acceptable (s_objs sp) actor body scope mem typ name perm upd.1 cur ∧
                      upd.2 = Set_ cur perm (ace_value upd.1))
    (Q' := λ _ rep, True → status rep ∈ [0; 400; 403; 404; 500]%Z); [|auto..].
  eapply h_observes_bind with (P := λ sp _, object_exists (s_objs sp) scope typ name).
  { unfold aclObjectFound. eapply h_observes_bind with (P := λ sp b, b = true ↔ object_exists (s_objs sp) scope typ name).
    - apply h_observes_or_500; [|intros ? ? ->; set_solver].
      eapply observes_conseq; [apply observes_aclObjectExists; apply _|done].
    - intros []; [apply h_observes_ret|apply h_observes_reply; cbn; set_solver]. intros sp [_ Hb]. by apply Hb. }
  intros []. destruct (decode_body_map body) as [b|] eqn:Eb; [|apply h_observes_reply; cbn; set_solver].
  set (entry := body_ace perm b).
  eapply h_observes_bind with (P := λ sp r, r = false →
    is_Some mem → ¬ locks_out_admins (s_objs sp) actor scope typ name perm (members entry)).
  { destruct mem as [m|]; [|apply h_observes_ret; intros sp _ _ [? ?]; done].
    apply h_observes_or_500; [|intros ? ? ->; set_solver].
    eapply observes_conseq; [apply observes_removesAdmins|]. intros sp r Hr _ -> _ Hl. by apply Hr in Hl. }
  intros []; [apply h_observes_reply; cbn; set_solver|].
  eapply h_observes_bind with (P := λ sp u, u.1 = [] → u.2 = [] →
    (∀ a, a ∈ any_member (members entry) "actors" → known_actor (s_objs sp) mem a) ∧
    (∀ g, g ∈ any_member (members entry) "groups" → known_group (s_objs sp) mem g)).
  { apply h_observes_or_500; [|intros ? ? ->; set_solver].
    eapply observes_conseq; [apply observes_unknownACEMembers|auto]. }
  intros [ua ug]. cbn [fst snd]. destruct (decide (ua ≠ [] ∨ ug ≠ [])) as [Hu|Hu];
    [apply h_observes_reply; cbn; set_solver|].
  eapply h_observes_bind with (P := λ sp a, a = effective typ name (s_objs sp !! (scope, "acls", aclKey typ name))).
  { apply h_observes_or_500; [|intros ? ? ->; set_solver].
    eapply observes_conseq; [apply observes_loadACL; apply _|done]. }
  intros a. unfold put_perm. destruct (entries a) as [cur|] eqn:Ea; [|apply h_observes_reply; cbn; set_solver].
  apply h_observes_ret. intros sp [[[[_ Hex] Hl] Hkn] ->].
  destruct Hkn as [Hka Hkg]; [destruct ua; naive_solver|destruct ug; naive_solver|].
  exists cur. split; [|done]. cbn [fst]. split_and!; eauto.
Qed.
End Update.

(** The reply a handler leaves, early or at its end. *)
Definition replied {S} (x : (reply + reply) * S) : reply * S :=
  match x with (inl rep, s) | (inr rep, s) => (rep, s) end.

(** Replacing one permission of an ACL is guarded and confined. Whatever
    the outcome, either nothing is stored and the reply is an error, or the
    reply has the success status, the update was acceptable (a real permission,
    an object that exists, every actor and group it names exist, and it does not
    take admins off a stored grant entry that lists them) and the one ACL
    document is rewritten with that permission set and every other as it was. *)
Theorem acl_update_guarded `{BackendSpec B} {O} actor body scope mem typ name perm code (s : Store B O) :
  let '(rep, s') := replied (updateACLPermDoc actor body scope mem typ name perm code s) in
  (objs s' = objs s ∧ status rep ∈ [0; 400; 403; 404; 500]%Z) ∨
  (status rep = code ∧ ∃ entry cur,
     acceptable (objs s) actor body scope mem typ name perm entry cur ∧
     objs s' = <[(scope, "acls", aclKey typ name) :=
                   mustEncode (VObj (Set_ cur perm (ace_value entry)))]> (objs s)).
Proof.
  pose proof (acl_update_spec actor body scope mem typ name perm s I) as Hu.
  unfold updateACLPermDoc, h_bind. destruct (acl_update _ _ _ _ _ _ _ s) as [[[entry a']|rep] s1].
  2:{ destruct Hu as (_ & Hv & Hst). left. split; [|done]. unfold objs. by rewrite Hv. }
  destruct Hu as (_ & Hv & cur & Hacc & ->). cbn [fst snd] in *.
  pose proof (Put_frame scope "acls" (aclKey typ name) (mustEncode (VObj (Set_ cur perm (ace_value entry)))) s1) as Hp.
  unfold or_500. destruct (Org_Put _ _ _ _ s1) as [[[]|e] s2]; cbn [replied] in *.
  - right. split; [done|]. exists entry, cur. split; [done|]. rewrite Hp. unfold objs. by rewrite Hv.
  - left. split; [|cbn; set_solver]. rewrite Hp. unfold objs. by rewrite Hv.
Qed.
