(* ===== verification/AclDocs.v ===== *)
(** * Stored ACL documents (internal/api/acl_policy.go, authz.go)

    ACL documents as the server writes them read back, what dropping a deleted
    name from every ACL leaves, and the upgrade of ACLs stored by older
    versions. *)
From S2P Require Import Prelude GoText Json Chefjson Float GoJson Store Facade Groups Http Acl.
#[local] Open Scope go_scope.

(** ** Documents as the server writes them *)

(** An ACL by permission: actors and groups. *)
Abbreviation grants := (string → list string * list string).

Definition acl_doc (f : grants) : acl := map (λ p, (p, ace (f p).1 (f p).2)) aclPerms.

(** The permissions in the order an encoded map has them. *)
Definition sorted_perms : list string := ["create"; "delete"; "grant"; "read"; "update"].
Definition acl_read (f : grants) : acl := map (λ p, (p, ace (f p).1 (f p).2)) sorted_perms.

Definition valid_grants (f : grants) : Prop :=
  ∀ p, p ∈ aclPerms → valid_names (f p).1 ∧ valid_names (f p).2.

Lemma sorted_ace actors groups : sorted (ace actors groups) = ace actors groups.
Proof.
  unfold ace. rewrite sorted_obj. cbn [map fst snd sorted]. rewrite !map_map. reflexivity.
Qed.

Lemma sorted_acl_doc f : sorted (VObj (acl_doc f)) = VObj (acl_read f).
Proof.
  rewrite sorted_obj. unfold acl_doc, acl_read. cbn [map aclPerms sorted_perms fst snd].
  rewrite !sorted_ace. reflexivity.
Qed.

Lemma sorted_acl_read f : sorted (VObj (acl_read f)) = VObj (acl_read f).
Proof.
  rewrite sorted_obj. unfold acl_read. cbn [map sorted_perms fst snd].
  rewrite !sorted_ace. reflexivity.
Qed.

(** Both orders are written the same. *)
Lemma mustEncode_acl f : mustEncode (VObj (acl_read f)) = mustEncode (VObj (acl_doc f)).
Proof. unfold mustEncode. by rewrite sorted_acl_doc, sorted_acl_read. Qed.

#[local] Opaque max_depth.

Lemma encodable_ace actors groups : valid_names actors → valid_names groups → encodable (ace actors groups).
Proof.
  intros Ha Hg. apply printable_obj. repeat (apply Forall_cons; split; [split; [done|by apply printable_strings]|]).
  by apply Forall_nil.
Qed.

Lemma depth_ace actors groups : depth (ace actors groups) ≤ 2.
Proof.
  unfold ace. cbn [depth map snd]. pose proof (depth_strings actors). pose proof (depth_strings groups).
  cbn [depth] in *. simpl. lia.
Qed.

Lemma any_of_ace actors groups : any_of (ace actors groups) = ace actors groups.
Proof. unfold ace. cbn. rewrite !map_map. done. Qed.

Lemma numbers_fit_ace actors groups : numbers_fit (ace actors groups) = true.
Proof.
  assert (∀ l, forallb numbers_fit (map VStr l) = true) as Hf by (induction l; done).
  unfold ace. cbn [numbers_fit forallb snd]. by rewrite !Hf.
Qed.

Lemma decode_acl_doc f : valid_grants f → decode false (mustEncode (VObj (acl_doc f))) = Some (VObj (acl_read f)).
Proof.
  intros Hv. rewrite <-sorted_acl_doc. apply decode_mustEncode.
  - apply printable_obj. unfold acl_doc. apply Forall_fmap, Forall_forall. intros p Hp.
    split; [|apply encodable_ace; by apply Hv].
    unfold aclPerms in Hp. rewrite !elem_of_cons, elem_of_nil in Hp. destruct Hp as [->|[->|[->|[->|[->|[]]]]]]; done.
  - transitivity 3; [|vm_compute; lia]. unfold acl_doc. cbn [depth map snd aclPerms].
    pose proof (λ p, depth_ace (f p).1 (f p).2) as Hd.
    pose proof (Hd "create"). pose proof (Hd "read"). pose proof (Hd "update"). pose proof (Hd "delete").
    pose proof (Hd "grant"). clear Hd.
    repeat match goal with Hd : depth ?x ≤ 2 |- _ => revert Hd; generalize (depth x) end. simpl. lia.
Qed.

Lemma unmarshal_acl_doc f : valid_grants f → unmarshal_map (mustEncode (VObj (acl_doc f))) = Some (Some (acl_read f)).
Proof.
  intros Hv. unfold unmarshal_map. rewrite decode_acl_doc by done. unfold as_any.
  assert (numbers_fit (VObj (acl_read f)) = true) as ->.
  { unfold acl_read. cbn [numbers_fit forallb map snd sorted_perms]. by rewrite !numbers_fit_ace. }
  change (any_of (VObj ?ms)) with (VObj (foldl (λ acc m, Set_ acc m.1 (any_of m.2)) [] ms)).
  unfold acl_read. cbn [foldl map sorted_perms fst snd]. rewrite !any_of_ace. reflexivity.
Qed.

Lemma acl_read_entry f p : p ∈ aclPerms → assoc (acl_read f) p = Some (ace (f p).1 (f p).2).
Proof.
  unfold aclPerms. rewrite !elem_of_cons, elem_of_nil. intros [->|[->|[->|[->|[->|[]]]]]]; reflexivity.
Qed.

Lemma any_member_ace actors groups : any_member [("actors", VArr (map VStr actors)); ("groups", VArr (map VStr groups))] "actors" = actors
  ∧ any_member [("actors", VArr (map VStr actors)); ("groups", VArr (map VStr groups))] "groups" = groups.
Proof. unfold any_member. cbn [assoc]. split; apply jsonStrings_VStr. Qed.

(** Documents of [org] that the server wrote. *)
Definition canonical_acls (org : string) (objs : objects) : Prop :=
  ∀ key raw, objs !! (org, "acls", key) = Some raw →
    ∃ f, valid_grants f ∧ raw = mustEncode (VObj (acl_doc f)).

(** ** Dropping a name *)

Definition others (name : string) (l : list string) : list string := filter (λ e, e ≠ name) l.

(** The permission's entry without the name. *)
Definition drop_grant (kind name : string) (e : list string * list string) : list string * list string :=
  if decide (kind = "actors") then (others name e.1, e.2) else (e.1, others name e.2).

Definition of_kind (kind : string) (e : list string * list string) : list string :=
  if decide (kind = "actors") then e.1 else e.2.

Definition drop_at (kind name p : string) (f : grants) : grants :=
  λ q, if decide (q = p) then drop_grant kind name (f q) else f q.

Lemma without_others l name : (without l name).1 = others name l ∧
  ((without l name).2 = true ↔ name ∈ l) ∧ (name ∉ l → others name l = l).
Proof.
  unfold without, others. cbn [fst snd]. split; [done|]. rewrite bool_decide_eq_true.
  induction l as [|x l IH]; [set_solver|]. destruct IH as [IH1 IH2]. rewrite filter_cons.
  destruct (decide (x ≠ name)) as [Hx|Hx]; cbn [length].
  - split.
    { rewrite elem_of_cons. split; [intros Hl; right; apply IH1; lia|].
      intros [->|Hl]; [done|]. apply IH1 in Hl. lia. }
    intros Hn. f_equal. apply IH2. set_solver.
  - assert (x = name) as -> by (destruct (decide (x = name)); tauto). split; [|set_solver].
    split; [set_solver|]. intros _. pose proof (length_filter (λ e, e ≠ name) l). lia.
Qed.

Lemma acl_read_ext f g : (∀ p, p ∈ aclPerms → f p = g p) → acl_read f = acl_read g.
Proof. intros Hfg. unfold acl_read. cbn [map sorted_perms]. rewrite !Hfg by set_solver. done. Qed.

Lemma acl_doc_ext f g : (∀ p, p ∈ aclPerms → f p = g p) → acl_doc f = acl_doc g.
Proof. intros Hfg. unfold acl_doc. cbn [map aclPerms]. rewrite !Hfg by set_solver. done. Qed.

Lemma Set_acl_read f p actors groups : p ∈ aclPerms →
  Set_ (acl_read f) p (ace actors groups)
  = acl_read (λ q, if decide (q = p) then (actors, groups) else f q).
Proof.
  unfold aclPerms. rewrite !elem_of_cons, elem_of_nil. intros [->|[->|[->|[->|[->|[]]]]]]; reflexivity.
Qed.

Lemma drop_from_perm_read kind name f d p : kind ∈ ["actors"; "groups"] → p ∈ aclPerms →
  drop_from_perm kind name (acl_read f, d) p =
  (acl_read (drop_at kind name p f), d || bool_decide (name ∈ of_kind kind (f p))).
Proof.
  intros Hk Hp. unfold drop_from_perm. rewrite acl_read_entry by done.
  destruct (f p) as [actors groups] eqn:Ef. cbn [fst snd]. unfold ace.
  assert (∃ l, l = of_kind kind (actors, groups) ∧ jsonStrings (assoc [("actors", VArr (map VStr actors));
     ("groups", VArr (map VStr groups))] kind) = l ∧ ∀ l', VObj (Set_ [("actors", VArr (map VStr actors));
     ("groups", VArr (map VStr groups))] kind (VArr (map VStr l'))) =
     if decide (kind = "actors") then ace l' groups else ace actors l') as (l & Hl & -> & Hset).
  { rewrite !elem_of_cons, elem_of_nil in Hk. destruct Hk as [->|[->|[]]].
    - exists actors. split; [done|]. split; [apply jsonStrings_VStr|done].
    - exists groups. split; [done|]. split; [apply jsonStrings_VStr|done]. }
  destruct (without_others l name) as (H1 & H2 & H3). destruct (without l name) as [kept b]. cbn [fst snd] in *.
  subst kept. rewrite <-Hl. destruct b.
  - rewrite bool_decide_true by (by apply H2). rewrite orb_true_r. f_equal. rewrite Hset.
    transitivity (acl_read (λ q, if decide (q = p) then drop_grant kind name (f p) else f q)).
    { rewrite Ef. unfold drop_grant, of_kind in *. cbn [fst snd] in *.
      destruct (decide (kind = "actors")); subst l; by rewrite Set_acl_read. }
    apply acl_read_ext. intros q _. unfold drop_at. by destruct (decide (q = p)) as [->|].
  - rewrite bool_decide_false; [|intros Hin; by apply H2 in Hin]. rewrite orb_false_r. f_equal.
    apply acl_read_ext. intros q _. unfold drop_at. destruct (decide (q = p)) as [->|]; [|done]. rewrite Ef.
    unfold drop_grant, of_kind in *. cbn [fst snd] in *.
    assert (name ∉ l) as Hn by (intros Hin; by apply H2 in Hin).
    destruct (decide (kind = "actors")); subst l; by rewrite (H3 Hn).
Qed.

Lemma drop_perms kind name ps : kind ∈ ["actors"; "groups"] → (∀ p, p ∈ ps → p ∈ aclPerms) → ∀ f d,
  foldl (drop_from_perm kind name) (acl_read f, d) ps =
  (acl_read (foldl (λ f p, drop_at kind name p f) f ps),
   d || existsb (λ p, bool_decide (name ∈ of_kind kind (f p))) ps) ∨ ¬ NoDup ps.
Proof.
  intros Hk. induction ps as [|p ps IH]; intros Hps f d; [left; cbn; by rewrite orb_false_r|].
  destruct (decide (p ∈ ps)) as [Hin|Hni]; [right; intros Hnd; inversion Hnd; done|].
  destruct (IH ltac:(set_solver) (drop_at kind name p f) (d || bool_decide (name ∈ of_kind kind (f p))))
    as [E|Hn]; [left|right; intros Hnd; inversion Hnd; done].
  cbn [foldl existsb]. rewrite drop_from_perm_read by set_solver. rewrite E, orb_assoc. f_equal. f_equal.
  clear -Hni. induction ps as [|q ps IH]; [done|]. cbn [existsb]. rewrite IH by set_solver. f_equal.
  unfold drop_at. rewrite decide_False; [done|set_solver].
Qed.

Definition scrubbed (kind name : string) (f : grants) : grants := λ p, drop_grant kind name (f p).

(** The document after the clean-up, whether or not it had to be rewritten. *)
Definition scrub (kind name raw : string) : string := default raw (dropped_acl kind name raw).

Lemma scrub_acl_doc kind name f : kind ∈ ["actors"; "groups"] → valid_grants f →
  scrub kind name (mustEncode (VObj (acl_doc f))) = mustEncode (VObj (acl_doc (scrubbed kind name f))).
Proof.
  intros Hk Hv. unfold scrub, dropped_acl. rewrite unmarshal_acl_doc by done.
  change (members (Some (acl_read f))) with (acl_read f).
  destruct (drop_perms kind name aclPerms Hk (λ p H, H) f false) as [E|Hn].
  2:{ exfalso. apply Hn. apply (bool_decide_unpack _). vm_compute. exact I. }
  rewrite E. cbn [orb].
  assert (∀ p, p ∈ aclPerms → foldl (λ f p, drop_at kind name p f) f aclPerms p = scrubbed kind name f p) as Hf.
  { unfold aclPerms. intros p. rewrite !elem_of_cons, elem_of_nil. by intros [->|[->|[->|[->|[->|[]]]]]]. }
  destruct (existsb _ aclPerms) eqn:Eb; unfold default.
  - unfold id. rewrite mustEncode_acl.
    apply (f_equal (λ a, mustEncode (VObj a))). by apply acl_doc_ext.
  - apply (f_equal (λ a, mustEncode (VObj a))). apply acl_doc_ext. intros p Hp. apply existsb_false in Eb.
    rewrite Forall_forall in Eb. specialize (Eb p Hp). apply bool_decide_eq_false in Eb.
    unfold scrubbed, drop_grant, of_kind in *. destruct (f p) as [a g]. cbn [fst snd] in *.
    destruct (decide (kind = "actors")); by rewrite (proj2 (proj2 (without_others _ name)) Eb).
Qed.

Lemma valid_others name l : valid_names l → valid_names (others name l).
Proof.
  unfold valid_names, others. rewrite !Forall_forall. intros Hl x [_ Hx]%list_elem_of_filter. by apply Hl.
Qed.

Lemma valid_scrubbed kind name f : valid_grants f → valid_grants (scrubbed kind name f).
Proof.
  intros Hv p Hp. destruct (Hv p Hp) as [Ha Hg]. unfold scrubbed, drop_grant.
  destruct (decide (kind = "actors")); cbn [fst snd]; split; try done; by apply valid_others.
Qed.

(** ** The clean-up over every ACL *)

Section Clean.
Context {B : Type} `{BackendSpec B} {O : Type}.
Abbreviation st := (Store B O).

(** Writing back a list of documents. *)
Lemma puts_triple (org coll : string) (l : list (string * string)) (x0 : objects) : NoDup l.*1 →
  triple (B := B) (O := O) (λ x, x = x0) (st_each (λ d, Org_Put org coll d.1 d.2) l)
    (λ _ x, ∀ o c k, x !! (o, c, k) =
       if decide (o = org ∧ c = coll ∧ is_Some (list_to_map (M := gmap string string) l !! k))
       then list_to_map (M := gmap string string) l !! k else x0 !! (o, c, k)).
Proof.
  revert x0. induction l as [|[key v] l IH]; intros x0 Hnd; cbn [st_each list_to_map foldr].
  { apply triple_ret. intros x -> o c k. rewrite decide_False; [done|]. rewrite lookup_empty. intros (_ & _ & [? ?]). done. }
  apply NoDup_cons in Hnd as [Hk Hnd]. eapply triple_bind; [apply triple_Put|]. intros [].
  intros s (x & -> & Hx). pose proof (IH (<[(org, coll, key) := v]> x0) Hnd s Hx) as Hi.
  destruct (st_each _ l s) as [[[]|e] s']; [|done]. intros o c k. rewrite Hi. cbn [fst snd curry].
  destruct (decide (o = org ∧ c = coll)) as [[-> ->]|Hne].
  2:{ rewrite !decide_False by naive_solver. rewrite lookup_insert_ne; [done|]. naive_solver. }
  destruct (decide (k = key)) as [->|Hkk].
  - assert (list_to_map (M := gmap string string) l !! key = None) as E.
    { apply not_elem_of_list_to_map_1. done. }
    rewrite E, lookup_insert_eq. rewrite decide_False by (intros (_ & _ & [? ?]); done).
    rewrite lookup_insert_eq. by rewrite decide_True by eauto.
  - rewrite !lookup_insert_ne by naive_solver. done.
Qed.

Lemma removeFromACLs_triple (org kind name : string) (x0 : objects) :
  triple (B := B) (O := O) (λ x, x = x0) (removeFromACLs org kind name)
    (λ _ x, ∀ o c k, x !! (o, c, k) =
       if decide (o = org ∧ c = "acls") then scrub kind name <$> x0 !! (o, c, k) else x0 !! (o, c, k)).
Proof.
  unfold removeFromACLs. eapply triple_bind; [apply triple_Range|]. intros docs s [Hx Hr]. rewrite Hx in Hr.
  set (l := omap (λ d : string * string, (λ raw', (d.1, raw')) <$> dropped_acl kind name d.2) docs).
  assert (∀ k v, (k, v) ∈ l ↔ ∃ raw, x0 !! (org, "acls", k) = Some raw ∧ dropped_acl kind name raw = Some v) as Hl.
  { intros k v. unfold l. rewrite list_elem_of_omap. setoid_rewrite Hr. split.
    - intros ([k' raw] & Hin & E). cbn [fst snd] in E. apply elem_of_map_to_list in Hin.
      rewrite lookup_coll_of in Hin. destruct (dropped_acl kind name raw) eqn:Ed; [|done].
      injection E as -> ->. eauto.
    - intros (raw & Hin & E). exists (k, raw). split; [|cbn [fst snd]; by rewrite E].
      apply elem_of_map_to_list. by rewrite lookup_coll_of. }
  assert (NoDup l.*1) as Hnd.
  { assert (NoDup docs.*1) as Hd by (rewrite Hr; apply NoDup_fst_map_to_list).
    unfold l. clear -Hd. induction docs as [|[k raw] docs IH]; [done|]. cbn [omap list_omap fst snd].
    apply NoDup_cons in Hd as [Hk Hd]. destruct (dropped_acl kind name raw); cbn [fmap option_fmap option_map list_fmap];
      [|by apply IH]. apply NoDup_cons. split; [|by apply IH]. cbn [fst]. intros Hin. apply Hk.
    apply list_elem_of_fmap in Hin as ([k' v] & -> & Hin). apply list_elem_of_omap in Hin as ([k2 r2] & Hin & E).
    cbn [fst snd] in E. destruct (dropped_acl kind name r2); [|done]. injection E as -> ->.
    apply list_elem_of_fmap. by exists (k', r2). }
  pose proof (puts_triple org "acls" l x0 Hnd s Hx) as Hp.
  destruct (st_each _ l s) as [[[]|e] s']; [|done]. intros o c k. rewrite Hp.
  destruct (decide (o = org ∧ c = "acls")) as [[-> ->]|Hne]; [|by rewrite decide_False by naive_solver].
  case_decide as Hs.
  - destruct Hs as (_ & _ & [v Hv]). rewrite Hv. apply elem_of_list_to_map_2, Hl in Hv as (raw & -> & E).
    cbn [fmap option_fmap option_map]. unfold scrub. by rewrite E.
  - destruct (x0 !! (org, "acls", k)) as [raw|] eqn:Er; [|done]. cbn [fmap option_fmap option_map].
    unfold scrub. destruct (dropped_acl kind name raw) as [v|] eqn:Ed; [|done]. exfalso. apply Hs.
    split; [done|]. split; [done|]. exists v. apply elem_of_list_to_map_1; [done|]. apply Hl. eauto.
Qed.

(** ** The upgrade *)

Definition clients_acl (org : string) : string * string * string := (org, "acls", aclKey "containers" "clients").

Definition upgraded (org : string) (x : objects) : objects :=
  let validator := org +:+ "-validator" in
  if decide (x !! clients_acl org = Some (mustEncode (VObj (legacyClientsACL validator))))
  then <[clients_acl org := mustEncode (VObj (validatorClientsACL validator))]> x else x.

Lemma upgraded_twice org x : upgraded org (upgraded org x) = upgraded org x.
Proof.
  unfold upgraded at 2 3. case_decide as E; unfold upgraded.
  - case_decide; [|done]. apply map_eq. intros k. destruct (decide (k = clients_acl org)) as [->|].
    + by rewrite !lookup_insert_eq.
    + by rewrite !lookup_insert_ne.
  - by rewrite decide_False.
Qed.
End Clean.

(** The ACL upgrade rewrites the one document an older version seeded, when
    it is still byte for byte the seeded form, and nothing else; run again, it
    changes nothing. An error leaves the store as it was. *)
Theorem upgrade_touches_seeded_only `{BackendSpec B} {O} (org : string) (s : Store B O) :
  let '(r, s') := UpgradeOrgACLs org s in
  (if is_Ok r then objs s' = upgraded org (objs s) else objs s' = objs s) ∧
  upgraded org (upgraded org (objs s)) = upgraded org (objs s).
Proof.
  unfold UpgradeOrgACLs, st_bind.
  pose proof (observes_Get (λ _, True) org "acls" (aclKey "containers" "clients") s I) as Hg.
  destruct (Org_Get _ _ _ s) as [[raw|e] s1]; destruct Hg as (_ & Hv & Hg);
    assert (objs s1 = objs s) as E1 by (unfold objs; by rewrite Hv); [|split; [done|apply upgraded_twice]].
  fold (objs s) in Hg. fold (clients_acl org) in Hg. unfold upgraded at 1. rewrite <-Hg.
  destruct raw as [raw|]; [|split; [by rewrite decide_False|apply upgraded_twice]].
  destruct (decide (raw = _)) as [->|Hne].
  - pose proof (Put_frame org "acls" (aclKey "containers" "clients")
      (mustEncode (VObj (validatorClientsACL (org +:+ "-validator")))) s1) as Hp.
    destruct (Org_Put _ _ _ _ s1) as [[[]|e] s2]; rewrite E1 in Hp;
      (split; [|apply upgraded_twice]); cbn [is_Ok]; [by rewrite decide_True|done].
  - split; [|apply upgraded_twice]. cbn [is_Ok st_ret]. rewrite decide_False by congruence. done.
Qed.
