(* ===== verification/GroupApi.v ===== *)
(** * Group and container endpoints (internal/api/authz.go)

    Seeding an organization, and the handlers that create, read, update and
    delete groups and create containers. *)
From S2P Require Import Prelude GoText Json Chefjson Float GoJson Normalize Store Facade Groups Http Acl AclDocs.
#[local] Open Scope go_scope.
#[local] Open Scope http_scope.

Definition defaultGroups : list string :=
  ["admins"; "billing-admins"; "clients"; "users"; "public_key_read_access"].

Definition defaultGroupGroups (g : string) : list string :=
  if decide (g = "public_key_read_access") then ["users"; "clients"] else [].

Definition defaultContainers : list string :=
  ["clients"; "containers"; "cookbooks"; "cookbook_artifacts"; "data"; "environments"; "groups";
   "nodes"; "policies"; "policy_groups"; "roles"; "sandboxes"].

(** The text [fmt.Appendf] writes for a container; [%q] of a name that needs no
    escape is the name in quotes. *)
Definition container_doc (c : string) : string :=
  "{" +:+ print_string id "containername" +:+ ":" +:+ print_string id c +:+ ","
      +:+ print_string id "containerpath" +:+ ":" +:+ print_string id c +:+ "}".

(** [groupNameRE]: [^[a-z0-9_-]+$]. *)
Definition group_char (c : ascii) : bool :=
  let b := byte_of c in
  bool_decide (97 ≤ b ≤ 122 ∨ 48 ≤ b ≤ 57 ∨ c = "_"%char ∨ c = "-"%char)%Z.
Definition groupNameRE (name : string) : bool := bool_decide (name ≠ "") && str_forall group_char name.

(** The first of the fields that is a non-empty string. *)
Fixpoint first_string (obj : acl) (fields : list string) : string :=
  match fields with
  | [] => ""
  | f :: fields' =>
      match assoc obj f with
      | Some (VStr v) => if decide (v = "") then first_string obj fields' else v
      | _ => first_string obj fields'
      end
  end.

Definition groupName (obj : acl) : string := first_string obj ["name"; "groupname"; "id"].

(** The kinds an update replaces: those whose value is an array. *)
Definition update_kind (src : acl) (kind : string) : option (list string) :=
  match assoc src kind with Some (VArr l) => Some (jsonStrings (Some (VArr l))) | _ => None end.

Definition groupUpdateMembers (obj : acl) : string → option (list string) :=
  let src := match assoc obj "actors" with Some (VObj nested) => nested | _ => obj end in
  update_kind src.

Section Handlers.
Context {B : Type} `{Backend B} {O : Type}.
Abbreviation st := (Store B O).

(** Put what is not there yet. *)
Definition seed (org coll key doc : string) : ST st unit :=
  let! o := Org_Get org coll key in
  match o with Some _ => st_ret tt | None => Org_Put org coll key doc end.

Definition seedAuthz (org : string) : ST st unit :=
  st_each (λ g, seed org "groups" g (groupJSON g "" [] [] (defaultGroupGroups g))) defaultGroups ;;!
  st_each (λ c, seed org "containers" c (container_doc c)) defaultContainers.

Definition addClientToOrgGroup (org group client : string) : ST st unit :=
  addMember org group memberClients client.

Definition getGroup (orgname name : string) : handler st reply :=
  let? org := API_org orgname in
  let? doc := or_500 (groupDocWithMembers org name) in
  match doc with
  | None => h_reply (writeError 404 ["Cannot find groups " +:+ name])
  | Some doc => h_ret (writeRaw 200 doc)
  end.

(** A create whose conflict is answered with a 409. *)
Definition create_or_409 (org coll key doc msg : string) : handler st unit :=
  let? res := attempt (Org_Create org coll key doc) in
  match res with
  | Ok _ => h_ret tt
  | Err ErrConflict => h_reply (writeError 409 [msg])
  | Err e => h_reply (internal_error e)
  end.

Definition createGroup (r : request) (orgname : string) : handler st reply :=
  let? org := API_org orgname in
  match decode_body_map (r_body r) with
  | None => h_reply (writeError 400 ["invalid JSON body"])
  | Some obj =>
      let name := groupName (members obj) in
      if decide (name = "") then h_reply (writeError 400 ["Field 'name' missing"])
      else if negb (groupNameRE name) then h_reply (writeError 400 ["Invalid group name."])
      else
        let ms := groupMembers (members obj) in
        or_500 (clearMembers org name) ;;?
        create_or_409 org "groups" name (groupJSON name "" ms.1.1 ms.1.2 ms.2) "Object already exists" ;;?
        h_ret (created_at (objectURL r org "groups" name))
  end.

(** The names of the list that exist. *)
Fixpoint keep (space coll : string) (names : list string) : ST st (list string) :=
  match names with
  | [] => st_ret []
  | n :: names' =>
      let! o := Org_Get space coll n in
      let! rest := keep space coll names' in
      st_ret (match o with Some _ => n :: rest | None => rest end)
  end.

Definition knownGroupMembers (org : string) (users clients groups : list string)
  : ST st (list string * list string * list string) :=
  let! u := keep Global "users" users in
  let! c := keep org "clients" clients in
  let! g := keep org "groups" groups in
  st_ret (u, c, g).

Definition putGroup (r : request) (orgname name : string) : handler st reply :=
  let? org := API_org orgname in
  exists_ r org "groups" name ("Cannot find groups " +:+ name) ;;?
  match Normalize (r_body r) with
  | Err _ => h_reply (writeError 400 ["invalid JSON body"])
  | Ok raw =>
      match DecodeObject raw with
      | Err _ => h_reply (writeError 400 ["invalid JSON body"])
      | Ok obj =>
          exists_ r org "groups" name ("Cannot find groups " +:+ name) ;;?
          let? cur := or_500 (groupMembership org name) in
          let update := groupUpdateMembers obj in
          let users := default cur.1.1 (update memberUsers) in
          let clients := default cur.1.2 (update memberClients) in
          let groups := default cur.2 (update memberGroups) in
          let? known := or_500 (knownGroupMembers org users clients groups) in
          or_500 (clearMembers org name) ;;?
          or_500 (Org_Put org "groups" name (groupJSON name "" known.1.1 known.1.2 known.2)) ;;?
          h_ret (writeRaw 200 raw)
      end
  end.

Definition deleteGroup (orgname name : string) : handler st reply :=
  let? org := API_org orgname in
  let? o := or_500 (Org_Get org "groups" name) in
  match o with
  | None => h_reply (writeError 404 ["Cannot find groups " +:+ name])
  | Some _ =>
      or_500 (removeFromACLs org "groups" name) ;;?
      or_500 (removeActorFromAllGroups org memberGroups name) ;;?
      or_500 (clearMembers org name) ;;?
      or_500 (deleteACL org "groups" name) ;;?
      let? old := or_500 (Org_Delete org "groups" name) in
      match old with
      | None => h_reply (writeError 404 ["Cannot find groups " +:+ name])
      | Some raw => h_ret (writeRaw 200 raw)
      end
  end.

Definition createContainer (r : request) (orgname : string) : handler st reply :=
  let? org := API_org orgname in
  match decode_body_map (r_body r) with
  | None => h_reply (writeError 400 ["invalid JSON body"])
  | Some obj =>
      let name := first_string (members obj) ["containername"; "id"] in
      if decide (name = "") then h_reply (writeError 400 ["Field 'containername' missing"])
      else
        or_500 (Org_Put org "containers" name (mustEncode (match obj with Some ms => VObj ms | None => VNull end))) ;;?
        h_ret (created_at (objectURL r org "containers" name))
  end.
End Handlers.

(** ** Deleting a group *)

Section Delete.
Context {B : Type} `{BackendSpec B} {O : Type}.

Lemma API_org_inl (name : string) (s : Store B O) org s' : API_org name s = (inl org, s') → org = name ∧ objs s' = objs s.
Proof.
  intros E. pose proof (h_triple_org (B := B) (O := O) name (λ x, x = objs s) s eq_refl) as Ht.
  rewrite E in Ht. naive_solver.
Qed.

Lemma Get_Ok (org coll key : string) (s : Store B O) v s' :
  Org_Get org coll key s = (Ok v, s') → v = objs s !! (org, coll, key) ∧ objs s' = objs s.
Proof.
  intros E. pose proof (triple_Get (B := B) (O := O) org coll key (λ x, x = objs s) s eq_refl) as Ht.
  rewrite E in Ht. destruct Ht as [-> ->]. done.
Qed.

Lemma Delete_Ok (org coll key : string) (s : Store B O) v s' :
  Org_Delete org coll key s = (Ok v, s') → v = objs s !! (org, coll, key) ∧ objs s' = delete (org, coll, key) (objs s).
Proof.
  intros E. pose proof (triple_Delete (B := B) (O := O) org coll key (λ x, x = objs s) s eq_refl) as Ht.
  rewrite E in Ht. destruct Ht as (x & -> & -> & ->). done.
Qed.

(** The objects after a delete that got to its end: references first, then the
    group. *)
Lemma deleteGroup_objs (org name : string) (s : Store B O) rep s' : deleteGroup org name s = (inl rep, s') →
  ∃ s1 s2 : Store B O, removeActorFromAllGroups org memberGroups name s1 = (Ok tt, s2) ∧
    (∀ o c k, objs s1 !! (o, c, k) =
       if decide (o = org ∧ c = "acls") then scrub "groups" name <$> objs s !! (o, c, k) else objs s !! (o, c, k)) ∧
    (∀ o c k, objs s' !! (o, c, k) =
       if decide ((o = org ∧ c = groupMembersColl ∧ has_prefix (name +:+ String NUL "") k = true) ∨
                  (o, c, k) = (org, "acls", aclKey "groups" name) ∨ (o, c, k) = (org, "groups", name))
       then None else objs s2 !! (o, c, k)).
Proof.
  unfold deleteGroup. intros E. h_step E o t1 E1. apply API_org_inl in E1 as [-> H1].
  h_step E got t2 E2. apply Get_Ok in E2 as [-> H2]. destruct (objs t1 !! _); [|done].
  h_step E u3 t3 E3. h_step E u4 t4 E4. h_step E u5 t5 E5. h_step E u6 t6 E6. h_step E old t7 E7.
  destruct old as [raw|]; [|done]. injection E as _ <-. destruct u3, u4, u5, u6.
  exists t3, t4. split; [done|].
  pose proof (removeFromACLs_triple org "groups" name (objs t2) t2 eq_refl) as H3. rewrite E3 in H3.
  pose proof (clearMembers_triple org name (objs t4) t4 eq_refl) as H5. rewrite E5 in H5.
  unfold deleteACL, st_bind in E6. destruct (Org_Delete org "acls" _ t5) as [[d|] t6'] eqn:E6'; [|done].
  injection E6 as <-. apply Delete_Ok in E6' as [_ H6]. apply Delete_Ok in E7 as [_ H7].
  split; [intros ? ? ?; by rewrite H3, H2, H1|]. intros o c k. rewrite H7, H6.
  destruct (decide ((o, c, k) = (org, "groups", name))) as [Eq|Hg].
  { rewrite Eq, lookup_delete_eq. by rewrite decide_True by tauto. }
  rewrite lookup_delete_ne by congruence.
  destruct (decide ((o, c, k) = (org, "acls", aclKey "groups" name))) as [Eq|Ha].
  { rewrite Eq, lookup_delete_eq. by rewrite decide_True by tauto. }
  rewrite lookup_delete_ne by congruence. rewrite H5. repeat case_decide; tauto.
Qed.

(** Revoking touches group documents and rows only. *)
Lemma revocation_frame (org kind actor : string) (s s' : Store B O) :
  removeActorFromAllGroups org kind actor s = (Ok tt, s') →
  ∀ k, objs s' !! (org, "acls", k) = objs s !! (org, "acls", k).
Proof.
  unfold removeActorFromAllGroups, st_bind. intros E k.
  pose proof (removeMemberRows_triple org kind actor (objs s) s eq_refl) as H1.
  destruct (removeMemberRows org kind actor s) as [[[]|] s1]; [|done].
  pose proof (removeFromGroupDocs_triple org kind actor (objs s1) s1 eq_refl) as H2. rewrite E in H2.
  rewrite H2, decide_False by naive_solver. rewrite H1, decide_False by naive_solver. done.
Qed.
End Delete.

(** The group is named by no ACL the organization stores. *)
Definition unnamed (org name : string) (objs : objects) : Prop :=
  ∀ key raw, objs !! (org, "acls", key) = Some raw →
    ∃ f, valid_grants f ∧ raw = mustEncode (VObj (acl_doc f)) ∧ ∀ p, p ∈ aclPerms → name ∉ (f p).2.

(** Deleting a group leaves no reference to it: when the delete succeeds on
    an organization whose documents are as the server writes them, the group and
    its own ACL are gone, no stored ACL lists it, no group nests it, no row or
    document makes anyone its member, and every other membership is as it was. A
    group created later under the name therefore starts with nothing. *)
Theorem deleted_group_leaves_nothing `{BackendSpec B} {O} (org name : string) (s s' : Store B O) rep :
  ¬ str_in NUL name → canonical_docs (docs_of org (objs s)) → canonical_acls org (objs s) →
  deleteGroup org name s = (inl rep, s') →
  objs s' !! (org, "groups", name) = None ∧ objs s' !! (org, "acls", aclKey "groups" name) = None ∧
  unnamed org name (objs s') ∧
  ∀ k a g, k ∈ kinds →
    declared (docs_of org (objs s')) (rows_of org (objs s')) k a g ↔
    declared (docs_of org (objs s)) (rows_of org (objs s)) k a g ∧
    ¬ (k = memberGroups ∧ a = name) ∧ g ≠ name.
Proof.
  intros Hn Hdocs Hacls (s1 & s2 & Er & H1 & H3)%deleteGroup_objs.
  assert (∀ k, objs s1 !! (org, "groups", k) = objs s !! (org, "groups", k)) as Hg1.
  { intros k. rewrite H1. by rewrite decide_False by naive_solver. }
  assert (∀ k, objs s1 !! (org, groupMembersColl, k) = objs s !! (org, groupMembersColl, k)) as Hr1.
  { intros k. rewrite H1. by rewrite decide_False by naive_solver. }
  split; [by rewrite H3, decide_True by tauto|]. split; [by rewrite H3, decide_True by tauto|]. split.
  - intros key raw. rewrite H3. case_decide; [done|]. rewrite (revocation_frame _ _ _ _ _ Er), H1, decide_True by done.
    destruct (objs s !! (org, "acls", key)) as [old|] eqn:Eo; [|done]. intros [= <-].
    destruct (Hacls key old Eo) as (f & Hf & ->). exists (scrubbed "groups" name f).
    split; [by apply valid_scrubbed|]. split; [apply scrub_acl_doc; [set_solver|done]|].
    intros p _ Hin. unfold scrubbed, drop_grant in Hin. cbn [snd] in Hin. apply list_elem_of_filter in Hin. tauto.
  - intros k a g Hk. transitivity ((declared (docs_of org (objs s)) (rows_of org (objs s)) k a g ∧
      ¬ (k = memberGroups ∧ a = name)) ∧ g ≠ name); [|tauto].
    assert (declared (docs_of org (objs s)) (rows_of org (objs s)) k a g ↔
            declared (docs_of org (objs s1)) (rows_of org (objs s1)) k a g) as ->.
    { unfold declared, docs_of, rows_of. setoid_rewrite lookup_coll_of. rewrite Hg1. setoid_rewrite Hr1. done. }
    assert (canonical_docs (docs_of org (objs s1))) as Hdocs1.
    { intros n raw. unfold docs_of in *. rewrite lookup_coll_of, Hg1, <-lookup_coll_of. apply Hdocs. }
    rewrite <-(revocation_spec org memberGroups name s1 s2) by (done || apply Hdocs1 || unfold kinds; set_solver).
    unfold declared, docs_of, rows_of. setoid_rewrite lookup_coll_of. setoid_rewrite H3. split.
    + intros [(raw & Hr & Ha)|(key & [v Hv] & Hs)].
      * destruct (decide (_ ∨ _)) as [|Hd] in Hr; [done|]. split; [left; eauto|]. naive_solver.
      * destruct (decide (_ ∨ _)) as [|Hd] in Hv; [done|]. split; [right; eauto|].
        intros ->. apply Hd. left. split; [done|]. split; [done|]. by eapply member_prefix.
    + intros [[(raw & Hr & Ha)|(key & Hkey & Hs)] Hne].
      * left. exists raw. rewrite decide_False; [done|]. naive_solver.
      * right. exists key. rewrite decide_False; [done|]. intros [(_ & _ & Hp)|?]; [|naive_solver].
        apply (member_prefix name key g k a Hn Hs) in Hp. done.
Qed.

(** ** Seeding *)

Section Seed.
Context {B : Type} `{BackendSpec B} {O : Type}.

(** What is stored stays, and [keys] are stored. *)
Definition kept_with (org coll : string) (x0 : objects) (keys : list string) (x : objects) : Prop :=
  (∀ k v, x0 !! k = Some v → x !! k = Some v) ∧ (∀ key, key ∈ keys → is_Some (x !! (org, coll, key))).

Lemma seed_triple (org coll key doc : string) (x0 : objects) (done : list string) :
  triple (B := B) (O := O) (kept_with org coll x0 done) (seed org coll key doc)
    (λ _, kept_with org coll x0 (done ++ [key])).
Proof.
  unfold seed. eapply triple_bind; [apply triple_Get|]. intros [v|]; cbv beta.
  - apply triple_ret. intros x [[Hk Hd] Hv]. split; [done|].
    intros k [?|Hk1%list_elem_of_singleton]%elem_of_app; [auto|subst k]. exists v. done.
  - eapply triple_conseq; [apply triple_Put|intros x Hx; exact Hx|]. intros _ x' (x & [[Hk Hd] Hv] & ->). split.
    + intros k v Hx. rewrite lookup_insert_ne; [auto|]. intros <-. apply Hk in Hx. congruence.
    + intros k [Hin|Hk1%list_elem_of_singleton]%elem_of_app; [|subst k; rewrite lookup_insert_eq; by eexists].
      destruct (Hd k Hin) as [w Hw]. rewrite lookup_insert_ne; [by eexists|]. intros [= <-]. congruence.
Qed.

Lemma seeds_triple (org coll : string) (doc : string → string) (keys : list string) (x0 : objects) :
  triple (B := B) (O := O) (λ x, ∀ k v, x0 !! k = Some v → x !! k = Some v)
    (st_each (λ g, seed org coll g (doc g)) keys) (λ _, kept_with org coll x0 keys).
Proof.
  eapply triple_conseq.
  - apply (triple_each (B := B) (O := O) _ keys (kept_with org coll x0)). intros done a rest _. apply seed_triple.
  - intros x Hx. split; [done|set_solver].
  - done.
Qed.
End Seed.

(** Seeding an organization adds the default groups and containers that are
    missing and changes nothing that is stored, so running it on an organization
    in use (as every start does) loses no membership and no document. *)
Theorem seeding_only_adds `{BackendSpec B} {O} (org : string) (s s' : Store B O) :
  seedAuthz org s = (Ok tt, s') →
  (∀ k v, objs s !! k = Some v → objs s' !! k = Some v) ∧
  (∀ g, g ∈ defaultGroups → is_Some (objs s' !! (org, "groups", g))) ∧
  (∀ c, c ∈ defaultContainers → is_Some (objs s' !! (org, "containers", c))).
Proof.
  unfold seedAuthz, st_bind. intros E.
  pose proof (seeds_triple (B := B) (O := O) org "groups" (λ g, groupJSON g "" [] [] (defaultGroupGroups g))
    defaultGroups (objs s) s (λ _ _ Hk, Hk)) as H1.
  destruct (st_each _ defaultGroups s) as [[[]|e] s1]; [|done]. destruct H1 as [Hk1 Hg].
  pose proof (seeds_triple (B := B) (O := O) org "containers" container_doc defaultContainers (objs s1) s1 (λ _ _ Hk, Hk)) as H2.
  rewrite E in H2. destruct H2 as [Hk2 Hc]. split; [auto|]. split; [|done].
  intros g [v Hv]%Hg. eauto.
Qed.

(** ** Witnesses and what modelling showed *)

Definition run {A} (m : ST (Store Memory.memoryBackend groupIndexCache) A) s := (m s).2.

(** Admins nests dev; dev has a client in a row; an ACL lists dev. *)
Definition dev_org : Store Memory.memoryBackend groupIndexCache :=
  run (Org_Put "acme" "acls" "data/vault" (mustEncode (VObj (acl_doc (λ p, ([], ["admins"; "dev"]))))))
    (run (addMember "acme" "dev" memberClients "node1")
      (run (Org_Put "acme" "groups" "dev" (groupJSON "dev" "" ["bob"] [] []))
        (run (Org_Put "acme" "groups" "admins" (groupJSON "admins" "" ["alice"] [] ["dev"]))
          (run (Store_CreateOrg "acme") mem_server)))).

Definition ended {A S} (x : (A + reply) * S) : bool := match x with (inl _, _) => true | (inr _, _) => false end.

Lemma dev_deleted : ended (deleteGroup "acme" "dev" dev_org) = true.
Proof. vm_compute. reflexivity. Qed.

Lemma dev_docs : docs_of "acme" (objs dev_org) =
  {[ "admins" := groupJSON "admins" "" ["alice"] [] ["dev"]; "dev" := groupJSON "dev" "" ["bob"] [] [] ]}.
Proof. apply (bool_decide_unpack _). vm_compute. exact I. Qed.

Lemma dev_acls : coll_of "acme" "acls" (objs dev_org) =
  {[ "data/vault" := mustEncode (VObj (acl_doc (λ p, ([], ["admins"; "dev"])))) ]}.
Proof. apply (bool_decide_unpack _). vm_compute. exact I. Qed.

Lemma deleted_group_leaves_nothing_witness :
  match deleteGroup "acme" "dev" dev_org with
  | (inl _, s') => unnamed "acme" "dev" (objs s')
  | _ => False
  end.
Proof.
  pose proof dev_deleted as Hd. destruct (deleteGroup "acme" "dev" dev_org) as [[rep|rep] s'] eqn:E; [|discriminate Hd].
  refine (proj1 (proj2 (proj2 (deleted_group_leaves_nothing "acme" "dev" dev_org s' rep _ _ _ E)))).
  - apply (bool_decide_unpack _). vm_compute. exact I.
  - rewrite dev_docs. intros name raw [[<- <-]|[_ [<- <-]%lookup_singleton_Some]]%lookup_insert_Some;
      eexists _, _, _; (split; [reflexivity|]); repeat constructor.
  - intros key raw Hk. rewrite <-lookup_coll_of, dev_acls in Hk. apply lookup_singleton_Some in Hk as [_ <-].
    eexists. split; [|reflexivity]. intros p _. split; repeat constructor.
Defined.

Lemma seeded : is_Ok (seedAuthz "acme" dev_org).1 = true.
Proof. vm_compute. reflexivity. Qed.

Lemma seeding_only_adds_witness :
  match seedAuthz "acme" dev_org with
  | (Ok tt, s') => is_Some (objs s' !! ("acme", "groups", "users"))
  | _ => False
  end.
Proof.
  pose proof seeded as Hd. destruct (seedAuthz "acme" dev_org) as [[[]|e] s'] eqn:E; [|discriminate Hd].
  apply (proj1 (proj2 (seeding_only_adds "acme" dev_org s' E))). apply (bool_decide_unpack _). vm_compute. exact I.
Defined.

(** A request for dev with a body, as the handler receives it; [pre] is the
    object the authorization layer read. *)
Definition dev_request (method body : string) (pre : option preread) : request :=
  mkRequest method "/organizations/acme/groups/dev" None body "http://localhost" pre.

Definition is_member (s : Store Memory.memoryBackend groupIndexCache) (key : string) : bool :=
  bool_decide (is_Some (objs s !! ("acme", groupMembersColl, key))).

(** Creating a group that exists is refused with a conflict, and yet it
    strips the existing group of the members recorded in rows: they are cleared
    before the create is attempted. *)
Theorem refused_create_clears_members :
  let body := "{" +:+ print_string id "groupname" +:+ ":" +:+ print_string id "dev" +:+ "}" in
  let '(rep, s') := replied (createGroup (dev_request "POST" body None) "acme" dev_org) in
  status rep = 409%Z ∧
  is_member dev_org (memberKey "dev" memberClients "node1") = true ∧
  is_member s' (memberKey "dev" memberClients "node1") = false.
Proof. vm_compute. done. Qed.

(** The status of a reply, and whether dev is stored after it. *)
Definition dev_after (x : (reply + reply) * Store Memory.memoryBackend groupIndexCache) : Z * bool :=
  let '(rep, s) := replied x in (status rep, bool_decide (is_Some (objs s !! ("acme", "groups", "dev")))).

(** The second existence check of an update, made under the membership lock
    against a concurrent delete, is answered from the bytes the authorization
    layer read before: with enforcement on, an update whose group was deleted in
    between is not refused but brings the group back. *)
Theorem stale_update_revives_group :
  let deleted := (deleteGroup "acme" "dev" dev_org).2 in
  let body := "{" +:+ print_string id "groupname" +:+ ":" +:+ print_string id "dev" +:+ "}" in
  let pre := mkPreread "acme" "groups" "dev" (groupJSON "dev" "" ["bob"] [] []) in
  dev_after (deleteGroup "acme" "dev" dev_org) = (200%Z, false) ∧
  dev_after (putGroup (dev_request "PUT" body None) "acme" "dev" deleted) = (404%Z, false) ∧
  dev_after (putGroup (dev_request "PUT" body (Some pre)) "acme" "dev" deleted) = (200%Z, true).
Proof. vm_compute. done. Qed.
