(* ===== verification/Classify.v ===== *)
(** * Which authorization a request needs (authz_enforce.go, failclosed.go)

    [classifyRequest] and the classifiers it calls, the declared open writes,
    and the routes the server registers (every register*Routes function of
    internal/api), with the matching of a request against them. *)
From S2P Require Import Prelude Groups Acl.
#[local] Open Scope go_scope.

(** [strings.Split(strings.Trim(path, "/"), "/")]. *)
Definition path_parts (path : string) : list string := split_on "/" (trim "/" path).

Definition is_read (method : string) : bool := bool_decide (method = "GET" ∨ method = "HEAD").

(** ** Classification (authz_enforce.go) *)

Record authzCheck := mkCheck {
  aclType : string; aclName : string; perm : string;
  existColl : string; existKey : string; existMsg : string;
  global : bool;
  superuserOnly : bool;
  allowSelf : string;
  aclEndpoint : bool;
}.

(** [&authzCheck{aclType: t, aclName: n, perm: p}]. *)
Definition on_object (t n p : string) : authzCheck := mkCheck t n p "" "" "" false false "" false.
(** [&authzCheck{superuserOnly: true, perm: p, allowSelf: self}]. *)
Definition superuser (p self : string) : authzCheck := mkCheck "" "" p "" "" "" false true self false.
(** [&authzCheck{aclType: t, aclName: n, perm: "grant", aclEndpoint: true}]. *)
Definition acl_endpoint (g : bool) (t n : string) : authzCheck := mkCheck t n "grant" "" "" "" g false "" true.
(** The existence check a classifier adds. *)
Definition with_exist (c : authzCheck) (coll key msg : string) : authzCheck :=
  mkCheck (aclType c) (aclName c) (perm c) coll key msg (global c) (superuserOnly c) (allowSelf c) (aclEndpoint c).
Definition with_self (c : authzCheck) (self : string) : authzCheck :=
  mkCheck (aclType c) (aclName c) (perm c) (existColl c) (existKey c) (existMsg c)
    (global c) (superuserOnly c) self (aclEndpoint c).

Definition enforceSegs : list string :=
  ["nodes"; "roles"; "environments"; "clients"; "groups"; "containers"; "policies"; "policy_groups"].

Definition existenceSegs : list string :=
  ["nodes"; "roles"; "environments"; "clients"; "groups"; "containers"].

Definition itemPerm (method : string) : option string :=
  if decide (method = "GET" ∨ method = "HEAD") then Some "read"
  else if decide (method = "PUT") then Some "update"
  else if decide (method = "DELETE") then Some "delete"
  else None.

Definition userKeyPerm (method : string) : option string :=
  if decide (method = "POST") then Some "create" else itemPerm method.

Definition assocColl : string := "association_users".

Definition classifyOrgMembership (method org : string) (rest : list string) : option authzCheck :=
  if decide (method ∉ ["POST"; "PUT"; "DELETE"]) then None
  else if decide (2 < length rest) then None
  else
    let c := on_object "organizations" org "update" in
    match rest with
    | [seg] => if decide (seg = "users" ∧ method = "POST") then Some (superuser "create" "") else Some c
    | [seg; user] =>
        if decide (seg = "users" ∧ method = "DELETE") then
          Some (with_exist (with_self c user) assocColl user
                  ("Cannot find user " +:+ user +:+ " in organization " +:+ org))
        else Some c
    | _ => Some c
    end.

Definition classifyUsers (method : string) (rest : list string) : option authzCheck :=
  match rest with
  | [] =>
      if is_read method then Some (superuser "read" "")
      else if decide (method = "POST") then Some (superuser "create" "")
      else None
  | [name] => (λ p, superuser p name) <$> itemPerm method
  | name :: sub :: _ =>
      if decide (sub = "_acl") then Some (acl_endpoint true "users" name)
      else if decide (sub = "keys") then (λ p, superuser p name) <$> userKeyPerm method
      else None
  end.

Definition classifySubResource (method seg : string) (rest : list string) : option authzCheck :=
  match rest with
  | _ :: name :: sub :: _ =>
      let on p := Some (on_object seg name (if is_read method then "read" else p)) in
      if decide (sub = "keys") then on "update"
      else if decide (seg = "policies" ∧ sub = "revisions") then
        on (if decide (method = "DELETE") then "delete" else "update")
      else if decide (seg = "policy_groups" ∧ sub = "policies") then on "update"
      else None
  | _ => None
  end.

Definition classifyGeneric (method seg : string) (rest : list string) (read : bool) : option authzCheck :=
  match rest with
  | [_] =>
      if read then Some (on_object "containers" seg "read")
      else if decide (method = "POST") then Some (on_object "containers" seg "create")
      else classifySubResource method seg rest
  | [_; name] =>
      match itemPerm method with
      | None => None
      | Some p =>
          let c := on_object seg name p in
          Some (if contains_str existenceSegs seg
                then with_exist c seg name ("Cannot find " +:+ seg +:+ " " +:+ name) else c)
      end
  | _ => classifySubResource method seg rest
  end.

Definition classifyCookbook (method seg : string) (rest : list string) (read : bool) : option authzCheck :=
  match rest with
  | [_] => if read then Some (on_object "containers" seg "read") else None
  | [_; name] =>
      if has_prefix "_" name then (if read then Some (on_object "containers" seg "read") else None)
      else if read then Some (on_object seg name "read") else None
  | [_; name; _] => (λ p, on_object seg name p) <$> itemPerm method
  | _ => None
  end.

(** The method tables of the bag and of its items. *)
Definition bagPerm (method : string) : option string :=
  if is_read method then Some "read"
  else if decide (method = "POST") then Some "update"
  else if decide (method = "DELETE") then Some "delete" else None.
Definition bagItemPerm (method : string) : option string :=
  if is_read method then Some "read"
  else if decide (method = "PUT" ∨ method = "DELETE") then Some "update" else None.

Definition classifyDataBag (method : string) (rest : list string) (read : bool) : option authzCheck :=
  let bag_check bag p :=
    with_exist (on_object "data" bag p) dataBagsColl bag ("Cannot find data bag " +:+ bag) in
  match rest with
  | [_] =>
      if read then Some (on_object "containers" "data" "read")
      else if decide (method = "POST") then Some (on_object "containers" "data" "create")
      else None
  | [_; bag] => bag_check bag <$> bagPerm method
  | [_; bag; _] => bag_check bag <$> bagItemPerm method
  | _ => None
  end.

(** [slices.Index(rest, "_acl")]: what stands before the first one. *)
Fixpoint before_acl (rest : list string) : option (list string) :=
  match rest with
  | [] => None
  | s :: rest' => if decide (s = "_acl") then Some [] else cons s <$> before_acl rest'
  end.

(** The part of [classifyRequest] below /organizations/{org}. *)
Definition classifyOrg (method org : string) (rest : list string) : option authzCheck :=
  let read := is_read method in
  match before_acl rest with
  | Some [seg] =>
      if decide (seg = "organizations") then Some (on_object "organizations" org "grant") else None
  | Some [t; n] => Some (acl_endpoint false t n)
  | Some _ => None
  | None =>
      match rest with
      | [] =>
          match itemPerm method with
          | None => None
          | Some p =>
              if decide (method = "PUT" ∨ method = "DELETE") then Some (superuser p "")
              else Some (on_object "organizations" org p)
          end
      | seg :: _ =>
          if decide (seg = "data") then classifyDataBag method rest read
          else if decide (seg = "cookbooks" ∨ seg = "cookbook_artifacts") then
            classifyCookbook method seg rest read
          else if decide (seg = "users" ∨ seg = "association_requests") then
            classifyOrgMembership method org rest
          else if contains_str enforceSegs seg then classifyGeneric method seg rest read
          else None
      end
  end.

Definition classifyParts (method : string) (parts : list string) : option authzCheck :=
  match parts with
  | p0 :: more =>
      if decide (p0 = "users") then classifyUsers method more
      else if decide (p0 = "organizations") then
        match more with
        | [] => if decide (method = "POST") then Some (superuser "create" "") else None
        | org :: rest => if decide (org = "") then None else classifyOrg method org rest
        end
      else None
  | [] => None
  end.

Definition classifyRequest (method path : string) : option authzCheck :=
  classifyParts method (path_parts path).

(** ** Open writes (failclosed.go) *)

Definition mutatingMethod (method : string) : bool :=
  bool_decide (method ∈ ["POST"; "PUT"; "DELETE"; "PATCH"]).

(** Method and prefix; the reason, a text, is left out. *)
Definition openWrites : list (string * string) :=
  [("POST", "/authenticate_user");
   ("POST", "/organizations/{org}/sandboxes");
   ("PUT", "/organizations/{org}/sandboxes/");
   ("PUT", "/organizations/{org}/file_store/");
   ("POST", "/organizations/{org}/search/");
   ("PUT", "/users/{user}/association_requests/");
   ("POST", "/organizations/{org}/environments/")].

Definition is_wildcard (want : string) : bool := has_prefix "{" want && has_suffix "}" want.

(** The segments of a declared prefix against those of a path, over the length
    of the prefix. *)
Fixpoint segs_match (want have : list string) : bool :=
  match want, have with
  | [], _ => true
  | w :: want', h :: have' => (is_wildcard w || bool_decide (h = w)) && segs_match want' have'
  | _ :: _, [] => false
  end.

Definition matchesRoutePrefix (prefix path : string) : bool :=
  let pParts := path_parts prefix in
  let aParts := path_parts path in
  if decide (length aParts < length pParts) then false
  else if segs_match pParts aParts then
    has_suffix "/" prefix || bool_decide (length aParts = length pParts)
  else false.

Definition openWrite (method path : string) : bool :=
  existsb (λ o : string * string, bool_decide (o.1 = method) && matchesRoutePrefix o.2 path) openWrites.

(** ** The registered routes *)

(** A registered pattern: its method and path. *)
Abbreviation route := (string * string)%type.

Definition registerSystemRoutes : list route := [("GET", "/_status")].

Definition registerObjectRoutes (segment : string) : list route :=
  let base := "/organizations/{org}/" +:+ segment in
  [("GET", base); ("POST", base); ("GET", base +:+ "/{name}"); ("PUT", base +:+ "/{name}");
   ("DELETE", base +:+ "/{name}"); ("HEAD", base +:+ "/{name}")].

Definition registerEnvironmentRoutes : list route :=
  let base := "/organizations/{org}/environments/_default" in
  registerObjectRoutes "environments" ++ [("PUT", base); ("DELETE", base)].

Definition registerEnvironmentSubRoutes : list route :=
  let e := "/organizations/{org}/environments/{env}" in
  let r := "/organizations/{org}/roles/{role}" in
  [("GET", e +:+ "/cookbooks"); ("GET", e +:+ "/cookbooks/{name}"); ("POST", e +:+ "/cookbook_versions");
   ("GET", e +:+ "/recipes"); ("GET", e +:+ "/nodes"); ("GET", e +:+ "/roles/{role}");
   ("GET", r +:+ "/environments"); ("GET", r +:+ "/environments/{env}")].

Definition registerActorRoutes (prefix segment : string) : list route :=
  let base := prefix +:+ segment in
  [("GET", base); ("POST", base); ("GET", base +:+ "/{name}"); ("PUT", base +:+ "/{name}");
   ("DELETE", base +:+ "/{name}")].

Definition registerKeyRoutes (prefix segment : string) : list route :=
  let base := prefix +:+ segment +:+ "/{name}/keys" in
  [("GET", base); ("POST", base); ("GET", base +:+ "/{key}"); ("PUT", base +:+ "/{key}");
   ("DELETE", base +:+ "/{key}")].

Definition registerDataBagRoutes : list route :=
  let base := "/organizations/{org}/data" in
  [("GET", base); ("POST", base); ("GET", base +:+ "/{bag}"); ("POST", base +:+ "/{bag}");
   ("DELETE", base +:+ "/{bag}"); ("GET", base +:+ "/{bag}/{item}"); ("PUT", base +:+ "/{bag}/{item}");
   ("DELETE", base +:+ "/{bag}/{item}")].

Definition registerFileStoreRoutes : list route :=
  let base := "/organizations/{org}/file_store/{checksum}" in [("PUT", base); ("GET", base)].

Definition registerSandboxRoutes : list route :=
  [("POST", "/organizations/{org}/sandboxes"); ("PUT", "/organizations/{org}/sandboxes/{id}")].

Definition registerCookbookRoutes : list route :=
  let base := "/organizations/{org}/cookbooks" in
  registerFileStoreRoutes ++ registerSandboxRoutes ++
  [("GET", base); ("GET", base +:+ "/_latest"); ("GET", base +:+ "/_recipes"); ("GET", base +:+ "/{name}");
   ("GET", base +:+ "/{name}/{version}"); ("PUT", base +:+ "/{name}/{version}");
   ("DELETE", base +:+ "/{name}/{version}"); ("GET", "/organizations/{org}/universe")].

Definition registerCookbookArtifactRoutes : list route :=
  let base := "/organizations/{org}/cookbook_artifacts" in
  [("GET", base); ("GET", base +:+ "/{name}"); ("GET", base +:+ "/{name}/{identifier}");
   ("PUT", base +:+ "/{name}/{identifier}"); ("DELETE", base +:+ "/{name}/{identifier}")].

Definition registerSearchRoutes : list route :=
  [("GET", "/organizations/{org}/search"); ("GET", "/organizations/{org}/search/{index}");
   ("POST", "/organizations/{org}/search/{index}")].

Definition registerACLRoutes : list route :=
  concat (map (λ typ, let base := "/organizations/{org}/" +:+ typ +:+ "/{name}/_acl" in
                [("GET", base); ("GET", base +:+ "/{perm}"); ("PUT", base +:+ "/{perm}")]) aclObjectTypes) ++
  [("GET", "/organizations/{org}/organizations/_acl"); ("GET", "/organizations/{org}/organizations/_acl/{perm}");
   ("PUT", "/organizations/{org}/organizations/_acl/{perm}");
   ("GET", "/users/{name}/_acl"); ("GET", "/users/{name}/_acl/{perm}"); ("PUT", "/users/{name}/_acl/{perm}")].

Definition registerAuthenticateRoutes : list route := [("POST", "/authenticate_user")].

Definition registerAssociationRoutes : list route :=
  [("GET", "/organizations/{org}/users"); ("POST", "/organizations/{org}/users");
   ("GET", "/organizations/{org}/users/{user}"); ("DELETE", "/organizations/{org}/users/{user}");
   ("GET", "/users/{user}/organizations")].

Definition registerAssociationRequestRoutes : list route :=
  [("GET", "/organizations/{org}/association_requests"); ("POST", "/organizations/{org}/association_requests");
   ("DELETE", "/organizations/{org}/association_requests/{id}");
   ("GET", "/users/{user}/association_requests"); ("GET", "/users/{user}/association_requests/count");
   ("PUT", "/users/{user}/association_requests/{id}")].

Definition registerPolicyRoutes : list route :=
  let o := "/organizations/{org}" in
  [("GET", o +:+ "/policies"); ("GET", o +:+ "/policies/{name}"); ("DELETE", o +:+ "/policies/{name}");
   ("GET", o +:+ "/policies/{name}/revisions/{rev}"); ("POST", o +:+ "/policies/{name}/revisions");
   ("DELETE", o +:+ "/policies/{name}/revisions/{rev}");
   ("GET", o +:+ "/policy_groups"); ("GET", o +:+ "/policy_groups/{group}");
   ("DELETE", o +:+ "/policy_groups/{group}"); ("GET", o +:+ "/policy_groups/{group}/policies/{policy}");
   ("PUT", o +:+ "/policy_groups/{group}/policies/{policy}");
   ("DELETE", o +:+ "/policy_groups/{group}/policies/{policy}")].

Definition registerOrganizationRoutes : list route :=
  [("GET", "/organizations"); ("POST", "/organizations"); ("GET", "/organizations/{org}");
   ("PUT", "/organizations/{org}"); ("DELETE", "/organizations/{org}")].

Definition registerAuthzRoutes : list route :=
  let groups := "/organizations/{org}/groups" in
  let base := "/organizations/{org}/containers" in
  [("GET", groups); ("POST", groups); ("GET", groups +:+ "/{name}"); ("PUT", groups +:+ "/{name}");
   ("DELETE", groups +:+ "/{name}"); ("HEAD", groups +:+ "/{name}");
   ("GET", base); ("GET", base +:+ "/{name}"); ("POST", base); ("DELETE", base +:+ "/{name}")].

Definition registerServerEndpoints : list route :=
  [("GET", "/_stats"); ("GET", "/license"); ("GET", "/server_api_version");
   ("GET", "/organizations/{org}/required_recipe"); ("GET", "/organizations/{org}/principals/{name}")].

(** [API.routes], in the order [API.Handler] registers them. *)
Definition routes : list route :=
  registerSystemRoutes ++ registerObjectRoutes "nodes" ++ registerObjectRoutes "roles" ++
  registerEnvironmentRoutes ++ registerEnvironmentSubRoutes ++
  registerActorRoutes "/organizations/{org}/" "clients" ++ registerActorRoutes "/" "users" ++
  registerKeyRoutes "/organizations/{org}/" "clients" ++ registerKeyRoutes "/" "users" ++
  registerDataBagRoutes ++ registerCookbookRoutes ++ registerCookbookArtifactRoutes ++
  registerSearchRoutes ++ registerACLRoutes ++ registerAuthenticateRoutes ++
  registerAssociationRoutes ++ registerAssociationRequestRoutes ++ registerPolicyRoutes ++
  registerOrganizationRoutes ++ registerAuthzRoutes ++ registerServerEndpoints.

(** ** Matching a request (net/http.ServeMux) *)

(** A wildcard takes one non-empty segment. *)
Fixpoint route_segs (pattern have : list string) : bool :=
  match pattern, have with
  | [], [] => true
  | w :: pattern', h :: have' =>
      (if is_wildcard w then bool_decide (h ≠ "") else bool_decide (h = w)) && route_segs pattern' have'
  | _, _ => false
  end.

(** The segments of the cleaned path. *)
Definition clean_segs (segs : list string) : list string :=
  rev (foldl (λ acc s, if decide (s = "" ∨ s = ".") then acc
                       else if decide (s = "..") then tail acc else s :: acc) [] segs).

(** A pattern registered for GET serves HEAD; a trailing slash survives the
    cleaning and no pattern ends in one. *)
Definition routeMatched (method path : string) : bool :=
  negb (has_suffix "/" path) &&
  existsb (λ rt : route, (bool_decide (rt.1 = method) || (bool_decide (rt.1 = "GET") && bool_decide (method = "HEAD")))
                 && route_segs (path_parts rt.2) (clean_segs (split_on "/" path))) routes.

Definition refuseUnclassifiedWrite (method path : string) : bool :=
  mutatingMethod method && negb (openWrite method path) && routeMatched method path.

Definition withoutTrailingSlash (p : string) : string :=
  if decide (String.length p ≤ 1) then p
  else if has_suffix "/" p then
    let q := trim_right "/" p in if decide (q = "") then "/" else q
  else p.

(** ** Paths and their segments *)

Definition path_of (segs : list string) : string := "/" +:+ join "/" segs.

(** A value a path carries between two slashes. *)
Definition segment (s : string) : Prop := s ≠ "" ∧ ¬ str_in "/" s.

Lemma str_in_rev c s : str_in c (str_rev s) ↔ str_in c s.
Proof.
  induction s as [|d s IH]; [done|]. rewrite str_rev_cons, str_in_app, IH. simpl. tauto.
Qed.

Lemma segment_head s : segment s → ∃ d s', s = String d s' ∧ d ≠ "/"%char.
Proof. intros [Hne Hn]. destruct s as [|d s]; [done|]. exists d, s. split; [done|]. intros ->. by destruct Hn; left. Qed.

Lemma segment_rev s : segment s → segment (str_rev s).
Proof.
  intros [Hne Hn]. split; [|by rewrite str_in_rev].
  intros E. apply Hne. rewrite <-(str_rev_involutive s), E. done.
Qed.

Lemma join_segs sep w w' ws : join sep (w :: w' :: ws) = w +:+ sep +:+ join sep (w' :: ws).
Proof. done. Qed.

Lemma join_head w ws : segment w → ∃ d s, join "/" (w :: ws) = String d s ∧ d ≠ "/"%char.
Proof.
  intros (d & s & -> & Hd)%segment_head. destruct ws; [eauto|]. rewrite join_segs. simpl. eauto.
Qed.

Lemma join_last w ws : Forall segment (w :: ws) →
  ∃ d s, str_rev (join "/" (w :: ws)) = String d s ∧ d ≠ "/"%char.
Proof.
  revert w. induction ws as [|w' ws IH]; intros w Hf.
  - apply Forall_cons in Hf as [Hw _]. by apply segment_head, segment_rev.
  - apply Forall_cons in Hf as [_ Hf]. destruct (IH w' Hf) as (d & s & E & Hd).
    rewrite join_segs, !str_rev_app_str, E. simpl. eauto.
Qed.

Lemma split_join w ws : Forall segment (w :: ws) → split_on "/" (join "/" (w :: ws)) = w :: ws.
Proof.
  intros Hf. apply split_on_join; [done|]. eapply Forall_impl; [exact Hf|]. by intros v [_ ?].
Qed.

Lemma path_parts_of w ws : Forall segment (w :: ws) → path_parts (path_of (w :: ws)) = w :: ws.
Proof.
  intros Hf. unfold path_parts, path_of, trim.
  destruct (join_head w ws) as (d & s & E & Hd); [by inversion Hf|].
  destruct (join_last w ws Hf) as (d' & s' & E' & Hd').
  rewrite <-(split_join w ws) at 2 by done. f_equal.
  cbn [String.append trim_left]. rewrite decide_True by done.
  rewrite E. cbn [trim_left]. rewrite decide_False by done. rewrite <-E, E'.
  cbn [trim_left]. rewrite decide_False by done. by rewrite <-E', str_rev_involutive.
Qed.

(** ** Every mutating route is decided *)

(** The paths that reach a pattern: a wildcard takes any segment. *)
Fixpoint fills (pattern segs : list string) : Prop :=
  match pattern, segs with
  | [], [] => True
  | w :: pattern', v :: segs' => (if is_wildcard w then segment v else v = w) ∧ fills pattern' segs'
  | _, _ => False
  end.

(** No wildcard is given the name of the ACL sub-resource; see [acl_name_escapes]. *)
Fixpoint acl_free (pattern segs : list string) : Prop :=
  match pattern, segs with
  | w :: pattern', v :: segs' => (is_wildcard w = true → v ≠ "_acl") ∧ acl_free pattern' segs'
  | _, _ => True
  end.

(** The router cleans a path with dot segments first. *)
Definition undotted (v : string) : Prop := v ≠ "." ∧ v ≠ "..".

(** The mutating routes that no classifier covers. *)
Definition open_routes : list route :=
  [("POST", "/organizations/{org}/environments/{env}/cookbook_versions");
   ("PUT", "/organizations/{org}/file_store/{checksum}");
   ("POST", "/organizations/{org}/sandboxes");
   ("PUT", "/organizations/{org}/sandboxes/{id}");
   ("POST", "/organizations/{org}/search/{index}");
   ("POST", "/authenticate_user");
   ("PUT", "/users/{user}/association_requests/{id}")].

Definition decided (rt : route) : Prop := ∀ segs,
  mutatingMethod rt.1 = true → fills (path_parts rt.2) segs → acl_free (path_parts rt.2) segs →
  if decide (rt ∈ open_routes) then classifyRequest rt.1 (path_of segs) = None
  else is_Some (classifyRequest rt.1 (path_of segs)).

(** With any values: a declared route is open, and no other is. *)
Definition closed_unless_open (rt : route) : Prop := ∀ segs,
  mutatingMethod rt.1 = true → fills (path_parts rt.2) segs →
  if decide (rt ∈ open_routes) then openWrite rt.1 (path_of segs) = true
  else is_Some (classifyRequest rt.1 (path_of segs)) ∨ openWrite rt.1 (path_of segs) = false.

(** Takes the segments of a request apart along a closed pattern. *)
Ltac open_fills :=
  repeat match goal with
  | H : fills (?w :: ?p) ?segs |- _ =>
      let v := fresh "v" in let t := fresh "segs" in
      let b := eval vm_compute in (is_wildcard w) in
      destruct segs as [|v t]; [destruct H|];
      lazymatch b with
      | true => change (fills (w :: p) (v :: t)) with (segment v ∧ fills p t) in H;
                destruct H as [? H]
      | false => change (fills (w :: p) (v :: t)) with (v = w ∧ fills p t) in H; destruct H as [-> H]
      end;
      try match goal with Ha : acl_free (w :: p) (_ :: t) |- _ =>
        let Hv := fresh "Hv" in destruct Ha as [Hv Ha];
        lazymatch b with true => specialize (Hv eq_refl) | false => clear Hv end end
  | H : fills [] ?segs |- _ => destruct segs; [clear H | destruct H]
  end.

Ltac segment_lit := split; [discriminate | apply (bool_decide_unpack _); vm_compute; exact I].

(** Runs a classifier on segments some of which are variables. *)
Ltac run_decides :=
  repeat (unfold classifyOrg, classifyDataBag, classifyCookbook, classifyOrgMembership, classifyGeneric,
            classifySubResource, classifyUsers, itemPerm, userKeyPerm, bagPerm, bagItemPerm; cbn;
          match goal with |- context [decide ?P] =>
    first [rewrite (decide_True (P:=P)) by (done || tauto)
          |rewrite (decide_False (P:=P)) by (done || intuition discriminate)] end); cbn.

Ltac decide_route :=
  intros segs Hm Hf; cbn [fst snd] in *; first [discriminate Hm | clear Hm];
  match type of Hf with fills ?p _ =>
    let p' := eval vm_compute in p in change p with p' in * end;
  try intros Ha; open_fills;
  match goal with |- context [path_of ?l] =>
    assert (path_parts (path_of l) = l) as Hp
      by (apply path_parts_of; repeat (apply Forall_cons; split; [first [assumption | segment_lit]|]);
          apply Forall_nil_2) end;
  repeat match goal with H : segment _ |- _ => destruct H end.

Ltac solve_closed := apply (bool_decide_unpack _); vm_compute; exact I.

Lemma routes_decided : Forall decided routes.
Proof.
  let l := eval vm_compute in routes in change routes with l.
  repeat (apply Forall_cons; split;
    [decide_route;
     unfold classifyRequest; rewrite Hp;
     first [rewrite decide_False by solve_closed; run_decides; eexists; reflexivity
           |rewrite decide_True by solve_closed; run_decides; reflexivity]|]).
  apply Forall_nil_2.
Qed.

Lemma routes_closed : Forall closed_unless_open routes.
Proof.
  let l := eval vm_compute in routes in change routes with l.
  repeat (apply Forall_cons; split;
    [decide_route;
     unfold classifyRequest, openWrite, matchesRoutePrefix; rewrite Hp;
     first [rewrite decide_False by solve_closed; right; vm_compute; reflexivity
           |rewrite decide_False by solve_closed; left; run_decides; eexists; reflexivity
           |rewrite decide_True by solve_closed; vm_compute; reflexivity]|]).
  apply Forall_nil_2.
Qed.

(** ** The router reaches the route *)

Lemma fills_segments p segs : Forall segment (List.filter (negb ∘ is_wildcard) p) → fills p segs → Forall segment segs.
Proof.
  revert segs. induction p as [|w p IH]; intros [|v segs] Hp Hf; try done. cbn in Hp, Hf.
  destruct (is_wildcard w); cbn in Hp; destruct Hf as [Hv Hf].
  - constructor; [done|]. by apply IH.
  - apply Forall_cons in Hp as [Hw Hp]. subst v. constructor; [done|]. by apply IH.
Qed.

Lemma fills_route_segs p segs : fills p segs → route_segs p segs = true.
Proof.
  revert segs. induction p as [|w p IH]; intros [|v segs] Hf; try done. cbn in Hf |- *. destruct Hf as [Hv Hf].
  rewrite (IH _ Hf), andb_true_r. destruct (is_wildcard w); [|by apply bool_decide_eq_true].
  apply bool_decide_eq_true. apply Hv.
Qed.

Lemma clean_plain segs : Forall segment segs → Forall undotted segs → clean_segs segs = segs.
Proof.
  intros Hs Hd. unfold clean_segs.
  assert (∀ acc, foldl (λ acc s, if decide (s = "" ∨ s = ".") then acc
    else if decide (s = "..") then tail acc else s :: acc) acc segs = rev segs ++ acc) as ->.
  { revert Hd. induction Hs as [|v segs [Hv _] Hs IH]; intros Hd acc; [done|].
    apply Forall_cons in Hd as [[H1 H2] Hd]. cbn [foldl]. rewrite !decide_False by tauto. rewrite (IH Hd).
    cbn [rev]. by rewrite <-app_assoc. }
  by rewrite app_nil_r, rev_involutive.
Qed.

Lemma routeMatched_fills rt w segs : rt ∈ routes → Forall segment (w :: segs) → Forall undotted (w :: segs) →
  fills (path_parts rt.2) (w :: segs) → routeMatched rt.1 (path_of (w :: segs)) = true.
Proof.
  intros Hr Hs Hd Hf. unfold routeMatched. apply andb_true_iff. split.
  - apply negb_true_iff, not_true_iff_false. unfold has_suffix, path_of. destruct (join_last w segs Hs) as (d & s & E & Hne).
    rewrite str_rev_app_str, E, has_prefix_true. intros [t Ht]. injection Ht as -> _. done.
  - apply existsb_exists. exists rt. split; [by apply list_elem_of_In|].
    rewrite bool_decide_eq_true_2 by done. cbn [orb andb]. unfold path_of. cbn [String.append split_on].
    rewrite decide_True, (split_join w segs Hs) by done.
    assert (clean_segs ("" :: w :: segs) = w :: segs) as ->; [|by apply fills_route_segs].
    rewrite <-(clean_plain (w :: segs)) at 2 by done. done.
Qed.

(** The literals of the registered patterns are segments. *)
Lemma route_literals : Forall (λ rt : route, path_parts rt.2 ≠ [] ∧
  Forall segment (List.filter (negb ∘ is_wildcard) (path_parts rt.2))) routes.
Proof. apply (bool_decide_unpack _). vm_compute. exact I. Qed.

(** C9. No mutating request is undecided. Take a registered mutating route and a
    request that fills its wildcards with any path segments (text between
    slashes; a value that holds an encoded slash is not covered). One of the
    seven routes declared open is named by [openWrites]. Any other request is
    classified, so an ACL or the superuser gate governs it, or it is refused as
    an unclassified write (paths with dot segments, which the router redirects,
    aside). And it is the classification that decides whenever no wildcard is
    given the value "_acl", the name of the ACL sub-resource: then every route
    that is not open is classified and the open ones are not
    ([acl_name_escapes] is what happens with that value). *)
Theorem mutating_routes_decided (rt : route) (segs : list string) :
  rt ∈ routes → mutatingMethod rt.1 = true → fills (path_parts rt.2) segs →
  if decide (rt ∈ open_routes)
  then openWrite rt.1 (path_of segs) = true ∧
       (acl_free (path_parts rt.2) segs → classifyRequest rt.1 (path_of segs) = None)
  else (is_Some (classifyRequest rt.1 (path_of segs)) ∨
        (Forall undotted segs → refuseUnclassifiedWrite rt.1 (path_of segs) = true)) ∧
       (acl_free (path_parts rt.2) segs → is_Some (classifyRequest rt.1 (path_of segs))).
Proof.
  intros Hr Hm Hf. pose proof routes_decided as Hd. rewrite Forall_forall in Hd. specialize (Hd rt Hr segs Hm Hf).
  pose proof routes_closed as Hc. rewrite Forall_forall in Hc. specialize (Hc rt Hr segs Hm Hf).
  pose proof route_literals as Hl. rewrite Forall_forall in Hl. destruct (Hl rt Hr) as [Hne Hl'].
  case_decide; split; [done..| |done]. destruct Hc as [Hc|Hc]; [by left|right]. intros Hu.
  unfold refuseUnclassifiedWrite. rewrite Hm, Hc. cbn [andb negb].
  destruct segs as [|w segs]; [by destruct (path_parts rt.2)|]. apply routeMatched_fills; try done. by eapply fills_segments.
Qed.

(** A name like any other, and the name that collides. *)
Lemma mutating_routes_decided_witness :
  is_Some (classifyRequest "DELETE" (path_of ["organizations"; "acme"; "nodes"; "web01"])) ∧
  refuseUnclassifiedWrite "DELETE" (path_of ["organizations"; "acme"; "nodes"; "_acl"]) = true.
Proof.
  split.
  - refine (proj2 (mutating_routes_decided ("DELETE", "/organizations/{org}/nodes/{name}")
              ["organizations"; "acme"; "nodes"; "web01"] _ _ _) _); [solve_closed|reflexivity| |];
      repeat split; try discriminate; solve_closed.
  - destruct (mutating_routes_decided ("DELETE", "/organizations/{org}/nodes/{name}")
                ["organizations"; "acme"; "nodes"; "_acl"]) as [[[x Hx]|Hr] _]; [solve_closed|reflexivity| | |].
    + repeat split; try discriminate; solve_closed.
    + vm_compute in Hx. discriminate Hx.
    + apply Hr. repeat constructor; discriminate.
Defined.

(** A name that collides with the ACL sub-resource takes its object out of
    authorization: the routes that read a data bag, a role or a key called
    [_acl] are registered but classified by nothing, so a read is let through
    with no ACL consulted, and a write to one is refused to everyone but the
    superuser. *)
Theorem acl_name_escapes :
  Forall (λ path, routeMatched "GET" path = true ∧ classifyRequest "GET" path = None ∧
                  refuseUnclassifiedWrite "GET" path = false)
    ["/organizations/acme/data/_acl/item"; "/organizations/acme/roles/_acl";
     "/organizations/acme/clients/web01/keys/_acl"] ∧
  Forall (λ path, classifyRequest "PUT" path = None ∧ refuseUnclassifiedWrite "PUT" path = true)
    ["/organizations/acme/data/_acl/item"; "/organizations/acme/roles/_acl";
     "/organizations/acme/clients/web01/keys/_acl"].
Proof. repeat constructor. Qed.
