(* ===== verification/Authz.v ===== *)
(** * Authorization (internal/api/authz_enforce.go, search.go)

    Evaluating an ACL for an actor, the middleware that lets a request through
    or refuses it, and the filter that drops search results an actor may not
    read. *)
From S2P Require Import Prelude GoText Json Chefjson Float GoJson Store Facade Groups Http Acl Classify.
#[local] Open Scope go_scope.
#[local] Open Scope http_scope.

(** ** Evaluating an entry *)

Definition aceAllows (entry : option value) (actor : Actor) (member : gset string) : bool :=
  match entry with
  | Some (VObj ms) =>
      contains_str (any_member ms "actors") (a_name actor) ||
      existsb (λ g, bool_decide (g ∈ member)) (any_member ms "groups")
  | _ => false
  end.

Section Ops.
Context {B : Type} `{Backend B}.

(** The groups of an actor are asked for only when the entry does not settle
    the matter without them. *)
Definition allowedWith {O} (groupsOf : string → Actor → ST (Store B O) (option (gset string)))
    (org : string) (actor : Actor) (typ name perm : string) : ST (Store B O) bool :=
  let! a := loadACL org typ name in
  match ace_of a perm with
  | None => st_ret false
  | Some entry =>
      if contains_str (any_member entry "actors") (a_name actor) then st_ret true
      else if decide (any_member entry "groups" = []) then st_ret false
      else
        let! member := groupsOf org actor in
        st_ret (aceAllows (Some (VObj entry)) actor (default ∅ member))
  end.

Definition actorAllowed {O} (org : string) (actor : Actor) (typ name perm : string) : ST (Store B O) bool :=
  allowedWith actorGroups org actor typ name perm.

Abbreviation server := (Store B groupIndexCache).

Definition API_actorAllowed (org : string) (actor : Actor) (typ name perm : string) : ST server bool :=
  allowedWith API_actorGroups org actor typ name perm.

(** ** The middleware *)

Definition missing (perm : string) : reply := writeError 403 ["missing " +:+ perm +:+ " permission"].

(** The existence check, and the bytes it hands forward. *)
Definition authorize_exist (r : request) (c : authzCheck) (org : string) : handler server request :=
  if decide (existColl c = "") then h_ret r
  else
    let? raw := or_500 (Org_Get org (existColl c) (existKey c)) in
    match raw with
    | None => h_reply (writeError 404 [existMsg c])
    | Some raw => h_ret (withPreread r org (existColl c) (existKey c) raw)
    end.

Definition authorize_endpoint (c : authzCheck) (org : string) : handler server unit :=
  if aclEndpoint c then
    let? ok := or_500 (aclObjectExists org (aclType c) (aclName c)) in
    if ok : bool then h_ret tt
    else h_reply (writeError 404 ["Cannot find " +:+ aclType c +:+ " " +:+ aclName c])
  else h_ret tt.

(** The checks that need a space. *)
Definition authorize_in (r : request) (actor : Actor) (c : authzCheck) (org : string) : handler server request :=
  let? r' := authorize_exist r c org in
  authorize_endpoint c org ;;?
  let? allowed := or_500 (API_actorAllowed org actor (aclType c) (aclName c) (perm c)) in
  if allowed : bool then h_ret r' else h_reply (missing (perm c)).

Definition authorize (r : request) : handler server request :=
  match r_actor r with
  | None => h_ret r
  | Some actor =>
      if IsGlobalAdmin actor then h_ret r
      else
        match classifyRequest (r_method r) (r_path r) with
        | None =>
            if refuseUnclassifiedWrite (r_method r) (r_path r)
            then h_reply (writeError 403 ["missing permission"]) else h_ret r
        | Some c =>
            if decide (allowSelf c ≠ "" ∧ a_name actor = allowSelf c) then h_ret r
            else if superuserOnly c then h_reply (missing (perm c))
            else if global c then authorize_in r actor c Global
            else
              let? o := or_500 (Store_Org (nth 1 (path_parts (r_path r)) "")) in
              match o with
              | None => h_ret r
              | Some org => authorize_in r actor c org
              end
        end
  end.
End Ops.

(** ** Who holds a permission *)

Definition actor_kind (actor : Actor) : string := if IsClient actor then memberClients else memberUsers.

(** The stored groups put the actor in [g]: directly, or in a group it nests. *)
Definition in_group (objs : objects) (org : string) (actor : Actor) (g : string) : Prop :=
  ∃ d, declared (docs_of org objs) (rows_of org objs) (actor_kind actor) (a_name actor) d ∧
       rtc (λ x y, declared (docs_of org objs) (rows_of org objs) memberGroups x y) d g.

(** The ACL in force names the actor, or a group it is in. *)
Definition granted (objs : objects) (org : string) (actor : Actor) (typ name perm : string) : Prop :=
  ∃ entry, ace_of (effective typ name (objs !! (org, "acls", aclKey typ name))) perm = Some entry ∧
    (a_name actor ∈ any_member entry "actors" ∨
     ∃ g, g ∈ any_member entry "groups" ∧ in_group objs org actor g).

(** What the authorization layer asks of the group index: the exact groups of
    an actor, at any moment [inv] holds. *)
Class GroupResolver `{BackendSpec B} {O} (inv : Store B O → Prop)
    (groupsOf : string → Actor → ST (Store B O) (option (gset string))) : Prop :=
  resolves org actor : observes inv (groupsOf org actor)
    (λ sp m, ∃ ms, m = Some ms ∧ ∀ g, g ∈ ms ↔ in_group (s_objs sp) org actor g).

Lemma membership_in_group idx objs org actor : index_of idx (docs_of org objs) (rows_of org objs) →
  ∃ m, membership idx actor = Some m ∧ ∀ g, g ∈ m ↔ in_group objs org actor g.
Proof.
  intros Hi. destruct (membership_spec idx actor) as (m & -> & Hm). exists m. split; [done|].
  intros g. rewrite Hm. unfold in_group, direct_groups, actor_kind.
  assert (∀ x y, edge (g_nests idx) x y ↔ declared (docs_of org objs) (rows_of org objs) memberGroups x y) as He.
  { intros x y. rewrite <-(Hi memberGroups x y) by (unfold kinds; set_solver). done. }
  assert (∀ x y, rtc (edge (g_nests idx)) x y ↔
    rtc (λ x y, declared (docs_of org objs) (rows_of org objs) memberGroups x y) x y) as Hr.
  { intros x y. split; (apply rtc_subrel; intros ? ?; apply He). }
  setoid_rewrite Hr. destruct (IsClient actor).
  - setoid_rewrite <-(Hi memberClients (a_name actor)); [done|unfold kinds; set_solver].
  - setoid_rewrite <-(Hi memberUsers (a_name actor)); [done|unfold kinds; set_solver].
Qed.

#[export] Instance current_stable `{BackendSpec B} : ReadStable (B := B) current.
Proof.
  intros s s' [Hv [c Hc]] (Hw & Ht & Hg & Hi). unfold current. rewrite Hc, Hv. done.
Qed.

(** The uncached resolver, and the cached one. *)
#[export] Instance fresh_resolver `{BackendSpec B} {O} :
  GroupResolver (λ _ : Store B O, True) actorGroups.
Proof.
  intros org actor s _. unfold actorGroups, st_bind. pose proof (build_spec org s) as Hb.
  destruct (buildGroupIndex org s) as [[idx|e] s']; cbn [fst snd].
  - destruct Hb as (_ & Hi & Hv & _). split; [done|]. split; [done|]. by apply membership_in_group.
  - by destruct Hb as (_ & Hv & _).
Qed.

#[export] Instance cached_resolver `{BackendSpec B} : GroupResolver (B := B) current API_actorGroups.
Proof.
  intros org actor s Hs. unfold API_actorGroups, st_bind. pose proof (get_index org s Hs) as Hb.
  destruct (get org s) as [[idx|e] s'].
  - destruct Hb as (Hi & Hc & Hv & _). split; [done|]. split; [done|]. by apply membership_in_group.
  - by destruct Hb as (_ & Hc & Hv & _).
Qed.

Lemma existsb_member (l : list string) (m : gset string) :
  existsb (λ g, bool_decide (g ∈ m)) l = true ↔ ∃ g, g ∈ l ∧ g ∈ m.
Proof.
  rewrite existsb_exists. setoid_rewrite bool_decide_eq_true. setoid_rewrite <-list_elem_of_In. done.
Qed.

Section Sound.
Context {B : Type} `{BackendSpec B} {O : Type} (inv : Store B O → Prop) `{!ReadStable inv}.

(** A permission is answered for by what is stored, whichever resolver is used. *)
Lemma observes_allowedWith groupsOf org actor typ name perm : GroupResolver inv groupsOf →
  observes inv (allowedWith groupsOf org actor typ name perm)
    (λ sp b, b = true ↔ granted (s_objs sp) org actor typ name perm).
Proof.
  intros Hg. eapply observes_bind; [by apply observes_loadACL|]. intros a.
  destruct (ace_of a perm) as [entry|] eqn:E.
  2:{ apply observes_ret. intros sp ->. split; [done|]. intros (e & He & _). congruence. }
  destruct (contains_str (any_member entry "actors") (a_name actor)) eqn:Ea.
  { apply observes_ret. intros sp ->. split; [|done]. intros _. exists entry. split; [done|]. left.
    by apply contains_str_true. }
  assert (∀ sp, a = effective typ name (s_objs sp !! (org, "acls", aclKey typ name)) →
    granted (s_objs sp) org actor typ name perm ↔
    ∃ g, g ∈ any_member entry "groups" ∧ in_group (s_objs sp) org actor g) as Hred.
  { intros sp ->. apply contains_str_false in Ea. split.
    - intros (e & He & Hor). rewrite E in He. injection He as <-. destruct Hor; [done|done].
    - intros Hor. exists entry. eauto. }
  destruct (decide (any_member entry "groups" = [])) as [Hn|Hn].
  { apply observes_ret. intros sp Ha. rewrite (Hred _ Ha), Hn. split; [done|]. intros (g & Hin & _). set_solver. }
  eapply observes_bind; [apply Hg|]. intros m. apply observes_ret. intros sp (ms & -> & Hm) Ha.
  rewrite (Hred _ Ha). unfold aceAllows. cbn [default]. rewrite Ea. cbn [orb].
  rewrite existsb_member. setoid_rewrite Hm. done.
Qed.
End Sound.

(** C25. A permission is what the stored ACL and the stored groups say. Whenever
    the check answers, it answers yes exactly when the ACL in force (stored, or
    the default for the object) names the actor or a group the actor is in,
    directly or through nested groups. *)
Theorem allowed_iff_granted `{BackendSpec B} {O} (s s' : Store B O) org actor typ name perm b :
  actorAllowed org actor typ name perm s = (Ok b, s') →
  b = true ↔ granted (objs s) org actor typ name perm.
Proof.
  intros E. pose proof (observes_allowedWith (λ _, True) actorGroups org actor typ name perm _ s I) as Ho.
  unfold actorAllowed in E. rewrite E in Ho. apply Ho.
Qed.

(** ** What the middleware decides *)

(** The checks of a classified request hold in the space [org]. *)
Definition passes (objs : objects) (actor : Actor) (c : authzCheck) (org : string) : Prop :=
  (existColl c ≠ "" → is_Some (objs !! (org, existColl c, existKey c))) ∧
  (aclEndpoint c = true → object_exists objs org (aclType c) (aclName c)) ∧
  granted objs org actor (aclType c) (aclName c) (perm c).

(** The policy: who may make which request. *)
Definition permitted (sp : space) (r : request) : Prop :=
  match r_actor r with
  | None => True
  | Some actor =>
      IsGlobalAdmin actor = true ∨
      match classifyRequest (r_method r) (r_path r) with
      | None => refuseUnclassifiedWrite (r_method r) (r_path r) = false
      | Some c =>
          (allowSelf c ≠ "" ∧ a_name actor = allowSelf c) ∨
          superuserOnly c = false ∧
          (if global c then passes (s_objs sp) actor c Global
           else let org := nth 1 (path_parts (r_path r)) "" in
                org ∉ s_orgs sp ∨ passes (s_objs sp) actor c org)
      end
  end.

(** The request handed on is the one received, with at most the bytes of a
    stored object attached. *)
Definition handed_on (sp : space) (r r' : request) : Prop :=
  r' = r ∨ ∃ org coll key raw,
    s_objs sp !! (org, coll, key) = Some raw ∧ r' = withPreread r org coll key raw.

(** A refusal: the backend failed, or the policy says no. *)
Definition refused (sp : space) (yes : Prop) (rep : reply) : Prop :=
  status rep = 500%Z ∨ ((status rep = 403 ∨ status rep = 404)%Z ∧ ¬ yes).

Section Middleware.
Context {B : Type} `{BackendSpec B}.

Lemma authorize_in_spec r actor c org :
  h_observes (B := B) current (authorize_in r actor c org)
    (λ sp r', passes (s_objs sp) actor c org ∧ handed_on sp r r')
    (λ sp rep, refused sp (passes (s_objs sp) actor c org) rep).
Proof.
  eapply h_observes_conseq with
    (P' := λ sp r', True → passes (s_objs sp) actor c org ∧ handed_on sp r r')
    (Q' := λ sp rep, True → refused sp (passes (s_objs sp) actor c org) rep); [|naive_solver..].
  apply (h_observes_bind current _ _ (λ _, True)
    (λ sp r', (existColl c ≠ "" → is_Some (s_objs sp !! (org, existColl c, existKey c))) ∧ handed_on sp r r')).
  { unfold authorize_exist. destruct (decide (existColl c = "")) as [He|He].
    { apply h_observes_ret. intros sp _. split; [done|by left]. }
    eapply (h_observes_bind current _ _ (λ _, True) (λ sp v, v = s_objs sp !! (org, existColl c, existKey c))).
    - apply h_observes_or_500; [eapply observes_conseq; [apply observes_Get; apply _|done]|by left].
    - intros [raw|]; [apply h_observes_ret|apply h_observes_reply]; intros sp [_ Hv].
      + split; [intros _; by rewrite <-Hv|]. right. by exists org, (existColl c), (existKey c), raw.
      + right. split; [by right|]. intros (Hex & _). destruct (Hex He) as [? Hx]. congruence. }
  intros r'. eapply h_observes_bind with
    (P := λ sp _, aclEndpoint c = true → object_exists (s_objs sp) org (aclType c) (aclName c)).
  { unfold authorize_endpoint. destruct (aclEndpoint c) eqn:Ee; [|by apply h_observes_ret].
    eapply h_observes_bind with (P := λ sp b, b = true ↔ object_exists (s_objs sp) org (aclType c) (aclName c)).
    - apply h_observes_or_500; [|by left].
      eapply observes_conseq; [apply observes_aclObjectExists; apply _|done].
    - intros []; [apply h_observes_ret|apply h_observes_reply]; intros sp [_ Hb].
      + intros _. by apply Hb.
      + right. split; [by right|]. intros (_ & Hex & _). by apply Hex, Hb in Ee. }
  intros []. eapply h_observes_bind with
    (P := λ sp b, b = true ↔ granted (s_objs sp) org actor (aclType c) (aclName c) (perm c)).
  { apply h_observes_or_500; [|by left].
    eapply observes_conseq; [apply observes_allowedWith; apply _|done]. }
  intros []; [apply h_observes_ret|apply h_observes_reply]; intros sp [[(_ & He & Hh) Ho] Hb].
  - split; [|done]. split; [done|]. split; [done|]. by apply Hb.
  - right. split; [by left|]. intros (_ & _ & Hg). by apply Hb in Hg.
Qed.
End Middleware.

Lemma authorize_spec `{BackendSpec B} r :
  h_observes (B := B) current (authorize r)
    (λ sp r', permitted sp r ∧ handed_on sp r r') (λ sp rep, refused sp (permitted sp r) rep).
Proof.
  unfold authorize, permitted. destruct (r_actor r) as [actor|].
  2:{ apply h_observes_ret. intros sp. split; [done|by left]. }
  destruct (IsGlobalAdmin actor) eqn:Eg.
  { apply h_observes_ret. intros sp. split; [by left|by left]. }
  destruct (classifyRequest (r_method r) (r_path r)) as [c|].
  2:{ destruct (refuseUnclassifiedWrite (r_method r) (r_path r)).
      - apply h_observes_reply. intros sp. right. split; [by left|]. naive_solver.
      - apply h_observes_ret. intros sp. split; [by right|by left]. }
  destruct (decide (allowSelf c ≠ "" ∧ a_name actor = allowSelf c)) as [Hs|Hs].
  { apply h_observes_ret. intros sp. split; [right; by left|by left]. }
  destruct (superuserOnly c) eqn:Es.
  { apply h_observes_reply. intros sp. right. split; [by left|]. naive_solver. }
  destruct (global c).
  { eapply h_observes_conseq; [apply authorize_in_spec| |].
    - intros sp r' [Hp Hh]. split; [|done]. right. by right.
    - intros sp rep [?|[? Hn]]; [by left|]. right. split; [done|]. naive_solver. }
  set (org := nth 1 (path_parts (r_path r)) "").
  eapply h_observes_conseq with
    (P' := λ sp r', True → (org ∉ s_orgs sp ∨ passes (s_objs sp) actor c org) ∧ handed_on sp r r')
    (Q' := λ sp rep, True → refused sp (org ∉ s_orgs sp ∨ passes (s_objs sp) actor c org) rep).
  - eapply h_observes_bind with (P := λ sp o, o = if decide (org ∈ s_orgs sp) then Some org else None).
    { apply h_observes_or_500; [|by left]. eapply observes_conseq; [apply observes_Org; apply _|done]. }
    intros [o|].
    + eapply h_observes_conseq; [apply authorize_in_spec| |]; intros sp x Hx [_ Ho];
        destruct (decide (org ∈ s_orgs sp)); simplify_eq.
      * destruct Hx. split; [by right|done].
      * destruct Hx as [?|[? Hn]]; [by left|]. right. split; [done|]. tauto.
    + apply h_observes_ret. intros sp [_ Ho]. destruct (decide (org ∈ s_orgs sp)); [done|].
      split; [by left|by left].
  - intros sp r' Hx. destruct (Hx I). split; [|done]. right. by right.
  - intros sp rep Hx. destruct (Hx I) as [?|[? Hn]]; [by left|]. right. split; [done|]. naive_solver.
Qed.

(** C1. The middleware enforces the policy and fails closed. On a server whose
    group cache is current, a request goes on exactly as received (with at most
    the stored bytes of the object it names attached) only when the policy
    permits it, and is answered 403 or 404 only when it does not; whenever the
    backend fails the answer is a 500, never a pass. Nothing is written. *)
Theorem middleware_enforces_policy `{BackendSpec B} (r : request) (s : Store B groupIndexCache) :
  current s →
  match authorize r s with
  | (inl r', s') => permitted (view s.1) r ∧ handed_on (view s.1) r r' ∧ view s'.1 = view s.1 ∧ current s'
  | (inr rep, s') => refused (view s.1) (permitted (view s.1) r) rep ∧ view s'.1 = view s.1 ∧ current s'
  end.
Proof.
  intros Hs. pose proof (authorize_spec r s Hs) as Ha. destruct (authorize r s) as [[r'|rep] s']; naive_solver.
Qed.

(** ** Witnesses *)

(** An organization with a node, an administrator and a client of no group. *)
Definition acme : Store Memory.memoryBackend groupIndexCache :=
  let run {A} (m : ST _ A) s := (m s).2 in
  run (Org_Put "acme" "nodes" "web01" "{}")
    (run (Org_Put "acme" "groups" "admins" (groupJSON "admins" "" ["alice"] [] []))
      (run (Store_CreateOrg "acme") (Watch observe (NewWithBackend Memory.NewMemoryBackend newGroupIndexCache)))).

Definition alice : Actor := mkActor "alice" false false false.
Definition mallory : Actor := mkActor "mallory" true false false.

Definition delete_web01 (actor : Actor) : request :=
  mkRequest "DELETE" "/organizations/acme/nodes/web01" (Some actor) "" "" None.

(** An empty cache is current. *)
Lemma current_empty `{BackendSpec B} (s : Store B groupIndexCache) :
  watch s.2 = [observe] → txbuf s.2 = None → (0 ≤ groupsGen s.2)%Z → obs s.2 = ∅ → current s.
Proof.
  intros Hw Ht Hg Ho. split; [done|]. split; [done|]. split; [done|]. intros o i. rewrite Ho. by rewrite lookup_empty.
Qed.

(** The status of the reply written, if one was. *)
Definition reply_status {A S} (x : (A + reply) * S) : option Z :=
  match x with (inl _, _) => None | (inr rep, _) => Some (status rep) end.

Definition answered {A S} (x : result A * S) : option A :=
  match x with (Ok a, _) => Some a | (Err _, _) => None end.

(** The guard that keeps the admins group on a grant entry does not cover an
    object that has no stored ACL: there the groups in force are a literal that
    the guard's decoder does not read, so an administrator who is not the
    superuser takes admins off the grant entry, which had them, and the write
    is stored. *)
Theorem fallback_grant_loses_admins :
  let grant_groups (s : Store Memory.memoryBackend groupIndexCache) :=
    (λ e, any_member e "groups") <$>
      ace_of (effective "nodes" "web01" (objs s !! ("acme", "acls", "nodes/web01"))) "grant" in
  let body := "{" +:+ print_string id "actors" +:+ ":[]," +:+ print_string id "groups" +:+ ":[]}" in
  let '(rep, s') := replied (updateACLPermDoc (Some alice) body "acme" (Some "acme")
                               "nodes" "web01" "grant" 200 acme) in
  grant_groups acme = Some ["admins"] ∧ status rep = 200%Z ∧ grant_groups s' = Some [].
Proof. vm_compute. done. Qed.

Lemma alice_allowed : answered (actorAllowed "acme" alice "nodes" "web01" "delete" acme) = Some true.
Proof. vm_compute. reflexivity. Qed.
Lemma alice_deletes : reply_status (authorize (delete_web01 alice) acme) = None.
Proof. vm_compute. reflexivity. Qed.
Lemma mallory_refused : reply_status (authorize (delete_web01 mallory) acme) = Some 403%Z.
Proof. vm_compute. reflexivity. Qed.

Lemma allowed_iff_granted_witness : granted (objs acme) "acme" alice "nodes" "web01" "delete".
Proof.
  pose proof alice_allowed as Ha.
  destruct (actorAllowed "acme" alice "nodes" "web01" "delete" acme) as [[b|e] s] eqn:E; [|discriminate Ha].
  apply (allowed_iff_granted acme s "acme" alice "nodes" "web01" "delete" b E). by injection Ha.
Defined.

(** The administrator's delete is permitted and goes on with the node's bytes;
    the client's is not. *)
Lemma middleware_enforces_policy_witness :
  permitted (view acme.1) (delete_web01 alice) ∧ ¬ permitted (view acme.1) (delete_web01 mallory).
Proof.
  assert (current acme) as Hc by (apply current_empty; [reflexivity|reflexivity|vm_compute; discriminate|reflexivity]).
  split.
  - pose proof (middleware_enforces_policy (delete_web01 alice) acme Hc) as H1. revert H1.
    generalize alice_deletes. destruct (authorize (delete_web01 alice) acme) as [[r|rep] s]; [|discriminate].
    intros _ H1. apply H1.
  - pose proof (middleware_enforces_policy (delete_web01 mallory) acme Hc) as H2. revert H2.
    generalize mallory_refused. destruct (authorize (delete_web01 mallory) acme) as [[r|rep] s]; [discriminate|].
    intros Hst [[H2|[_ H2]] _]; [|exact H2]. cbn in Hst. rewrite H2 in Hst. discriminate Hst.
Defined.
