(* ===== verification/SearchFilter.v ===== *)
(** * Search results an actor may read (internal/api/search.go)

    Resolving an index to its documents and their ACLs, and dropping the matches
    the actor could not have fetched: one check for a data bag, one per document
    for a few matches, a bulk read of the stored ACLs for many. *)
From S2P Require Import Prelude GoText Json Chefjson Float GoJson Store Facade Groups Http Acl AclDocs Classify Authz.
#[local] Open Scope go_scope.

(** [aclObject] is empty when every document has its own ACL. [urlFor] is left
    to the rendering of the rows. *)
Record searchIndex := mkSearchIndex { collection : string; mergeAttrs : bool; s_aclType : string; aclObject : string }.

(** A match: a document's id and its bytes. *)
Abbreviation match_ := (string * string)%type.

Definition dataBagItemsColl (bag : string) : string := "databag_items:" +:+ bag.

Section Ops.
Context {B : Type} `{Backend B}.
Abbreviation server := (Store B groupIndexCache).

Definition resolveIndex (org name : string) : ST server (option searchIndex) :=
  if decide (name ∈ ["node"; "role"; "client"; "environment"]) then
    let coll := name +:+ "s" in
    st_ret (Some (mkSearchIndex coll (bool_decide (name = "node")) coll ""))
  else
    let! o := Org_View org dataBagsColl name in
    st_ret (match o with
            | None => None
            | Some _ => Some (mkSearchIndex (dataBagItemsColl name) false "data" name)
            end).

(** What the scan of the stored ACLs records of one document: whether it grants
    read, by the typed decode or the tolerant one. *)
Definition stored_read (actor : Actor) (member : gset string) (raw : string) : option bool :=
  match decodeReadACE raw with
  | Some e => Some (allows e (a_name actor) member)
  | None =>
      match unmarshal_map raw with
      | Some m => Some (aceAllows (assoc (members m) "read") actor member)
      | None => None
      end
  end.

Definition note_acl (prefix : string) (actor : Actor) (member : gset string)
    (stored : gmap string bool) (d : string * string) : gmap string bool :=
  match cut_prefix prefix d.1 with
  | None => stored
  | Some name => match stored_read actor member d.2 with Some b => <[name := b]> stored | None => stored end
  end.

(** [None]: no filtering applies. *)
Definition searchReadFilter (enforceACL : bool) (actor : option Actor) (org : string) (idx : searchIndex)
  : ST server (option (string → bool)) :=
  match actor with
  | Some a =>
      if enforceACL && negb (IsGlobalAdmin a) then
        if decide (aclObject idx ≠ "") then
          let! allowed := API_actorAllowed org a (s_aclType idx) (aclObject idx) "read" in
          st_ret (Some (λ _, allowed))
        else
          let! m := API_actorGroups org a in
          let member := default ∅ m in
          let! docs := Org_Range org "acls" in
          let stored := foldl (note_acl (s_aclType idx +:+ "/") a member) ∅ docs in
          let byDefault := aceAllows (assoc defaultACL "read") a member in
          st_ret (Some (λ id, default byDefault (stored !! id)))
      else st_ret None
  | None => st_ret None
  end.

Definition bulkThreshold : nat := 64.

(** The per-document checks. *)
Fixpoint filter_each (actor : Actor) (org typ : string) (matches : list match_) : ST server (list match_) :=
  match matches with
  | [] => st_ret []
  | m :: ms =>
      let! allowed := API_actorAllowed org actor typ m.1 "read" in
      let! rest := filter_each actor org typ ms in
      st_ret (if allowed : bool then m :: rest else rest)
  end.

Definition filterReadable (enforceACL : bool) (actor : option Actor) (org : string) (idx : searchIndex)
    (matches : list match_) : ST server (list match_) :=
  if negb enforceACL || bool_decide (matches = []) then st_ret matches
  else
    match actor with
    | None => st_ret matches
    | Some a =>
        if IsGlobalAdmin a then st_ret matches
        else if decide (aclObject idx ≠ "") then
          let! allowed := API_actorAllowed org a (s_aclType idx) (aclObject idx) "read" in
          st_ret (if allowed : bool then matches else [])
        else if decide (length matches ≤ bulkThreshold) then filter_each a org (s_aclType idx) matches
        else
          let! allow := searchReadFilter enforceACL actor org idx in
          st_ret (match allow with
                  | None => matches
                  | Some allow => List.filter (λ m, allow m.1) matches
                  end)
    end.
End Ops.

(** ** The filter keeps exactly what the actor may read *)

Lemma readACE_other a p v : p ∈ ["create"; "delete"; "grant"; "update"] → readACEDoc_field a p v = Some a.
Proof. rewrite !elem_of_cons, elem_of_nil. by intros [->|[->|[->|[->|[]]]]]. Qed.

Lemma readACE_read a v : readACEDoc_field a "read" v = decode_struct aceDoc_field a v.
Proof. done. Qed.

Lemma aceDoc_ace actors groups : decode_struct aceDoc_field (mkAce [] []) (ace actors groups) = Some (mkAce actors groups).
Proof.
  assert (∀ a v, aceDoc_field a "actors" v = (λ l, mkAce l (a_groups a)) <$> decode_strings (a_actors a) v) as H1 by done.
  assert (∀ a v, aceDoc_field a "groups" v = (λ l, mkAce (a_actors a) l) <$> decode_strings (a_groups a) v) as H2 by done.
  unfold ace, decode_struct. cbn [foldl fst snd]. rewrite H1. cbn [decode_strings a_actors]. rewrite fill_VStr.
  cbn [fmap option_fmap option_map]. rewrite H2. cbn [decode_strings a_groups]. by rewrite fill_VStr.
Qed.

Lemma decodeReadACE_doc f : valid_grants f →
  decodeReadACE (mustEncode (VObj (acl_doc f))) = Some (mkAce (f "read").1 (f "read").2).
Proof.
  intros Hv. unfold decodeReadACE. rewrite decode_acl_doc by done.
  unfold acl_read, decode_struct at 1. cbn [map sorted_perms foldl fst snd].
  do 3 rewrite readACE_other by set_solver. rewrite readACE_read, aceDoc_ace. by rewrite readACE_other by set_solver.
Qed.

Lemma allows_spec e name (member : gset string) :
  allows e name member = true ↔ name ∈ a_actors e ∨ ∃ g, g ∈ a_groups e ∧ g ∈ member.
Proof. unfold allows. by rewrite orb_true_iff, contains_str_true, existsb_member. Qed.

Lemma aceAllows_spec ms actor (member : gset string) :
  aceAllows (Some (VObj ms)) actor member = true ↔
  a_name actor ∈ any_member ms "actors" ∨ ∃ g, g ∈ any_member ms "groups" ∧ g ∈ member.
Proof. unfold aceAllows. by rewrite orb_true_iff, contains_str_true, existsb_member. Qed.

(** The stored ACLs by object name. *)
Lemma note_acl_other typ actor member id docs : aclKey typ id ∉ docs.*1 → ∀ stored,
  foldl (note_acl (typ +:+ "/") actor member) stored docs !! id = stored !! id.
Proof.
  induction docs as [|[key raw] docs IH]; intros Hid stored; [done|]. cbn [foldl].
  rewrite IH by set_solver. unfold note_acl. cbn [fst snd].
  destruct (cut_prefix (typ +:+ "/") key) as [name|] eqn:E; [|done].
  destruct (stored_read actor member raw); [|done]. apply cut_prefix_Some in E. rewrite lookup_insert_ne; [done|].
  intros ->. apply Hid. subst key. unfold aclKey. rewrite app_string_assoc. set_solver.
Qed.

Lemma note_acl_found typ actor member id raw b docs : NoDup docs.*1 → (aclKey typ id, raw) ∈ docs →
  stored_read actor member raw = Some b → ∀ stored,
  foldl (note_acl (typ +:+ "/") actor member) stored docs !! id = Some b.
Proof.
  induction docs as [|[key raw'] docs IH]; intros Hnd Hin Hb stored; [set_solver|].
  apply NoDup_cons in Hnd as [Hk Hnd]. cbn [foldl]. apply elem_of_cons in Hin as [[= <- <-]|Hin]; [|by apply IH].
  rewrite note_acl_other by done. unfold note_acl. cbn [fst snd].
  assert (cut_prefix (typ +:+ "/") (aclKey typ id) = Some id) as ->.
  { unfold aclKey. rewrite <-app_string_assoc. apply cut_prefix_app. }
  rewrite Hb. apply lookup_insert_eq.
Qed.

Lemma note_acl_unread typ actor member id raw docs : NoDup docs.*1 → (aclKey typ id, raw) ∈ docs →
  stored_read actor member raw = None → ∀ stored,
  foldl (note_acl (typ +:+ "/") actor member) stored docs !! id = stored !! id.
Proof.
  induction docs as [|[key raw'] docs IH]; intros Hnd Hin Hb stored; [set_solver|].
  apply NoDup_cons in Hnd as [Hk Hnd]. cbn [foldl]. apply elem_of_cons in Hin as [[= <- <-]|Hin].
  - rewrite note_acl_other by done. unfold note_acl. cbn [fst snd]. destruct (cut_prefix _ _); [|done]. by rewrite Hb.
  - rewrite (IH Hnd Hin Hb). unfold note_acl. cbn [fst snd]. destruct (cut_prefix (typ +:+ "/") key) as [name|] eqn:E; [|done].
    destruct (stored_read actor member raw'); [|done]. apply cut_prefix_Some in E. rewrite lookup_insert_ne; [done|].
    intros ->. apply Hk. subst key. rewrite app_string_assoc. apply list_elem_of_fmap. by exists (aclKey typ id, raw).
Qed.

(** Who may read an object, by the bulk scan: the entry "read" of the stored ACL as
    the typed decode reads it (names without regard to case, as encoding/json
    matches fields); the permission proper when that decode fails or no ACL is
    stored. *)
Definition bulk_granted (objs : objects) (org : string) (actor : Actor) (typ name : string) : Prop :=
  match objs !! (org, "acls", aclKey typ name) ≫= decodeReadACE with
  | Some e => a_name actor ∈ a_actors e ∨ ∃ g, g ∈ a_groups e ∧ in_group objs org actor g
  | None => granted objs org actor typ name "read"
  end.

(** On an ACL as the server itself writes them that is the permission. *)
Lemma bulk_granted_canonical (objs : objects) org actor typ name : canonical_acls org objs →
  bulk_granted objs org actor typ name ↔ granted objs org actor typ name "read".
Proof.
  intros Hc. unfold bulk_granted. destruct (objs !! (org, "acls", aclKey typ name)) as [raw|] eqn:Hr; [|done].
  destruct (Hc _ _ Hr) as (f & Hf & ->). cbn [mbind option_bind]. unfold granted. rewrite Hr.
  rewrite decodeReadACE_doc by done. cbn [a_actors a_groups].
  unfold effective, ace_of. rewrite unmarshal_acl_doc by done. cbn [entries].
  change (members (Some (acl_read f))) with (acl_read f). rewrite acl_read_entry by (unfold aclPerms; set_solver).
  destruct (any_member_ace (f "read").1 (f "read").2) as [Ha Hg]. unfold ace. split.
  - intros Hor. eexists. split; [reflexivity|]. by rewrite Ha, Hg.
  - intros (e & [= <-] & Hor). by rewrite Ha, Hg in Hor.
Qed.

Section Filter.
Context {B : Type} `{BackendSpec B}.

(** One stored ACL, when the scan records it. *)
Lemma stored_read_granted (objs : objects) org actor (member : gset string) typ name raw b :
  (∀ g, g ∈ member ↔ in_group objs org actor g) →
  objs !! (org, "acls", aclKey typ name) = Some raw → stored_read actor member raw = Some b →
  b = true ↔ bulk_granted objs org actor typ name.
Proof.
  intros Hm Hr. unfold stored_read, bulk_granted. rewrite Hr. cbn [mbind option_bind].
  destruct (decodeReadACE raw) as [e|]; [intros [= <-]; rewrite allows_spec; by setoid_rewrite Hm|].
  destruct (unmarshal_map raw) as [m|] eqn:Em; [|done]. intros [= <-]. unfold granted, effective, ace_of. rewrite Hr, Em.
  cbn [entries]. destruct (assoc (members m) "read") as [[]|]; try (split; [done|by intros (? & ? & _)]).
  rewrite aceAllows_spec. setoid_rewrite Hm. split; [eauto|]. by intros (e & [= <-] & Hor).
Qed.

(** An object the scan records nothing of: no ACL, or one that is not an object. *)
Lemma default_read_granted (objs : objects) org actor (member : gset string) typ name :
  (∀ g, g ∈ member ↔ in_group objs org actor g) → fallbackACL typ name = defaultACL →
  (∀ raw, objs !! (org, "acls", aclKey typ name) = Some raw → stored_read actor member raw = None) →
  aceAllows (assoc defaultACL "read") actor member = true ↔ bulk_granted objs org actor typ name.
Proof.
  intros Hm Hf Hr. assert (objs !! (org, "acls", aclKey typ name) ≫= decodeReadACE = None ∧
    effective typ name (objs !! (org, "acls", aclKey typ name)) = Literal (fallbackACL typ name)) as [E1 E2].
  { destruct (objs !! (org, "acls", aclKey typ name)) as [raw|]; [|done]. specialize (Hr raw eq_refl). unfold stored_read in Hr.
    cbn. by destruct (decodeReadACE raw), (unmarshal_map raw). }
  unfold bulk_granted, granted. rewrite E1, E2. unfold ace_of. rewrite Hf. cbn [entries].
  change (members (Some defaultACL)) with defaultACL.
  change (assoc defaultACL "read") with (Some (ace [] ["admins"; "users"; "clients"])). unfold ace at 1 2.
  rewrite aceAllows_spec. setoid_rewrite Hm. split; [eauto|]. by intros (e & [= <-] & Hor).
Qed.

(** The matches an actor may read, in order. *)
Definition readable_in (P : string → Prop) (matches out : list match_) : Prop :=
  sublist out matches ∧ ∀ m, m ∈ out ↔ m ∈ matches ∧ P m.1.

Lemma readable_filter (f : string → bool) (P : string → Prop) matches :
  (∀ id, f id = true ↔ P id) → readable_in P matches (List.filter (λ m, f m.1) matches).
Proof.
  intros Hf. split.
  - induction matches as [|m ms IH]; [constructor|]. cbn. destruct (f m.1); by constructor.
  - intros m. rewrite list_elem_of_In, filter_In, <-list_elem_of_In, Hf. done.
Qed.

Lemma filter_each_spec actor org typ matches :
  observes (B := B) current (filter_each actor org typ matches)
    (λ sp out, readable_in (λ id, granted (s_objs sp) org actor typ id "read") matches out).
Proof.
  induction matches as [|m ms IH]; [apply observes_ret; split; [constructor|set_solver]|].
  cbn [filter_each]. eapply observes_bind; [apply observes_allowedWith; apply _|]. intros allowed.
  eapply observes_bind; [apply IH|]. intros rest. apply observes_ret. intros sp [Hs Hr] Ha. destruct allowed.
  - split; [by constructor|]. intros x. rewrite !elem_of_cons, Hr.
    assert (granted (s_objs sp) org actor typ m.1 "read") by (by apply Ha). naive_solver.
  - split; [by constructor|]. intros x. rewrite elem_of_cons, Hr.
    assert (¬ granted (s_objs sp) org actor typ m.1 "read") by (intros Hg; by apply Ha in Hg). naive_solver.
Qed.

(** The bulk filter answers for every name. *)
Lemma bulk_filter_spec actor org idx : IsGlobalAdmin actor = false → aclObject idx = "" →
  (∀ id, fallbackACL (s_aclType idx) id = defaultACL) →
  observes (B := B) current (searchReadFilter true (Some actor) org idx)
    (λ sp allow, ∃ f, allow = Some f ∧ ∀ id, f id = true ↔ bulk_granted (s_objs sp) org actor (s_aclType idx) id).
Proof.
  intros Hg Ho Hf. unfold searchReadFilter. rewrite Hg, Ho. cbn [andb negb]. rewrite decide_False by tauto.
  eapply observes_bind; [apply resolves|]. intros m. eapply observes_bind; [apply observes_Range; apply _|]. intros docs.
  apply observes_ret. intros sp Hd (ms & -> & Hms). eexists. split; [done|]. intros id. cbn [default].
  assert (NoDup docs.*1) as Hnd by (rewrite Hd; apply NoDup_fst_map_to_list).
  change (default ∅ (Some ms)) with ms.
  destruct (s_objs sp !! (org, "acls", aclKey (s_aclType idx) id)) as [raw|] eqn:E.
  - assert ((aclKey (s_aclType idx) id, raw) ∈ docs) as Hin by (rewrite Hd; apply elem_of_map_to_list; by rewrite lookup_coll_of).
    destruct (stored_read actor ms raw) as [b|] eqn:Eb.
    + rewrite (note_acl_found _ _ _ _ raw b) by done. by apply (stored_read_granted _ _ _ ms _ _ raw).
    + rewrite (note_acl_unread _ _ _ _ raw) by done. rewrite lookup_empty. apply default_read_granted; [done|done|].
      intros raw' Hr. rewrite E in Hr. by injection Hr as <-.
  - rewrite note_acl_other; [|].
    + rewrite lookup_empty. apply default_read_granted; [done|done|]. intros raw Hr. rewrite E in Hr. discriminate Hr.
    + rewrite Hd. intros ([k raw] & Hk & Hin)%list_elem_of_fmap. cbn in Hk. subst k.
      apply elem_of_map_to_list in Hin. rewrite lookup_coll_of in Hin. congruence.
Qed.

(** The object whose ACL decides about a document. *)
Definition owner (idx : searchIndex) (id : string) : string := if decide (aclObject idx = "") then id else aclObject idx.

(** Who is shown a document among the matches: who holds read on the object,
    decided in bulk when there are many. *)
Definition shown (objs : objects) (org : string) (actor : Actor) (idx : searchIndex) (matches : list match_) (id : string) : Prop :=
  if decide (aclObject idx = "" ∧ bulkThreshold < length matches) then bulk_granted objs org actor (s_aclType idx) id
  else granted objs org actor (s_aclType idx) (owner idx id) "read".

Lemma shown_granted (objs : objects) org actor idx matches id : canonical_acls org objs →
  shown objs org actor idx matches id ↔ granted objs org actor (s_aclType idx) (owner idx id) "read".
Proof.
  intros Hc. unfold shown. case_decide as Hd; [|done]. unfold owner. rewrite decide_True by tauto. by apply bulk_granted_canonical.
Qed.

(** What is left of the matches for an actor. *)
Definition visible (enforceACL : bool) (actor : option Actor) (objs : objects) (org : string) (idx : searchIndex)
    (matches out : list match_) : Prop :=
  match actor with
  | Some a =>
      if enforceACL && negb (IsGlobalAdmin a)
      then readable_in (shown objs org a idx matches) matches out
      else out = matches
  | None => out = matches
  end.

Lemma readable_all (P : string → Prop) matches : (∀ id, P id) → readable_in P matches matches.
Proof. intros HP. split; [done|]. intros m. split; [auto|by intros []]. Qed.
Lemma readable_none (P : string → Prop) matches : (∀ id, ¬ P id) → readable_in P matches [].
Proof. intros HP. split; [apply sublist_nil_l|]. intros m. split; [by intros ?%elem_of_nil|]. intros [_ Hp]. by apply HP in Hp. Qed.

Lemma readable_iff (P Q : string → Prop) matches out : (∀ id, P id ↔ Q id) → readable_in P matches out → readable_in Q matches out.
Proof. intros HP [Hs Hi]. split; [done|]. intros m. by rewrite Hi, HP. Qed.

Lemma observes_filterReadable enforceACL actor org idx matches : (aclObject idx = "" → ∀ id, fallbackACL (s_aclType idx) id = defaultACL) →
  observes (B := B) current (filterReadable enforceACL actor org idx matches)
    (λ sp out, visible enforceACL actor (s_objs sp) org idx matches out).
Proof.
  intros Hf. unfold filterReadable, visible. destruct enforceACL; cbn [negb orb andb]; [|apply observes_ret; by destruct actor].
  case_bool_decide as Hm.
  { subst. apply observes_ret. intros sp. destruct actor as [a|]; [|done]. destruct (IsGlobalAdmin a); [done|].
    split; [done|]. set_solver. }
  destruct actor as [a|]; [|by apply observes_ret]. destruct (IsGlobalAdmin a) eqn:Ea; [by apply observes_ret|]. cbn [negb].
  unfold shown. destruct (decide (aclObject idx ≠ "")) as [Ho|Ho%dec_stable].
  { eapply observes_bind; [apply observes_allowedWith; apply _|]. intros allowed. apply observes_ret. intros sp Hg.
    assert (∀ id, owner idx id = aclObject idx) as Hown by (intros id; unfold owner; by rewrite decide_False).
    destruct allowed; [apply readable_all|apply readable_none]; intros id; rewrite decide_False, Hown, <-Hg by tauto; done. }
  case_decide as Hn.
  - eapply observes_conseq; [apply filter_each_spec|]. intros sp out. apply readable_iff. intros id.
    rewrite decide_False by lia. unfold owner. by rewrite decide_True.
  - eapply observes_bind; [apply (bulk_filter_spec a org idx Ea Ho (Hf Ho))|]. intros allow. apply observes_ret.
    intros sp (f & -> & Hfi). apply readable_filter. intros id. rewrite decide_True by (split; [done|lia]). apply Hfi.
Qed.
End Filter.

(** Search shows exactly what the actor could have fetched. Whichever way the
    check is made (the bag's ACL once for its items, one check per document up to
    the threshold, a bulk read of the stored ACLs above it), the matches kept are
    those the actor holds read on, in their order; enforcement off, no actor, or
    the superuser keeps them all. The bulk read takes the entry of a stored ACL as
    the typed decode reads it, which is the permission on the ACLs the server
    writes itself ([shown_granted]). *)
Theorem search_shows_readable `{BackendSpec B} (enforceACL : bool) (actor : option Actor) (org : string)
    (idx : searchIndex) (matches out : list match_) (s s' : Store B groupIndexCache) :
  current s →
  (aclObject idx = "" → ∀ id, fallbackACL (s_aclType idx) id = defaultACL) →
  filterReadable enforceACL actor org idx matches s = (Ok out, s') →
  visible enforceACL actor (objs s) org idx matches out.
Proof.
  intros Hs Hf E. pose proof (observes_filterReadable enforceACL actor org idx matches Hf s Hs) as L. rewrite E in L. by apply L.
Qed.

Definition node_index : searchIndex := mkSearchIndex "nodes" true "nodes" "".
(** More matches than the per-document path takes. *)
Definition many : list match_ := replicate 65 ("web01", "{}").

Lemma many_filtered : is_Ok (filterReadable true (Some alice) "acme" node_index many acme).1 = true.
Proof. vm_compute. reflexivity. Qed.

Lemma search_shows_readable_witness :
  match filterReadable true (Some alice) "acme" node_index many acme with
  | (Ok out, _) => visible true (Some alice) (objs acme) "acme" node_index many out
  | _ => False
  end.
Proof.
  pose proof many_filtered as Hm.
  destruct (filterReadable true (Some alice) "acme" node_index many acme) as [[out|e] s'] eqn:E; [|discriminate Hm].
  refine (search_shows_readable true (Some alice) "acme" node_index many out acme s' _ (λ _ _, eq_refl) E).
  apply current_empty; [reflexivity|reflexivity|vm_compute; discriminate|reflexivity].
Defined.

(** The two ways part on an entry whose members are spelled in another case, as a
    client may write one: 65 matches are shown to an actor that is refused the
    object itself, and that a search with one match does not show. *)
Definition cased_acl : string := mustEncode (VObj [("read", VObj [("Actors", VArr [VStr "mallory"])])]).
Example bulk_reads_other_case :
  let mallory := mkActor "mallory" false false false in
  let s := (Org_Put "acme" "acls" (aclKey "nodes" "web01") cased_acl acme).2 in
  ((λ out, length out) <$> answered (filterReadable true (Some mallory) "acme" node_index many s)) = Some 65 ∧
  answered (filterReadable true (Some mallory) "acme" node_index [("web01", "{}")] s) = Some [] ∧
  answered (actorAllowed "acme" mallory "nodes" "web01" "read" s) = Some false.
Proof. vm_compute. done. Qed.
