(* ===== verification/Version.v ===== *)
(** * Cookbook versions and constraints

    internal/api/constraint.go, constraint_valid.go and [compareVersions] of
    cookbooks.go: the order of dotted versions, the constraint operators and
    the syntax Chef accepts. [int] is 64 bits wide. *)
From stdpp Require Import pretty.
From S2P Require Import Prelude GoText Json Stored.
#[local] Open Scope Z_scope.

(** ** strconv *)

Definition maxUint64 : Z := 2 ^ 64 - 1.

Inductive num_error := ErrSyntax | ErrRange.

(** The digit loop of [strconv.ParseUint(s, 10, 64)]. *)
Fixpoint parse_digits (acc : Z) (s : string) : Z + num_error :=
  match s with
  | EmptyString => inl acc
  | String c s' =>
      if digit c then
        let n := acc * 10 + (byte_of c - 48) in
        if decide (maxUint64 < n) then inr ErrRange else parse_digits n s'
      else inr ErrSyntax
  end.

Definition ParseUint (s : string) : Z + num_error :=
  if decide (s = "") then inr ErrSyntax else parse_digits 0 s.

(** [strconv.ParseInt(s, 10, 64)], and [strconv.Atoi]: the value returned next to
    the error is 0 for a syntax error and the nearest bound for a range error. *)
Definition ParseInt (s : string) : Z * option num_error :=
  let '(neg, rest) := match s with
    | String c s' => if decide (c = "+"%char) then (false, s')
                     else if decide (c = "-"%char) then (true, s') else (false, s)
    | EmptyString => (false, s)
    end in
  match ParseUint rest with
  | inr ErrSyntax => (0, Some ErrSyntax)
  | inr ErrRange => (if (neg : bool) then min_int64 else max_int64, Some ErrRange)
  | inl un =>
      if neg then if decide (2 ^ 63 < un) then (min_int64, Some ErrRange) else (- un, None)
      else if decide (2 ^ 63 ≤ un) then (max_int64, Some ErrRange) else (un, None)
  end.

Definition strconv_Atoi (s : string) : Z * option num_error := ParseInt s.

(** ** Comparison (cookbooks.go) *)

(** [strings.Compare]. *)
Definition Compare (a b : string) : Z :=
  match String.compare a b with Lt => -1 | Eq => 0 | Gt => 1 end.

(** One pass of the loop body: [None] goes on to the next segment. *)
Definition compare_segment (av bv : string) : option Z :=
  if decide (av = bv) then None
  else match strconv_Atoi av, strconv_Atoi bv with
       | (an, None), (bn, None) =>
           if decide (an = bn) then None else Some (if decide (an < bn) then -1 else 1)
       | _, _ => Some (Compare av bv)
       end.

(** The loop over the longer of the two segment lists, the shorter one padded
    with "0". *)
Fixpoint compare_segments (l1 l2 : list string) : Z :=
  match l1, l2 with
  | [], [] => 0
  | x :: l1', [] => default (compare_segments l1' []) (compare_segment x "0")
  | [], _ =>
      (fix pad l2 := match l2 with
        | [] => 0
        | y :: l2' => default (pad l2') (compare_segment "0" y)
        end) l2
  | x :: l1', y :: l2' => default (compare_segments l1' l2') (compare_segment x y)
  end.

Definition compareVersions (a b : string) : Z :=
  compare_segments (split_on "." a) (split_on "." b).

(** ** Constraints (constraint.go) *)

Definition operators : list string := ["~>"; ">="; "<="; "=="; "!="; "="; ">"; "<"].

Definition set_last (l : list string) (v : string) : list string := removelast l ++ [v].

Definition pessimisticUpper (ver : string) : string :=
  let parts := split_on "." ver in
  let parts := if decide (1 < length parts)%nat then removelast parts else parts in
  let n := (strconv_Atoi (List.last parts "")).1 in
  join "." (set_last parts (pretty (wrap_int64 (n + 1)))).

Section Constraint.
Context `{Unicode}.

Fixpoint split_operator (ops : list string) (c : string) : string * string :=
  match ops with
  | [] => ("", c)
  | op :: ops' =>
      match cut_prefix op c with
      | Some rest => (op, TrimSpace rest)
      | None => split_operator ops' c
      end
  end.

Definition splitConstraint (c : string) : string * string := split_operator operators c.

Definition satisfiesConstraint (version constraint : string) : bool :=
  let constraint := TrimSpace constraint in
  if decide (constraint = "") then true
  else
    let '(op, ver) := splitConstraint constraint in
    let cmp := compareVersions version ver in
    if decide (op = "=" ∨ op = "==") then bool_decide (cmp = 0)
    else if decide (op = "!=") then bool_decide (cmp ≠ 0)
    else if decide (op = ">") then bool_decide (cmp > 0)
    else if decide (op = "<") then bool_decide (cmp < 0)
    else if decide (op = ">=") then bool_decide (cmp >= 0)
    else if decide (op = "<=") then bool_decide (cmp <= 0)
    else if decide (op = "~>") then
      bool_decide (cmp >= 0) && bool_decide (compareVersions version (pessimisticUpper ver) < 0)
    else bool_decide (cmp = 0).
End Constraint.

(** ** Syntax (constraint_valid.go) *)

Definition valid_part (p : string) : bool :=
  match ParseInt p with (n, None) => bool_decide (0 ≤ n) | (_, Some _) => false end.

Definition validCookbookVersion (version : string) : bool :=
  let parts := split_on "." version in
  if decide (3 < length parts)%nat then false else forallb valid_part parts.

Fixpoint cut_operator (ops : list string) (c : string) : string :=
  match ops with
  | [] => c
  | op :: ops' => match cut_prefix op c with Some rest => rest | None => cut_operator ops' c end
  end.

Definition validCookbookConstraint (c : string) : bool :=
  validCookbookVersion (cut_operator ["< "; "> "; "<= "; ">= "; "~> "; "= "] c).

(** ** Integers and their text *)

Lemma parse_digits_pretty (x : N) : Z.of_N x ≤ maxUint64 → ∀ s,
  parse_digits 0 (pretty_N_go x s) = parse_digits (Z.of_N x) s.
Proof.
  induction (N.lt_wf_0 x) as [x _ IH]; intros Hx s.
  destruct (decide (x = 0)%N) as [->|H0]; [by rewrite pretty_N_go_0|].
  rewrite pretty_N_go_step by lia. rewrite IH; [|apply N.div_lt; lia|rewrite N2Z.inj_div; zlia]. cbn [parse_digits].
  destruct (pretty_char_digit (x `mod` 10)) as [-> ->]; [apply N.mod_lt; lia|].
  assert (Z.of_N (x / 10) * 10 + Z.of_N (x mod 10) = Z.of_N x) as -> by (rewrite N2Z.inj_div, N2Z.inj_mod; zlia).
  by rewrite decide_False by lia.
Qed.

Lemma pretty_nat_go_nonempty (x : N) (s : string) : s ≠ "" → pretty_N_go x s ≠ "".
Proof.
  revert s. induction (N.lt_wf_0 x) as [x _ IH]; intros s Hs.
  destruct (decide (x = 0)%N) as [->|H0]; [by rewrite pretty_N_go_0|].
  rewrite pretty_N_go_step by lia. apply IH; [apply N.div_lt; lia|done].
Qed.

(** [strconv.Itoa] then [strconv.Atoi]. *)
Lemma Atoi_pretty (n : Z) : 0 ≤ n ≤ max_int64 → strconv_Atoi (pretty n) = (n, None).
Proof.
  intros Hn. destruct n as [|p|p]; [done| |lia]. change (pretty (Z.pos p)) with (pretty_N_go (N.pos p) "").
  pose proof (parse_digits_pretty (N.pos p) ltac:(unfold max_int64, maxUint64 in *; lia) "") as Hp.
  assert (∀ c t, pretty_N_go (N.pos p) "" = String c t → digit c = true) as Hd.
  { intros c t E. rewrite E in Hp. cbn in Hp. by destruct (digit c). }
  assert (pretty_N_go (N.pos p) "" ≠ "") as Hne.
  { rewrite pretty_N_go_step by lia. by apply pretty_nat_go_nonempty. }
  unfold strconv_Atoi, ParseInt. destruct (pretty_N_go (N.pos p) "") as [|c t] eqn:E; [done|].
  specialize (Hd c t eq_refl). rewrite decide_False by (by intros ->). rewrite decide_False by (by intros ->).
  unfold ParseUint. rewrite decide_False by done. rewrite Hp. cbn [parse_digits].
  unfold max_int64 in *. by rewrite decide_False by lia.
Qed.

(** ** The order on numeric versions *)

Definition integer (p : string) : bool := match strconv_Atoi p with (_, None) => true | _ => false end.

(** Every component is an integer. *)
Definition numeric (v : string) : Prop := Forall (λ p, integer p = true) (split_on "." v).

(** The components, zero past the end. *)
Definition comp (l : list string) (i : nat) : Z :=
  match l !! i with Some p => (strconv_Atoi p).1 | None => 0 end.
Definition component (v : string) : nat → Z := comp (split_on "." v).

(** Lexicographic order of component sequences. *)
Definition before (f g : nat → Z) : Prop := ∃ i, (∀ j, (j < i)%nat → f j = g j) ∧ f i < g i.

Lemma before_irrefl f g : before f g → (∀ i, f i = g i) → False.
Proof. intros (i & _ & Hi) He. specialize (He i). lia. Qed.

Lemma before_asym f g : before f g → before g f → False.
Proof.
  intros (i & Hi & Hlt) (j & Hj & Hlt').
  destruct (Nat.lt_trichotomy i j) as [Hij|[->|Hij]].
  - rewrite (Hj i Hij) in Hlt. lia.
  - lia.
  - rewrite (Hi j Hij) in Hlt'. lia.
Qed.

Lemma before_trans f g h : before f g → before g h → before f h.
Proof.
  intros (i & Hi & Hlt) (j & Hj & Hlt').
  destruct (Nat.lt_trichotomy i j) as [Hij|[->|Hij]].
  - exists i. split; [intros k Hk; rewrite Hi, Hj by lia; done|]. rewrite <-(Hj i Hij). lia.
  - exists j. split; [intros k Hk; rewrite Hi, Hj by lia; done|lia].
  - exists j. split; [intros k Hk; rewrite Hi, Hj by lia; done|]. rewrite (Hi j Hij). lia.
Qed.

(** How the comparison of two sequences came out. *)
Definition outcome (f g : nat → Z) (c : Z) : Prop :=
  (c = -1 ∧ before f g) ∨ (c = 0 ∧ ∀ i, f i = g i) ∨ (c = 1 ∧ before g f).

Lemma outcome_cons (l1 l2 : list string) (x y : string) (c : Z) :
  integer x = true → integer y = true → outcome (comp l1) (comp l2) c →
  outcome (comp (x :: l1)) (comp (y :: l2)) (default c (compare_segment x y)).
Proof.
  unfold integer, compare_segment. intros Hx Hy Hc.
  assert ((strconv_Atoi x).1 = (strconv_Atoi y).1 → outcome (comp (x :: l1)) (comp (y :: l2)) c) as Hnext.
  { intros He. assert (∀ f g : nat → Z, before f g → ∀ f' g' : nat → Z, f' 0%nat = g' 0%nat →
      (∀ i, f' (S i) = f i) → (∀ i, g' (S i) = g i) → before f' g') as Hshift.
    { intros f g (i & Hi & Hlt) f' g' H0 Hf Hg. exists (S i). rewrite Hf, Hg. split; [|done].
      intros [|j] Hj; [done|]. rewrite Hf, Hg. apply Hi. lia. }
    destruct Hc as [[-> Hb]|[[-> Hb]|[-> Hb]]]; [left|right; left|right; right]; (split; [done|]).
    - by eapply Hshift.
    - intros [|i]; [done|apply Hb].
    - by eapply Hshift. }
  case_decide as Exy; [subst; by apply Hnext|].
  destruct (strconv_Atoi x) as [an [?|]] eqn:Ex, (strconv_Atoi y) as [bn [?|]] eqn:Ey; try done.
  destruct (decide (an = bn)) as [->|Hne]; [by apply Hnext|]. cbn [default].
  assert (comp (x :: l1) 0 = an ∧ comp (y :: l2) 0 = bn) as [Ha Hb] by (unfold comp; cbn; by rewrite Ex, Ey).
  destruct (decide (an < bn)); [left|right; right]; (split; [done|]); exists 0%nat;
    (split; [lia|]); rewrite Ha, Hb; lia.
Qed.

Lemma comp_nil i : comp [] i = comp ["0"] i.
Proof. by destruct i. Qed.

Lemma outcome_ext (f f' g g' : nat → Z) c :
  (∀ i, f i = f' i) → (∀ i, g i = g' i) → outcome f g c → outcome f' g' c.
Proof. unfold outcome, before. intros Hf Hg. setoid_rewrite Hf. by setoid_rewrite Hg. Qed.

Lemma compare_segments_outcome (l1 l2 : list string) :
  Forall (λ p, integer p = true) l1 → Forall (λ p, integer p = true) l2 →
  outcome (comp l1) (comp l2) (compare_segments l1 l2).
Proof.
  intros H1. revert l2. induction H1 as [|x l1 Hx H1 IH]; intros l2 H2.
  - induction H2 as [|y l2 Hy H2 IH2]; [by right; left|].
    eapply outcome_ext; [intros i; symmetry; apply comp_nil|done|].
    destruct l2 as [|z l2]; by apply (outcome_cons []).
  - destruct H2 as [|y l2 Hy H2]; cbn [compare_segments]; [|by apply outcome_cons; [..|apply IH]].
    eapply outcome_ext; [done|intros i; symmetry; apply comp_nil|].
    by apply outcome_cons; [..|apply IH].
Qed.

Lemma compareVersions_outcome (a b : string) : numeric a → numeric b →
  outcome (component a) (component b) (compareVersions a b).
Proof. apply compare_segments_outcome. Qed.

(** The sign of a comparison, from its outcome. *)
Lemma outcome_iff f g c : outcome f g c →
  (c < 0 ↔ before f g) ∧ (c = 0 ↔ ∀ i, f i = g i) ∧ (0 < c ↔ before g f).
Proof.
  intros [[-> Hb]|[[-> Hb]|[-> Hb]]]; repeat split; try lia; intros H; try done; exfalso.
  - by eapply before_irrefl.
  - by eapply before_asym.
  - eapply before_irrefl; [exact H|done].
  - eapply before_irrefl; [exact H|]. intros i. by rewrite Hb.
  - by eapply before_asym.
  - eapply before_irrefl; [exact Hb|]. intros i. by rewrite H.
Qed.

(** ** Valid versions *)

Lemma valid_part_integer p : valid_part p = true → integer p = true ∧ 0 ≤ (strconv_Atoi p).1.
Proof.
  unfold valid_part, integer, strconv_Atoi. destruct (ParseInt p) as [n [e|]]; [done|].
  intros Hn%bool_decide_eq_true. done.
Qed.

Lemma valid_version_parts v : validCookbookVersion v = true →
  (length (split_on "." v) ≤ 3)%nat ∧ Forall (λ p, valid_part p = true) (split_on "." v).
Proof.
  unfold validCookbookVersion. case_decide; [done|]. intros Hv. split; [lia|].
  apply Forall_forall. intros p Hp. rewrite forallb_forall in Hv. apply Hv. by apply list_elem_of_In.
Qed.

Lemma valid_version_numeric v : validCookbookVersion v = true → numeric v ∧ ∀ i, 0 ≤ component v i.
Proof.
  intros [_ Hv]%valid_version_parts. split.
  - eapply Forall_impl; [exact Hv|]. intros p Hp. by apply valid_part_integer.
  - intros i. unfold component, comp. destruct (split_on "." v !! i) as [p|] eqn:E; [|lia].
    apply valid_part_integer. by eapply Forall_lookup_1 in Hv.
Qed.

(** The bytes of a valid version. *)
Definition version_char (c : ascii) : bool :=
  digit c || bool_decide (c = "+"%char ∨ c = "-"%char ∨ c = "."%char).

Lemma parse_digits_chars s : ∀ acc n, parse_digits acc s = inl n → str_forall digit s = true.
Proof.
  induction s as [|c s IH]; intros acc n; [done|]. cbn [parse_digits str_forall].
  destruct (digit c); [|done]. case_decide; [done|]. intros E. cbn. by eapply IH.
Qed.

Lemma valid_part_chars p : valid_part p = true → p ≠ "" ∧ str_forall version_char p = true.
Proof.
  unfold valid_part, ParseInt. intros Hp.
  assert (∀ r un, ParseUint r = inl un → r ≠ "" ∧ str_forall version_char r = true) as Hu.
  { unfold ParseUint. intros r un. case_decide; [done|]. intros E%parse_digits_chars. split; [done|].
    eapply str_forall_impl; [|exact E]. intros c Hc. unfold version_char. by rewrite Hc. }
  destruct p as [|c p']; [done|]. split; [done|].
  destruct (decide (c = "+"%char)) as [->|H1]; [|destruct (decide (c = "-"%char)) as [->|H2]].
  - destruct (ParseUint p') as [un|[]] eqn:E; [|done..]. by apply Hu in E as [_ ?].
  - destruct (ParseUint p') as [un|[]] eqn:E; [|done..]. by apply Hu in E as [_ ?].
  - destruct (ParseUint (String c p')) as [un|[]] eqn:E; [|done..]. by apply Hu in E as [_ ?].
Qed.

Lemma join_chars (P : ascii → bool) (l : list string) : P "."%char = true →
  Forall (λ p, str_forall P p = true) l → str_forall P (join "." l) = true.
Proof.
  intros Hd. induction l as [|w [|w' l] IH]; intros Hl; [done|..].
  - by apply Forall_cons in Hl as [? _].
  - apply Forall_cons in Hl as [Hw Hl].
    change (join "." (w :: w' :: l)) with (w +:+ String "." (join "." (w' :: l))).
    rewrite str_forall_app, Hw. cbn. rewrite Hd. by apply IH.
Qed.

Lemma valid_version_chars v : validCookbookVersion v = true → v ≠ "" ∧ str_forall version_char v = true.
Proof.
  intros [_ Hv]%valid_version_parts. split.
  - intros ->. by apply Forall_cons in Hv as [? _].
  - rewrite <-(join_split "." v). apply join_chars; [done|]. eapply Forall_impl; [exact Hv|].
    intros p Hp. by apply valid_part_chars.
Qed.

(** ** Trimming a constraint *)

Definition starts_solid (s : string) : Prop :=
  match s with String c _ => space_char c = false | EmptyString => True end.

Lemma drop_space_solid s : starts_solid s → drop_space s = s.
Proof. destruct s as [|c s]; [done|]. cbn. by intros ->. Qed.

Lemma version_char_solid c : version_char c = true → space_char c = false ∧ is_ascii_char c = true.
Proof.
  unfold version_char, digit, space_char, is_ascii_char. intros [Hd|Hd]%orb_prop.
  - apply bool_decide_eq_true in Hd. split; [apply bool_decide_eq_false|apply bool_decide_eq_true]; lia.
  - apply bool_decide_eq_true in Hd as [-> | [-> | ->]]; done.
Qed.

Section Trim.
Context `{Unicode}.

Lemma TrimSpace_solid (pre v : string) : v ≠ "" → str_forall version_char v = true →
  is_ascii pre = true → starts_solid (pre +:+ v) → TrimSpace (pre +:+ v) = pre +:+ v.
Proof.
  intros Hne Hv Hp Hs. unfold TrimSpace, is_ascii in *.
  rewrite str_forall_app, Hp, (str_forall_impl version_char) by (try done; intros c Hc; by apply version_char_solid).
  cbn [andb]. rewrite (drop_space_solid (pre +:+ v)) by done.
  rewrite str_rev_app_str, drop_space_solid; [by rewrite <-str_rev_app_str, str_rev_involutive|].
  rewrite <-str_forall_rev in Hv. destruct (str_rev v) as [|c w] eqn:E.
  - by rewrite <-(str_rev_involutive v), E in Hne.
  - cbn in Hv |- *. apply andb_prop in Hv as [Hc _]. by apply version_char_solid.
Qed.

Lemma TrimSpace_version v : v ≠ "" → str_forall version_char v = true →
  TrimSpace (String " " v) = v ∧ TrimSpace v = v.
Proof.
  intros Hne Hv. assert (starts_solid v) as Hs.
  { destruct v as [|c v]; [done|]. cbn in *. apply andb_prop in Hv as [Hc _]. by apply version_char_solid. }
  pose proof (TrimSpace_solid "" v Hne Hv eq_refl Hs) as Ht. split; [|done].
  rewrite <-Ht at 2. unfold TrimSpace, is_ascii. cbn [String.append str_forall andb drop_space].
  change (is_ascii_char " ") with true. cbn [andb].
  rewrite (str_forall_impl version_char) by (try done; intros c Hc; by apply version_char_solid).
  change (space_char " ") with true. cbn. done.
Qed.
End Trim.

(** ** The ceiling of "~>" *)

(** The components a pessimistic constraint holds fixed: all but the last one
    written, and at least the first. *)
Definition pinned (c : string) : nat := Nat.max 1 (length (split_on "." c) - 1).

Lemma pinned_pos c : (1 ≤ pinned c)%nat.
Proof. unfold pinned. lia. Qed.

(** The parts the ceiling keeps. *)
Lemma upper_parts c : ∃ ps p rest, split_on "." c = (ps ++ [p]) ++ rest ∧ pinned c = S (length ps) ∧
  pessimisticUpper c = join "." (ps ++ [pretty (wrap_int64 ((strconv_Atoi p).1 + 1))]).
Proof.
  unfold pessimisticUpper, pinned, set_last. pose proof (split_on_nonempty "." c) as Hne.
  destruct (exists_last Hne) as (ps & q & E). rewrite E. rewrite length_app. cbn [length].
  destruct ps as [|p ps' _] using rev_ind.
  - exists [], q, []. rewrite decide_False by (cbn; lia). done.
  - exists ps', p, [q]. rewrite length_app. cbn [length]. rewrite decide_True by lia.
    rewrite removelast_last, last_last, removelast_last. split_and!; [done|lia|done].
Qed.

Lemma comp_app_l l1 l2 i : (i < length l1)%nat → comp (l1 ++ l2) i = comp l1 i.
Proof. intros Hi. unfold comp. by rewrite lookup_app_l. Qed.

Lemma comp_last ps p : comp (ps ++ [p]) (length ps) = (strconv_Atoi p).1.
Proof. unfold comp. by rewrite list_lookup_middle. Qed.

Lemma comp_past l i : (length l ≤ i)%nat → comp l i = 0.
Proof. intros Hi. unfold comp. by rewrite lookup_ge_None_2. Qed.

(** [strconv.Itoa] writes digits. *)
Lemma pretty_digits (n : Z) : 0 ≤ n ≤ max_int64 → str_forall digit (pretty n) = true.
Proof.
  intros Hn. destruct n as [|p|p]; [done| |lia].
  eapply (parse_digits_chars _ 0). change (pretty (Z.pos p)) with (pretty_N_go (N.pos p) "").
  rewrite (parse_digits_pretty (N.pos p)) by (unfold max_int64, maxUint64 in *; lia). done.
Qed.

Lemma pretty_no_dot (n : Z) : 0 ≤ n ≤ max_int64 → ¬ str_in "." (pretty n).
Proof. intros Hn Hin. eapply str_forall_in in Hin; [|by apply pretty_digits]. done. Qed.

(** The ceiling is numeric: the pinned components with the last one plus one. *)
Lemma upper_components c : validCookbookVersion c = true → component c (pinned c - 1) < max_int64 →
  numeric (pessimisticUpper c) ∧
  (∀ i, (S i < pinned c)%nat → component (pessimisticUpper c) i = component c i) ∧
  component (pessimisticUpper c) (pinned c - 1) = component c (pinned c - 1) + 1 ∧
  (∀ i, (pinned c ≤ i)%nat → component (pessimisticUpper c) i = 0).
Proof.
  intros Hc Hmax. destruct (upper_parts c) as (ps & p & rest & E & Ek & Eu).
  destruct (valid_version_numeric c Hc) as [Hn Hnn].
  assert (component c (pinned c - 1) = (strconv_Atoi p).1) as Ep.
  { unfold component. rewrite E, Ek. replace (S (length ps) - 1)%nat with (length ps) by lia.
    rewrite comp_app_l by (rewrite length_app; cbn; lia). apply comp_last. }
  specialize (Hnn (pinned c - 1)%nat). rewrite Ep in Hnn, Hmax.
  assert (wrap_int64 ((strconv_Atoi p).1 + 1) = (strconv_Atoi p).1 + 1) as Ew.
  { unfold wrap_int64, max_int64 in *. rewrite Z.mod_small; lia. }
  rewrite Ew in Eu. set (q := pretty ((strconv_Atoi p).1 + 1)) in *.
  assert (strconv_Atoi q = ((strconv_Atoi p).1 + 1, None)) as Eq by (apply Atoi_pretty; lia).
  assert (split_on "." (pessimisticUpper c) = ps ++ [q]) as Es.
  { rewrite Eu. apply split_on_join; [by destruct ps|]. pose proof (split_on_parts "." c) as Hp.
    rewrite E, !Forall_app in Hp. apply Forall_app. split; [tauto|]. constructor; [|done].
    apply pretty_no_dot. lia. }
  rewrite Ep. unfold numeric, component. rewrite Es, E, Ek.
  unfold numeric in Hn. rewrite E, !Forall_app in Hn.
  replace (S (length ps) - 1)%nat with (length ps) by lia. split_and!.
  - apply Forall_app. split; [tauto|]. constructor; [|done]. unfold integer. by rewrite Eq.
  - intros i Hi. rewrite <-app_assoc, !comp_app_l by lia. done.
  - by rewrite comp_last, Eq.
  - intros i Hi. apply comp_past. rewrite length_app. cbn. lia.
Qed.

(** At or above [g] and under the ceiling [u] is agreeing with [g] below [k]. *)
Lemma under_ceiling (f g u : nat → Z) (k : nat) : (1 ≤ k)%nat → (∀ i, 0 ≤ f i) →
  (∀ i, (S i < k)%nat → u i = g i) → u (k - 1)%nat = g (k - 1)%nat + 1 → (∀ i, (k ≤ i)%nat → u i = 0) →
  ¬ before f g → (before f u ↔ ∀ i, (i < k)%nat → f i = g i).
Proof.
  intros Hk Hf Hu1 Hu2 Hu3 Hge. split.
  - intros (i & Hi & Hlt). assert (i < k)%nat as Hik.
    { destruct (decide (i < k)%nat); [done|]. rewrite Hu3 in Hlt by lia. specialize (Hf i). lia. }
    assert (∀ j, (j < i)%nat → f j = g j) as Hj by (intros j Hj; rewrite Hi, Hu1 by lia; done).
    destruct (decide (S i = k)) as [<-|Hne].
    + replace (S i - 1)%nat with i in Hu2 by lia. assert (f i = g i).
      { destruct (decide (f i < g i)); [|lia]. destruct Hge. by exists i. }
      intros j Hj'. destruct (decide (j = i)) as [->|]; [done|]. apply Hj. lia.
    + destruct Hge. exists i. split; [done|]. rewrite Hu1 in Hlt by lia. done.
  - intros He. exists (k - 1)%nat. split.
    + intros j Hj. rewrite He, Hu1 by lia. done.
    + rewrite He, Hu2 by lia. lia.
Qed.

(** ** What the operators mean *)

(** [f] the components of the version, [g] those of the constraint, [k] how many
    of them "~>" pins. *)
Definition meaning (op : string) (f g : nat → Z) (k : nat) : Prop :=
  if decide (op = "=") then ∀ i, f i = g i
  else if decide (op = ">") then before g f
  else if decide (op = "<") then before f g
  else if decide (op = ">=") then ¬ before f g
  else if decide (op = "<=") then ¬ before g f
  else ¬ before f g ∧ ∀ i, (i < k)%nat → f i = g i.

Definition chef_operators : list string := ["<"; ">"; "<="; ">="; "~>"; "="].

Lemma split_chef `{Unicode} (op c : string) : op ∈ chef_operators → c ≠ "" → str_forall version_char c = true →
  TrimSpace (op +:+ " " +:+ c) = op +:+ " " +:+ c ∧ splitConstraint (op +:+ " " +:+ c) = (op, c).
Proof.
  intros Hop Hne Hc. destruct (TrimSpace_version c Hne Hc) as [Ht _]. apply list_elem_of_In in Hop.
  rewrite <-app_string_assoc at 1 2.
  repeat destruct Hop as [<-|Hop]; [..|done]; (split; [by apply TrimSpace_solid|]);
    unfold splitConstraint, operators; cbn [split_operator cut_prefix String.append]; decide_literals; by rewrite Ht.
Qed.

(** On valid versions each of Chef's constraint operators means its reading of
    the lexicographic order of components, missing ones counting as zero:
    "=", "<", ">", "<=" and ">=" as they read, and "~>" at or above the
    constraint with every component but the last one written held fixed. *)
Theorem constraint_semantics `{Unicode} (op v c : string)
    (Hop : op ∈ chef_operators) (Hv : validCookbookVersion v = true) (Hc : validCookbookVersion c = true)
    (Hmax : component c (pinned c - 1) < max_int64) :
  satisfiesConstraint v (op +:+ " " +:+ c) = true ↔ meaning op (component v) (component c) (pinned c).
Proof.
  destruct (valid_version_chars c Hc) as [Hne Hch]. destruct (split_chef op c Hop Hne Hch) as [Ht Es].
  destruct (valid_version_numeric v Hv) as [Hvn Hv0], (valid_version_numeric c Hc) as [Hcn _].
  destruct (outcome_iff _ _ _ (compareVersions_outcome v c Hvn Hcn)) as (Hlt & Heq & Hgt).
  assert (¬ before (component v) (component c) →
    (compareVersions v (pessimisticUpper c) < 0 ↔ ∀ i, (i < pinned c)%nat → component v i = component c i)) as Hup.
  { intros Hge. destruct (upper_components c Hc Hmax) as (Hun & H1 & H2 & H3).
    destruct (outcome_iff _ _ _ (compareVersions_outcome v _ Hvn Hun)) as (-> & _).
    apply under_ceiling; try done. apply pinned_pos. }
  unfold satisfiesConstraint. rewrite Ht, Es. rewrite decide_False by (by destruct op).
  apply list_elem_of_In in Hop. unfold meaning.
  repeat destruct Hop as [<-|Hop]; [..|done]; decide_literals; rewrite ?andb_true_iff, ?bool_decide_eq_true.
  - done.
  - rewrite <-Hgt. lia.
  - rewrite <-Hgt. lia.
  - rewrite <-Hlt. lia.
  - rewrite <-Hlt. split; [intros [Hge Hu]|intros [Hge Hu]]; (split; [lia|]); revert Hu; apply Hup; rewrite <-Hlt; lia.
  - done.
Qed.

Lemma constraint_semantics_witness :
  satisfiesConstraint (H := caseless_unicode) "1.4.9" ("~>" +:+ " " +:+ "1.4") = true.
Proof.
  apply (constraint_semantics (H := caseless_unicode) "~>" "1.4.9" "1.4"); [by vm_compute; repeat constructor|done|done|done|].
  split; [intros (i & Hi & Hlt)|].
  - destruct i as [|[|[|i]]]; vm_compute in Hlt; done.
  - intros [|i] Hi; [done|]. vm_compute in Hi. lia.
Defined.

(** The ceiling of "~>" is computed at 64 bits: at the largest component it
    wraps to the smallest integer, and a valid constraint on that component
    admits no version, not even the one it names. *)
Theorem pessimistic_ceiling_wraps `{Unicode} :
  let c := "9223372036854775807.0" in
  validCookbookConstraint ("~> " +:+ c) = true ∧ validCookbookVersion c = true ∧
  pessimisticUpper c = "-9223372036854775808" ∧ satisfiesConstraint c ("~> " +:+ c) = false.
Proof. split_and!; vm_compute; reflexivity. Qed.

(** The comparison is no order on the versions it falls back on text for (its
    comment calls it deterministic), and two valid versions can tie. *)
Theorem comparison_is_no_order :
  (compareVersions "9" "10" = -1 ∧ compareVersions "10" "1a" = -1 ∧ compareVersions "1a" "9" = -1) ∧
  (validCookbookVersion "1.0" = true ∧ validCookbookVersion "1.0.0" = true ∧ compareVersions "1.0" "1.0.0" = 0).
Proof. split_and!; vm_compute; reflexivity. Qed.
