(* ===== verification/Presign.v ===== *)
(** * Pre-signed file-store grants (internal/auth/presign.go)

    The query string that authorizes one transfer of a cookbook file, and its
    verification. HMAC-SHA256 is the [HMAC] class; net/url's query encoding is
    written out. *)
From stdpp Require Import pretty.
From S2P Require Import Prelude GoText Json Chefjson Float GoJson Normalize Stored Version.
#[local] Open Scope go_scope.

(** ** net/url queries *)

Definition unreserved (c : ascii) : bool :=
  let b := byte_of c in
  bool_decide (48 ≤ b ≤ 57 ∨ 65 ≤ b ≤ 90 ∨ 97 ≤ b ≤ 122)%Z
  || bool_decide (c ∈ ["-"; "_"; "."; "~"]%char).

Definition query_escape_char (c : ascii) : string :=
  if unreserved c then String c ""
  else if decide (c = " "%char) then "+"
  else String "%" (String (hexUpper (Z.shiftr (byte_of c) 4)) (String (hexUpper (Z.land (byte_of c) 15)) "")).

Fixpoint QueryEscape (s : string) : string :=
  match s with EmptyString => "" | String c s' => query_escape_char c +:+ QueryEscape s' end.

(** [None] is the error of a malformed escape. *)
Fixpoint QueryUnescape (s : string) : option string :=
  match s with
  | EmptyString => Some ""
  | String c s' =>
      if decide (c = "%"%char) then
        match s' with
        | String a (String b s'') =>
            match hex_val a, hex_val b with
            | Some x, Some y => String (chr (x * 16 + y)%Z) <$> QueryUnescape s''
            | _, _ => None
            end
        | _ => None
        end
      else if decide (c = "+"%char) then String " " <$> QueryUnescape s'
      else String c <$> QueryUnescape s'
  end.

(** One [key=value] setting; a malformed one is skipped. *)
Definition parse_setting (s : string) : option (string * string) :=
  if decide (str_in ";" s) then None
  else if decide (s = "") then None
  else
    let '(k, v) := match cut_byte "=" s with Some (k, v) => (k, v) | None => (s, "") end in
    match QueryUnescape k, QueryUnescape v with Some k, Some v => Some (k, v) | _, _ => None end.

(** [url.ParseQuery], as (name, value) pairs in the order they came. *)
Definition ParseQuery (q : string) : list (string * string) := omap parse_setting (split_on "&" q).

(** [url.Values.Get]. *)
Fixpoint Values_Get (q : list (string * string)) (name : string) : string :=
  match q with
  | [] => ""
  | (k, v) :: q' => if decide (k = name) then v else Values_Get q' name
  end.

Definition encode_settings (settings : list (string * string)) : string :=
  join "&" (map (λ s, QueryEscape s.1 +:+ String "=" (QueryEscape s.2)) settings).

(** ** Grants *)

Class HMAC := hmac_sha256 : string → string → string.

Definition FileStoreGet : string := "get".
Definition FileStorePut : string := "put".

Fixpoint hex_encode (s : string) : string :=
  match s with
  | EmptyString => ""
  | String c s' => String (hexDigits (Z.shiftr (byte_of c) 4)) (String (hexDigits (Z.land (byte_of c) 15)) (hex_encode s'))
  end.

Definition mac_input (org checksum op exp : string) : string :=
  org +:+ String NUL (checksum +:+ String NUL (op +:+ String NUL (exp +:+ String NUL ""))).

(** A point in time: seconds since the epoch and nanoseconds. *)
Record time := mkTime { Unix : Z; nsec : Z }.

(** [time.Unix(sec, 0)] counts from year 1 in an int64; so does [Time.After]. *)
Definition unixToInternal : Z := 62135596800.
Definition After (t u : time) : bool :=
  let s x := wrap_int64 (Unix x + unixToInternal) in
  bool_decide (s u < s t ∨ s u = s t ∧ nsec u < nsec t)%Z.

Section Grants.
Context `{HMAC}.

Definition fileStoreMAC (key org checksum op exp : string) : string :=
  hex_encode (hmac_sha256 key (mac_input org checksum op exp)).

Definition FileStoreQuery (key org checksum op : string) (exp : time) : string :=
  let expStr := pretty (Unix exp) in
  encode_settings [("exp", expStr); ("op", op); ("sig", fileStoreMAC key org checksum op expStr)].

Definition VerifyFileStore (key org checksum op : string) (q : list (string * string)) (now : time) : result unit :=
  if decide (key = "") then Err (ErrOther "auth: no file store key configured")
  else if decide (Values_Get q "sig" = "") then Err (ErrOther "auth: file store request is not signed")
  else
    let expStr := Values_Get q "exp" in
    match ParseInt expStr with
    | (_, Some _) => Err (ErrOther "auth: file store grant has an invalid expiry")
    | (exp, None) =>
        if decide (Values_Get q "sig" ≠ fileStoreMAC key org checksum (Values_Get q "op") expStr)
        then Err (ErrOther "auth: file store grant is not valid for this request")
        else if decide (Values_Get q "op" ≠ op)
        then Err (ErrOther "auth: file store grant does not authorize this operation")
        else if After now (mkTime exp 0) then Err (ErrOther "auth: file store grant has expired")
        else Ok tt
    end.
End Grants.

(** ** Queries are read back *)

Lemma unescape_escape_char c s : QueryUnescape (query_escape_char c +:+ s) = String c <$> QueryUnescape s.
Proof. destruct c as [[] [] [] [] [] [] [] []]; reflexivity. Qed.

Lemma QueryUnescape_escape s : QueryUnescape (QueryEscape s) = Some s.
Proof. induction s as [|c s IH]; [done|]. cbn [QueryEscape]. by rewrite unescape_escape_char, IH. Qed.

Lemma escapes_plain :
  forallb (λ b, forallb (λ d, negb (bool_decide (str_in d (query_escape_char (ascii_of_nat b))))) ["&"; "="; ";"]%char)
    (seq 0 256) = true.
Proof. vm_compute. reflexivity. Qed.

Lemma escape_char_plain c d : d ∈ ["&"; "="; ";"]%char → ¬ str_in d (query_escape_char c).
Proof.
  intros Hd Hin. pose proof escapes_plain as H. rewrite forallb_forall in H.
  specialize (H (nat_of_ascii c)). rewrite forallb_forall in H. rewrite ascii_nat_embedding in H.
  assert (negb (bool_decide (str_in d (query_escape_char c))) = true) as Hn.
  { apply H; [|by apply list_elem_of_In]. apply in_seq. pose proof (nat_ascii_bounded c). lia. }
  by rewrite bool_decide_eq_true_2 in Hn.
Qed.

Lemma QueryEscape_plain s d : d ∈ ["&"; "="; ";"]%char → ¬ str_in d (QueryEscape s).
Proof.
  intros Hd. induction s as [|c s IH]; [simpl; tauto|]. cbn [QueryEscape]. rewrite str_in_app.
  intros [Hc|Hs]; [|done]. by eapply escape_char_plain.
Qed.

Lemma ParseQuery_encode settings : settings ≠ [] → ParseQuery (encode_settings settings) = settings.
Proof.
  intros Hne. unfold ParseQuery, encode_settings. rewrite split_on_join.
  - clear Hne. induction settings as [|[k v] l IH]; [done|]. cbn [map omap list_omap]. cbn [fst snd].
    unfold parse_setting at 1. rewrite decide_False; [|rewrite str_in_app; cbn [str_in];
      pose proof (QueryEscape_plain k ";"); pose proof (QueryEscape_plain v ";"); set_solver].
    rewrite decide_False by (by destruct (QueryEscape k)).
    rewrite cut_byte_found by (apply QueryEscape_plain; set_solver). rewrite !QueryUnescape_escape.
    f_equal. exact IH.
  - by destruct settings.
  - apply Forall_forall. intros w (s & -> & _)%list_elem_of_fmap. rewrite str_in_app. cbn [str_in].
    pose proof (QueryEscape_plain s.1 "&"). pose proof (QueryEscape_plain s.2 "&"). set_solver.
Qed.

(** ** What a grant authorizes *)

Lemma hexDigits_inj x y : (0 ≤ x < 16)%Z → (0 ≤ y < 16)%Z → hexDigits x = hexDigits y → x = y.
Proof.
  intros Hx Hy E. apply (f_equal byte_of) in E. unfold hexDigits in E.
  repeat case_decide; rewrite !byte_of_chr in E by lia; lia.
Qed.

Lemma nibbles c : byte_of c = (Z.shiftr (byte_of c) 4 * 16 + Z.land (byte_of c) 15)%Z ∧
  (0 ≤ Z.shiftr (byte_of c) 4 < 16)%Z ∧ (0 ≤ Z.land (byte_of c) 15 < 16)%Z.
Proof.
  pose proof (byte_of_range c) as Hc. rewrite Z.shiftr_div_pow2 by lia.
  change 15%Z with (Z.ones 4). rewrite Z.land_ones by lia. change (2 ^ 4)%Z with 16%Z. zlia.
Qed.

Lemma hex_encode_inj s t : hex_encode s = hex_encode t → s = t.
Proof.
  revert t. induction s as [|c s IH]; intros [|d t]; try done. cbn [hex_encode]. intros [= H1 H2 H3].
  destruct (nibbles c) as (Ec & Hc1 & Hc2), (nibbles d) as (Ed & Hd1 & Hd2).
  apply hexDigits_inj in H1, H2; [|done..]. f_equal; [|by apply IH].
  apply byte_of_inj. rewrite Ec, Ed. congruence.
Qed.

Definition no_nul (s : string) : Prop := ¬ str_in NUL s.

(** Distinct fields without a NUL give distinct MAC inputs. *)
Lemma mac_input_inj o c p e o' c' p' e' :
  Forall no_nul [o; c; p; e] → Forall no_nul [o'; c'; p'; e'] →
  mac_input o c p e = mac_input o' c' p' e' → o = o' ∧ c = c' ∧ p = p' ∧ e = e'.
Proof.
  intros H1 H2 E. apply (f_equal (split_on NUL)) in E. unfold mac_input in E.
  rewrite !Forall_cons in H1, H2. destruct H1 as (? & ? & ? & ? & _), H2 as (? & ? & ? & ? & _).
  rewrite !split_on_app in E by done. by injection E.
Qed.

Lemma hex_encode_nonempty s : s ≠ "" → hex_encode s ≠ "".
Proof. by destruct s. Qed.


(** A MAC for samples: the message behind its key. *)
Definition plain_mac : HMAC := λ key msg, key +:+ msg.

Definition sample_exp : time := mkTime 1700003600 0.
Definition sample_now : time := mkTime 1700000000 5.

Lemma sample_grant :
  ("k3y" ≠ "" ∧ (0 ≤ Unix sample_exp ≤ max_int64)%Z ∧ Forall no_nul ["acme"; "abc123"; FileStorePut] ∧
   Forall no_nul ["acme"; "abc123"] ∧ Forall no_nul ["acme"; "ffff"]) ∧
  hmac_sha256 (HMAC := plain_mac) "k3y" (mac_input "acme" "abc123" FileStorePut (pretty (Unix sample_exp))) ≠ "" ∧
  After sample_now (mkTime (Unix sample_exp) 0) = false.
Proof. repeat split; try done; apply (bool_decide_unpack _); vm_compute; exact I. Qed.

