(* ===== verification/Objects.v ===== *)
(** * Named objects: nodes, roles, environments

    The generic handlers of internal/api/object.go, the validation of roles and
    environments (role_environment_validate.go), and the seeding of a new
    organization with its protected environment (environments.go). *)
From S2P Require Import Prelude GoText Json Chefjson Float GoJson Normalize Stored Runlist Store Facade Groups Http Effects Acl AclDocs GroupApi Version.
#[local] Open Scope go_scope.
#[local] Open Scope http_scope.

Abbreviation obj := (list (string * value)).

(** ** Request bodies *)

Definition not_object : gerror := ErrOther "request body is not a JSON object".

Definition decodeObjectBody (body : string) : result string :=
  match Normalize.Normalize body with
  | Err e => Err e
  | Ok raw => match raw with
              | String c _ => if decide (c = "{"%char) then Ok raw else Err not_object
              | EmptyString => Err not_object
              end
  end.

(** The stored form and its first "name". *)
Definition decodeNamedBody (body : string) : result (string * string) :=
  match decodeObjectBody body with
  | Err e => Err e
  | Ok raw => Ok (raw, default "" (String_ raw "name"))
  end.

Definition normalizeRunLists (segment raw : string) : result string :=
  if decide (segment = "nodes") then NormalizeNode raw
  else if decide (segment = "roles") then NormalizeRole raw
  else Ok raw.

(** ** Name and run-list patterns *)

Definition alnum (c : ascii) : bool :=
  let b := byte_of c in bool_decide (65 ≤ b ≤ 90 ∨ 97 ≤ b ≤ 122 ∨ 48 ≤ b ≤ 57)%Z.

(** [[.A-Za-z0-9_-]+], and with a colon allowed. *)
Definition name_text (s : string) : bool :=
  bool_decide (s ≠ "") && str_forall (λ c, alnum c || bool_decide (c ∈ ["."; "_"; "-"]%char)) s.
Definition roleNameRE (s : string) : bool :=
  bool_decide (s ≠ "") && str_forall (λ c, alnum c || bool_decide (c ∈ ["."; "_"; ":"; "-"]%char)) s.
Definition environmentNameRE (s : string) : bool := name_text s.

Definition digits_text (s : string) : bool := bool_decide (s ≠ "") && str_forall digit s.

(** [[0-9]+(\.[0-9]+){1,2}]. *)
Definition pinned_version (s : string) : bool :=
  let parts := split_on "." s in
  bool_decide (2 ≤ length parts ≤ 3) && forallb digits_text parts.

(** [(NAME::)?NAME(@VERSION)?]: no name holds a colon or an at sign. *)
Definition runListBareRE (s : string) : bool :=
  let '(recipe, version_ok) := match cut_byte "@" s with
    | Some (r, v) => (r, pinned_version v)
    | None => (s, true)
    end in
  version_ok && match cut "::" recipe with
                | Some (cookbook, name) => name_text cookbook && name_text name
                | None => name_text recipe
                end.

(** The text between [prefix] and a closing bracket. *)
Definition bracketed (prefix s : string) : option string :=
  match cut_prefix prefix s with
  | Some rest => match cut_prefix "]" (str_rev rest) with Some inner => Some (str_rev inner) | None => None end
  | None => None
  end.

Definition runListRoleRE (s : string) : bool :=
  match bracketed "role[" s with Some name => name_text name | None => false end.
Definition runListRecipeRE (s : string) : bool :=
  match bracketed "recipe[" s with Some item => runListBareRE item | None => false end.

(** ** Validation of roles and environments *)

Definition valid_item (v : value) : bool :=
  match v with
  | VStr s =>
      if has_prefix "recipe[" s then runListRecipeRE s
      else if has_prefix "role[" s then runListRoleRE s
      else runListBareRE s
  | _ => false
  end.

Definition validRunList (v : value) : bool :=
  match v with VArr items => forallb valid_item items | _ => false end.

(** The first refusal over a list; [None] accepts. *)
Fixpoint first_refusal {A} (check : A → option string) (l : list A) : option string :=
  match l with
  | [] => None
  | x :: l' => match check x with Some msg => Some msg | None => first_refusal check l' end
  end.

Definition refuse_unless (ok : bool) (msg : string) : option string := if ok then None else Some msg.

(** [name] as the body and the URL give it. *)
Definition role_name (urlName : string) (doc : obj) : option value + string :=
  if decide (urlName ≠ "") then
    match assoc doc "name" with
    | Some (VStr n) => if decide (n ≠ urlName) then inr "Role name mismatch." else inl (Some (VStr urlName))
    | Some _ => inr "Role name mismatch."
    | None => inl (Some (VStr urlName))
    end
  else inl (assoc doc "name").

Definition validateRole (urlName : string) (doc : obj) : option string :=
  match role_name urlName doc with
  | inr msg => Some msg
  | inl None => Some "Field 'name' missing"
  | inl (Some name) =>
      first_refusal id
        [refuse_unless (match name with VStr s => roleNameRE s | _ => false end) "Field 'name' invalid";
         match assoc doc "run_list" with
         | Some rl => refuse_unless (validRunList rl) "Field 'run_list' is not a valid run list"
         | None => None
         end;
         match assoc doc "env_run_lists" with
         | None => None
         | Some (VObj lists) =>
             first_refusal (λ env, first_refusal id
               [refuse_unless (environmentNameRE env) ("Invalid key '" +:+ env +:+ "' for env_run_lists");
                refuse_unless (validRunList (default VNull (assoc lists env)))
                  "Field 'env_run_lists' contains invalid run lists"]) (sort_strings (map fst lists))
         | Some _ => Some "Field 'env_run_lists' contains invalid run lists"
         end]
  end.

(** [json.Marshal]: HTML characters escaped too; they occur in strings only. *)
Fixpoint html_escape (s : string) : string :=
  match s with
  | EmptyString => ""
  | String c s' =>
      (if decide (c ∈ ["<"; ">"; "&"]%char)
       then String backslash ("u00" +:+ String (hexDigits (Z.shiftr (byte_of c) 4)) (String (hexDigits (Z.land (byte_of c) 15)) ""))
       else String c "") +:+ html_escape s'
  end.

Definition constraintText (v : value) : string :=
  match v with VStr s => s | _ => html_escape (mustEncode v) end.

Definition validateEnvironment (doc : obj) : option string :=
  match assoc doc "name" with
  | None => Some "Field 'name' missing"
  | Some name =>
      first_refusal id
        [refuse_unless (match name with VStr s => environmentNameRE s | _ => false end) "Field 'name' invalid";
         match assoc doc "cookbook_versions" with
         | None => None
         | Some (VObj versions) =>
             first_refusal (λ cookbook,
               let c := default VNull (assoc versions cookbook) in
               first_refusal id
                 [refuse_unless (environmentNameRE cookbook) ("Invalid key '" +:+ cookbook +:+ "' for cookbook_versions");
                  refuse_unless (match c with VStr s => validCookbookConstraint s | _ => false end)
                    ("Invalid value '" +:+ constraintText c +:+ "' for cookbook_versions")])
               (sort_strings (map fst versions))
         | Some _ => Some "Field 'cookbook_versions' is not a hash"
         end]
  end.

Definition validateObjectBody (segment urlName raw : string) : option string :=
  if decide (segment ≠ "roles" ∧ segment ≠ "environments") then None
  else match DecodeObject raw with
       | Err _ => Some "invalid JSON body"
       | Ok doc => if decide (segment = "roles") then validateRole urlName doc else validateEnvironment doc
       end.

(** ** Handlers *)

Definition defaultEnvironment : string := print json_escape (VObj
  [("name", VStr "_default"); ("description", VStr "The default Chef environment");
   ("cookbook_versions", VObj []); ("json_class", VStr "Chef::Environment"); ("chef_type", VStr "environment");
   ("default_attributes", VObj []); ("override_attributes", VObj [])]).

(** The stored form of a body and its name, or the message that refuses it. *)
Definition accepted (segment urlName body : string) : (string * string) + string :=
  match decodeNamedBody body with
  | Err _ => inr "invalid JSON body"
  | Ok (raw, name) =>
      match validateObjectBody segment urlName raw with
      | Some msg => inr msg
      | None => match normalizeRunLists segment raw with Ok raw' => inl (raw', name) | Err _ => inr "invalid JSON body" end
      end
  end.

Section Handlers.
Context {B : Type} `{Backend B} {O : Type}.
Abbreviation st := (Store B O).

(** The entries of a listing, the shared prefix escaped once. *)
Fixpoint list_entries (prefix : string) (first : bool) (b : string) (keys : list string) : string :=
  match keys with
  | [] => b
  | k :: keys' =>
      let b := if first then b else b +:+ "," in
      let b := appendJSONStringContent (b +:+ String quote "") k in
      let b := b +:+ String quote (String ":" (String quote "")) in
      let b := appendJSONStringContent (b +:+ prefix) k in
      list_entries prefix false (b +:+ String quote "") keys'
  end.

Definition list_body (r : request) (org segment : string) (keys : list string) : string :=
  list_entries (appendJSONStringContent "" (objectURL r org segment "")) true "{" keys +:+ "}".

Definition listObjects (segment : string) (r : request) (orgname : string) : handler st reply :=
  let? org := API_org orgname in
  let? keys := or_500 (Org_Keys org segment) in
  h_ret (writeRaw 200 (list_body r org segment keys)).

(** The body a create or an update stores: decoded, validated, normalized. *)
Definition accepted_body (segment urlName body : string) : handler st (string * string) :=
  match accepted segment urlName body with inl rn => h_ret rn | inr msg => h_reply (writeError 400 [msg]) end.

Definition createObject (enforceACL : bool) (segment : string) (r : request) (orgname : string) : handler st reply :=
  let? org := API_org orgname in
  let? rn := accepted_body segment "" (r_body r) in
  if decide (rn.2 = "") then h_reply (writeError 400 ["Field 'name' missing"])
  else
    create_or_409 org segment rn.2 rn.1 "Object already exists" ;;?
    or_500 (grantCreator enforceACL (r_actor r) org segment rn.2) ;;?
    h_ret (created_at (objectURL r org segment rn.2)).

Definition cannot_find (segment name : string) : string := "Cannot find " +:+ segment +:+ " " +:+ name.

Definition getObject (segment : string) (r : request) (orgname name : string) : handler st reply :=
  let? org := API_org orgname in
  let? o := or_500 (viewObject r org segment name) in
  match o with
  | None => h_reply (writeError 404 [cannot_find segment name])
  | Some raw => h_ret (writeRaw 200 raw)
  end.

Definition putObject (segment : string) (r : request) (orgname name : string) : handler st reply :=
  let? org := API_org orgname in
  exists_ r org segment name (cannot_find segment name) ;;?
  let? rn := accepted_body segment name (r_body r) in
  or_500 (Org_Put org segment name rn.1) ;;?
  h_ret (writeRaw 200 rn.1).

Definition deleteObject (segment : string) (orgname name : string) : handler st reply :=
  let? org := API_org orgname in
  let? o := or_500 (Org_Delete org segment name) in
  match o with
  | None => h_reply (writeError 404 [cannot_find segment name])
  | Some raw => or_500 (deleteACL org segment name) ;;? h_ret (writeRaw 200 raw)
  end.

Definition headObject (segment : string) (r : request) (orgname name : string) : handler st reply :=
  let? org := API_org orgname in
  let? o := or_500 (viewObject r org segment name) in
  match o with
  | None => h_ret (mkReply 404 NoBody)
  | Some _ => h_ret (mkReply 200 NoBody)
  end.

(** The routes of the default environment that refuse. *)
Definition put_default : handler st reply :=
  h_ret (writeError 405 ["The '_default' environment cannot be modified."]).
Definition delete_default : handler st reply :=
  h_ret (writeError 405 ["The '_default' environment cannot be deleted."]).

Definition SeedOrg (org : string) : ST st unit :=
  seed org "environments" "_default" defaultEnvironment ;;! seedAuthz org.
End Handlers.

(** ** What the handlers store *)

Section Exact.
Context {B : Type} `{BackendSpec B} {O : Type}.

Lemma ens_grantCreator enforceACL actor org typ name sp (Q : result unit → space → Prop) :
  (let granted := match actor with
     | Some a => if (enforceACL : bool) then sp_put org "acls" (aclKey typ name) (mustEncode (VObj (creatorACL (a_name a)))) sp else sp
     | None => sp end in Q (Ok tt) granted) → (∀ e, Q (Err e) sp) →
  ensures (B := B) (O := O) (grantCreator enforceACL actor org typ name) sp Q.
Proof.
  intros HO HE. unfold grantCreator. destruct enforceACL; [|destruct actor; by apply ens_ret].
  destruct actor; [by apply ens_Put|by apply ens_ret].
Qed.

Lemma ens_deleteACL org typ name sp (Q : result unit → space → Prop) :
  Q (Ok tt) (sp_delete org "acls" (aclKey typ name) sp) → (∀ e, Q (Err e) sp) →
  ensures (B := B) (O := O) (deleteACL org typ name) sp Q.
Proof. intros HO HE. apply ens_bind, ens_Delete; [by apply ens_ret|done]. Qed.

Lemma h_ens_create_or_409 org coll key doc msg sp (Q : unit + reply → space → Prop) :
  (s_objs sp !! (org, coll, key) = None → Q (inl tt) (sp_put org coll key doc sp)) →
  (is_Some (s_objs sp !! (org, coll, key)) → Q (inr (writeError 409 [msg])) sp) →
  (∀ e, Q (inr (internal_error e)) sp) →
  h_ensures (B := B) (O := O) (create_or_409 org coll key doc msg) sp Q.
Proof.
  intros HO HC HE. apply h_ens_bind, h_ens_attempt, ens_Create.
  - intros. by apply h_ens_ret, HO.
  - intros. by apply h_ens_reply, HC.
  - intros e He. destruct e as [|text]; [done|]. apply h_ens_reply. by apply (HE (ErrOther text)).
Qed.

(** The contents after the creator's grant. *)
Definition granted_to (enforceACL : bool) (actor : option Actor) (org typ name : string) (sp : space) : space :=
  match actor with
  | Some a => if enforceACL then sp_put org "acls" (aclKey typ name) (mustEncode (VObj (creatorACL (a_name a)))) sp else sp
  | None => sp
  end.

(** A refusal that changed nothing. *)
Definition refused_clean (rep : reply) (sp sp' : space) : Prop :=
  status rep ∈ [400; 404; 409; 500]%Z ∧ sp' = sp.

(** The outcomes of the writing handlers. *)
Definition create_outcome (enforceACL : bool) (segment : string) (r : request) (org : string) (rep : reply) (sp sp' : space) : Prop :=
  refused_clean rep sp sp' ∨
  ∃ raw name, accepted segment "" (r_body r) = inl (raw, name) ∧ name ≠ "" ∧ org ∈ s_orgs sp ∧
    s_objs sp !! (org, segment, name) = None ∧
    ((status rep = 201%Z ∧ sp' = granted_to enforceACL (r_actor r) org segment name (sp_put org segment name raw sp)) ∨
     (status rep = 500%Z ∧ sp' = sp_put org segment name raw sp)).

Definition put_outcome (segment : string) (r : request) (org name : string) (rep : reply) (sp sp' : space) : Prop :=
  refused_clean rep sp sp' ∨
  ∃ raw n, accepted segment name (r_body r) = inl (raw, n) ∧ is_Some (seen r sp org segment name) ∧
    rep = writeRaw 200 raw ∧ sp' = sp_put org segment name raw sp.

Definition delete_outcome (segment org name : string) (rep : reply) (sp sp' : space) : Prop :=
  (status rep ∈ [404; 500]%Z ∧ s_objs sp' = s_objs sp) ∨
  ∃ raw, s_objs sp !! (org, segment, name) = Some raw ∧
    ((rep = writeRaw 200 raw ∧ sp' = sp_delete org "acls" (aclKey segment name) (sp_delete org segment name sp)) ∨
     (status rep = 500%Z ∧ sp' = sp_delete org segment name sp)).

Definition reply_of (r : reply + reply) : reply := match r with inl rep | inr rep => rep end.

Lemma h_ens_accepted segment urlName body sp (Q : (string * string) + reply → space → Prop) :
  (∀ rn, accepted segment urlName body = inl rn → Q (inl rn) sp) →
  (∀ rep, status rep = 400%Z → Q (inr rep) sp) → h_ensures (B := B) (O := O) (accepted_body segment urlName body) sp Q.
Proof.
  intros HO HE. unfold accepted_body. destruct (accepted segment urlName body) as [rn|msg].
  - by apply h_ens_ret, HO.
  - by apply h_ens_reply, HE.
Qed.

Lemma createObject_ensures enforceACL segment r org sp :
  h_ensures (B := B) (O := O) (createObject enforceACL segment r org) sp
    (λ res sp', create_outcome enforceACL segment r org (reply_of res) sp sp').
Proof.
  unfold createObject. apply h_ens_bind, h_ens_org; [intros Horg|intros rep Hrep; left; split; [set_solver|done]].
  apply h_ens_bind, h_ens_accepted; [intros [raw name] Ha|intros rep Hrep; left; split; [cbn; set_solver|done]].
  cbn [fst snd]. destruct (decide (name = "")) as [|Hne]; [apply h_ens_reply; left; split; [cbn; set_solver|done]|].
  apply h_ens_bind, h_ens_create_or_409; [intros Hnone|intros _; left; split; [cbn; set_solver|done]|
    intros e; left; split; [cbn; set_solver|done]].
  apply h_ens_bind, h_ens_or_500, ens_grantCreator.
  - apply h_ens_ret. right. exists raw, name. split_and!; try done. by left.
  - intros e. right. exists raw, name. split_and!; try done. by right.
Qed.

Lemma putObject_ensures segment r org name sp :
  h_ensures (B := B) (O := O) (putObject segment r org name) sp
    (λ res sp', put_outcome segment r org name (reply_of res) sp sp').
Proof.
  unfold putObject. apply h_ens_bind, h_ens_org; [intros Horg|intros rep Hrep; left; split; [set_solver|done]].
  apply h_ens_bind, h_ens_exists; [intros Hex|intros rep Hrep; left; split; [set_solver|done]].
  apply h_ens_bind, h_ens_accepted; [intros [raw n] Ha|intros rep Hrep; left; split; [cbn; set_solver|done]].
  apply h_ens_bind, h_ens_or_500, ens_Put; [|intros e; left; split; [cbn; set_solver|done]].
  apply h_ens_ret. right. by exists raw, n.
Qed.

Lemma deleteObject_ensures segment org name sp :
  h_ensures (B := B) (O := O) (deleteObject segment org name) sp
    (λ res sp', delete_outcome segment org name (reply_of res) sp sp').
Proof.
  unfold deleteObject. apply h_ens_bind, h_ens_org; [intros Horg|intros rep Hrep; left; split; [set_solver|done]].
  apply h_ens_bind, h_ens_or_500, ens_Delete; [|intros e; left; split; [cbn; set_solver|done]].
  destruct (s_objs sp !! (org, segment, name)) as [raw|] eqn:E.
  - apply h_ens_bind, h_ens_or_500, ens_deleteACL; [apply h_ens_ret|intros e]; right; exists raw; (split; [done|]);
      [by left|by right].
  - apply h_ens_reply. left. split; [cbn; set_solver|]. cbn. by apply delete_id.
Qed.
End Exact.

(** From a rule to the run of a handler. *)
Lemma replied_ensures `{BackendSpec B} {O} (m : handler (Store B O) reply) (P : reply → space → space → Prop) (s : Store B O) :
  h_ensures m (view s.1) (λ res sp', P (reply_of res) (view s.1) sp') →
  let '(rep, s') := replied (m s) in P rep (view s.1) (view s'.1).
Proof. intros Hm. specialize (Hm s eq_refl). by destruct (m s) as [[rep|rep] s']. Qed.

(** What the handlers of named objects store, on every branch. A create
    stores the accepted body under the name it carries, only where there was
    none, and the creator's ACL with it; an update overwrites the object it
    found; a delete takes the object and its ACL. Any other reply is an error
    and leaves the contents as they were, except that a store failure between
    an object and its ACL leaves the object's change alone. *)
Theorem object_writes_exact `{BackendSpec B} {O} (enforceACL : bool) (segment : string) (r : request) (org name : string)
    (s : Store B O) :
  (let '(rep, s') := replied (createObject enforceACL segment r org s) in
     create_outcome enforceACL segment r org rep (view s.1) (view s'.1)) ∧
  (let '(rep, s') := replied (putObject segment r org name s) in
     put_outcome segment r org name rep (view s.1) (view s'.1)) ∧
  (let '(rep, s') := replied (deleteObject segment org name s) in
     delete_outcome segment org name rep (view s.1) (view s'.1)).
Proof.
  split_and!.
  - apply (replied_ensures _ (create_outcome enforceACL segment r org)), createObject_ensures.
  - apply (replied_ensures _ (put_outcome segment r org name)), putObject_ensures.
  - apply (replied_ensures _ (delete_outcome segment org name)), deleteObject_ensures.
Qed.

(** ** Listings *)

Definition content_escape (s : string) : string := appendJSONStringContent "" s.

Lemma append_content dst s : appendJSONStringContent dst s = dst +:+ content_escape s.
Proof. done. Qed.

Lemma escape_from_fuel short n : ∀ m s, String.length s ≤ n → String.length s ≤ m →
  json_escape_from short n s = json_escape_from short m s.
Proof.
  induction n as [|n IH]; intros m s Hn Hm; (destruct s as [|c s]; [by destruct m|]); simpl in Hn, Hm; [lia|].
  destruct m as [|m]; [lia|]. cbn [json_escape_from].
  case_decide; [by rewrite (IH m) by lia|]. pose proof (decode_rune_width_pos c s) as Hw.
  destruct (decode_rune (String c s)) as [z w]. cbn in Hw.
  assert (String.length (str_drop w (String c s)) ≤ n ∧ String.length (str_drop w (String c s)) ≤ m) as [H1 H2].
  { rewrite length_str_drop. simpl. lia. }
  repeat case_decide; f_equal; (apply IH; done || lia).
Qed.

Lemma str_drop_app_le w a b : w ≤ String.length a → str_drop w (a +:+ b) = str_drop w a +:+ b.
Proof. revert a. induction w as [|w IH]; intros [|c a] Hw; simpl in *; try done; [lia|]. apply IH. lia. Qed.

Lemma str_take_app_le w a b : w ≤ String.length a → str_take w (a +:+ b) = str_take w a.
Proof. revert a. induction w as [|w IH]; intros [|c a] Hw; simpl in *; try done; [lia|]. f_equal. apply IH. lia. Qed.

(** A valid text in front is escaped on its own. *)
Lemma escape_from_app short n : ∀ a b, valid_utf8_go n a = true → String.length a ≤ n →
  json_escape_from short (n + String.length b) (a +:+ b)
  = json_escape_from short n a +:+ json_escape_from short (String.length b) b.
Proof.
  induction n as [|n IH]; intros a b Hv Hn; (destruct a as [|c a];
    [cbn [String.append]; apply escape_from_fuel; lia|]); simpl in Hn; [lia|].
  cbn [valid_utf8_go] in Hv. destruct (decode_rune (String c a)) as [z w] eqn:Ed.
  destruct (decide (z = RuneError ∧ w = 1)) as [|Hok]; [done|]. cbn [Nat.add String.append json_escape_from].
  destruct (decide (byte_of c < 0x80)%Z) as [Hc|Hc].
  - cbn [decode_rune] in Ed. rewrite decide_True in Ed by done. injection Ed as <- <-.
    rewrite app_string_assoc. f_equal. apply IH; [done|lia].
  - destruct (decode_rune_high c a z w (str_drop w (String c a) +:+ b) ltac:(lia) Ed Hok) as (_ & Hw & Hd).
    rewrite <-app_string_assoc, str_take_drop in Hd. cbn [String.append] in Hd. rewrite Hd, Ed.
    rewrite !(decide_False (P := z = RuneError ∧ w = 1)) by done. change (String c (a +:+ b)) with (String c a +:+ b).
    rewrite str_drop_app_le by lia. rewrite (str_take_app_le w (String c a)) by lia.
    assert (String.length (str_drop w (String c a)) ≤ n) by (rewrite length_str_drop; simpl; lia).
    case_decide; rewrite IH by done; cbn [String.append]; by rewrite ?app_string_assoc.
Qed.

Lemma content_escape_app a b : valid_utf8 a = true → content_escape (a +:+ b) = content_escape a +:+ content_escape b.
Proof.
  intros Ha. unfold content_escape, appendJSONStringContent. cbn [String.append]. rewrite length_app_string.
  by apply escape_from_app.
Qed.

Lemma valid_utf8_app a b : valid_utf8 a = true → valid_utf8 b = true → valid_utf8 (a +:+ b) = true.
Proof.
  intros Ha Hb. unfold valid_utf8 in Ha.
  assert (∀ n a, valid_utf8_go n a = true → String.length a ≤ n → valid_utf8 (a +:+ b) = true) as Hgo; [|by eapply Hgo].
  clear a Ha. induction n as [|n IH]; intros a Hv Hn; (destruct a as [|c a]; [done|]); simpl in Hn; [lia|].
  cbn [valid_utf8_go] in Hv. destruct (decode_rune (String c a)) as [z w] eqn:Ed.
  destruct (decide (z = RuneError ∧ w = 1)) as [|Hok]; [done|].
  destruct (decide (byte_of c < 0x80)%Z) as [Hc|Hc].
  - cbn [decode_rune] in Ed. rewrite decide_True in Ed by done. injection Ed as <- <-.
    change (String c a +:+ b) with (String c "" +:+ (a +:+ b)). apply valid_rune_app with (r := byte_of c); try done.
    + cbn [String.append decode_rune]. by rewrite decide_True.
    + apply IH; [done|lia].
  - destruct (decode_rune_high c a z w (str_drop w (String c a) +:+ b) ltac:(lia) Ed Hok) as (_ & Hw & Hd).
    rewrite <-(str_take_drop w (String c a)), app_string_assoc.
    apply valid_rune_app with (r := z); rewrite ?length_str_take by lia; try done; [by destruct w; [lia|]|].
    apply IH; [done|]. rewrite length_str_drop. simpl. lia.
Qed.

Lemma objectURL_name r org segment k : objectURL r org segment k = objectURL r org segment "" +:+ k.
Proof. unfold objectURL. case_decide; by rewrite !app_string_assoc. Qed.

(** The listing a client should read: every name with its URL. *)
Definition listing (r : request) (org segment : string) (keys : list string) : value :=
  VObj (map (λ k, (k, VStr (objectURL r org segment k))) keys).

Lemma list_entries_print r org segment keys : valid_utf8 (objectURL r org segment "") = true → ∀ first b,
  list_entries (content_escape (objectURL r org segment "")) first b keys +:+ "}" = b +:+
    (if first then "" else match keys with [] => "" | _ => "," end) +:+
    join "," (map (λ m, print_string content_escape m.1 +:+ ":" +:+ print content_escape m.2)
                  (map (λ k, (k, VStr (objectURL r org segment k))) keys)) +:+ "}".
Proof.
  intros Hu. induction keys as [|k keys IH]; intros first b; [by destruct first|].
  cbn [map list_entries]. rewrite IH, join_cons. cbn [fst snd print]. unfold print_string.
  rewrite (objectURL_name r org segment k), content_escape_app, !append_content by done.
  destruct first, keys; cbn [map String.append]; repeat (progress (autorewrite with go; cbn [String.append])); done.
Qed.

(** The listing of a collection, streamed into one buffer with the URL prefix
    escaped once, is the JSON object of every name with its URL: both decoders
    read it back entry by entry. *)
Theorem listing_reads_back (r : request) (org segment : string) (keys : list string) (strict : bool)
    (Hurl : valid_utf8 (objectURL r org segment "") = true) (Hkeys : Forall (λ k, valid_utf8 k = true) keys) :
  decode strict (list_body r org segment keys) = Some (listing r org segment keys).
Proof.
  unfold list_body. change (appendJSONStringContent "" ?x) with (content_escape x).
  rewrite list_entries_print by done.
  change (decode strict (print content_escape (listing r org segment keys)) = Some (listing r org segment keys)).
  apply decode_print with (ok := λ s, valid_utf8 s = true).
  - intros s rest n Hs Hn. unfold content_escape, appendJSONStringContent in *. cbn [String.append] in *.
    by apply json_escape_scan_go.
  - apply printable_obj, Forall_fmap. eapply Forall_impl; [exact Hkeys|]. intros k Hk. cbn. split; [done|].
    rewrite objectURL_name. by apply valid_utf8_app.
  - assert (max_list (map (λ m : string * value, depth m.2) (map (λ k, (k, VStr (objectURL r org segment k))) keys)) = 0) as E.
    { clear. induction keys as [|k keys IH]; [done|]. cbn in *. lia. }
    change (S (max_list (map (λ m : string * value, depth m.2) (map (λ k, (k, VStr (objectURL r org segment k))) keys))) ≤ max_depth).
    rewrite E. unfold max_depth. lia.
Qed.

Definition plain_request (method path body : string) : request :=
  mkRequest method path None body "https://chef.example" None.

Lemma listing_reads_back_witness :
  decode true (list_body (plain_request "GET" "/organizations/acme/nodes" "") "acme" "nodes" ["db1"; "web" +:+ String quote "1"])
  = Some (listing (plain_request "GET" "/organizations/acme/nodes" "") "acme" "nodes" ["db1"; "web" +:+ String quote "1"]).
Proof. apply listing_reads_back; [vm_compute; reflexivity|repeat constructor]. Defined.

(** An organization with one environment. *)
Definition prod_org : Store Memory.memoryBackend groupIndexCache :=
  (Org_Put "acme" "environments" "prod" (mustEncode (VObj [("name", VStr "prod")]))
     (Store_CreateOrg "acme" mem_server).2).2.

(** The name the document under a key carries. *)
Definition environment_named (s : Store Memory.memoryBackend groupIndexCache) (key : string) : option string :=
  raw ← objs s !! ("acme", "environments", key); String_ raw "name".

(** An environment update whose body carries another name is accepted, and does
    not rename the environment as the validator's comment says: the document
    stays under its old key, where its name no longer matches, and nothing is
    stored under the new one. *)
Theorem environment_update_does_not_rename :
  let body := mustEncode (VObj [("name", VStr "qa")]) in
  let '(rep, s') := replied (putObject "environments" (plain_request "PUT" "/organizations/acme/environments/prod" body)
                               "acme" "prod" prod_org) in
  status rep = 200%Z ∧ environment_named prod_org "prod" = Some "prod" ∧
  environment_named s' "prod" = Some "qa" ∧ environment_named s' "qa" = None.
Proof. vm_compute. done. Qed.
