(* ===== verification/GoMarshal.v ===== *)
(** * json.Marshal: trees with any strings and HTML characters escaped

    What the loaders write with encoding/json, and that it is read back: a string
    that is not UTF-8 comes back with U+FFFD for each invalid byte. *)
From S2P Require Import Prelude GoText Json Chefjson Float GoJson Normalize Stored Store Facade Http Objects.
#[local] Open Scope go_scope.

Definition json_Marshal (v : value) : string := html_escape (mustEncode v).

(** Each invalid byte as U+FFFD. *)
Fixpoint to_valid_go (n : nat) (s : string) : string :=
  match n, s with
  | S n', String c s' =>
      if decide (byte_of c < 0x80)%Z then String c (to_valid_go n' s')
      else
        let '(r, w) := decode_rune s in
        if decide (r = RuneError ∧ w = 1) then replacement +:+ to_valid_go n' s'
        else str_take w s +:+ to_valid_go n' (str_drop w s)
  | _, _ => ""
  end.
Definition to_valid (s : string) : string := to_valid_go (String.length s) s.

Fixpoint valid_tree (v : value) : value :=
  match v with
  | VStr s => VStr (to_valid s)
  | VArr l => VArr (map valid_tree l)
  | VObj ms => VObj (map (λ m, (to_valid m.1, valid_tree m.2)) ms)
  | _ => v
  end.

(** ** Strings *)

Lemma str_take_length_app (a b : string) : str_take (String.length a) (a +:+ b) = a.
Proof. induction a as [|c a IH]; [by destruct b|]. cbn. by rewrite IH. Qed.

Lemma replacement_rune t : decode_rune (replacement +:+ t) = (RuneError, String.length replacement).
Proof. apply decode_encode_rune. unfold scalar, RuneError. lia. Qed.

Lemma to_valid_valid_go n s : String.length s ≤ n → valid_utf8 (to_valid_go n s) = true.
Proof.
  revert s. induction n as [|n IH]; intros [|c s] Hn; try done. cbn [to_valid_go]. simpl in Hn.
  destruct (decide (byte_of c < 0x80)%Z) as [Hc|Hc].
  - apply (valid_rune_app (String c "") _ (byte_of c)); [done| | |apply IH; lia].
    + cbn [String.append decode_rune]. by rewrite decide_True.
    + unfold RuneError. lia.
  - destruct (decode_rune (String c s)) as [r w] eqn:Ed. destruct (decide (r = RuneError ∧ w = 1)) as [Hb|Hok].
    + apply (valid_rune_app replacement _ RuneError); [done|apply replacement_rune|by intros [_ ?]|apply IH; lia].
    + destruct (decode_rune_high c s r w (to_valid_go n (str_drop w (String c s))) ltac:(lia) Ed Hok) as (_ & Hw & Hd).
      assert (String.length (str_take w (String c s)) = w) as Hl by (apply length_str_take; lia).
      apply (valid_rune_app _ _ r); [by destruct w; [lia|]|by rewrite Hl|by rewrite Hl|].
      apply IH. rewrite length_str_drop. simpl. lia.
Qed.
Lemma to_valid_valid s : valid_utf8 (to_valid s) = true.
Proof. by apply to_valid_valid_go. Qed.

(** Valid text is kept. *)
Lemma to_valid_id_go n s : String.length s ≤ n → valid_utf8_go n s = true → to_valid_go n s = s.
Proof.
  revert s. induction n as [|n IH]; intros [|c s] Hn; try done. cbn [to_valid_go valid_utf8_go]. simpl in Hn.
  destruct (decode_rune (String c s)) as [r w] eqn:Ed. destruct (decide (r = RuneError ∧ w = 1)) as [|Hok]; [done|]. intros Hv.
  destruct (decide (byte_of c < 0x80)%Z) as [Hc|Hc].
  - cbn [decode_rune] in Ed. rewrite decide_True in Ed by done. injection Ed as <- <-. by rewrite IH by (done || lia).
  - destruct (decode_rune_high c s r w "" ltac:(lia) Ed Hok) as (_ & Hw & _). rewrite IH; [apply str_take_drop|rewrite length_str_drop; simpl; lia|done].
Qed.
Lemma to_valid_id s : valid_utf8 s = true → to_valid s = s.
Proof. by apply to_valid_id_go. Qed.

(** Nothing else becomes ASCII text. *)
Lemma to_valid_ascii_go n s : String.length s ≤ n → is_ascii (to_valid_go n s) = true → to_valid_go n s = s.
Proof.
  revert s. induction n as [|n IH]; intros [|c s] Hn; try done; [simpl in Hn; lia|]. cbn [to_valid_go]. simpl in Hn.
  destruct (decide (byte_of c < 0x80)%Z) as [Hc|Hc].
  - intros [_ Ha]%andb_prop. by rewrite IH by (done || lia).
  - destruct (decode_rune (String c s)) as [r w] eqn:Ed. destruct (decide (r = RuneError ∧ w = 1)) as [Hb|Hok]; [done|].
    destruct (decode_rune_high c s r w "" ltac:(lia) Ed Hok) as (_ & Hw & _). destruct w as [|w]; [lia|].
    intros Ha. cbn [str_take String.append is_ascii str_forall] in Ha. apply andb_prop in Ha as [Ha _]. exfalso. revert Ha.
    unfold is_ascii_char. rewrite bool_decide_eq_true. lia.
Qed.

Lemma to_valid_ascii s t : is_ascii t = true → to_valid s = t → s = t.
Proof. intros Ha <-. symmetry. by apply to_valid_ascii_go. Qed.

(** The encoder writes the same text for both. *)
Lemma json_escape_valid_go n m s : String.length s ≤ n → String.length (to_valid_go n s) ≤ m →
  json_escape_from true n s = json_escape_from true m (to_valid_go n s).
Proof.
  revert m s. induction n as [|n IH]; intros m [|c s] Hn Hm; try done; [by destruct m|simpl in Hn; lia|by destruct m|]. cbn [to_valid_go json_escape_from] in *. simpl in Hn.
  destruct (decide (byte_of c < 0x80)%Z) as [Hc|Hc].
  - destruct m as [|m]; [simpl in Hm; lia|]. simpl in Hm. cbn [json_escape_from]. rewrite decide_True by done. f_equal. apply IH; lia.
  - destruct (decode_rune (String c s)) as [r w] eqn:Ed. destruct (decide (r = RuneError ∧ w = 1)) as [Hb|Hok].
    + rewrite length_app_string in Hm. change (String.length replacement) with 3 in Hm. destruct m as [|m]; [lia|].
      pose proof (replacement_rune (to_valid_go n s)) as Er. rewrite (IH m) by lia.
      change (replacement +:+ to_valid_go n s) with (String (chr 239) (String (chr 191) (String (chr 189) (to_valid_go n s)))) in *.
      cbn [json_escape_from]. rewrite decide_False by (by vm_compute). rewrite Er. rewrite !decide_False by (unfold RuneError; change (String.length replacement) with 3; lia). done.
    + destruct (decode_rune_high c s r w (to_valid_go n (str_drop w (String c s))) ltac:(lia) Ed Hok) as (_ & Hw & Hd).
      assert (String.length (str_take w (String c s)) = w) as Hl by (apply length_str_take; lia).
      rewrite length_app_string, Hl in Hm. destruct m as [|m]; [lia|].
      rewrite (IH m) by (rewrite ?length_str_drop; simpl; lia).
      set (t := to_valid_go n (str_drop w (String c s))) in *.
      assert (str_drop w (str_take w (String c s) +:+ t) = t) as Ht by (rewrite <-Hl at 1; apply str_take_drop_app).
      assert (str_take w (str_take w (String c s) +:+ t) = str_take w (String c s)) as Ht' by (rewrite <-Hl at 1; apply str_take_length_app).
      destruct w as [|w]; [lia|]. cbn [str_take String.append] in *. cbn [json_escape_from]. rewrite (decide_False (P := (byte_of c < 0x80)%Z)) by done. rewrite Hd.
      rewrite (decide_False (P := r = RuneError ∧ S w = 1)) by done. rewrite Ht. cbn [str_take]. by rewrite Ht'.
Qed.
Lemma json_escape_valid s : json_escape s = json_escape (to_valid s).
Proof. by apply json_escape_valid_go. Qed.

(** ** HTML characters *)

Lemma html_escape_app a b : html_escape (a +:+ b) = html_escape a +:+ html_escape b.
Proof. induction a as [|c a IH]; [done|]. cbn [String.append html_escape]. by rewrite IH, app_string_assoc. Qed.

Lemma html_escape_id s : str_forall (λ c, bool_decide (c ∉ ["<"; ">"; "&"]%char)) s = true → html_escape s = s.
Proof.
  induction s as [|c s IH]; [done|]. cbn [str_forall]. intros [Hc Hs]%andb_prop. apply bool_decide_eq_true in Hc.
  cbn [html_escape]. by rewrite decide_False, IH.
Qed.

Lemma html_escape_high s : high s = true → html_escape s = s.
Proof.
  intros Hh. apply html_escape_id. revert Hh. apply str_forall_impl. intros c. rewrite !bool_decide_eq_true. intros Hc Hin.
  apply list_elem_of_In in Hin. destruct Hin as [<-|[<-|[<-|[]]]]; vm_compute in Hc; by apply Hc.
Qed.

Lemma html_escape_low c : c ∉ ["<"; ">"; "&"]%char → html_escape (json_escape_char true c) = json_escape_char true c.
Proof.
  intros Hc. apply html_escape_id. apply (bool_decide_eq_false_2 (c ∈ ["<"; ">"; "&"]%char)) in Hc.
  destruct c as [[] [] [] [] [] [] [] []]; vm_compute in Hc |- *; first [reflexivity|discriminate Hc].
Qed.

Lemma scan_html_low strict c t n : (byte_of c < 0x80)%Z →
  scan_string strict (S n) (html_escape (json_escape_char true c) +:+ t) =
  match scan_string strict n t with Some (u, r) => Some (String c u, r) | None => None end.
Proof.
  intros Hc. destruct (decide (c ∈ ["<"; ">"; "&"]%char)) as [Hin|Hin]; [|rewrite html_escape_low by done; by apply json_escape_low].
  apply list_elem_of_In in Hin. destruct Hin as [<-|[<-|[<-|[]]]]; by destruct strict.
Qed.

Lemma scan_html_go strict rest m : ∀ s n, valid_utf8_go m s = true → String.length s ≤ m →
  String.length (html_escape (json_escape_from true m s)) < n →
  scan_string strict n (html_escape (json_escape_from true m s) +:+ String quote rest) = Some (s, rest).
Proof.
  induction m as [|m IH]; intros s n Hv Hm Hn;
    (destruct n as [|n]; [lia|]); (destruct s as [|c s]; [done|]); simpl in Hm; [lia|].
  cbn [valid_utf8_go] in Hv. destruct (decode_rune (String c s)) as [r w] eqn:Ed.
  destruct (decide (r = RuneError ∧ w = 1)) as [|Hok]; [done|].
  cbn [json_escape_from] in *. destruct (decide (byte_of c < 0x80)%Z) as [Hc|Hc].
  - cbn [decode_rune] in Ed. rewrite decide_True in Ed by done. injection Ed as <- <-.
    rewrite html_escape_app in *. rewrite app_string_assoc, scan_html_low by done. rewrite IH; [done|done|lia|].
    rewrite length_app_string in Hn. assert (1 ≤ String.length (html_escape (json_escape_char true c))); [|lia].
    unfold json_escape_char. repeat case_decide; cbn [html_escape]; case_decide; simpl; lia.
  - rewrite Ed in Hn |- *. rewrite decide_False in Hn |- * by done.
    destruct (decode_rune_high c s r w "" ltac:(lia) Ed Hok) as (Hh & Hw & _).
    assert (String.length (str_drop w (String c s)) ≤ m) as Hlen by (rewrite length_str_drop; simpl; lia).
    destruct (decide (r = 0x2028 ∨ r = 0x2029)%Z) as [Hr|Hr]; rewrite html_escape_app in *.
    + destruct (line_separator c s r w Ed Hr) as [Ht Hu].
      set (e := String backslash ("u202" +:+ String (hexDigits (Z.land r 15)) "")) in *.
      assert (html_escape e = e) as He by (destruct Hr as [-> | ->]; by vm_compute).
      rewrite He in *. rewrite app_string_assoc. unfold e. cbn [String.append scan_string].
      rewrite decide_False, !decide_True by done.
      pose proof (Hu strict (html_escape (json_escape_from true m (str_drop w (String c s))) +:+ String quote rest)) as Hu'.
      cbn [String.append str_drop] in Hu'. rewrite Hu'.
      rewrite length_app_string in Hn. unfold e in Hn. cbn [String.append String.length] in Hn.
      rewrite IH; [|done|done|lia]. rewrite <-Ht. by rewrite str_take_drop.
    + rewrite (html_escape_high _ Hh) in *. rewrite app_string_assoc, (scan_rune strict c s r w) by (done || lia).
      rewrite length_app_string in Hn.
      assert (1 ≤ String.length (str_take w (String c s))) by (destruct w; [lia|]; simpl; lia).
      rewrite IH; [|done|done|lia]. by rewrite str_take_drop.
Qed.

Abbreviation esc_html := (λ s, html_escape (json_escape s)).

(** Only strings hold HTML characters. *)
Lemma html_escape_join l : html_escape (join "," l) = join "," (map html_escape l).
Proof.
  induction l as [|a [|b l] IH]; [done|done|]. 
  change (join "," (a :: b :: l)) with (a +:+ "," +:+ join "," (b :: l)). by rewrite !html_escape_app, IH.
Qed.

(** Trees without numbers. *)
Fixpoint textual (v : value) : Prop :=
  match v with
  | VNum _ => False
  | VArr l => foldr (λ x P, textual x ∧ P) True l
  | VObj ms => foldr (λ m P, textual m.2 ∧ P) True ms
  | _ => True
  end.
Lemma textual_arr l : textual (VArr l) ↔ Forall textual l.
Proof. induction l as [|x l IH]; [done|]. cbn. rewrite Forall_cons, <-IH. done. Qed.
Lemma textual_obj ms : textual (VObj ms) ↔ Forall (λ m, textual m.2) ms.
Proof. induction ms as [|x l IH]; [done|]. cbn. rewrite Forall_cons, <-IH. done. Qed.

Lemma html_print_string s : html_escape (print_string json_escape s) = print_string esc_html s.
Proof. unfold print_string. cbn [html_escape]. rewrite decide_False by (by apply (bool_decide_unpack _)). by rewrite html_escape_app. Qed.

Lemma html_print v : textual v → html_escape (print json_escape v) = print esc_html v.
Proof.
  induction v as [|[]| | |l IH|ms IH] using value_ind'; intros Hv; try done; cbn [print].
  - apply html_print_string.
  - apply textual_arr in Hv. rewrite !html_escape_app, html_escape_join, map_map. do 3 f_equal. apply map_ext_Forall. rewrite Forall_forall in IH, Hv |- *. auto.
  - apply textual_obj in Hv. rewrite !html_escape_app, html_escape_join, map_map. do 3 f_equal. apply map_ext_Forall.
    rewrite Forall_forall in IH, Hv |- *. intros m Hm. rewrite !html_escape_app, html_print_string, IH by auto. done.
Qed.

Lemma print_valid v : print esc_html v = print esc_html (valid_tree v).
Proof.
  assert (∀ s, print_string esc_html s = print_string esc_html (to_valid s)) as Hs
    by (intros s; unfold print_string; by rewrite (json_escape_valid s)).
  induction v as [|[]| | |l IH|ms IH] using value_ind'; try done; cbn [print valid_tree].
  - apply Hs.
  - rewrite map_map. do 3 f_equal. by apply map_ext_Forall.
  - rewrite map_map. do 3 f_equal. apply map_ext_Forall. eapply Forall_impl; [exact IH|]. intros m Hm. cbn [fst snd].
    by rewrite (Hs m.1), (Hm : print _ m.2 = _).
Qed.

Lemma valid_tree_printable v : textual v → printable (λ s, valid_utf8 s = true) (valid_tree v).
Proof.
  induction v as [|[]| | |l IH|ms IH] using value_ind'; intros Hv; try done.
  - apply to_valid_valid.
  - apply textual_arr in Hv. apply (printable_arr _ (map valid_tree l)). apply Forall_fmap. rewrite Forall_forall in IH, Hv |- *. intros x Hx. apply IH; auto.
  - apply textual_obj in Hv. apply (printable_obj _ (map (λ m, (to_valid m.1, valid_tree m.2)) ms)). apply Forall_fmap.
    rewrite Forall_forall in IH, Hv |- *. intros m Hm. split; [apply to_valid_valid|]. apply IH; auto.
Qed.

Lemma depth_valid_tree v : depth (valid_tree v) = depth v.
Proof.
  induction v as [| | | |l IH|ms IH] using value_ind'; try done; simpl; f_equal; f_equal; rewrite map_map.
  - by apply map_ext_Forall.
  - by apply (map_ext_Forall (λ m, depth (valid_tree m.2)) (λ m, depth m.2)).
Qed.

Lemma textual_sorted v : textual v → textual (sorted v).
Proof.
  induction v as [| | | |l IH|ms IH] using value_ind'; intros Hv; try done.
  - apply textual_arr in Hv. apply (textual_arr (map sorted l)). apply Forall_fmap. rewrite Forall_forall in IH, Hv |- *. intros x Hx. apply IH; auto.
  - apply textual_obj in Hv. rewrite sorted_obj. apply textual_obj. rewrite merge_sort_Permutation. apply Forall_fmap.
    rewrite Forall_forall in IH, Hv |- *. intros m Hm. apply IH; auto.
Qed.

(** What [json.Marshal] writes is read back, as text. *)
Lemma decode_json_Marshal strict v : textual v → depth v ≤ max_depth →
  decode strict (json_Marshal v) = Some (valid_tree (sorted v)).
Proof.
  intros Hv Hd. unfold json_Marshal, mustEncode. pose proof (textual_sorted _ Hv). rewrite html_print by done. rewrite print_valid.
  apply decode_print with (ok := λ s, valid_utf8 s = true); [|by apply valid_tree_printable|by rewrite depth_valid_tree, depth_sorted].
  intros s rest n Hs Hn. by apply scan_html_go.
Qed.
