(* ===== verification/Manifest.v ===== *)
(** * Cookbook manifests

    Validation (internal/api/cookbook_validate.go), the two file layouts and the
    conversion between them (cookbook_segments.go), the walks over file entries
    and the decoration with download URLs (cookbooks.go), and the server API
    version that selects the layout (server_endpoints.go). *)
From S2P Require Import Prelude GoText Json Chefjson Float GoJson Normalize Stored Store Facade Groups Http Version Presign Objects.
#[local] Open Scope go_scope.
Local Abbreviation Get := Chefjson.Get.

(** ** The server API version *)

Definition apiVersionMin : Z := 0.
Definition apiVersionMax : Z := 2.

Definition parseAPIVersion `{Unicode} (header : string) : option Z :=
  let header := TrimSpace header in
  if decide (header = "") then Some apiVersionMin
  else match strconv_Atoi header with (n, None) => Some n | (_, Some _) => None end.

Definition requestAPIVersion `{Unicode} (header : string) : Z := default 0%Z (parseAPIVersion header).

(** [withAPIVersion]: the status it answers itself, or [None] to go on. *)
Definition withAPIVersion `{Unicode} (header : string) : option Z :=
  match parseAPIVersion header with
  | None => Some 400%Z
  | Some requested =>
      if decide (requested < apiVersionMin ∨ apiVersionMax < requested)%Z then Some 406%Z else None
  end.

(** ** Layouts (cookbook_segments.go) *)

Definition cookbookSegments : list string :=
  ["attributes"; "definitions"; "files"; "libraries"; "providers";
   "recipes"; "resources"; "root_files"; "templates"].

Definition isCookbookSegment (name : string) : bool := contains_str cookbookSegments name.

(** The message for a manifest in the layout of another API version. *)
Fixpoint wrong_key (v2 : bool) (ms : obj) : option string :=
  match ms with
  | [] => None
  | (k, _) :: ms' =>
      if (negb v2 && bool_decide (k = "all_files")) || (v2 && isCookbookSegment k)
      then Some ("Invalid key " +:+ k +:+ " in request body") else wrong_key v2 ms'
  end.

(** [inl] is chefjson's error, [inr] the layout's message. *)
Definition checkManifestShape (version : Z) (raw : string) : gerror + option string :=
  match Parse raw with
  | Err e => inl e
  | Ok (VObj ms) => inr (wrong_key (bool_decide (2 ≤ version)%Z) ms)
  | Ok _ => inr None
  end.

Definition asString (v : option value) : string := match v with Some (VStr s) => s | _ => "" end.

Definition elements (v : value) : list value := match v with VArr l => l | _ => [] end.
Definition as_object (v : value) : option obj := match v with VObj ms => Some ms | _ => None end.

(** The segment of an [all_files] entry, and the entry renamed for it. *)
Definition segment_of (entry : obj) : string * obj :=
  let name := asString (Get entry "name") in
  let '(segment, rest) := match cut "/" name with
    | Some (s, r) => if isCookbookSegment s then (s, r) else ("root_files", name)
    | None => ("root_files", name)
    end in
  (segment, Set_ entry "name" (VStr rest)).

Definition in_segment (entries : list (string * obj)) (s : string) : list value :=
  map (λ e, VObj e.2) (filter (λ e, e.1 = s) entries).

Fixpoint replaceMember (ms : obj) (name : string) (new : obj) : obj :=
  match ms with
  | [] => []
  | (k, v) :: ms' => if decide (k = name) then new ++ ms' else (k, v) :: replaceMember ms' name new
  end.

Definition toSegments (ms : obj) : obj :=
  match Get ms "all_files" with
  | None => ms
  | Some all =>
      let entries := map segment_of (omap as_object (elements all)) in
      replaceMember ms "all_files" (map (λ s, (s, VArr (reverse (in_segment entries s)))) cookbookSegments)
  end.

(** A segment's entries, named with it. *)
Definition qualified_entries (s : string) (v : value) : list value :=
  map (λ e, VObj (Set_ e "name" (VStr (s +:+ "/" +:+ asString (Get e "name"))))) (omap as_object (elements v)).

Definition toAllFiles (ms : obj) : obj :=
  let present := filter (λ s, is_Some (Get ms s)) cookbookSegments in
  match present with
  | [] => ms
  | first :: _ =>
      let files := concat (map (λ s, qualified_entries s (default VNull (Get ms s))) present) in
      filter (λ m, isCookbookSegment m.1 = false) (replaceMember ms first [("all_files", VArr files)])
  end.

Definition shapeManifest (ms : obj) (version : Z) : obj :=
  if decide (2 ≤ version)%Z then toAllFiles ms else toSegments ms.

(** ** File entries (cookbooks.go) *)

(** The objects that carry a checksum string, at any depth. *)
Fixpoint file_entries (v : value) : list obj :=
  match v with
  | VObj ms =>
      (match assoc ms "checksum" with Some (VStr _) => [ms] | _ => [] end)
      ++ concat (map (λ m, file_entries m.2) ms)
  | VArr l => concat (map file_entries l)
  | _ => []
  end.

Definition checksum_of (entry : obj) : option string :=
  match assoc entry "checksum" with Some (VStr s) => Some s | _ => None end.

Definition manifestChecksums (m : obj) : list string := omap checksum_of (file_entries (VObj m)).

(** [strings.TrimSuffix]. *)
Definition trim_suffix (suf s : string) : string :=
  match cut_prefix (str_rev suf) (str_rev s) with Some r => str_rev r | None => s end.

Definition recipe_of (cookbook : string) (entry : obj) : option string :=
  let path := asString (assoc entry "path") in
  match cut_prefix "recipes/" path with
  | None => None
  | Some rest =>
      if negb (has_suffix ".rb" path) then None
      else
        let base := trim_suffix ".rb" rest in
        Some (if decide (base = "default") then cookbook else cookbook +:+ "::" +:+ base)
  end.

Definition manifestRecipes (m : obj) (cookbook : string) : list string :=
  omap (recipe_of cookbook) (file_entries (VObj m)).

Definition manifestDependencies (m : obj) : obj :=
  match assoc m "metadata" with
  | Some (VObj md) => match assoc md "dependencies" with Some (VObj deps) => deps | _ => [] end
  | _ => []
  end.

(** Every object with a checksum string gets its [url]. The member set is a
    string, which the walk does not enter, so the members are walked first. *)
Fixpoint add_urls (url : string → string) (v : value) : value :=
  match v with
  | VObj ms =>
      let ms' := map (λ m, (m.1, add_urls url m.2)) ms in
      match Get ms "checksum" with
      | Some (VStr sum) => VObj (Set_ ms' "url" (VStr (url sum)))
      | _ => VObj ms'
      end
  | VArr l => VArr (map (add_urls url) l)
  | _ => v
  end.

(** The file-store settings of a server and the moment of the request. *)
Record filestore := mkFilestore { fileStoreKey : string; clock : time }.

Definition fileStoreGrantTTL : Z := 3600.

Definition fileStoreURL `{HMAC} (fs : filestore) (base org checksum op : string) : string :=
  let url := base +:+ "/organizations/" +:+ org +:+ "/file_store/" +:+ checksum in
  if decide (fileStoreKey fs = "") then url
  else
    let exp := mkTime (Unix (clock fs) + fileStoreGrantTTL) (nsec (clock fs)) in
    url +:+ "?" +:+ FileStoreQuery (fileStoreKey fs) org checksum op exp.

Definition withFileURLs `{HMAC} (fs : filestore) (base : string) (version : Z) (raw org : string) : string :=
  match Parse raw with
  | Err _ => raw
  | Ok tree =>
      let tree := match tree with VObj ms => VObj (shapeManifest ms version) | v => v end in
      Marshal (add_urls (λ sum, fileStoreURL fs base org sum FileStoreGet) tree)
  end.

(** ** Validation (cookbook_validate.go)

    A check answers [Some msg] to refuse; the first refusal is the answer. *)

Definition cookbookNameRE (s : string) : bool := name_text s.

Definition cookbookKeys : list string :=
  ["attributes"; "chef_type"; "cookbook_name"; "definitions"; "files"; "frozen?";
   "json_class"; "libraries"; "metadata"; "name"; "providers"; "recipes"; "resources";
   "root_files"; "templates"; "version"].
Definition cookbookKeysV2 : list string :=
  ["all_files"; "chef_type"; "cookbook_name"; "frozen?"; "json_class"; "metadata"; "name"; "version"].

Definition validateCookbookURL (name version : string) : option string :=
  if negb (validCookbookVersion version) then Some ("Invalid cookbook version '" +:+ version +:+ "'.")
  else if negb (cookbookNameRE name) then
    Some ("Invalid cookbook name '" +:+ name +:+
          "' using regex: 'Malformed cookbook name. Must only contain A-Z, a-z, 0-9, _, . or -'.")
  else None.

Definition field (name what : string) : string := "Field '" +:+ name +:+ "' " +:+ what.

Definition validFileEntry (f : value) : bool :=
  match f with
  | VObj entry =>
      forallb (λ k, match Get entry k with Some (VStr _) => true | _ => false end)
        ["name"; "path"; "checksum"; "specificity"]
  | _ => false
  end.

Definition erlangText (v : value) : string :=
  match v with
  | VStr s => s
  | VNum lit => lit
  | VBool b => if b then "true" else "false"
  | VNull => "null"
  | _ => Marshal v
  end.

Definition validateConstraintMap (meta : obj) (f : string) : option string :=
  match Get meta f with
  | None => None
  | Some (VObj constraints) =>
      first_refusal (λ m,
        if negb (cookbookNameRE m.1) then Some ("Invalid key '" +:+ m.1 +:+ "' for metadata." +:+ f)
        else
          let refuse := Some ("Invalid value '" +:+ erlangText m.2 +:+ "' for metadata." +:+ f) in
          match m.2 with
          | VStr s => if validCookbookConstraint s then None else refuse
          | _ => refuse
          end) constraints
  | Some _ => Some (field ("metadata." +:+ f) "invalid")
  end.

Definition is_string (want : string) (v : value) : bool :=
  match v with VStr s => bool_decide (s = want) | _ => false end.

(** A field that must be there and equal to a string. *)
Definition exact_field (shown : string) (want : string) (v : option value) : option string :=
  match v with
  | None => Some (field shown "missing")
  | Some v => if is_string want v then None else Some (field shown "invalid")
  end.

(** A field that must satisfy [ok] when it is there. *)
Definition optional_field (shown : string) (ok : value → bool) (v : option value) : option string :=
  match v with
  | None => None
  | Some v => if ok v then None else Some (field shown "invalid")
  end.

Definition validateCookbookMetadata (meta : obj) (urlVersion : string) (allFiles : bool) : option string :=
  let maps := ["platforms"; "dependencies"] ++
    (if allFiles then [] else ["recommendations"; "suggestions"; "conflicting"; "replacing"]) in
  first_refusal id
    ([exact_field "metadata.version" urlVersion (Get meta "version");
      optional_field "metadata.name" (λ v, match v with VStr s => cookbookNameRE s | _ => false end) (Get meta "name")]
     ++ map (λ f, optional_field ("metadata." +:+ f) (λ v, match v with VStr _ => true | _ => false end) (Get meta f))
          ["description"; "long_description"; "maintainer"; "maintainer_email"; "license"]
     ++ map (validateConstraintMap meta) maps
     ++ if allFiles then []
        else [optional_field "metadata.groupings" (λ v, match v with VObj _ => true | _ => false end)
                (Get meta "groupings")]).

(** The defaults a body is given. *)
Definition set_default (ms : obj) (name : string) (v : value) : obj :=
  match Get ms name with Some _ => ms | None => Set_ ms name v end.
Definition with_defaults (ms : obj) : obj :=
  set_default (set_default (set_default ms "json_class" (VStr "Chef::CookbookVersion"))
    "chef_type" (VStr "cookbook_version")) "frozen?" (VBool false).

Definition validateSegment (ms : obj) (s : string) : option string :=
  match Get ms s with
  | None => None
  | Some (VArr l) =>
      if forallb validFileEntry l then None else Some ("Invalid element in array value of '" +:+ s +:+ "'.")
  | Some _ => Some (field s "invalid")
  end.

(** The body with its defaults, and the refusal if there is one. *)
Definition validateCookbookManifest (ms : obj) (urlName urlVersion : string) (allFiles : bool) : obj * option string :=
  let ms := with_defaults ms in
  let keys := if allFiles then cookbookKeysV2 else cookbookKeys in
  let segments := if allFiles then ["all_files"] else cookbookSegments in
  (ms, first_refusal id
    ([first_refusal (λ m, if contains_str keys m.1 then None
                          else Some ("Invalid key " +:+ m.1 +:+ " in request body")) ms]
     ++ map (λ e, exact_field e.1 e.2 (Get ms e.1))
          [("name", urlName +:+ "-" +:+ urlVersion); ("cookbook_name", urlName);
           ("json_class", "Chef::CookbookVersion"); ("chef_type", "cookbook_version")]
     ++ [match Get ms "metadata" with
         | None => Some (field "metadata" "missing")
         | Some (VObj meta) => validateCookbookMetadata meta urlVersion allFiles
         | Some _ => Some (field "metadata" "invalid")
         end]
     ++ map (validateSegment ms) segments
     ++ [optional_field "version" (is_string urlVersion) (Get ms "version")])).

(** ** The two decoders find the same checksums

    The upload check reads a manifest with chefjson (first member of a name
    wins), garbage collection with encoding/json (last one wins, numbers as
    doubles). Without repeated names they agree. *)

Definition sums (v : value) : list string := omap checksum_of (file_entries v).

Fixpoint renumber (g : string → string) (v : value) : value :=
  match v with
  | VNum lit => VNum (g lit)
  | VArr l => VArr (map (renumber g) l)
  | VObj ms => VObj (map (λ m, (m.1, renumber g m.2)) ms)
  | _ => v
  end.

Lemma canon_renumber v : canon v = renumber number_text v.
Proof.
  induction v as [|[]|lit|s|l IH|ms IH] using value_ind'; try done; cbn [canon renumber]; f_equal.
  - by apply map_ext_Forall.
  - apply map_ext_Forall. eapply Forall_impl; [exact IH|]. by intros m ->.
Qed.

Lemma assoc_map f (ms : obj) k : assoc (map (λ m, (m.1, f m.2)) ms) k = f <$> assoc ms k.
Proof. induction ms as [|[k' x] ms IH]; [done|]. cbn [map assoc fst snd]. by case_decide. Qed.

Lemma Set_new (ms : obj) k v : k ∉ map fst ms → Set_ ms k v = ms ++ [(k, v)].
Proof.
  induction ms as [|[k' x] ms IH]; intros Hk; [done|]. cbn [Set_ map fst] in *.
  rewrite decide_False by set_solver. rewrite IH by set_solver. done.
Qed.

Lemma any_of_fold (f : value → value) (ms acc : obj) : NoDup (map fst acc ++ map fst ms) →
  foldl (λ acc m, Set_ acc m.1 (f m.2)) acc ms = acc ++ map (λ m, (m.1, f m.2)) ms.
Proof.
  revert acc. induction ms as [|[k x] ms IH]; intros acc Hnd; [by rewrite app_nil_r|]. cbn [foldl map fst snd] in *.
  assert (k ∉ map fst acc) as Hk by (apply NoDup_app in Hnd as (_ & Hd & _); set_solver).
  rewrite Set_new by done. rewrite IH, <-app_assoc; [done|].
  rewrite map_app, <-app_assoc. exact Hnd.
Qed.

Lemma repeats_obj (ms : obj) : repeats (VObj ms) = false ↔ NoDup (map fst ms) ∧ Forall (λ m, repeats m.2 = false) ms.
Proof. cbn [repeats]. rewrite orb_false_iff, negb_false_iff, bool_decide_eq_true, existsb_false. done. Qed.

Lemma repeats_arr l : repeats (VArr l) = false ↔ Forall (λ v, repeats v = false) l.
Proof. cbn [repeats]. apply existsb_false. Qed.

Lemma Forall_both {A} (P Q : A → Prop) l : Forall (λ x, P x → Q x) l → Forall P l → Forall Q l.
Proof. rewrite !Forall_forall. eauto. Qed.

Lemma any_of_renumber v : repeats v = false → any_of v = renumber json_number v.
Proof.
  induction v as [|[]|lit|s|l IH|ms IH] using value_ind'; try done; intros Hr; cbn [any_of renumber]; f_equal.
  - apply repeats_arr in Hr. apply map_ext_Forall. exact (Forall_both _ _ _ IH Hr).
  - apply repeats_obj in Hr as [Hnd Hr]. rewrite any_of_fold by done. cbn [app].
    apply map_ext_Forall. eapply Forall_impl; [exact (Forall_both _ _ _ IH Hr)|]. by intros m ->.
Qed.

Lemma firsts_id fm (seen : list string) (ms : obj) : NoDup (map fst ms) → (∀ k, k ∈ map fst ms → k ∉ seen) →
  Forall (λ m, fm m.2 = m.2) ms → firsts fm seen ms = ms.
Proof.
  revert seen. induction ms as [|[k x] ms IH]; intros seen Hnd Hs Hf; [done|]. cbn [firsts map fst] in *.
  apply NoDup_cons in Hnd as [Hk Hnd]. apply Forall_cons in Hf as [Hx Hf]. cbn in Hx.
  rewrite (proj2 (contains_str_false seen k)) by (apply Hs; set_solver). rewrite Hx, IH; [done|done| |done].
  intros k' Hk'. specialize (Hs k'). set_solver.
Qed.

Lemma firstMembers_id v : repeats v = false → firstMembers v = v.
Proof.
  induction v as [|[]|lit|s|l IH|ms IH] using value_ind'; try done; intros Hr; cbn [firstMembers]; f_equal.
  - apply repeats_arr in Hr. rewrite <-(map_id l) at 2. apply map_ext_Forall. exact (Forall_both _ _ _ IH Hr).
  - apply repeats_obj in Hr as [Hnd Hr]. apply firsts_id; [done|set_solver|]. exact (Forall_both _ _ _ IH Hr).
Qed.

Lemma repeats_renumber g v : repeats (renumber g v) = repeats v.
Proof.
  induction v as [|[]|lit|s|l IH|ms IH] using value_ind'; try done; cbn [repeats renumber].
  - induction IH as [|x l Hx _ IHl]; [done|]. cbn. by rewrite Hx, IHl.
  - f_equal.
    + f_equal. rewrite map_map. done.
    + induction IH as [|x l Hx _ IHl]; [done|]. cbn. by rewrite Hx, IHl.
Qed.

Lemma sums_arr l : sums (VArr l) = concat (map sums l).
Proof. unfold sums. cbn [file_entries]. induction l as [|x l IH]; [done|]. cbn. rewrite omap_app. by f_equal. Qed.

Lemma sums_obj ms : sums (VObj ms) =
  match checksum_of ms with Some s => [s] | None => [] end ++ concat (map (λ m, sums m.2) ms).
Proof.
  unfold sums. cbn [file_entries]. rewrite omap_app. f_equal.
  - unfold checksum_of. destruct (assoc ms "checksum") as [[| | |s| |]|] eqn:E; try done. cbn.
    unfold checksum_of. by rewrite E.
  - induction ms as [|x l IH]; [done|]. cbn. rewrite omap_app. by f_equal.
Qed.

Lemma sums_renumber g v : sums (renumber g v) = sums v.
Proof.
  induction v as [|[]|lit|s|l IH|ms IH] using value_ind'; try done; cbn [renumber].
  - rewrite !sums_arr, map_map. f_equal. by apply map_ext_Forall.
  - rewrite !sums_obj. f_equal.
    + unfold checksum_of. rewrite assoc_map. by destruct (assoc ms "checksum") as [[]|].
    + rewrite map_map. f_equal. by apply (map_ext_Forall (λ m, sums (renumber g m.2)) (λ m, sums m.2)).
Qed.

Lemma readers_agree raw v m m' : decode true raw = Some v → repeats v = false →
  DecodeObject raw = Ok m → unmarshal_map raw = Some m' → manifestChecksums (members m') = manifestChecksums m.
Proof.
  intros Hd Hr. unfold DecodeObject, decodeOne, unmarshal_map. rewrite (decode_lenient _ _ Hd).
  unfold decode in Hd. destruct (parse_value true _ _ raw) as [[u r]|]; [|done]. case_decide; [|done].
  injection Hd as ->. rewrite firstMembers_id by done. unfold as_any. destruct (numbers_fit v); [|by destruct v].
  rewrite any_of_renumber by done. destruct v as [| | | | |ms]; try done. intros [= <-] [= <-]. cbn [members default].
  unfold manifestChecksums. apply (sums_renumber json_number (VObj ms)).
Qed.

(** ** What is stored is a manifest without repeated names *)

Lemma Parse_decoded doc v : Parse doc = Ok v → decode true doc = Some v.
Proof.
  unfold Parse, decodeOne, decode. destruct (parse_value true _ _ doc) as [[u r]|]; [|done]. case_decide; [|done].
  by intros [= ->].
Qed.

(** Fit to be stored: written faithfully, and no name twice. *)
Definition storable (ms : obj) : Prop :=
  faithful (canon (VObj ms)) ∧ depth (VObj ms) ≤ max_depth ∧ repeats (VObj ms) = false.

Lemma parsed_storable raw ms : Parse raw = Ok (VObj ms) → HasRepeatedNames raw = false → storable ms.
Proof.
  intros Hp Hr. destruct (Parse_faithful _ _ Hp) as [Hf Hd]. split; [done|]. split; [done|].
  unfold HasRepeatedNames in Hr. by rewrite (Parse_decoded _ _ Hp) in Hr.
Qed.

Lemma set_default_storable ms k v : valid_utf8 k = true → faithful (canon v) → depth v = 0 → repeats v = false →
  storable ms → storable (set_default ms k v).
Proof.
  intros Hk Hv Hd Hr Hs. unfold set_default, Get. destruct (assoc ms k) eqn:E; [done|].
  assert (k ∉ map fst ms) as Hn.
  { clear -E. induction ms as [|[k' x] ms IH]; [set_solver|]. cbn in *. case_decide; [done|]. set_solver. }
  rewrite Set_new by done. destruct Hs as (Hf & Hdep & Hrep). split_and!.
  - cbn [canon] in *. rewrite map_app. apply printable_obj, Forall_app. split; [by apply printable_obj in Hf|].
    by repeat constructor.
  - cbn [depth] in *. rewrite map_app.
    assert (∀ l, max_list (l ++ [depth v]) = max_list l) as ->; [|done].
    intros l. rewrite Hd. induction l as [|x l IH]; [done|]. cbn. by rewrite IH.
  - apply repeats_obj in Hrep as [Hnd Hm]. apply repeats_obj. rewrite map_app. split.
    + apply NoDup_app. split; [done|]. split; [set_solver|]. repeat constructor. set_solver.
    + apply Forall_app. by repeat constructor.
Qed.

Lemma with_defaults_storable ms : storable ms → storable (with_defaults ms).
Proof. intros Hs. unfold with_defaults. by repeat apply set_default_storable. Qed.

(** A storable manifest is read alike by the upload check and the collector. *)
Lemma stored_sums_agree ms m m' : storable ms →
  DecodeObject (Marshal (VObj ms)) = Ok m → unmarshal_map (Marshal (VObj ms)) = Some m' →
  manifestChecksums (members m') = manifestChecksums m.
Proof.
  intros (Hf & Hd & Hr). eapply readers_agree; [by apply decode_Marshal|].
  by rewrite canon_renumber, repeats_renumber.
Qed.

(** ** The layouts are converted without loss *)

(** An [all_files] entry whose name starts with a segment. *)
Definition well_named (v : value) : Prop := ∃ e s rest, v = VObj e ∧ isCookbookSegment s = true ∧
  Chefjson.Get e "name" = Some (VStr (s +:+ "/" +:+ rest)).

Lemma Set_back (e : obj) k v w : Chefjson.Get e k = Some v → Set_ (Set_ e k w) k v = e.
Proof.
  unfold Chefjson.Get. induction e as [|[k' x] e IH]; [done|]. cbn [assoc Set_].
  destruct (decide (k' = k)) as [->|Hne].
  - intros E. injection E as ->. cbn [Set_]. by rewrite decide_True.
  - intros E. cbn [Set_]. rewrite decide_False by done. f_equal. by apply IH.
Qed.

Lemma cut_slash s rest : ¬ str_in "/" s → cut "/" (s +:+ String "/" rest) = Some (s, rest).
Proof.
  induction s as [|c s IH]; cbn [str_in]; intros Hs; cbn [String.append cut cut_prefix]; [by decide_literals|].
  rewrite decide_False by (intros <-; tauto). by rewrite IH by tauto.
Qed.

Lemma segment_no_slash s : isCookbookSegment s = true → ¬ str_in "/" s.
Proof.
  intros Hs%contains_str_true. apply list_elem_of_In in Hs.
  repeat destruct Hs as [<-|Hs]; [..|done]; apply (bool_decide_unpack _); vm_compute; exact I.
Qed.

(** Renaming an entry for its segment and back. *)
Lemma requalify (e : obj) s rest : isCookbookSegment s = true → Chefjson.Get e "name" = Some (VStr (s +:+ "/" +:+ rest)) →
  segment_of e = (s, Set_ e "name" (VStr rest)) ∧
  Set_ (Set_ e "name" (VStr rest)) "name" (VStr (s +:+ "/" +:+ rest)) = e.
Proof.
  intros Hs Hn. split; [|by apply Set_back]. unfold segment_of. rewrite Hn. cbn [asString].
  change (s +:+ "/" +:+ rest) with (s +:+ String "/" rest).
  rewrite cut_slash by (by apply segment_no_slash). by rewrite Hs.
Qed.

Lemma filter_split_perm {A} (P : A → Prop) `{∀ x, Decision (P x)} (l : list A) :
  filter P l ++ filter (λ x, ¬ P x) l ≡ₚ l.
Proof.
  induction l as [|x l IH]; [done|]. destruct (decide (P x)).
  - rewrite (filter_cons_True P), (filter_cons_False (λ x, ¬ P x)) by tauto. cbn. by rewrite IH.
  - rewrite (filter_cons_False P), (filter_cons_True (λ x, ¬ P x)) by tauto. rewrite <-Permutation_middle. by rewrite IH.
Qed.

(** Buckets by key, reversed and put one after another, hold the list. *)
Lemma buckets_perm {A} (f : A → string) (keys : list string) : NoDup keys → ∀ l : list A,
  Forall (λ x, f x ∈ keys) l → concat (map (λ k, reverse (filter (λ x, f x = k) l)) keys) ≡ₚ l.
Proof.
  induction 1 as [|k keys Hk Hnd IH]; intros l Hl.
  - destruct l as [|x l]; [done|]. apply Forall_cons in Hl as [Hx _]. set_solver.
  - cbn [map concat]. rewrite reverse_Permutation.
    etrans; [|apply (filter_split_perm (λ x, f x = k) l)]. apply Permutation_app_head.
    etrans; [|apply (IH (filter (λ x, f x ≠ k) l))].
    + rewrite (map_ext_in _ (λ k0, reverse (filter (λ x, f x = k0) (filter (λ x, f x ≠ k) l)))); [done|].
      intros k' Hk'%list_elem_of_In. f_equal. rewrite list_filter_filter. apply list_filter_iff.
      intros x. split; [|tauto]. intros ->. split; [done|]. congruence.
    + apply Forall_forall. intros x [Hx Hin]%list_elem_of_filter. rewrite Forall_forall in Hl. specialize (Hl x Hin). set_solver.
Qed.

Lemma map_reverse {A C} (f : A → C) (l : list A) : map f (reverse l) = reverse (map f l).
Proof. exact (fmap_reverse f l). Qed.

Definition segment_name (v : value) : string := match v with VObj e => (segment_of e).1 | _ => "" end.

(** The entries of a segment, renamed for it and renamed back. *)
Lemma requalify_bucket (l : list value) s : Forall well_named l → isCookbookSegment s = true →
  qualified_entries s (VArr (reverse (in_segment (map segment_of (omap as_object l)) s)))
  = reverse (filter (λ v, segment_name v = s) l).
Proof.
  intros Hl Hs. unfold qualified_entries, in_segment. cbn [elements].
  assert (∀ l : list obj, omap as_object (map VObj l) = l) as Ho by (induction l0 as [|x y IH]; cbn; congruence).
  rewrite <-(map_map snd VObj), <-map_reverse, Ho, map_reverse. f_equal.
  induction Hl as [|v l (e & s' & rest & -> & Hs' & Hn) Hl IH]; [done|].
  destruct (requalify e s' rest Hs' Hn) as [Ep Eb]. cbn [omap list_omap as_object map].
  destruct (decide (s' = s)) as [->|Hne].
  - rewrite filter_cons_True by (by rewrite Ep). rewrite filter_cons_True by (cbn; by rewrite Ep).
    cbn [map]. rewrite Ep. cbn [snd]. rewrite IH. do 2 f_equal.
    unfold asString. rewrite Get_Set, decide_True by done. exact Eb.
  - rewrite filter_cons_False by (by rewrite Ep). rewrite filter_cons_False by (cbn; by rewrite Ep). done.
Qed.

Lemma replaceMember_split (ms : obj) name v : Chefjson.Get ms name = Some v →
  ∃ pre post, ms = pre ++ ((name, v) :: post) ∧ (name ∉ map fst pre) ∧
    ∀ new, replaceMember ms name new = pre ++ new ++ post.
Proof.
  unfold Chefjson.Get. induction ms as [|[k x] ms IH]; [done|]. cbn [assoc replaceMember].
  destruct (decide (k = name)) as [->|Hne].
  - intros [= ->]. exists [], ms. split; [done|]. split; [set_solver|done].
  - intros (pre & post & -> & Hn & Hr)%IH. exists ((k, x) :: pre), post. split; [done|]. split; [set_solver|].
    intros new. cbn. by rewrite Hr.
Qed.

Lemma assoc_app (a b : obj) k : assoc (a ++ b) k = match assoc a k with Some v => Some v | None => assoc b k end.
Proof. induction a as [|[k' x] a IH]; [done|]. cbn. by case_decide. Qed.

Lemma assoc_segments (f : string → value) s : s ∈ cookbookSegments →
  assoc (map (λ s, (s, f s)) cookbookSegments) s = Some (f s).
Proof. intros Hs%list_elem_of_In. by repeat destruct Hs as [<-|Hs]; [..|done]. Qed.

(** The first member of a name splits an object one way. *)
Lemma split_unique (k : string) (v w : value) (a b a' b' : obj) : k ∉ map fst a → k ∉ map fst a' →
  a ++ (k, v) :: b = a' ++ (k, w) :: b' → a = a' ∧ b = b'.
Proof.
  revert a'. induction a as [|x a IH]; intros [|y a'] Ha Ha' E; cbn in *; simplify_eq; try done; [set_solver..|].
  destruct (IH a') as [-> ->]; [set_solver|set_solver|done|done].
Qed.

Lemma cookbookSegments_NoDup : NoDup cookbookSegments.
Proof. apply (bool_decide_unpack _). vm_compute. exact I. Qed.

(** A manifest in the v2 layout whose files are named under a segment, shown to
    an older client in segments and taken back, lists the same files entry for
    entry (in segment order), and every other member at its place. *)
Theorem layouts_round_trip (ms : obj) (files : list value)
    (Hfiles : Chefjson.Get ms "all_files" = Some (VArr files)) (Hnamed : Forall well_named files)
    (Hkeys : Forall (λ m, isCookbookSegment m.1 = false) ms) :
  ∃ files', files' ≡ₚ files ∧
    toAllFiles (toSegments ms) = replaceMember ms "all_files" [("all_files", VArr files')].
Proof.
  set (entries := map segment_of (omap as_object files)).
  set (list_of s := VArr (reverse (in_segment entries s))).
  destruct (replaceMember_split ms "all_files" _ Hfiles) as (pre & post & Ems & Hpre & Hrep).
  exists (concat (map (λ s, reverse (filter (λ v, segment_name v = s) files)) cookbookSegments)). split.
  { apply buckets_perm; [apply cookbookSegments_NoDup|]. eapply Forall_impl; [exact Hnamed|].
    intros v (e & s & rest & -> & Hs & Hn). cbn. destruct (requalify e s rest Hs Hn) as [-> _].
    by apply contains_str_true. }
  assert (toSegments ms = pre ++ map (λ s, (s, list_of s)) cookbookSegments ++ post) as Eseg.
  { unfold toSegments. rewrite Hfiles. cbn [elements]. apply Hrep. }
  assert (∀ s, s ∈ cookbookSegments → s ∉ map fst pre) as Hnp.
  { intros s Hs (m & -> & Hm)%list_elem_of_fmap. rewrite Forall_forall in Hkeys.
    assert (isCookbookSegment m.1 = false) as Hf by (apply Hkeys; rewrite Ems; set_solver).
    apply contains_str_false in Hf. done. }
  assert (∀ s, s ∈ cookbookSegments → Chefjson.Get (toSegments ms) s = Some (list_of s)) as Hget.
  { intros s Hs. rewrite Eseg. unfold Chefjson.Get. rewrite !assoc_app, assoc_None by (by apply Hnp).
    by rewrite assoc_segments. }
  unfold toAllFiles. rewrite (filter_all (λ s, is_Some (Get (toSegments ms) s)))
    by (apply Forall_forall; intros s Hs; by rewrite Hget).
  change cookbookSegments with ("attributes" :: drop 1 cookbookSegments) at 1. cbv iota beta.
  assert (map (λ s, qualified_entries s (default VNull (Get (toSegments ms) s))) cookbookSegments
    = map (λ s, reverse (filter (λ v, segment_name v = s) files)) cookbookSegments) as ->.
  { apply map_ext_Forall, Forall_forall. intros s Hs. rewrite Hget by done. cbn [default].
    apply requalify_bucket; [done|]. by apply contains_str_true. }
  set (files' := concat _). destruct (replaceMember_split (toSegments ms) "attributes" (list_of "attributes"))
    as (pre' & post' & E' & Hpre' & Hrep'); [by apply Hget; left|].
  assert (pre' = pre ∧ post' = map (λ s, (s, list_of s)) (drop 1 cookbookSegments) ++ post) as [-> ->].
  { apply (split_unique "attributes" (list_of "attributes") (list_of "attributes")); [done| |].
    - apply Hnp. by left.
    - rewrite <-E', Eseg. done. }
  rewrite Hrep', Hrep, !filter_app. f_equal; [|f_equal].
  - apply filter_all. rewrite Ems in Hkeys. by apply Forall_app in Hkeys as [? _].
  - rewrite (filter_none _ (map _ _)), filter_all; [done| |].
    + rewrite Ems in Hkeys. apply Forall_app in Hkeys as [_ Hk]. by apply Forall_cons in Hk as [_ ?].
    + apply Forall_fmap, Forall_forall. intros s Hs. cbn. unfold isCookbookSegment. rewrite (proj2 (contains_str_true _ _)); [done|].
      right. exact Hs.
Qed.

Definition v2_manifest : obj :=
  let file name sum := VObj [("name", VStr name); ("path", VStr name); ("checksum", VStr sum); ("specificity", VStr "default")] in
  [("name", VStr "apache-1.0.0"); ("all_files", VArr [file "recipes/default.rb" "aa"; file "root_files/metadata.rb" "bb";
     file "recipes/ssl.rb" "cc"]); ("version", VStr "1.0.0")].

Lemma layouts_round_trip_witness :
  ∃ files', files' ≡ₚ elements (default VNull (Chefjson.Get v2_manifest "all_files")) ∧
    toAllFiles (toSegments v2_manifest) = replaceMember v2_manifest "all_files" [("all_files", VArr files')].
Proof.
  apply layouts_round_trip; [reflexivity| |repeat constructor].
  apply Forall_cons. split; [by exists [("name", VStr "recipes/default.rb"); ("path", VStr "recipes/default.rb");
    ("checksum", VStr "aa"); ("specificity", VStr "default")], "recipes", "default.rb"|].
  apply Forall_cons. split; [by exists [("name", VStr "root_files/metadata.rb"); ("path", VStr "root_files/metadata.rb");
    ("checksum", VStr "bb"); ("specificity", VStr "default")], "root_files", "metadata.rb"|].
  apply Forall_cons. split; [by exists [("name", VStr "recipes/ssl.rb"); ("path", VStr "recipes/ssl.rb");
    ("checksum", VStr "cc"); ("specificity", VStr "default")], "recipes", "ssl.rb"|constructor].
Defined.
