(* ===== verification/Cookbooks.v ===== *)
(** * Cookbooks, artifacts and the file store

    internal/api/cookbooks.go and cookbook_artifacts.go: the versions of a
    cookbook, uploads through sandboxes, manifests and the garbage collection of
    the files they reference. MD5 and [sort.Slice] are the classes below. *)
From S2P Require Import Prelude GoText Json Chefjson Float GoJson Normalize Stored Store Facade Groups Http Effects Acl AclDocs GroupApi Version Presign Objects Manifest.
#[local] Open Scope go_scope.
#[local] Open Scope http_scope.

(** ** What the code uses of the standard library *)

(** [md5.Sum]. *)
Class MD5 := md5_sum : string → string.

(** A strict weak order on the elements of a list. *)
Definition weak_order (less : string → string → bool) (l : list string) : Prop :=
  (∀ x, x ∈ l → less x x = false) ∧
  (∀ x y z, x ∈ l → y ∈ l → z ∈ l → less x y = true → less y z = true → less x z = true) ∧
  (∀ x y z, x ∈ l → y ∈ l → z ∈ l → less x y = false → less y z = false → less x z = false).

(** [sort.Slice]: not stable; its result is sorted when [less] is a strict weak
    order. *)
Class SliceSort := {
  sort_slice : (string → string → bool) → list string → list string;
  sort_slice_perm less l : sort_slice less l ≡ₚ l;
  sort_slice_sorted less l : weak_order less l → StronglySorted (λ x y, less y x = false) (sort_slice less l);
}.

(** The insertion sort [sort.Slice] makes of a short slice. *)
Fixpoint insert_last (less : string → string → bool) (x : string) (rev_sorted : list string) : list string :=
  match rev_sorted with
  | [] => [x]
  | y :: l => if less x y then y :: insert_last less x l else x :: y :: l
  end.
Definition insertionSort (less : string → string → bool) (l : list string) : list string :=
  reverse (foldl (λ acc x, insert_last less x acc) [] l).

Section Insertion.
Context (less : string → string → bool) (all : list string) (Hless : weak_order less all).

Lemma insert_last_perm x l : insert_last less x l ≡ₚ x :: l.
Proof. induction l as [|y l IH]; cbn; [done|]. destruct (less x y); [|done]. rewrite IH. apply Permutation_swap. Qed.

(** A reversed prefix: each element is not below the ones after it. *)
Lemma insert_last_sorted x l : x ∈ all → Forall (λ y, y ∈ all) l →
  StronglySorted (λ a b, less a b = false) l → StronglySorted (λ a b, less a b = false) (insert_last less x l).
Proof.
  destruct Hless as (Hirr & Htr & Hinc). intros Hx Hl Hs. induction Hs as [|y l Hs IH Hy]; cbn; [by repeat constructor|].
  apply Forall_cons in Hl as [Hyin Hl]. destruct (less x y) eqn:E.
  - constructor; [by apply IH|]. rewrite insert_last_perm. constructor; [|done].
    destruct (less y x) eqn:E'; [|done]. by rewrite <-(Hirr y), (Htr y x y).
  - constructor; [by constructor|]. constructor; [done|]. rewrite Forall_forall in Hy, Hl |- *.
    intros z Hz. apply (Hinc x y z); auto.
Qed.
End Insertion.

#[export] Instance insertion_sort : SliceSort.
Proof.
  assert (∀ less l acc, foldl (λ acc x, insert_last less x acc) acc l ≡ₚ l ++ acc) as Hperm.
  { intros less l. induction l as [|x l IH]; intros acc; [done|]. cbn [foldl]. rewrite IH, insert_last_perm.
    symmetry. apply Permutation_middle. }
  refine {| sort_slice := insertionSort |}.
  - intros less l. unfold insertionSort. rewrite reverse_Permutation, Hperm. by rewrite app_nil_r.
  - intros less l Hw. unfold insertionSort.
    assert (∀ l' acc, Forall (λ x, x ∈ l) l' → Forall (λ x, x ∈ l) acc → StronglySorted (λ a b, less a b = false) acc →
      StronglySorted (λ a b, less a b = false) (foldl (λ acc x, insert_last less x acc) acc l')) as Hgo.
    { induction l' as [|x l' IH]; intros acc Hl' Hacc Hs; [done|]. cbn [foldl]. apply Forall_cons in Hl' as [Hx Hl'].
      apply IH; [done| |by apply (insert_last_sorted less l)]. rewrite insert_last_perm. by constructor. }
    specialize (Hgo l [] (proj2 (Forall_forall _ _) (λ x Hx, Hx)) (Forall_nil_2 _) (SSorted_nil _)).
    revert Hgo. generalize (foldl (λ acc x, insert_last less x acc) [] l). clear. intros k0 Hgo. induction Hgo as [|x k Hs IH Hx]; [constructor|]. rewrite reverse_cons.
    apply StronglySorted_app_2; [|done|by repeat constructor].
    intros y z Hy Hz. apply list_elem_of_singleton in Hz. subst z. rewrite Forall_forall in Hx.
    apply Hx. by rewrite <-(reverse_Permutation k).
Defined.

(** ** Versions *)

Definition cookbookKey (name version : string) : string := name +:+ "/" +:+ version.

Definition collectionItemURL (r : request) (org segment name : string) : string :=
  r_base r +:+ "/organizations/" +:+ org +:+ "/" +:+ segment +:+ "/" +:+ name.
Definition cookbookBaseURL (r : request) (org name : string) : string := collectionItemURL r org "cookbooks" name.

(** Keys [name/version] by name, in the order of the keys. *)
Definition add_version (out : gmap string (list string)) (key : string) : gmap string (list string) :=
  match cut_byte "/" key with
  | Some (name, version) => <[name := default [] (out !! name) ++ [version]]> out
  | None => out
  end.
Definition group_versions (keys : list string) : gmap string (list string) := foldl add_version ∅ keys.

Definition newer (a b : string) : bool := bool_decide (0 < compareVersions a b)%Z.

Definition allVersions : Z := -1.
Definition invalidNumVersions : string := "You have requested an invalid number of versions (x >= 0 || 'all')".

(** [strings.Trim(s, cutset)] is empty exactly when every byte is in the cutset. *)
Definition parseNumVersions (s : string) : option Z :=
  if decide (s = "all") then Some allVersions
  else
    let '(negative, digits) := match s with
      | String c rest => if decide (c = "+"%char ∨ c = "-"%char) then (bool_decide (c = "-"%char), rest) else (false, s)
      | EmptyString => (false, s)
      end in
    if decide (digits = "") then None
    else if negb (str_forall digit digits) then None
    else if str_forall (λ c, bool_decide (c = "0"%char)) digits then Some 0%Z
    else if (negative : bool) then None
    else match strconv_Atoi digits with (n, None) => Some n | (_, Some _) => Some allVersions end.

(** The listing of a versioned collection. *)
Definition capped (limit : Z) (vals : list string) : list string :=
  if decide (0 ≤ limit ∧ limit < Z.of_nat (length vals))%Z then take (Z.to_nat limit) vals else vals.

Definition collectionListBody (r : request) (org segment label : string) (items : gmap string (list string)) (limit : Z) : value :=
  VObj (map (λ e, (e.1, VObj
    [("url", VStr (collectionItemURL r org segment e.1));
     ("versions", VArr (map (λ v, VObj [("url", VStr (collectionItemURL r org segment e.1 +:+ "/" +:+ v)); (label, VStr v)])
        (capped limit e.2)))])) (map_to_list items)).

Section Cookbooks.
Context `{SliceSort} `{MD5} `{HMAC}.
Context {B : Type} `{Backend B} {O : Type}.
Abbreviation st := (Store B O).

Definition cookbookVersions (org : string) : ST st (gmap string (list string)) :=
  let! keys := Org_Keys org "cookbooks" in
  st_ret (sort_slice newer <$> group_versions keys).

Definition version_of (name : string) (d : string * string) : option string :=
  match cut_byte "/" d.1 with Some (cb, version) => if decide (cb = name) then Some version else None | None => None end.

Definition cookbookVersionsFor (org name : string) : ST st (list string) :=
  let! docs := Org_Range org "cookbooks" in
  st_ret (sort_slice newer (omap (version_of name) docs)).

(** [vals]: the values of the num_versions query parameter. *)
Definition numVersions (vals : list string) (def : Z) : handler st Z :=
  match vals with
  | [] => h_ret def
  | v :: _ => match parseNumVersions v with Some n => h_ret n | None => h_reply (writeError 400 [invalidNumVersions]) end
  end.

Definition resolveVersion (org name version : string) : ST st (option string) :=
  if decide (version ≠ "_latest" ∧ version ≠ "latest") then st_ret (Some version)
  else
    let! cv := cookbookVersions org in
    st_ret (head (default [] (cv !! name))).

Definition listCookbooks (r : request) (vals : list string) (orgname : string) : handler st reply :=
  let? org := API_org orgname in
  let? limit := numVersions vals 1 in
  let? cv := or_500 (cookbookVersions org) in
  h_ret (writeJSON 200 (collectionListBody r org "cookbooks" "version" cv limit)).

Definition no_cookbook (name : string) : reply := writeError 404 ["Cannot find a cookbook named " +:+ name].
Definition no_cookbook_version (name version : string) : reply :=
  writeError 404 ["Cannot find a cookbook named " +:+ name +:+ " version " +:+ version].

Definition getCookbook (r : request) (vals : list string) (orgname name : string) : handler st reply :=
  let? org := API_org orgname in
  let? _limit := numVersions vals 1 in
  let? vers := or_500 (cookbookVersionsFor org name) in
  match vers with
  | [] => h_reply (no_cookbook name)
  | _ => h_ret (writeJSON 200 (collectionListBody r org "cookbooks" "version" {[ name := vers ]} allVersions))
  end.

Definition getCookbookVersion (fs : filestore) (api : Z) (r : request) (orgname name version : string) : handler st reply :=
  let? org := API_org orgname in
  let? v := or_500 (resolveVersion org name version) in
  match v with
  | None => h_reply (no_cookbook name)
  | Some version =>
      let? raw := or_500 (Org_Get org "cookbooks" (cookbookKey name version)) in
      match raw with
      | None => h_reply (no_cookbook_version name version)
      | Some raw => h_ret (writeRaw 200 (withFileURLs fs (r_base r) api raw org))
      end
  end.

(** ** Garbage collection *)

(** The checksums of the manifests a collection holds, as far as encoding/json
    decodes them. *)
Definition manifest_sums (raw : string) : list string :=
  match unmarshal_map raw with Some m => manifestChecksums (members m) | None => [] end.

Fixpoint collect_sums (org coll : string) (keys : list string) : ST st (list string) :=
  match keys with
  | [] => st_ret []
  | key :: keys' =>
      let! raw := Org_Get org coll key in
      let! rest := collect_sums org coll keys' in
      st_ret (match raw with Some raw => manifest_sums raw ++ rest | None => rest end)
  end.

Definition referencedChecksums (org : string) : ST st (list string) :=
  let! cookbooks := Org_Keys org "cookbooks" in
  let! refs := collect_sums org "cookbooks" cookbooks in
  let! artifacts := Org_Keys org "cookbook_artifacts" in
  let! refs' := collect_sums org "cookbook_artifacts" artifacts in
  st_ret (refs ++ refs').

Definition gcOrphanedBlobs (org : string) (candidates : list string) : ST st unit :=
  if decide (candidates = []) then st_ret tt
  else
    let! referenced := referencedChecksums org in
    st_each (λ sum, if contains_str referenced sum then st_ret tt else Org_DeleteBlob org sum) candidates.

Definition deleteVersionedACL (org coll name : string) : ST st unit :=
  let! remaining := hasVersion org coll name in
  if remaining : bool then st_ret tt else deleteACL org coll name.

(** Every file must already be in the store. *)
Fixpoint require_blobs (org : string) (sums : list string) : handler st unit :=
  match sums with
  | [] => h_ret tt
  | sum :: sums' =>
      let? has := or_500 (Org_HasBlob org sum) in
      if has : bool then require_blobs org sums'
      else h_reply (writeError 400 ["Manifest has a checksum that hasn't been uploaded: " +:+ sum])
  end.

(** ** Manifests *)

Definition decodeManifestBody (body : string) : result string :=
  match decodeObjectBody body with
  | Err e => Err e
  | Ok raw => if HasRepeatedNames raw then Err (ErrOther "manifest repeats a member name") else Ok raw
  end.

Definition invalid_body {A} : handler st A := h_reply (writeError 400 ["invalid JSON body"]).

Definition putCookbookVersion (fs : filestore) (api : Z) (r : request) (orgname name version : string) : handler st reply :=
  let? org := API_org orgname in
  match validateCookbookURL name version with
  | Some msg => h_reply (writeError 400 [msg])
  | None =>
      match decodeManifestBody (r_body r) with
      | Err _ => invalid_body
      | Ok raw =>
          match Parse raw with
          | Ok (VObj ms) =>
              let '(ms, refusal) := validateCookbookManifest ms name version (bool_decide (2 ≤ api)%Z) in
              match refusal with
              | Some msg => h_reply (writeError 400 [msg])
              | None =>
                  let raw := Marshal (VObj ms) in
                  match DecodeObject raw with
                  | Err _ => invalid_body
                  | Ok m =>
                      require_blobs org (manifestChecksums m) ;;?
                      let? prev := or_500 (Org_Get org "cookbooks" (cookbookKey name version)) in
                      or_500 (Org_Put org "cookbooks" (cookbookKey name version) raw) ;;?
                      or_500 (match prev with
                              | Some prev => match unmarshal_map prev with
                                             | Some old => gcOrphanedBlobs org (manifestChecksums (members old))
                                             | None => st_ret tt
                                             end
                              | None => st_ret tt
                              end) ;;?
                      h_ret (writeRaw (match prev with Some _ => 200 | None => 201 end)
                               (withFileURLs fs (r_base r) api raw org))
                  end
              end
          | _ => invalid_body
          end
      end
  end.

(** What follows the removal of a manifest: the ACL when it was the last of its
    name, then the files it was the last to reference. *)
Definition after_delete (fs : filestore) (api : Z) (r : request) (org coll name raw : string) : handler st reply :=
  or_500 (deleteVersionedACL org coll name) ;;?
  match unmarshal_map raw with
  | Some m =>
      or_500 (gcOrphanedBlobs org (manifestChecksums (members m))) ;;?
      h_ret (writeRaw 200 (withFileURLs fs (r_base r) api raw org))
  | None => h_ret (writeRaw 200 raw)
  end.

Definition deleteCookbookVersion (fs : filestore) (api : Z) (r : request) (orgname name version : string) : handler st reply :=
  let? org := API_org orgname in
  let? v := or_500 (resolveVersion org name version) in
  match v with
  | None => h_reply (no_cookbook name)
  | Some version =>
      let? raw := or_500 (Org_Delete org "cookbooks" (cookbookKey name version)) in
      match raw with
      | None => h_reply (no_cookbook_version name version)
      | Some raw => after_delete fs api r org "cookbooks" name raw
      end
  end.

(** ** Reports over every cookbook *)

Definition cookbooksLatest (r : request) (vals : list string) (orgname : string) : handler st reply :=
  let? org := API_org orgname in
  let? _limit := numVersions vals 1 in
  let? cv := or_500 (cookbookVersions org) in
  h_ret (writeJSON 200 (VObj (omap (λ e, match e.2 with
    | v :: _ => Some (e.1, VStr (cookbookBaseURL r org e.1 +:+ "/" +:+ v))
    | [] => None
    end) (map_to_list cv)))).

(** The manifest of each cookbook's newest version, decoded; those that are gone
    or do not decode are left out. *)
Fixpoint newest_manifests (org : string) (cv : list (string * list string)) : ST st (list (string * obj)) :=
  match cv with
  | [] => st_ret []
  | (name, v :: _) :: cv' =>
      let! raw := Org_Get org "cookbooks" (cookbookKey name v) in
      let! rest := newest_manifests org cv' in
      st_ret (match raw with
              | Some raw => match unmarshal_map raw with Some m => (name, members m) :: rest | None => rest end
              | None => rest
              end)
  | (_, []) :: cv' => newest_manifests org cv'
  end.

(** The recipes found, sorted and once each; no recipe at all is a nil slice,
    which is written as null. *)
Definition recipe_list (manifests : list (string * obj)) : value :=
  match remove_dups (concat (map (λ m, manifestRecipes m.2 m.1) manifests)) with
  | [] => VNull
  | recipes => VArr (map VStr (sort_strings recipes))
  end.

Definition cookbookRecipesEndpoint (vals : list string) (orgname : string) : handler st reply :=
  let? org := API_org orgname in
  let? _limit := numVersions vals 1 in
  let? cv := or_500 (cookbookVersions org) in
  let? manifests := or_500 (newest_manifests org (map_to_list cv)) in
  h_ret (writeJSON 200 (recipe_list manifests)).

Definition universe_entry (r : request) (org name v : string) (m : obj) : value :=
  let url := cookbookBaseURL r org name +:+ "/" +:+ v in
  VObj [("location_type", VStr "chef_server"); ("location_path", VStr url); ("download_url", VStr url);
        ("dependencies", VObj (manifestDependencies m))].

Fixpoint universe_versions (r : request) (org name : string) (vers : list string) : ST st obj :=
  match vers with
  | [] => st_ret []
  | v :: vers' =>
      let! raw := Org_Get org "cookbooks" (cookbookKey name v) in
      let! rest := universe_versions r org name vers' in
      st_ret (match raw with
              | Some raw => match unmarshal_map raw with Some m => (v, universe_entry r org name v (members m)) :: rest | None => rest end
              | None => rest
              end)
  end.

Fixpoint universe_all (r : request) (org : string) (cv : list (string * list string)) : ST st obj :=
  match cv with
  | [] => st_ret []
  | (name, vers) :: cv' =>
      let! versions := universe_versions r org name vers in
      let! rest := universe_all r org cv' in
      st_ret ((name, VObj versions) :: rest)
  end.

Definition universe (r : request) (orgname : string) : handler st reply :=
  let? org := API_org orgname in
  let? cv := or_500 (cookbookVersions org) in
  let? out := or_500 (universe_all r org (map_to_list cv)) in
  h_ret (writeJSON 200 (VObj out)).

(** ** The file store and sandboxes *)

Definition putFile (r : request) (orgname checksum : string) : handler st reply :=
  let? org := API_org orgname in
  if decide (hex_encode (md5_sum (r_body r)) ≠ checksum)
  then h_reply (writeError 400 ["Checksum of uploaded content does not match " +:+ checksum])
  else or_500 (Org_PutBlob org checksum (r_body r)) ;;? h_ret (mkReply 200 NoBody).

Definition getFile (orgname checksum : string) : handler st reply :=
  let? org := API_org orgname in
  let? data := or_500 (Org_Blob org checksum) in
  match data with
  | None => h_reply (writeError 404 ["File not found"])
  | Some data => h_ret (mkReply 200 (Raw data))
  end.

Definition sandboxID (sortedSums : list string) : string := hex_encode (md5_sum (join "" sortedSums)).

(** [Checksums map[string]any]: an object adds its names to the map, null
    empties it. *)
Definition sandbox_field (names : list string) (name : string) (v : value) : option (list string) :=
  if decide (fold_name name = "checksums") then
    match v with
    | VNull => Some []
    | VObj ms => if numbers_fit v then Some (remove_dups (names ++ map fst ms)) else None
    | _ => None
    end
  else Some names.

Definition sandbox_request (body : string) : option (list string) :=
  match parse_value false (2 * String.length body + 2) max_depth body with
  | Some (v, _) => decode_struct sandbox_field [] v
  | None => None
  end.

Fixpoint sandbox_checksums (fs : filestore) (r : request) (org : string) (sums : list string) : ST st obj :=
  match sums with
  | [] => st_ret []
  | sum :: sums' =>
      let! has := Org_HasBlob org sum in
      let! rest := sandbox_checksums fs r org sums' in
      st_ret ((sum, VObj (if (has : bool) then [("needs_upload", VBool false)]
                          else [("url", VStr (fileStoreURL fs (r_base r) org sum FileStorePut)); ("needs_upload", VBool true)])) :: rest)
  end.

(** [create_time] is the moment of the request in RFC 3339. *)
Definition createSandbox (fs : filestore) (create_time : string) (r : request) (orgname : string) : handler st reply :=
  let? org := API_org orgname in
  match sandbox_request (r_body r) with
  | None => invalid_body
  | Some names =>
      let sums := sort_strings names in
      let id := sandboxID sums in
      let? out := or_500 (sandbox_checksums fs r org sums) in
      or_500 (Org_Put org "sandboxes" id (mustEncode (VObj
        [("sandbox_id", VStr id); ("checksums", VArr (map VStr sums)); ("is_completed", VBool false);
         ("create_time", VStr create_time)]))) ;;?
      h_ret (writeJSON 201 (VObj
        [("sandbox_id", VStr id); ("uri", VStr (r_base r +:+ "/organizations/" +:+ org +:+ "/sandboxes/" +:+ id));
         ("checksums", VObj out)]))
  end.

Definition sandbox_sums (sums : list string) (name : string) (v : value) : option (list string) :=
  if decide (fold_name name = "checksums") then decode_strings sums v else Some sums.

Fixpoint require_uploaded (org : string) (sums : list string) : handler st unit :=
  match sums with
  | [] => h_ret tt
  | sum :: sums' =>
      let? has := or_500 (Org_HasBlob org sum) in
      if has : bool then require_uploaded org sums'
      else h_reply (writeError 400 ["Checksum " +:+ sum +:+ " was not uploaded before the sandbox was committed"])
  end.

Definition commitSandbox (orgname id : string) : handler st reply :=
  let? org := API_org orgname in
  let? raw := or_500 (Org_Get org "sandboxes" id) in
  match raw with
  | None => h_reply (writeError 404 ["Cannot find sandbox " +:+ id])
  | Some raw =>
      match v ← decode false raw; decode_struct sandbox_sums [] v with
      | None => h_reply (mkReply 500 (Messages ["json: cannot unmarshal"]))
      | Some sums =>
          require_uploaded org sums ;;?
          let committed := VObj [("guid", VStr id); ("name", VStr id); ("checksums", VArr (map VStr sums)); ("is_completed", VBool true)] in
          or_500 (Org_Put org "sandboxes" id (mustEncode committed)) ;;?
          h_ret (writeJSON 200 committed)
      end
  end.

(** ** Artifacts (cookbook_artifacts.go) *)

Definition artifactIdentifiers (org : string) : ST st (gmap string (list string)) :=
  let! keys := Org_Keys org "cookbook_artifacts" in
  st_ret (sort_strings <$> group_versions keys).

Definition listArtifacts (r : request) (orgname : string) : handler st reply :=
  let? org := API_org orgname in
  let? idents := or_500 (artifactIdentifiers org) in
  h_ret (writeJSON 200 (collectionListBody r org "cookbook_artifacts" "identifier" idents allVersions)).

Definition getArtifact (r : request) (orgname name : string) : handler st reply :=
  let? org := API_org orgname in
  let? idents := or_500 (artifactIdentifiers org) in
  match idents !! name with
  | None => h_reply (writeError 404 ["Cannot find a cookbook artifact named " +:+ name])
  | Some ids => h_ret (writeJSON 200 (collectionListBody r org "cookbook_artifacts" "identifier" {[ name := ids ]} allVersions))
  end.

Definition no_artifact (name ident : string) : reply :=
  writeError 404 ["Cannot find a cookbook artifact named " +:+ name +:+ " with identifier " +:+ ident].

Definition getArtifactVersion (fs : filestore) (api : Z) (r : request) (orgname name ident : string) : handler st reply :=
  let? org := API_org orgname in
  let? raw := or_500 (Org_Get org "cookbook_artifacts" (cookbookKey name ident)) in
  match raw with
  | None => h_reply (no_artifact name ident)
  | Some raw => h_ret (writeRaw 200 (withFileURLs fs (r_base r) api raw org))
  end.

Definition putArtifactVersion (fs : filestore) (api : Z) (r : request) (orgname name ident : string) : handler st reply :=
  let? org := API_org orgname in
  let? existed := or_500 (Org_Get org "cookbook_artifacts" (cookbookKey name ident)) in
  match existed with
  | Some _ => h_reply (writeError 409 ["Cookbook artifact " +:+ name +:+ " with identifier " +:+ ident +:+ " already exists"])
  | None =>
      match decodeManifestBody (r_body r) with
      | Err _ => invalid_body
      | Ok raw =>
          match checkManifestShape api raw with
          | inl _ => invalid_body
          | inr (Some msg) => h_reply (writeError 400 [msg])
          | inr None =>
              match DecodeObject raw with
              | Err _ => invalid_body
              | Ok m =>
                  require_blobs org (manifestChecksums m) ;;?
                  or_500 (Org_Put org "cookbook_artifacts" (cookbookKey name ident) raw) ;;?
                  h_ret (writeRaw 201 (withFileURLs fs (r_base r) api raw org))
              end
          end
      end
  end.

Definition deleteArtifactVersion (fs : filestore) (api : Z) (r : request) (orgname name ident : string) : handler st reply :=
  let? org := API_org orgname in
  let? raw := or_500 (Org_Delete org "cookbook_artifacts" (cookbookKey name ident)) in
  match raw with
  | None => h_reply (no_artifact name ident)
  | Some raw => after_delete fs api r org "cookbook_artifacts" name raw
  end.
End Cookbooks.
