(* ===== verification/Blobs.v ===== *)
(** * The files a manifest references stay in the store

    Garbage collection removes exactly the candidates no readable manifest
    references, and the cookbook, artifact, sandbox and file handlers keep every
    stored manifest backed by the files it names. *)
From S2P Require Import Prelude GoText Json Chefjson Float GoJson Normalize Stored Store Facade Groups Http Effects Acl AclDocs GroupApi Version Presign Objects Manifest Cookbooks.
#[local] Open Scope go_scope.
#[local] Open Scope http_scope.

Definition manifest_colls : list string := ["cookbooks"; "cookbook_artifacts"].

(** A stored manifest that encoding/json decodes names the file. *)
Definition referenced (objs : objects) (org sum : string) : Prop :=
  ∃ coll key raw, coll ∈ manifest_colls ∧ objs !! (org, coll, key) = Some raw ∧ sum ∈ manifest_sums raw.

Section Gc.
Context {B : Type} `{BackendSpec B} {O : Type}.

Lemma ens_collect_sums org coll keys sp :
  ensures (B := B) (O := O) (collect_sums org coll keys) sp (λ r sp', sp' = sp ∧ match r with
    | Ok l => ∀ x, x ∈ l ↔ ∃ key raw, key ∈ keys ∧ s_objs sp !! (org, coll, key) = Some raw ∧ x ∈ manifest_sums raw
    | Err _ => True end).
Proof.
  induction keys as [|key keys IH]; cbn [collect_sums].
  - apply ens_ret. split; [done|]. intros x. split; [by intros ?%elem_of_nil|set_solver].
  - apply ens_bind, ens_Get; [|done]. apply ens_bind. eapply ens_conseq; [exact IH|].
    intros [rest|e] sp' [-> Hr]; [|done]. apply ens_ret. split; [done|]. intros x.
    destruct (s_objs sp !! (org, coll, key)) as [raw|] eqn:E.
    + rewrite elem_of_app, Hr. split.
      * intros [Hx|(k & w & Hk & Hw & Hx)]; [exists key, raw; set_solver|exists k, w; set_solver].
      * intros (k & w & [->|Hk]%elem_of_cons & Hw & Hx); [left; congruence|right; eauto].
    + rewrite Hr. split; [intros (k & w & Hk & Hw & Hx); exists k, w; set_solver|].
      intros (k & w & [->|Hk]%elem_of_cons & Hw & Hx); [congruence|eauto].
Qed.

Lemma ens_referencedChecksums org sp :
  ensures (B := B) (O := O) (referencedChecksums org) sp (λ r sp', sp' = sp ∧ match r with
    | Ok l => ∀ x, x ∈ l ↔ referenced (s_objs sp) org x
    | Err _ => True end).
Proof.
  unfold referencedChecksums. apply ens_bind, ens_Keys; [|done].
  apply ens_bind. eapply ens_conseq; [apply ens_collect_sums|]. intros [refs|] sp' [-> Hc]; [|done].
  apply ens_bind, ens_Keys; [|done].
  apply ens_bind. eapply ens_conseq; [apply ens_collect_sums|]. intros [refs'|] sp' [-> Ha]; [|done].
  apply ens_ret. split; [done|]. intros x. rewrite elem_of_app, Hc, Ha. unfold referenced, manifest_colls.
  setoid_rewrite elem_of_keys. split.
  - intros [(key & raw & _ & Hk & Hx)|(key & raw & _ & Hk & Hx)]; eexists _, key, raw; (split; [|done]); set_solver.
  - intros (coll & key & raw & Hcoll & Hk & Hx). apply list_elem_of_In in Hcoll.
    destruct Hcoll as [<-|[<-|[]]]; [left|right]; exists key, raw; eauto.
Qed.

(** What a collection leaves: objects and organizations untouched, and no file
    gone but unreferenced candidates. *)
Definition collected (org : string) (candidates : list string) (sp sp' : space) : Prop :=
  s_objs sp' = s_objs sp ∧ s_orgs sp' = s_orgs sp ∧
  ∀ o sum, s_blobs sp' !! (o, sum) = s_blobs sp !! (o, sum) ∨
    (o = org ∧ sum ∈ candidates ∧ ¬ referenced (s_objs sp) org sum).

(** And on success every one of those is gone, and only they. *)
Definition collected_all (org : string) (candidates : list string) (sp sp' : space) : Prop :=
  s_objs sp' = s_objs sp ∧ s_orgs sp' = s_orgs sp ∧
  ∀ o sum, (o = org ∧ sum ∈ candidates ∧ ¬ referenced (s_objs sp) org sum ∧ s_blobs sp' !! (o, sum) = None) ∨
    (¬ (o = org ∧ sum ∈ candidates ∧ ¬ referenced (s_objs sp) org sum) ∧ s_blobs sp' !! (o, sum) = s_blobs sp !! (o, sum)).

Lemma collected_of_all org candidates sp sp' : collected_all org candidates sp sp' → collected org candidates sp sp'.
Proof. intros (? & ? & Hb). split; [done|]. split; [done|]. intros o sum. specialize (Hb o sum). tauto. Qed.

Lemma ens_gc org candidates sp :
  ensures (B := B) (O := O) (gcOrphanedBlobs org candidates) sp (λ r sp', match r with
    | Ok _ => collected_all org candidates sp sp'
    | Err _ => collected org candidates sp sp' end).
Proof.
  unfold gcOrphanedBlobs. destruct (decide (candidates = [])) as [->|Hne].
  { apply ens_ret. split; [done|]. split; [done|]. intros o sum. right. split; [set_solver|done]. }
  apply ens_bind. eapply ens_conseq; [apply ens_referencedChecksums|]. intros [refs|e] sp1 [-> Hr].
  2:{ split; [done|]. split; [done|]. auto. }
  apply (ens_each _ (λ dn sp', collected_all org dn sp sp')).
  - split; [done|]. split; [done|]. intros o sum. right. split; [set_solver|done].
  - intros dn x rest sp' El Hi. pose proof Hi as (Ho & Hg & Hb).
    destruct (contains_str refs x) eqn:Ex.
    + apply ens_ret. apply contains_str_true, Hr in Ex. split; [done|]. split; [done|]. intros o sum.
      destruct (Hb o sum) as [(-> & Hin & Hnr & Hn)|[Hnot Hs]]; [left; set_solver|right]. split; [|done].
      intros (-> & [Hin| ->%list_elem_of_singleton]%elem_of_app & Hnr); [by apply Hnot|done].
    + apply contains_str_false in Ex. rewrite Hr in Ex. apply ens_DeleteBlob.
      * split; [done|]. split; [done|]. intros o sum. cbn.
        destruct (decide ((o, sum) = (org, x))) as [[= -> ->]|Hk].
        -- left. split; [done|]. split; [set_solver|]. split; [done|]. by rewrite lookup_delete_eq.
        -- rewrite lookup_delete_ne by congruence.
           destruct (Hb o sum) as [(-> & Hin & Hnr & Hn)|[Hnot Hs]]; [left; set_solver|right]. split; [|done].
           intros (-> & [Hin| ->%list_elem_of_singleton]%elem_of_app & Hnr); [by apply Hnot|done].
      * intros e. split; [done|]. split; [done|]. intros o sum.
        destruct (Hb o sum) as [(-> & Hin & Hnr & Hn)|[Hnot Hs]]; [right; set_solver|by left].
  - intros sp' Hi. exact Hi.
Qed.
End Gc.

(** Garbage collection deletes from the file store exactly the candidates that
    no readable cookbook or artifact manifest of the organization references;
    it touches no object, no other file and no other organization, and stopped
    by a store error it has deleted none but such candidates. *)
Theorem gc_deletes_orphans_only `{BackendSpec B} {O} (org : string) (candidates : list string) (s : Store B O) :
  match gcOrphanedBlobs org candidates s with
  | (Ok _, s') => collected_all org candidates (view s.1) (view s'.1)
  | (Err _, s') => collected org candidates (view s.1) (view s'.1)
  end.
Proof. pose proof (ens_gc org candidates (view s.1) s eq_refl) as Hg. by destruct (gcOrphanedBlobs org candidates s) as [[[]|e] s']. Qed.

(** ** The invariant *)

(** Every file a readable manifest names is in the store. *)
Definition backed (sp : space) : Prop :=
  ∀ org sum, referenced (s_objs sp) org sum → is_Some (s_blobs sp !! (org, sum)).

Lemma referenced_put_other objs org coll key raw o sum : coll ∉ manifest_colls →
  referenced (<[(org, coll, key) := raw]> objs) o sum → referenced objs o sum.
Proof.
  intros Hc (c & k & w & Hin & Hl & Hs). exists c, k, w. rewrite lookup_insert_ne in Hl by set_solver. done.
Qed.

Lemma referenced_put objs org coll key raw o sum :
  referenced (<[(org, coll, key) := raw]> objs) o sum → referenced objs o sum ∨ (o = org ∧ sum ∈ manifest_sums raw).
Proof.
  intros (c & k & w & Hin & Hl & Hs). destruct (decide ((org, coll, key) = (o, c, k))) as [[= -> -> ->]|Hne].
  - rewrite lookup_insert_eq in Hl. simplify_eq. by right.
  - rewrite lookup_insert_ne in Hl by done. left. by exists c, k, w.
Qed.

Lemma referenced_delete objs i o sum : referenced (delete i objs) o sum → referenced objs o sum.
Proof. intros (c & k & w & Hin & [_ Hl]%lookup_delete_Some & Hs). by exists c, k, w. Qed.

Lemma backed_put_other sp org coll key raw : coll ∉ manifest_colls → backed sp → backed (sp_put org coll key raw sp).
Proof. intros Hc Hb o sum Hr. apply Hb. rewrite s_objs_put in Hr. by eapply referenced_put_other. Qed.

Lemma backed_put sp org coll key raw : backed sp → (∀ sum, sum ∈ manifest_sums raw → is_Some (s_blobs sp !! (org, sum))) →
  backed (sp_put org coll key raw sp).
Proof. intros Hb Hraw o sum [Hr|[-> Hs]]%referenced_put; [by apply Hb|by apply Hraw]. Qed.

Lemma backed_delete sp org coll key : backed sp → backed (sp_delete org coll key sp).
Proof. intros Hb o sum Hr. apply Hb. rewrite s_objs_delete in Hr. by eapply referenced_delete. Qed.

Lemma backed_collected sp sp' org candidates : backed sp → collected org candidates sp sp' → backed sp'.
Proof.
  intros Hb (Ho & _ & Hc) o sum Hr. rewrite Ho in Hr. destruct (Hc o sum) as [->|(-> & _ & Hn)]; [by apply Hb|done].
Qed.

Section Backed.
Context `{SliceSort} `{MD5} `{HMAC}.
Context {B : Type} `{BackendSpec B} {O : Type}.

(** Run to any of its ends, the call leaves the manifests backed. *)
Abbreviation keeps_backed m := (∀ sp, backed sp → h_ensures (B := B) (O := O) m sp (λ _ sp', backed sp')).
Abbreviation st_keeps_backed m := (∀ sp, backed sp → ensures (B := B) (O := O) m sp (λ _ sp', backed sp')).

Lemma gc_keeps org candidates : st_keeps_backed (gcOrphanedBlobs org candidates).
Proof.
  intros sp Hb. eapply ens_conseq; [apply ens_gc|]. intros [[]|e] sp' Hc; eapply backed_collected; try done.
  by apply collected_of_all.
Qed.

Lemma or_500_keeps {A : Type} (m : ST (Store B O) A) : st_keeps_backed m → keeps_backed (or_500 m).
Proof.
  intros Hm sp Hb. apply h_ens_or_500. eapply ens_conseq; [by apply Hm|]. by intros [] sp'.
Qed.

Lemma bind_keeps {A C : Type} (m : handler (Store B O) A) (k : A → handler (Store B O) C) :
  keeps_backed m → (∀ a, keeps_backed (k a)) → keeps_backed (h_bind m k).
Proof.
  intros Hm Hk sp Hb. apply h_ens_bind. eapply h_ens_conseq; [by apply Hm|]. intros [a|rep] sp' Hb'; [by apply Hk|done].
Qed.

Lemma ret_keeps {A : Type} (a : A) : keeps_backed (h_ret a).
Proof. intros sp Hb. by apply h_ens_ret. Qed.

Lemma reply_keeps {A : Type} rep : keeps_backed (h_reply (A := A) rep).
Proof. intros sp Hb. by apply h_ens_reply. Qed.

Lemma org_keeps name : keeps_backed (API_org name).
Proof. intros sp Hb. by apply h_ens_org. Qed.

Lemma deleteVersionedACL_keeps org coll name : st_keeps_backed (deleteVersionedACL org coll name).
Proof.
  intros sp Hb. apply ens_bind. eapply ens_observes; [by apply observes_hasVersion| |done]. intros r _.
  destruct r; [by apply ens_ret|]. apply ens_deleteACL; [by apply backed_delete|done].
Qed.

Lemma after_delete_keeps fs api r org coll name raw : keeps_backed (after_delete fs api r org coll name raw).
Proof.
  apply bind_keeps; [apply or_500_keeps, deleteVersionedACL_keeps|]. intros [].
  destruct (unmarshal_map raw); [|apply ret_keeps].
  apply bind_keeps; [apply or_500_keeps, gc_keeps|]. intros []. apply ret_keeps.
Qed.

Lemma delete_keeps org coll key : st_keeps_backed (Org_Delete org coll key).
Proof. intros sp Hb. apply ens_Delete; [by apply backed_delete|done]. Qed.

Lemma put_other_keeps org coll key val : coll ∉ manifest_colls → st_keeps_backed (Org_Put org coll key val).
Proof. intros Hc sp Hb. apply ens_Put; [by apply backed_put_other|done]. Qed.

Lemma read_keeps {A : Type} (m : ST (Store B O) A) P : observes (λ _, True) m P → st_keeps_backed m.
Proof. intros Hm sp Hb. by eapply ens_observes. Qed.

Lemma cookbookVersions_keeps org : st_keeps_backed (cookbookVersions org).
Proof. intros sp Hb. apply ens_bind, ens_Keys; [by apply ens_ret|done]. Qed.

Lemma resolveVersion_keeps org name version : st_keeps_backed (resolveVersion org name version).
Proof.
  intros sp Hb. unfold resolveVersion. case_decide; [by apply ens_ret|]. apply ens_bind.
  eapply ens_conseq; [by apply cookbookVersions_keeps|]. intros [cv|] sp' Hb'; [by apply ens_ret|done].
Qed.

Lemma deleteCookbookVersion_keeps fs api r org name version : keeps_backed (deleteCookbookVersion fs api r org name version).
Proof.
  apply bind_keeps; [apply org_keeps|intros o]. apply bind_keeps; [apply or_500_keeps, resolveVersion_keeps|intros [v|]];
    [|apply reply_keeps]. apply bind_keeps; [apply or_500_keeps, delete_keeps|intros [raw|]]; [|apply reply_keeps].
  apply after_delete_keeps.
Qed.

Lemma deleteArtifactVersion_keeps fs api r org name ident : keeps_backed (deleteArtifactVersion fs api r org name ident).
Proof.
  apply bind_keeps; [apply org_keeps|intros o]. apply bind_keeps; [apply or_500_keeps, delete_keeps|intros [raw|]];
    [|apply reply_keeps]. apply after_delete_keeps.
Qed.

Lemma putFile_keeps r org checksum : keeps_backed (putFile r org checksum).
Proof.
  apply bind_keeps; [apply org_keeps|intros o]. case_decide; [apply reply_keeps|].
  apply bind_keeps; [apply or_500_keeps|intros []; apply ret_keeps]. intros sp Hb. apply ens_PutBlob; [|done].
  intros o' sum Hr. cbn. destruct (decide ((o, checksum) = (o', sum))) as [->|]; [by rewrite lookup_insert_eq|].
  rewrite lookup_insert_ne by done. by apply Hb.
Qed.

(** Past the upload check, every file of the manifest is there. *)
Lemma h_ens_require_blobs org sums sp :
  h_ensures (B := B) (O := O) (require_blobs org sums) sp (λ r sp', sp' = sp ∧ match r with
    | inl _ => ∀ sum, sum ∈ sums → is_Some (s_blobs sp !! (org, sum)) | inr _ => True end).
Proof.
  induction sums as [|x sums IH]; cbn [require_blobs].
  - apply h_ens_ret. split; [done|]. by intros sum ?%elem_of_nil.
  - apply h_ens_bind, h_ens_or_500, ens_HasBlob; [|done]. case_bool_decide as Hx; [|by apply h_ens_reply].
    eapply h_ens_conseq; [exact IH|]. intros [[]|rep] sp' [-> Hs]; [|done]. split; [done|].
    intros sum [->|Hin]%elem_of_cons; [done|by apply Hs].
Qed.

Lemma decoded_sums raw v m sum : decode true raw = Some v → repeats v = false → DecodeObject raw = Ok m →
  sum ∈ manifest_sums raw → sum ∈ manifestChecksums m.
Proof.
  intros Hd Hr Hm. unfold manifest_sums. destruct (unmarshal_map raw) as [m'|] eqn:E; [|by intros ?%elem_of_nil].
  by rewrite (readers_agree _ _ _ _ Hd Hr Hm E).
Qed.

Lemma decodeManifestBody_Ok body raw : decodeManifestBody body = Ok raw → HasRepeatedNames raw = false.
Proof.
  unfold decodeManifestBody. destruct (decodeObjectBody body) as [out|]; [|done].
  destruct (HasRepeatedNames out) eqn:E; [done|]. by intros [= <-].
Qed.

(** The manifest just checked, stored. *)
Lemma checked_put_keeps {A : Type} org coll key raw m sums (k : unit → handler (Store B O) A) :
  (∀ sum, sum ∈ manifest_sums raw → sum ∈ manifestChecksums m) → sums = manifestChecksums m →
  keeps_backed (k tt) →
  ∀ sp, backed sp → (∀ sum, sum ∈ sums → is_Some (s_blobs sp !! (org, sum))) →
  h_ensures (B := B) (O := O) (or_500 (Org_Put org coll key raw) ;;? k tt) sp (λ _ sp', backed sp').
Proof.
  intros Hraw -> Hk sp Hb Hs. apply h_ens_bind, h_ens_or_500, ens_Put; [|done]. apply Hk.
  apply backed_put; [done|]. auto.
Qed.

Lemma putArtifactVersion_keeps fs api r org name ident : keeps_backed (putArtifactVersion fs api r org name ident).
Proof.
  apply bind_keeps; [apply org_keeps|intros o].
  apply bind_keeps; [apply or_500_keeps; eapply read_keeps; by apply observes_Get|intros [old|]; [apply reply_keeps|]].
  destruct (decodeManifestBody (r_body r)) as [raw|] eqn:Ed; [|apply reply_keeps].
  destruct (checkManifestShape api raw) as [|[|]]; [apply reply_keeps..|].
  destruct (DecodeObject raw) as [m|] eqn:Em; [|apply reply_keeps].
  intros sp Hb. apply h_ens_bind. eapply h_ens_conseq; [apply h_ens_require_blobs|].
  intros [[]|rep] sp' [-> Hs]; [|done].
  apply (checked_put_keeps o _ _ raw m (manifestChecksums m) (λ _, h_ret _)); try done; [|intros ??; by apply h_ens_ret].
  intros sum. apply decodeManifestBody_Ok in Ed. unfold HasRepeatedNames in Ed.
  destruct (decode true raw) as [v|] eqn:Ev; [|done]. by apply (decoded_sums raw v).
Qed.

Lemma putCookbookVersion_keeps fs api r org name version : keeps_backed (putCookbookVersion fs api r org name version).
Proof.
  apply bind_keeps; [apply org_keeps|intros o].
  destruct (validateCookbookURL name version); [apply reply_keeps|].
  destruct (decodeManifestBody (r_body r)) as [raw|] eqn:Ed; [|apply reply_keeps].
  destruct (Parse raw) as [[| | | | |ms]|] eqn:Ep; try apply reply_keeps.
  unfold validateCookbookManifest. destruct (first_refusal _ _); [apply reply_keeps|].
  set (raw' := Marshal (VObj (with_defaults ms))). destruct (DecodeObject raw') as [m|] eqn:Em; [|apply reply_keeps].
  intros sp Hb. apply h_ens_bind. eapply h_ens_conseq; [apply h_ens_require_blobs|].
  intros [[]|rep] sp' [-> Hs]; [|done].
  apply h_ens_bind, h_ens_or_500, ens_Get; [|done].
  apply (checked_put_keeps o _ _ raw' m (manifestChecksums m) (λ _, _)); try done.
  - intros sum. apply decodeManifestBody_Ok in Ed. pose proof (parsed_storable _ _ Ep Ed) as Hst.
    apply with_defaults_storable in Hst as (Hf & Hdep & Hrep).
    apply (decoded_sums raw' (canon (VObj (with_defaults ms)))); [by apply decode_Marshal| |done].
    by rewrite canon_renumber, repeats_renumber.
  - apply bind_keeps; [apply or_500_keeps|intros []; apply ret_keeps].
    destruct (s_objs sp !! _) as [prev|]; [destruct (unmarshal_map prev); [apply gc_keeps|]|];
      intros sp' Hb'; by apply ens_ret.
Qed.

Lemma createSandbox_keeps fs time r org : keeps_backed (createSandbox fs time r org).
Proof.
  apply bind_keeps; [apply org_keeps|intros o]. destruct (sandbox_request (r_body r)); [|apply reply_keeps].
  apply bind_keeps.
  - apply or_500_keeps. induction (sort_strings l) as [|sum sums IH]; intros sp Hb; [by apply ens_ret|].
    cbn [sandbox_checksums]. apply ens_bind, ens_HasBlob; [|done]. apply ens_bind.
    eapply ens_conseq; [by apply IH|]. intros [] sp' Hb'; [by apply ens_ret|done].
  - intros out. apply bind_keeps; [apply or_500_keeps, put_other_keeps; set_solver|intros []; apply ret_keeps].
Qed.

Lemma commitSandbox_keeps org id : keeps_backed (commitSandbox org id).
Proof.
  apply bind_keeps; [apply org_keeps|intros o].
  apply bind_keeps; [apply or_500_keeps; eapply read_keeps; by apply observes_Get|intros [raw|]; [|apply reply_keeps]].
  destruct (decode false raw ≫= _) as [sums|]; [|apply reply_keeps].
  apply bind_keeps; [|intros []; apply bind_keeps; [apply or_500_keeps, put_other_keeps; set_solver|intros []; apply ret_keeps]].
  induction sums as [|sum sums IH]; [apply ret_keeps|]. cbn [require_uploaded].
  apply bind_keeps; [|intros []; [exact IH|apply reply_keeps]]. apply or_500_keeps. intros sp Hb. by apply ens_HasBlob.
Qed.
End Backed.

(** ** Any sequence of calls *)

Inductive call :=
  | PutCookbook (r : request) (api : Z) (org name version : string)
  | DeleteCookbook (r : request) (api : Z) (org name version : string)
  | PutArtifact (r : request) (api : Z) (org name ident : string)
  | DeleteArtifact (r : request) (api : Z) (org name ident : string)
  | PutFile (r : request) (org checksum : string)
  | CreateSandbox (r : request) (now : string) (org : string)
  | CommitSandbox (org id : string).

Section Calls.
Context `{SliceSort} `{MD5} `{HMAC}.
Context {B : Type} `{BackendSpec B} {O : Type} (fs : filestore).

Definition run_call (c : call) : handler (Store B O) reply :=
  match c with
  | PutCookbook r api org name version => putCookbookVersion fs api r org name version
  | DeleteCookbook r api org name version => deleteCookbookVersion fs api r org name version
  | PutArtifact r api org name ident => putArtifactVersion fs api r org name ident
  | DeleteArtifact r api org name ident => deleteArtifactVersion fs api r org name ident
  | PutFile r org checksum => putFile r org checksum
  | CreateSandbox r now org => createSandbox fs now r org
  | CommitSandbox org id => commitSandbox org id
  end.

Definition run_calls (cs : list call) (s : Store B O) : Store B O := foldl (λ s c, (run_call c s).2) s cs.

Lemma run_call_keeps c (s : Store B O) : backed (view s.1) → backed (view (run_call c s).2.1).
Proof.
  intros Hb. assert (h_ensures (run_call c) (view s.1) (λ _ sp', backed sp')) as Hc.
  { destruct c; cbn [run_call]; revert Hb; generalize (view s.1).
    - apply putCookbookVersion_keeps.
    - apply deleteCookbookVersion_keeps.
    - apply putArtifactVersion_keeps.
    - apply deleteArtifactVersion_keeps.
    - apply putFile_keeps.
    - apply createSandbox_keeps.
    - apply commitSandbox_keeps. }
  specialize (Hc s eq_refl). by destruct (run_call c s).
Qed.
End Calls.

(** C13. Whatever uploads, overwrites, deletes and sandbox calls run, in whatever
    order and however they end, every file named by a manifest the collector
    can read stays in the store: no read of a manifest ever hands out a URL
    to a file the server itself has collected. *)
Theorem manifests_stay_backed `{SliceSort} `{MD5} `{HMAC} `{BackendSpec B} {O} (fs : filestore) (cs : list call)
    (s : Store B O) (Hs : backed (view s.1)) : backed (view (run_calls fs cs s).1).
Proof. revert s Hs. induction cs as [|c cs IH]; intros s Hs; [done|]. cbn. by apply IH, run_call_keeps. Qed.

(** ** Samples *)

Definition sample_md5 : MD5 := λ s, s.

Definition no_store : filestore := mkFilestore "" (mkTime 0 0).

(** An organization and the calls that upload a file and two artifacts that name
    it; [extra] is a member the first of them carries. *)
Definition file_body : string := "puts 1".
Definition file_sum : string := hex_encode file_body.
Definition artifact_body (extra : obj) : string :=
  mustEncode (VObj (extra ++ [("recipes", VArr [VObj [("name", VStr "default.rb"); ("checksum", VStr file_sum)]])])).
Definition upload_two (extra : obj) : list call :=
  [PutFile (plain_request "PUT" "" file_body) "acme" file_sum;
   PutArtifact (plain_request "PUT" "" (artifact_body extra)) 0 "acme" "apache" "aaaa";
   PutArtifact (plain_request "PUT" "" (artifact_body [])) 0 "acme" "apache" "bbbb";
   DeleteArtifact (plain_request "DELETE" "" "") 0 "acme" "apache" "bbbb"].

Definition acme_org : Store Memory.memoryBackend groupIndexCache := (Store_CreateOrg "acme" mem_server).2.

Definition after_calls (extra : obj) : Store Memory.memoryBackend groupIndexCache :=
  run_calls (H0 := sample_md5) (H1 := plain_mac) no_store (upload_two extra) acme_org.

(** Whether artifact aaaa is stored, whether it names the file as the server
    reads manifests, and whether the file is stored. *)
Definition artifact_state (s : Store Memory.memoryBackend groupIndexCache) : bool * bool * bool :=
  let raw := objs s !! ("acme", "cookbook_artifacts", "apache/aaaa") in
  (bool_decide (is_Some raw),
   match raw with Some raw => match DecodeObject raw with Ok m => contains_str (manifestChecksums m) file_sum | Err _ => false end
   | None => false end,
   bool_decide (is_Some (s_blobs (view s.1) !! ("acme", file_sum)))).

Lemma acme_backed : backed (view acme_org.1).
Proof.
  intros org sum (coll & key & raw & _ & Hl & _). exfalso. revert Hl.
  assert (s_objs (view acme_org.1) = ∅) as -> by (vm_compute; reflexivity). by rewrite lookup_empty.
Qed.

Lemma manifests_stay_backed_witness : backed (view (after_calls []).1).
Proof. exact (manifests_stay_backed (H0 := sample_md5) (H1 := plain_mac) no_store (upload_two []) acme_org acme_backed). Defined.

(** The collector reads manifests with encoding/json and skips one it cannot
    decode, such as one with an integer beyond a double, which the server
    accepts and stores exactly: deleting another artifact that shares its file
    collects the file, and the manifest that is still stored names a file that
    is gone. With numbers in range the file survives. *)
Theorem unreadable_manifest_loses_files :
  artifact_state (after_calls []) = (true, true, true) ∧
  artifact_state (after_calls [("big", VNum ("1" +:+ zeros 400))]) = (true, true, false).
Proof. split; vm_compute; reflexivity. Qed.

(** ** The newest version *)

Lemma newer_spec a b : numeric a → numeric b → (newer a b = true ↔ before (component b) (component a)).
Proof.
  intros Ha Hb. unfold newer. rewrite bool_decide_eq_true.
  destruct (outcome_iff _ _ _ (compareVersions_outcome a b Ha Hb)) as (_ & _ & <-). done.
Qed.

Lemma before_ext (f f' g g' : nat → Z) : (∀ i, f i = f' i) → (∀ i, g i = g' i) → before f g → before f' g'.
Proof. intros Hf Hg (i & Hi & Hlt). exists i. split; [intros j Hj; rewrite <-Hf, <-Hg; auto|]. by rewrite <-Hf, <-Hg. Qed.

(** Not newer: older, or the same components. *)
Lemma not_newer a b : numeric a → numeric b → newer a b = false →
  before (component a) (component b) ∨ ∀ i, component a i = component b i.
Proof.
  intros Ha Hb Hn. destruct (compareVersions_outcome a b Ha Hb) as [[_ ?]|[[_ ?]|[E ?]]]; [by left|by right|].
  unfold newer in Hn. apply bool_decide_eq_false in Hn. lia.
Qed.

Lemma newer_weak_order l : Forall numeric l → weak_order newer l.
Proof.
  intros Hl. rewrite Forall_forall in Hl. split_and!.
  - intros x Hx. destruct (newer x x) eqn:E; [|done]. apply newer_spec in E; auto. exfalso. by eapply before_irrefl.
  - intros x y z Hx Hy Hz Hxy Hyz. apply newer_spec in Hxy, Hyz; auto. apply newer_spec; auto. by eapply before_trans.
  - intros x y z Hx Hy Hz Hxy Hyz. destruct (newer x z) eqn:E; [|done]. exfalso. apply newer_spec in E; auto.
    apply not_newer in Hxy as [H1|H1], Hyz as [H2|H2]; auto.
    + eapply before_asym; [exact E|]. by eapply before_trans.
    + eapply before_asym; [exact E|]. eapply before_ext; [done|exact H2|done].
    + eapply before_asym; [exact E|]. eapply before_ext; [intros i; symmetry; exact (H1 i)|done|done].
    + eapply before_irrefl; [exact E|]. intros i. by rewrite H1, H2.
Qed.

(** The versions among a list of keys. *)
Definition versions_in (name : string) (keys : list string) : list string := omap (λ k, version_of name (k, "")) keys.

Lemma group_versions_lookup keys name acc :
  default [] (foldl add_version acc keys !! name) = default [] (acc !! name) ++ versions_in name keys.
Proof.
  revert acc. induction keys as [|k keys IH]; intros acc; [by rewrite app_nil_r|]. cbn [foldl versions_in omap list_omap].
  rewrite IH. unfold add_version, version_of. cbn [fst]. destruct (cut_byte "/" k) as [[n v]|]; [|done].
  destruct (decide (n = name)) as [->|Hne].
  - rewrite lookup_insert_eq. cbn [default id]. by rewrite <-app_assoc.
  - by rewrite lookup_insert_ne.
Qed.

Lemma cut_byte_Some c s a b : cut_byte c s = Some (a, b) → s = a +:+ String c b.
Proof.
  revert a. induction s as [|d s IH]; intros a; [done|]. cbn [cut_byte]. case_decide as Hd; [intros [= <- <-]; by subst|].
  destruct (cut_byte c s) as [[x y]|]; [|done]. intros [= <- <-]. cbn [String.append]. f_equal. by apply IH.
Qed.

Lemma elem_of_versions name v (keys : list string) : ¬ str_in "/" name →
  v ∈ versions_in name keys ↔ cookbookKey name v ∈ keys.
Proof.
  intros Hn. unfold versions_in. rewrite list_elem_of_omap. unfold version_of. cbn [fst]. split.
  - intros (k & Hk & E). destruct (cut_byte "/" k) as [[n w]|] eqn:Ec; [|done]. case_decide; [|done]. simplify_eq.
    by apply cut_byte_Some in Ec as ->.
  - intros Hk. exists (cookbookKey name v). split; [done|].
    change (cookbookKey name v) with (name +:+ String "/" v). rewrite cut_byte_found by done. by rewrite decide_True.
Qed.

(** A version of a cookbook is stored. *)
Definition stored_version (objs : objects) (org name v : string) : Prop :=
  is_Some (objs !! (org, "cookbooks", cookbookKey name v)).

(** The version the alias [_latest] stands for is a stored version of the
    cookbook that no stored version of it is newer than, whatever order the
    sort leaves equal ones in; it stands for none only when the cookbook has no
    version. *)
Theorem latest_is_newest `{SliceSort} `{BackendSpec B} {O} (org name : string) (s : Store B O)
    (Hname : ¬ str_in "/" name)
    (Hvalid : ∀ v, stored_version (objs s) org name v → validCookbookVersion v = true) :
  match resolveVersion org name "_latest" s with
  | (Ok (Some v), _) => stored_version (objs s) org name v ∧
      ∀ v', stored_version (objs s) org name v' → (compareVersions v' v ≤ 0)%Z
  | (Ok None, _) => ∀ v', ¬ stored_version (objs s) org name v'
  | (Err _, _) => True
  end.
Proof.
  unfold resolveVersion. rewrite decide_False by tauto. unfold cookbookVersions.
  set (keys := sort_strings ((map_to_list (coll_of org "cookbooks" (objs s))).*1)).
  assert (∀ v, v ∈ versions_in name keys ↔ is_Some (objs s !! (org, "cookbooks", cookbookKey name v))) as Hin.
  { intros v. rewrite elem_of_versions by done. apply elem_of_keys. }
  assert (Forall numeric (versions_in name keys)) as Hnum.
  { apply Forall_forall. intros v Hv%Hin. by apply valid_version_numeric, Hvalid. }
  pose proof (sort_slice_sorted newer _ (newer_weak_order _ Hnum)) as Hs.
  pose proof (sort_slice_perm newer (versions_in name keys)) as Hp.
  assert (ensures (B := B) (O := O) (let! cv := let! keys := Org_Keys org "cookbooks" in st_ret (sort_slice newer <$> group_versions keys)
    in st_ret (head (default [] (cv !! name)))) (view s.1)
    (λ r _, match r with Ok o => o = head (sort_slice newer (versions_in name keys)) | Err _ => True end)) as He.
  { apply ens_bind, ens_bind, ens_Keys; [|done]. apply ens_ret, ens_ret. rewrite lookup_fmap. fold (objs s). fold keys.
    pose proof (group_versions_lookup keys name ∅) as Hg. rewrite lookup_empty in Hg. cbn [default app] in Hg.
    change (foldl add_version ∅ keys) with (group_versions keys) in Hg.
    destruct (group_versions keys !! name) as [l|]; cbn in Hg |- *; [by rewrite Hg|]. rewrite <-Hg in Hp |- *.
    by apply Permutation_nil_r in Hp as ->. }
  specialize (He s eq_refl). destruct (st_bind _ _ s) as [[o|e] s']; [|done]. subst o.
  destruct (sort_slice newer (versions_in name keys)) as [|v l] eqn:El; cbn [head].
  - intros v' Hv'%Hin. rewrite <-Hp in Hv'. by apply elem_of_nil in Hv'.
  - assert (v ∈ versions_in name keys) as Hv by (rewrite <-Hp; by left). split; [by apply Hin|].
    intros v' Hv'%Hin. rewrite <-Hp in Hv'. apply elem_of_cons in Hv' as [->|Hl].
    + assert (numeric v) as Hn by (rewrite Forall_forall in Hnum; auto).
      destruct (outcome_iff _ _ _ (compareVersions_outcome v v Hn Hn)) as (_ & Heq & _). rewrite (proj2 Heq) by done. lia.
    + apply StronglySorted_inv in Hs as [_ Hall]. rewrite Forall_forall in Hall. specialize (Hall v' Hl).
      unfold newer in Hall. apply bool_decide_eq_false in Hall. lia.
Qed.

Definition two_versions : Store Memory.memoryBackend groupIndexCache :=
  (Org_Put "acme" "cookbooks" "apache/1.10.0" "{}" (Org_Put "acme" "cookbooks" "apache/1.2.0" "{}" acme_org).2).2.

Lemma two_versions_objs : objs two_versions =
  <[("acme", "cookbooks", "apache/1.10.0") := "{}"]> {[ ("acme", "cookbooks", "apache/1.2.0") := "{}" ]}.
Proof. vm_compute. reflexivity. Qed.

Lemma two_versions_latest : (resolveVersion "acme" "apache" "_latest" two_versions).1 = Ok (Some "1.10.0").
Proof. vm_compute. reflexivity. Qed.

Lemma latest_is_newest_witness : (compareVersions "1.2.0" "1.10.0" ≤ 0)%Z.
Proof.
  pose proof (latest_is_newest "acme" "apache" two_versions) as Hl. pose proof two_versions_latest as E.
  destruct (resolveVersion "acme" "apache" "_latest" two_versions) as [r s']. cbn [fst] in E. subst r. apply Hl.
  - apply (bool_decide_unpack _). vm_compute. exact I.
  - intros v [raw Hv]. rewrite two_versions_objs in Hv.
    apply lookup_insert_Some in Hv as [[Ek _]|[_ [Ek _]%lookup_singleton_Some]]; injection Ek as <-; vm_compute; reflexivity.
  - rewrite two_versions_objs. exists "{}". reflexivity.
Defined.
