(* ===== verification/Environments.v ===== *)
(** * Environment and role sub-endpoints (internal/api/environment_subendpoints.go)

    Cookbook filtering by an environment's constraints, the dependency solver
    behind cookbook_versions, the recipe and node listings, and run lists per
    environment. *)
From S2P Require Import Prelude GoText Json Chefjson Float GoJson Normalize Stored Store Facade Groups Http Effects Acl AclDocs GroupApi Version Presign Objects Manifest Cookbooks Blobs.
#[local] Open Scope go_scope.
#[local] Open Scope http_scope.

(** ** Typed reads *)

(** Decoding into a [map[string]string] that already holds [old]: null values
    become empty strings. *)
Fixpoint fill_map (old : list (string * string)) (ms : obj) : option (list (string * string)) :=
  match ms with
  | [] => Some old
  | (k, VStr s) :: ms' => fill_map (filter (λ e, e.1 ≠ k) old ++ [(k, s)]) ms'
  | (k, VNull) :: ms' => fill_map (filter (λ e, e.1 ≠ k) old ++ [(k, "")]) ms'
  | _ :: _ => None
  end.

Definition constraints_field (old : list (string * string)) (name : string) (v : value) : option (list (string * string)) :=
  if decide (fold_name name = "cookbook_versions") then
    match v with VNull => Some [] | VObj ms => fill_map old ms | _ => None end
  else Some old.

Definition string_field (field : string) (old name : string) (v : value) : option string :=
  if decide (fold_name name = field) then
    match v with VStr s => Some s | VNull => Some old | _ => None end
  else Some old.

(** [chefjson.Unmarshal] into a struct. *)
Definition unmarshal_struct {S} (field : S → string → value → option S) (zero : S) (raw : string) : result S :=
  match Unmarshal_doc raw with
  | Err e => Err e
  | Ok doc => match v ← decode false doc; decode_struct field zero v with
              | Some x => Ok x
              | None => Err (ErrOther "json: cannot unmarshal")
              end
  end.

Definition constraint_for (constraints : list (string * string)) (name : string) : string :=
  match filter (λ e, e.1 = name) constraints with e :: _ => e.2 | [] => "" end.

Definition run_list_field (old : list string) (name : string) (v : value) : option (list string) :=
  if decide (fold_name name = "run_list") then decode_strings old v else Some old.

Definition run_list_body (body : string) : option (list string) :=
  match parse_value false (2 * String.length body + 2) max_depth body with
  | Some (v, _) => decode_struct run_list_field [] v
  | None => None
  end.

Definition cookbookFromRunListItem `{Unicode} (item : string) : string :=
  let item := TrimSpace item in
  if has_prefix "role[" item then ""
  else
    let item := match cut_prefix "recipe[" item with
      | Some rest => if has_suffix "]" item then trim_suffix "]" rest else item
      | None => item
      end in
    match cut "::" item with Some (name, _) => name | None => item end.

Definition roleRunList (role : obj) (env : string) : list value :=
  let base := match assoc role "run_list" with Some (VArr rl) => rl | _ => [] end in
  if decide (env ≠ "_default") then
    match assoc role "env_run_lists" with
    | Some (VObj erl) => match assoc erl env with Some (VArr rl) => rl | _ => base end
    | _ => base
    end
  else base.

(** The order a Go map is ranged over: some order of its keys. *)
Class MapRange := {
  map_range : list string → list string;
  map_range_perm l : map_range l ≡ₚ l;
}.

Section Environments.
Context `{Unicode} `{SliceSort} `{HMAC} `{MapRange}.
Context {B : Type} `{Backend B} {O : Type}.
Abbreviation st := (Store B O).

Definition envExists (org env : string) : ST st bool :=
  if decide (env = "_default") then st_ret true
  else let! o := Org_Get org "environments" env in st_ret (bool_decide (is_Some o)).

(** [None]: the environment does not exist. *)
Definition envConstraints (org env : string) : ST st (option (list (string * string))) :=
  let! o := Org_Get org "environments" env in
  match o with
  | None => st_ret (if decide (env = "_default") then Some [] else None)
  | Some raw => match unmarshal_struct constraints_field [] raw with Ok c => st_ret (Some c) | Err e => st_fail e end
  end.

Definition kept_versions (constraints : list (string * string)) (name : string) (versions : list string) : option (list string) :=
  match filter (λ v, satisfiesConstraint v (constraint_for constraints name) = true) versions with
  | [] => None
  | kept => Some kept
  end.

Definition filteredCookbookVersions (org : string) (constraints : list (string * string)) : ST st (gmap string (list string)) :=
  let! cv := cookbookVersions org in
  st_ret (map_imap (kept_versions constraints) cv).

Definition no_environment (env : string) : reply := writeError 404 ["Cannot find environment " +:+ env].

(** The constraints of an environment that exists. *)
Definition constraints_or_404 (org env : string) : handler st (list (string * string)) :=
  let? c := or_500 (envConstraints org env) in
  match c with Some c => h_ret c | None => h_reply (no_environment env) end.

Definition envCookbooks (r : request) (vals : list string) (orgname env : string) : handler st reply :=
  let? org := API_org orgname in
  let? limit := numVersions vals 1 in
  let? constraints := constraints_or_404 org env in
  let? fcv := or_500 (filteredCookbookVersions org constraints) in
  h_ret (writeJSON 200 (collectionListBody r org "cookbooks" "version" fcv limit)).

Definition envCookbook (r : request) (vals : list string) (orgname env name : string) : handler st reply :=
  let? org := API_org orgname in
  let? limit := numVersions vals allVersions in
  let? constraints := constraints_or_404 org env in
  let? all := or_500 (filteredCookbookVersions org constraints) in
  match all !! name with
  | None => h_reply (no_cookbook name)
  | Some versions => h_ret (writeJSON 200 (collectionListBody r org "cookbooks" "version" {[ name := versions ]} limit))
  end.

Definition envRecipes (orgname env : string) : handler st reply :=
  let? org := API_org orgname in
  let? constraints := constraints_or_404 org env in
  let? fcv := or_500 (filteredCookbookVersions org constraints) in
  let? manifests := or_500 (newest_manifests org (map_to_list fcv)) in
  h_ret (writeJSON 200 (recipe_list manifests)).

(** The nodes of an environment; one that does not decode fails the request. *)
Fixpoint nodes_in (r : request) (org env : string) (docs : list (string * string)) : result obj :=
  match docs with
  | [] => Ok []
  | (name, raw) :: docs' =>
      match unmarshal_struct (string_field "chef_environment") "" raw with
      | Err e => Err e
      | Ok nodeEnv =>
          match nodes_in r org env docs' with
          | Err e => Err e
          | Ok out =>
              let nodeEnv := if decide (nodeEnv = "") then "_default" else nodeEnv in
              Ok (if decide (nodeEnv = env) then (name, VStr (objectURL r org "nodes" name)) :: out else out)
          end
      end
  end.

Definition envNodes (r : request) (orgname env : string) : handler st reply :=
  let? org := API_org orgname in
  let? exists' := or_500 (envExists org env) in
  if negb exists' then h_reply (no_environment env)
  else
    let? docs := or_500 (Org_Range org "nodes") in
    match nodes_in r org env docs with
    | Err e => h_reply (internal_error e)
    | Ok out => h_ret (writeJSON 200 (VObj out))
    end.

(** ** The solver *)

Definition unsatisfied (name : string) : reply :=
  writeError 412 ["Run list contains invalid items: no versions match the constraints on cookbook " +:+ name +:+ "."].

(** The reply of a run that was stopped before its end; see [solver_closes_dependencies]. *)
Definition stopped : reply := mkReply 0 NoBody.

(** The loop over the queue. A cookbook is solved once, so [n] bounds how many
    more may be; the queue shrinks otherwise. *)
Fixpoint solve (fs : filestore) (api : Z) (r : request) (org : string) (available : gmap string (list string))
    (n : nat) (solved : gmap string string) : list string → handler st (gmap string string) :=
  match n with
  | 0 => λ _, h_reply stopped
  | S n' =>
      fix drain (queue : list string) : handler st (gmap string string) :=
        match queue with
        | [] => h_ret solved
        | name :: queue' =>
            if decide (name = "" ∨ is_Some (solved !! name)) then drain queue'
            else
              match default [] (available !! name) with
              | [] => h_reply (unsatisfied name)
              | v :: _ =>
                  let? raw := or_500 (Org_Get org "cookbooks" (cookbookKey name v)) in
                  match raw with
                  | None => h_reply (writeError 412 ["Cannot find cookbook " +:+ name])
                  | Some raw =>
                      match DecodeObject raw with
                      | Err _ => drain queue'
                      | Ok m =>
                          solve fs api r org available n'
                            (<[name := withFileURLs fs (r_base r) api raw org]> solved)
                            (queue' ++ map_range (map fst (manifestDependencies m)))
                      end
                  end
              end
        end
  end.

(** An object of documents that are already text. *)
Definition raw_object (docs : gmap string string) : string :=
  "{" +:+ join "," (map (λ k, print_string json_escape k +:+ ":" +:+ default "" (docs !! k))
                        (sort_strings (map_to_list docs).*1)) +:+ "}" +:+ String (chr 10) "".

Definition envCookbookVersions (fs : filestore) (api : Z) (r : request) (orgname env : string) : handler st reply :=
  let? org := API_org orgname in
  let? constraints := constraints_or_404 org env in
  match run_list_body (r_body r) with
  | None => h_reply (writeError 400 ["invalid JSON body"])
  | Some run_list =>
      let? available := or_500 (filteredCookbookVersions org constraints) in
      let? solved := solve fs api r org available (S (size available)) ∅ (map cookbookFromRunListItem run_list) in
      h_ret (writeRaw 200 (raw_object solved))
  end.

(** ** Roles *)

(** [inr]: a role that does not decode leaves the reply unwritten (an empty 200). *)
Definition loadRole (org name : string) : handler st obj :=
  let? o := or_500 (Org_Get org "roles" name) in
  match o with
  | None => h_reply (writeError 404 ["Cannot find role " +:+ name])
  | Some raw => match DecodeObject raw with Ok role => h_ret role | Err _ => h_reply (mkReply 200 NoBody) end
  end.

Definition run_list_reply (role : obj) (env : string) : reply := writeJSON 200 (VObj [("run_list", VArr (roleRunList role env))]).

Definition envRole (orgname env name : string) : handler st reply :=
  let? org := API_org orgname in
  let? exists' := or_500 (envExists org env) in
  if negb exists' then h_reply (no_environment env)
  else let? role := loadRole org name in h_ret (run_list_reply role env).

Definition role_environments (role : obj) : list string :=
  sort_strings ("_default" :: match assoc role "env_run_lists" with
    | Some (VObj erl) => filter (λ n, n ≠ "_default") (map fst erl)
    | _ => []
    end).

Definition roleEnvironments (orgname name : string) : handler st reply :=
  let? org := API_org orgname in
  let? role := loadRole org name in
  h_ret (writeJSON 200 (VArr (map VStr (role_environments role)))).

Definition roleEnvironment (orgname env name : string) : handler st reply :=
  let? org := API_org orgname in
  let? role := loadRole org name in
  h_ret (run_list_reply role env).
End Environments.

(** ** What the solver returns *)

Section Solver.
Context `{Unicode} `{SliceSort} `{HMAC} `{MapRange}.
Context {B : Type} `{BackendSpec B} {O : Type}.
Context (fs : filestore) (api : Z) (r : request) (org : string) (available : gmap string (list string)) (sp : space).

(** The manifest the solver takes for a cookbook: that of the first available
    version. *)
Definition taken (name raw : string) : Prop :=
  ∃ v vs, available !! name = Some (v :: vs) ∧ s_objs sp !! (org, "cookbooks", cookbookKey name v) = Some raw.

(** A name that needs nothing more: empty, solved, or one whose manifest does
    not decode (which the code skips). *)
Definition settled (solved : gmap string string) (name : string) : Prop :=
  name = "" ∨ is_Some (solved !! name) ∨ ∃ raw e, taken name raw ∧ DecodeObject raw = Err e.

(** The names of the run list, and those their manifests depend on. *)
Inductive needed (roots : list string) : string → Prop :=
  | needed_root name : name ∈ roots → needed roots name
  | needed_dep name raw m dep : needed roots name → name ≠ "" → taken name raw → DecodeObject raw = Ok m →
      dep ∈ map fst (manifestDependencies m) → needed roots dep.

(** Solved from a manifest whose dependencies are settled or waiting. *)
Definition solved_from (waiting : list string) (solved : gmap string string) (name text : string) : Prop :=
  ∃ raw m, taken name raw ∧ DecodeObject raw = Ok m ∧ text = withFileURLs fs (r_base r) api raw org ∧
    ∀ dep, dep ∈ map fst (manifestDependencies m) → settled solved dep ∨ dep ∈ waiting.

Record worklist (roots : list string) (solved : gmap string string) (queue : list string) : Prop := {
  w_roots : ∀ x, x ∈ roots → settled solved x ∨ x ∈ queue;
  w_solved : ∀ name text, solved !! name = Some text → solved_from queue solved name text;
  w_needed : ∀ x, x ∈ queue ∨ is_Some (solved !! x) → needed roots x;
  w_named : solved !! "" = None;
}.

(** A needed cookbook that has no available version, or no manifest. *)
Definition missing (roots : list string) : Prop :=
  ∃ name, needed roots name ∧ name ≠ "" ∧ ¬ ∃ raw, taken name raw.

(** A whole answer: the run list is settled, every manifest returned is the one
    taken, its dependencies are settled, and none was not needed. *)
Definition resolved (roots : list string) (solved : gmap string string) : Prop := worklist roots solved [].

Lemma settled_insert solved name text x : settled solved x → settled (<[name := text]> solved) x.
Proof.
  intros [->|[Hx|Hx]]; [by left|right; left|by right; right].
  destruct (decide (name = x)) as [->|]; [rewrite lookup_insert_eq|rewrite lookup_insert_ne by done]; done.
Qed.

Lemma worklist_skip roots solved name queue : worklist roots solved (name :: queue) → settled solved name →
  worklist roots solved queue.
Proof.
  intros [Hr Hs Hn He] Hname. split; [| | |done].
  - intros x Hx. destruct (Hr x Hx) as [|[->|]%elem_of_cons]; auto.
  - intros x text Hx. destruct (Hs x text Hx) as (raw & m & Ht & Hd & Htext & Hdeps). exists raw, m.
    split; [done|]. split; [done|]. split; [done|]. intros dep Hdep.
    destruct (Hdeps dep Hdep) as [|[->|]%elem_of_cons]; auto.
  - intros x [Hx|Hx]; apply Hn; [left; by right|by right].
Qed.

Lemma worklist_take roots solved name queue raw m : worklist roots solved (name :: queue) → name ≠ "" →
  taken name raw → DecodeObject raw = Ok m →
  worklist roots (<[name := withFileURLs fs (r_base r) api raw org]> solved) (queue ++ map_range (map fst (manifestDependencies m))).
Proof.
  intros [Hr Hs Hn He] Hne Ht Hm. set (text := withFileURLs fs (r_base r) api raw org).
  set (deps := map fst (manifestDependencies m)).
  assert (∀ x, x ∈ map_range deps ↔ x ∈ deps) as Hd by (intros x; by rewrite map_range_perm).
  assert (∀ x, settled solved x ∨ x ∈ name :: queue → settled (<[name := text]> solved) x ∨ x ∈ queue ++ map_range deps) as Hmove.
  { intros x [Hx|[->|Hx]%elem_of_cons]; [left; by apply settled_insert| |right; set_solver].
    left. right. left. by rewrite lookup_insert_eq. }
  split; [| | |by rewrite lookup_insert_ne].
  - intros x Hx. by apply Hmove, Hr.
  - intros x t Hx. destruct (decide (name = x)) as [->|Hnx].
    + rewrite lookup_insert_eq in Hx. injection Hx as <-. exists raw, m. split; [done|]. split; [done|].
      split; [done|]. intros dep Hdep. right. apply elem_of_app. right. by apply Hd.
    + rewrite lookup_insert_ne in Hx by done. destruct (Hs x t Hx) as (raw' & m' & Ht' & Hd' & Htext & Hdeps).
      exists raw', m'. split; [done|]. split; [done|]. split; [done|]. intros dep Hdep. by apply Hmove, Hdeps.
  - assert (needed roots name) as Hname by (apply Hn; left; by left).
    intros x [[Hx|Hx]%elem_of_app|Hx].
    + apply Hn. left. by right.
    + by eapply needed_dep; [exact Hname|done|exact Ht|exact Hm|apply Hd].
    + destruct (decide (name = x)) as [->|Hnx]; [done|]. rewrite lookup_insert_ne in Hx by done. apply Hn. by right.
Qed.

Lemma solve_spec n : ∀ solved queue roots, worklist roots solved queue → size solved + n = S (size available) →
  h_ensures (B := B) (O := O) (solve fs api r org available n solved queue) sp (λ res sp', sp' = sp ∧ match res with
    | inl solved' => resolved roots solved'
    | inr rep => status rep = 500%Z ∨ (status rep = 412%Z ∧ missing roots) end).
Proof.
  induction n as [|n IH]; intros solved queue roots Hw Hsize.
  - exfalso. assert (dom solved ⊆ dom available) as Hsub.
    { intros x [t Hx]%elem_of_dom. destruct (w_solved _ _ _ Hw x t Hx) as (raw & m & (v & vs & Hv & _) & _).
      apply elem_of_dom. eauto. }
    apply subseteq_size in Hsub. rewrite !size_dom in Hsub. lia.
  - induction queue as [|name queue IHq]; cbn [solve].
    { apply h_ens_ret. done. }
    destruct (decide (name = "" ∨ is_Some (solved !! name))) as [Hdone|Hnew].
    { apply IHq. eapply worklist_skip; [exact Hw|]. unfold settled. tauto. }
    assert (needed roots name ∧ name ≠ "") as [Hneed Hne] by (split; [apply (w_needed _ _ _ Hw); left; by left|tauto]).
    destruct (available !! name) as [[|v vs]|] eqn:Ea; cbn [default].
    1,3: apply h_ens_reply; split; [done|]; right; split; [done|]; exists name; split; [done|]; split; [done|];
      intros (raw & v & vs & Hv & _); simplify_eq.
    apply h_ens_bind, h_ens_or_500, ens_Get; [|intros e; split; [done|]; by left].
    destruct (s_objs sp !! (org, "cookbooks", cookbookKey name v)) as [raw|] eqn:Er.
    2:{ apply h_ens_reply. split; [done|]. right. split; [done|]. exists name. split; [done|]. split; [done|].
        intros (raw & v' & vs' & Hv & Hraw). simplify_eq. }
    assert (taken name raw) as Ht by (by exists v, vs).
    destruct (DecodeObject raw) as [m|e] eqn:Em.
    + apply IH; [by apply worklist_take|]. rewrite map_size_insert_None; [lia|].
      apply eq_None_not_Some. tauto.
    + apply IHq. eapply worklist_skip; [exact Hw|]. right. right. by exists raw, e.
Qed.

(** ** The endpoint *)

(** The answer for a run list: the manifest taken for every cookbook needed, and
    no other; every cookbook needed has one. *)
Record solution (roots : list string) (solved : gmap string string) : Prop := {
  sol_exact : ∀ name text, solved !! name = Some text ↔
    needed roots name ∧ name ≠ "" ∧
    ∃ raw m, taken name raw ∧ DecodeObject raw = Ok m ∧ text = withFileURLs fs (r_base r) api raw org;
  sol_whole : ∀ name, needed roots name → name ≠ "" → ∃ raw, taken name raw;
}.

Lemma taken_fun name raw raw' : taken name raw → taken name raw' → raw = raw'.
Proof. intros (v & vs & Hv & Hr) (v' & vs' & Hv' & Hr'). congruence. Qed.

Lemma resolved_settles roots solved : resolved roots solved → ∀ name, needed roots name → settled solved name.
Proof.
  intros [Hr Hs _ _] name Hn. induction Hn as [name Hn|name raw m dep Hn IH Hne Ht Hd Hdep].
  - destruct (Hr name Hn) as [|Hin]; [done|by apply elem_of_nil in Hin].
  - destruct IH as [->|[[text Hx]|(raw' & e & Ht' & He)]]; [done| |].
    + destruct (Hs name text Hx) as (raw' & m' & Ht' & Hd' & _ & Hdeps).
      rewrite (taken_fun name raw raw') in Hd by done. assert (m' = m) as -> by congruence.
      destruct (Hdeps dep Hdep) as [|Hin]; [done|by apply elem_of_nil in Hin].
    + rewrite (taken_fun name raw raw') in Hd by done. congruence.
Qed.

Lemma resolved_solution roots solved : resolved roots solved → solution roots solved.
Proof.
  intros Hw. pose proof (resolved_settles roots solved Hw) as Hset. destruct Hw as [_ Hs Hn He]. split.
  - intros name text. split.
    + intros Hx. destruct (Hs name text Hx) as (raw & m & Ht & Hd & Htext & _).
      split; [apply Hn; right; by eexists|]. split; [|by exists raw, m].
      intros ->. congruence.
    + intros (Hneed & Hne & raw & m & Ht & Hd & ->). destruct (Hset name Hneed) as [->|[[text Hx]|(raw' & e & Ht' & Hbad)]]; [done| |].
      * destruct (Hs name text Hx) as (raw' & m' & Ht' & _ & -> & _). by rewrite (taken_fun name raw raw') by done.
      * rewrite (taken_fun name raw raw') in Hd by done. congruence.
  - intros name Hneed Hne. destruct (Hset name Hneed) as [->|[[text Hx]|(raw & e & Ht & _)]]; [done| |by eexists].
    destruct (Hs name text Hx) as (raw & m & Ht & _). by eexists.
Qed.
End Solver.

Section Endpoint.
Context `{Unicode} `{SliceSort} `{HMAC} `{MapRange}.
Context {B : Type} `{BackendSpec B} {O : Type}.

(** The stored versions of each cookbook, newest first, and those the
    constraints of an environment leave. *)
Definition versions_stored (org : string) (sp : space) : gmap string (list string) :=
  sort_slice newer <$> group_versions (sort_strings ((map_to_list (coll_of org "cookbooks" (s_objs sp))).*1)).
Definition versions_left (org : string) (constraints : list (string * string)) (sp : space) : gmap string (list string) :=
  map_imap (kept_versions constraints) (versions_stored org sp).

(** The constraints stored for an environment. *)
Definition in_force (org env : string) (sp : space) (constraints : list (string * string)) : Prop :=
  match s_objs sp !! (org, "environments", env) with
  | Some raw => unmarshal_struct constraints_field [] raw = Ok constraints
  | None => env = "_default" ∧ constraints = []
  end.

Lemma h_ens_constraints org env sp (Q : list (string * string) + reply → space → Prop) :
  (∀ c, in_force org env sp c → Q (inl c) sp) → (∀ rep, status rep ∈ [404; 500]%Z → Q (inr rep) sp) →
  h_ensures (B := B) (O := O) (constraints_or_404 org env) sp Q.
Proof.
  intros HO HE. apply h_ens_bind, h_ens_or_500, ens_bind, ens_Get; [|intros e; apply HE; set_solver].
  unfold in_force in HO. destruct (s_objs sp !! (org, "environments", env)) as [raw|].
  - destruct (unmarshal_struct constraints_field [] raw) as [c|e].
    + apply ens_ret, h_ens_ret. by apply HO.
    + intros s <-. cbn. apply HE. set_solver.
  - apply ens_ret. destruct (decide (env = "_default")); [by apply h_ens_ret, HO|apply h_ens_reply, HE; set_solver].
Qed.

(** C26. Solving a run list reads the store and always ends with an answer: 200
    with exactly the manifests of the cookbooks the run list needs, directly or
    through the dependencies of their manifests, each in the newest version the
    environment allows; 412 only when a needed cookbook has no version or no
    manifest; otherwise 400, 404 or 500. *)
Theorem solver_closes_dependencies (fs : filestore) (api : Z) (r : request) (org env : string) (sp : space) :
  h_ensures (B := B) (O := O) (envCookbookVersions fs api r org env) sp (λ res sp', sp' = sp ∧
    match res with
    | inl rep => ∃ run_list constraints solved,
        run_list_body (r_body r) = Some run_list ∧ in_force org env sp constraints ∧
        solution fs api r org (versions_left org constraints sp) sp (map cookbookFromRunListItem run_list) solved ∧
        rep = writeRaw 200 (raw_object solved)
    | inr rep => status rep ∈ [400; 404; 500]%Z ∨ (status rep = 412%Z ∧ ∃ run_list constraints,
        run_list_body (r_body r) = Some run_list ∧ in_force org env sp constraints ∧
        missing org (versions_left org constraints sp) sp (map cookbookFromRunListItem run_list))
    end).
Proof.
  apply h_ens_bind, h_ens_org; [intros _|intros rep Hr; split; [done|left; set_solver]].
  apply h_ens_bind, h_ens_constraints; [intros c Hc|intros rep Hr; split; [done|left; set_solver]].
  destruct (run_list_body (r_body r)) as [rl|] eqn:Erl; [|apply h_ens_reply; split; [done|left; set_solver]].
  apply h_ens_bind, h_ens_or_500, ens_bind, ens_bind, ens_Keys; [|intros e; split; [done|left; set_solver]].
  apply ens_ret, ens_ret, h_ens_bind.
  set (roots := map cookbookFromRunListItem rl). fold (versions_stored org sp). fold (versions_left org c sp).
  eapply h_ens_conseq; [apply (solve_spec fs api r org _ sp _ ∅ roots roots); [|by rewrite map_size_empty]|].
  - split; [by right|done| |done]. intros x [Hx|[? Hx]]; [by apply needed_root|done].
  - intros [solved|rep] sp' [-> Hres].
    + apply h_ens_ret. split; [done|]. exists rl, c, solved. split_and!; [done|done|by apply resolved_solution|done].
    + split; [done|]. destruct Hres as [->|[-> Hm]]; [left; set_solver|right]. split; [done|]. by exists rl, c.
Qed.
End Endpoint.
