(* ===== verification/DataBags.v ===== *)
(** * Data bags (internal/api/databags.go, envelope.go)

    Bags and their items, the envelopes their replies carry, and the two facts
    the namespace rests on: an item never outlives its bag, and the wrapped
    form of an item unwraps to the item. *)
From S2P Require Import Prelude GoText Json Chefjson Float GoJson Normalize Stored Store Facade Groups Http Effects Acl AclDocs GroupApi SearchFilter Objects.
#[local] Open Scope go_scope.
#[local] Open Scope http_scope.

(** ** Envelopes *)

Definition chefTypeDataBagItem : string := "data_bag_item".
Definition chefTypeDataBag : string := "data_bag".
Definition chefTypeClient : string := "client".
Definition jsonClassDataBagItem : string := "Chef::DataBagItem".
Definition jsonClassDataBag : string := "Chef::DataBag".
Definition jsonClassAPIClient : string := "Chef::ApiClient".

Definition dataBagItemName (bag id : string) : string := "data_bag_item_" +:+ bag +:+ "_" +:+ id.

Definition withCreateEnvelope (bag item : string) : string :=
  match Parse item with
  | Ok (VObj ms) =>
      Marshal (VObj (Set_ (Set_ ms "chef_type" (VStr chefTypeDataBagItem)) "data_bag" (VStr bag)))
  | _ => item
  end.

Definition item_wrapper (bag id : string) (ms : obj) : obj :=
  [("chef_type", VStr chefTypeDataBagItem); ("data_bag", VStr bag); ("json_class", VStr jsonClassDataBagItem);
   ("name", VStr (dataBagItemName bag id)); ("raw_data", VObj ms)].

Definition wrapStoredDataBagItem (bag id raw : string) : string :=
  match Parse raw with
  | Ok (VObj ms) =>
      let id := match String_ raw "id" with
        | Some actualID => if decide (actualID ≠ "") then actualID else id
        | None => id
        end in
      Marshal (VObj (item_wrapper bag id ms))
  | _ => raw
  end.

Definition string_or_empty (v : option value) : string := match v with Some (VStr s) => s | _ => "" end.

Definition withClientEnvelope (org : string) (doc : obj) : obj :=
  let name := string_or_empty (assoc doc "name") in
  let name := if decide (name = "") then string_or_empty (assoc doc "clientname") else name in
  let out := Set_ doc "chef_type" (VStr chefTypeClient) in
  let out := Set_ out "json_class" (VStr jsonClassAPIClient) in
  let out := Set_ out "clientname" (VStr name) in
  let out := Set_ out "name" (VStr name) in
  Set_ out "orgname" (VStr org).

Definition enveloped (segment org raw : string) : string :=
  if decide (segment ≠ "clients") then raw
  else match unmarshal_map raw with
       | None => raw
       | Some doc => mustEncode (VObj (withClientEnvelope org (members doc)))
       end.

(** ** Handlers *)

Definition dataBagsColl : string := "data_bags".

Definition dataBagNameRE (s : string) : bool :=
  bool_decide (s ≠ "") && str_forall (λ c, alnum c || bool_decide (c ∈ ["."; "_"; ":"; "-"]%char)) s.

Definition dataBagURL (r : request) (org bag : string) : string :=
  r_base r +:+ "/organizations/" +:+ org +:+ "/data/" +:+ bag.

(** A body in its stored form, out of the wrapper if it came in one, and its
    first "id". *)
Definition decodeItem (body : string) : result (string * string) :=
  match decodeObjectBody body with
  | Err e => Err e
  | Ok raw =>
      let raw :=
        if decide (default "" (String_ raw "json_class") = jsonClassDataBagItem) then
          match Parse raw with
          | Ok (VObj ms) => match assoc ms "raw_data" with Some (VObj inner) => Marshal (VObj inner) | _ => raw end
          | _ => raw
          end
        else raw in
      Ok (raw, default "" (String_ raw "id"))
  end.

Section Handlers.
Context {B : Type} `{Backend B} {O : Type}.
Abbreviation st := (Store B O).

Definition listDataBags (r : request) (orgname : string) : handler st reply :=
  let? org := API_org orgname in
  let? bags := or_500 (Org_Keys org dataBagsColl) in
  h_ret (writeJSON 200 (VObj (map (λ bag, (bag, VStr (dataBagURL r org bag))) bags))).

Definition bag_doc (name : string) : string := mustEncode (VObj [("name", VStr name)]).

Definition createDataBag (r : request) (orgname : string) : handler st reply :=
  let? org := API_org orgname in
  match decodeObjectBody (r_body r) with
  | Err _ => h_reply (writeError 400 ["invalid JSON body"])
  | Ok body =>
      let name := default "" (String_ body "name") in
      if decide (name = "") then h_reply (writeError 400 ["Field 'name' missing"])
      else if negb (dataBagNameRE name) then h_reply (writeError 400 ["Field 'name' invalid"])
      else
        create_or_409 org dataBagsColl name (bag_doc name) "Data bag already exists" ;;?
        h_ret (created_at (dataBagURL r org name))
  end.

Definition no_bag (bag : string) : reply := writeError 404 ["Cannot find data bag " +:+ bag].

(** The reply of a bag's delete; a stored [null] panics the handler. *)
Definition deleted_bag (raw : string) : handler st reply :=
  match unmarshal_map raw with
  | None => h_ret (writeRaw 200 raw)
  | Some None => h_reply panic
  | Some (Some doc) =>
      h_ret (writeJSON 200 (VObj (Set_ (Set_ doc "chef_type" (VStr chefTypeDataBag)) "json_class" (VStr jsonClassDataBag))))
  end.

Definition deleteDataBag (orgname bag : string) : handler st reply :=
  let? org := API_org orgname in
  let? o := or_500 (Org_Delete org dataBagsColl bag) in
  match o with
  | None => h_reply (no_bag bag)
  | Some raw =>
      let items := dataBagItemsColl bag in
      let? ids := or_500 (Org_Keys org items) in
      or_500 (st_each (λ id, Org_Delete org items id ;;! st_ret tt) ids) ;;?
      or_500 (deleteACL org "data" bag) ;;?
      deleted_bag raw
  end.

Definition bagExists (org bag : string) : handler st unit :=
  let? o := or_500 (Org_Get org dataBagsColl bag) in
  match o with None => h_reply (no_bag bag) | Some _ => h_ret tt end.

Definition listDataBagItems (r : request) (orgname bag : string) : handler st reply :=
  let? org := API_org orgname in
  bagExists org bag ;;?
  let? ids := or_500 (Org_Keys org (dataBagItemsColl bag)) in
  h_ret (writeJSON 200 (VObj (map (λ id, (id, VStr (dataBagURL r org bag +:+ "/" +:+ id))) ids))).

Definition createDataBagItem (r : request) (orgname bag : string) : handler st reply :=
  let? org := API_org orgname in
  bagExists org bag ;;?
  match decodeItem (r_body r) with
  | Err _ => h_reply (writeError 400 ["invalid JSON body"])
  | Ok (raw, id) =>
      if decide (id = "") then h_reply (writeError 400 ["Field 'id' missing"])
      else if negb (dataBagNameRE id) then h_reply (writeError 400 ["Field 'id' invalid"])
      else
        create_or_409 org (dataBagItemsColl bag) id raw "Data bag item already exists" ;;?
        h_ret (writeRaw 201 (withCreateEnvelope bag raw))
  end.

Definition no_item (item : string) : string := "Cannot find data bag item " +:+ item.

Definition getDataBagItem (orgname bag item : string) : handler st reply :=
  let? org := API_org orgname in
  bagExists org bag ;;?
  let? o := or_500 (Org_Get org (dataBagItemsColl bag) item) in
  match o with
  | None => h_reply (writeError 404 [no_item item])
  | Some raw => h_ret (writeRaw 200 raw)
  end.

Definition putDataBagItem (r : request) (orgname bag item : string) : handler st reply :=
  let? org := API_org orgname in
  bagExists org bag ;;?
  exists_ r org (dataBagItemsColl bag) item (no_item item) ;;?
  match decodeItem (r_body r) with
  | Err _ => h_reply (writeError 400 ["invalid JSON body"])
  | Ok (raw, _) =>
      or_500 (Org_Put org (dataBagItemsColl bag) item raw) ;;?
      h_ret (writeRaw 200 raw)
  end.

Definition deleteDataBagItem (orgname bag item : string) : handler st reply :=
  let? org := API_org orgname in
  bagExists org bag ;;?
  let? o := or_500 (Org_Delete org (dataBagItemsColl bag) item) in
  match o with
  | None => h_reply (writeError 404 [no_item item])
  | Some raw => h_ret (writeRaw 200 (wrapStoredDataBagItem bag item raw))
  end.
End Handlers.

(** ** Bags own their items *)

Definition owned (sp : space) : Prop := ∀ org bag id,
  is_Some (s_objs sp !! (org, dataBagItemsColl bag, id)) → is_Some (s_objs sp !! (org, dataBagsColl, bag)).

(** What a delete of a bag leaves of the objects. *)
Definition of_bag (org bag : string) (k : string * string * string) : Prop :=
  k = (org, dataBagsColl, bag) ∨ k = (org, "acls", aclKey "data" bag) ∨ k.1 = (org, dataBagItemsColl bag).
Definition without_bag (org bag : string) (objs objs' : objects) : Prop :=
  ∀ k, (of_bag org bag k → objs' !! k = None) ∧ (¬ of_bag org bag k → objs' !! k = objs !! k).

Section Owned.
Context {B : Type} `{BackendSpec B} {O : Type}.

(** Deleting the given keys of a collection. *)
Lemma ens_delete_keys org coll ids sp (Q : result unit → space → Prop) :
  (∀ sp', (∀ k, s_objs sp' !! k = if decide (k.1 = (org, coll) ∧ k.2 ∈ ids) then None else s_objs sp !! k) →
     Q (Ok tt) sp') → (∀ e sp', Q (Err e) sp') →
  ensures (B := B) (O := O) (st_each (λ id, Org_Delete org coll id ;;! st_ret tt) ids) sp Q.
Proof.
  intros HO HE. apply ens_each with (inv := λ dn sp',
    ∀ k, s_objs sp' !! k = if decide (k.1 = (org, coll) ∧ k.2 ∈ dn) then None else s_objs sp !! k); [| |done].
  - intros k. rewrite decide_False; [done|]. intros [_ ?%elem_of_nil]. done.
  - intros dn id rest sp' _ Hi. apply ens_bind, ens_Delete; [|auto]. apply ens_ret. intros [[o c] k]. cbn [s_objs sp_delete fst snd].
    destruct (decide ((org, coll, id) = (o, c, k))) as [[= <- <- <-]|Hne].
    + rewrite lookup_delete_eq, decide_True; [done|set_solver].
    + rewrite lookup_delete_ne, Hi by done. cbn [fst snd].
      destruct (decide ((o, c) = (org, coll) ∧ k ∈ dn)) as [Hd|Hd]; [rewrite decide_True; [done|set_solver]|].
      rewrite decide_False; [done|]. intros [[= -> ->] [|Hk]%elem_of_app]; [tauto|].
      apply list_elem_of_singleton in Hk as ->. done.
Qed.

Lemma deleteDataBag_ensures org bag sp :
  h_ensures (B := B) (O := O) (deleteDataBag org bag) sp (λ res sp',
    status (reply_of res) = 500%Z ∨ (status (reply_of res) = 404%Z ∧ s_objs sp' = s_objs sp) ∨
    (is_Some (s_objs sp !! (org, dataBagsColl, bag)) ∧ without_bag org bag (s_objs sp) (s_objs sp'))).
Proof.
  apply h_ens_bind, h_ens_org; [intros _|intros rep Hr; apply list_elem_of_In in Hr;
    cbn [reply_of]; destruct Hr as [<-|[<-|[]]]; [right; by left|by left]].
  apply h_ens_bind, h_ens_or_500, ens_Delete; [|intros e; by left].
  destruct (s_objs sp !! (org, dataBagsColl, bag)) as [raw|] eqn:E.
  2:{ apply h_ens_reply. right. left. split; [done|]. cbn. by apply delete_id. }
  apply h_ens_bind, h_ens_or_500, ens_Keys; [|intros e; by left].
  apply h_ens_bind, h_ens_or_500, ens_delete_keys; [intros sp1 H1|intros e sp1; by left].
  apply h_ens_bind, h_ens_or_500, ens_deleteACL; [|intros e; by left].
  assert (without_bag org bag (s_objs sp) (s_objs (sp_delete org "acls" (aclKey "data" bag) sp1))) as Hw.
  { set (items := s_objs (sp_delete org dataBagsColl bag sp)) in H1.
    assert (∀ k, items !! k = if decide (k = (org, dataBagsColl, bag)) then None else s_objs sp !! k) as Hi.
    { intros k. unfold items. cbn. case_decide as Hk; [by rewrite Hk, lookup_delete_eq|by rewrite lookup_delete_ne]. }
    intros k. assert (s_objs (sp_delete org "acls" (aclKey "data" bag) sp1) !! k
      = if decide (k = (org, "acls", aclKey "data" bag)) then None else s_objs sp1 !! k) as ->.
    { cbn. case_decide as Hk; [by rewrite Hk, lookup_delete_eq|by rewrite lookup_delete_ne]. }
    rewrite H1, Hi. split; intros Hk.
    - destruct (decide (k = (org, "acls", aclKey "data" bag))) as [|Hna]; [done|].
      destruct (decide (k = (org, dataBagsColl, bag))) as [|Hnb]; [by case_decide|].
      destruct Hk as [|[|Hk]]; [done..|]. case_decide as Hin; [done|]. destruct k as [[o c] k]. cbn in *. simplify_eq.
      apply eq_None_not_Some. intros Hs. apply Hin. split; [done|]. apply elem_of_keys. by rewrite Hi, decide_False.
    - unfold of_bag in Hk. rewrite !decide_False by tauto. done. }
  assert (∀ rep, status rep = 500%Z ∨ (status rep = 404%Z ∧ s_objs (sp_delete org "acls" (aclKey "data" bag) sp1) = s_objs sp) ∨
    (is_Some (Some raw) ∧ without_bag org bag (s_objs sp) (s_objs (sp_delete org "acls" (aclKey "data" bag) sp1)))) as Hany
    by (intros rep; right; right; split; [by eexists|done]).
  unfold deleted_bag. destruct (unmarshal_map raw) as [[doc|]|]; [apply h_ens_ret|apply h_ens_reply|apply h_ens_ret]; apply Hany.
Qed.

Lemma owned_put_bag org name doc sp : owned sp → owned (sp_put org dataBagsColl name doc sp).
Proof.
  intros Ho o b id Hi. cbn [s_objs sp_put] in *. rewrite lookup_insert_ne in Hi by done.
  destruct (decide ((org, dataBagsColl, name) = (o, dataBagsColl, b))) as [->|]; [by rewrite lookup_insert_eq|].
  rewrite lookup_insert_ne by done. by eapply Ho.
Qed.

Lemma owned_put_item org bag id doc sp : owned sp → is_Some (s_objs sp !! (org, dataBagsColl, bag)) →
  owned (sp_put org (dataBagItemsColl bag) id doc sp).
Proof.
  intros Ho Hbag o b i Hi. cbn [s_objs sp_put] in *. rewrite lookup_insert_ne by done.
  destruct (decide ((org, dataBagItemsColl bag, id) = (o, dataBagItemsColl b, i))) as [E|Hne].
  - injection E as <- <- _. done.
  - rewrite lookup_insert_ne in Hi by done. by eapply Ho.
Qed.

Lemma owned_delete_item org bag id sp : owned sp → owned (sp_delete org (dataBagItemsColl bag) id sp).
Proof.
  intros Ho o b i Hi. cbn [s_objs sp_delete] in *. rewrite lookup_delete_ne by done.
  eapply Ho. by apply lookup_delete_is_Some in Hi as [_ Hi].
Qed.

Lemma owned_without_bag org bag sp sp' : owned sp → without_bag org bag (s_objs sp) (s_objs sp') → owned sp'.
Proof.
  intros Ho Hw o b i Hi. destruct (Hw (o, dataBagItemsColl b, i)) as [Hgone Hkept].
  assert (¬ of_bag org bag (o, dataBagItemsColl b, i)) as Hn by (intros Hb; rewrite Hgone in Hi by done; by destruct Hi).
  rewrite Hkept in Hi by done. destruct (Hw (o, dataBagsColl, b)) as [_ Hkept']. rewrite Hkept'; [by eapply Ho|].
  intros [[= -> ->]|[|]]; [|done..]. apply Hn. by right; right.
Qed.

Lemma h_ens_bagExists org bag sp (Q : unit + reply → space → Prop) :
  (is_Some (s_objs sp !! (org, dataBagsColl, bag)) → Q (inl tt) sp) → (∀ rep, Q (inr rep) sp) →
  h_ensures (B := B) (O := O) (bagExists org bag) sp Q.
Proof.
  intros HO HE. apply h_ens_bind, h_ens_or_500, ens_Get; [|done].
  destruct (s_objs sp !! _) eqn:E; [apply h_ens_ret, HO; by eexists|by apply h_ens_reply].
Qed.
End Owned.

Inductive bag_call :=
  | CreateBag (r : request) (org : string)
  | DeleteBag (org bag : string)
  | CreateItem (r : request) (org bag : string)
  | PutItem (r : request) (org bag item : string)
  | DeleteItem (org bag item : string).

Section BagCalls.
Context {B : Type} `{BackendSpec B} {O : Type}.

Definition run_bag_call (c : bag_call) : handler (Store B O) reply :=
  match c with
  | CreateBag r org => createDataBag r org
  | DeleteBag org bag => deleteDataBag org bag
  | CreateItem r org bag => createDataBagItem r org bag
  | PutItem r org bag item => putDataBagItem r org bag item
  | DeleteItem org bag item => deleteDataBagItem org bag item
  end.

(** The replies and the store after a sequence of calls. *)
Fixpoint run_bag_calls (cs : list bag_call) (s : Store B O) : list reply * Store B O :=
  match cs with
  | [] => ([], s)
  | c :: cs' =>
      let '(rep, s1) := replied (run_bag_call c s) in
      let '(reps, s2) := run_bag_calls cs' s1 in (rep :: reps, s2)
  end.

Lemma run_bag_call_owned c sp : owned sp →
  h_ensures (run_bag_call c) sp (λ res sp', status (reply_of res) = 500%Z ∨ owned sp').
Proof.
  intros Ho. destruct c; cbn [run_bag_call].
  - apply h_ens_bind, h_ens_org; [intros _|auto].
    destruct (decodeObjectBody (r_body r)) as [body|]; [|apply h_ens_reply; auto].
    cbv zeta. case_decide; [apply h_ens_reply; auto|]. destruct (negb _); [apply h_ens_reply; auto|].
    apply h_ens_bind, h_ens_create_or_409; [|auto..]. intros _. apply h_ens_ret. right. by apply owned_put_bag.
  - eapply h_ens_conseq; [apply deleteDataBag_ensures|].
    intros res sp' [|[[_ E]|[_ Hw]]]; [by left| |right; by eapply owned_without_bag].
    right. intros o b i. rewrite E. apply Ho.
  - apply h_ens_bind, h_ens_org; [intros _|auto]. apply h_ens_bind, h_ens_bagExists; [intros Hbag|auto].
    destruct (decodeItem (r_body r)) as [[raw id]|]; [|apply h_ens_reply; auto].
    case_decide; [apply h_ens_reply; auto|]. destruct (negb _); [apply h_ens_reply; auto|].
    apply h_ens_bind, h_ens_create_or_409; [|auto..]. intros _. apply h_ens_ret. right. by apply owned_put_item.
  - apply h_ens_bind, h_ens_org; [intros _|auto]. apply h_ens_bind, h_ens_bagExists; [intros Hbag|auto].
    apply h_ens_bind, h_ens_exists; [intros _|auto].
    destruct (decodeItem (r_body r)) as [[raw id]|]; [|apply h_ens_reply; auto].
    apply h_ens_bind, h_ens_or_500, ens_Put; [|auto]. apply h_ens_ret. right. by apply owned_put_item.
  - apply h_ens_bind, h_ens_org; [intros _|auto]. apply h_ens_bind, h_ens_bagExists; [intros Hbag|auto].
    apply h_ens_bind, h_ens_or_500, ens_Delete; [|auto].
    destruct (s_objs sp !! (org, dataBagItemsColl bag, item)); [apply h_ens_ret|apply h_ens_reply]; right; by apply owned_delete_item.
Qed.
End BagCalls.

(** C39. Through any sequence of data bag calls, every stored item belongs to a
    registered bag: creating and updating need the bag, and deleting one takes
    its items with it. Only a store fault, answered 500, can leave items
    behind. *)
Theorem items_never_outlive_bag `{BackendSpec B} {O} (cs : list bag_call) (s : Store B O)
    (Hs : owned (view s.1)) (Hok : Forall (λ rep, status rep ≠ 500%Z) (run_bag_calls cs s).1) :
  owned (view (run_bag_calls cs s).2.1).
Proof.
  revert s Hs Hok. induction cs as [|c cs IH]; intros s Hs Hok; [done|]. cbn [run_bag_calls] in *.
  pose proof (replied_ensures (run_bag_call c) (λ rep _ sp', status rep = 500%Z ∨ owned sp') s (run_bag_call_owned c _ Hs)) as Hc.
  destruct (replied (run_bag_call c s)) as [rep s1]. specialize (IH s1).
  destruct (run_bag_calls cs s1) as [reps s2]. cbn [fst snd] in *. apply Forall_cons in Hok as [Hrep Hok].
  apply IH; [|done]. by destruct Hc.
Qed.

(** ** The wrapped form *)

Lemma String_Parse doc ms name : Parse doc = Ok (VObj ms) → String_ doc name = match assoc ms name with Some (VStr u) => Some u | _ => None end.
Proof.
  unfold Parse, decodeOne. destruct (parse_value _ _ _ doc) as [[v r]|] eqn:E; [|done]. case_decide; [|done].
  intros [= ->]. by eapply String_object.
Qed.

Lemma Marshal_opens ms : ∃ rest, Marshal (VObj ms) = String "{" rest.
Proof. rewrite Marshal_print. cbn [canon print]. eexists. reflexivity. Qed.

Lemma assoc_faithful ms name v : faithful (VObj ms) → assoc ms name = Some v → faithful v.
Proof.
  intros Hf. induction ms as [|[k x] ms IH]; [done|]. destruct Hf as (_ & Hx & Hms). cbn [assoc].
  case_decide; [by intros [= <-]|by apply IH].
Qed.

(** A document in stored form is the text of its own tree. *)
Lemma stored_tree raw v : Normalize raw = Ok raw → Parse raw = Ok v →
  raw = Marshal v ∧ canon v = v ∧ numbers_ok v = true ∧ faithful v.
Proof.
  intros (v' & Hp & Hn & Em)%Normalize_Ok Hv. assert (v' = v) as -> by congruence.
  destruct (Parse_faithful _ _ Hv) as [Hf Hd]. assert (canon v = v) as Hc.
  { pose proof (decode_Marshal true v Hf Hd) as Hdec. rewrite <-Em in Hdec. apply Parse_decode in Hdec. congruence. }
  split_and!; [done..|]. by rewrite Hc in Hf.
Qed.

Lemma item_name_utf8 bag id : valid_utf8 bag = true → valid_utf8 id = true → valid_utf8 (dataBagItemName bag id) = true.
Proof. intros Hb Hi. unfold dataBagItemName. by repeat (apply valid_utf8_app; [done|]). Qed.

(** The wrapper of a stored item, sent back, reads as it was written. *)
Lemma wrapper_reads bag id ms : valid_utf8 bag = true → valid_utf8 id = true →
  faithful (VObj ms) → canon (VObj ms) = VObj ms → numbers_ok (VObj ms) = true → depth (VObj ms) < max_depth →
  let w := item_wrapper bag id ms in
  Parse (Marshal (VObj w)) = Ok (VObj w) ∧ decodeObjectBody (Marshal (VObj w)) = Ok (Marshal (VObj w)).
Proof.
  intros Hb Hi Hf Hc Hn Hd w. set (x := VObj ms) in *.
  assert (canon (VObj w) = VObj w) as Hcw.
  { change (canon (VObj w)) with (VObj (map (λ m, (m.1, canon m.2)) w)). unfold w, item_wrapper. fold x.
    cbn [map fst snd]. by rewrite Hc. }
  assert (Parse (Marshal (VObj w)) = Ok (VObj w)) as Hp.
  { rewrite <-Hcw at 2. apply Parse_decode, decode_Marshal.
    - rewrite Hcw. cbn [printable foldr w item_wrapper fst snd]. split_and!; try done. by apply item_name_utf8.
    - change (S (max_list [0; 0; 0; 0; depth x]) ≤ max_depth). assert (max_list [0; 0; 0; 0; depth x] = depth x) as -> by (cbn; lia). done. }
  split; [done|]. unfold decodeObjectBody. rewrite (Normalize_Parse _ _ Hp).
  - destruct (Marshal_opens w) as [rest ->]. by rewrite decide_True.
  - change (numbers_ok (VObj w)) with (numbers_ok x && true). by rewrite Hn.
Qed.

(** The wrapped form of a stored item, as a delete or a search returns it,
    unwraps to the item: sent back as a body it is stored byte for byte as it
    was, under its own id. *)
Theorem wrapped_item_unwraps (bag id raw : string) (ms : obj) (Hbag : valid_utf8 bag = true) (Hid : valid_utf8 id = true)
    (Hstored : Normalize raw = Ok raw) (Hobj : Parse raw = Ok (VObj ms)) (Hdepth : depth (VObj ms) < max_depth) :
  decodeItem (wrapStoredDataBagItem bag id raw) = Ok (raw, default "" (String_ raw "id")).
Proof.
  destruct (stored_tree _ _ Hstored Hobj) as (Em & Hc & Hn & Hf). unfold wrapStoredDataBagItem. rewrite Hobj. cbv zeta.
  set (id' := match String_ raw "id" with Some a => if decide (a ≠ "") then a else id | None => id end).
  assert (valid_utf8 id' = true) as Hid'.
  { unfold id'. rewrite (String_Parse _ _ "id" Hobj). destruct (assoc ms "id") as [[| | |u| |]|] eqn:E; try done.
    case_decide; [|done]. apply (assoc_faithful ms "id" (VStr u)); done. }
  destruct (wrapper_reads bag id' ms) as [Hp Hb]; try done. unfold decodeItem. rewrite Hb. cbv zeta.
  rewrite (String_Parse _ _ "json_class" Hp). rewrite decide_True by done. rewrite Hp.
  change (assoc (item_wrapper bag id' ms) "raw_data") with (Some (VObj ms)). cbn [Marshal]. by rewrite <-Em.
Qed.

(** ** Samples *)

Definition stored_item : string := Marshal (VObj [("zeta", VNum "1.5"); ("id", VStr "db")]).

Lemma wrapped_item_unwraps_witness :
  decodeItem (wrapStoredDataBagItem "secrets" "other" stored_item) = Ok (stored_item, "db").
Proof.
  apply (wrapped_item_unwraps "secrets" "other" stored_item [("zeta", VNum "1.5"); ("id", VStr "db")]);
    [reflexivity|reflexivity|vm_compute; reflexivity|vm_compute; reflexivity|unfold max_depth; cbn; lia].
Defined.

Definition item_calls : list bag_call :=
  [CreateBag (plain_request "POST" "" (mustEncode (VObj [("name", VStr "secrets")]))) "acme";
   CreateItem (plain_request "POST" "" stored_item) "acme" "secrets";
   PutItem (plain_request "PUT" "" stored_item) "acme" "secrets" "db";
   DeleteBag "acme" "secrets"; PutItem (plain_request "PUT" "" stored_item) "acme" "secrets" "db"].

Definition bags_org : Store Memory.memoryBackend groupIndexCache := (Store_CreateOrg "acme" mem_server).2.

Lemma items_never_outlive_bag_witness :
  map status (run_bag_calls item_calls bags_org).1 = [201; 201; 200; 200; 404]%Z ∧
  owned (view (run_bag_calls item_calls bags_org).2.1).
Proof.
  assert (map status (run_bag_calls item_calls bags_org).1 = [201; 201; 200; 200; 404]%Z) as E by (vm_compute; reflexivity).
  split; [exact E|]. apply (items_never_outlive_bag item_calls bags_org).
  - intros org bag id [v Hv]. assert (s_objs (view bags_org.1) = ∅) as Hnone by (vm_compute; reflexivity).
    rewrite Hnone in Hv. by rewrite lookup_empty in Hv.
  - revert E. generalize (run_bag_calls item_calls bags_org).1. intros reps E.
    do 5 (destruct reps as [|? reps]; [discriminate E|]; injection E as ? E; constructor; [lia|]).
    destruct reps; [constructor|discriminate E].
Defined.

(** An update keeps the item under its path's name whatever id its body has: the
    item [db] now says it is [other]. *)
Definition renamed_item : string := Marshal (VObj [("id", VStr "other")]).
Theorem item_update_keeps_key :
  let s := (run_bag_calls (firstn 2 item_calls) bags_org).2 in
  let '(rep, s') := replied (putDataBagItem (plain_request "PUT" "" renamed_item) "acme" "secrets" "db" s) in
  status rep = 200%Z ∧ objs s' !! ("acme", dataBagItemsColl "secrets", "db") = Some renamed_item ∧
  objs s' !! ("acme", dataBagItemsColl "secrets", "other") = None.
Proof. vm_compute. split_and!; reflexivity. Qed.
