(* ===== verification/RunSearch.v ===== *)
(** * The search endpoint (internal/api/search.go)

    [runSearch] from the request to the reply, over a server that keeps both
    derived states: the group index the read checks use and the inverted indexes
    with the flatten cache. The rows are encoded as encoding/json writes them. *)
From stdpp Require Import pretty.
From S2P Require Import Prelude GoText Query Plan Json Chefjson Float GoJson Flatten Store Facade SearchIndex Search Groups Http Acl AclDocs Classify Authz SearchFilter Version Presign Objects DataBags.
#[local] Open Scope go_scope.
#[local] Open Scope http_scope.

(** ** The request *)

Definition defaultSearchRows : Z := 1000.

Definition queryInt (query : list (string * string)) (key : string) (def : Z) : Z :=
  let v := Values_Get query key in
  if decide (v ≠ "") then
    match strconv_Atoi v with
    | (n, None) => if decide (0 ≤ n)%Z then n else def
    | (_, Some _) => def
    end
  else def.

(** The body of a partial search: the path asked for under each name. *)
Abbreviation projection := (gmap string (list string)).

(** Decoding into a [map[string][]string]: the last of a repeated name counts. *)
Definition projection_member (acc : option projection) (m : string * value) : option projection :=
  acc ← acc; path ← decode_strings [] m.2; Some (<[m.1 := path]> acc).
Definition decode_projection (v : value) : option (option projection) :=
  match v with
  | VNull => Some None
  | VObj ms => Some <$> foldl projection_member (Some ∅) ms
  | _ => None
  end.

(** [None]: the body is not a projection. An empty one asks for whole objects. *)
Definition partial_of (r : request) : option (option projection) :=
  if decide (r_method r = "POST") then
    if decide (skip_ws (r_body r) = "") then Some None
    else match parse_value false (2 * String.length (r_body r) + 2) max_depth (r_body r) with
         | None => None
         | Some (v, _) => decode_projection v
         end
  else Some None.

(** ** The rows *)

(** [json.Compact]: white space outside strings is dropped; what is not JSON is
    an error. *)
Fixpoint compact_text (in_string escaped : bool) (s : string) : string :=
  match s with
  | EmptyString => ""
  | String c s' =>
      if in_string then
        String c (if escaped then compact_text true false s'
                  else if decide (c = backslash) then compact_text true true s'
                  else compact_text (negb (bool_decide (c = quote))) false s')
      else if json_ws c then compact_text false false s'
      else String c (compact_text (bool_decide (c = quote)) false s')
  end.
Definition compact (raw : string) : option string :=
  match decode false raw with Some _ => Some (compact_text false false raw) | None => None end.

(** A row: stored bytes, or the values a projection asked for. *)
Inductive row :=
  | RawRow (raw : string)
  | DataRow (url : string) (data : obj).

Definition row_text (x : row) : option string :=
  match x with
  | RawRow raw => compact raw
  | DataRow url data => Some (mustEncode (VObj [("data", VObj data); ("url", VStr url)]))
  end.

(** The body of the reply; an encoding error leaves it empty. *)
Definition search_body (total start : Z) (rows : list row) : body :=
  match mapM (M := option) row_text rows with
  | None => NoBody
  | Some texts =>
      Raw ("{" +:+ print_string id "rows" +:+ ":[" +:+ Prelude.join "," texts +:+ "]," +:+ print_string id "start" +:+ ":" +:+ pretty start +:+ ","
           +:+ print_string id "total" +:+ ":" +:+ pretty total +:+ "}" +:+ String (chr 10) "")
  end.

(** The URL of a row. *)
Definition urlFor (r : request) (org : string) (idx : searchIndex) (id : string) : string :=
  if decide (aclObject idx = "") then objectURL r org (collection idx) id
  else dataBagURL r org (aclObject idx) +:+ "/" +:+ id.

(** A path of length zero asks for nothing. *)
Definition projected (merged : obj) (partial : projection) : obj :=
  map (λ p, (p.1, match p.2 with [] => VNull | path => traversePath (VObj merged) path end)) (map_to_list partial).

(** [matches[lo:hi]]; [None]: out of range. *)
Definition slice {A} (lo hi : Z) (l : list A) : option (list A) :=
  if decide (0 ≤ lo ∧ lo ≤ hi ∧ hi ≤ Z.of_nat (length l))%Z then Some (take (Z.to_nat (hi - lo)) (drop (Z.to_nat lo) l)) else None.

(** [strconv.Quote], whose table of printable runes is a parameter. *)
Class GoQuote := { strconv_Quote : string → string }.

(** The message of a query that does not parse. *)
Definition query_error `{GoQuote} (e : parseError) : string :=
  "search: " +:+ match e with
  | UnterminatedPhrase => "unterminated phrase"
  | UnterminatedRange => "unterminated range"
  | MalformedRange inner => "malformed range " +:+ strconv_Quote inner
  | TrailingEscape => "query cannot end with an escape character"
  | UnexpectedChar c => "unexpected character " +:+ strconv_Quote c
  | UnexpectedToken text => "unexpected token " +:+ strconv_Quote text
  | MissingParen => "missing closing paren"
  | ExpectedValue => "expected value after ':'"
  end.

(** ** The server *)

Section Server.
Context `{Unicode} `{Float64} `{GoQuote} {B : Type} `{Backend B}.

Abbreviation derived := (groupIndexCache * gmap string collIndex)%type.
Abbreviation server := (Store B derived * searchCache)%type.

(** The server of [api.New]: both derived states watch the store. *)
Definition newServer (b : B) : server :=
  (Watch (λ ev o, (Groups.observe ev o.1, o.2)) (Watch (λ ev o, (o.1, SearchIndex.observe ev o.2)) (NewWithBackend b (∅, newSearchIndexes))),
   newSearchCache).

(** The store as the checks of permissions see it, and as searches do. *)
Definition checks_store (x : server) : Store B groupIndexCache :=
  let '((b, sh), _) := x in (b, mkShared (groupsGen sh) [Groups.observe] (obs sh).1 (txbuf sh) (counts sh)).
Definition search_store (x : server) : Store B (gmap string collIndex) :=
  let '((b, sh), _) := x in (b, mkShared (groupsGen sh) [SearchIndex.observe] (obs sh).2 (txbuf sh) (counts sh)).

(** A check only reads the store: it leaves its own derived state and the counts. *)
Definition on_checks {A} (m : ST (Store B groupIndexCache) A) : ST server A := λ x,
  let '((b, sh), c) := x in
  let '(r, (b', sh')) := m (checks_store x) in
  (r, ((b', mkShared (groupsGen sh') (watch sh) (obs sh', (obs sh).2) (txbuf sh) (counts sh')), c)).
(** So does a search, which leaves the generation of the groups alone. *)
Definition on_search {A} (m : ST (Store B (gmap string collIndex) * searchCache) A) : ST server A := λ x,
  let '((b, sh), c) := x in
  let '(r, ((b', sh'), c')) := m (search_store x, c) in
  (r, ((b', mkShared (groupsGen sh) (watch sh) ((obs sh).1, obs sh') (txbuf sh) (counts sh')), c')).

(** [API.org]. *)
Definition search_org (name : string) : handler server string :=
  let? o := or_500 (on_checks (Store_Org name)) in
  match o with
  | Some org => h_ret org
  | None => h_reply (writeError 404 ["Cannot find org " +:+ name])
  end.

Definition listSearchIndexes (r : request) (orgname : string) : handler server reply :=
  let? org := search_org orgname in
  let base := r_base r +:+ "/organizations/" +:+ org +:+ "/search/" in
  let? keys := or_500 (on_checks (Org_Keys org dataBagsColl)) in
  h_ret (writeJSON 200 (VObj (foldl (λ (out : obj) (bag : string), Set_ out bag (VStr (base +:+ bag)))
    (map (λ n, (n, VStr (base +:+ n))) ["node"; "role"; "client"; "environment"]) keys))).

(** The rows of the window. *)
Fixpoint search_rows (r : request) (org : string) (idx : searchIndex) (partial : option projection) (ms : list (string * string))
    (c : searchCache) : list row * searchCache :=
  match ms with
  | [] => ([], c)
  | m :: ms' =>
      let '(x, c) := (match partial with
        | Some partial =>
            let '(doc, c) := searchDoc (collection idx) m.1 m.2 (mergeAttrs idx) c in
            (DataRow (urlFor r org idx m.1) (projected (match doc with Some d => d.1 | None => [] end) partial), c)
        | None => (RawRow (if decide (aclObject idx ≠ "") then wrapStoredDataBagItem (aclObject idx) m.1 m.2 else m.2), c)
        end) in
      let '(rows, c) := search_rows r org idx partial ms' c in (x :: rows, c)
  end.

Definition runSearch (enforceACL : bool) (r : request) (query : list (string * string)) (orgname indexName : string) : handler server reply :=
  let? org := search_org orgname in
  let? idx := or_500 (on_checks (resolveIndex org indexName)) in
  match idx with
  | None => h_reply (writeError 404 ["I don't know how to search for " +:+ indexName +:+ " data objects."])
  | Some idx =>
      let qStr := if decide (Values_Get query "q" = "") then "*:*" else Values_Get query "q" in
      match Query.Parse qStr with
      | Done q =>
          match partial_of r with
          | None => h_reply (writeError 400 ["invalid partial search body"])
          | Some partial =>
              let? matches := or_500 (on_search (if IsMatchAll q then collectAll org (collection idx)
                                                 else findMatches org (collection idx) (mergeAttrs idx) q)) in
              let? matches := or_500 (on_checks (filterReadable enforceACL (r_actor r) org idx matches)) in
              let start := queryInt query "start" 0 in
              let rows := queryInt query "rows" defaultSearchRows in
              let total := Z.of_nat (length matches) in
              let '(lo, hi) := window start rows total in
              match slice lo hi matches with
              | None => h_reply panic
              | Some win => λ '(s, c),
                  let '(out, c) := search_rows r org idx partial win c in
                  (inl (mkReply 200 (search_body total start out)), (s, c))
              end
          end
      | Fail e => h_reply (writeError 400 ["invalid search query: " +:+ query_error e])
      | _ => h_reply panic
      end
  end.
End Server.

(** ** What a search answers *)

(** The index a name stands for. *)
Definition index_named (objs : objects) (org name : string) : option searchIndex :=
  if decide (name ∈ ["node"; "role"; "client"; "environment"]) then
    Some (mkSearchIndex (name +:+ "s") (bool_decide (name = "node")) (name +:+ "s") "")
  else match objs !! (org, dataBagsColl, name) with
       | None => None
       | Some _ => Some (mkSearchIndex (dataBagItemsColl name) false "data" name)
       end.

Section Outcome.
Context `{Unicode} `{Float64} `{GoQuote}.

(** The documents a query is about: all of the collection, or those whose fields
    match, sorted by id. *)
Definition hits (q : Query) (idx : searchIndex) (docs : gmap string string) : list (string * string) :=
  if IsMatchAll q then sort_matches (map_to_list docs) else answer (mergeAttrs idx) q docs.

(** The row of a document. *)
Definition row_of (r : request) (org : string) (idx : searchIndex) (partial : option projection) (m : string * string) : row :=
  match partial with
  | Some partial =>
      DataRow (urlFor r org idx m.1)
        (projected (match searchable_doc (mergeAttrs idx) m.2 with Some d => d.1 | None => [] end) partial)
  | None => RawRow (if decide (aclObject idx ≠ "") then wrapStoredDataBagItem (aclObject idx) m.1 m.2 else m.2)
  end.

(** The reply as a function of what is stored; [out] is what the actor may see. *)
Definition search_outcome (enforceACL : bool) (r : request) (query : list (string * string)) (org name : string) (sp : space) (rep : reply) : Prop :=
  if decide (org ∈ s_orgs sp) then
    match index_named (s_objs sp) org name with
    | None => rep = writeError 404 ["I don't know how to search for " +:+ name +:+ " data objects."]
    | Some idx =>
        match Query.Parse (if decide (Values_Get query "q" = "") then "*:*" else Values_Get query "q") with
        | Done q =>
            match partial_of r with
            | None => rep = writeError 400 ["invalid partial search body"]
            | Some partial =>
                ∃ out, visible enforceACL (r_actor r) (s_objs sp) org idx (hits q idx (coll_of org (collection idx) (s_objs sp))) out ∧
                  let start := queryInt query "start" 0 in
                  let rows := queryInt query "rows" defaultSearchRows in
                  rep = mkReply 200 (search_body (Z.of_nat (length out)) start
                    (map (row_of r org idx partial) (take (Z.to_nat rows) (drop (Z.to_nat start) out))))
            end
        | Fail e => rep = writeError 400 ["invalid search query: " +:+ query_error e]
        | _ => False
        end
    end
  else rep = writeError 404 ["Cannot find org " +:+ org].
End Outcome.

(** ** The window *)

Lemma parse_digits_nonneg (s : string) : ∀ acc n, (0 ≤ acc)%Z → parse_digits acc s = inl n → (0 ≤ n)%Z.
Proof.
  induction s as [|c s IH]; intros acc n Ha; cbn [parse_digits]; [by intros [= <-]|]. destruct (digit c) eqn:Ed; [|done].
  case_decide; [done|]. apply IH. unfold digit in Ed. apply bool_decide_eq_true in Ed. lia.
Qed.

Lemma Atoi_bounds (s : string) (n : Z) : strconv_Atoi s = (n, None) → (n ≤ max_int64)%Z.
Proof.
  unfold strconv_Atoi, ParseInt. destruct (match s with EmptyString => _ | _ => _ end) as [neg rest].
  destruct (ParseUint rest) as [un|[]] eqn:E; [|done..].
  assert (0 ≤ un)%Z.
  { unfold ParseUint in E. case_decide; [done|]. eapply parse_digits_nonneg, E. lia. }
  destruct neg; case_decide; try done; intros [= <-]; unfold max_int64; lia.
Qed.

Lemma queryInt_bounds (query : list (string * string)) (key : string) (def : Z) : (0 ≤ def ≤ max_int64)%Z →
  (0 ≤ queryInt query key def ≤ max_int64)%Z.
Proof.
  intros Hd. unfold queryInt. case_decide; [|done]. destruct (strconv_Atoi _) as [n [e|]] eqn:E; [done|].
  case_decide; [|done]. split; [done|]. by eapply Atoi_bounds.
Qed.

(** The slice of the window is within the matches. *)
Lemma slice_window {A} (start rows : Z) (l : list A) :
  (0 ≤ start ≤ max_int64)%Z → (0 ≤ rows ≤ max_int64)%Z → (Z.of_nat (length l) ≤ max_int64)%Z →
  let '(lo, hi) := window start rows (Z.of_nat (length l)) in
  slice lo hi l = Some (take (Z.to_nat rows) (drop (Z.to_nat start) l)).
Proof.
  intros Hs Hr Hl. pose proof (window_bounds start rows (Z.of_nat (length l)) Hs Hr ltac:(lia)) as Hw.
  destruct (window start rows _) as [lo hi]. destruct Hw as (Hlo & Hhi & Elo & Elen). unfold slice. rewrite decide_True by lia. f_equal.
  rewrite Elen, Elo. destruct (decide (start ≤ Z.of_nat (length l))%Z).
  - rewrite (Z.min_l start) by lia. destruct (decide (rows ≤ Z.of_nat (length l) - start)%Z).
    + by rewrite Z.min_l by lia.
    + rewrite Z.min_r by lia. rewrite !take_ge; [done|rewrite length_drop; lia..].
  - rewrite (Z.min_r start) by lia. rewrite !drop_ge by lia. by rewrite !take_nil.
Qed.

(** ** Searches read *)

Section Looks.
Context `{Unicode} `{Float64} `{GoQuote} {B : Type} `{BackendSpec B}.
Abbreviation derived := (groupIndexCache * gmap string collIndex)%type.
Abbreviation server := (Store B derived * searchCache)%type.

(** Both derived states, and the cache, are what the store says. *)
Definition searchable (x : server) : Prop := Groups.current (checks_store x) ∧ settled (search_store x, x.2).
Definition space_of (x : server) : space := view x.1.1.

(** A step that reads. *)
Definition looks {A} (m : handler server A) (x : server) (P : A → Prop) (Q : reply → Prop) : Prop :=
  let '(r, x') := m x in searchable x' ∧ space_of x' = space_of x ∧ match r with inl a => P a | inr rep => Q rep end.

Lemma looks_ret {A} (a : A) (x : server) (P : A → Prop) Q : searchable x → P a → looks (h_ret a) x P Q.
Proof. done. Qed.
Lemma looks_reply {A} (rep : reply) (x : server) (P : A → Prop) (Q : reply → Prop) : searchable x → Q rep → looks (h_reply rep) x P Q.
Proof. done. Qed.

Lemma looks_bind {A C} (m : handler server A) (k : A → handler server C) (x : server) (P : A → Prop) (R : C → Prop) Q :
  looks m x P Q → (∀ a x', searchable x' → space_of x' = space_of x → P a → looks (k a) x' R Q) → looks (h_bind m k) x R Q.
Proof.
  unfold looks, h_bind. intros Hm Hk. destruct (m x) as [[a|rep] x']; [|done]. destruct Hm as (Hx & Hs & Ha).
  specialize (Hk a x' Hx Hs Ha). destruct (k a x') as [r x'']. by rewrite Hs in Hk.
Qed.

Lemma looks_checks {A} (m : ST (Store B groupIndexCache) A) (x : server) (P : space → A → Prop) (Q : reply → Prop) : searchable x →
  observes Groups.current m P → (∀ rep, status rep = 500%Z → Q rep) → looks (or_500 (on_checks m)) x (P (space_of x)) Q.
Proof.
  intros [Hg Hs] Hm HQ. unfold looks, or_500, on_checks. destruct x as [[b sh] c]. specialize (Hm _ Hg).
  cbn [checks_store] in Hm. destruct (m _) as [r [b' sh']]. destruct Hm as (Hc & Hv & Hr). cbn [fst snd] in *.
  assert (searchable ((b', mkShared (groupsGen sh') (watch sh) (obs sh', (obs sh).2) (txbuf sh) (counts sh')), c)) as Hx.
  { destruct Hc as (Hw & Ht & Hgen & Hi), Hg as (_ & Ht0 & _ & _). cbn in *. split; [by split_and!|].
    destruct Hs as [(_ & _ & Htr & Hmg) Hca]. split; [|done]. split_and!; [done|done| |done]. cbn in *. by rewrite Hv. }
  unfold space_of. cbn [fst]. destruct r; cbn [fst snd]; split_and!; [done..|by apply HQ].
Qed.

Lemma looks_search {A} (m : ST (Store B (gmap string collIndex) * searchCache) A) (x : server) (P : A → Prop) (Q : reply → Prop) : searchable x →
  searches m (search_store x, x.2) P → (∀ rep, status rep = 500%Z → Q rep) → looks (or_500 (on_search m)) x P Q.
Proof.
  intros [Hg Hs] Hm HQ. unfold looks, or_500, on_search. destruct x as [[b sh] c]. unfold searches in Hm.
  cbn [search_store snd] in Hm |- *. destruct (m _) as [r [[b' sh'] c']]. cbn [fst snd] in *.
  assert (settled ((b', sh'), c') ∧ view b' = view b) as [Hset Hv] by (destruct r; by destruct Hm as (_ & ? & ?)).
  assert (searchable ((b', mkShared (groupsGen sh) (watch sh) ((obs sh).1, obs sh') (txbuf sh) (counts sh')), c')) as Hx.
  { destruct Hg as (Hw & Ht & Hgen & Hi). cbn in *. split.
    - split_and!; [done|done|done|]. cbn in *. by rewrite Hv.
    - destruct Hset as [(_ & _ & Htr & Hmg) Hca]. by split. }
  unfold space_of. cbn [fst]. destruct r; cbn [fst snd]; split_and!; try done; [by destruct Hm|by apply HQ].
Qed.

(** The rows are those of the documents, whatever the cache holds. *)
Lemma search_rows_spec (r : request) (org : string) (idx : searchIndex) (partial : option projection) (ms : list (string * string)) :
  mergeAttrs idx = coll_merge (collection idx) → ¬ str_in NUL (collection idx) → ∀ c, cache_ok c →
  let '(rows, c') := search_rows r org idx partial ms c in cache_ok c' ∧ rows = map (row_of r org idx partial) ms.
Proof.
  intros Hmerge Hnul. induction ms as [|m ms IH]; intros c Hc; [done|]. cbn [search_rows map]. unfold row_of at 1.
  destruct partial as [partial|].
  - pose proof (searchDoc_ok c (collection idx) m.1 m.2 Hc Hnul) as Hd. rewrite <-Hmerge in Hd.
    destruct (searchDoc _ _ _ _ c) as [doc c1]. destruct Hd as [Hc1 ->]. specialize (IH c1 Hc1).
    destruct (search_rows _ _ _ _ ms c1) as [rows c2]. destruct IH as [Hc2 ->]. done.
  - specialize (IH c Hc). destruct (search_rows _ _ _ _ ms c) as [rows c2]. destruct IH as [Hc2 ->]. done.
Qed.
End Looks.

(** ** The endpoint *)

Section Endpoint.
Context `{Unicode} `{Float64} `{GoQuote} {B : Type} `{BackendSpec B}.
Abbreviation derived := (groupIndexCache * gmap string collIndex)%type.
Abbreviation server := (Store B derived * searchCache)%type.

Lemma observes_resolveIndex (org name : string) :
  observes (B := B) Groups.current (resolveIndex org name) (λ sp i, i = index_named (s_objs sp) org name).
Proof.
  unfold resolveIndex, index_named. case_decide; [by apply observes_ret|].
  eapply observes_bind; [apply observes_View; apply _|]. intros o. apply observes_ret. by intros sp ->.
Qed.

Lemma index_named_facts (objs : objects) (org name : string) (idx : searchIndex) : index_named objs org name = Some idx →
  ¬ str_in NUL name →
  mergeAttrs idx = coll_merge (collection idx) ∧ ¬ str_in NUL (collection idx) ∧ ∀ id, fallbackACL (s_aclType idx) id = defaultACL.
Proof.
  unfold index_named. intros Hidx Hn. case_decide as Hin.
  - injection Hidx as <-. apply list_elem_of_In in Hin as [<-|[<-|[<-|[<-|[]]]]]; (split; [done|]); (split; [solve_clean|done]).
  - destruct (objs !! _); [|done]. injection Hidx as <-. split; [done|]. split; [|done]. cbn [collection]. unfold dataBagItemsColl.
    rewrite str_in_app. intros [Hc|Hc]; [|done]. revert Hc. solve_clean.
Qed.

Lemma size_coll_of (org coll : string) (objs : objects) : size (coll_of org coll objs) ≤ size objs.
Proof.
  rewrite <-!length_map_to_list, <-(length_fmap (λ d, (org, coll, d.1, d.2)) (map_to_list (coll_of org coll objs))).
  apply submseteq_length, NoDup_submseteq.
  - apply NoDup_fmap_2; [intros [a b] [c d]; cbn; congruence|apply NoDup_map_to_list].
  - intros k ([key raw] & -> & Hk)%list_elem_of_fmap. apply elem_of_map_to_list in Hk. apply elem_of_map_to_list.
    by rewrite lookup_coll_of in Hk.
Qed.

Lemma length_hits (q : Query) (idx : searchIndex) (docs : gmap string string) : length (hits q idx docs) ≤ size docs.
Proof.
  unfold hits, answer, sort_matches. destruct (IsMatchAll q); rewrite merge_sort_Permutation; [by rewrite length_map_to_list|].
  rewrite <-length_map_to_list. apply length_filter.
Qed.

Lemma length_visible enforceACL actor objs org idx matches out : visible enforceACL actor objs org idx matches out → length out ≤ length matches.
Proof.
  unfold visible. destruct actor as [a|]; [|by intros ->]. destruct (_ && _); [|by intros ->]. intros [Hs _]. by apply sublist_length.
Qed.

Lemma looks_matches (q : Query) (org : string) (idx : searchIndex) (x : server) (Q : reply → Prop) :
  searchable x → plannable q → ¬ str_in NUL org → ¬ str_in NUL (collection idx) → mergeAttrs idx = coll_merge (collection idx) →
  (∀ rep, status rep = 500%Z → Q rep) →
  looks (or_500 (on_search (if IsMatchAll q then collectAll org (collection idx) else findMatches org (collection idx) (mergeAttrs idx) q))) x
    (λ ms, ms = hits q idx (coll_of org (collection idx) (s_objs (space_of x)))) Q.
Proof.
  intros Hx Hq Ho Hc Hm HQ. apply looks_search; [done| |done]. destruct Hx as [_ Hs]. unfold hits. rewrite Hm.
  assert (view (search_store x).1 = space_of x) as Hv by (by destruct x as [[b sh] c]).
  destruct (IsMatchAll q).
  - pose proof (collectAll_answers org (collection idx) _ Hs) as L. cbn [fst] in L. by rewrite Hv in L.
  - pose proof (findMatches_answers org (collection idx) q _ Hs Ho Hc Hq) as L. cbn [fst] in L. by rewrite Hv in L.
Qed.

Lemma looks_runSearch (enforceACL : bool) (r : request) (query : list (string * string)) (org name : string) (x : server) :
  searchable x → ¬ str_in NUL org → ¬ str_in NUL name →
  (Z.of_nat (size (s_objs (space_of x))) ≤ max_int64)%Z →
  let ok rep := status rep = 500%Z ∨ search_outcome enforceACL r query org name (space_of x) rep in
  looks (runSearch enforceACL r query org name) x ok ok.
Proof.
  intros Hx Horg Hname Hsize ok. unfold runSearch.
  eapply (looks_bind _ _ _ (λ o, o = org ∧ org ∈ s_orgs (space_of x))).
  { unfold search_org. eapply looks_bind; [apply looks_checks; [done|apply observes_Org; apply _|by left]|].
    intros o x1 Hx1 E1 ->. case_decide as Ho; [by apply looks_ret|]. apply looks_reply; [done|]. right. unfold search_outcome. by rewrite decide_False. }
  intros o x1 Hx1 E1 [-> Hin]. eapply looks_bind; [apply looks_checks; [done|apply observes_resolveIndex|by left]|].
  intros i x2 Hx2 E2 ->. rewrite E1 in *.
  destruct (index_named (s_objs (space_of x)) org name) as [idx|] eqn:Ei.
  2:{ apply looks_reply; [done|]. right. unfold search_outcome. by rewrite decide_True, Ei. }
  destruct (index_named_facts _ _ _ _ Ei Hname) as (Hmerge & Hnul & Hfall).
  set (qStr := if decide (Values_Get query "q" = "") then _ else _) in *. pose proof (Parse_returns qStr) as Hret.
  destruct (Query.Parse qStr) as [q|e| |] eqn:Eq; [| |done..].
  2:{ apply looks_reply; [done|]. right. unfold search_outcome. rewrite decide_True, Ei by done. fold qStr. by rewrite Eq. }
  destruct (partial_of r) as [partial|] eqn:Ep.
  2:{ apply looks_reply; [done|]. right. unfold search_outcome. rewrite decide_True, Ei by done. fold qStr. by rewrite Eq, Ep. }
  eapply looks_bind; [apply looks_matches; [done|by eapply Parse_plannable|done..|by left]|]. intros ms x3 Hx3 E3 ->. rewrite E2 in *.
  eapply looks_bind; [apply looks_checks; [done|by apply observes_filterReadable|by left]|]. intros out x4 Hx4 E4 Hvis. rewrite E3 in *.
  pose proof (slice_window (queryInt query "start" 0) (queryInt query "rows" defaultSearchRows) out) as Hsl.
  destruct (window _ _ _) as [lo hi]. rewrite Hsl; clear Hsl.
  - unfold looks. destruct x4 as [s c]. destruct Hx4 as [Hg4 [Hs4 Hc4]].
    pose proof (search_rows_spec r org idx partial (take (Z.to_nat (queryInt query "rows" defaultSearchRows))
      (drop (Z.to_nat (queryInt query "start" 0)) out)) Hmerge Hnul c Hc4) as Hrows.
    destruct (search_rows _ _ _ _ _ c) as [rows c']. destruct Hrows as [Hc' ->].
    split; [by destruct s|]. split; [done|]. right.
    unfold search_outcome. rewrite decide_True, Ei by done. fold qStr. rewrite Eq, Ep. by exists out.
  - apply queryInt_bounds. unfold max_int64. lia.
  - apply queryInt_bounds. unfold max_int64, defaultSearchRows. lia.
  - apply length_visible in Hvis. pose proof (length_hits q idx (coll_of org (collection idx) (s_objs (space_of x)))). 
    pose proof (size_coll_of org (collection idx) (s_objs (space_of x))). lia.
Qed.
End Endpoint.

(** C6. A search answers exactly what is stored and readable. On a server whose
    search indexes, search caches and group index are in step with its store
    ([searchable], which the search keeps), the reply to a search is a function of
    the stored objects alone: 404 for an unknown organization or index, 400 for a
    query or a projection that does not parse, and otherwise the documents that
    match the query and that the actor is shown, in order of id, counted, and from
    them the window asked for, whole or projected. An actor is shown a document
    it holds read on; above 64 matches of objects with an ACL each the stored
    ACL's read entry is taken as the bulk scan's typed decode reads it, which is
    the same on the ACLs the server composes itself ([shown_granted]) and differs
    on one a client spelled otherwise ([bulk_reads_other_case]). Only a store
    fault is answered otherwise (500). Nothing is stored. Names hold no NUL byte
    and the store holds at most 2^63-1 objects. *)
Theorem search_answers_exactly `{Unicode} `{Float64} `{GoQuote} `{BackendSpec B} (enforceACL : bool) (r : request)
    (query : list (string * string)) (org name : string) (x : Store B (groupIndexCache * gmap string collIndex) * searchCache)
    (Hx : searchable x) (Horg : ¬ str_in NUL org) (Hname : ¬ str_in NUL name)
    (Hsize : (Z.of_nat (size (s_objs (space_of x))) ≤ max_int64)%Z) :
  let '(rep, x') := replied (runSearch enforceACL r query org name x) in
  searchable x' ∧ space_of x' = space_of x ∧ (status rep = 500%Z ∨ search_outcome enforceACL r query org name (space_of x) rep).
Proof.
  pose proof (looks_runSearch enforceACL r query org name x Hx Horg Hname Hsize) as L. unfold looks in L.
  by destruct (runSearch enforceACL r query org name x) as [[rep|rep] x'].
Qed.

(** ** Samples *)

#[local] Instance plain_quote : GoQuote := {| strconv_Quote := λ s, print_string id s |}.
#[local] Existing Instance caseless_unicode.
#[local] Existing Instance digits_float.

Definition node_doc (name role : string) : string :=
  Marshal (VObj [("name", VStr name); ("normal", VObj [("role", VStr role); ("net", VObj [("ip", VStr "10.0.0.1")])])]).
(** An ACL that keeps [alice] out. *)
Definition admins_only : string := mustEncode (VObj (acl_doc (λ _, ([], ["admins"])))).
Definition search_server_ops : ST (Store Memory.memoryBackend (groupIndexCache * gmap string collIndex)) unit :=
  Store_CreateOrg "acme" ;;!
  Org_Put "acme" "nodes" "web1" (node_doc "web1" "web") ;;!
  Org_Put "acme" "nodes" "web2" (node_doc "web2" "web") ;;!
  Org_Put "acme" "nodes" "web3" (node_doc "web3" "web") ;;!
  Org_Put "acme" "nodes" "db1" (node_doc "db1" "db") ;;!
  Org_Put "acme" "acls" (aclKey "nodes" "web2") admins_only ;;!
  Org_Put "acme" "groups" "users" (groupJSON "users" "" ["alice"] [] []) ;;! st_ret tt.
Definition search_server : Store Memory.memoryBackend (groupIndexCache * gmap string collIndex) * searchCache :=
  ((search_server_ops (newServer Memory.NewMemoryBackend).1).2, newSearchCache).
Definition ask (body : string) : request := mkRequest (if decide (body = "") then "GET" else "POST") "" (Some alice) body "http://s" None.

(** The hidden node is not counted; the window starts past the first match. *)
Example search_sample :
  (replied (runSearch true (ask "") [("q", "role:web"); ("start", "1")] "acme" "node" search_server)).1 =
  mkReply 200 (search_body 2 1 [RawRow (node_doc "web3" "web")]).
Proof. vm_compute. reflexivity. Qed.
Example partial_search_sample :
  (replied (runSearch true (ask (mustEncode (VObj [("ip", VArr [VStr "net"; VStr "ip"]); ("none", VArr [])]))) [("rows", "1")] "acme" "node" search_server)).1 =
  mkReply 200 (search_body 3 0 [DataRow "http://s/organizations/acme/nodes/db1" [("ip", VStr "10.0.0.1"); ("none", VNull)]]).
Proof. vm_compute. reflexivity. Qed.

Lemma search_server_settled : searchable search_server.
Proof.
  split; [apply current_empty; [reflexivity|reflexivity|vm_compute; discriminate|vm_compute; reflexivity]|].
  assert (obs (search_store search_server).2 = ∅) as Eo by (vm_compute; reflexivity).
  split; [|apply newSearchCache_ok]. split; [reflexivity|]. split; [reflexivity|]. cbn [fst snd]. rewrite Eo. split; intros ????; by rewrite lookup_empty.
Qed.

Lemma search_answers_exactly_witness :
  let '(rep, x') := replied (runSearch true (ask "") [("q", "role:web"); ("start", "1")] "acme" "node" search_server) in
  status rep = 200%Z ∧ search_outcome true (ask "") [("q", "role:web"); ("start", "1")] "acme" "node" (space_of search_server) rep.
Proof.
  pose proof (search_answers_exactly true (ask "") [("q", "role:web"); ("start", "1")] "acme" "node" search_server search_server_settled) as L.
  pose proof search_sample as E. destruct (replied _) as [rep x']. cbn [fst] in E. subst rep.
  split; [reflexivity|]. destruct L as (_ & _ & [L|L]); [| | |discriminate L|exact L].
  - solve_clean.
  - solve_clean.
  - vm_compute. discriminate.
Defined.
