(* ===== verification/Auth.v ===== *)
(** * Signed requests (internal/auth/auth.go, sign.go, cache.go)

    Mixlib's signed headers: parsing them, the canonical string a signature
    covers, verification of the protocol versions 1.0, 1.1 and 1.3, signing,
    and the cache of parsed keys. crypto/rsa's PKCS#1 v1.5 signatures and the
    SHA digests are parameters; the public-key operation the sources implement
    themselves is modelled. *)
From stdpp Require Import pretty.
From S2P Require Import Prelude GoText.
#[local] Open Scope go_scope.

(** ** Base64 (encoding/base64, StdEncoding) *)

Definition b64_char (z : Z) : ascii :=
  if decide (z < 26)%Z then chr (65 + z)
  else if decide (z < 52)%Z then chr (71 + z)
  else if decide (z < 62)%Z then chr (z - 4)
  else if decide (z = 62)%Z then "+"%char else "/"%char.

Definition b64_val (c : ascii) : option Z :=
  let b := byte_of c in
  if decide (65 ≤ b ≤ 90)%Z then Some (b - 65)%Z
  else if decide (97 ≤ b ≤ 122)%Z then Some (b - 71)%Z
  else if decide (48 ≤ b ≤ 57)%Z then Some (b + 4)%Z
  else if decide (c = "+"%char) then Some 62%Z
  else if decide (c = "/"%char) then Some 63%Z
  else None.

Fixpoint EncodeToString (s : string) : string :=
  match s with
  | EmptyString => ""
  | String a EmptyString =>
      let x := byte_of a in
      String (b64_char (x / 4)) (String (b64_char (x mod 4 * 16)) "==")
  | String a (String b EmptyString) =>
      let x := byte_of a in let y := byte_of b in
      String (b64_char (x / 4)) (String (b64_char (x mod 4 * 16 + y / 16)) (String (b64_char (y mod 16 * 4)) "="))
  | String a (String b (String c s')) =>
      let x := byte_of a in let y := byte_of b in let z := byte_of c in
      String (b64_char (x / 4)) (String (b64_char (x mod 4 * 16 + y / 16))
        (String (b64_char (y mod 16 * 4 + z / 64)) (String (b64_char (z mod 64)) (EncodeToString s'))))
  end.

(** Groups of four characters; only the last may be padded. *)
Fixpoint b64_quanta (s : string) : option string :=
  match s with
  | EmptyString => Some ""
  | String a (String b (String c (String d s'))) =>
      match b64_val a, b64_val b with
      | Some x, Some y =>
          let first := chr (x * 4 + y / 16) in
          match b64_val c, b64_val d with
          | Some z, Some w =>
              (λ rest, String first (String (chr (y mod 16 * 16 + z / 4)) (String (chr (z mod 4 * 64 + w)) rest)))
                <$> b64_quanta s'
          | Some z, None =>
              if decide (d = "="%char ∧ s' = "") then Some (String first (String (chr (y mod 16 * 16 + z / 4)) "")) else None
          | None, None =>
              if decide (c = "="%char ∧ d = "="%char ∧ s' = "") then Some (String first "") else None
          | None, Some _ => None
          end
      | _, _ => None
      end
  | _ => None
  end.

Fixpoint drop_newlines (s : string) : string :=
  match s with
  | EmptyString => ""
  | String c s' => if decide (byte_of c = 10 ∨ byte_of c = 13)%Z then drop_newlines s' else String c (drop_newlines s')
  end.

Definition DecodeString (s : string) : result string :=
  match b64_quanta (drop_newlines s) with
  | Some out => Ok out
  | None => Err (ErrOther "illegal base64 data")
  end.

(** ** Headers (net/http) *)

Definition upper_char (c : ascii) : ascii :=
  if decide (97 ≤ byte_of c ≤ 122)%Z then chr (byte_of c - 32) else c.

(** [CanonicalMIMEHeaderKey] of a token. *)
Fixpoint canonical_key (upper : bool) (s : string) : string :=
  match s with
  | EmptyString => ""
  | String c s' => String (if upper then upper_char c else lower_char c) (canonical_key (bool_decide (c = "-"%char)) s')
  end.
Definition CanonicalHeaderKey (s : string) : string := canonical_key true s.

(** The first value of each header, by canonical name. *)
Abbreviation header := (gmap string string).
Definition Header_Get (h : header) (name : string) : string := default "" (h !! CanonicalHeaderKey name).
Definition Header_Set (h : header) (name v : string) : header := <[CanonicalHeaderKey name := v]> h.

(** ** Keys and digests *)

Record PublicKey := mkPublicKey { pub_N : Z; pub_E : Z }.

(** [big.Int.BitLen], and the bytes it takes. *)
Definition BitLen (z : Z) : Z := if decide (z = 0)%Z then 0 else Z.log2 z + 1.
Definition byte_len (z : Z) : nat := Z.to_nat ((BitLen z + 7) / 8).

(** The library's digests and RSASSA-PKCS1-v1.5 over SHA-256. *)
Class Crypto := {
  sha1_Sum : string → string;
  sha256_Sum : string → string;
  PrivateKey : Type;
  public_of : PrivateKey → PublicKey;
  SignPKCS1v15 : PrivateKey → string → result string;
  VerifyPKCS1v15 : PublicKey → string → string → bool;
}.

(** What is relied on: a signature is as long as the modulus, verifies under its
    key, and stands for one digest. *)
Class CryptoSpec `{Crypto} := {
  pkcs1_signed key d sig : SignPKCS1v15 key d = Ok sig →
    VerifyPKCS1v15 (public_of key) d sig = true ∧ String.length sig = byte_len (pub_N (public_of key));
  pkcs1_digest pub d d' sig : VerifyPKCS1v15 pub d sig = true → VerifyPKCS1v15 pub d' sig = true → d = d';
}.

(** [strings.ToUpper] of text that is not all ASCII. *)
Class UnicodeUpper := unicode_upper : string → string.
Definition ToUpper `{UnicodeUpper} (s : string) : string :=
  if is_ascii s then str_map upper_char s else unicode_upper s.

(** ** The canonical string *)

Record Parsed := mkParsed {
  Version : string;
  Algorithm : string;
  UserID : string;
  Timestamp : string;
  ContentHash : string;
  Signature : string;
}.

Definition head_char (s : string) : option ascii := match s with String c _ => Some c | EmptyString => None end.

(** [strings.ReplaceAll(path, "//", "/")]. *)
Fixpoint ReplaceAll_slashes (s : string) : string :=
  match s with
  | EmptyString => ""
  | String a s1 =>
      match s1 with
      | EmptyString => s
      | String b s2 => if decide (a = "/"%char ∧ b = "/"%char) then String "/" (ReplaceAll_slashes s2) else String a (ReplaceAll_slashes s1)
      end
  end.

(** [strings.Contains(path, "//")]. *)
Fixpoint has_double_slash (s : string) : bool :=
  match s with
  | EmptyString => false
  | String a s1 => bool_decide (a = "/"%char ∧ head_char s1 = Some "/"%char) || has_double_slash s1
  end.

(** The loop; each pass that has something to replace shortens the path. *)
Fixpoint collapse_loop (n : nat) (path : string) : string :=
  match n with
  | 0 => path
  | S n' => if has_double_slash path then collapse_loop n' (ReplaceAll_slashes path) else path
  end.

Definition trim_suffix_slash (s : string) : string :=
  match str_rev s with String c r => if decide (c = "/"%char) then str_rev r else s | EmptyString => s end.

Definition canonicalPath (path : string) : string :=
  let path := collapse_loop (String.length path) path in
  let path := if decide (1 < String.length path) then trim_suffix_slash path else path in
  if decide (path = "") then "/" else path.

Section Signing.
Context `{Unicode} `{UnicodeUpper} `{Crypto}.

Definition newDigest (algorithm : string) : string → string :=
  if decide (algorithm = "sha256") then sha256_Sum else sha1_Sum.

Definition hashB64 (h : string → string) (data : string) : string := EncodeToString (h data).

Definition newline : string := String (chr 10) "".

Definition canonicalString (method path body : string) (p : Parsed) (serverAPIVersion : string) : string :=
  let digest := newDigest (Algorithm p) in
  let cpath := canonicalPath path in
  let contentHash := hashB64 digest body in
  if decide (Version p = "1.3") then
    let serverAPIVersion := if decide (serverAPIVersion = "") then "0" else serverAPIVersion in
    join newline
      ["Method:" +:+ ToUpper method; "Path:" +:+ cpath; "X-Ops-Content-Hash:" +:+ contentHash;
       "X-Ops-Sign:version=" +:+ Version p; "X-Ops-Timestamp:" +:+ Timestamp p; "X-Ops-UserId:" +:+ UserID p;
       "X-Ops-Server-API-Version:" +:+ serverAPIVersion]
  else
    let userID := if decide (Version p = "1.1") then hashB64 (newDigest (Algorithm p)) (UserID p) else UserID p in
    let hashedPath := hashB64 (newDigest (Algorithm p)) cpath in
    join newline
      ["Method:" +:+ ToUpper method; "Hashed Path:" +:+ hashedPath; "X-Ops-Content-Hash:" +:+ contentHash;
       "X-Ops-Timestamp:" +:+ Timestamp p; "X-Ops-UserId:" +:+ userID].

(** ** Parsing the headers *)

Definition sign_part (av : string * string) (part : string) : string * string :=
  match cut_byte "=" (TrimSpace part) with
  | None => av
  | Some (k, v) =>
      if decide (TrimSpace k = "algorithm") then (TrimSpace v, av.2)
      else if decide (TrimSpace k = "version") then (av.1, TrimSpace v)
      else av
  end.
(** The algorithm and the version. *)
Definition parseSignDescription (s : string) : string * string := foldl sign_part ("", "") (split_on ";" s).

Definition chunk_name (i : nat) : string := "X-Ops-Authorization-" +:+ pretty i.

(** The chunks from [i] on, up to the first that is absent; [n] bounds them. *)
Fixpoint join_chunks (n : nat) (h : header) (i : nat) : string :=
  match n with
  | 0 => ""
  | S n' =>
      let chunk := Header_Get h (chunk_name i) in
      if decide (chunk = "") then "" else TrimSpace chunk +:+ join_chunks n' h (S i)
  end.

Definition joinSignature (h : header) : result string :=
  let b := join_chunks (S (size h)) h 1 in
  if decide (b = "") then Err (ErrOther "auth: missing X-Ops-Authorization headers")
  else DecodeString b.

(** The values quoted in the messages are left out. *)
Definition Parse (h : header) : result Parsed :=
  let sign := Header_Get h "X-Ops-Sign" in
  if decide (sign = "") then Err (ErrOther "auth: missing X-Ops-Sign header")
  else
    let '(algorithm, version) := parseSignDescription sign in
    if decide (version = "") then Err (ErrOther "auth: could not parse version from X-Ops-Sign")
    else if decide (version ≠ "1.0" ∧ version ≠ "1.1" ∧ version ≠ "1.3") then
      Err (ErrOther "auth: unsupported signing version")
    else
      let algorithm := if decide (algorithm = "") then (if decide (version = "1.3") then "sha256" else "sha1") else algorithm in
      let userID := Header_Get h "X-Ops-Userid" in
      if decide (userID = "") then Err (ErrOther "auth: missing X-Ops-Userid header")
      else match joinSignature h with
           | Err e => Err e
           | Ok sig => Ok (mkParsed version algorithm userID (Header_Get h "X-Ops-Timestamp")
                             (Header_Get h "X-Ops-Content-Hash") sig)
           end.

(** ** The public-key operation *)

Fixpoint be_value (acc : Z) (s : string) : Z :=
  match s with EmptyString => acc | String c s' => be_value (acc * 256 + byte_of c) s' end.

(** The [n] low bytes of a number, most significant first. *)
Fixpoint be_bytes (n : nat) (z : Z) (acc : string) : string :=
  match n with 0 => acc | S n' => be_bytes n' (z / 256) (String (chr (z mod 256)) acc) end.

Definition Bytes (z : Z) : string := be_bytes (byte_len z) z "".

Fixpoint zero_bytes (n : nat) : string := match n with 0 => "" | S n' => String NUL (zero_bytes n') end.

Definition FF : ascii := chr 255.
(** How many bytes of padding, and what follows them. *)
Fixpoint span_ff (s : string) : nat * string :=
  match s with
  | EmptyString => (0, "")
  | String c s' => if decide (c = FF) then let '(n, r) := span_ff s' in (S n, r) else (0, s)
  end.

Definition bad_padding : gerror := ErrOther "invalid PKCS#1 padding".

(** [None]: an index out of range. *)
Definition rsaPublicDecrypt (pub : PublicKey) (sig : string) : option (result string) :=
  let k := byte_len (pub_N pub) in
  if decide (k < String.length sig ∨ String.length sig = 0) then Some (Err (ErrOther "signature length out of range"))
  else
    let c := be_value 0 sig in
    if decide (pub_N pub ≤ c)%Z then Some (Err (ErrOther "signature out of range"))
    else
      let em := Bytes (c ^ pub_E pub mod pub_N pub) in
      if decide (k < String.length em) then Some (Err (ErrOther "decrypted block too large"))
      else
        match zero_bytes (k - String.length em) +:+ em with
        | EmptyString => None
        | String b0 rest =>
            if decide (b0 ≠ NUL) then Some (Err (ErrOther "invalid PKCS#1 padding header"))
            else match rest with
                 | EmptyString => None
                 | String b1 rest' =>
                     if decide (b1 ≠ chr 1) then Some (Err (ErrOther "invalid PKCS#1 padding header"))
                     else
                       let '(n, tail) := span_ff rest' in
                       match tail with
                       | EmptyString => Some (Err bad_padding)
                       | String b m => if decide (n + 2 < 10 ∨ b ≠ NUL) then Some (Err bad_padding) else Some (Ok m)
                       end
                 end
        end.

Definition Verify (method path body : string) (p : Parsed) (serverAPIVersion : string) (pub : PublicKey)
    : option (result unit) :=
  let signingString := canonicalString method path body p serverAPIVersion in
  if decide (Version p = "1.0" ∨ Version p = "1.1") then
    match rsaPublicDecrypt pub (Signature p) with
    | None => None
    | Some (Err e) => Some (Err (ErrOther "auth: signature verification failed"))
    | Some (Ok recovered) =>
        if decide (recovered = signingString) then Some (Ok tt)
        else Some (Err (ErrOther "auth: signature does not match request"))
    end
  else if decide (Version p = "1.3") then
    if VerifyPKCS1v15 pub (sha256_Sum signingString) (Signature p) then Some (Ok tt)
    else Some (Err (ErrOther "auth: signature verification failed"))
  else Some (Err (ErrOther "auth: unsupported signing version")).

Definition VerifyRequest (method path body : string) (h : header) (pub : PublicKey) : option (result unit) :=
  match Parse h with
  | Err e => Some (Err e)
  | Ok p => Verify method path body p (Header_Get h "X-Ops-Server-API-Version") pub
  end.

(** ** Signing *)

(** [itoa] prints as [strconv.Itoa] does. *)
Fixpoint itoa_loop (n : nat) (z : Z) (acc : string) : string :=
  match n with
  | 0 => acc
  | S n' => if decide (0 < z)%Z then itoa_loop n' (z / 10) (String (chr (48 + z mod 10)) acc) else acc
  end.
Definition itoa (n : Z) : string := if decide (n = 0)%Z then "0" else itoa_loop 20 n "".

(** The loop over the encoded signature, sixty characters a header; [n] bounds
    the headers. *)
Fixpoint set_chunks (n : nat) (h : header) (i : nat) (encoded : string) : header :=
  match n with
  | 0 => h
  | S n' =>
      if decide (encoded = "") then h
      else set_chunks n' (Header_Set h ("X-Ops-Authorization-" +:+ itoa (Z.of_nat i)) (str_take 60 encoded)) (S i)
             (str_drop 60 encoded)
  end.
Definition setSignatureHeaders (h : header) (sig : string) : header :=
  let encoded := EncodeToString sig in set_chunks (String.length encoded) h 1 encoded.

Definition SignRequest (method path : string) (h : header) (userID timestamp body : string) (key : PrivateKey) : result header :=
  let p := mkParsed "1.3" "sha256" userID timestamp (hashB64 sha256_Sum body) "" in
  let signingString := canonicalString method path body p (Header_Get h "X-Ops-Server-API-Version") in
  match SignPKCS1v15 key (sha256_Sum signingString) with
  | Err e => Err e
  | Ok sig =>
      let h := Header_Set h "X-Ops-Sign" "algorithm=sha256;version=1.3;" in
      let h := Header_Set h "X-Ops-Userid" userID in
      let h := Header_Set h "X-Ops-Timestamp" timestamp in
      let h := Header_Set h "X-Ops-Content-Hash" (ContentHash p) in
      Ok (setSignatureHeaders h sig)
  end.
End Signing.

(** ** Base64 decodes what it encoded *)

Lemma b64_val_char z : (0 ≤ z < 64)%Z → b64_val (b64_char z) = Some z.
Proof.
  intros Hz. assert (Forall (λ n, b64_val (b64_char (Z.of_nat n)) = Some (Z.of_nat n)) (seq 0 64)) as Hall.
  { apply (bool_decide_unpack _). vm_compute. exact I. }
  rewrite Forall_forall in Hall. specialize (Hall (Z.to_nat z)). rewrite Z2Nat.id in Hall by lia.
  apply Hall, elem_of_seq. lia.
Qed.

(** The characters of an encoding. *)
Definition b64_text (c : ascii) : bool := match b64_val c with Some _ => true | None => bool_decide (c = "="%char) end.

Lemma b64_char_text z : (0 ≤ z < 64)%Z → b64_text (b64_char z) = true.
Proof. intros Hz. unfold b64_text. by rewrite b64_val_char. Qed.

(** Bytes, three at a time. *)
Lemma string_ind3 (P : string → Prop) :
  P "" → (∀ a, P (String a "")) → (∀ a b, P (String a (String b ""))) →
  (∀ a b c s, P s → P (String a (String b (String c s)))) → ∀ s, P s.
Proof.
  intros H0 H1 H2 H3. fix IH 1. intros [|a [|b [|c s]]]; [done|apply H1|apply H2|apply H3, IH].
Qed.

Lemma encoded_text s : str_forall b64_text (EncodeToString s) = true.
Proof.
  induction s as [|a|a b|a b c s IH] using string_ind3; [done|..]; cbn [EncodeToString str_forall];
    try pose proof (byte_of_range a); try pose proof (byte_of_range b); try pose proof (byte_of_range c);
    rewrite !b64_char_text by zlia; done.
Qed.

Lemma text_val_eq : b64_val "=" = None.
Proof. reflexivity. Qed.

Lemma chr_byte c z : z = byte_of c → chr z = c.
Proof. intros ->. apply chr_byte_of. Qed.

Lemma quanta_encode s : b64_quanta (EncodeToString s) = Some s.
Proof.
  induction s as [|a|a b|a b c s IH] using string_ind3; [done|..]; cbn [EncodeToString b64_quanta];
    try pose proof (byte_of_range a); try pose proof (byte_of_range b); try pose proof (byte_of_range c).
  - rewrite !b64_val_char by zlia. rewrite text_val_eq, decide_True by done. do 2 f_equal. apply chr_byte. zlia.
  - rewrite !b64_val_char by zlia. rewrite text_val_eq, decide_True by done.
    f_equal. f_equal; [apply chr_byte; zlia|]. f_equal. apply chr_byte. zlia.
  - rewrite !b64_val_char by zlia. rewrite IH. cbn [fmap option_fmap option_map].
    f_equal. f_equal; [apply chr_byte; zlia|]. f_equal; [apply chr_byte; zlia|]. f_equal. apply chr_byte. zlia.
Qed.

Lemma b64_text_plain c : b64_text c = true → is_ascii_char c = true ∧ space_char c = false.
Proof.
  intros Hc. assert (Forall (λ n, b64_text (ascii_of_nat n) = true →
    is_ascii_char (ascii_of_nat n) = true ∧ space_char (ascii_of_nat n) = false) (seq 0 256)) as Hall.
  { apply (bool_decide_unpack _). vm_compute. exact I. }
  rewrite Forall_forall in Hall. specialize (Hall (nat_of_ascii c)). rewrite ascii_nat_embedding in Hall.
  apply Hall; [|done]. apply elem_of_seq. pose proof (nat_ascii_bounded c). lia.
Qed.

Lemma drop_newlines_text s : str_forall b64_text s = true → drop_newlines s = s.
Proof.
  induction s as [|c s IH]; [done|]. cbn. intros [Hc Hs]%andb_prop. rewrite IH by done.
  destruct (b64_text_plain c Hc) as [_ Hsp]. rewrite decide_False; [done|]. intros Hn.
  unfold space_char in Hsp. apply bool_decide_eq_false in Hsp. lia.
Qed.

Lemma DecodeString_encode s : DecodeString (EncodeToString s) = Ok s.
Proof. unfold DecodeString. by rewrite drop_newlines_text, quanta_encode by apply encoded_text. Qed.

Lemma EncodeToString_inj a b : EncodeToString a = EncodeToString b → a = b.
Proof. intros Hab. pose proof (DecodeString_encode a) as Ha. rewrite Hab, DecodeString_encode in Ha. by injection Ha. Qed.

(** ** Padding *)

(** A block of PKCS#1 type 1. *)
Definition type1_block (k : nat) (em m : string) : Prop :=
  ∃ n ff, 8 ≤ n ∧ span_ff ff = (n, "") ∧ em = String NUL (String (chr 1) (ff +:+ String NUL m)) ∧ String.length em = k.

Lemma span_ff_split s n r : span_ff s = (n, r) → ∃ ff, s = ff +:+ r ∧ span_ff ff = (n, "").
Proof.
  revert n. induction s as [|c s IH]; intros n; cbn; [intros [= <- <-]; by exists ""|].
  case_decide as Hc; [|intros [= <- <-]; by exists ""].
  destruct (span_ff s) as [n' r'] eqn:Es. intros [= <- <-]. destruct (IH n' eq_refl) as (ff & -> & Hf).
  exists (String c ff). split; [done|]. cbn. rewrite decide_True by done. by rewrite Hf.
Qed.

Lemma span_ff_app ff n b r : span_ff ff = (n, "") → b ≠ FF → span_ff (ff +:+ String b r) = (n, String b r).
Proof.
  revert n. induction ff as [|c ff IH]; intros n; cbn.
  - intros [= <-] Hb. by rewrite decide_False.
  - case_decide as Hc; [|intros [= <- ?]; done]. destruct (span_ff ff) as [n' r'] eqn:Es.
    intros [= <- ->] Hb. by rewrite (IH n').
Qed.

Lemma length_be_bytes n z acc : String.length (be_bytes n z acc) = n + String.length acc.
Proof. revert z acc. induction n as [|n IH]; intros z acc; [done|]. cbn. rewrite IH. cbn. lia. Qed.

Lemma length_zero_bytes n : String.length (zero_bytes n) = n.
Proof. induction n as [|n IH]; [done|]. cbn. by rewrite IH. Qed.

(** The block a signature opens to under a key. *)
Definition opened (pub : PublicKey) (sig : string) : string :=
  let em := Bytes (be_value 0 sig ^ pub_E pub mod pub_N pub) in
  zero_bytes (byte_len (pub_N pub) - String.length em) +:+ em.

Lemma byte_len_mono x y : (0 ≤ x ≤ y)%Z → byte_len x ≤ byte_len y.
Proof.
  intros Hxy. unfold byte_len, BitLen. pose proof (Z.log2_le_mono x y ltac:(lia)). pose proof (Z.log2_nonneg x).
  pose proof (Z.log2_nonneg y). repeat case_decide; zlia.
Qed.

Lemma length_Bytes z : String.length (Bytes z) = byte_len z.
Proof. unfold Bytes. rewrite length_be_bytes. cbn. lia. Qed.

Lemma length_opened pub sig : (0 < pub_N pub)%Z → String.length (opened pub sig) = byte_len (pub_N pub).
Proof.
  intros HN. unfold opened. rewrite length_app_string, length_zero_bytes, length_Bytes.
  assert (byte_len (be_value 0 sig ^ pub_E pub mod pub_N pub) ≤ byte_len (pub_N pub)); [|lia].
  apply byte_len_mono. pose proof (Z.mod_pos_bound (be_value 0 sig ^ pub_E pub) (pub_N pub) HN). lia.
Qed.

(** The raw operation never finds its own output too long. *)
Lemma decrypted_fits pub sig : (0 < pub_N pub)%Z →
  ¬ byte_len (pub_N pub) < String.length (Bytes (be_value 0 sig ^ pub_E pub mod pub_N pub)).
Proof.
  intros HN. rewrite length_Bytes. assert (byte_len (be_value 0 sig ^ pub_E pub mod pub_N pub) ≤ byte_len (pub_N pub)); [|lia].
  apply byte_len_mono. pose proof (Z.mod_pos_bound (be_value 0 sig ^ pub_E pub) (pub_N pub) HN). lia.
Qed.

Lemma decrypt_long (pub : PublicKey) (sig m : string) : (256 ≤ pub_N pub)%Z →
  rsaPublicDecrypt pub sig ≠ None ∧
  (rsaPublicDecrypt pub sig = Some (Ok m) ↔
    0 < String.length sig ≤ byte_len (pub_N pub) ∧ (be_value 0 sig < pub_N pub)%Z ∧
    type1_block (byte_len (pub_N pub)) (opened pub sig) m).
Proof.
  intros HN. pose proof (length_opened pub sig ltac:(lia)) as Hlen.
  assert (2 ≤ byte_len (pub_N pub)) as Hk by (change 2 with (byte_len 256); apply byte_len_mono; lia).
  unfold rsaPublicDecrypt.
  destruct (decide (byte_len (pub_N pub) < String.length sig ∨ String.length sig = 0)) as [Hl|Hl]; [split; [done|split; [done|lia]]|].
  destruct (decide (pub_N pub ≤ be_value 0 sig)%Z) as [Hc|Hc]; [split; [done|split; [done|lia]]|]. cbv zeta.
  rewrite decide_False by (apply decrypted_fits; lia).
  change (zero_bytes _ +:+ Bytes (be_value 0 sig ^ pub_E pub mod pub_N pub)) with (opened pub sig).
  revert Hlen. generalize (opened pub sig). intros em Hlen.
  destruct em as [|b0 [|b1 rest]]; [cbn in Hlen; lia..|].
  assert (∀ P : Prop, (type1_block (byte_len (pub_N pub)) (String b0 (String b1 rest)) m → P) →
    0 < String.length sig ≤ byte_len (pub_N pub) ∧ (be_value 0 sig < pub_N pub)%Z ∧
    type1_block (byte_len (pub_N pub)) (String b0 (String b1 rest)) m → P) as Hweak by tauto.
  destruct (decide (b0 ≠ NUL)) as [H0|H0%dec_stable]; [split; [done|]; split; [done|apply Hweak; intros (? & ? & _ & _ & [=] & _); done]|].
  destruct (decide (b1 ≠ chr 1)) as [H1|H1%dec_stable]; [split; [done|]; split; [done|apply Hweak; intros (? & ? & _ & _ & [=] & _); done]|].
  subst b0 b1. destruct (span_ff rest) as [n tail] eqn:Es.
  destruct (span_ff_split rest n tail Es) as (ff & -> & Hff).
  destruct tail as [|b tl].
  { split; [done|]. split; [done|]. apply Hweak. intros (n' & ff' & Hn & Hff' & [= Eq] & _).
    rewrite Eq in Es. by rewrite (span_ff_app ff' n') in Es. }
  destruct (decide (n + 2 < 10 ∨ b ≠ NUL)) as [Hbad|Hgood].
  - split; [done|]. split; [done|]. apply Hweak. intros (n' & ff' & Hn & Hff' & [= Eq] & _).
    rewrite Eq in Es. rewrite (span_ff_app ff' n') in Es by done. simplify_eq. destruct Hbad; [lia|done].
  - assert (b = NUL) as -> by (apply dec_stable; tauto). split; [done|]. split.
    + intros [= ->]. split_and!; [lia|lia|lia|]. exists n, ff. split_and!; [lia|done|done|done].
    + apply Hweak. intros (n' & ff' & Hn & Hff' & [= Eq] & _). rewrite Eq in Es.
      rewrite (span_ff_app ff' n') in Es by done. by simplify_eq.
Qed.

(** C36. The public-key operation gives the message a signature carries and nothing
    else: for any modulus it answers a message exactly when the signature is in
    range for the key and opens to a block of PKCS#1 type 1 (0, 1, at least eight
    bytes of padding, 0, the message), as long as the modulus. Any other signature
    is an error, but for one case: a modulus of one byte (below 256), for which
    a signature in range that opens to the byte zero is read past its end
    ([tiny_key_out_of_range]); with a modulus of two bytes or more no index is out
    of range. *)
Theorem public_decrypt_exact (pub : PublicKey) (sig m : string) (HN : (0 < pub_N pub)%Z) :
  let in_range := 0 < String.length sig ≤ byte_len (pub_N pub) ∧ (be_value 0 sig < pub_N pub)%Z in
  (rsaPublicDecrypt pub sig = Some (Ok m) ↔ in_range ∧ type1_block (byte_len (pub_N pub)) (opened pub sig) m) ∧
  (rsaPublicDecrypt pub sig = None ↔ in_range ∧ (pub_N pub < 256)%Z ∧ opened pub sig = String NUL "").
Proof.
  cbv zeta. destruct (decide (256 ≤ pub_N pub)%Z) as [H2|H2].
  { destruct (decrypt_long pub sig m H2) as [Hn Hm]. split; [rewrite Hm; tauto|]. split; [done|lia]. }
  assert (byte_len (pub_N pub) = 1) as Hk.
  { assert (byte_len (pub_N pub) ≤ byte_len 255) as Hle by (apply byte_len_mono; lia). change (byte_len 255) with 1 in Hle.
    assert (byte_len 1 ≤ byte_len (pub_N pub)) as Hge by (apply byte_len_mono; lia). change (byte_len 1) with 1 in Hge. lia. }
  pose proof (length_opened pub sig HN) as Hlen. rewrite Hk in Hlen.
  assert (¬ type1_block (byte_len (pub_N pub)) (opened pub sig) m) as Hno.
  { intros (n & ff & _ & _ & E & _). rewrite E in Hlen. cbn in Hlen. lia. }
  unfold rsaPublicDecrypt.
  destruct (decide (byte_len (pub_N pub) < String.length sig ∨ String.length sig = 0)) as [Hl|Hl]; [split; (split; [done|lia])|].
  destruct (decide (pub_N pub ≤ be_value 0 sig)%Z) as [Hc|Hc]; [split; (split; [done|lia])|].
  cbv zeta. rewrite decide_False by (by apply decrypted_fits).
  change (zero_bytes _ +:+ Bytes (be_value 0 sig ^ pub_E pub mod pub_N pub)) with (opened pub sig).
  destruct (opened pub sig) as [|b0 [|b1 rest]]; [cbn in Hlen; lia| |cbn in Hlen; lia].
  destruct (decide (b0 ≠ NUL)) as [H0|H0%dec_stable]; [|subst b0]; split; split; try done; try tauto.
  - intros (_ & _ & [= ->]). done.
  - intros _. split_and!; [lia..|done].
Qed.

(** ** A signed request verifies *)

Lemma digit_text (x : BinNums.N) (z : Z) : z = Z.of_N (x `mod` 10) → chr (48 + z) = pretty_N_char (x `mod` 10).
Proof.
  intros ->. assert (x `mod` 10 < 10)%N as Hm by (by apply N.mod_lt). revert Hm. generalize (x `mod` 10)%N. clear x.
  intros x Hx. assert (x ∈ [0; 1; 2; 3; 4; 5; 6; 7; 8; 9]%N) as Hin by (rewrite !elem_of_cons; lia).
  apply list_elem_of_In in Hin. repeat destruct Hin as [<-|Hin]; [reflexivity..|done].
Qed.

Lemma itoa_loop_pretty n : ∀ z acc, (0 ≤ z < 10 ^ Z.of_nat n)%Z → itoa_loop n z acc = pretty_N_go (Z.to_N z) acc.
Proof.
  induction n as [|n IH]; intros z acc Hz.
  - assert (z = 0%Z) as -> by (change (10 ^ Z.of_nat 0)%Z with 1%Z in Hz; lia). by rewrite pretty_N_go_0.
  - cbn [itoa_loop]. rewrite Nat2Z.inj_succ, Z.pow_succ_r in Hz by lia. destruct (decide (0 < z)%Z) as [Hp|Hp].
    + rewrite IH by zlia. rewrite (pretty_N_go_step (Z.to_N z)) by lia.
      assert (Z.to_N (z / 10) = Z.to_N z `div` 10)%N as -> by (rewrite Z2N.inj_div by lia; done).
      do 2 f_equal. apply digit_text. rewrite N2Z.inj_mod, Z2N.id by lia. done.
    + assert (z = 0%Z) as -> by lia. by rewrite pretty_N_go_0.
Qed.

Lemma itoa_pretty (i : nat) : (Z.of_nat i < 10 ^ 20)%Z → itoa (Z.of_nat i) = pretty i.
Proof.
  intros Hi. unfold itoa. destruct i as [|i]; [reflexivity|]. rewrite decide_False by lia.
  rewrite (itoa_loop_pretty 20) by (change (Z.of_nat 20) with 20%Z; lia).
  unfold pretty at 1, pretty_nat, pretty, pretty_N. rewrite decide_False by lia. done.
Qed.

(** Canonical names: the ones used are canonical already. *)
Definition digit_char (c : ascii) : bool := bool_decide (48 ≤ byte_of c ≤ 57)%Z.

Lemma canonical_digits s : str_forall digit_char s = true → ∀ up, canonical_key up s = s.
Proof.
  induction s as [|c s IH]; [done|]. cbn. intros [Hc Hs]%andb_prop up.
  unfold digit_char in Hc. apply bool_decide_eq_true in Hc. rewrite IH by done. f_equal.
  unfold upper_char, lower_char. destruct up; rewrite decide_False by lia; done.
Qed.

Lemma pretty_go_digits x : ∀ s, str_forall digit_char s = true → str_forall digit_char (pretty_N_go x s) = true.
Proof.
  induction (N.lt_wf_0 x) as [x _ IH]; intros s Hs. destruct (decide (x = 0)%N) as [->|Hx]; [by rewrite pretty_N_go_0|].
  rewrite pretty_N_go_step by lia. apply IH; [apply N.div_lt; lia|]. cbn. rewrite Hs, andb_true_r.
  rewrite <-(digit_text x (Z.of_N (x `mod` 10))) by done. unfold digit_char. apply bool_decide_eq_true.
  assert (x `mod` 10 < 10)%N as Hm by (by apply N.mod_lt). revert Hm. generalize (x `mod` 10)%N. intros y Hy.
  rewrite byte_of_chr; lia.
Qed.

Lemma chunk_key i : CanonicalHeaderKey (chunk_name i) = chunk_name i.
Proof.
  unfold CanonicalHeaderKey, chunk_name. cbn [String.append canonical_key].
  change (pretty i) with (if decide (N.of_nat i = 0)%N then "0" else pretty_N_go (N.of_nat i) "").
  rewrite canonical_digits; [reflexivity|]. case_decide; [done|]. by apply pretty_go_digits.
Qed.

Lemma chunk_name_inj i j : chunk_name i = chunk_name j → i = j.
Proof. unfold chunk_name. intros Hij. apply (inj (pretty (A := nat))). by injection Hij. Qed.

(** How many headers of 60 characters an encoded signature takes, and a key's. *)
Definition chunks_for (n : nat) : nat := (n + 59) / 60.
Definition key_chunks (pub : PublicKey) : nat := chunks_for (4 * ((byte_len (pub_N pub) + 2) / 3)).

Lemma chunks_step i n : 0 < n → S i + chunks_for (n - 60) = i + chunks_for n ∧ 0 < chunks_for n.
Proof.
  intros Hn. unfold chunks_for.
  pose proof (Nat.div_mod_eq (n - 60 + 59) 60). pose proof (Nat.mod_upper_bound (n - 60 + 59) 60 ltac:(lia)).
  pose proof (Nat.div_mod_eq (n + 59) 60). pose proof (Nat.mod_upper_bound (n + 59) 60 ltac:(lia)). lia.
Qed.

Section Chunks.
Context `{Unicode}.

(** Every chunk from [i] on, for [n] of them, is there. *)
Lemma full_size n h i : (∀ j, i ≤ j < i + n → Header_Get h (chunk_name j) ≠ "") → n ≤ size h.
Proof.
  intros Hfull. set (names := map chunk_name (seq i n)).
  assert (NoDup names) as Hnd.
  { apply NoDup_fmap_2; [intros ??; apply chunk_name_inj|apply NoDup_seq]. }
  assert (list_to_set names ⊆ dom h) as Hsub.
  { intros x Hx. apply elem_of_list_to_set, list_elem_of_fmap in Hx as (j & -> & Hj%elem_of_seq). apply elem_of_dom.
    specialize (Hfull j ltac:(lia)). unfold Header_Get in Hfull. rewrite chunk_key in Hfull.
    destruct (h !! chunk_name j); [by eexists|done]. }
  apply (subseteq_size (C := gset string)) in Hsub. rewrite size_dom, size_list_to_set in Hsub by done.
  unfold names in Hsub. by rewrite length_map, length_seq in Hsub.
Qed.

(** With fuel for one more header than there are, the loop stops by itself. *)
Lemma join_chunks_more n : ∀ m h i, n ≤ m → ¬ (∀ j, i ≤ j < i + n → Header_Get h (chunk_name j) ≠ "") →
  join_chunks n h i = join_chunks m h i.
Proof.
  induction n as [|n IH]; intros m h i Hm Hnot; [exfalso; apply Hnot; lia|].
  destruct m as [|m]; [lia|]. cbn [join_chunks]. case_decide as Hc; [done|]. f_equal. apply IH; [lia|].
  intros Hall. apply Hnot. intros j Hj. destruct (decide (j = i)) as [->|]; [done|]. apply Hall. lia.
Qed.

Lemma join_chunks_enough m h i : size h < m → join_chunks (S (size h)) h i = join_chunks m h i.
Proof. intros Hm. apply join_chunks_more; [lia|]. intros Hfull%full_size. lia. Qed.

Lemma set_chunks_other n : ∀ h i e name, (∀ j, i ≤ j → (Z.of_nat j < 10 ^ 20)%Z → name ≠ chunk_name j) →
  (Z.of_nat (i + n) < 10 ^ 20)%Z → set_chunks n h i e !! name = h !! name.
Proof.
  induction n as [|n IH]; intros h i e name Hname Hb; cbn [set_chunks]; [done|]. case_decide; [done|].
  rewrite IH; [|intros j Hj; apply Hname; lia|lia]. unfold Header_Set. rewrite itoa_pretty by lia.
  fold (chunk_name i). rewrite chunk_key, lookup_insert_ne; [done|]. intros E. by apply (Hname i); [lia|lia|].
Qed.

Lemma drop_space_text s : str_forall b64_text s = true → drop_space s = s.
Proof.
  destruct s as [|c s]; [done|]. cbn. intros [Hc _]%andb_prop. by destruct (b64_text_plain c Hc) as [_ ->].
Qed.

Lemma TrimSpace_text s : str_forall b64_text s = true → TrimSpace s = s.
Proof.
  intros Hs. unfold TrimSpace, is_ascii.
  rewrite (str_forall_impl b64_text is_ascii_char s) by (by intros c [? _]%b64_text_plain || done).
  rewrite (drop_space_text s), drop_space_text, str_rev_involutive by (by rewrite ?str_forall_rev). done.
Qed.

Lemma take_drop_text n s : str_forall b64_text s = true →
  str_forall b64_text (str_take n s) = true ∧ str_forall b64_text (str_drop n s) = true.
Proof. intros Hs. rewrite <-(str_take_drop n s), str_forall_app in Hs. by apply andb_prop in Hs. Qed.

Lemma str_take_nonempty n s : 0 < n → s ≠ "" → str_take n s ≠ "".
Proof. destruct n; [lia|]. by destruct s. Qed.

Lemma join_set_chunks n : ∀ m h i e, n < m → String.length e ≤ n → (Z.of_nat (i + n) < 10 ^ 20)%Z →
  str_forall b64_text e = true → Header_Get h (chunk_name (i + chunks_for (String.length e))) = "" →
  join_chunks m (set_chunks n h i e) i = e.
Proof.
  induction n as [|n IH]; intros [|m] h i e Hm Hn Hb He Hh; try lia.
  - destruct e; [|cbn in Hn; lia]. change (chunks_for (String.length "")) with 0 in Hh. rewrite Nat.add_0_r in Hh. cbn [set_chunks join_chunks]. by rewrite Hh.
  - cbn [set_chunks]. destruct (decide (e = "")) as [->|Hne].
    { change (chunks_for (String.length "")) with 0 in Hh. rewrite Nat.add_0_r in Hh. cbn [join_chunks]. by rewrite Hh. }
    destruct (take_drop_text 60 e He) as [Ht Hd].
    assert (Header_Set h ("X-Ops-Authorization-" +:+ itoa (Z.of_nat i)) (str_take 60 e)
      = <[chunk_name i := str_take 60 e]> h) as ->.
    { unfold Header_Set. rewrite itoa_pretty by lia. fold (chunk_name i). by rewrite chunk_key. }
    set (h1 := <[chunk_name i := str_take 60 e]> h).
    assert (Header_Get (set_chunks n h1 (S i) (str_drop 60 e)) (chunk_name i) = str_take 60 e) as Hget.
    { unfold Header_Get. rewrite chunk_key, set_chunks_other; [unfold h1; by rewrite lookup_insert_eq| |lia].
      intros j Hj _ ->%chunk_name_inj. lia. }
    cbn [join_chunks]. rewrite Hget, decide_False by (by apply str_take_nonempty; [lia|]).
    rewrite TrimSpace_text by done. transitivity (str_take 60 e +:+ str_drop 60 e); [|apply str_take_drop]. f_equal.
    apply IH; [lia| |lia|done|].
    + rewrite length_str_drop. assert (0 < String.length e) by (destruct e; cbn; [done|lia]). lia.
    + assert (S i + chunks_for (String.length (str_drop 60 e)) = i + chunks_for (String.length e) ∧ 0 < chunks_for (String.length e)) as [-> Hpos].
      { rewrite length_str_drop. assert (0 < String.length e) by (destruct e; cbn; [done|lia]). apply chunks_step. lia. }
      unfold Header_Get, h1 in *. rewrite chunk_key in *. rewrite lookup_insert_ne; [done|]. intros ?%chunk_name_inj. lia.
Qed.
End Chunks.

Section Roundtrip.
Context `{Unicode} `{UnicodeUpper} `{CryptoSpec}.

Lemma Header_Get_Set_other h name name' v :
  CanonicalHeaderKey name ≠ CanonicalHeaderKey name' → Header_Get (Header_Set h name v) name' = Header_Get h name'.
Proof. intros Hne. unfold Header_Get, Header_Set. by rewrite lookup_insert_ne. Qed.

Lemma Header_Get_Set h name v : Header_Get (Header_Set h name v) name = v.
Proof. unfold Header_Get, Header_Set. by rewrite lookup_insert_eq. Qed.

(** Setting the chunks leaves the other headers. *)
Lemma Get_signature_headers h sig name : (Z.of_nat (String.length (EncodeToString sig)) < 10 ^ 19)%Z →
  has_prefix "X-Ops-Authorization-" (CanonicalHeaderKey name) = false →
  Header_Get (setSignatureHeaders h sig) name = Header_Get h name.
Proof.
  intros Hb Hp. unfold Header_Get, setSignatureHeaders. rewrite set_chunks_other; [done| |lia].
  intros j _ _ E. rewrite E in Hp. unfold chunk_name, has_prefix in Hp. by rewrite cut_prefix_app in Hp.
Qed.

Lemma length_encoded s : String.length (EncodeToString s) ≤ 2 * String.length s + 4.
Proof. induction s as [|a|a b|a b c s IH] using string_ind3; cbn [EncodeToString String.length]; lia. Qed.

Lemma encoded_length s : String.length (EncodeToString s) = 4 * ((String.length s + 2) / 3).
Proof. induction s as [|a|a b|a b c s IH] using string_ind3; cbn [EncodeToString String.length]; [done..|].
  rewrite IH. replace (S (S (S (String.length s))) + 2) with (String.length s + 2 + 1 * 3) by lia. rewrite Nat.div_add by lia. lia.
Qed.

Lemma encoded_nonempty s : s ≠ "" → EncodeToString s ≠ "".
Proof. by destruct s as [|a [|b [|c s]]]. Qed.

Lemma joined_signature h sig : sig ≠ "" → (Z.of_nat (String.length sig) < 10 ^ 18)%Z →
  Header_Get h (chunk_name (S (chunks_for (String.length (EncodeToString sig))))) = "" → joinSignature (setSignatureHeaders h sig) = Ok sig.
Proof.
  intros Hne Hlen Hh. unfold joinSignature, setSignatureHeaders. set (e := EncodeToString sig).
  pose proof (length_encoded sig) as Hl. fold e in Hl. set (h' := set_chunks (String.length e) h 1 e).
  assert (join_chunks (S (size h')) h' 1 = e) as ->.
  { rewrite (join_chunks_enough (S (size h' + String.length e))) by lia.
    apply join_set_chunks; [lia|done|lia|apply encoded_text|exact Hh]. }
  rewrite decide_False by (by apply encoded_nonempty). apply DecodeString_encode.
Qed.

Lemma sign_description : parseSignDescription "algorithm=sha256;version=1.3;" = ("sha256", "1.3").
Proof. reflexivity. Qed.

(** The headers a signed request carries. *)
Lemma signed_headers h userID timestamp content sig : userID ≠ "" → sig ≠ "" →
  (Z.of_nat (String.length sig) < 10 ^ 18)%Z → Header_Get h (chunk_name (S (chunks_for (String.length (EncodeToString sig))))) = "" →
  let h' := setSignatureHeaders (Header_Set (Header_Set (Header_Set (Header_Set h "X-Ops-Sign" "algorithm=sha256;version=1.3;")
    "X-Ops-Userid" userID) "X-Ops-Timestamp" timestamp) "X-Ops-Content-Hash" content) sig in
  Parse h' = Ok (mkParsed "1.3" "sha256" userID timestamp content sig) ∧
  Header_Get h' "X-Ops-Server-API-Version" = Header_Get h "X-Ops-Server-API-Version" ∧
  Header_Get h' "X-Ops-Request-Source" = Header_Get h "X-Ops-Request-Source".
Proof.
  intros Hu Hs Hl Hh h'. pose proof (length_encoded sig) as Hle.
  assert (∀ name, has_prefix "X-Ops-Authorization-" (CanonicalHeaderKey name) = false →
    Header_Get h' name = Header_Get (Header_Set (Header_Set (Header_Set (Header_Set h "X-Ops-Sign"
      "algorithm=sha256;version=1.3;") "X-Ops-Userid" userID) "X-Ops-Timestamp" timestamp) "X-Ops-Content-Hash" content) name) as Hget.
  { intros name Hname. apply Get_signature_headers; [lia|done]. }
  assert (joinSignature h' = Ok sig) as Hj.
  { apply joined_signature; try done. rewrite <-Hh. unfold Header_Get, Header_Set. rewrite chunk_key.
    rewrite !lookup_insert_ne; [done|..]; (intros E; apply (f_equal (has_prefix "X-Ops-A")) in E; discriminate E). }
  split_and!.
  - unfold Parse. rewrite !Hget, Hj by reflexivity.
    rewrite !Header_Get_Set, !(Header_Get_Set_other _ "X-Ops-Content-Hash"), !(Header_Get_Set_other _ "X-Ops-Timestamp"),
      !(Header_Get_Set_other _ "X-Ops-Userid"), !Header_Get_Set by done.
    rewrite decide_False by done. rewrite sign_description. by decide_literals.
  - rewrite Hget by reflexivity. by rewrite !Header_Get_Set_other by done.
  - rewrite Hget by reflexivity. by rewrite !Header_Get_Set_other by done.
Qed.

(** A request signed for a user and a time, as the server reads it. *)
Lemma sign_verifies (method path : string) (h h' : header) (userID timestamp body : string) (key : PrivateKey) :
  userID ≠ "" → Header_Get h (chunk_name (S (key_chunks (public_of key)))) = "" → (0 < BitLen (pub_N (public_of key)) < 2 ^ 32)%Z →
  SignRequest method path h userID timestamp body key = Ok h' →
  ∃ p, Parse h' = Ok p ∧ UserID p = userID ∧ Timestamp p = timestamp ∧ Version p = "1.3" ∧
    Header_Get h' "X-Ops-Request-Source" = Header_Get h "X-Ops-Request-Source" ∧
    Verify method path body p (Header_Get h' "X-Ops-Server-API-Version") (public_of key) = Some (Ok tt).
Proof.
  intros Huser Hfresh Hkey Hsigned.
  unfold SignRequest in Hsigned. destruct (SignPKCS1v15 key _) as [sig|e] eqn:Es; [|done]. injection Hsigned as <-.
  destruct (pkcs1_signed _ _ _ Es) as [Hv Hl]. cbn [ContentHash].
  assert (sig ≠ "" ∧ (Z.of_nat (String.length sig) < 10 ^ 18)%Z) as [Hne Hlt].
  { unfold byte_len in Hl. split; [intros ->; cbn in Hl; zlia|rewrite Hl; zlia]. }
  destruct (signed_headers h userID timestamp (hashB64 sha256_Sum body) sig) as (Hp & Hg & Hsrc); try done.
  { by rewrite encoded_length, Hl. }
  eexists. split_and!; [exact Hp|done..|exact Hsrc|]. rewrite Hg. unfold Verify. decide_literals.
  cbn [Version Signature]. unfold canonicalString in Hv |- *. cbn [Version Algorithm Timestamp UserID] in *. by rewrite Hv.
Qed.
End Roundtrip.

(** C34. A request signed with a key verifies under its public half, as the user and
    time it was signed for, whatever its method, path and body: the signature
    survives base64 and its split over numbered headers. The request may carry
    any headers before it is signed, but for one: a value already under the
    number that follows the last one the signature of this key takes, which the
    signer leaves there and the reader appends ([leftover_chunk_breaks]). The user is
    named and the modulus is of fewer than 2^32 bits. *)
Theorem signed_requests_verify `{Unicode} `{UnicodeUpper} `{CryptoSpec} (method path : string) (h h' : header)
    (userID timestamp body : string) (key : PrivateKey)
    (Huser : userID ≠ "") (Hfresh : Header_Get h (chunk_name (S (key_chunks (public_of key)))) = "")
    (Hkey : (0 < BitLen (pub_N (public_of key)) < 2 ^ 32)%Z)
    (Hsigned : SignRequest method path h userID timestamp body key = Ok h') :
  VerifyRequest method path body h' (public_of key) = Some (Ok tt) ∧
  ∃ p, Parse h' = Ok p ∧ UserID p = userID ∧ Timestamp p = timestamp.
Proof.
  destruct (sign_verifies method path h h' userID timestamp body key) as (p & Hp & Hu & Ht & _ & _ & Hv); try done.
  split; [|eauto]. unfold VerifyRequest. by rewrite Hp.
Qed.

(** ** What a signature covers *)

Lemma ReplaceAll_cons2 a b s : ReplaceAll_slashes (String a (String b s)) =
  if decide (a = "/"%char ∧ b = "/"%char) then String "/" (ReplaceAll_slashes s) else String a (ReplaceAll_slashes (String b s)).
Proof. done. Qed.

(** Characters, two at a time. *)
Lemma string_ind2 (P : string → Prop) : P "" → (∀ a, P (String a "")) →
  (∀ a b s, P s → P (String b s) → P (String a (String b s))) → ∀ s, P s.
Proof.
  intros H0 H1 H2 s. assert (P s ∧ ∀ c, P (String c s)) as [? _]; [|done].
  induction s as [|c s [IH1 IH2]]; [done|]. split; [done|]. intros a. by apply H2.
Qed.

Lemma ReplaceAll_le s : String.length (ReplaceAll_slashes s) ≤ String.length s.
Proof.
  induction s as [|a|a b s IH1 IH2] using string_ind2; [done..|]. rewrite ReplaceAll_cons2.
  case_decide; cbn [String.length] in *; lia.
Qed.

Lemma double_slash_shrinks s : has_double_slash s = true → String.length (ReplaceAll_slashes s) < String.length s.
Proof.
  induction s as [|a|a b s IH1 IH2] using string_ind2; [done|cbn; by rewrite bool_decide_false by naive_solver|]. rewrite ReplaceAll_cons2.
  change (has_double_slash (String a (String b s))) with
    (bool_decide (a = "/"%char ∧ Some b = Some "/"%char) || has_double_slash (String b s)).
  pose proof (ReplaceAll_le s). case_decide as Hab; [cbn [String.length] in *; lia|].
  rewrite bool_decide_false by naive_solver. cbn [orb]. intros Hd%IH2. cbn [String.length] in *. lia.
Qed.

Lemma collapse_loop_single n : ∀ s, String.length s ≤ n → has_double_slash (collapse_loop n s) = false.
Proof.
  induction n as [|n IH]; intros s Hn; [by destruct s; [|cbn in Hn; lia]|]. cbn [collapse_loop].
  destruct (has_double_slash s) eqn:Hd; [|done]. apply IH. pose proof (double_slash_shrinks s Hd). lia.
Qed.

(** The names a path is made of. *)
Definition path_names (s : string) : list string := filter (λ w, w ≠ "") (split_on "/" s).

Lemma split_replaced s : ∃ w l l', split_on "/" s = w :: l ∧ split_on "/" (ReplaceAll_slashes s) = w :: l' ∧
  filter (λ w, w ≠ "") l' = filter (λ w, w ≠ "") l.
Proof.
  induction s as [|a|a b s IH1 IH2] using string_ind2; [by exists "", [], []| |].
  - change (ReplaceAll_slashes (String a "")) with (String a "").
    destruct (split_on "/" (String a "")) as [|w l] eqn:E; [by apply split_on_nonempty in E|]. by exists w, l, l.
  - rewrite ReplaceAll_cons2. destruct (decide (a = "/"%char ∧ b = "/"%char)) as [[-> ->]|Hab].
    + destruct IH1 as (w & l & l' & E & E' & Hf). exists "", ("" :: w :: l), (w :: l'). cbn [split_on]. rewrite E, E'.
      split_and!; [done..|]. rewrite (filter_cons_False _ ""), !filter_cons by tauto. by rewrite Hf.
    + destruct IH2 as (w & l & l' & E & E' & Hf).
      assert (∀ t, split_on "/" (String a t) = if decide (a = "/"%char) then "" :: split_on "/" t
        else match split_on "/" t with w :: ws => String a w :: ws | [] => [String a ""] end) as Hsp by done.
      rewrite !Hsp, E, E'. destruct (decide (a = "/"%char)).
      * exists "", (w :: l), (w :: l'). split_and!; [done..|]. rewrite !filter_cons. by rewrite Hf.
      * by exists (String a w), l, l'.
Qed.

Lemma path_names_replaced s : path_names (ReplaceAll_slashes s) = path_names s.
Proof.
  unfold path_names. destruct (split_replaced s) as (w & l & l' & -> & -> & Hf). rewrite !filter_cons. by rewrite Hf.
Qed.

Lemma path_names_collapse n : ∀ s, path_names (collapse_loop n s) = path_names s.
Proof.
  induction n as [|n IH]; intros s; [done|]. cbn [collapse_loop]. destruct (has_double_slash s); [|done].
  by rewrite IH, path_names_replaced.
Qed.

Lemma ReplaceAll_head s : head_char s = Some "/"%char → head_char (ReplaceAll_slashes s) = Some "/"%char.
Proof. destruct s as [|a [|b s]]; [done..|]. rewrite ReplaceAll_cons2. by case_decide. Qed.

Lemma collapse_head n : ∀ s, head_char s = Some "/"%char → head_char (collapse_loop n s) = Some "/"%char.
Proof.
  induction n as [|n IH]; intros s Hs; [done|]. cbn [collapse_loop]. destruct (has_double_slash s); [|done].
  by apply IH, ReplaceAll_head.
Qed.

(** Without repeated slashes, only the first and the last word can be empty. *)
Lemma split_single s : has_double_slash s = false → ∃ w ws tail,
  split_on "/" s = w :: ws ++ tail ∧ Forall (λ x, x ≠ "") ws ∧ (tail = [] ∨ tail = [""]) ∧
  (w = "" → s = "" ∨ head_char s = Some "/"%char).
Proof.
  induction s as [|c s IH]; [by exists "", [], []; auto|]. cbn [has_double_slash]. intros [Hc Hs]%orb_false_iff.
  apply bool_decide_eq_false in Hc. destruct (IH Hs) as (w & ws & tail & E & Hws & Ht & Hw). cbn [split_on]. rewrite E.
  destruct (decide (c = "/"%char)) as [->|Hne].
  - destruct (decide (w = "")) as [->|Hnw].
    + destruct (Hw eq_refl) as [->|Hh]; [|by exfalso; apply Hc]. injection E as E.
      destruct ws; [|done]. destruct tail; [|done]. exists "", [], [""]. split_and!; auto.
    + exists "", (w :: ws), tail. split_and!; auto.
  - exists (String c w), ws, tail. split_and!; auto. done.
Qed.

Lemma trim_suffix_app x : trim_suffix_slash (x +:+ "/") = x.
Proof. unfold trim_suffix_slash. rewrite str_rev_app_str.
  change (str_rev "/" +:+ str_rev x) with (String "/" (str_rev x)). cbn match. destruct (decide _); [apply str_rev_involutive|done].
Qed.

Lemma trim_suffix_other s : trim_suffix_slash s ≠ s → ∃ x, s = x +:+ "/".
Proof.
  unfold trim_suffix_slash. destruct (str_rev s) as [|c r] eqn:E; [done|]. case_decide as Hc; [|done]. intros _.
  exists (str_rev r). by rewrite <-(str_rev_involutive s), E, str_rev_cons, Hc.
Qed.

Lemma join_snoc l : l ≠ [] → join "/" (l ++ [""]) = join "/" l +:+ "/".
Proof.
  induction l as [|x [|y l] IH]; intros Hl; [done|by cbn|].
  change (join "/" ((x :: y :: l) ++ [""])) with (x +:+ "/" +:+ join "/" ((y :: l) ++ [""])).
  rewrite IH by done. change (join "/" (x :: y :: l)) with (x +:+ "/" +:+ join "/" (y :: l)). by rewrite !app_string_assoc.
Qed.

Lemma filter_nonempty (l : list string) : Forall (λ x, x ≠ "") l → filter (λ w, w ≠ "") l = l.
Proof. induction 1 as [|x l Hx Hl IH]; [done|]. rewrite filter_cons_True by done. by rewrite IH. Qed.

(** The canonical path is the names of the path, each after a slash. *)
Lemma canonical_path_names path : head_char path = Some "/"%char →
  canonicalPath path = "/" +:+ join "/" (path_names path).
Proof.
  intros Hh. unfold canonicalPath. set (p := collapse_loop (String.length path) path).
  assert (has_double_slash p = false) as Hd by (by apply collapse_loop_single).
  assert (head_char p = Some "/"%char) as Hp by (by apply collapse_head).
  rewrite <-(path_names_collapse (String.length path) path). fold p. clearbody p. clear path Hh.
  destruct (split_single p Hd) as (w & ws & tail & E & Hws & Ht & _).
  destruct p as [|c t]; [done|]. injection Hp as ->. cbn [split_on] in E. rewrite decide_True in E by done.
  injection E as <- E. assert (path_names (String "/" t) = ws) as ->.
  { unfold path_names. cbn [split_on]. rewrite decide_True by done. rewrite E, filter_cons_False by tauto.
    rewrite filter_app, filter_nonempty by done. destruct Ht as [->| ->]; by rewrite app_nil_r. }
  assert (t = join "/" (ws ++ tail)) as Et by (by rewrite <-E, join_split).
  destruct Ht as [->| ->].
  - rewrite app_nil_r in E, Et. assert (trim_suffix_slash (String "/" t) = String "/" t) as ->.
    { destruct (decide (trim_suffix_slash (String "/" t) = String "/" t)) as [|[x Hx]%trim_suffix_other]; [done|].
      exfalso. apply (f_equal (split_on "/")) in Hx. rewrite split_on_app_any in Hx. cbn [split_on] in Hx.
      rewrite decide_True, E in Hx by done.
      destruct ws as [|y ws _] using rev_ind; [by apply split_on_nonempty in E|].
      rewrite app_comm_cons in Hx. apply app_inj_tail in Hx as [_ ->]. apply Forall_app in Hws as [_ Hy].
      by apply Forall_cons in Hy as [? _]. }
    rewrite Et. by repeat case_decide.
  - destruct ws as [|y ws]; [by rewrite Et|]. set (l := y :: ws) in *. rewrite join_snoc in Et by done.
    rewrite Et. change (String "/" (join "/" l +:+ "/")) with (String "/" (join "/" l) +:+ "/").
    rewrite !(decide_True (P := 1 < _)) by (rewrite length_app_string; cbn [String.length]; lia).
    rewrite trim_suffix_app. by rewrite decide_False.
Qed.

Definition one_line (s : string) : Prop := ¬ str_in (chr 10) s.

Lemma one_line_app a b : one_line a → one_line b → one_line (a +:+ b).
Proof. unfold one_line. rewrite str_in_app. tauto. Qed.

Lemma one_line_plain s : str_forall (λ c, bool_decide (c ≠ chr 10)) s = true → one_line s.
Proof. intros Hs Hin. pose proof (str_forall_in _ _ _ Hs Hin) as Hbad. by apply bool_decide_eq_true in Hbad. Qed.

Lemma one_line_encoded s : one_line (EncodeToString s).
Proof. intros Hin. pose proof (str_forall_in _ _ _ (encoded_text s) Hin) as Ht. discriminate Ht. Qed.

Lemma split_on_in (c : ascii) s : ∀ w, w ∈ split_on "/" s → str_in c w → str_in c s.
Proof.
  induction s as [|d s IH]; intros w; cbn [split_on]; [intros ->%list_elem_of_singleton; done|]. cbn [str_in].
  case_decide; [intros [->|Hw]%elem_of_cons; [done|]; intros Hc; right; by eapply IH|].
  destruct (split_on "/" s) as [|x l] eqn:E; [by apply split_on_nonempty in E|].
  intros [->|Hw]%elem_of_cons; cbn [str_in].
  - intros [->|Hc]; [by left|]. right. apply (IH x); [by left|done].
  - intros Hc. right. apply (IH w); [by right|done].
Qed.

Lemma one_line_join l : Forall one_line l → one_line (join "/" l).
Proof.
  induction 1 as [|x [|y l] Hx Hl IH]; [by intros []|done|].
  change (join "/" (x :: y :: l)) with (x +:+ "/" +:+ join "/" (y :: l)). apply one_line_app; [done|].
  apply one_line_app; [|done]. by apply one_line_plain.
Qed.

Lemma one_line_canonical path : head_char path = Some "/"%char → one_line path → one_line (canonicalPath path).
Proof.
  intros Hh Hp. rewrite canonical_path_names by done. apply one_line_app; [by apply one_line_plain|]. apply one_line_join, Forall_forall.
  intros w [_ Hw]%list_elem_of_filter Hc. apply Hp. by eapply split_on_in.
Qed.

Lemma path_names_join_inj a b : Forall (λ x, x ≠ "" ∧ ¬ str_in "/" x) a → Forall (λ x, x ≠ "" ∧ ¬ str_in "/" x) b →
  join "/" a = join "/" b → a = b.
Proof.
  assert (∀ l : list string, Forall (λ x, x ≠ "" ∧ ¬ str_in "/" x) l → filter (λ w, w ≠ "") (split_on "/" (join "/" l)) = l) as Hback.
  { intros [|x l] Hl; [done|]. rewrite split_on_join; [|done|eapply Forall_impl; [exact Hl|by intros ? []]].
    apply filter_nonempty. eapply Forall_impl; [exact Hl|by intros ? []]. }
  intros Ha Hb E. by rewrite <-(Hback a), <-(Hback b), E.
Qed.

Lemma path_names_words s : Forall (λ x, x ≠ "" ∧ ¬ str_in "/" x) (path_names s).
Proof.
  apply Forall_forall. intros w [Hne Hw]%list_elem_of_filter. split; [done|].
  pose proof (split_on_parts "/" s) as Hparts. rewrite Forall_forall in Hparts. by apply Hparts.
Qed.

Section Binding.
Context `{Unicode} `{UnicodeUpper} `{CryptoSpec}.

(** Two inputs that the digests at hand tell apart. *)
Definition no_collision (p p' : Parsed) (x y : string) : Prop :=
  newDigest (Algorithm p) x = newDigest (Algorithm p') y → x = y.

Definition api_version (v : string) : string := if decide (v = "") then "0" else v.

(** The lines of the canonical string. *)
Definition signed_lines (method path body : string) (p : Parsed) (v : string) : list string :=
  let digest := newDigest (Algorithm p) in
  if decide (Version p = "1.3") then
    ["Method:" +:+ ToUpper method; "Path:" +:+ canonicalPath path; "X-Ops-Content-Hash:" +:+ hashB64 digest body;
     "X-Ops-Sign:version=" +:+ Version p; "X-Ops-Timestamp:" +:+ Timestamp p; "X-Ops-UserId:" +:+ UserID p;
     "X-Ops-Server-API-Version:" +:+ api_version v]
  else
    ["Method:" +:+ ToUpper method; "Hashed Path:" +:+ hashB64 digest (canonicalPath path);
     "X-Ops-Content-Hash:" +:+ hashB64 digest body; "X-Ops-Timestamp:" +:+ Timestamp p;
     "X-Ops-UserId:" +:+ (if decide (Version p = "1.1") then hashB64 digest (UserID p) else UserID p)].

Lemma canonicalString_lines method path body p v :
  canonicalString method path body p v = join newline (signed_lines method path body p v).
Proof. unfold canonicalString, signed_lines. by case_decide. Qed.

Lemma canonicalString_split method path body p v : head_char path = Some "/"%char →
  Forall one_line [ToUpper method; path; Timestamp p; UserID p; v; Version p] →
  split_on (chr 10) (canonicalString method path body p v) = signed_lines method path body p v.
Proof.
  intros Hh Hl. rewrite canonicalString_lines. unfold newline. rewrite !Forall_cons in Hl.
  destruct Hl as (Hm & Hp & Ht & Hu & Hv & Hver & _). pose proof (one_line_canonical path Hh Hp) as Hc.
  assert (∀ prefix s, str_forall (λ c, bool_decide (c ≠ chr 10)) prefix = true → one_line s → one_line (prefix +:+ s)) as Hpre.
  { intros prefix s Hprefix Hs. apply one_line_app; [by apply one_line_plain|done]. }
  assert (one_line (api_version v)) as Ha by (unfold api_version; case_decide; [by apply one_line_plain|done]).
  apply split_on_join; unfold signed_lines; case_decide; try done;
    repeat (apply Forall_cons; split; [apply Hpre; [reflexivity|first [done|apply one_line_encoded|idtac]]|]); try apply Forall_nil; try done.
  case_decide; [apply one_line_encoded|done].
Qed.

(** One signature, one canonical string. *)
Lemma verified_string m path body p v m' path' body' p' v' pub :
  Version p = Version p' → Signature p = Signature p' →
  (sha256_Sum (canonicalString m path body p v) = sha256_Sum (canonicalString m' path' body' p' v') →
   canonicalString m path body p v = canonicalString m' path' body' p' v') →
  Verify m path body p v pub = Some (Ok tt) → Verify m' path' body' p' v' pub = Some (Ok tt) →
  canonicalString m path body p v = canonicalString m' path' body' p' v'.
Proof.
  intros Hver Hsig Hsha. unfold Verify. rewrite Hver, Hsig. case_decide.
  - destruct (rsaPublicDecrypt pub (Signature p')) as [[rec|e]|]; [|done..]. case_decide; [|done]. case_decide; [|done].
    congruence.
  - case_decide; [|done]. destruct (VerifyPKCS1v15 _ _ _) eqn:E1; [|done]. destruct (VerifyPKCS1v15 _ (sha256_Sum (canonicalString m' _ _ _ _)) _) eqn:E2; [|done].
    intros _ _. apply Hsha. by eapply pkcs1_digest.
Qed.
End Binding.

(** C30. A signature authorizes one request: two requests that verify with the same
    signature under the same key and protocol version have the same method up to
    letter case ([ToUpper]), the same path name by name ([path_names]: repeated
    and trailing slashes aside), the same body, the same time and the same user,
    and with version 1.3 the same API version, provided the digests do not
    collide on what they hash (bodies, paths, users and the two canonical
    strings). The lines of the canonical string cannot be shifted into one
    another: no header value, method or path holds a line feed, and paths start
    with a slash. *)
Theorem signature_binds_request `{Unicode} `{UnicodeUpper} `{CryptoSpec} (m path body v m' path' body' v' : string)
    (p p' : Parsed) (pub : PublicKey)
    (Hver : Version p = Version p') (Hsig : Signature p = Signature p')
    (Hlines : Forall one_line [ToUpper m; path; Timestamp p; UserID p; v; Version p])
    (Hlines' : Forall one_line [ToUpper m'; path'; Timestamp p'; UserID p'; v'; Version p'])
    (Habs : head_char path = Some "/"%char) (Habs' : head_char path' = Some "/"%char)
    (Hbody : no_collision p p' body body') (Hpath : no_collision p p' (canonicalPath path) (canonicalPath path'))
    (Huser : no_collision p p' (UserID p) (UserID p'))
    (Hsha : sha256_Sum (canonicalString m path body p v) = sha256_Sum (canonicalString m' path' body' p' v') →
            canonicalString m path body p v = canonicalString m' path' body' p' v')
    (Hok : Verify m path body p v pub = Some (Ok tt)) (Hok' : Verify m' path' body' p' v' pub = Some (Ok tt)) :
  ToUpper m = ToUpper m' ∧ path_names path = path_names path' ∧ body = body' ∧
  Timestamp p = Timestamp p' ∧ UserID p = UserID p' ∧ (Version p = "1.3" → api_version v = api_version v').
Proof.
  pose proof (verified_string m path body p v m' path' body' p' v' pub Hver Hsig Hsha Hok Hok') as Hs.
  apply (f_equal (split_on (chr 10))) in Hs. rewrite !canonicalString_split in Hs by done.
  assert (canonicalPath path = canonicalPath path' → path_names path = path_names path') as Hnames.
  { rewrite !canonical_path_names by done. intros [= Hj]. apply path_names_join_inj in Hj; [done|apply path_names_words..]. }
  unfold signed_lines in Hs. rewrite <-Hver in Hs. unfold hashB64 in Hs. destruct (decide (Version p = "1.3")) as [H13|H13].
  - injection Hs as Em Ep Ec Et Eu Ea. apply EncodeToString_inj, Hbody in Ec. split_and!; auto.
  - destruct (decide (Version p = "1.1")) as [H11|H11]; injection Hs as Em Ep Ec Et Eu;
      apply EncodeToString_inj, Hbody in Ec; apply EncodeToString_inj, Hpath in Ep;
      [apply EncodeToString_inj, Huser in Eu|]; split_and!; try done; auto; by intros ?%H13.
Qed.

(** ** The key cache *)

Section Cache.
Context (ParsePublicKey : string → result PublicKey).

Abbreviation PublicKeyCache := (gmap string PublicKey).
Definition NewPublicKeyCache : PublicKeyCache := ∅.

Definition Cache_Parse (pem : string) (c : PublicKeyCache) : result PublicKey * PublicKeyCache :=
  match c !! pem with
  | Some key => (Ok key, c)
  | None => match ParsePublicKey pem with
            | Err e => (Err e, c)
            | Ok key => (Ok key, <[pem := key]> c)
            end
  end.

(** Every key kept is the one its text parses to. *)
Definition cache_ok (c : PublicKeyCache) : Prop := ∀ pem key, c !! pem = Some key → ParsePublicKey pem = Ok key.

Lemma Cache_Parse_ok pem c : cache_ok c → (Cache_Parse pem c).1 = ParsePublicKey pem ∧ cache_ok (Cache_Parse pem c).2.
Proof.
  intros Hc. unfold Cache_Parse. destruct (c !! pem) as [key|] eqn:E; [by rewrite (Hc _ _ E)|].
  destruct (ParsePublicKey pem) as [key|e] eqn:Ep; [|done]. split; [done|]. intros pem' key'. cbn [snd].
  destruct (decide (pem = pem')) as [->|Hne]; [rewrite lookup_insert_eq; congruence|rewrite lookup_insert_ne by done; apply Hc].
Qed.
End Cache.

(** ** Samples *)

(** A toy scheme: the digest keeps eight bytes, and a signature is the digest. *)
Definition toy_digest (s : string) : string := str_take 8 (s +:+ "        ").
Definition toy_key : PublicKey := mkPublicKey (2 ^ 63) 3.
Definition toy_crypto : Crypto :=
  {| sha1_Sum := toy_digest; sha256_Sum := toy_digest; PrivateKey := unit; public_of := λ _, toy_key;
     SignPKCS1v15 := λ _ d, if decide (String.length d = 8) then Ok d else Err (ErrOther "digest length");
     VerifyPKCS1v15 := λ _ d sig, bool_decide (d = sig) |}.
Definition toy_spec : @CryptoSpec toy_crypto.
Proof.
  split.
  - intros key d sig. cbn. case_decide; [|done]. intros [= <-]. split; [by rewrite bool_decide_true|done].
  - intros pub d d' sig H1%bool_decide_eq_true H2%bool_decide_eq_true. congruence.
Defined.
Definition toy_upper : UnicodeUpper := λ s, s.

Definition sample_headers : header := {[ "X-Ops-Server-Api-Version" := "1" ]}.
Definition signed_sample : result header :=
  SignRequest (H0 := toy_upper) (H1 := toy_crypto) "get" "//organizations/acme//nodes/" sample_headers "alice"
    "2026-01-01T00:00:00Z" "{}" tt.

(** A value left under the number after the last: the request signed does not
    verify. *)
Example leftover_chunk_breaks :
  let h := <[ chunk_name 2 := "AAAA" ]> sample_headers in
  match SignRequest (H0 := toy_upper) (H1 := toy_crypto) "get" "/nodes" h "alice" "2026-01-01T00:00:00Z" "{}" tt with
  | Ok h' => is_Ok (Parse (H := caseless_unicode) h') = false
  | Err _ => False
  end.
Proof. vm_compute. reflexivity. Qed.

Lemma signed_requests_verify_witness :
  match signed_sample with
  | Ok h => VerifyRequest (H := caseless_unicode) (H0 := toy_upper) (H1 := toy_crypto)
              "get" "//organizations/acme//nodes/" "{}" h toy_key = Some (Ok tt)
  | Err _ => False
  end.
Proof.
  assert (is_Ok signed_sample = true) as Eok by (vm_compute; reflexivity). revert Eok.
  generalize (eq_refl signed_sample). generalize signed_sample at 1 3 4. intros [h|e] E Eok; [|discriminate Eok].
  apply (signed_requests_verify (H := caseless_unicode) (H0 := toy_upper) (H1 := toy_crypto) (H2 := toy_spec)
    "get" "//organizations/acme//nodes/" sample_headers h "alice" "2026-01-01T00:00:00Z" "{}" tt).
  - discriminate.
  - vm_compute. reflexivity.
  - vm_compute. split; reflexivity.
  - exact (eq_sym E).
Defined.

(** Digests that never collide. *)
Definition plain_crypto : Crypto :=
  {| sha1_Sum := id; sha256_Sum := id; PrivateKey := unit; public_of := λ _, toy_key;
     SignPKCS1v15 := λ _ d, if decide (String.length d = 8) then Ok d else Err (ErrOther "digest length");
     VerifyPKCS1v15 := λ _ d sig, bool_decide (d = sig) |}.
Definition plain_spec : @CryptoSpec plain_crypto.
Proof.
  split.
  - intros key d sig. cbn. case_decide; [|done]. intros [= <-]. split; [by rewrite bool_decide_true|done].
  - intros pub d d' sig H1%bool_decide_eq_true H2%bool_decide_eq_true. congruence.
Defined.

(** A request and its signature. *)
Definition plain_unsigned (sig : string) : Parsed := mkParsed "1.3" "sha256" "alice" "2026-01-01T00:00:00Z" (EncodeToString "{}") sig.
Definition plain_parsed : Parsed := plain_unsigned
  (canonicalString (H0 := toy_upper) (H1 := plain_crypto) "get" "//organizations/acme//nodes/" "{}" (plain_unsigned "") "1").

(** The signature of a request verifies for it, and for another spelling of its
    method and path; with any other body it does not. *)
Lemma signature_binds_request_witness :
  Verify (H0 := toy_upper) (H1 := plain_crypto) "get" "//organizations/acme//nodes/" "{}" plain_parsed "1" toy_key = Some (Ok tt) ∧
  Verify (H0 := toy_upper) (H1 := plain_crypto) "GET" "/organizations/acme/nodes" "{}" plain_parsed "1" toy_key = Some (Ok tt) ∧
  ∀ body', Verify (H0 := toy_upper) (H1 := plain_crypto) "GET" "/organizations/acme/nodes" body' plain_parsed "1" toy_key = Some (Ok tt) → body' = "{}".
Proof.
  assert (Verify (H0 := toy_upper) (H1 := plain_crypto) "get" "//organizations/acme//nodes/" "{}" plain_parsed "1" toy_key = Some (Ok tt)) as Hv
    by (vm_compute; reflexivity).
  split; [exact Hv|]. split; [vm_compute; reflexivity|]. intros body' Hv'. symmetry.
  refine (proj1 (proj2 (proj2 (signature_binds_request (H := caseless_unicode) (H0 := toy_upper) (H1 := plain_crypto) (H2 := plain_spec)
    "get" "//organizations/acme//nodes/" "{}" "1" "GET" "/organizations/acme/nodes" body' "1" plain_parsed plain_parsed toy_key
    eq_refl eq_refl _ _ eq_refl eq_refl _ _ _ _ Hv Hv')))).
  1, 2: repeat (apply Forall_cons; split; [apply one_line_plain; reflexivity|]); apply Forall_nil; exact I.
  all: intros E; exact E.
Defined.

(** A key of 64 bits is too short for any type 1 block; one of 16 bytes opens
    what was padded for it, here with exponent one. *)
Definition padded_block : string := String NUL (String (chr 1) (be_bytes 8 (2 ^ 64 - 1) (String NUL "hello"))).

Lemma public_decrypt_exact_witness : rsaPublicDecrypt (mkPublicKey (2 ^ 128 - 1) 1) padded_block = Some (Ok "hello").
Proof.
  apply (public_decrypt_exact (mkPublicKey (2 ^ 128 - 1) 1) padded_block "hello"); [cbn; lia|].
  split; [split; [vm_compute; lia|vm_compute; reflexivity]|]. exists 8, (be_bytes 8 (2 ^ 64 - 1) "").
  split_and!; [lia|vm_compute; reflexivity..].
Defined.

(** A modulus of one byte is read out of range by the signature zero. *)
Example tiny_key_out_of_range : rsaPublicDecrypt (mkPublicKey 15 3) (String NUL "") = None.
Proof. reflexivity. Qed.
