(* ===== verification/Time.v ===== *)
(** * Go time: RFC 3339 timestamps

    The parts of package time the server uses: [time.Parse] of the RFC 3339
    layout (its general reader, which takes all that the fast path takes), the
    calendar behind it, and [Time.Sub]. *)
From S2P Require Import Prelude GoText Json Presign.
#[local] Open Scope Z_scope.

(** ** The calendar *)

Definition isLeap (year : Z) : bool :=
  bool_decide (year mod 4 = 0 ∧ (year mod 100 ≠ 0 ∨ year mod 400 = 0)).

Definition daysIn (month year : Z) : Z :=
  if decide (month = 2) then (if isLeap year then 29 else 28)
  else if decide (month = 4 ∨ month = 6 ∨ month = 9 ∨ month = 11) then 30 else 31.

(** Days before a month of the year. *)
Fixpoint days_before (n : nat) (month year : Z) : Z :=
  match n with
  | O => 0
  | S n' => if decide (1 < month) then daysIn (month - 1) year + days_before n' (month - 1) year else 0
  end.

(** Days from the first day of year 1, in the proleptic calendar. *)
Definition days_of (year month day : Z) : Z :=
  let y := year - 1 in
  365 * y + y / 4 - y / 100 + y / 400 + days_before 12 month year + (day - 1).

(** [time.Date] in UTC, as seconds since the epoch. *)
Definition Date (year month day hour minute sec : Z) : Z :=
  (days_of year month day - 719162) * 86400 + hour * 3600 + minute * 60 + sec.

(** ** Reading *)

Definition digit_value (c : ascii) : option Z := if digit c then Some (byte_of c - 48) else None.

(** [getnum]: two digits, or one when that is allowed. *)
Definition getnum (s : string) (fixed : bool) : option (Z * string) :=
  match s with
  | String a s1 =>
      match digit_value a with
      | None => None
      | Some x =>
          match s1 with
          | String b s2 => match digit_value b with
                           | Some y => Some (x * 10 + y, s2)
                           | None => if fixed then None else Some (x, s1)
                           end
          | EmptyString => if fixed then None else Some (x, s1)
          end
      end
  | EmptyString => None
  end.

Definition year4 (s : string) : option (Z * string) :=
  match getnum s true with
  | Some (hi, s1) => match getnum s1 true with Some (lo, s2) => Some (hi * 100 + lo, s2) | None => None end
  | None => None
  end.

(** The literal characters of the layout. *)
Definition skip (c : ascii) (s : string) : option string :=
  match s with String d s' => if decide (d = c) then Some s' else None | EmptyString => None end.

Fixpoint digits_number (acc : Z) (s : string) : Z :=
  match s with EmptyString => acc | String c s' => digits_number (acc * 10 + (byte_of c - 48)) s' end.

(** [parseNanoseconds] of the digits after the point, nine of them at most. *)
Definition nanoseconds (digits : string) : Z :=
  let ds := str_take 9 digits in
  digits_number 0 ds * 10 ^ (9 - Z.of_nat (String.length ds)).

(** The optional fraction after the seconds. *)
Definition fraction (s : string) : Z * string :=
  match s with
  | String c s' =>
      if decide (c = "."%char ∨ c = ","%char) then
        match span_digits s' with (EmptyString, _) => (0, s) | (ds, rest) => (nanoseconds ds, rest) end
      else (0, s)
  | EmptyString => (0, s)
  end.

(** The zone: the offset in seconds. *)
Definition zone (s : string) : option Z :=
  match s with
  | String c s' =>
      if decide (c = "Z"%char) then (if decide (s' = "") then Some 0 else None)
      else
        hm ← getnum s' true; rest ← skip ":" hm.2; mm ← getnum rest true;
        if decide (mm.2 ≠ "" ∨ 24 < hm.1 ∨ 60 < mm.1) then None
        else if decide (c = "+"%char) then Some ((hm.1 * 60 + mm.1) * 60)
        else if decide (c = "-"%char) then Some (- ((hm.1 * 60 + mm.1) * 60))
        else None
  | EmptyString => None
  end.

(** [time.Parse(time.RFC3339, s)]. *)
Definition Parse_RFC3339 (s : string) : option time :=
  y ← year4 s; s1 ← skip "-" y.2;
  mo ← getnum s1 true; s2 ← skip "-" mo.2;
  d ← getnum s2 true; s3 ← skip "T" d.2;
  h ← getnum s3 false; s4 ← skip ":" h.2;
  mi ← getnum s4 true; s5 ← skip ":" mi.2;
  sec ← getnum s5 true;
  let '(ns, s6) := fraction sec.2 in
  off ← zone s6;
  if decide (mo.1 < 1 ∨ 12 < mo.1 ∨ 24 ≤ h.1 ∨ 60 ≤ mi.1 ∨ 60 ≤ sec.1 ∨ d.1 < 1 ∨ daysIn mo.1 y.1 < d.1) then None
  else Some (mkTime (Date y.1 mo.1 d.1 h.1 mi.1 sec.1 - off) ns).

(** [t.Sub(u)] in nanoseconds, held within an int64. *)
Definition Sub (t u : time) : Z :=
  let d := (Unix t - Unix u) * 1000000000 + (nsec t - nsec u) in
  Z.max min_int64 (Z.min max_int64 d).

Example epoch : Parse_RFC3339 "1970-01-01T00:00:00Z" = Some (mkTime 0 0).
Proof. reflexivity. Qed.
Example leap_day : Parse_RFC3339 "2024-02-29T23:59:59.5+01:30" = Some (mkTime 1709245799 500000000).
Proof. reflexivity. Qed.
Example no_leap_day : Parse_RFC3339 "2100-02-29T00:00:00Z" = None.
Proof. reflexivity. Qed.
