(* ===== verification/Records.v ===== *)
(** * Records: JSON objects that are read, edited and written back

    Several handlers decode a stored object into a map, change a member and
    store [mustEncode] of it (keys.go, actor.go, organizations.go). A record is
    such an object without numbers: it reads back as the map that was written. *)
From stdpp Require Import pretty.
From S2P Require Import Prelude GoText Json Chefjson Float GoJson Stored Objects Manifest.
#[local] Open Scope go_scope.

Fixpoint numberless (v : value) : bool :=
  match v with
  | VNum _ => false
  | VArr l => forallb numberless l
  | VObj ms => forallb (λ m, numberless m.2) ms
  | _ => true
  end.

Definition record (m : obj) : Prop :=
  encodable (VObj m) ∧ numberless (VObj m) = true ∧ repeats (VObj m) = false ∧ depth (VObj m) ≤ max_depth.

Local Abbreviation Get := Chefjson.Get.

(** ** What decoding leaves *)

Lemma forallb_true {A} (f : A → bool) l : forallb f l = true ↔ Forall (λ x, f x = true) l.
Proof.
  induction l as [|x l IH]; [by repeat split|]. cbn [forallb]. by rewrite andb_true_iff, IH, Forall_cons.
Qed.

Lemma any_of_obj ms : any_of (VObj ms) = VObj (foldl (λ acc m, Set_ acc m.1 (any_of m.2)) [] ms).
Proof. done. Qed.

Lemma Set_Forall (P : string * value → Prop) (ms : obj) k v : P (k, v) → Forall P ms → Forall P (Set_ ms k v).
Proof.
  intros Hp. induction 1 as [|[k' x] ms Hx Hms IH]; cbn [Set_]; [by repeat constructor|].
  case_decide; constructor; subst; auto.
Qed.

Lemma fold_Forall (P : string * value → Prop) f (ms acc : obj) :
  Forall P acc → Forall (λ m, P (m.1, f m.2)) ms → Forall P (foldl (λ acc m, Set_ acc m.1 (f m.2)) acc ms).
Proof.
  intros Ha Hms. revert acc Ha. induction Hms as [|m ms Hm Hms IH]; intros acc Ha; [done|]. cbn [foldl].
  apply IH. by apply Set_Forall.
Qed.

Lemma Set_NoDup (ms : obj) k v : NoDup (map fst ms) → NoDup (map fst (Set_ ms k v)).
Proof.
  intros Hn. rewrite Set_names. case_decide; [done|]. apply NoDup_app. split_and!; [done|set_solver|apply NoDup_singleton].
Qed.

Lemma fold_NoDup f (ms acc : obj) : NoDup (map fst acc) → NoDup (map fst (foldl (λ acc m, Set_ acc m.1 (f m.2)) acc ms)).
Proof. revert acc. induction ms as [|m ms IH]; intros acc Ha; [done|]. cbn [foldl]. by apply IH, Set_NoDup. Qed.

Lemma repeats_any_of v : repeats (any_of v) = false.
Proof.
  induction v as [| | | |l IH|ms IH] using value_ind'; try done.
  - apply repeats_arr, Forall_fmap. exact IH.
  - rewrite any_of_obj. apply repeats_obj. split; [apply fold_NoDup, NoDup_nil_2|].
    by apply (fold_Forall (λ m, repeats m.2 = false) any_of).
Qed.

(** The last value given for each name. *)
Lemma assoc_fold f (ms acc : obj) k :
  assoc (foldl (λ acc m, Set_ acc m.1 (f m.2)) acc ms) k =
  foldl (λ old m, if decide (k = m.1) then Some (f m.2) else old) (assoc acc k) ms.
Proof.
  revert acc. induction ms as [|m ms IH]; intros acc; [done|]. cbn [foldl]. rewrite IH. f_equal.
  exact (Get_Set acc m.1 (f m.2) k).
Qed.

Lemma fold_last_elem f (ms : obj) k (o : option value) v :
  foldl (λ old m, if decide (k = m.1) then Some (f m.2) else old) o ms = Some v → o = Some v ∨ ∃ m, m ∈ ms ∧ m.1 = k ∧ v = f m.2.
Proof.
  revert o. induction ms as [|m ms IH]; intros o; [by left|]. cbn [foldl]. intros [He|(m' & ? & ?)]%IH.
  - case_decide; [right; exists m; simplify_eq; split; [set_solver|done]|by left].
  - right. exists m'. split; [set_solver|done].
Qed.

(** Only the members that survive need to be without numbers, so encodability is
    read off the result. *)
Lemma any_of_encodable v : faithful (canon v) → numberless (any_of v) = true → encodable (any_of v).
Proof.
  induction v as [| |lit|s|l IH|ms IH] using value_ind'; try done; intros Hf Hn.
  - cbn [canon] in Hf. apply printable_arr, (Forall_fmap canon) in Hf. apply (printable_arr _ (map any_of l)), Forall_fmap.
    cbn [any_of numberless] in Hn. apply forallb_true, (Forall_fmap any_of) in Hn.
    rewrite Forall_forall in IH, Hf, Hn |- *. intros x Hx. exact (IH x Hx (Hf x Hx) (Hn x Hx)).
  - cbn [canon] in Hf. apply printable_obj, (Forall_fmap (λ m, (m.1, canon m.2))) in Hf. rewrite any_of_obj in *.
    cbn [numberless] in Hn. apply forallb_true in Hn. apply printable_obj.
    assert (Forall (λ m, ∃ m', m' ∈ ms ∧ m = (m'.1, any_of m'.2)) (foldl (λ acc m, Set_ acc m.1 (any_of m.2)) [] ms)) as Hfrom.
    { apply fold_Forall; [constructor|]. apply Forall_forall. eauto. }
    rewrite Forall_forall in Hfrom, IH, Hf, Hn |- *. intros m Hm. specialize (Hn m Hm).
    destruct (Hfrom m Hm) as (m' & Hm' & ->). destruct (Hf m' Hm') as [? Hc]. split; [done|].
    apply IH; auto.
Qed.

Lemma max_list_le (l : list nat) d : Forall (λ x, x ≤ d) l → max_list l ≤ d.
Proof. induction 1; cbn in *; lia. Qed.
Lemma max_list_elem (l : list nat) x : x ∈ l → x ≤ max_list l.
Proof. induction 1; cbn in *; lia. Qed.

Lemma depth_any_of v : depth (any_of v) ≤ depth v.
Proof.
  induction v as [| | | |l IH|ms IH] using value_ind'; try done.
  - cbn [any_of depth]. apply le_n_S, max_list_le. rewrite map_map. apply Forall_fmap.
    rewrite Forall_forall in IH |- *. intros x Hx. unfold compose. etrans; [by apply IH|]. apply max_list_elem. apply list_elem_of_fmap. eauto.
  - rewrite any_of_obj. cbn [depth]. apply le_n_S, max_list_le. apply Forall_fmap.
    apply (fold_Forall (λ m, depth m.2 ≤ _) any_of); [constructor|].
    rewrite Forall_forall in IH |- *. intros m Hm. cbn [snd]. etrans; [by apply IH|].
    apply max_list_elem, list_elem_of_fmap. by exists m.
Qed.

Lemma as_any_record v m : faithful (canon v) → depth v ≤ max_depth → as_any v = Some (VObj m) →
  numberless (VObj m) = true → record m.
Proof.
  unfold as_any. destruct (numbers_fit v); [|done]. intros Hf Hd [= Hm] Hn.
  split_and!; rewrite <-Hm in *; [by apply any_of_encodable|done|apply repeats_any_of|].
  etrans; [apply depth_any_of|done].
Qed.

Lemma decode_faithful strict raw v : decode strict raw = Some v → faithful (canon v) ∧ depth v ≤ max_depth.
Proof.
  unfold decode. destruct (parse_value strict _ _ raw) as [[u r]|] eqn:E; [|done].
  case_decide; [|done]. intros [= ->]. by eapply parse_faithful.
Qed.

Lemma unmarshal_record raw m : unmarshal_map raw = Some (Some m) → numberless (VObj m) = true → record m.
Proof.
  unfold unmarshal_map. destruct (decode false raw) as [v|] eqn:E; [|done].
  apply decode_faithful in E as [Hf Hd]. destruct (as_any v) as [[]|] eqn:Ea; try done. intros [= ->].
  by eapply as_any_record.
Qed.

(** A string a body carries is text. *)
Lemma any_of_text v m k s : faithful (canon v) → as_any v = Some (VObj m) → assoc m k = Some (VStr s) → valid_utf8 s = true.
Proof.
  unfold as_any. destruct (numbers_fit v); [|done]. intros Hf [= Hm] Hk.
  destruct v as [| | | | |ms]; try done. rewrite any_of_obj in Hm. injection Hm as <-.
  rewrite assoc_fold in Hk. apply fold_last_elem in Hk as [?|([n x] & Hin & <- & Hx)]; [done|].
  cbn [canon] in Hf. apply printable_obj, (Forall_fmap (λ m, (m.1, canon m.2))) in Hf. rewrite Forall_forall in Hf.
  destruct (Hf _ Hin) as [_ Ht]. cbn in Ht, Hx. destruct x; try done. by injection Hx as ->.
Qed.

Lemma body_text body m k s : decode_body_map body = Some m → assoc (members m) k = Some (VStr s) → valid_utf8 s = true.
Proof.
  unfold decode_body_map. destruct (parse_value false _ _ body) as [[v r]|] eqn:E; [|done].
  apply parse_faithful in E as [Hf _].
  destruct (as_any v) as [[]|] eqn:Ea; try done; intros [= <-]; [done|]. by eapply any_of_text.
Qed.

(** ** What is written back *)

Lemma numberless_sorted v : numberless (sorted v) = numberless v.
Proof.
  induction v as [| | | |l IH|ms IH] using value_ind'; try done.
  - cbn [sorted numberless]. induction IH as [|x l Hx Hl IH]; [done|]. cbn [map forallb]. by rewrite Hx, IH.
  - rewrite sorted_obj. cbn [numberless]. apply Bool.eq_iff_eq_true. rewrite !forallb_true.
    rewrite merge_sort_Permutation, Forall_fmap. rewrite !Forall_forall in *.
    split; intros Hx m Hm; specialize (Hx m Hm); specialize (IH m Hm); cbn in *; by rewrite IH in *.
Qed.

Lemma repeats_sorted v : repeats (sorted v) = repeats v.
Proof.
  induction v as [| | | |l IH|ms IH] using value_ind'; try done.
  - cbn [sorted repeats]. induction IH as [|x l Hx Hl IH]; [done|]. cbn [map existsb]. by rewrite Hx, IH.
  - rewrite sorted_obj. apply Bool.eq_iff_eq_true. rewrite <-!not_false_iff_true. apply not_iff_compat.
    rewrite !repeats_obj. rewrite merge_sort_Permutation, map_map, Forall_fmap, !Forall_forall in *. cbn [fst snd].
    apply and_iff_compat_l. split; intros Hx m Hm; specialize (Hx m Hm); specialize (IH m Hm); cbn in *; by rewrite IH in *.
Qed.

Lemma record_sorted m : record m → ∃ ms, sorted (VObj m) = VObj ms ∧ record ms.
Proof.
  intros (? & ? & ? & ?). rewrite sorted_obj. eexists. split; [done|].
  unfold record. rewrite <-sorted_obj, numberless_sorted, repeats_sorted, depth_sorted. split_and!; try done. by apply encodable_sorted.
Qed.

Lemma any_of_numberless v : numberless v = true → repeats v = false → any_of v = v.
Proof.
  intros Hn Hr. rewrite any_of_renumber by done. clear Hr.
  induction v as [|[]|lit|s|l IH|ms IH] using value_ind'; try done; cbn [renumber numberless] in *; apply forallb_true in Hn; f_equal.
  - rewrite <-(map_id l) at 2. apply map_ext_Forall. rewrite Forall_forall in *. intros x Hx. auto.
  - rewrite <-(map_id ms) at 2. apply map_ext_Forall. rewrite Forall_forall in *. intros [k x] Hx. cbn. f_equal.
    exact (IH _ Hx (Hn _ Hx)).
Qed.

Lemma numbers_fit_numberless v : numberless v = true → numbers_fit v = true.
Proof.
  induction v as [| | | |l IH|ms IH] using value_ind'; try done; cbn [numberless numbers_fit];
    rewrite !forallb_true, !Forall_forall in *; auto.
Qed.

Lemma assoc_perm (a b : obj) k : a ≡ₚ b → NoDup (map fst a) → assoc a k = assoc b k.
Proof.
  induction 1 as [|[k' x] a b Hp IH|[k1 x1] [k2 x2] a|a b c Hp IH Hq IH']; intros Hn; [done| | |].
  - cbn [assoc map fst] in *. apply NoDup_cons in Hn as [_ Hn]. by rewrite IH.
  - cbn [assoc map fst] in *. apply NoDup_cons in Hn as [Hn _]. repeat case_decide; set_solver.
  - rewrite IH by done. apply IH'. by rewrite <-Hp.
Qed.

(** A record reads back as the map that was written. *)
Lemma record_reads_back m : record m →
  ∃ m', unmarshal_map (mustEncode (VObj m)) = Some (Some m') ∧ record m' ∧ ∀ k, assoc m' k = sorted <$> assoc m k.
Proof.
  intros Hr. destruct (record_sorted m Hr) as (ms & Es & Hms). exists ms. destruct Hr as (He & _ & Hrep & Hd).
  split_and!; [|done|].
  - unfold unmarshal_map, as_any. rewrite decode_mustEncode by done. rewrite Es. destruct Hms as (_ & Hn & Hrs & _).
    by rewrite numbers_fit_numberless, any_of_numberless.
  - intros k. rewrite sorted_obj in Es. injection Es as <-. apply repeats_obj in Hrep as [Hnd _].
    rewrite <-assoc_map. apply assoc_perm; [apply merge_sort_Permutation|].
    rewrite merge_sort_Permutation, map_map. exact Hnd.
Qed.

Lemma record_set m k s : record m → valid_utf8 k = true → valid_utf8 s = true → record (Set_ m k (VStr s)).
Proof.
  intros (He & Hn & Hr & Hd) Hk Hs. split_and!.
  - apply printable_obj in He. by apply printable_obj, Set_Forall.
  - cbn [numberless] in *. rewrite forallb_true in *. by apply Set_Forall.
  - apply repeats_obj in Hr as [? ?]. apply repeats_obj. split; [by apply Set_NoDup|by apply Set_Forall].
  - cbn [depth] in *. unfold max_depth in *. assert (∀ d, max_list (map (λ m, depth m.2) m) ≤ d → max_list (map (λ m, depth m.2) (Set_ m k (VStr s))) ≤ d) as Hmax.
    { intros d Hm. apply max_list_le, Forall_fmap, Set_Forall; [cbn; lia|]. apply Forall_forall. intros x Hx. cbn.
      etrans; [|exact Hm]. apply max_list_elem, list_elem_of_fmap. by exists x. }
    specialize (Hmax (pred max_depth)). unfold max_depth in *. lia.
Qed.

Lemma filter_Forall {A} (Q P : A → Prop) `{∀ x, Decision (P x)} (l : list A) : Forall Q l → Forall Q (filter P l).
Proof. rewrite !Forall_forall. intros Hl x [_ Hx]%list_elem_of_filter. auto. Qed.

Lemma record_filter m (P : string * value → Prop) `{∀ e, Decision (P e)} : record m → record (filter P m).
Proof.
  intros (He & Hn & Hr & Hd). split_and!.
  - apply printable_obj in He. by apply printable_obj, filter_Forall.
  - cbn [numberless] in *. rewrite forallb_true in *. by apply filter_Forall.
  - apply repeats_obj in Hr as [Hnd ?]. apply repeats_obj. split; [|by apply filter_Forall].
    eapply sublist_NoDup; [exact Hnd|]. apply fmap_sublist, sublist_filter.
  - cbn [depth] in *. etrans; [|exact Hd]. apply le_n_S, max_list_le, Forall_fmap, filter_Forall, Forall_forall.
    intros x Hx. apply max_list_elem, list_elem_of_fmap. by exists x.
Qed.

Lemma assoc_filter (m : obj) k k' : assoc (filter (λ e, e.1 ≠ k') m) k = if decide (k = k') then None else assoc m k.
Proof.
  induction m as [|[n v] m IH]; [by case_decide|]. rewrite filter_cons. cbn [fst assoc].
  repeat case_decide; cbn [assoc]; repeat case_decide; rewrite ?IH; repeat case_decide; congruence.
Qed.

Lemma unmarshal_text raw m k s : unmarshal_map raw = Some m → assoc (members m) k = Some (VStr s) → valid_utf8 s = true.
Proof.
  unfold unmarshal_map. destruct (decode false raw) as [v|] eqn:E; [|done]. apply decode_faithful in E as [Hf _].
  destruct (as_any v) as [[]|] eqn:Ea; try done; intros [= <-]; [done|]. by eapply any_of_text.
Qed.

(** Text of ASCII characters only. *)
Lemma ascii_text (P : ascii → bool) s : (∀ c, P c = true → (byte_of c < 0x80)%Z) → str_forall P s = true → valid_utf8 s = true.
Proof.
  intros HP. induction s as [|c s IH]; [done|]. cbn [str_forall]. rewrite andb_true_iff. intros [Hc%HP Hs%IH].
  apply (valid_rune_app (String c "") s (byte_of c)); try done.
  - cbn [String.append decode_rune]. by rewrite decide_True.
  - unfold RuneError. lia.
Qed.

(** ** Documents

    A document is an object as decoding leaves it, numbers included: it can be
    written, and what is written reads back member by member. *)

Lemma digits_acc_nonneg s acc : (0 ≤ acc)%Z → (0 ≤ digits_acc s acc)%Z.
Proof.
  revert acc. induction s as [|c s IH]; intros acc Ha; [done|]. cbn [digits_acc]. destruct (digit c) eqn:E; [|by apply IH].
  apply IH. unfold digit in E. apply bool_decide_eq_true in E. lia.
Qed.

Lemma round_ratio_nonneg n d q e : (0 ≤ n)%Z → (0 < d)%Z → round_ratio n d = Some (q, e) → (0 ≤ q)%Z.
Proof.
  intros Hn Hd. unfold round_ratio. cbv zeta.
  assert (∀ x a b, (if decide (0 ≤ x)%Z then (n, d * 2 ^ x)%Z else (n * 2 ^ (- x), d)%Z) = (a, b) → (0 ≤ a ∧ 0 < b)%Z) as Hs.
  { intros x a b. case_decide; intros [= <- <-].
    - pose proof (Z.pow_pos_nonneg 2 x ltac:(lia)). nia.
    - pose proof (Z.pow_nonneg 2 (- x) ltac:(lia)). nia. }
  set (e0 := (Z.log2 n - Z.log2 d - 53)%Z). generalize (Z.max (let '(a, b) := if decide (0 ≤ e0)%Z then (n, d * 2 ^ e0)%Z else (n * 2 ^ (- e0), d)%Z in
    if decide (2 ^ 53 ≤ a / b)%Z then (e0 + 1)%Z else e0) (-1074)). intros x.
  specialize (Hs x). destruct (if decide (0 ≤ x)%Z then _ else _) as [a b]. destruct (Hs a b eq_refl) as [Ha Hb].
  pose proof (Z.div_pos a b Ha Hb) as Hq. repeat case_decide; intros [= <- <-]; lia.
Qed.

Lemma of_decimal_nonneg neg n e f : (0 ≤ n)%Z → of_decimal neg n e = Some f → (0 ≤ f_mant f)%Z.
Proof.
  intros Hn. unfold of_decimal. destruct (decide (n = 0)%Z); [by intros [= <-]|]. case_decide; [done|]. case_decide; [by intros [= <-]|].
  cbv zeta. destruct (if decide (0 ≤ e)%Z then _ else _) as [[q x]|] eqn:Er; [|done].
  assert (0 ≤ q)%Z as Hq.
  { destruct (decide (0 ≤ e)%Z).
    - apply round_ratio_nonneg in Er; [done| |lia]. pose proof (Z.pow_nonneg 10 e ltac:(lia)). nia.
    - apply round_ratio_nonneg in Er; [done|done|]. apply Z.pow_pos_nonneg; lia. }
  destruct q; intros [= <-]; cbn; lia.
Qed.

Lemma parse_double_nonneg lit f : parse_double lit = Some f → (0 ≤ f_mant f)%Z.
Proof.
  unfold parse_double, decimal_of. repeat case_match; simplify_eq; intros Hf; eapply of_decimal_nonneg, Hf; by apply digits_acc_nonneg.
Qed.

Lemma json_layout_form c d x : digit c = true → c ≠ "0"%char → all_digits d → ∃ i f e,
  int_form i ∧ frac_form f ∧ exp_form e ∧
  (let ds := String c d in let k := Z.of_nat (String.length ds) in
   if decide (-6 ≤ x < 21)%Z then
     if decide (k ≤ x + 1)%Z then ds +:+ zeros (Z.to_nat (x + 1 - k))
     else if decide (0 ≤ x)%Z then str_take (Z.to_nat (x + 1)) ds +:+ "." +:+ str_drop (Z.to_nat (x + 1)) ds
     else "0." +:+ zeros (Z.to_nat (- x - 1)) +:+ ds
   else str_take 1 ds +:+ (if decide (1 < k)%Z then "." +:+ str_drop 1 ds else "")
          +:+ "e" +:+ (if decide (0 ≤ x)%Z then "+" else "-") +:+
          (if decide (0 ≤ x)%Z then two_digits x else pretty (Z.abs x))) = i +:+ f +:+ e.
Proof.
  intros Hc H0 Hd. assert (all_digits (String c d)) as Hcd by (unfold all_digits in *; cbn; by rewrite Hc).
  assert (∀ e, all_digits e → int_form (String c e)) as Hint by (intros e He; right; eauto 10).
  cbv zeta. set (k := Z.of_nat (String.length (String c d))).
  destruct (decide (-6 ≤ x < 21)%Z); [destruct (decide (k ≤ x + 1)%Z); [|destruct (decide (0 ≤ x)%Z)]|].
  - exists (String c d +:+ zeros (Z.to_nat (x + 1 - k))), "", "". split_and!; [|by left|by left|by autorewrite with go].
    cbn [String.append]. apply Hint. unfold all_digits in *. by rewrite str_forall_app, Hd, zeros_digits.
  - exists (str_take (Z.to_nat (x + 1)) (String c d)), (String "." (str_drop (Z.to_nat (x + 1)) (String c d))), "".
    split_and!; [| |by left|by autorewrite with go].
    + destruct (Z.to_nat (x + 1)) as [|m] eqn:Em; [lia|]. cbn [str_take]. apply Hint. by apply take_digits.
    + right. eexists. split_and!; [|by apply take_digits|done].
      intros E. apply (f_equal String.length) in E. rewrite length_str_drop in E. cbn [String.length] in *. lia.
  - exists "0", (String "." (zeros (Z.to_nat (- x - 1)) +:+ String c d)), "". split_and!; [by left| |by left|by autorewrite with go].
    right. eexists. split_and!; [| |done]; [by destruct (zeros _)|]. unfold all_digits in *. by rewrite str_forall_app, Hcd, zeros_digits.
  - exists (String c ""), (if decide (1 < k)%Z then "." +:+ str_drop 1 (String c d) else ""),
      ("e" +:+ (if decide (0 ≤ x)%Z then "+" else "-") +:+ (if decide (0 ≤ x)%Z then two_digits x else pretty (Z.abs x))).
    split_and!; [by apply Hint| | |done].
    + destruct (decide (1 < k)%Z); [|by left]. right. exists d. split_and!; [|done|done]. subst k. destruct d; [cbn in *; lia|done].
    + right. exists "e"%char, (if decide (0 ≤ x)%Z then "+" else "-"), (if decide (0 ≤ x)%Z then two_digits x else pretty (Z.abs x)).
      assert (∀ z, (0 ≤ z)%Z → pretty z ≠ "" ∧ all_digits (pretty z)) as Hp.
      { intros z Hz. destruct (pretty_Z_signed z) as (sg & y & -> & ? & ? & ->). by rewrite decide_False by lia. }
      assert ((if decide (0 ≤ x)%Z then two_digits x else pretty (Z.abs x)) ≠ "" ∧
        all_digits (if decide (0 ≤ x)%Z then two_digits x else pretty (Z.abs x))) as [Hn Ha].
      { destruct (decide (0 ≤ x)%Z); [|by apply Hp; lia]. destruct (Hp x) as [? ?]; [done|]. unfold two_digits. by case_decide. }
      split_and!; [by left|by case_decide; auto|done|done|done].
Qed.

Lemma json_number_form lit : number_form lit → number_form (json_number lit).
Proof.
  intros Hl. unfold json_number. destruct (parse_double lit) as [f|] eqn:Ef; [|done]. apply parse_double_nonneg in Ef.
  assert ((if f_neg f then "-" else "") = "" ∨ (if f_neg f then "-" else "") = "-") as Hs by (destruct (f_neg f); auto). cbv zeta.
  destruct (decide (f_mant f = 0)%Z).
  { exists (if f_neg f then "-" else ""), "0", "", "". split_and!; [done|by left..|done]. }
  destruct (format_sci_digits f ltac:(lia)) as (c & d & mant & e & Hc & H0 & Hd & -> & ->).
  destruct (json_layout_form c d (Atoi e) Hc H0 Hd) as (i & fr & ex & Hi & Hf & He & Heq). cbv zeta in Heq. rewrite Heq.
  by exists (if f_neg f then "-" else ""), i, fr, ex.
Qed.

Lemma any_of_printable v : faithful v → encodable (any_of v).
Proof.
  induction v as [| |lit|s|l IH|ms IH] using value_ind'; try done; intros Hf.
  - cbn. by eapply number_of_form, json_number_form, scan_number_form.
  - apply printable_arr in Hf. apply (printable_arr _ (map any_of l)), Forall_fmap. rewrite Forall_forall in *. naive_solver.
  - apply printable_obj in Hf. rewrite any_of_obj. apply printable_obj.
    apply (fold_Forall (λ m, valid_utf8 m.1 = true ∧ encodable m.2) any_of); [constructor|]. rewrite Forall_forall in *. naive_solver.
Qed.

(** A value that may be a member of a document. *)
Definition storable (v : value) : Prop := encodable v ∧ repeats v = false ∧ S (depth v) ≤ max_depth.
Definition document (m : obj) : Prop := NoDup (map fst m) ∧ Forall (λ e, valid_utf8 e.1 = true ∧ storable e.2) m.

Lemma storable_str s : valid_utf8 s = true → storable (VStr s).
Proof. intros Hs. split_and!; [done|done|]. unfold max_depth. cbn. lia. Qed.

Lemma document_value m : document m ↔ encodable (VObj m) ∧ repeats (VObj m) = false ∧ depth (VObj m) ≤ max_depth.
Proof.
  unfold document, storable. rewrite printable_obj, repeats_obj. cbn [depth]. rewrite !Forall_forall. split.
  - intros [Hn Hm]. split_and!; [naive_solver|done|naive_solver|].
    assert (max_list (map (λ m, depth m.2) m) ≤ pred max_depth) as Hd; [|unfold max_depth in *; lia].
    apply max_list_le, Forall_fmap, Forall_forall. intros x Hx. cbn. destruct (Hm x Hx) as (_ & _ & _ & ?). unfold max_depth in *. lia.
  - intros (He & [Hn Hr] & Hd). split; [done|]. intros x Hx. destruct (He x Hx). split_and!; [done|done|by apply Hr|].
    etrans; [|exact Hd]. apply le_n_S, max_list_elem, list_elem_of_fmap. by exists x.
Qed.

Lemma document_nil : document [].
Proof. split; [apply NoDup_nil_2|constructor]. Qed.

Lemma document_set m k v : document m → valid_utf8 k = true → storable v → document (Set_ m k v).
Proof. intros [Hn Hm] Hk Hv. split; [by apply Set_NoDup|by apply Set_Forall]. Qed.

Lemma document_filter m (P : string * value → Prop) `{∀ e, Decision (P e)} : document m → document (filter P m).
Proof.
  intros [Hn Hm]. split; [|by apply filter_Forall]. eapply sublist_NoDup; [exact Hn|]. apply fmap_sublist, sublist_filter.
Qed.

Lemma document_assoc m k v : document m → assoc m k = Some v → valid_utf8 k = true ∧ storable v.
Proof.
  intros [_ Hm]. revert Hm. induction m as [|[n x] m IH]; [done|]. intros [Hx Hm]%Forall_cons. cbn [assoc]. case_decide; [|by apply IH].
  intros [= <-]. by subst.
Qed.

(** What decoding leaves is a document. *)
Lemma as_any_document v m : faithful v → depth v ≤ max_depth → as_any v = Some (VObj m) → document m.
Proof.
  unfold as_any. destruct (numbers_fit v); [|done]. intros Hf Hd [= Hm]. apply document_value. rewrite <-Hm.
  split_and!; [by apply any_of_printable|apply repeats_any_of|]. etrans; [apply depth_any_of|done].
Qed.

Lemma parsed_document strict n s v r m : parse_value strict n max_depth s = Some (v, r) → as_any v = Some (VObj m) → document m.
Proof. destruct (parse_printable strict n) as [Hp _]. intros [Hf Hd]%Hp. by apply as_any_document. Qed.

Lemma unmarshal_document raw m : unmarshal_map raw = Some m → document (members m).
Proof.
  unfold unmarshal_map, decode. destruct (parse_value false _ _ raw) as [[v r]|] eqn:E; [|done]. case_decide; [|done].
  destruct (as_any v) as [[]|] eqn:Ea; try done; intros [= <-]; [apply document_nil|]. by eapply parsed_document.
Qed.

Lemma body_document body m : decode_body_map body = Some m → document (members m).
Proof.
  unfold decode_body_map. destruct (parse_value false _ _ body) as [[v r]|] eqn:E; [|done].
  destruct (as_any v) as [[]|] eqn:Ea; try done; intros [= <-]; [apply document_nil|]. by eapply parsed_document.
Qed.

(** ** What is written reads back *)

Lemma document_decodes m : document m → decode false (mustEncode (VObj m)) = Some (sorted (VObj m)).
Proof. intros (He & _ & Hd)%document_value. by apply decode_mustEncode. Qed.

Lemma Set_fresh (ms : obj) k v : k ∉ map fst ms → Set_ ms k v = ms ++ [(k, v)].
Proof.
  induction ms as [|[n x] ms IH]; [done|]. cbn [map fst Set_]. rewrite not_elem_of_cons. intros [Hk Hn].
  rewrite decide_False by congruence. by rewrite IH.
Qed.

(** A map without repeated names is decoded member by member. *)
Lemma fold_Set_map f (ms : obj) : NoDup (map fst ms) →
  foldl (λ acc m, Set_ acc m.1 (f m.2)) [] ms = map (λ m, (m.1, f m.2)) ms.
Proof.
  assert (∀ acc : obj, NoDup (map fst acc ++ map fst ms) →
    foldl (λ acc m, Set_ acc m.1 (f m.2)) acc ms = acc ++ map (λ m, (m.1, f m.2)) ms) as Hgo; [|by apply (Hgo [])].
  induction ms as [|[n v] ms IH]; intros acc Hn; cbn [foldl map fst snd] in *; [by rewrite app_nil_r|].
  rewrite Set_fresh by (apply NoDup_app in Hn as (_ & Hd & _); set_solver).
  rewrite IH by (rewrite map_app; cbn [map fst]; by rewrite <-app_assoc). by rewrite <-app_assoc.
Qed.

Lemma document_reads m m' : document m → unmarshal_map (mustEncode (VObj m)) = Some m' →
  ∃ ms, m' = Some ms ∧ document ms ∧ ∀ k, assoc ms k = (λ v, any_of (sorted v)) <$> assoc m k.
Proof.
  intros Hm Hu. pose proof (unmarshal_document _ _ Hu) as Hd. unfold unmarshal_map in Hu. rewrite document_decodes in Hu by done.
  rewrite sorted_obj in Hu. unfold as_any in Hu. destruct (numbers_fit _); [|done]. rewrite any_of_obj in Hu. injection Hu as <-.
  assert (merge_sort by_name (map (λ m, (m.1, sorted m.2)) m) ≡ₚ map (λ m, (m.1, sorted m.2)) m) as Hp by apply merge_sort_Permutation.
  assert (NoDup (map fst (map (λ m, (m.1, sorted m.2)) m))) as Hn by (rewrite map_map; apply Hm).
  rewrite fold_Set_map in * by (by rewrite Hp).
  eexists. split_and!; [done|exact Hd|]. intros k. rewrite assoc_map.
  rewrite (assoc_perm _ _ _ Hp) by (by rewrite Hp). rewrite (assoc_map sorted). by destruct (assoc m k).
Qed.
