(* ===== verification/Passwords.v ===== *)
(** * Passwords (internal/api/password.go, authenticate.go)

    The stored form of a password, its verification, the upgrade of plain text
    left by older versions, and the authenticate_user endpoint. PBKDF2 is the
    library's, and a parameter; so are the random salts. *)
From stdpp Require Import pretty.
From S2P Require Import Prelude GoText Json Chefjson GoJson Stored Store Facade Groups Http Effects Acl AclDocs Version Objects Manifest Environments Auth.
#[local] Open Scope go_scope.
#[local] Open Scope http_scope.

(** ** base64.RawStdEncoding: no padding *)

Fixpoint RawEncodeToString (s : string) : string :=
  match s with
  | EmptyString => ""
  | String a EmptyString =>
      let x := byte_of a in String (b64_char (x / 4)) (String (b64_char (x mod 4 * 16)) "")
  | String a (String b EmptyString) =>
      let x := byte_of a in let y := byte_of b in
      String (b64_char (x / 4)) (String (b64_char (x mod 4 * 16 + y / 16)) (String (b64_char (y mod 16 * 4)) ""))
  | String a (String b (String c s')) =>
      let x := byte_of a in let y := byte_of b in let z := byte_of c in
      String (b64_char (x / 4)) (String (b64_char (x mod 4 * 16 + y / 16))
        (String (b64_char (y mod 16 * 4 + z / 64)) (String (b64_char (z mod 64)) (RawEncodeToString s'))))
  end.

(** The last group may have two or three characters. *)
Fixpoint raw_quanta (s : string) : option string :=
  match s with
  | EmptyString => Some ""
  | String a (String b EmptyString) =>
      x ← b64_val a; y ← b64_val b; Some (String (chr (x * 4 + y / 16)) "")
  | String a (String b (String c EmptyString)) =>
      x ← b64_val a; y ← b64_val b; z ← b64_val c;
      Some (String (chr (x * 4 + y / 16)) (String (chr (y mod 16 * 16 + z / 4)) ""))
  | String a (String b (String c (String d s'))) =>
      x ← b64_val a; y ← b64_val b; z ← b64_val c; w ← b64_val d; rest ← raw_quanta s';
      Some (String (chr (x * 4 + y / 16)) (String (chr (y mod 16 * 16 + z / 4)) (String (chr (z mod 4 * 64 + w)) rest)))
  | _ => None
  end.

Definition RawDecodeString (s : string) : option string := raw_quanta (drop_newlines s).

(** ** The stored form *)

(** crypto/pbkdf2 over SHA-256: password, salt, iterations and key length. *)
Class PBKDF2 := { pbkdf2_Key : string → string → Z → nat → result string }.
Class PBKDF2Spec `{PBKDF2} := {
  pbkdf2_length pw salt iter n k : pbkdf2_Key pw salt iter n = Ok k → String.length k = n;
}.

Definition passwordScheme : string := "pbkdf2-sha256".
Definition DefaultPasswordIterations : Z := 600000.
Definition maxPasswordIterations : Z := 10000000.
Definition passwordSaltLen : nat := 16.
Definition passwordKeyLen : nat := 32.
Definition dollar : ascii := "$"%char.

Record passwordHash := mkPasswordHash { h_iter : Z; h_salt : string; h_key : string }.

Definition parsePasswordHash (stored : string) : option passwordHash :=
  match split_on dollar stored with
  | [scheme; iter; salt; key] =>
      if decide (scheme ≠ passwordScheme) then None
      else match strconv_Atoi iter with
           | (_, Some _) => None
           | (iter, None) =>
               if decide (iter < 1 ∨ maxPasswordIterations < iter)%Z then None
               else match RawDecodeString salt with
                    | None => None
                    | Some salt =>
                        if decide (salt = "") then None
                        else match RawDecodeString key with
                             | None => None
                             | Some key => if decide (key = "") then None else Some (mkPasswordHash iter salt key)
                             end
                    end
           end
  | _ => None
  end.

Definition IsPasswordHash (stored : string) : bool := match parsePasswordHash stored with Some _ => true | None => false end.

Section Hashing.
Context `{PBKDF2}.

(** [salt]: what [rand.Read] gives; [iter]: the cost in force. *)
Definition HashPassword (iter : Z) (salt : result string) (password : string) : result string :=
  match salt with
  | Err e => Err e
  | Ok salt =>
      match pbkdf2_Key password salt iter passwordKeyLen with
      | Err e => Err e
      | Ok key => Ok (passwordScheme +:+ "$" +:+ pretty iter +:+ "$" +:+ RawEncodeToString salt +:+ "$" +:+ RawEncodeToString key)
      end
  end.

Definition VerifyPassword (stored password : string) : bool :=
  match parsePasswordHash stored with
  | None => bool_decide (stored = password)
  | Some h =>
      match pbkdf2_Key password (h_salt h) (h_iter h) (String.length (h_key h)) with
      | Err _ => false
      | Ok key => bool_decide (key = h_key h)
      end
  end.
End Hashing.

Definition PasswordsCollection : string := "passwords".

(** The body of authenticate_user. *)
Record credentials := mkCredentials { c_username : string; c_name : string; c_password : string }.
Definition credentials_field (c : credentials) (name : string) (v : value) : option credentials :=
  if decide (fold_name name = "username") then
    (λ s, mkCredentials s (c_name c) (c_password c)) <$> string_field "username" (c_username c) name v
  else if decide (fold_name name = "name") then
    (λ s, mkCredentials (c_username c) s (c_password c)) <$> string_field "name" (c_name c) name v
  else if decide (fold_name name = "password") then
    (λ s, mkCredentials (c_username c) (c_name c) s) <$> string_field "password" (c_password c) name v
  else Some c.
Definition decode_credentials (body : string) : option credentials :=
  p ← parse_value false (2 * String.length body + 2) max_depth body;
  decode_struct credentials_field (mkCredentials "" "" "") p.1.

(** The user name the body gives. *)
Definition credentials_user (c : credentials) : string := if decide (c_username c = "") then c_name c else c_username c.

Section Handlers.
Context `{PBKDF2}.
Context {B : Type} `{Backend B} {O : Type}.
Abbreviation st := (Store B O).

(** The record without its password, which is hashed and stored aside. *)
Definition StashPassword (iter : Z) (salt : result string) (org name : string) (o : obj) : ST st obj :=
  match assoc o "password" with
  | Some (VStr pw) =>
      match HashPassword iter salt pw with
      | Err e => st_fail e
      | Ok h => Org_Put org PasswordsCollection name h ;;! st_ret (filter (λ e, e.1 ≠ "password") o)
      end
  | _ => st_ret o
  end.

(** [salts]: the salt drawn for each name; [order]: how the map of plain texts is
    ranged over. *)
Definition UpgradePasswords (iter : Z) (salts : string → result string) (order : list (string * string) → list (string * string))
    (org : string) : ST st nat :=
  let! docs := Org_Range org PasswordsCollection in
  let plain := filter (λ d, IsPasswordHash d.2 = false) docs in
  st_each (λ d, match HashPassword iter (salts d.1) d.2 with
                | Err e => st_fail e
                | Ok h => Org_Put org PasswordsCollection d.1 h
                end) (order plain) ;;!
  st_ret (length plain).

Definition failed_login : reply := writeError 401 ["Failed to authenticate. Username and password incorrect."].

Definition authenticateUser (r : request) : handler st reply :=
  if match r_actor r with Some a => negb (IsGlobalAdmin a) && negb (ViaWebUI a) | None => false end
  then h_reply (writeError 403 ["You are not allowed to take this action."])
  else match decode_credentials (r_body r) with
  | None => h_reply (writeError 400 ["invalid JSON body"])
  | Some c =>
      let name := credentials_user c in
      let? userRaw := or_500 (Org_Get Global "users" name) in
      match userRaw with
      | None => h_reply failed_login
      | Some raw =>
          let? stored := or_500 (Org_Get Global PasswordsCollection name) in
          match stored with
          | None => h_reply failed_login
          | Some stored =>
              if negb (VerifyPassword stored (c_password c)) then h_reply failed_login
              else match unmarshal_map raw with
              | None => h_reply (internal_error (ErrOther "json: cannot unmarshal"))
              | Some user =>
                  h_ret (writeJSON 200 (VObj [("status", VStr "linked"); ("user", match user with Some m => VObj m | None => VNull end)]))
              end
          end
      end
  end.
End Handlers.

(** ** A hash reads back *)

Lemma raw_encoded_text s : str_forall b64_text (RawEncodeToString s) = true.
Proof.
  induction s as [|a|a b|a b c s IH] using string_ind3; [done|..]; cbn [RawEncodeToString str_forall];
    try pose proof (byte_of_range a); try pose proof (byte_of_range b); try pose proof (byte_of_range c);
    rewrite !b64_char_text by zlia; done.
Qed.

Lemma raw_quanta_encode s : raw_quanta (RawEncodeToString s) = Some s.
Proof.
  induction s as [|a|a b|a b c s IH] using string_ind3; [done|..]; cbn [RawEncodeToString raw_quanta];
    try pose proof (byte_of_range a); try pose proof (byte_of_range b); try pose proof (byte_of_range c).
  - rewrite !b64_val_char by zlia. cbn [mbind option_bind]. do 2 f_equal. apply chr_byte. zlia.
  - rewrite !b64_val_char by zlia. cbn [mbind option_bind]. do 2 f_equal; [apply chr_byte; zlia|]. f_equal. apply chr_byte. zlia.
  - rewrite !b64_val_char by zlia. cbn [mbind option_bind]. rewrite IH. cbn [mbind option_bind].
    do 2 f_equal; [apply chr_byte; zlia|]. f_equal; [apply chr_byte; zlia|]. f_equal. apply chr_byte. zlia.
Qed.

Lemma RawDecodeString_encode s : RawDecodeString (RawEncodeToString s) = Some s.
Proof. unfold RawDecodeString. by rewrite drop_newlines_text, raw_quanta_encode by apply raw_encoded_text. Qed.

Lemma no_dollar (P : ascii → bool) s : P dollar = false → str_forall P s = true → ¬ str_in dollar s.
Proof. intros HP Hs Hin. eapply str_forall_in in Hin; [|done]. congruence. Qed.

Lemma parse_hash_text iter salt key : (1 ≤ iter ≤ maxPasswordIterations)%Z → salt ≠ "" → key ≠ "" →
  parsePasswordHash (passwordScheme +:+ "$" +:+ pretty iter +:+ "$" +:+ RawEncodeToString salt +:+ "$" +:+ RawEncodeToString key) =
  Some (mkPasswordHash iter salt key).
Proof.
  intros Hi Hs Hk. unfold parsePasswordHash, maxPasswordIterations in *.
  assert (0 ≤ iter ≤ max_int64)%Z as Hi' by (unfold max_int64; lia).
  change (split_on dollar _) with (split_on dollar (join (String dollar "") [passwordScheme; pretty iter; RawEncodeToString salt; RawEncodeToString key])).
  rewrite split_on_join; [|done|].
  - rewrite decide_False by tauto. rewrite Atoi_pretty, decide_False by lia.
    by rewrite !RawDecodeString_encode, !decide_False by done.
  - repeat constructor.
    + by apply (no_dollar (λ c, bool_decide (c ≠ dollar))).
    + by apply (no_dollar digit), pretty_digits.
    + by apply (no_dollar b64_text), raw_encoded_text.
    + by apply (no_dollar b64_text), raw_encoded_text.
Qed.

Lemma hash_parses `{PBKDF2Spec} iter salt pw stored : (1 ≤ iter ≤ maxPasswordIterations)%Z → salt ≠ "" →
  HashPassword iter (Ok salt) pw = Ok stored →
  ∃ key, pbkdf2_Key pw salt iter passwordKeyLen = Ok key ∧ String.length key = passwordKeyLen ∧
    parsePasswordHash stored = Some (mkPasswordHash iter salt key).
Proof.
  intros Hi Hs. unfold HashPassword. destruct (pbkdf2_Key pw salt iter passwordKeyLen) as [key|] eqn:Ek; [|done]. intros [= <-].
  exists key. apply pbkdf2_length in Ek as Hl. split_and!; [done|done|]. apply parse_hash_text; [done..|]. by intros ->.
Qed.

(** A stored hash accepts exactly the passwords with its key. *)
Lemma hash_verifies `{PBKDF2Spec} iter salt pw stored pw' : (1 ≤ iter ≤ maxPasswordIterations)%Z → salt ≠ "" →
  HashPassword iter (Ok salt) pw = Ok stored →
  IsPasswordHash stored = true ∧
  (VerifyPassword stored pw' = true ↔ pbkdf2_Key pw' salt iter passwordKeyLen = pbkdf2_Key pw salt iter passwordKeyLen).
Proof.
  intros Hi Hs Hh. destruct (hash_parses _ _ _ _ Hi Hs Hh) as (key & Ek & Hl & Hp).
  unfold IsPasswordHash, VerifyPassword. rewrite Hp, Ek. cbn [h_salt h_iter h_key]. split; [done|]. rewrite Hl.
  destruct (pbkdf2_Key pw' salt iter passwordKeyLen) as [key'|e]; [|done].
  rewrite bool_decide_eq_true. split; [by intros ->|by intros [= ->]].
Qed.

(** ** The upgrade of plain texts *)

Section Upgrade.
Context `{PBKDF2} {B : Type} `{BackendSpec B} {O : Type}.
Context (iter : Z) (salts : string → result string) (org : string).

(** What the upgrade makes of a stored value. *)
Definition upgraded (name v v' : string) : Prop :=
  if IsPasswordHash v then v' = v else HashPassword iter (salts name) v = Ok v'.

(** Each value is untouched or upgraded, and nothing else has changed; when all
    [done_] holds of were upgraded. *)
Definition upgrading (done_ : string → Prop) (objs objs' : objects) : Prop :=
  (∀ k, k.1 ≠ (org, PasswordsCollection) → objs' !! k = objs !! k) ∧
  ∀ name, match objs !! (org, PasswordsCollection, name) with
          | None => objs' !! (org, PasswordsCollection, name) = None
          | Some v => ∃ v', objs' !! (org, PasswordsCollection, name) = Some v' ∧
                            (upgraded name v v' ∨ v' = v ∧ ¬ done_ name)
          end.

Lemma upgrading_start objs : upgrading (λ _, False) objs objs.
Proof. split; [done|]. intros name. destruct (objs !! _) as [v|]; [|done]. exists v. tauto. Qed.

Lemma upgrading_mono (P Q : string → Prop) objs objs' :
  (∀ name v, objs !! (org, PasswordsCollection, name) = Some v → IsPasswordHash v = false → Q name → P name) →
  upgrading P objs objs' → upgrading Q objs objs'.
Proof.
  intros HQ [Hf Hr]. split; [done|]. intros name. specialize (Hr name). destruct (objs !! _) as [v|] eqn:E; [|done].
  destruct Hr as (v' & E' & Hu). exists v'. split; [done|]. destruct Hu as [Hu|[-> Hn]]; [by left|].
  unfold upgraded. destruct (IsPasswordHash v) eqn:Eh; [by left|]. right. split; [done|]. intros Hq. by eapply Hn, HQ.
Qed.

Lemma upgrading_put P objs sp' name v h : upgrading P objs (s_objs sp') → objs !! (org, PasswordsCollection, name) = Some v →
  IsPasswordHash v = false → HashPassword iter (salts name) v = Ok h →
  upgrading (λ n, P n ∨ n = name) objs (s_objs (sp_put org PasswordsCollection name h sp')).
Proof.
  intros [Hf Hr] Hv Hp Hh. split.
  - intros k Hk. cbn. rewrite lookup_insert_ne; [by apply Hf|]. by intros <-.
  - intros n. cbn. specialize (Hr n). destruct (decide (n = name)) as [->|Hne].
    + rewrite Hv, lookup_insert_eq. exists h. split; [done|]. left. unfold upgraded. by rewrite Hp.
    + rewrite lookup_insert_ne by congruence. destruct (objs !! _); [|done].
      destruct Hr as (v' & E' & Hu). exists v'. split; [done|]. destruct Hu as [?|[? ?]]; [by left|]. right. tauto.
Qed.

Lemma ens_Upgrade order sp (Q : result nat → space → Prop) : (∀ l, order l ≡ₚ l) →
  (∀ sp' plain, upgrading (λ _, True) (s_objs sp) (s_objs sp') →
     plain ≡ₚ filter (λ d, IsPasswordHash d.2 = false) (map_to_list (coll_of org PasswordsCollection (s_objs sp))) →
     (plain = [] → sp' = sp) → Q (Ok (length plain)) sp') →
  (∀ e sp', upgrading (λ _, False) (s_objs sp) (s_objs sp') → Q (Err e) sp') →
  ensures (B := B) (O := O) (UpgradePasswords iter salts order org) sp Q.
Proof.
  intros Hord HO HE. pose proof (upgrading_start (s_objs sp)) as Hstart.
  apply ens_bind, ens_Range; [intros docs Hdocs|by auto].
  set (plain := filter (λ d, IsPasswordHash d.2 = false) docs).
  assert (∀ n v, (n, v) ∈ order plain ↔ s_objs sp !! (org, PasswordsCollection, n) = Some v ∧ IsPasswordHash v = false) as Hin.
  { intros n v. rewrite Hord. unfold plain. rewrite list_elem_of_filter, Hdocs, elem_of_map_to_list, lookup_coll_of. cbn. tauto. }
  apply ens_bind, ens_each with (inv := λ dn sp', upgrading (λ n, n ∈ dn.*1) (s_objs sp) (s_objs sp') ∧ (dn = [] → sp' = sp)).
  - split; [|done]. eapply upgrading_mono, Hstart. set_solver.
  - intros dn [n v] rest sp' El [Hi _]. destruct (Hin n v) as [Hnv _]. destruct Hnv as [Hv Hp]; [rewrite El; set_solver|]. cbn [fst snd].
    destruct (HashPassword iter (salts n) v) as [h|e] eqn:Eh.
    + apply ens_Put; [|intros e; apply HE; eapply upgrading_mono, Hi; done]. split; [|by destruct dn].
      eapply upgrading_mono, upgrading_put; [|done..]. intros m w _ _. rewrite fmap_app. set_solver.
    + intros s <-. apply HE. eapply upgrading_mono, Hi. done.
  - intros sp' [Hi Hnil]. apply ens_ret, HO.
    + eapply upgrading_mono, Hi. intros n v Hv Hp _. apply list_elem_of_fmap. exists (n, v). split; [done|]. by apply Hin.
    + unfold plain. by rewrite Hdocs.
    + intros Hpl. apply Hnil. apply Permutation_nil_r. by rewrite Hord, Hpl.
Qed.
End Upgrade.

(** The upgrade of values that are all hashes changes nothing. *)
Lemma upgrading_hashes `{PBKDF2} (iter : Z) (salts : string → result string) (org : string) (P : string → Prop) (objs objs' : objects) :
  (∀ name v, objs !! (org, PasswordsCollection, name) = Some v → IsPasswordHash v = true) →
  upgrading iter salts org P objs objs' → objs' = objs.
Proof.
  intros Hall [Hf Hr]. apply map_eq. intros [[o c] name]. destruct (decide ((o, c) = (org, PasswordsCollection))) as [[= -> ->]|Hne]; [|by apply Hf].
  specialize (Hr name). destruct (objs !! _) as [v|] eqn:E; [|done]. destruct Hr as (v' & -> & Hu).
  unfold upgraded in Hu. rewrite (Hall name v E) in Hu. f_equal. tauto.
Qed.

(** What a value that was upgraded or not accepts. *)
Lemma upgraded_verifies `{PBKDF2Spec} iter (salts : string → string) name v v' pw :
  (1 ≤ iter ≤ maxPasswordIterations)%Z → salts name ≠ "" → upgraded iter (λ n, Ok (salts n)) name v v' →
  IsPasswordHash v' = true ∧
  (VerifyPassword v' pw = true ↔ VerifyPassword v pw = true ∨
     IsPasswordHash v = false ∧ pbkdf2_Key pw (salts name) iter passwordKeyLen = pbkdf2_Key v (salts name) iter passwordKeyLen).
Proof.
  intros Hi Hs. unfold upgraded. destruct (IsPasswordHash v) eqn:Eh; [intros ->; split; [done|]; split; [tauto|by intros [?|[??]]]|].
  intros Hh. destruct (hash_verifies _ _ _ _ pw Hi Hs Hh) as [H1 H2]. split; [done|]. rewrite H2. split; [tauto|].
  intros [Hv|[_ Hv]]; [|done]. unfold VerifyPassword, IsPasswordHash in *. destruct (parsePasswordHash v); [done|].
  apply bool_decide_eq_true in Hv as ->. done.
Qed.

(** One run of the upgrade, and how many values it found in plain text. *)
Lemma upgrade_run `{PBKDF2} `{BackendSpec B} {O} iter salts order org (s : Store B O) : (∀ l, order l ≡ₚ l) →
  let '(r, s') := UpgradePasswords iter salts order org s in
  upgrading iter salts org (λ _, is_Ok r = true) (objs s) (objs s') ∧
  match r with
  | Ok n => n = length (filter (λ d, IsPasswordHash d.2 = false) (map_to_list (coll_of org PasswordsCollection (objs s))))
  | Err _ => True
  end.
Proof.
  intros Horder. pose proof (ens_Upgrade (B := B) (O := O) iter salts org order (view s.1) (λ r sp',
    upgrading iter salts org (λ _, is_Ok r = true) (objs s) (s_objs sp') ∧
    match r with
    | Ok n => n = length (filter (λ d, IsPasswordHash d.2 = false) (map_to_list (coll_of org PasswordsCollection (objs s))))
    | Err _ => True
    end) Horder) as L.
  ospecialize (L _ _ s eq_refl); [..|by destruct (UpgradePasswords _ _ _ _ s)].
  - intros sp' plain Hu Hp _. split; [by eapply upgrading_mono, Hu|]. by rewrite Hp.
  - intros e sp' Hu. split; [by eapply upgrading_mono, Hu|done].
Qed.

(** Upgrading the stored passwords loses none. Each value that was a hash is
    as it was, and each plain text is now a hash that accepts that text and
    otherwise only what has the same key; a failure part way leaves every value
    either as it was or upgraded. When all went well every value is a hash, and
    a second upgrade finds nothing to do. Nothing outside the collection
    changes. *)
Theorem upgrade_keeps_passwords `{PBKDF2Spec} `{BackendSpec B} {O} (iter : Z) (salts : string → string)
    (order : list (string * string) → list (string * string)) (org : string) (s : Store B O)
    (Hiter : (1 ≤ iter ≤ maxPasswordIterations)%Z) (Hsalts : ∀ name, salts name ≠ "") (Horder : ∀ l, order l ≡ₚ l) :
  let '(res, s1) := UpgradePasswords iter (λ n, Ok (salts n)) order org s in
  let '(res', s2) := UpgradePasswords iter (λ n, Ok (salts n)) order org s1 in
  (∀ name v, objs s !! (org, PasswordsCollection, name) = Some v →
     ∃ v', objs s1 !! (org, PasswordsCollection, name) = Some v' ∧
       (is_Ok res = true → IsPasswordHash v' = true) ∧
       ∀ pw, VerifyPassword v' pw = true ↔ VerifyPassword v pw = true ∨
         v' ≠ v ∧ pbkdf2_Key pw (salts name) iter passwordKeyLen = pbkdf2_Key v (salts name) iter passwordKeyLen) ∧
  (∀ k, k.1 ≠ (org, PasswordsCollection) → objs s1 !! k = objs s !! k) ∧
  (is_Ok res = true → (res' = Ok 0 ∨ is_Ok res' = false) ∧ objs s2 = objs s1).
Proof.
  pose proof (λ s0, upgrade_run (B := B) (O := O) iter (λ n, Ok (salts n)) order org s0 Horder) as Hup.
  pose proof (Hup s) as H1'. destruct (UpgradePasswords _ _ _ _ s) as [res s1].
  pose proof (Hup s1) as H2'. destruct (UpgradePasswords _ _ _ _ s1) as [res' s2].
  destruct H1' as [Hu _]. destruct H2' as [Hu' Hn]. clear Hup. split_and!; [|apply Hu|].
  - intros name v Hv. destruct Hu as [_ Hr]. specialize (Hr name). rewrite Hv in Hr. destruct Hr as (v' & Hv' & Hc). exists v'. split; [done|].
    destruct Hc as [Hc|[-> Hn']].
    + split; [intros _; by eapply (upgraded_verifies _ _ _ _ _ "" Hiter (Hsalts name) Hc)|]. intros pw.
      destruct (upgraded_verifies _ _ _ _ _ pw Hiter (Hsalts name) Hc) as [Hh Hiff]. rewrite Hiff.
      unfold upgraded in Hc. destruct (IsPasswordHash v) eqn:Eh; [subst v'|]; split; try tauto.
      intros [?|[? ?]]; [by left|right]. split; [congruence|done].
    + split; [by intros ?%Hn'|]. intros pw. split; [by left|by intros [?|[??]]].
  - intros Hok.
    assert (∀ name v, objs s1 !! (org, PasswordsCollection, name) = Some v → IsPasswordHash v = true) as Hall.
    { intros name v' Hv'. destruct Hu as [_ Hr]. specialize (Hr name). destruct (objs s !! _) as [v|]; [|congruence].
      destruct Hr as (v2 & Hv2 & [Hc|[_ Hc]]); [|done]. replace v' with v2 by congruence.
      by eapply (upgraded_verifies _ _ _ _ _ "" Hiter (Hsalts name) Hc). }
    split; [|by eapply upgrading_hashes]. destruct res' as [n|]; [|by right]. left. f_equal.
    assert (filter (λ d, IsPasswordHash d.2 = false) (map_to_list (coll_of org PasswordsCollection (objs s1))) = []) as Hnil.
    { apply filter_none, Forall_forall. intros [name v] Hin. apply elem_of_map_to_list in Hin. rewrite lookup_coll_of in Hin. cbn. by rewrite (Hall _ _ Hin). }
    by rewrite Hnil in Hn.
Qed.

(** ** authenticate_user *)

(** Who may ask: anyone where requests have no actor, else the superuser and the
    console. *)
Definition may_ask (r : request) : Prop :=
  match r_actor r with None => True | Some a => IsGlobalAdmin a = true ∨ ViaWebUI a = true end.

(** The credentials are those of a stored user. *)
Definition logs_in `{PBKDF2} (objs : objects) (c : credentials) (user : string) : Prop :=
  objs !! (Global, "users", credentials_user c) = Some user ∧
  ∃ stored, objs !! (Global, PasswordsCollection, credentials_user c) = Some stored ∧ VerifyPassword stored (c_password c) = true.

Definition login_outcome `{PBKDF2} (r : request) (rep : reply) (objs : objects) : Prop :=
  status rep = 500%Z ∨
  (status rep = 403%Z ∧ ¬ may_ask r) ∨
  (may_ask r ∧
   match decode_credentials (r_body r) with
   | None => status rep = 400%Z
   | Some c =>
       (∃ user m, logs_in objs c user ∧ unmarshal_map user = Some m ∧
          rep = writeJSON 200 (VObj [("status", VStr "linked"); ("user", match m with Some m => VObj m | None => VNull end)])) ∨
       (status rep = 401%Z ∧ ¬ ∃ user, logs_in objs c user)
   end).

Lemma authenticateUser_ensures `{PBKDF2} `{BackendSpec B} {O} r sp :
  h_ensures (B := B) (O := O) (authenticateUser r) sp (λ res sp', sp' = sp ∧ login_outcome r (reply_of res) (s_objs sp)).
Proof.
  unfold authenticateUser, login_outcome, may_ask.
  destruct (match r_actor r with Some a => _ | None => _ end) eqn:Ea.
  { apply h_ens_reply. split; [done|]. right. left. split; [done|]. destruct (r_actor r) as [[? ? [] []]|]; cbn in *; naive_solver. }
  assert (match r_actor r with None => True | Some a => IsGlobalAdmin a = true ∨ ViaWebUI a = true end) as Hmay.
  { destruct (r_actor r) as [[? ? [] []]|]; cbn in *; naive_solver. }
  destruct (decode_credentials (r_body r)) as [c|]; [|apply h_ens_reply; split; [done|]; by right; right].
  cbv zeta. apply h_ens_bind, h_ens_or_500, ens_Get; [|intros e; split; [done|by left]].
  destruct (s_objs sp !! (Global, "users", credentials_user c)) as [raw|] eqn:Eu.
  2:{ apply h_ens_reply. split; [done|]. right. right. split; [done|]. right. split; [done|]. intros (user & Hu & _). congruence. }
  apply h_ens_bind, h_ens_or_500, ens_Get; [|intros e; split; [done|by left]].
  destruct (s_objs sp !! (Global, PasswordsCollection, credentials_user c)) as [stored|] eqn:Es.
  2:{ apply h_ens_reply. split; [done|]. right. right. split; [done|]. right. split; [done|]. intros (user & _ & st & Hst & _). congruence. }
  destruct (VerifyPassword stored (c_password c)) eqn:Ev; cbn [negb].
  - destruct (unmarshal_map raw) as [m|] eqn:Em; [|apply h_ens_reply; split; [done|by left]].
    apply h_ens_ret. split; [done|]. right. right. split; [done|]. left. exists raw, m. split_and!; [|done..].
    split; [done|]. eauto.
  - apply h_ens_reply. split; [done|]. right. right. split; [done|]. right. split; [done|].
    intros (user & _ & st & Hst & Hv). congruence.
Qed.

(** authenticate_user decides exactly. Only the superuser and the console may
    ask (403 otherwise), a body that is not credentials is answered 400, and the
    reply is the user's record if and only if the user is stored and the password
    given is the one stored for it; else it is 401, the same for an unknown user
    as for a wrong password. Nothing is stored, and only a fault is answered
    500. *)
Theorem authentication_by_password `{PBKDF2} `{BackendSpec B} {O} (r : request) (s : Store B O) :
  let '(rep, s') := replied (authenticateUser r s) in
  view s'.1 = view s.1 ∧ login_outcome r rep (objs s).
Proof.
  apply (replied_ensures (authenticateUser r) (λ rep sp sp', sp' = sp ∧ login_outcome r rep (s_objs sp))).
  apply authenticateUser_ensures.
Qed.

(** ** Witnesses *)

#[local] Instance toy_pbkdf2 : PBKDF2 := {| pbkdf2_Key := λ pw salt iter n, Ok (str_take n (pw +:+ zeros n)) |}.
#[local] Instance toy_pbkdf2_spec : PBKDF2Spec.
Proof.
  constructor. intros pw salt iter n k [= <-]. apply length_str_take. rewrite length_app_string.
  assert (String.length (zeros n) = n) as -> by (induction n; cbn; congruence). lia.
Qed.

Definition plain_store : Store Memory.memoryBackend groupIndexCache := (Org_Put Global PasswordsCollection "alice" "s3cret" mem_server).2.

Lemma upgrade_keeps_passwords_witness :
  ∃ v', objs (UpgradePasswords 2 (λ n, Ok ("salt" +:+ n)) id Global plain_store).2 !! (Global, PasswordsCollection, "alice") = Some v' ∧
    VerifyPassword v' "s3cret" = true.
Proof.
  assert (objs plain_store !! (Global, PasswordsCollection, "alice") = Some "s3cret") as Ev by (vm_compute; reflexivity).
  pose proof (upgrade_keeps_passwords 2 (λ n, "salt" +:+ n) id Global plain_store) as Ht.
  destruct (UpgradePasswords 2 _ id Global plain_store) as [res s1]. destruct (UpgradePasswords 2 _ id Global s1) as [res' s2].
  destruct Ht as (Ht & _); [unfold maxPasswordIterations; lia|done|done|].
  destruct (Ht "alice" "s3cret" Ev) as (v' & Hv' & _ & Hp). exists v'. split; [exact Hv'|]. apply Hp. left. by vm_compute.
Defined.
