(* ===== verification/Users.v ===== *)
(** * Validation of users (internal/api/user_validation.go)

    Names, addresses and passwords of user bodies, and the merge of an update
    into the stored record. The address pattern is a regular expression over
    runes, matched by derivatives; [lang] is what it means. *)
From S2P Require Import Prelude GoText Json Chefjson Float GoJson Stored Objects Manifest Records.
#[local] Open Scope go_scope.

(** ** Regular expressions (regexp, without captures) *)

Inductive re :=
  | Void
  | Eps
  | Cls (P : Z → bool)
  | Cat (a b : re)
  | Alt (a b : re)
  | Star (a : re).

(** The strings of runes an expression matches from end to end. *)
Inductive lang : re → list Z → Prop :=
  | lang_eps : lang Eps []
  | lang_cls P r : P r = true → lang (Cls P) [r]
  | lang_cat a b u v : lang a u → lang b v → lang (Cat a b) (u ++ v)
  | lang_alt_l a b u : lang a u → lang (Alt a b) u
  | lang_alt_r a b u : lang b u → lang (Alt a b) u
  | lang_star_nil a : lang (Star a) []
  | lang_star_cons a u v : lang a u → lang (Star a) v → lang (Star a) (u ++ v).

Definition cat (a b : re) : re := match a, b with Void, _ | _, Void => Void | Eps, _ => b | _, _ => Cat a b end.
Definition alt (a b : re) : re := match a, b with Void, _ => b | _, Void => a | _, _ => Alt a b end.

Fixpoint nullable (e : re) : bool :=
  match e with
  | Void | Cls _ => false
  | Eps | Star _ => true
  | Cat a b => nullable a && nullable b
  | Alt a b => nullable a || nullable b
  end.

Fixpoint deriv (r : Z) (e : re) : re :=
  match e with
  | Void | Eps => Void
  | Cls P => if P r then Eps else Void
  | Cat a b => if nullable a then alt (cat (deriv r a) b) (deriv r b) else cat (deriv r a) b
  | Alt a b => alt (deriv r a) (deriv r b)
  | Star a => cat (deriv r a) (Star a)
  end.

Definition re_match (e : re) (s : string) : bool := nullable (foldl (λ e r, deriv r e) e (runes s)).

Definition plus (a : re) : re := Cat a (Star a).
Definition opt (a : re) : re := Alt Eps a.

(** [(?i)]: the runes equal to one under simple case folding, of those that fold
    with ASCII. *)
Definition orbit (r : Z) : list Z :=
  let lower := if decide (65 ≤ r ≤ 90)%Z then (r + 32)%Z
               else if decide (r = 0x17F)%Z then 115%Z else if decide (r = 0x212A)%Z then 107%Z else r in
  if decide (97 ≤ lower ≤ 122)%Z then r :: [lower; (lower - 32)%Z] else [r].
Definition in_range (r : Z) (lh : Z * Z) : bool := bool_decide (lh.1 ≤ r ≤ lh.2)%Z.
Definition cls (ranges : list (Z * Z)) : re := Cls (λ r, existsb (λ x, existsb (in_range x) ranges) (orbit r)).
Definition lit (c : ascii) : re := cls [(byte_of c, byte_of c)].
Definition chars (s : list ascii) : list (Z * Z) := map (λ c, (byte_of c, byte_of c)) s.

(** ** The address pattern *)

Definition lower_digit : list (Z * Z) := [(97, 122); (48, 57)]%Z.
Definition digit_re : re := cls [(48, 57)%Z].
Definition atext : re :=
  cls (lower_digit ++ chars ["!"; "#"; "$"; "%"; "&"; "'"; "*"; "+"; "/"; "="; "?"; "^"; "_"; "`"; "{"; "|"; "}"; "~"; "-"]%char).
Definition escaped : re := Cat (lit "\") (cls [(1, 9); (0x0b, 0x0b); (0x0c, 0x0c); (0x0e, 0x7f)]%Z).
Definition quoted : re :=
  Cat (lit quote) (Cat (Star (Alt (cls [(1, 8); (0x0b, 0x0b); (0x0c, 0x0c); (0x0e, 0x1f); (0x21, 0x21); (0x23, 0x5b); (0x5d, 0x7f)]%Z) escaped)) (lit quote)).
Definition hyphened : re := Star (cls (lower_digit ++ chars ["-"]%char)).
Definition label : re := Cat (cls lower_digit) (opt (Cat hyphened (cls lower_digit))).
Definition octet : re :=
  Alt (Cat (lit "2") (Cat (lit "5") (cls [(48, 53)%Z])))
    (Alt (Cat (lit "2") (Cat (cls [(48, 52)%Z]) digit_re)) (Cat (opt (cls [(48, 49)%Z])) (Cat digit_re (opt digit_re)))).
Definition octet_dot : re := Cat octet (lit ".").
Definition tagged : re :=
  Cat hyphened (Cat (cls lower_digit) (Cat (lit ":")
    (plus (Alt (cls [(1, 8); (0x0b, 0x0b); (0x0c, 0x0c); (0x0e, 0x1f); (0x21, 0x5a); (0x53, 0x7f)]%Z) escaped)))).
Definition address_literal : re :=
  Cat (lit "[") (Cat octet_dot (Cat octet_dot (Cat octet_dot (Cat (Alt octet tagged) (lit "]"))))).
Definition userEmailRE : re :=
  Cat (Alt (Cat (plus atext) (Star (Cat (lit ".") (plus atext)))) quoted)
    (Cat (lit "@") (Alt (Cat (plus (Cat label (lit "."))) label) address_literal)).

Definition userNameRE (s : string) : bool :=
  bool_decide (s ≠ "") &&
  str_forall (λ c, bool_decide (97 ≤ byte_of c ≤ 122)%Z || digit c || bool_decide (c ∈ ["-"; "_"]%char)) s.
Definition malformedUserName : string := "Malformed user name. Must only contain a-z, 0-9, _, or -".

(** ** Validation *)

(** A member that is there and not null. *)
Definition present (v : option value) : option value := match v with Some VNull => None | _ => v end.

Definition userNameField (o : obj) : option value :=
  match assoc o "name" with Some v => Some v | None => assoc o "username" end.

Definition externalAuthUID (o : obj) (stored : option obj) : option value :=
  match present (assoc o "external_authentication_uid") with
  | Some v => Some v
  | None => present (assoc (members stored) "external_authentication_uid")
  end.

Definition isString (v : value) : bool := match v with VStr _ => true | _ => false end.

(** The message of the first problem, or [None] when the body is valid. *)
Definition validateUser (o : obj) (stored : option obj) (create : bool) : option string :=
  let name_ok := match userNameField o with Some (VStr s) => userNameRE s | Some _ => false | None => true end in
  let password_ok := match present (assoc o "password") with
    | Some (VStr s) => negb (bool_decide (String.length s < 6)) | Some _ => false | None => true end in
  if negb name_ok then Some malformedUserName
  else match present (assoc o "display_name") with
  | None => Some "Field 'display_name' missing"
  | Some v =>
      if negb (isString v) then Some "Field 'display_name' invalid"
      else if negb password_ok then Some "Password must have at least 6 characters"
      else match externalAuthUID o stored with
      | Some _ => None
      | None =>
          match present (assoc o "email") with
          | None => Some "Field 'email' missing"
          | Some v =>
              if negb (match v with VStr s => re_match userEmailRE s | _ => false end) then Some "email must be valid"
              else if create && bool_decide (present (assoc o "password") = None) then Some "Field 'password' missing"
              else None
          end
      end
  end.

Definition lowerEmail `{Unicode} (o : obj) : obj :=
  match assoc o "email" with Some (VStr s) => Set_ o "email" (VStr (ToLower s)) | _ => o end.

(** One field of the body applied to the record. *)
Definition merge_member (out : obj) (m : string * value) : obj :=
  match m.2 with VNull => filter (λ e, e.1 ≠ m.1) out | v => Set_ out m.1 v end.
Definition mergeUser (stored : option obj) (body : obj) : obj := foldl merge_member (members stored) body.

(** ** What the matcher matches *)

Lemma lang_void u : ¬ lang Void u.
Proof. by inversion 1. Qed.

Lemma lang_Cat a b u : lang (Cat a b) u ↔ ∃ v w, u = v ++ w ∧ lang a v ∧ lang b w.
Proof. split; [inversion 1; subst; eauto|]. intros (v & w & -> & Hv & Hw). by constructor. Qed.

Lemma lang_cat_iff a b u : lang (cat a b) u ↔ lang (Cat a b) u.
Proof.
  assert (∀ u, lang Eps u ↔ u = []) as He by (split; [by inversion 1|intros ->; constructor]).
  assert (∀ a, lang (Cat Void a) u ↔ False) as Hv by (intros ?; rewrite lang_Cat; split; [by intros (? & ? & _ & ?%lang_void & _)|done]).
  assert (∀ a, lang (Cat a Void) u ↔ False) as Hv' by (intros ?; rewrite lang_Cat; split; [by intros (? & ? & _ & _ & ?%lang_void)|done]).
  assert (∀ b, lang (Cat Eps b) u ↔ lang b u) as Hc.
  { intros b'. rewrite lang_Cat. setoid_rewrite He. split; [by intros (? & ? & -> & -> & ?)|intros; by exists [], u]. }
  assert (lang Void u ↔ False) as Hu by (split; [apply lang_void|done]).
  destruct a, b; cbn [cat]; rewrite ?Hv, ?Hv', ?Hc, ?Hu; done.
Qed.

Lemma lang_alt_iff a b u : lang (alt a b) u ↔ lang a u ∨ lang b u.
Proof.
  assert (∀ a b, lang (Alt a b) u ↔ lang a u ∨ lang b u) as Ha.
  { intros. split; [inversion 1; auto|intros [?|?]; by constructor]. }
  assert (lang Void u ↔ False) as Hu by (split; [apply lang_void|done]).
  destruct a, b; cbn [alt]; rewrite ?Ha, ?Hu; tauto.
Qed.

Lemma nullable_iff e : nullable e = true ↔ lang e [].
Proof.
  induction e as [| |P|a IHa b IHb|a IHa b IHb|a IHa]; cbn [nullable].
  - split; [done|by inversion 1].
  - split; [constructor|done].
  - split; [done|by inversion 1].
  - rewrite andb_true_iff, IHa, IHb. split; [intros [Ha Hb]; by apply (lang_cat _ _ [] [])|].
    intros (u & v & Heq & Hu & Hv)%lang_Cat. symmetry in Heq. apply app_eq_nil in Heq as [-> ->]. done.
  - rewrite orb_true_iff, IHa, IHb. split; [intros [?|?]; by constructor|inversion 1; auto].
  - split; [constructor|done].
Qed.

(** A match of a starred expression that reads a rune reads it in one turn. *)
Lemma lang_star_rune a r u : lang (Star a) (r :: u) → ∃ v w, u = v ++ w ∧ lang a (r :: v) ∧ lang (Star a) w.
Proof.
  remember (Star a) as e. remember (r :: u) as l. intros Hl. revert u Heql.
  induction Hl as [| | | | | |a' v w Hv _ Hw IH]; intros t Heql; try done. injection Heqe as ->. destruct v as [|x v].
  - by apply IH.
  - injection Heql as -> <-. eauto.
Qed.

Lemma deriv_iff r e : ∀ u, lang (deriv r e) u ↔ lang e (r :: u).
Proof.
  induction e as [| |P|a IHa b IHb|a IHa b IHb|a IHa]; intros u; cbn [deriv].
  - split; by inversion 1.
  - split; by inversion 1.
  - destruct (P r) eqn:Er; split; inversion 1; subst; try done; [by constructor|constructor|congruence].
  - assert (lang (Cat a b) (r :: u) ↔ lang (Cat (deriv r a) b) u ∨ (lang a [] ∧ lang b (r :: u))) as Hc.
    { split.
      - intros (v & w & Heq & Hv & Hw)%lang_Cat. destruct v as [|x v]; cbn in *; [by right; subst|].
        injection Heq as -> ->. left. constructor; [by apply IHa|done].
      - intros [Hl|[Ha Hb]]; [|by apply (lang_cat _ _ [])]. apply lang_Cat in Hl as (v & w & -> & Hv & Hw).
        apply IHa in Hv. by apply (lang_cat _ _ (r :: v)). }
    rewrite Hc. destruct (nullable a) eqn:En.
    + rewrite lang_alt_iff, lang_cat_iff, IHb. apply nullable_iff in En. tauto.
    + rewrite lang_cat_iff. assert (¬ lang a []) as Hn by (intros Hn%nullable_iff; congruence). tauto.
  - rewrite lang_alt_iff, IHa, IHb. split; [intros [?|?]; by constructor|inversion 1; auto].
  - rewrite lang_cat_iff. split.
    + intros (v & w & -> & Hv & Hw)%lang_Cat. apply IHa in Hv. by apply (lang_star_cons _ (r :: v)).
    + intros (v & w & -> & Hv & Hw)%lang_star_rune. constructor; [by apply IHa|done].
Qed.

Lemma re_match_iff e s : re_match e s = true ↔ lang e (runes s).
Proof.
  unfold re_match. generalize (runes s). intros l. revert e. induction l as [|r l IH]; intros e; cbn [foldl]; [apply nullable_iff|].
  by rewrite IH, deriv_iff.
Qed.

Example email_samples :
  map (re_match userEmailRE) ["Ada.Lovelace@example.com"; String quote ("a.." +:+ String quote "@x.io"); "x@[127.0.0.1]"; "x@y"; "a..b@x.io"; "@x.io"; "a@-x.io"]
  = [true; true; true; false; false; false; false].
Proof. vm_compute. reflexivity. Qed.
