(* ===== verification/Keys.v ===== *)
(** * Keys of actors (internal/api/keys.go, keyvalidation.go)

    The key endpoints of clients and users, the keys that authenticate an actor,
    and the public key its record carries for the default one. *)
From S2P Require Import Prelude GoText Json Chefjson Float GoJson Stored Store Facade Groups Http Effects Acl AclDocs GroupApi Presign Objects Manifest Auth Time Environments DataBags Records.
#[local] Open Scope go_scope.
#[local] Open Scope http_scope.

(** ** Public keys (internal/auth/keys.go) *)

(** encoding/pem and crypto/x509: a PEM block is its type and its bytes; a PKIX
    key may be of another kind than RSA. *)
Class X509 := {
  pem_Decode : string → option (string * string);
  ParsePKIXPublicKey : string → result (option PublicKey);
  ParsePKCS1PublicKey : string → result PublicKey;
}.

Definition ParsePublicKey `{X509} (pem : string) : result PublicKey :=
  match pem_Decode pem with
  | None => Err (ErrOther "auth: no PEM block found in public key")
  | Some (typ, bytes) =>
      if decide (typ = "PUBLIC KEY") then
        match ParsePKIXPublicKey bytes with
        | Err _ => Err (ErrOther "auth: parse PKIX public key")
        | Ok None => Err (ErrOther "auth: public key is not RSA")
        | Ok (Some key) => Ok key
        end
      else if decide (typ = "RSA PUBLIC KEY") then ParsePKCS1PublicKey bytes
      else Err (ErrOther "auth: unexpected PEM type for public key")
  end.

(** ** Validation *)

Definition clientNameRE (s : string) : bool := name_text s.
Definition keyNameRE (s : string) : bool := roleNameRE s.

(** [[0-9]{4}-[0-9]{2}-[0-9]{2}T[0-9]{2}:[0-9]{2}:[0-9]{2}Z], or infinity. *)
Fixpoint date_shape (shape s : string) : bool :=
  match shape, s with
  | EmptyString, EmptyString => true
  | String p shape', String c s' =>
      (if decide (p = "d"%char) then digit c else bool_decide (p = c)) && date_shape shape' s'
  | _, _ => false
  end.
Definition infinity : string := "infinity".
Definition keyDateRE (s : string) : bool := date_shape "dddd-dd-ddTdd:dd:ddZ" s || bool_decide (s = infinity).

Definition invalidPublicKeyMessage : string := "Public Key must be a valid key.".
Definition badExpirationDateMessage : string :=
  "Field expiration_date is invalid. All dates must be a valid date in ISO8601 form of exactly YYYY-MM-DDThh:mm:ss, eg 2099-02-28T01:00:00, or the string " +:+
  String quote "infinity" +:+ String quote ". All times are assumed UTC, so do not include a Z on the end of your date.".
Definition invalidClientNameMessage (name : string) : string :=
  "Invalid client name '" +:+ name +:+ "' using regex: 'Malformed client name.  Must be A-Z, a-z, 0-9, _, -, or .'.".

Definition validKeyName (s : string) : bool := keyNameRE s && bool_decide (s ≠ ".") && bool_decide (s ≠ "..").

Definition validPublicKey `{X509} (s : string) : bool :=
  (has_prefix "-----BEGIN PUBLIC KEY" s || has_prefix "-----BEGIN RSA PUBLIC KEY" s) && is_Ok (ParsePublicKey s).

(** The layout ends in a literal Z, and the shape is checked first, so the reader
    of RFC 3339 decides the same. *)
Definition validExpirationDate (s : string) : bool :=
  keyDateRE s && (bool_decide (s = infinity) || bool_decide (is_Some (Parse_RFC3339 s))).

Definition str (v : option value) : string := match v with Some (VStr s) => s | _ => "" end.

(** A field that is there, not null and not empty. *)
Definition given (body : obj) (field : string) : option value :=
  match assoc body field with
  | None | Some VNull => None
  | Some (VStr s) => if decide (s = "") then None else Some (VStr s)
  | Some v => Some v
  end.

Definition validateKeyFields `{X509} (body : obj) : option string :=
  first_refusal id
    [match assoc body "name" with Some v => refuse_unless (validKeyName (str (Some v))) "Field 'name' invalid" | None => None end;
     match given body "public_key" with
     | Some v => refuse_unless (validPublicKey (str (Some v))) invalidPublicKeyMessage | None => None end;
     match given body "expiration_date" with
     | Some v => refuse_unless (validExpirationDate (str (Some v))) badExpirationDateMessage | None => None end].

(** ** Rows *)

Definition defaultKeyName : string := "default".

Definition keyExpired (expiration : string) (now : time) : bool :=
  if decide (expiration = "" ∨ expiration = infinity) then false
  else match Parse_RFC3339 expiration with
       | None => true
       | Some t => negb (After t now)
       end.

Record storedKey := mkStoredKey { PublicKey_ : string; ExpirationDate : string }.

Definition storedKey_field (k : storedKey) (name : string) (v : value) : option storedKey :=
  if decide (fold_name name = "public_key") then (λ s, mkStoredKey s (ExpirationDate k)) <$> string_field "public_key" (PublicKey_ k) name v
  else if decide (fold_name name = "expiration_date") then (λ s, mkStoredKey (PublicKey_ k) s) <$> string_field "expiration_date" (ExpirationDate k) name v
  else Some k.

Definition decode_key (raw : string) : option storedKey :=
  v ← decode false raw; decode_struct storedKey_field (mkStoredKey "" "") v.

(** The expiration a failed decode leaves: fields of another type are skipped. *)
Definition lenient_expiration (raw : string) : string :=
  match decode false raw with
  | Some (VObj ms) =>
      foldl (λ old m, if decide (fold_name m.1 = "expiration_date") then match m.2 with VStr s => s | _ => old end else old) "" ms
  | _ => ""
  end.

Definition keysColl (segment actor : string) : string := segment +:+ "_keys:" +:+ actor.

(** One row of the range in [SigningKeys]. *)
Definition signing_key (now : time) (d : string * string) : option string :=
  match decode_key d.2 with
  | Some k => if decide (PublicKey_ k = "" ∨ keyExpired (ExpirationDate k) now = true) then None else Some (PublicKey_ k)
  | None => None
  end.

Definition keyObject (name publicKey : string) : value :=
  VObj [("name", VStr name); ("public_key", VStr publicKey); ("expiration_date", VStr infinity); ("expired", VBool false)].
Definition keyListItem (base name : string) (expired : bool) : value :=
  VObj [("name", VStr name); ("uri", VStr (base +:+ "/" +:+ name)); ("expired", VBool expired)].

Definition key_doc (name pub expiration : string) : obj :=
  [("name", VStr name); ("public_key", VStr pub); ("expiration_date", VStr expiration)].

Definition public_key_of (actor : option obj) : string := str (assoc (members actor) "public_key").

(** The organization of client routes, or the global space of user routes. *)
Inductive scope := InOrg (name : string) | Everywhere.
Definition orgSegment (sc : scope) : string := match sc with InOrg name => name | Everywhere => "" end.

Definition keysBaseURL (r : request) (sc : scope) (segment actor : string) : string :=
  objectURL r (orgSegment sc) segment actor +:+ "/keys".

Section Handlers.
Context `{X509}.
Context {B : Type} `{Backend B} {O : Type}.
Abbreviation st := (Store B O).

Definition scope_org (sc : scope) : handler st string :=
  match sc with InOrg name => API_org name | Everywhere => h_ret Global end.

Definition SigningKeys (org segment name actorPublicKey : string) (now : time) : ST st (list string) :=
  let! docs := Org_Range org (keysColl segment name) in
  let keys := omap (signing_key now) docs in
  let storedDefault := existsb (λ d, bool_decide (d.1 = defaultKeyName)) docs in
  st_ret (if negb storedDefault && bool_decide (actorPublicKey ≠ "") then keys ++ [actorPublicKey] else keys).

(** The record with its public key set, or without one; [None] is an assignment
    to a nil map. *)
Definition with_public_key (actor : option obj) (pub : string) : option value :=
  if decide (pub = "") then Some (match actor with None => VNull | Some m => VObj (filter (λ e, e.1 ≠ "public_key") m) end)
  else match actor with None => None | Some m => Some (VObj (Set_ m "public_key" (VStr pub))) end.

Definition setActorPublicKey (org segment name : string) (actor : option obj) (pub : string) : handler st unit :=
  match with_public_key actor pub with
  | None => h_reply panic
  | Some doc => or_500 (Org_Put org segment name (mustEncode doc))
  end.

(** [None] of the row: there is none. *)
Definition setStoredDefaultPublicKey (org segment name pub : string) : ST st (option unit) :=
  let! raw := Org_Get org (keysColl segment name) defaultKeyName in
  match raw with
  | None => st_ret (Some tt)
  | Some raw =>
      match unmarshal_map raw with
      | None => st_fail (ErrOther "json: cannot unmarshal")
      | Some None => st_ret None
      | Some (Some row) =>
          Org_Put org (keysColl segment name) defaultKeyName (mustEncode (VObj (Set_ row "public_key" (VStr pub)))) ;;!
          st_ret (Some tt)
      end
  end.

Definition deleteActorKeys (org segment name : string) : ST st unit :=
  let coll := keysColl segment name in
  let! names := Org_Keys org coll in
  st_each (λ kn, Org_Delete org coll kn ;;! st_ret tt) names.

(** A record that does not decode leaves the reply unwritten. *)
Definition loadActor (org segment name : string) : handler st (option obj) :=
  let? o := or_500 (Org_Get org segment name) in
  match o with
  | None => h_reply (writeError 404 ["Cannot find " +:+ segment +:+ " " +:+ name])
  | Some raw => match unmarshal_map raw with Some m => h_ret m | None => h_reply (mkReply 200 NoBody) end
  end.

Fixpoint list_items (now : time) (base org coll : string) (names : list string) : ST st (list value) :=
  match names with
  | [] => st_ret []
  | kn :: names' =>
      let! raw := Org_Get org coll kn in
      let! rest := list_items now base org coll names' in
      st_ret (match raw with
              | None => rest
              | Some raw => keyListItem base kn (keyExpired (lenient_expiration raw) now) :: rest
              end)
  end.

Definition listKeys (now : time) (segment : string) (sc : scope) (r : request) (name : string) : handler st reply :=
  let? org := scope_org sc in
  let? actor := loadActor org segment name in
  let coll := keysColl segment name in
  let base := keysBaseURL r sc segment name in
  let? row := or_500 (Org_Get org coll defaultKeyName) in
  let synthetic := match row with
    | None => if decide (public_key_of actor ≠ "") then [keyListItem base defaultKeyName false] else []
    | Some _ => []
    end in
  let? kns := or_500 (Org_Keys org coll) in
  let? items := or_500 (list_items now base org coll kns) in
  h_ret (writeJSON 200 (VArr (synthetic ++ items))).

Definition no_key (keyName : string) : reply := writeError 404 ["Cannot find key " +:+ keyName].

Definition getKey (segment : string) (sc : scope) (name keyName : string) : handler st reply :=
  let? org := scope_org sc in
  let? actor := loadActor org segment name in
  let? row := or_500 (Org_Get org (keysColl segment name) keyName) in
  match row with
  | Some raw => h_ret (writeRaw 200 raw)
  | None =>
      if decide (keyName = defaultKeyName ∧ public_key_of actor ≠ "")
      then h_ret (writeJSON 200 (keyObject defaultKeyName (public_key_of actor)))
      else h_reply (no_key keyName)
  end.

Definition key_exists : reply := writeError 409 ["Key already exists"].

(** [pair]: what key generation returns, public and private half. *)
Definition addKey (pair : result (string * string)) (segment : string) (sc : scope) (r : request) (name : string) : handler st reply :=
  let? org := scope_org sc in
  let? actor := loadActor org segment name in
  match decode_body_map (r_body r) with
  | None => h_reply (writeError 400 ["invalid JSON body"])
  | Some m =>
      let body := members m in
      let keyName := str (assoc body "name") in
      if decide (keyName = "") then h_reply (writeError 400 ["Field 'name' missing"])
      else match validateKeyFields body with
      | Some msg => h_reply (writeError 400 [msg])
      | None =>
          if decide (keyName = defaultKeyName ∧ public_key_of actor ≠ "") then h_reply key_exists
          else
            let uri := ("uri", VStr (keysBaseURL r sc segment name +:+ "/" +:+ keyName)) in
            let? made := (if decide (str (assoc body "public_key") ≠ "") then h_ret (str (assoc body "public_key"), [uri])
                          else match pair with
                               | Err e => h_reply (internal_error e)
                               | Ok (pub, priv) => h_ret (pub, [uri; ("private_key", VStr priv)])
                               end) in
            let expiration := str (assoc body "expiration_date") in
            let expiration := if decide (expiration = "") then infinity else expiration in
            create_or_409 org (keysColl segment name) keyName (mustEncode (VObj (key_doc keyName made.1 expiration)))
              "Key already exists" ;;?
            (if decide (keyName = defaultKeyName) then setActorPublicKey org segment name actor made.1 else h_ret tt) ;;?
            h_ret (writeJSON 201 (VObj made.2))
      end
  end.

(** The reply of an update: the stored text, or with the private half that is
    never stored. *)
Definition key_reply (code : Z) (key : obj) (privateKey : string) : reply :=
  if decide (privateKey = "") then writeRaw code (mustEncode (VObj key))
  else writeJSON code (VObj (key ++ [("private_key", VStr privateKey)])).

(** Updating the default key of the record stores it as a row. *)
Definition put_synthetic (org segment name keyName : string) (actor : option obj) (body : obj) (privateKey : string)
    : handler st reply :=
  if decide (public_key_of actor = "") then h_reply (no_key keyName)
  else
    let pub := str (assoc body "public_key") in
    let pub := if decide (pub = "") then public_key_of actor else pub in
    let expiration := str (assoc body "expiration_date") in
    let expiration := if decide (expiration = "") then infinity else expiration in
    let key := key_doc defaultKeyName pub expiration in
    or_500 (Org_Put org (keysColl segment name) defaultKeyName (mustEncode (VObj key))) ;;?
    setActorPublicKey org segment name actor pub ;;?
    h_ret (key_reply 200 key privateKey).

(** Updating or renaming a row. *)
Definition put_stored (org segment name keyName oldRaw : string) (actor : option obj) (body : obj) (privateKey : string)
    : handler st reply :=
  let coll := keysColl segment name in
  match decode_key oldRaw with
  | None => h_reply (internal_error (ErrOther "json: cannot unmarshal"))
  | Some old =>
      let newName := str (assoc body "name") in
      let newName := if decide (newName = "") then keyName else newName in
      if negb (validKeyName newName) then h_reply (writeError 400 ["Field 'name' invalid"])
      else
        let field name old := let v := str (assoc body name) in if decide (v = "") then old else v in
        let pub := field "public_key" (PublicKey_ old) in
        let key := key_doc newName pub (field "expiration_date" (ExpirationDate old)) in
        if decide (newName = keyName) then
          or_500 (Org_Put org coll keyName (mustEncode (VObj key))) ;;?
          (if decide (keyName = defaultKeyName) then setActorPublicKey org segment name actor pub else h_ret tt) ;;?
          h_ret (key_reply 200 key privateKey)
        else if decide (newName = defaultKeyName ∧ public_key_of actor ≠ "") then h_reply key_exists
        else
          create_or_409 org coll newName (mustEncode (VObj key)) "Key already exists" ;;?
          or_500 (Org_Delete org coll keyName) ;;?
          (if decide (keyName = defaultKeyName) then setActorPublicKey org segment name actor ""
           else if decide (newName = defaultKeyName) then setActorPublicKey org segment name actor pub
           else h_ret tt) ;;?
          h_ret (key_reply 201 key privateKey)
  end.

Definition putKey (pair : result (string * string)) (segment : string) (sc : scope) (r : request) (name keyName : string)
    : handler st reply :=
  let? org := scope_org sc in
  let? actor := loadActor org segment name in
  match decode_body_map (r_body r) with
  | None => h_reply (writeError 400 ["invalid JSON body"])
  | Some m =>
      let createKey := match assoc (members m) "create_key" with Some (VBool b) => b | _ => false end in
      let body := filter (λ e, e.1 ≠ "create_key") (members m) in
      if decide (createKey = true ∧ str (assoc body "public_key") ≠ "") then
        h_reply (writeError 400 ["Since you requested a new key be created, you cannot also specify a public_key."])
      else match validateKeyFields body with
      | Some msg => h_reply (writeError 400 [msg])
      | None =>
          let? row := or_500 (Org_Get org (keysColl segment name) keyName) in
          if decide (row = None ∧ keyName ≠ defaultKeyName) then h_reply (no_key keyName)
          else
            let? made := (if createKey then match pair with
                            | Err e => h_reply (internal_error e)
                            | Ok (pub, priv) => h_ret (Set_ body "public_key" (VStr pub), priv)
                            end
                          else h_ret (body, "")) in
            match row with
            | None => put_synthetic org segment name keyName actor made.1 made.2
            | Some oldRaw => put_stored org segment name keyName oldRaw actor made.1 made.2
            end
      end
  end.

Definition deleteKey (segment : string) (sc : scope) (name keyName : string) : handler st reply :=
  let? org := scope_org sc in
  let? actor := loadActor org segment name in
  let? row := or_500 (Org_Delete org (keysColl segment name) keyName) in
  match row with
  | Some raw =>
      (if decide (keyName = defaultKeyName ∧ public_key_of actor ≠ "") then setActorPublicKey org segment name actor ""
       else h_ret tt) ;;?
      h_ret (writeRaw 200 raw)
  | None =>
      if decide (keyName = defaultKeyName ∧ public_key_of actor ≠ "") then
        setActorPublicKey org segment name actor "" ;;?
        h_ret (writeJSON 200 (keyObject defaultKeyName (public_key_of actor)))
      else h_reply (no_key keyName)
  end.
End Handlers.

(** ** The key ring

    What the endpoints promise: a finite map from names to keys. The rows of the
    collection are its keys, and so is the public key of the actor's record, as
    the default one, when there is no row for it. *)

Abbreviation keyring := (gmap string storedKey).

Definition ring_of (rows : gmap string string) (pub : string) : keyring :=
  if decide (rows !! defaultKeyName = None ∧ pub ≠ "")
  then <[defaultKeyName := mkStoredKey pub infinity]> (omap decode_key rows) else omap decode_key rows.

Definition key_rows (org segment name : string) (objs : objects) : gmap string string :=
  coll_of org (keysColl segment name) objs.
Definition actor_of (org segment name : string) (objs : objects) : option obj :=
  match objs !! (org, segment, name) with Some raw => default None (unmarshal_map raw) | None => None end.
Definition actor_key (org segment name : string) (objs : objects) : string := public_key_of (actor_of org segment name objs).
Definition key_ring (org segment name : string) (objs : objects) : keyring :=
  ring_of (key_rows org segment name objs) (actor_key org segment name objs).

(** The keys that authenticate at [now]. *)
Definition live (now : time) (k : storedKey) : option string :=
  if decide (PublicKey_ k = "" ∨ keyExpired (ExpirationDate k) now = true) then None else Some (PublicKey_ k).

(** The record of the actor is a JSON object without numbers, its rows decode,
    and its public key is that of the default row. *)
Definition keys_wf (org segment name : string) (objs : objects) : Prop :=
  (∀ raw, objs !! (org, segment, name) = Some raw → ∃ m, unmarshal_map raw = Some (Some m) ∧ record m) ∧
  map_Forall (λ _ raw, is_Some (decode_key raw)) (key_rows org segment name objs) ∧
  (∀ raw k, key_rows org segment name objs !! defaultKeyName = Some raw → decode_key raw = Some k →
     actor_key org segment name objs = PublicKey_ k).

Lemma ring_lookup rows pub k : rows !! k ≠ None → ring_of rows pub !! k = rows !! k ≫= decode_key.
Proof.
  intros Hk. unfold ring_of. case_decide as Hd; [|by rewrite lookup_omap].
  rewrite lookup_insert_ne, lookup_omap by (intros <-; by destruct Hd). done.
Qed.

Lemma ring_none rows pub k : rows !! k = None → (k = defaultKeyName → pub = "") → ring_of rows pub !! k = None.
Proof.
  intros Hk Hp. unfold ring_of. case_decide as Hd; [|by rewrite lookup_omap, Hk].
  rewrite lookup_insert_ne, lookup_omap, Hk by (intros <-; by apply Hd, Hp). done.
Qed.

Lemma ring_synthetic rows pub : rows !! defaultKeyName = None → pub ≠ "" →
  ring_of rows pub !! defaultKeyName = Some (mkStoredKey pub infinity).
Proof. intros Hr Hp. unfold ring_of. rewrite decide_True by done. apply lookup_insert_eq. Qed.

Lemma ring_put rows k raw v pub pub' : decode_key raw = Some v → k = defaultKeyName ∨ pub' = pub →
  ring_of (<[k := raw]> rows) pub' = <[k := v]> (ring_of rows pub).
Proof.
  intros Hv Hk. unfold ring_of. destruct (decide (k = defaultKeyName)) as [->|Hne].
  - rewrite decide_False by (rewrite lookup_insert_eq; by intros [? _]).
    rewrite (omap_insert_Some decode_key rows defaultKeyName raw v) by done. case_decide; [by rewrite insert_insert_eq|done].
  - destruct Hk as [|<-]; [done|]. rewrite lookup_insert_ne by done.
    rewrite (omap_insert_Some decode_key rows k raw v) by done. case_decide; [|done]. by rewrite insert_insert_ne.
Qed.

Lemma ring_delete rows k pub pub' : (k = defaultKeyName ∧ pub' = "") ∨ (k ≠ defaultKeyName ∧ pub' = pub) →
  ring_of (delete k rows) pub' = delete k (ring_of rows pub).
Proof.
  unfold ring_of. intros [[-> ->]|[Hne ->]].
  - rewrite decide_False by (by intros [_ ?]). rewrite omap_delete. case_decide; [by rewrite delete_insert_eq|done].
  - rewrite lookup_delete_ne by done. rewrite omap_delete. case_decide; [by rewrite delete_insert_ne|done].
Qed.

(** ** Rows read back *)

Lemma key_doc_row n p e : valid_utf8 n = true → valid_utf8 p = true → valid_utf8 e = true →
  decode_key (mustEncode (VObj (key_doc n p e))) = Some (mkStoredKey p e).
Proof.
  intros Hn Hp He. unfold decode_key. rewrite decode_mustEncode.
  - reflexivity.
  - apply printable_obj. by repeat constructor.
  - unfold max_depth. cbn. lia.
Qed.

(** The struct decode of a row, member by member. *)
Definition key_members (ms : obj) (k : option storedKey) : option storedKey :=
  foldl (λ acc m, match acc with Some s => storedKey_field s m.1 m.2 | None => None end) k ms.

Lemma key_members_cons m ms k : key_members (m :: ms) (Some k) = key_members ms (storedKey_field k m.1 m.2).
Proof. done. Qed.

Lemma key_members_none ms : key_members ms None = None.
Proof. by induction ms. Qed.

Lemma decode_key_members raw k : decode_key raw = Some k →
  ∃ v, decode false raw = Some v ∧ ((v = VNull ∧ k = mkStoredKey "" "") ∨ ∃ ms, v = VObj ms ∧ key_members ms (Some (mkStoredKey "" "")) = Some k).
Proof.
  unfold decode_key. destruct (decode false raw) as [v|]; [|done]. cbn. intros Hk. exists v. split; [done|].
  destruct v; try done; [left; by injection Hk as <-|eauto].
Qed.

Lemma key_members_ind (P : storedKey → Prop) ms k k' : P k → key_members ms (Some k) = Some k' →
  (∀ k m k1, P k → m ∈ ms → storedKey_field k m.1 m.2 = Some k1 → P k1) → P k'.
Proof.
  revert k. induction ms as [|m ms IH]; intros k Hk He Hstep; [by injection He as <-|]. rewrite key_members_cons in He.
  destruct (storedKey_field k m.1 m.2) as [k1|] eqn:E; [|by rewrite key_members_none in He].
  eapply IH; [|exact He|]; [eapply Hstep; [exact Hk| |exact E]; set_solver|]. intros k2 m' k3 ? ?. apply Hstep; set_solver.
Qed.

Definition key_text (k : storedKey) : Prop := valid_utf8 (PublicKey_ k) = true ∧ valid_utf8 (ExpirationDate k) = true.

Lemma decode_key_text raw k : decode_key raw = Some k → key_text k.
Proof.
  intros (v & Hv & [[-> ->]|(ms & -> & Hm)])%decode_key_members; [done|]. apply decode_faithful in Hv as [Hf _].
  cbn [canon] in Hf. apply printable_obj, (Forall_fmap (λ m, (m.1, canon m.2))) in Hf. rewrite Forall_forall in Hf.
  eapply (key_members_ind key_text); [|exact Hm|]; [done|]. intros k1 [n x] k2 [Hp He] Hin. destruct (Hf _ Hin) as [_ Hx].
  unfold storedKey_field, string_field. cbn [fst snd] in *. unfold key_text.
  repeat case_decide; destruct x; intros [= <-]; done.
Qed.

Lemma lenient_members ms k0 k : key_members ms (Some k0) = Some k →
  foldl (λ old (m : string * value), if decide (fold_name m.1 = "expiration_date") then match m.2 with VStr s => s | _ => old end else old)
    (ExpirationDate k0) ms = ExpirationDate k.
Proof.
  revert k0. induction ms as [|[n x] ms IH]; intros k0 Hm; [by injection Hm as <-|]. rewrite key_members_cons in Hm.
  cbn [foldl fst snd] in *. destruct (storedKey_field k0 n x) as [k1|] eqn:E; [|by rewrite key_members_none in Hm].
  rewrite <-(IH k1 Hm). f_equal. unfold storedKey_field, string_field in E.
  destruct (decide (fold_name n = "public_key")) as [Hn|Hn].
  - rewrite (decide_False (P := fold_name n = "expiration_date")) by (by rewrite Hn). destruct x; try done; by injection E as <-.
  - destruct (decide (fold_name n = "expiration_date")); [|by injection E as <-]. destruct x; try done; by injection E as <-.
Qed.

Lemma lenient_decode raw k : decode_key raw = Some k → lenient_expiration raw = ExpirationDate k.
Proof.
  intros (v & Hv & [[-> ->]|(ms & -> & Hm)])%decode_key_members; unfold lenient_expiration; rewrite Hv; [done|].
  exact (lenient_members ms _ _ Hm).
Qed.

(** ** Text *)

Lemma validKeyName_text n : validKeyName n = true → valid_utf8 n = true.
Proof.
  unfold validKeyName, keyNameRE, roleNameRE. intros Hn. apply andb_true_iff in Hn as [Hn _].
  apply andb_true_iff in Hn as [Hn _]. apply andb_true_iff in Hn as [_ Hn]. eapply ascii_text; [|exact Hn].
  intros c Hc. cbv beta in Hc. apply orb_true_iff in Hc as [Hc|Hc]; apply bool_decide_eq_true in Hc; [lia|].
  set_unfold. destruct Hc as [->|[->|[->|[->|[]]]]]; by vm_compute.
Qed.

Lemma str_text body m k : decode_body_map body = Some m → valid_utf8 (str (assoc (members m) k)) = true.
Proof.
  intros Hb. destruct (assoc (members m) k) as [[]|] eqn:E; try done. by eapply body_text.
Qed.

(** ** Moves of the store *)

Section Moves.
Context (org segment name : string).
Abbreviation coll := (keysColl segment name).
Abbreviation rows_of := (key_rows org segment name).
Abbreviation pub_of := (actor_key org segment name).

(** Nothing but the actor's keys and the public key of its record changes. The
    values of the record may have the members of their objects sorted. *)
Definition key_frame (objs objs' : objects) : Prop :=
  (∀ o c k, (o, c) ≠ (org, coll) → (o, c, k) ≠ (org, segment, name) → objs' !! (o, c, k) = objs !! (o, c, k)) ∧
  (∀ f, f ≠ "public_key" →
     let field objs := assoc (members (actor_of org segment name objs)) f in
     field objs' = field objs ∨ field objs' = sorted <$> field objs).

Definition moved (objs objs' : objects) (rows : gmap string string) (pub : string) : Prop :=
  rows_of objs' = rows ∧ pub_of objs' = pub ∧
  (∀ raw, objs' !! (org, segment, name) = Some raw → ∃ m, unmarshal_map raw = Some (Some m) ∧ record m) ∧
  key_frame objs objs'.

Lemma keysColl_other : coll ≠ segment.
Proof.
  unfold keysColl. intros E%(f_equal String.length). rewrite !length_app_string in E. cbn [String.length] in E. lia.
Qed.

Lemma moved_refl objs : keys_wf org segment name objs → moved objs objs (rows_of objs) (pub_of objs).
Proof. intros (Ha & _ & _). split_and!; auto. split; auto. Qed.

Lemma moved_at_coll objs objs1 objs' rows rows' pub :
  moved objs objs1 rows pub → (∀ o c k, (o, c) ≠ (org, coll) → objs' !! (o, c, k) = objs1 !! (o, c, k)) →
  rows_of objs' = rows' → moved objs objs' rows' pub.
Proof.
  intros (_ & Hp & Ha & Hf & Hr) Ho Hrows.
  assert (objs' !! (org, segment, name) = objs1 !! (org, segment, name)) as E.
  { apply Ho. intros [= E]. by apply keysColl_other. }
  unfold moved, key_frame, actor_key, actor_of in *. rewrite E. split_and!; try done.
  intros o c k Hc Hk. rewrite Ho by done. by apply Hf.
Qed.

Lemma moved_put objs objs1 rows pub k raw : moved objs objs1 rows pub →
  moved objs (<[(org, coll, k) := raw]> objs1) (<[k := raw]> rows) pub.
Proof.
  intros Hm. eapply moved_at_coll; [exact Hm| |].
  - intros o c k' Hc. rewrite lookup_insert_ne by congruence. done.
  - unfold key_rows. rewrite coll_of_put, decide_True by done. f_equal. apply Hm.
Qed.

Lemma moved_delete objs objs1 rows pub k : moved objs objs1 rows pub →
  moved objs (delete (org, coll, k) objs1) (delete k rows) pub.
Proof.
  intros Hm. eapply moved_at_coll; [exact Hm| |].
  - intros o c k' Hc. rewrite lookup_delete_ne by congruence. done.
  - unfold key_rows. rewrite coll_of_delete, decide_True by done. f_equal. apply Hm.
Qed.

(** The record read back with its public key set. *)
Lemma with_public_key_record m pub : record m → valid_utf8 pub = true → ∃ m1, with_public_key (Some m) pub = Some (VObj m1) ∧
  record m1 ∧ ∀ f, assoc m1 f = if decide (f = "public_key") then (if decide (pub = "") then None else Some (VStr pub)) else assoc m f.
Proof.
  intros Hm Hp. unfold with_public_key. destruct (decide (pub = "")) as [->|Hne].
  - eexists. split; [done|]. split; [by apply record_filter|]. intros f. apply assoc_filter.
  - eexists. split; [done|]. split; [by apply record_set|]. intros f. exact (Get_Set m "public_key" (VStr pub) f).
Qed.

Lemma moved_actor objs objs1 rows pub0 raw m pub : moved objs objs1 rows pub0 →
  objs !! (org, segment, name) = Some raw → unmarshal_map raw = Some (Some m) → record m → valid_utf8 pub = true →
  ∃ doc, with_public_key (Some m) pub = Some doc ∧ moved objs (<[(org, segment, name) := mustEncode doc]> objs1) rows pub.
Proof.
  intros (Hrows & _ & _ & Hf & _) Hraw Hu Hr Hp. destruct (with_public_key_record m pub Hr Hp) as (m1 & E1 & Hr1 & Hm1).
  destruct (record_reads_back m1 Hr1) as (m2 & E2 & Hr2 & Hm2). exists (VObj m1). split; [done|].
  assert (actor_of org segment name (<[(org, segment, name) := mustEncode (VObj m1)]> objs1) = Some m2) as Ea.
  { unfold actor_of. by rewrite lookup_insert_eq, E2. }
  split_and!; [| | |split].
  - unfold key_rows. rewrite coll_of_put, decide_False; [done|]. intros [= E]. by apply keysColl_other.
  - unfold actor_key, public_key_of. rewrite Ea. cbn [members default]. rewrite Hm2, Hm1, decide_True by done. by case_decide.
  - intros raw'. rewrite lookup_insert_eq. intros [= <-]. eauto.
  - intros o c k Hc Hk. rewrite lookup_insert_ne by done. by apply Hf.
  - intros f Hfk. right. rewrite Ea. unfold actor_of. rewrite Hraw, Hu. cbn [members default]. by rewrite Hm2, Hm1, decide_False.
Qed.

Lemma moved_wf objs objs' rows pub : moved objs objs' rows pub → map_Forall (λ _ raw, is_Some (decode_key raw)) rows →
  (∀ raw k, rows !! defaultKeyName = Some raw → decode_key raw = Some k → pub = PublicKey_ k) →
  keys_wf org segment name objs' ∧ key_frame objs objs' ∧ key_ring org segment name objs' = ring_of rows pub.
Proof. intros (Hr & Hp & Ha & Hf) Hd Hm. unfold keys_wf, key_ring. rewrite Hr, Hp. auto. Qed.
End Moves.

(** ** The endpoints as steps of the key ring *)

Inductive key_call :=
  | ListKeys (now : time) (r : request)
  | GetKey (k : string)
  | AddKey (kp : result (string * string)) (r : request)
  | PutKey (kp : result (string * string)) (r : request) (k : string)
  | DeleteKey (k : string).

Definition run_key_call `{X509} {B} `{Backend B} {O} (segment : string) (sc : scope) (name : string) (c : key_call)
    : handler (Store B O) reply :=
  match c with
  | ListKeys now r => listKeys now segment sc r name
  | GetKey k => getKey segment sc name k
  | AddKey kp r => addKey kp segment sc r name
  | PutKey kp r k => putKey kp segment sc r name k
  | DeleteKey k => deleteKey segment sc name k
  end.

Definition scope_name (sc : scope) : string := match sc with InOrg name => name | Everywhere => Global end.

(** A field of a body, or what stands in for it. *)
Definition asked (b : obj) (field old : string) : string :=
  let v := str (assoc b field) in if decide (v = "") then old else v.

(** The fields an update works with: without the flag, and with the public half of
    the kp it asked for. *)
Definition put_fields (kp : result (string * string)) (m : option obj) : option obj :=
  let b := filter (λ e, e.1 ≠ "create_key") (members m) in
  match assoc (members m) "create_key" with
  | Some (VBool true) => match kp with Ok (pub, _) => Some (Set_ b "public_key" (VStr pub)) | Err _ => None end
  | _ => Some b
  end.

Definition updated (b : obj) (old : storedKey) : storedKey :=
  mkStoredKey (asked b "public_key" (PublicKey_ old)) (asked b "expiration_date" (ExpirationDate old)).

(** How a reply shows a key: its row, or the default key of the record. *)
Definition shows (rep : reply) (k : string) (v : storedKey) : Prop :=
  (∃ raw, rep = writeRaw 200 raw ∧ decode_key raw = Some v) ∨
  (k = defaultKeyName ∧ rep = writeJSON 200 (keyObject k (PublicKey_ v)) ∧ ExpirationDate v = infinity).

Definition expired_at (now : time) (R : keyring) (k : string) : bool :=
  match R !! k with Some v => keyExpired (ExpirationDate v) now | None => false end.

(** The name a body gives is that of a key. *)
Definition taken (c : key_call) (R : keyring) : Prop :=
  match c with
  | AddKey _ r | PutKey _ r _ => ∃ m, decode_body_map (r_body r) = Some m ∧ is_Some (R !! str (assoc (members m) "name"))
  | _ => False
  end.

Inductive key_step `{X509} (segment : string) (sc : scope) (name : string) : key_call → keyring → reply → keyring → Prop :=
  | KeyRefused c R rep : status rep ∈ [400; 404; 409]%Z → (status rep = 409%Z → taken c R) →
      key_step segment sc name c R rep R
  | KeysListed now r R names : names ≡ₚ (map_to_list R).*1 →
      key_step segment sc name (ListKeys now r) R
        (writeJSON 200 (VArr (map (λ k, keyListItem (keysBaseURL r sc segment name) k (expired_at now R k)) names))) R
  | KeyShown k v R rep : R !! k = Some v → shows rep k v → key_step segment sc name (GetKey k) R rep R
  | KeyAdded kp r m gen R rep k : status rep = 201%Z → decode_body_map (r_body r) = Some m → validateKeyFields (members m) = None →
      k = str (assoc (members m) "name") → k ≠ "" → R !! k = None →
      str (assoc (members m) "public_key") ≠ "" ∨ (∃ priv, kp = Ok (gen, priv)) →
      key_step segment sc name (AddKey kp r) R rep (<[k := updated (members m) (mkStoredKey gen infinity)]> R)
  | KeyUpdated kp r m b k old R rep : status rep = 200%Z → decode_body_map (r_body r) = Some m → put_fields kp m = Some b →
      R !! k = Some old → asked b "name" k = k ∨ k = defaultKeyName →
      key_step segment sc name (PutKey kp r k) R rep (<[k := updated b old]> R)
  | KeyRenamed kp r m b k k' old R rep : status rep = 201%Z → decode_body_map (r_body r) = Some m → put_fields kp m = Some b →
      R !! k = Some old → k' = asked b "name" k → k' ≠ k → validKeyName k' = true → R !! k' = None →
      key_step segment sc name (PutKey kp r k) R rep (<[k' := updated b old]> (delete k R))
  | KeyDeleted k v R rep : R !! k = Some v → shows rep k v → key_step segment sc name (DeleteKey k) R rep (delete k R).

(** PEM is text. *)
Definition pair_text (c : key_call) : Prop :=
  match c with
  | AddKey (Ok (pub, _)) _ | PutKey (Ok (pub, _)) _ _ => valid_utf8 pub = true
  | _ => True
  end.

Section Refines.
Context `{X509} {B : Type} `{BackendSpec B} {O : Type} (segment name : string) (sc : scope).
Abbreviation st := (Store B O).
Abbreviation org := (scope_name sc).
Abbreviation coll := (keysColl segment name).

(** A step of the ring, in a store that stays well formed and changes nowhere
    else; or a store fault. *)
Definition key_result (c : key_call) (objs : objects) (rep : reply) (objs' : objects) : Prop :=
  status rep = 500%Z ∨
  (key_step segment sc name c (key_ring org segment name objs) rep (key_ring org segment name objs') ∧
   keys_wf org segment name objs' ∧ key_frame org segment name objs objs').

Lemma h_ens_scope_org sp (Q : string + reply → space → Prop) :
  Q (inl org) sp → (∀ rep, status rep ∈ [404; 500]%Z → Q (inr rep) sp) → h_ensures (B := B) (O := O) (scope_org sc) sp Q.
Proof. intros HO HE. destruct sc; [by apply h_ens_org|by apply h_ens_ret]. Qed.

(** The actor is there, with a record. *)
Lemma h_ens_loadActor sp (Q : option obj + reply → space → Prop) : keys_wf org segment name (s_objs sp) →
  (∀ raw m, s_objs sp !! (org, segment, name) = Some raw → unmarshal_map raw = Some (Some m) → record m →
     public_key_of (Some m) = actor_key org segment name (s_objs sp) → Q (inl (Some m)) sp) →
  (∀ rep, status rep ∈ [404; 500]%Z → Q (inr rep) sp) → h_ensures (B := B) (O := O) (loadActor org segment name) sp Q.
Proof.
  intros (Ha & _ & _) HO HE. apply h_ens_bind, h_ens_or_500, ens_Get; [|intros e; apply HE; cbn; set_solver].
  destruct (s_objs sp !! (org, segment, name)) as [raw|] eqn:E; [|apply h_ens_reply, HE; cbn; set_solver].
  destruct (Ha raw eq_refl) as (m & Hm & Hr). rewrite Hm. apply h_ens_ret. apply (HO raw); try done.
  unfold actor_key, actor_of. by rewrite E, Hm.
Qed.

Lemma key_refused c rep objs : keys_wf org segment name objs → status rep ∈ [400; 404; 500]%Z → key_result c objs rep objs.
Proof.
  intros Hw Hs. destruct (decide (status rep = 500%Z)) as [|Hn]; [by left|]. right.
  split_and!; [|done|split; auto]. apply KeyRefused; [set_solver|]. intros E. rewrite E in Hs. set_solver.
Qed.

Lemma key_conflict c rep objs : keys_wf org segment name objs → status rep = 409%Z → taken c (key_ring org segment name objs) →
  key_result c objs rep objs.
Proof. intros Hw Hs Ht. right. split_and!; [|done|split; auto]. apply KeyRefused; [set_solver|auto]. Qed.


Lemma key_moved c objs rep objs' rows pub : moved org segment name objs objs' rows pub →
  map_Forall (λ _ raw, is_Some (decode_key raw)) rows →
  (∀ raw k, rows !! defaultKeyName = Some raw → decode_key raw = Some k → pub = PublicKey_ k) →
  key_step segment sc name c (key_ring org segment name objs) rep (ring_of rows pub) → key_result c objs rep objs'.
Proof. intros Hm Hd Hmir Hs. right. destruct (moved_wf _ _ _ _ _ _ _ Hm Hd Hmir) as (? & ? & ->). done. Qed.

Lemma h_ens_setActor objs rows pub0 raw m pub sp (Q : unit + reply → space → Prop) :
  moved org segment name objs (s_objs sp) rows pub0 → objs !! (org, segment, name) = Some raw →
  unmarshal_map raw = Some (Some m) → record m → valid_utf8 pub = true →
  (∀ sp', moved org segment name objs (s_objs sp') rows pub → Q (inl tt) sp') → (∀ e, Q (inr (internal_error e)) sp) →
  h_ensures (B := B) (O := O) (setActorPublicKey org segment name (Some m) pub) sp Q.
Proof.
  intros Hmv Hraw Hm Hr Hp HO HE. destruct (moved_actor _ _ _ _ _ _ _ _ _ _ Hmv Hraw Hm Hr Hp) as (doc & E & Hmv').
  unfold setActorPublicKey. rewrite E. apply h_ens_or_500, ens_Put; [by apply HO|done].
Qed.

Lemma deleteKey_ensures k sp : keys_wf org segment name (s_objs sp) →
  h_ensures (B := B) (O := O) (deleteKey segment sc name k) sp
    (λ res sp', key_result (DeleteKey k) (s_objs sp) (reply_of res) (s_objs sp')).
Proof.
  intros Hw. apply h_ens_bind, h_ens_scope_org; [|intros rep Hrep; apply key_refused; [done|set_solver]].
  apply h_ens_bind, h_ens_loadActor; [done| |intros rep Hrep; apply key_refused; [done|set_solver]].
  intros raw m Hraw Hm Hr Hpk. apply h_ens_bind, h_ens_or_500, ens_Delete; [|by left].
  rewrite <-(lookup_coll_of org coll k). fold (key_rows org segment name (s_objs sp)).
  pose proof (moved_delete _ _ _ _ _ _ _ k (moved_refl _ _ _ _ Hw)) as Hmv.
  unfold key_rows in *. fold (key_rows org segment name (s_objs sp)) in *. rewrite Hpk. clear Hpk.
  assert (∀ rep sp' pub v, moved org segment name (s_objs sp) (s_objs sp') (delete k (key_rows org segment name (s_objs sp))) pub →
    (k = defaultKeyName ∧ pub = "") ∨ (k ≠ defaultKeyName ∧ pub = actor_key org segment name (s_objs sp)) →
    key_ring org segment name (s_objs sp) !! k = Some v → shows rep k v →
    key_result (DeleteKey k) (s_objs sp) rep (s_objs sp')) as Hdone.
  { intros rep sp' pub v Hmv' Hpub Hk Hrep. destruct Hw as (Ha & Hd & Hmir). eapply key_moved; [exact Hmv'|by apply map_Forall_delete| |].
    - intros raw' key Hl. apply lookup_delete_Some in Hl as [? Hl]. destruct Hpub as [[-> _]|[_ ->]]; [done|]. by apply Hmir.
    - rewrite (ring_delete _ _ (actor_key org segment name (s_objs sp))) by done. by eapply KeyDeleted. }
  destruct (key_rows org segment name (s_objs sp) !! k) as [raw0|] eqn:E.
  - assert (∃ v, decode_key raw0 = Some v) as [v Hv] by (destruct Hw as (_ & Hd & _); exact (Hd _ _ E)).
    assert (key_ring org segment name (s_objs sp) !! k = Some v) as Hk.
    { unfold key_ring. rewrite ring_lookup by (by rewrite E). by rewrite E. }
    assert (shows (writeRaw 200 raw0) k v) as Hshow by (left; eauto).
    apply h_ens_bind. case_decide as Hdef.
    + eapply h_ens_setActor; [exact Hmv|done..| |by left]. intros sp' Hmv'. apply h_ens_ret. eapply Hdone; [exact Hmv'| |done..].
      left. by split; [apply Hdef|].
    + apply h_ens_ret, h_ens_ret. eapply Hdone; [exact Hmv| |done..].
      destruct (decide (k = defaultKeyName)) as [->|]; [left; split; [done|]|by right].
      destruct (decide (actor_key org segment name (s_objs sp) = "")); [done|]. destruct Hdef. done.
  - case_decide as Hdef.
    + destruct Hdef as [-> Hne]. apply h_ens_bind. eapply h_ens_setActor; [exact Hmv|done..| |by left].
      intros sp' Hmv'. apply h_ens_ret. eapply Hdone; [exact Hmv'|by left| |].
      * unfold key_ring. by apply ring_synthetic.
      * by right.
    + apply h_ens_reply. assert (s_objs (sp_delete org coll k sp) = s_objs sp) as ->.
      { rewrite s_objs_delete. apply delete_id. by rewrite <-lookup_coll_of. }
      apply key_refused; [done|cbn; set_solver].
Qed.

Lemma getKey_ensures k sp : keys_wf org segment name (s_objs sp) →
  h_ensures (B := B) (O := O) (getKey segment sc name k) sp
    (λ res sp', key_result (GetKey k) (s_objs sp) (reply_of res) (s_objs sp')).
Proof.
  intros Hw. apply h_ens_bind, h_ens_scope_org; [|intros rep Hrep; apply key_refused; [done|set_solver]].
  apply h_ens_bind, h_ens_loadActor; [done| |intros rep Hrep; apply key_refused; [done|set_solver]].
  intros raw m Hraw Hm Hr Hpk. apply h_ens_bind, h_ens_or_500, ens_Get; [|by left].
  rewrite <-(lookup_coll_of org coll k). fold (key_rows org segment name (s_objs sp)). rewrite Hpk.
  assert (∀ rep v, key_ring org segment name (s_objs sp) !! k = Some v → shows rep k v →
    key_result (GetKey k) (s_objs sp) rep (s_objs sp)) as Hdone.
  { intros rep v Hk Hrep. right. split_and!; [by eapply KeyShown|done|split; auto]. }
  destruct (key_rows org segment name (s_objs sp) !! k) as [raw0|] eqn:E.
  - assert (∃ v, decode_key raw0 = Some v) as [v Hv] by (destruct Hw as (_ & Hd & _); exact (Hd _ _ E)).
    apply h_ens_ret, (Hdone _ v); [|left; eauto]. unfold key_ring. rewrite ring_lookup by (by rewrite E). by rewrite E.
  - case_decide as Hdef.
    + destruct Hdef as [-> Hne]. apply h_ens_ret. eapply Hdone; [by apply ring_synthetic|by right].
    + apply h_ens_reply, key_refused; [done|cbn; set_solver].
Qed.

Lemma ens_list_items now base sp names (Q : result (list value) → space → Prop) : keys_wf org segment name (s_objs sp) →
  (∀ k, k ∈ names → is_Some (key_rows org segment name (s_objs sp) !! k)) →
  Q (Ok (map (λ k, keyListItem base k (expired_at now (key_ring org segment name (s_objs sp)) k)) names)) sp →
  (∀ e, Q (Err e) sp) → ensures (B := B) (O := O) (list_items now base org coll names) sp Q.
Proof.
  intros (_ & Hd & _) Hin HO HE. revert Q Hin HO HE. induction names as [|k names IH]; intros Q Hin HO HE; cbn [list_items]; [by apply ens_ret|].
  apply ens_bind, ens_Get; [|done]. apply ens_bind, IH; [set_solver| |done]. apply ens_ret.
  destruct (Hin k ltac:(set_solver)) as [raw Hraw]. rewrite <-lookup_coll_of. fold (key_rows org segment name (s_objs sp)). rewrite Hraw.
  cbn [map] in HO. destruct (Hd k raw Hraw) as [v Hv].
  assert (expired_at now (key_ring org segment name (s_objs sp)) k = keyExpired (lenient_expiration raw) now) as <-; [|done].
  unfold expired_at, key_ring. rewrite ring_lookup, Hraw by (by rewrite Hraw). cbn. by rewrite Hv, (lenient_decode _ _ Hv).
Qed.

(** The names of the rows, and of the default key of the record. *)
Lemma ring_names rows pub : map_Forall (λ _ raw, is_Some (decode_key raw)) rows →
  (match rows !! defaultKeyName with None => if decide (pub ≠ "") then [defaultKeyName] else [] | Some _ => [] end)
    ++ sort_strings ((map_to_list rows).*1) ≡ₚ (map_to_list (ring_of rows pub)).*1.
Proof.
  intros Hd. rewrite sort_strings_perm. apply NoDup_Permutation.
  - apply NoDup_app. split_and!; [by repeat case_match; repeat constructor; set_solver| |apply NoDup_fst_map_to_list].
    intros k Hk Hin. apply list_elem_of_fmap in Hin as ([k' v] & -> & Hin%elem_of_map_to_list).
    destruct (rows !! defaultKeyName) eqn:E; [set_solver|]. case_decide; set_solver.
  - apply NoDup_fst_map_to_list.
  - assert (∀ (m : keyring) k, k ∈ (map_to_list m).*1 ↔ is_Some (m !! k)) as Hm.
    { intros m k. rewrite list_elem_of_fmap. split; [intros ([? v] & -> & ?%elem_of_map_to_list); eauto|].
      intros [v ?]. exists (k, v). by rewrite elem_of_map_to_list. }
    assert (∀ k, k ∈ (map_to_list rows).*1 ↔ is_Some (rows !! k)) as Hrows.
    { intros k. rewrite list_elem_of_fmap. split; [intros ([? v] & -> & ?%elem_of_map_to_list); eauto|].
      intros [v ?]. exists (k, v). by rewrite elem_of_map_to_list. }
    intros k. rewrite elem_of_app, Hm, Hrows. destruct (rows !! k) as [raw|] eqn:E.
    + rewrite ring_lookup by (by rewrite E). rewrite E. destruct (Hd k raw E) as [v Hv]. cbn. rewrite Hv. naive_solver.
    + destruct (decide (k = defaultKeyName ∧ pub ≠ "")) as [[-> Hp]|Hn].
      * rewrite E, ring_synthetic by done. rewrite decide_True by done. split; [eauto|]. intros _. left. set_solver.
      * rewrite ring_none by (done || (intros ->; destruct (decide (pub = "")); [done|by destruct Hn])).
        split; [|by intros [? ?]]. intros [Hk|[? ?]]; [|done]. destruct (rows !! defaultKeyName); [set_solver|].
        destruct (decide (pub ≠ "")); [|set_solver]. destruct Hn. set_solver.
Qed.

Lemma listKeys_ensures now r sp : keys_wf org segment name (s_objs sp) →
  h_ensures (B := B) (O := O) (listKeys now segment sc r name) sp
    (λ res sp', key_result (ListKeys now r) (s_objs sp) (reply_of res) (s_objs sp')).
Proof.
  intros Hw. apply h_ens_bind, h_ens_scope_org; [|intros rep Hrep; apply key_refused; [done|set_solver]].
  apply h_ens_bind, h_ens_loadActor; [done| |intros rep Hrep; apply key_refused; [done|set_solver]].
  intros raw m Hraw Hm Hr Hpk. apply h_ens_bind, h_ens_or_500, ens_Get; [|by left].
  apply h_ens_bind, h_ens_or_500, ens_Keys; [|by left].
  apply h_ens_bind, h_ens_or_500, ens_list_items; [done| | |by left].
  { intros k Hk%elem_of_keys. unfold key_rows. by rewrite lookup_coll_of. }
  apply h_ens_ret. right. split_and!; [|done|split; auto]. rewrite Hpk, <-lookup_coll_of.
  pose proof (ring_names (key_rows org segment name (s_objs sp)) (actor_key org segment name (s_objs sp)) ltac:(apply Hw)) as Hn.
  apply (KeysListed segment sc name now r _ _) in Hn. cbn [reply_of]. rewrite map_app in Hn.
  unfold key_rows in *. fold (key_rows org segment name (s_objs sp)) in *.
  destruct (key_rows org segment name (s_objs sp) !! defaultKeyName) as [raw0|] eqn:E; [exact Hn|].
  destruct (decide (actor_key org segment name (s_objs sp) ≠ "")) as [Hp|Hp]; [|exact Hn].
  cbn [map] in Hn. unfold expired_at at 1 in Hn. rewrite ring_synthetic in Hn by done. exact Hn.
Qed.

Lemma ring_row objs k raw : keys_wf org segment name objs → key_rows org segment name objs !! k = Some raw →
  ∃ v, decode_key raw = Some v ∧ key_ring org segment name objs !! k = Some v.
Proof.
  intros (_ & Hd & _) E. destruct (Hd k raw E) as [v Hv]. exists v. split; [done|].
  unfold key_ring. rewrite ring_lookup by (by rewrite E). by rewrite E.
Qed.

Lemma ring_default objs : keys_wf org segment name objs → actor_key org segment name objs ≠ "" →
  is_Some (key_ring org segment name objs !! defaultKeyName).
Proof.
  intros Hw Hp. destruct (key_rows org segment name objs !! defaultKeyName) as [raw|] eqn:E.
  - destruct (ring_row objs _ _ Hw E) as (v & _ & ?). eauto.
  - unfold key_ring. rewrite ring_synthetic by done. eauto.
Qed.

(** What the default key's public key is, after the row [k] became [v]. *)
Definition follows (objs : objects) (k : string) (v : storedKey) (pub : string) : Prop :=
  (k = defaultKeyName ∧ pub = PublicKey_ v) ∨ (k ≠ defaultKeyName ∧ pub = actor_key org segment name objs).

Lemma key_written c objs rep objs' k raw v pub : keys_wf org segment name objs →
  moved org segment name objs objs' (<[k := raw]> (key_rows org segment name objs)) pub → decode_key raw = Some v →
  follows objs k v pub → key_step segment sc name c (key_ring org segment name objs) rep (<[k := v]> (key_ring org segment name objs)) →
  key_result c objs rep objs'.
Proof.
  intros (Ha & Hd & Hmir) Hmv Hv Hf Hs. eapply key_moved; [exact Hmv| | |].
  - apply map_Forall_insert_2; [by rewrite Hv|done].
  - intros raw' v' Hl Hv'. destruct Hf as [[-> ->]|[Hne ->]].
    + rewrite lookup_insert_eq in Hl. congruence.
    + rewrite lookup_insert_ne in Hl by done. by eapply Hmir.
  - rewrite (ring_put _ _ _ v (actor_key org segment name objs)); [done..|]. destruct Hf as [[? _]|[_ ?]]; auto.
Qed.

(** The row, then the record when the key is the default one. *)
Lemma h_ens_mirror objs raw0 m k raw v sp (Q : unit + reply → space → Prop) : keys_wf org segment name objs →
  objs !! (org, segment, name) = Some raw0 → unmarshal_map raw0 = Some (Some m) → record m → key_text v →
  moved org segment name objs (s_objs sp) (<[k := raw]> (key_rows org segment name objs)) (actor_key org segment name objs) →
  (∀ sp' pub, moved org segment name objs (s_objs sp') (<[k := raw]> (key_rows org segment name objs)) pub → follows objs k v pub →
     Q (inl tt) sp') →
  (∀ e, Q (inr (internal_error e)) sp) →
  h_ensures (B := B) (O := O)
    (if decide (k = defaultKeyName) then setActorPublicKey org segment name (Some m) (PublicKey_ v) else h_ret tt) sp Q.
Proof.
  intros Hw Hraw Hm Hr [Hp _] Hmv HO HE. case_decide as Hk.
  - eapply h_ens_setActor; [exact Hmv|done..| |done]. intros sp' Hmv'. eapply HO; [exact Hmv'|by left].
  - apply h_ens_ret. eapply HO; [exact Hmv|by right].
Qed.

Lemma asked_text body m f old : decode_body_map body = Some m → valid_utf8 old = true → valid_utf8 (asked (members m) f old) = true.
Proof. intros Hb Ho. unfold asked. case_decide; [done|]. by eapply str_text. Qed.

Lemma addKey_ensures kp r sp : keys_wf org segment name (s_objs sp) → pair_text (AddKey kp r) →
  h_ensures (B := B) (O := O) (addKey kp segment sc r name) sp
    (λ res sp', key_result (AddKey kp r) (s_objs sp) (reply_of res) (s_objs sp')).
Proof.
  intros Hw Hkp. apply h_ens_bind, h_ens_scope_org; [|intros rep Hrep; apply key_refused; [done|set_solver]].
  apply h_ens_bind, h_ens_loadActor; [done| |intros rep Hrep; apply key_refused; [done|set_solver]].
  intros raw m Hraw Hm Hr Hpk. destruct (decode_body_map (r_body r)) as [b|] eqn:Eb;
    [|apply h_ens_reply, key_refused; [done|cbn; set_solver]].
  cbv zeta. set (k := str (assoc (members b) "name")). case_decide as Hk; [apply h_ens_reply, key_refused; [done|cbn; set_solver]|].
  destruct (validateKeyFields (members b)) eqn:Ev; [apply h_ens_reply, key_refused; [done|cbn; set_solver]|].
  rewrite Hpk. destruct (decide (k = defaultKeyName ∧ actor_key org segment name (s_objs sp) ≠ "")) as [Hd|Hd].
  { apply h_ens_reply, key_conflict; [done..|]. exists b. split; [done|]. fold k. destruct Hd as [-> ?]. by apply ring_default. }
  apply h_ens_bind.
  assert (∀ gen made, valid_utf8 gen = true → made.1 = asked (members b) "public_key" gen →
    str (assoc (members b) "public_key") ≠ "" ∨ (∃ priv, kp = Ok (gen, priv)) →
    h_ensures (B := B) (O := O) (create_or_409 org coll k (mustEncode (VObj (key_doc k made.1 (asked (members b) "expiration_date" infinity))))
              "Key already exists" ;;?
            (if decide (k = defaultKeyName) then setActorPublicKey org segment name (Some m) made.1 else h_ret tt) ;;?
            h_ret (writeJSON 201 (VObj made.2))) sp
      (λ res sp', key_result (AddKey kp r) (s_objs sp) (reply_of res) (s_objs sp'))) as Hstore.
  { intros gen [pub out] Hgen Epub Hor. cbn [fst snd] in *. subst pub. set (v := updated (members b) (mkStoredKey gen infinity)).
    assert (key_text v) as Hv by (split; eapply asked_text; [exact Eb|done|exact Eb|done]).
    apply h_ens_bind, h_ens_create_or_409; [| |by left].
    2:{ rewrite <-lookup_coll_of. intros [raw1 Hraw1]. apply key_conflict; [done..|]. exists b. split; [done|].
        destruct (ring_row _ _ _ Hw Hraw1) as (v' & _ & ?). fold k. eauto. }
    rewrite <-lookup_coll_of. intros Hnone. apply h_ens_bind. eapply (h_ens_mirror _ _ _ _ _ v); [done|exact Hraw|done..| | |by left].
    { apply moved_put, moved_refl, Hw. }
    intros sp' pub Hmv Hf. apply h_ens_ret. eapply key_written; [done|exact Hmv| |exact Hf|].
    - apply key_doc_row; [by eapply str_text|apply Hv..].
    - eapply KeyAdded; try done. fold k. apply ring_none; [done|]. intros E.
      destruct (decide (actor_key org segment name (s_objs sp) = "")); [done|]. by destruct Hd. }
  destruct (decide (str (assoc (members b) "public_key") ≠ "")) as [Hpub|Hpub].
  - apply h_ens_ret. apply (Hstore ""); [done| |by left]. cbn. unfold asked. by rewrite decide_False.
  - destruct kp as [[pub priv]|e]; [|by apply h_ens_reply; left]. apply h_ens_ret. apply (Hstore pub); [done| |eauto].
    cbn. unfold asked. rewrite decide_True; [done|]. destruct (decide (str (assoc (members b) "public_key") = "")); done.
Qed.

Lemma put_fields_assoc kp m b f : put_fields kp m = Some b → f ≠ "create_key" →
  assoc b f = assoc (members m) f ∨ (f = "public_key" ∧ ∃ pub priv, kp = Ok (pub, priv) ∧ assoc b f = Some (VStr pub)).
Proof.
  unfold put_fields. intros Hb Hf.
  assert (assoc (filter (λ e : string * value, e.1 ≠ "create_key") (members m)) f = assoc (members m) f) as Ef.
  { rewrite assoc_filter. by rewrite decide_False. }
  repeat case_match; simplify_eq; auto.
  rewrite (Get_Set _ "public_key" _ f : assoc (Set_ _ _ _) f = _). case_decide; [right|left; exact Ef]. eauto.
Qed.

Lemma put_fields_text body kp r k m b f old : decode_body_map body = Some m → pair_text (PutKey kp r k) → put_fields kp m = Some b →
  f ≠ "create_key" → valid_utf8 old = true → valid_utf8 (asked b f old) = true.
Proof.
  intros Hm Hkp Hb Hf Ho. unfold asked. case_decide; [done|].
  destruct (put_fields_assoc _ _ _ _ Hb Hf) as [->|(_ & pub & priv & -> & ->)]; [by eapply str_text|done].
Qed.

Lemma put_fields_name kp m b k : put_fields kp m = Some b → asked b "name" k ≠ k → str (assoc (members m) "name") = asked b "name" k.
Proof.
  intros Hb. unfold asked. destruct (put_fields_assoc _ _ _ "name" Hb ltac:(done)) as [->|[? _]]; [|done]. by case_decide.
Qed.

Lemma key_renamed c objs rep objs' k k' raw v pub : keys_wf org segment name objs → k' ≠ k →
  moved org segment name objs objs' (delete k (<[k' := raw]> (key_rows org segment name objs))) pub → decode_key raw = Some v →
  (k = defaultKeyName ∧ pub = "") ∨ (k ≠ defaultKeyName ∧ follows objs k' v pub) →
  key_step segment sc name c (key_ring org segment name objs) rep (<[k' := v]> (delete k (key_ring org segment name objs))) →
  key_result c objs rep objs'.
Proof.
  intros (Ha & Hd & Hmir) Hne Hmv Hv Hf Hs. eapply key_moved; [exact Hmv| | |].
  - apply map_Forall_delete, map_Forall_insert_2; [by rewrite Hv|done].
  - intros raw' v' Hl Hv'. apply lookup_delete_Some in Hl as [Hk Hl]. destruct Hf as [[-> ->]|[_ [[-> ->]|[Hk' ->]]]]; [done| |].
    + rewrite lookup_insert_eq in Hl. congruence.
    + rewrite lookup_insert_ne in Hl by done. by eapply Hmir.
  - destruct Hf as [[-> ->]|[Hk Hf]].
    + rewrite (ring_delete _ _ (actor_key org segment name objs)) by auto.
      rewrite (ring_put _ _ _ v (actor_key org segment name objs)) by auto. by rewrite delete_insert_ne.
    + rewrite (ring_delete _ _ pub) by auto.
      rewrite (ring_put _ _ _ v (actor_key org segment name objs)); [|done|destruct Hf as [[? _]|[_ ?]]; auto].
      by rewrite delete_insert_ne.
Qed.
Lemma key_reply_status code key priv : status (key_reply code key priv) = code.
Proof. unfold key_reply. by destruct (decide (priv = "")). Qed.

Lemma put_synthetic_ensures kp r body b raw m priv sp : keys_wf org segment name (s_objs sp) → pair_text (PutKey kp r defaultKeyName) →
  decode_body_map (r_body r) = Some body → put_fields kp body = Some b →
  key_rows org segment name (s_objs sp) !! defaultKeyName = None →
  s_objs sp !! (org, segment, name) = Some raw → unmarshal_map raw = Some (Some m) → record m →
  public_key_of (Some m) = actor_key org segment name (s_objs sp) →
  h_ensures (B := B) (O := O) (put_synthetic org segment name defaultKeyName (Some m) b priv) sp
    (λ res sp', key_result (PutKey kp r defaultKeyName) (s_objs sp) (reply_of res) (s_objs sp')).
Proof.
  intros Hw Hkp Hbody Hb Hnone Hraw Hm Hr Hpk. unfold put_synthetic. case_decide as Hp; [apply h_ens_reply, key_refused; [done|cbn; set_solver]|].
  set (v := updated b (mkStoredKey (public_key_of (Some m)) infinity)).
  assert (valid_utf8 (public_key_of (Some m)) = true) as Htext.
  { unfold public_key_of in *. destruct (assoc (members (Some m)) "public_key") as [[]|] eqn:E; try done. by eapply unmarshal_text. }
  assert (key_text v) as Hv by (split; eapply put_fields_text; eauto).
  cbv zeta. apply h_ens_bind, h_ens_or_500, ens_Put; [|by left]. apply h_ens_bind.
  eapply (h_ens_setActor _ _ _ _ _ (PublicKey_ v)); [by apply moved_put, moved_refl|exact Hraw|done..|apply Hv| |by left].
  intros sp' Hmv. apply h_ens_ret. eapply (key_written _ _ _ _ _ _ v); [done|exact Hmv|by apply key_doc_row; [|apply Hv..]|by left|].
  eapply (KeyUpdated _ _ _ _ _ body b); [apply key_reply_status|done..| |by right].
  unfold key_ring. rewrite <-Hpk. by apply ring_synthetic.
Qed.

Lemma put_stored_ensures kp r k body b raw raw0 m priv sp : keys_wf org segment name (s_objs sp) → pair_text (PutKey kp r k) →
  decode_body_map (r_body r) = Some body → put_fields kp body = Some b →
  key_rows org segment name (s_objs sp) !! k = Some raw0 →
  s_objs sp !! (org, segment, name) = Some raw → unmarshal_map raw = Some (Some m) → record m →
  public_key_of (Some m) = actor_key org segment name (s_objs sp) →
  h_ensures (B := B) (O := O) (put_stored org segment name k raw0 (Some m) b priv) sp
    (λ res sp', key_result (PutKey kp r k) (s_objs sp) (reply_of res) (s_objs sp')).
Proof.
  intros Hw Hkp Hbody Hb Hrow Hraw Hm Hr Hpk. destruct (ring_row _ _ _ Hw Hrow) as (old & Hold & Hring).
  unfold put_stored. rewrite Hold. destruct (decode_key_text _ _ Hold) as [Ht1 Ht2]. set (v := updated b old).
  assert (key_text v) as Hv by (split; eapply put_fields_text; eauto).
  cbv zeta. change (if decide (str (assoc b "name") = "") then k else str (assoc b "name")) with (asked b "name" k).
  change (if decide (str (assoc b "public_key") = "") then PublicKey_ old else str (assoc b "public_key")) with (PublicKey_ v).
  change (if decide (str (assoc b "expiration_date") = "") then ExpirationDate old else str (assoc b "expiration_date")) with (ExpirationDate v).
  set (k' := asked b "name" k) in *.
  destruct (validKeyName k') eqn:Hname; cbn [negb]; [|apply h_ens_reply, key_refused; [done|cbn; set_solver]].
  assert (decode_key (mustEncode (VObj (key_doc k' (PublicKey_ v) (ExpirationDate v)))) = Some v) as Hdoc.
  { apply key_doc_row; [by apply validKeyName_text|apply Hv..]. }
  destruct (decide (k' = k)) as [Hk|Hk].
  - apply h_ens_bind, h_ens_or_500, ens_Put; [|by left]. apply h_ens_bind.
    eapply (h_ens_mirror _ _ _ _ _ v); [exact Hw|exact Hraw|done..|by apply moved_put, moved_refl| |by left].
    intros sp' pub Hmv Hf. apply h_ens_ret. eapply key_written; [done|exact Hmv|exact Hdoc|exact Hf|].
    eapply KeyUpdated; [apply key_reply_status|done..|by left].
  - assert (taken (PutKey kp r k) (key_ring org segment name (s_objs sp)) ↔ is_Some (key_ring org segment name (s_objs sp) !! k')) as Htaken.
    { pose proof (put_fields_name _ _ _ _ Hb Hk) as En. split.
      - intros (m' & Em & Hm'). rewrite Hbody in Em. injection Em as <-. by rewrite En in Hm'.
      - intros ?. exists body. split; [done|]. by rewrite En. }
    rewrite Hpk. destruct (decide (k' = defaultKeyName ∧ actor_key org segment name (s_objs sp) ≠ "")) as [Hd|Hd].
    { apply h_ens_reply, key_conflict; [done..|]. apply Htaken. destruct Hd as [-> ?]. by apply ring_default. }
    apply h_ens_bind, h_ens_create_or_409; [| |by left].
    2:{ rewrite <-lookup_coll_of. intros [raw1 Hraw1]. apply key_conflict; [done..|]. apply Htaken.
        destruct (ring_row _ _ _ Hw Hraw1) as (v' & _ & ?). eauto. }
    rewrite <-lookup_coll_of. intros Hnone. apply h_ens_bind, h_ens_or_500, ens_Delete; [|by left]. apply h_ens_bind.
    pose proof (moved_delete _ _ _ _ _ _ _ k (moved_put _ _ _ _ _ _ _ k'
      (mustEncode (VObj (key_doc k' (PublicKey_ v) (ExpirationDate v)))) (moved_refl _ _ _ _ Hw))) as Hmv.
    assert (∀ sp' pub, moved org segment name (s_objs sp) (s_objs sp') (delete k (<[k' := mustEncode (VObj (key_doc k' (PublicKey_ v) (ExpirationDate v)))]>
        (key_rows org segment name (s_objs sp)))) pub →
      (k = defaultKeyName ∧ pub = "") ∨ (k ≠ defaultKeyName ∧ follows (s_objs sp) k' v pub) →
      h_ensures (B := B) (O := O) (h_ret (key_reply 201 (key_doc k' (PublicKey_ v) (ExpirationDate v)) priv)) sp'
        (λ res sp', key_result (PutKey kp r k) (s_objs sp) (reply_of res) (s_objs sp'))) as Hdone.
    { intros sp' pub Hmv' Hf. apply h_ens_ret. eapply key_renamed; [done|exact Hk|exact Hmv'|exact Hdoc|exact Hf|].
      eapply KeyRenamed; [apply key_reply_status|done..|].
      apply ring_none; [done|]. intros E. destruct (decide (actor_key org segment name (s_objs sp) = "")); [done|]. by destruct Hd. }
    destruct (decide (k = defaultKeyName)) as [Hkd|Hkd]; [|destruct (decide (k' = defaultKeyName)) as [Hkd'|Hkd']].
    + eapply h_ens_setActor; [exact Hmv|exact Hraw|done..| |by left]. intros sp' Hmv'. by eapply Hdone; [exact Hmv'|left].
    + eapply h_ens_setActor; [exact Hmv|exact Hraw|done..|apply Hv| |by left]. intros sp' Hmv'. by eapply Hdone; [exact Hmv'|right; split; [|left]].
    + apply h_ens_ret. by eapply Hdone; [exact Hmv|right; split; [|right]].
Qed.

Lemma putKey_ensures kp r k sp : keys_wf org segment name (s_objs sp) → pair_text (PutKey kp r k) →
  h_ensures (B := B) (O := O) (putKey kp segment sc r name k) sp
    (λ res sp', key_result (PutKey kp r k) (s_objs sp) (reply_of res) (s_objs sp')).
Proof.
  intros Hw Hkp. apply h_ens_bind, h_ens_scope_org; [|intros rep Hrep; apply key_refused; [done|set_solver]].
  apply h_ens_bind, h_ens_loadActor; [done| |intros rep Hrep; apply key_refused; [done|set_solver]].
  intros raw m Hraw Hm Hr Hpk. destruct (decode_body_map (r_body r)) as [body|] eqn:Eb;
    [|apply h_ens_reply, key_refused; [done|cbn; set_solver]].
  cbv zeta. set (create := match assoc (members body) "create_key" with Some (VBool b) => b | _ => false end).
  set (b := filter (λ e : string * value, e.1 ≠ "create_key") (members body)).
  destruct (decide (create = true ∧ str (assoc b "public_key") ≠ "")); [apply h_ens_reply, key_refused; [done|cbn; set_solver]|].
  destruct (validateKeyFields b); [apply h_ens_reply, key_refused; [done|cbn; set_solver]|].
  apply h_ens_bind, h_ens_or_500, ens_Get; [|by left].
  rewrite <-(lookup_coll_of org coll k). fold (key_rows org segment name (s_objs sp)).
  destruct (decide (key_rows org segment name (s_objs sp) !! k = None ∧ k ≠ defaultKeyName)) as [|Hk];
    [apply h_ens_reply, key_refused; [done|cbn; set_solver]|].
  assert (∀ b' priv, put_fields kp body = Some b' → h_ensures (B := B) (O := O)
    (match key_rows org segment name (s_objs sp) !! k with
     | None => put_synthetic org segment name k (Some m) b' priv
     | Some oldRaw => put_stored org segment name k oldRaw (Some m) b' priv end) sp
    (λ res sp', key_result (PutKey kp r k) (s_objs sp) (reply_of res) (s_objs sp'))) as Hrest.
  { intros b' priv Hb'. destruct (key_rows org segment name (s_objs sp) !! k) as [raw0|] eqn:Erow.
    - by eapply put_stored_ensures.
    - destruct (decide (k = defaultKeyName)) as [->|]; [|by destruct Hk]. by eapply put_synthetic_ensures. }
  apply h_ens_bind. unfold put_fields in Hrest. fold b in Hrest. unfold create.
  destruct (assoc (members body) "create_key") as [[|[]| | | |]|]; try by apply h_ens_ret, Hrest.
  destruct kp as [[pub priv]|e]; [by apply h_ens_ret, Hrest|by apply h_ens_reply; left].
Qed.

Lemma key_call_ensures c sp : keys_wf org segment name (s_objs sp) → pair_text c →
  h_ensures (B := B) (O := O) (run_key_call segment sc name c) sp (λ res sp', key_result c (s_objs sp) (reply_of res) (s_objs sp')).
Proof.
  intros Hw Hkp. destruct c; cbn [run_key_call];
    [by apply listKeys_ensures|by apply getKey_ensures|by apply addKey_ensures|by apply putKey_ensures|by apply deleteKey_ensures].
Qed.
End Refines.

(** The replies and the store after a sequence of calls on one actor. *)
Fixpoint run_key_calls `{X509} {B} `{Backend B} {O} (segment : string) (sc : scope) (name : string) (cs : list key_call)
    (s : Store B O) : list reply * Store B O :=
  match cs with
  | [] => ([], s)
  | c :: cs' =>
      let '(rep, s1) := replied (run_key_call segment sc name c s) in
      let '(reps, s2) := run_key_calls segment sc name cs' s1 in (rep :: reps, s2)
  end.

Inductive key_steps `{X509} (segment : string) (sc : scope) (name : string) : list key_call → keyring → list reply → keyring → Prop :=
  | NoSteps R : key_steps segment sc name [] R [] R
  | MoreSteps c cs R R1 R2 rep reps : key_step segment sc name c R rep R1 → key_steps segment sc name cs R1 reps R2 →
      key_steps segment sc name (c :: cs) R (rep :: reps) R2.


(** ** The keys that authenticate *)

Lemma live_rows now rows : omap (live now) (map_to_list (omap decode_key rows)).*2 ≡ₚ omap (signing_key now) (map_to_list rows).
Proof.
  induction rows as [|k raw rows Hk IH] using map_ind; [by rewrite omap_empty|].
  rewrite map_to_list_insert by done. cbn [omap list_omap]. unfold signing_key at 1. cbn [snd].
  destruct (decode_key raw) as [v|] eqn:Ev.
  - rewrite (omap_insert_Some decode_key rows k raw v) by done. rewrite map_to_list_insert by (by rewrite lookup_omap, Hk).
    cbn [fmap list_fmap snd omap list_omap]. unfold live at 1. case_decide; [done|]. by rewrite IH.
  - rewrite omap_insert_None by done. rewrite delete_id by (by rewrite lookup_omap, Hk). done.
Qed.

Lemma live_ring now rows pub : omap (live now) (map_to_list (ring_of rows pub)).*2 ≡ₚ
  omap (signing_key now) (map_to_list rows) ++ (if decide (rows !! defaultKeyName = None ∧ pub ≠ "") then [pub] else []).
Proof.
  unfold ring_of. case_decide as Hd; [|by rewrite live_rows, app_nil_r]. destruct Hd as [Hn Hp].
  rewrite map_to_list_insert by (by rewrite lookup_omap, Hn). cbn [fmap list_fmap snd omap list_omap].
  unfold live at 1. cbn [PublicKey_ ExpirationDate]. rewrite decide_False by (intros [?|Hx]; done).
  rewrite live_rows. by rewrite Permutation_app_comm.
Qed.

Lemma ens_SigningKeys `{BackendSpec B} {O} (org segment name pub : string) (now : time) sp (Q : result (list string) → space → Prop) :
  (∀ keys, keys ≡ₚ omap (live now) (map_to_list (ring_of (key_rows org segment name (s_objs sp)) pub)).*2 → Q (Ok keys) sp) →
  (∀ e, Q (Err e) sp) → ensures (B := B) (O := O) (SigningKeys org segment name pub now) sp Q.
Proof.
  intros HO HE. apply ens_bind, ens_Range; [|done]. intros docs Hdocs. apply ens_ret, HO. rewrite live_ring.
  fold (key_rows org segment name (s_objs sp)) in Hdocs.
  assert (existsb (λ d, bool_decide (d.1 = defaultKeyName)) docs = bool_decide (key_rows org segment name (s_objs sp) !! defaultKeyName ≠ None)) as ->.
  { apply Bool.eq_iff_eq_true. rewrite existsb_exists, bool_decide_eq_true. split.
    - intros ([k v] & Hin & Hk%bool_decide_eq_true). cbn in Hk. subst k. apply list_elem_of_In in Hin. rewrite Hdocs in Hin.
      apply elem_of_map_to_list in Hin. by rewrite Hin.
    - intros Hn. destruct (key_rows org segment name (s_objs sp) !! defaultKeyName) as [v|] eqn:E; [|done]. exists (defaultKeyName, v).
      split; [|by apply bool_decide_eq_true]. apply list_elem_of_In. rewrite Hdocs. by apply elem_of_map_to_list. }
  rewrite <-(omap_Permutation _ _ _ Hdocs). destruct (key_rows org segment name (s_objs sp) !! defaultKeyName); cbn.
  - rewrite decide_False by (by intros [? _]). by rewrite app_nil_r.
  - destruct (decide (pub = "")) as [->|Hp]; [by rewrite app_nil_r|].
    rewrite bool_decide_eq_true_2 by done. rewrite decide_True by done. done.
Qed.

(** The public keys a request of an actor may be signed with are those of its
    key ring that have not expired, each as often as the ring has it, and the
    store is left as it is. *)
Theorem signing_keys_are_live `{BackendSpec B} {O} (org segment name : string) (now : time) (s : Store B O) :
  let '(res, s') := SigningKeys org segment name (actor_key org segment name (objs s)) now s in
  objs s' = objs s ∧
  match res with
  | Ok keys => keys ≡ₚ omap (live now) (map_to_list (key_ring org segment name (objs s))).*2
  | Err _ => True
  end.
Proof.
  pose proof (ens_SigningKeys (O := O) org segment name (actor_key org segment name (objs s)) now (view s.1) (λ res sp',
    s_objs sp' = objs s ∧ match res with
      | Ok keys => keys ≡ₚ omap (live now) (map_to_list (key_ring org segment name (objs s))).*2 | Err _ => True end)) as He.
  specialize (He ltac:(done) ltac:(done) s eq_refl). by destruct (SigningKeys _ _ _ _ _ s) as [res s'].
Qed.

(** A client with the key made with it; a key is generated, renamed onto the
    default name once that is free, and deleted. *)
#[local] Instance any_pem : X509 := {|
  pem_Decode s := Some ("PUBLIC KEY", s);
  ParsePKIXPublicKey _ := Ok (Some (mkPublicKey 33 3));
  ParsePKCS1PublicKey _ := Err (ErrOther "x509") |}.

Definition made_pair : result (string * string) := Ok ("PUB", "PRIV").
Definition key_calls : list key_call :=
  [AddKey made_pair (plain_request "POST" "" (mustEncode (VObj [("name", VStr "ci"); ("expiration_date", VStr "2030-01-01T00:00:00Z")])));
   AddKey made_pair (plain_request "POST" "" (mustEncode (VObj [("name", VStr "default")])));
   DeleteKey "default";
   PutKey made_pair (plain_request "PUT" "" (mustEncode (VObj [("name", VStr "default")]))) "ci";
   GetKey "default"; DeleteKey "ci"].

Definition web_client : string := mustEncode (VObj [("name", VStr "web"); ("public_key", VStr "OLD")]).
Definition keys_store : Store Memory.memoryBackend groupIndexCache :=
  (Org_Put "acme" "clients" "web" web_client (Store_CreateOrg "acme" mem_server).2).2.

Lemma keys_store_wf : keys_wf "acme" "clients" "web" (objs keys_store).
Proof.
  assert (map_to_list (key_rows "acme" "clients" "web" (objs keys_store)) = []) as E%map_to_list_empty_iff by (vm_compute; reflexivity).
  assert (objs keys_store !! ("acme", "clients", "web") = Some web_client) as Ew by (vm_compute; reflexivity).
  assert (unmarshal_map web_client = Some (Some [("name", VStr "web"); ("public_key", VStr "OLD")])) as Eu by (vm_compute; reflexivity).
  unfold keys_wf. rewrite E, Ew. split_and!; [|apply map_Forall_empty|intros raw k; by rewrite lookup_empty].
  intros raw [= <-]. eexists. split; [exact Eu|]. eapply unmarshal_record; [exact Eu|done].
Qed.


(** A name in the update of a default key without a row is dropped: the call is
    answered as an update and the key keeps its name. *)
Example synthetic_rename_ignored :
  let '(reps, s) := run_key_calls "clients" (InOrg "acme") "web"
    [PutKey made_pair (plain_request "PUT" "" (mustEncode (VObj [("name", VStr "laptop")]))) "default"] keys_store in
  map status reps = [200%Z] ∧ key_ring "acme" "clients" "web" (objs s) = {["default" := mkStoredKey "OLD" infinity]}.
Proof. vm_compute. split; reflexivity. Qed.
