(* ===== verification/ServerAuth.v ===== *)
(** * Authentication of requests (server/auth.go, server/stats_auth.go)

    The middleware in front of the API: which paths need no signature, the
    credentials of the statistics endpoint, the grants of the file store, the
    actor a signed request is made by and the keys it may be signed with. *)
From S2P Require Import Prelude GoText Json Chefjson Float GoJson Stored Store Facade Groups Http Effects Acl Classify Presign Objects Manifest Auth Time Environments DataBags Records Keys.
#[local] Open Scope go_scope.
#[local] Open Scope http_scope.

(** ** Requests as they arrive *)

(** The parts of [url.URL] the server reads. *)
Record url := mkURL { u_Path : string; u_RawPath : string; u_RawQuery : string }.

Record wire := mkWire { w_method : string; w_url : url; w_header : header; w_body : string }.

(** [url.EscapedPath] of a path without a raw form: the bytes a path may hold are
    kept. *)
Definition path_char (c : ascii) : bool :=
  unreserved c || bool_decide (c ∈ ["$"; "&"; "+"; ","; "/"; ":"; ";"; "="; "@"]%char).
Definition path_escape_char (c : ascii) : string :=
  if path_char c then String c ""
  else String "%" (String (hexUpper (Z.shiftr (byte_of c) 4)) (String (hexUpper (Z.land (byte_of c) 15)) "")).
Fixpoint path_escape (s : string) : string :=
  match s with EmptyString => "" | String c s' => path_escape_char c +:+ path_escape s' end.
Definition EscapedPath (path : string) : string := if decide (path = "*") then "*" else path_escape path.

Definition wirePath (u : url) : string := if decide (u_RawPath u ≠ "") then u_RawPath u else EscapedPath (u_Path u).

(** [limitBody] and reading the whole body: the cap is in force when positive. *)
Definition read_body (max : Z) (body : string) : result string :=
  if decide (0 < max ∧ max < Z.of_nat (String.length body))%Z then Err (ErrOther "http: request body too large") else Ok body.

(** ** Paths *)

Definition SystemPaths : list string := ["/_status"; "/server_api_version"].
Definition statsPath : string := "/_stats".

Definition fileStorePath (path : string) : option (string * string) :=
  match path_parts path with
  | [a; org; b; checksum] => if decide (a = "organizations" ∧ b = "file_store") then Some (org, checksum) else None
  | _ => None
  end.

Definition fileStoreOp (method : string) : string :=
  if decide (method = "PUT" ∨ method = "POST") then FileStorePut else FileStoreGet.

Definition orgFromPath (path : string) : string :=
  match cut_prefix "/organizations/" path with
  | None => ""
  | Some rest => match cut_byte "/" rest with Some (org, _) => org | None => rest end
  end.

(** ** HTTP Basic credentials *)

(** [Request.BasicAuth]. *)
Definition BasicAuth (h : header) : option (string * string) :=
  let auth := Header_Get h "Authorization" in
  if decide (str_map lower_char (str_take 6 auth) = "basic ") then
    match DecodeString (str_drop 6 auth) with
    | Ok cs => cut_byte ":" cs
    | Err _ => None
    end
  else None.

(** ** The server *)

Record server := mkServer {
  StatsUser : string;
  StatsPassword : string;
  SkewSeconds : Z;
  Now : time;
  MaxBodyBytes : Z;
  webuiPub : PublicKey;
  s_fileStoreKey : string;
  keyCache : gmap string PublicKey;
}.

(** The struct an actor's record is decoded into. *)
Record actorRecord := mkActorRecord { ar_public_key : string; ar_admin : bool }.
Definition actorRecord_field (a : actorRecord) (name : string) (v : value) : option actorRecord :=
  if decide (fold_name name = "public_key") then
    (λ s, mkActorRecord s (ar_admin a)) <$> string_field "public_key" (ar_public_key a) name v
  else if decide (fold_name name = "admin") then
    match v with VBool b => Some (mkActorRecord (ar_public_key a) b) | VNull => Some a | _ => None end
  else Some a.
Definition decode_actor (raw : string) : option actorRecord :=
  v ← decode false raw; decode_struct actorRecord_field (mkActorRecord "" false) v.

Definition unauthorized (msg : string) : reply := writeError 401 [msg].

Section Middleware.
Context `{Unicode} `{UnicodeUpper} `{Crypto} `{HMAC} `{X509}.
Context {B : Type} `{Backend B} {O : Type}.
Abbreviation st := (Store B O).

Definition equalDigest (got want : string) : bool := bool_decide (sha256_Sum got = sha256_Sum want).

Definition statsAuthorized (sv : server) (h : header) : bool :=
  match BasicAuth h with
  | None => false
  | Some (user, password) => equalDigest user (StatsUser sv) && equalDigest password (StatsPassword sv)
  end.

Definition statsUnauthorized : reply :=
  unauthorized "/_stats requires HTTP Basic authentication with the stats user and password".

(** The keys that parse, through the cache. *)
Fixpoint parse_keys (c : gmap string PublicKey) (pems : list string) : list PublicKey * gmap string PublicKey :=
  match pems with
  | [] => ([], c)
  | pem :: pems' =>
      let '(res, c1) := Cache_Parse ParsePublicKey pem c in
      let '(keys, c2) := parse_keys c1 pems' in
      (match res with Ok key => key :: keys | Err _ => keys end, c2)
  end.

(** [None]: no such actor, or none with a usable key. *)
Definition parseActorRecord (sv : server) (org collection name : string) : ST st (option (list PublicKey * bool)) :=
  let! raw := Org_View org collection name in
  match raw with
  | None => st_ret None
  | Some raw =>
      match decode_actor raw with
      | None => st_ret None
      | Some rec =>
          let! pems := SigningKeys org collection name (ar_public_key rec) (Now sv) in
          let pubs := (parse_keys (keyCache sv) pems).1 in
          st_ret (match pubs with [] => None | _ => Some (pubs, ar_admin rec) end)
      end
  end.

(** Clients of the organization the path names, then users. *)
Definition resolveAuth (sv : server) (path name : string) : ST st (option (list PublicKey * Actor)) :=
  let org := orgFromPath path in
  let! client :=
    (if decide (org ≠ "") then
       let! o := Store_Org org in
       match o with Some o => parseActorRecord sv o "clients" name | None => st_ret None end
     else st_ret None) in
  match client with
  | Some (pubs, _) => st_ret (Some (pubs, mkActor name true false false))
  | None =>
      let! user := parseActorRecord sv Global "users" name in
      st_ret (match user with
              | Some (pubs, admin) => Some (pubs, mkActor name false admin false)
              | None => None
              end)
  end.

(** [None]: a key that makes verification index out of range. *)
Fixpoint verifiesWithAny (w : wire) (body : string) (p : Parsed) (pubs : list PublicKey) : option bool :=
  match pubs with
  | [] => Some false
  | pub :: pubs' =>
      match Verify (w_method w) (wirePath (w_url w)) body p (Header_Get (w_header w) "X-Ops-Server-API-Version") pub with
      | None => None
      | Some (Ok _) => Some true
      | Some (Err _) => verifiesWithAny w body p pubs'
      end
  end.

(** The difference is compared as a float64 of seconds, which is exact against a
    whole number of seconds below 2^22. *)
Definition checkSkew (sv : server) (timestamp : string) : option string :=
  match Parse_RFC3339 timestamp with
  | None => Some "invalid X-Ops-Timestamp"
  | Some ts =>
      if decide (SkewSeconds sv * 1000000000 < Z.abs (Sub (Now sv) ts))%Z
      then Some "Original request time stamp too far in the future or past."
      else None
  end.

(** A request of the management console: signed with its key, made as the user it
    names. *)
Definition webui_request (sv : server) (w : wire) (body : string) (p : Parsed) : handler st (option Actor) :=
  match Verify (w_method w) (wirePath (w_url w)) body p (Header_Get (w_header w) "X-Ops-Server-API-Version") (webuiPub sv) with
  | None => h_reply panic
  | Some (Err _) => h_reply (unauthorized "Invalid webui signature for request source 'web'")
  | Some (Ok _) =>
      let? found := or_500 (resolveAuth sv (u_Path (w_url w)) (UserID p)) in
      match found with
      | None => h_reply (unauthorized ("Failed to authenticate as '" +:+ UserID p +:+ "' via the web UI. Ensure the user exists."))
      | Some (_, a) =>
          match checkSkew sv (Timestamp p) with
          | Some msg => h_reply (unauthorized msg)
          | None => h_ret (Some (mkActor (a_name a) (IsClient a) (IsGlobalAdmin a) true))
          end
      end
  end.

(** A request signed with one of the actor's own keys. *)
Definition actor_request (sv : server) (w : wire) (body : string) (p : Parsed) : handler st (option Actor) :=
  let? found := or_500 (resolveAuth sv (u_Path (w_url w)) (UserID p)) in
  match found with
  | None => h_reply (unauthorized ("Failed to authenticate as '" +:+ UserID p +:+
                       "'. Ensure that your node_name and client key are correct."))
  | Some (pubs, a) =>
      match verifiesWithAny w body p pubs with
      | None => h_reply panic
      | Some false => h_reply (unauthorized ("Invalid signature for user or client '" +:+ UserID p +:+ "'"))
      | Some true =>
          match checkSkew sv (Timestamp p) with
          | Some msg => h_reply (unauthorized msg)
          | None => h_ret (Some a)
          end
      end
  end.

(** The request goes on with the actor it is made by, or none on an exempt path.
    [strings.EqualFold] with "web" folds ASCII letters only. *)
Definition authMiddleware (sv : server) (w : wire) : handler st (option Actor) :=
  let path := u_Path (w_url w) in
  if decide (path ∈ SystemPaths) then h_ret None
  else if decide (path = statsPath) then
    if statsAuthorized sv (w_header w) then h_ret None else h_reply statsUnauthorized
  else match fileStorePath path with
  | Some (org, checksum) =>
      match VerifyFileStore (s_fileStoreKey sv) org checksum (fileStoreOp (w_method w)) (ParseQuery (u_RawQuery (w_url w))) (Now sv) with
      | Err e => h_reply (unauthorized (error_text e))
      | Ok _ => h_ret None
      end
  | None =>
      match read_body (MaxBodyBytes sv) (w_body w) with
      | Err _ => h_reply (unauthorized "could not read request body")
      | Ok body =>
          match Parse (w_header w) with
          | Err e => h_reply (unauthorized (error_text e))
          | Ok p =>
              if decide (str_map lower_char (Header_Get (w_header w) "X-Ops-Request-Source") = "web")
              then webui_request sv w body p else actor_request sv w body p
          end
      end
  end.
End Middleware.

(** ** Whom a signed request is made by *)

Section Exact.
Context `{Unicode} `{UnicodeUpper} `{Crypto} `{HMAC} `{X509}.
Context {B : Type} `{BackendSpec B} {O : Type}.
Abbreviation st := (Store B O).

Definition parsed_key (pem : string) : option PublicKey := match ParsePublicKey pem with Ok key => Some key | Err _ => None end.

(** The unexpired keys of an actor's ring, and its admin flag; none without a
    record or without a key. *)
Definition signers (now : time) (org collection name : string) (objs : objects) : option (list PublicKey * bool) :=
  raw ← objs !! (org, collection, name);
  rec ← decode_actor raw;
  let ring := ring_of (key_rows org collection name objs) (ar_public_key rec) in
  match omap parsed_key (omap (live now) (map_to_list ring).*2) with [] => None | pubs => Some (pubs, ar_admin rec) end.

(** A client of the organization in the path goes before a user of that name. *)
Definition identity (now : time) (path name : string) (sp : space) : option (list PublicKey * Actor) :=
  let org := orgFromPath path in
  let client := if decide (org ≠ "" ∧ org ∈ s_orgs sp) then signers now org "clients" name (s_objs sp) else None in
  match client with
  | Some (pubs, _) => Some (pubs, mkActor name true false false)
  | None => match signers now Global "users" name (s_objs sp) with
            | Some (pubs, admin) => Some (pubs, mkActor name false admin false)
            | None => None
            end
  end.

(** The same up to the order of the keys. *)
Definition same_keys {A : Type} (x y : option (list PublicKey * A)) : Prop :=
  match x, y with Some (k, a), Some (k', a') => k ≡ₚ k' ∧ a = a' | None, None => True | _, _ => False end.

Lemma parse_keys_ok c pems : cache_ok ParsePublicKey c →
  (parse_keys c pems).1 = omap parsed_key pems ∧ cache_ok ParsePublicKey (parse_keys c pems).2.
Proof.
  revert c. induction pems as [|pem pems IH]; intros c Hc; [done|]. cbn [parse_keys omap list_omap].
  destruct (Cache_Parse_ok _ pem c Hc) as [E Hc1]. destruct (Cache_Parse ParsePublicKey pem c) as [res c1]. cbn [fst snd] in *.
  destruct (IH c1 Hc1) as [Ek Hc2]. destruct (parse_keys c1 pems) as [keys c2]. cbn [fst snd] in *. split; [|done].
  unfold parsed_key at 1. rewrite <-E. destruct res; by rewrite Ek.
Qed.

Lemma ens_parseActorRecord sv org collection name sp (Q : result (option (list PublicKey * bool)) → space → Prop) :
  cache_ok ParsePublicKey (keyCache sv) →
  (∀ o, same_keys o (signers (Now sv) org collection name (s_objs sp)) → Q (Ok o) sp) → (∀ e, Q (Err e) sp) →
  ensures (B := B) (O := O) (parseActorRecord sv org collection name) sp Q.
Proof.
  intros Hc HO HE. apply ens_bind, ens_View; [|done]. unfold signers in HO.
  destruct (s_objs sp !! (org, collection, name)) as [raw|]; cbn in HO; [|by apply ens_ret, HO].
  destruct (decode_actor raw) as [rec|]; cbn in HO; [|by apply ens_ret, HO].
  apply ens_bind, ens_SigningKeys; [|done]. intros keys Hkeys. apply ens_ret, HO.
  rewrite (proj1 (parse_keys_ok _ keys Hc)). apply (omap_Permutation parsed_key) in Hkeys.
  destruct (omap parsed_key keys), (omap parsed_key (omap _ _)); try done; by apply Permutation_length in Hkeys.
Qed.

Lemma ens_resolveAuth sv path name sp (Q : result (option (list PublicKey * Actor)) → space → Prop) :
  cache_ok ParsePublicKey (keyCache sv) →
  (∀ o, same_keys o (identity (Now sv) path name sp) → Q (Ok o) sp) → (∀ e, Q (Err e) sp) →
  ensures (B := B) (O := O) (resolveAuth sv path name) sp Q.
Proof.
  intros Hc HO HE. unfold resolveAuth. apply ens_bind.
  assert (∀ client, same_keys client (if decide (orgFromPath path ≠ "" ∧ orgFromPath path ∈ s_orgs sp)
      then signers (Now sv) (orgFromPath path) "clients" name (s_objs sp) else None) →
    ensures (B := B) (O := O) (match client with
      | Some (pubs, _) => st_ret (Some (pubs, mkActor name true false false))
      | None =>
          let! user := parseActorRecord sv Global "users" name in
          st_ret (match user with Some (pubs, admin) => Some (pubs, mkActor name false admin false) | None => None end)
      end) sp Q) as Hrest.
  { intros client Hcl. unfold identity in HO. cbv zeta in HO.
    destruct client as [[pubs x]|]; destruct (if decide _ then signers _ _ _ _ _ else None) as [[pubs' x']|]; try done.
    - destruct Hcl as [Hp _]. by apply ens_ret, HO.
    - apply ens_bind, ens_parseActorRecord; [done| |done]. intros user Huser. apply ens_ret, HO.
      destruct user as [[k a]|], (signers _ _ _ _ _) as [[k' a']|]; try done. cbn in *. naive_solver. }
  cbv zeta. destruct (decide (orgFromPath path ≠ "")) as [Hne|Hne].
  - apply ens_bind. eapply ens_observes; [by apply observes_Org| |done]. intros o ->. destruct (decide (orgFromPath path ∈ s_orgs sp)).
    + apply ens_parseActorRecord; [done| |done]. intros client Hcl. apply Hrest. by rewrite decide_True.
    + apply ens_ret, (Hrest None). by rewrite decide_False by (intros [_ ?]; done).
  - apply ens_ret, (Hrest None). by rewrite decide_False by (intros [? _]; done).
Qed.

(** ** What lets a request through *)

Definition signed_by (w : wire) (p : Parsed) (pub : PublicKey) : Prop :=
  Verify (w_method w) (wirePath (w_url w)) (w_body w) p (Header_Get (w_header w) "X-Ops-Server-API-Version") pub = Some (Ok tt).

(** Within the allowed skew of the clock. *)
Definition timely (sv : server) (timestamp : string) : Prop :=
  ∃ ts, Parse_RFC3339 timestamp = Some ts ∧ (Z.abs (Sub (Now sv) ts) ≤ SkewSeconds sv * 1000000000)%Z.

Definition from_webui (w : wire) : Prop := str_map lower_char (Header_Get (w_header w) "X-Ops-Request-Source") = "web".

Definition exempt (sv : server) (w : wire) : Prop :=
  u_Path (w_url w) ∈ SystemPaths ∨
  (u_Path (w_url w) = statsPath ∧ statsAuthorized sv (w_header w) = true) ∨
  (∃ org checksum, fileStorePath (u_Path (w_url w)) = Some (org, checksum) ∧
     VerifyFileStore (s_fileStoreKey sv) org checksum (fileStoreOp (w_method w)) (ParseQuery (u_RawQuery (w_url w))) (Now sv) = Ok tt).

(** A path that takes a signature. *)
Definition signed_path (path : string) : Prop := ¬ path ∈ SystemPaths ∧ path ≠ statsPath ∧ fileStorePath path = None.

Definition authentic (sv : server) (sp : space) (w : wire) (a : Actor) : Prop :=
  signed_path (u_Path (w_url w)) ∧ read_body (MaxBodyBytes sv) (w_body w) = Ok (w_body w) ∧
  ∃ p pubs, Parse (w_header w) = Ok p ∧ timely sv (Timestamp p) ∧
    identity (Now sv) (u_Path (w_url w)) (UserID p) sp = Some (pubs, mkActor (a_name a) (IsClient a) (IsGlobalAdmin a) false) ∧
    (from_webui w ∧ ViaWebUI a = true ∧ signed_by w p (webuiPub sv) ∨
     ¬ from_webui w ∧ ViaWebUI a = false ∧ ∃ pub, pub ∈ pubs ∧ signed_by w p pub).

Lemma checkSkew_timely sv t : checkSkew sv t = None ↔ timely sv t.
Proof.
  unfold checkSkew, timely. destruct (Parse_RFC3339 t) as [ts|]; [|naive_solver].
  case_decide as Hd; (split; [|intros (? & [= <-] & ?)]); try done; try lia. intros _. exists ts. split; [done|lia].
Qed.

Lemma verifies_spec w p pubs :
  match verifiesWithAny w (w_body w) p pubs with
  | Some true => ∃ pub, pub ∈ pubs ∧ signed_by w p pub
  | Some false => ∀ pub, pub ∈ pubs → ¬ signed_by w p pub
  | None => True
  end.
Proof.
  induction pubs as [|pub pubs IH]; cbn [verifiesWithAny]; [by intros pub Hp%elem_of_nil|].
  destruct (Verify (w_method w) (wirePath (w_url w)) (w_body w) p _ pub) as [[[]|e]|] eqn:E; [|destruct verifiesWithAny as [[]|]|]; try done.
  - exists pub. split; [set_solver|done].
  - destruct IH as (pub' & ? & ?). exists pub'. split; [set_solver|done].
  - intros pub' Hp. apply elem_of_cons in Hp as [->|Hp]; [|by apply IH]. unfold signed_by. by rewrite E.
Qed.
Lemma same_keys_some {A : Type} o (pubs : list PublicKey) (a : A) : same_keys o (Some (pubs, a)) → ∃ pubs', o = Some (pubs', a) ∧ pubs' ≡ₚ pubs.
Proof. destruct o as [[k a']|]; [|done]. intros [? ->]. eauto. Qed.

(** The reply written in place of a pass. *)
Definition refused (sv : server) (sp : space) (w : wire) (rep : reply) : Prop :=
  status rep = 500%Z ∨
  (rep = panic ∧ ∃ p pub, Parse (w_header w) = Ok p ∧
     Verify (w_method w) (wirePath (w_url w)) (w_body w) p (Header_Get (w_header w) "X-Ops-Server-API-Version") pub = None) ∨
  status rep = 401%Z ∧ ¬ exempt sv w ∧ ∀ a, ¬ authentic sv sp w a.

(** What the middleware leaves. *)
Definition auth_outcome (sv : server) (w : wire) (sp : space) (res : option Actor + reply) (sp' : space) : Prop :=
  sp' = sp ∧
  match res with
  | inl None => exempt sv w
  | inl (Some a) => authentic sv sp w a
  | inr rep => refused sv sp w rep
  end.

Lemma signed_path_not_exempt sv w : signed_path (u_Path (w_url w)) → ¬ exempt sv w.
Proof. intros (Hsys & Hst & Hfs) [?|[[? _]|(org & sum & E & _)]]; [done..|]. by rewrite Hfs in E. Qed.

Lemma refuse_signed sv sp w msg : signed_path (u_Path (w_url w)) → (∀ a, ¬ authentic sv sp w a) →
  auth_outcome sv w sp (inr (unauthorized msg)) sp.
Proof. intros Hp Ha. split; [done|]. right. right. split_and!; [done|by apply signed_path_not_exempt|done]. Qed.

Lemma identity_actor now path name sp pubs a : identity now path name sp = Some (pubs, a) →
  a = mkActor (a_name a) (IsClient a) (IsGlobalAdmin a) false.
Proof. unfold identity. intros Hi. repeat case_match; by simplify_eq. Qed.

Section Signed.
Context (sv : server) (w : wire) (p : Parsed) (sp : space).
Context (Hcache : cache_ok ParsePublicKey (keyCache sv)).
Context (Hpath : signed_path (u_Path (w_url w))) (Hbody : read_body (MaxBodyBytes sv) (w_body w) = Ok (w_body w)).
Context (Hparse : Parse (w_header w) = Ok p).

Lemma authentic_parsed a : authentic sv sp w a → ∃ pubs, timely sv (Timestamp p) ∧
  identity (Now sv) (u_Path (w_url w)) (UserID p) sp = Some (pubs, mkActor (a_name a) (IsClient a) (IsGlobalAdmin a) false) ∧
  (from_webui w ∧ ViaWebUI a = true ∧ signed_by w p (webuiPub sv) ∨
   ¬ from_webui w ∧ ViaWebUI a = false ∧ ∃ pub, pub ∈ pubs ∧ signed_by w p pub).
Proof. intros (_ & _ & p' & pubs & Hp & Ht & Hi & Hs). assert (p' = p) as -> by congruence. eauto. Qed.

Lemma refuse_late msg : checkSkew sv (Timestamp p) = Some msg → auth_outcome sv w sp (inr (unauthorized msg)) sp.
Proof.
  intros E. apply refuse_signed; [done|]. intros a (pubs & Ht & _)%authentic_parsed. apply checkSkew_timely in Ht. congruence.
Qed.

Lemma refuse_unknown msg : identity (Now sv) (u_Path (w_url w)) (UserID p) sp = None →
  auth_outcome sv w sp (inr (unauthorized msg)) sp.
Proof. intros E. apply refuse_signed; [done|]. intros a (pubs & _ & Hi & _)%authentic_parsed. congruence. Qed.

Lemma webui_request_ensures : from_webui w →
  h_ensures (B := B) (O := O) (webui_request sv w (w_body w) p) sp (λ res sp', auth_outcome sv w sp res sp').
Proof.
  intros Hweb. unfold webui_request.
  destruct (Verify (w_method w) (wirePath (w_url w)) (w_body w) p _ (webuiPub sv)) as [[[]|e]|] eqn:Ev.
  - apply h_ens_bind, h_ens_or_500, ens_resolveAuth; [done| |by split; [|left]]. intros o Ho.
    destruct (identity (Now sv) (u_Path (w_url w)) (UserID p) sp) as [[pubs a]|] eqn:Ei.
    + apply same_keys_some in Ho as (pubs' & -> & Hperm). destruct (checkSkew sv (Timestamp p)) eqn:Es; [by apply h_ens_reply, refuse_late|].
      apply h_ens_ret. split; [done|]. split_and!; [done..|]. exists p, pubs. split_and!; [done|by apply checkSkew_timely| |by left].
      rewrite Ei. cbn [a_name IsClient IsGlobalAdmin]. by rewrite <-(identity_actor _ _ _ _ _ _ Ei).
    + destruct o as [[]|]; [done|]. by apply h_ens_reply, refuse_unknown.
  - apply h_ens_reply, refuse_signed; [done|]. intros a (pubs & _ & _ & [(_ & _ & Hs)|(? & _)])%authentic_parsed; [|done].
    unfold signed_by in Hs. congruence.
  - apply h_ens_reply. split; [done|]. right. left. eauto.
Qed.

Lemma verifies_panic pubs : verifiesWithAny w (w_body w) p pubs = None → ∃ pub,
  Verify (w_method w) (wirePath (w_url w)) (w_body w) p (Header_Get (w_header w) "X-Ops-Server-API-Version") pub = None.
Proof. induction pubs as [|pub pubs IH]; [done|]. cbn [verifiesWithAny]. repeat case_match; try done; eauto. Qed.

Lemma actor_request_ensures : ¬ from_webui w →
  h_ensures (B := B) (O := O) (actor_request sv w (w_body w) p) sp (λ res sp', auth_outcome sv w sp res sp').
Proof.
  intros Hweb. apply h_ens_bind, h_ens_or_500, ens_resolveAuth; [done| |by split; [|left]]. intros o Ho.
  destruct (identity (Now sv) (u_Path (w_url w)) (UserID p) sp) as [[pubs a]|] eqn:Ei;
    [|destruct o as [[]|]; [done|]; by apply h_ens_reply, refuse_unknown].
  apply same_keys_some in Ho as (pubs' & -> & Hperm). pose proof (verifies_spec w p pubs') as Hv.
  destruct (verifiesWithAny w (w_body w) p pubs') as [[]|] eqn:Ev.
  - destruct (checkSkew sv (Timestamp p)) eqn:Es; [by apply h_ens_reply, refuse_late|]. pose proof (identity_actor _ _ _ _ _ _ Ei) as Ea.
    apply h_ens_ret. split; [done|]. split_and!; [done..|]. exists p, pubs. split_and!; [done|by apply checkSkew_timely|by rewrite Ei, <-Ea|].
    right. split_and!; [done|by rewrite Ea|by setoid_rewrite <-Hperm].
  - apply h_ens_reply, refuse_signed; [done|]. intros a' (pubs1 & _ & Hi & [(? & _)|(_ & _ & pub & Hpub & Hs)])%authentic_parsed; [done|].
    rewrite Ei in Hi. injection Hi as <- ?. apply (Hv pub); [by rewrite Hperm|done].
  - apply h_ens_reply. split; [done|]. right. left. split; [done|]. destruct (verifies_panic _ Ev). eauto.
Qed.
End Signed.

Lemma authMiddleware_ensures sv w sp : cache_ok ParsePublicKey (keyCache sv) →
  h_ensures (B := B) (O := O) (authMiddleware sv w) sp (λ res sp', auth_outcome sv w sp res sp').
Proof.
  intros Hc. unfold authMiddleware. cbv zeta. set (path := u_Path (w_url w)).
  destruct (decide (path ∈ SystemPaths)) as [|Hsys]; [apply h_ens_ret; split; [done|by left]|].
  destruct (decide (path = statsPath)) as [Est|Hst].
  { destruct (statsAuthorized sv (w_header w)) eqn:E; [apply h_ens_ret; split; [done|by right; left]|].
    apply h_ens_reply. split; [done|]. right. right. split_and!; [done| |by intros a ((_ & ? & _) & _)].
    intros [?|[[_ ?]|(org & sum & Hfs & _)]]; [done|congruence|]. fold path in Hfs. by rewrite Est in Hfs. }
  destruct (fileStorePath path) as [[org sum]|] eqn:Efs.
  { destruct (VerifyFileStore _ _ _ _ _ _) as [[]|e] eqn:E; [apply h_ens_ret; split; [done|right; right; eauto]|].
    apply h_ens_reply. split; [done|]. right. right. split_and!; [done| |by intros a ((_ & _ & Hn) & _); fold path in Hn; congruence].
    intros [?|[[? _]|(org' & sum' & Hfs & Hv)]]; [done..|]. fold path in Hfs. congruence. }
  assert (signed_path path) as Hsp by done.
  destruct (read_body (MaxBodyBytes sv) (w_body w)) as [body|e] eqn:Ebody;
    [|apply h_ens_reply, refuse_signed; [done|]; intros a (_ & Hb & _); congruence].
  assert (body = w_body w) as -> by (unfold read_body in Ebody; case_decide; congruence).
  destruct (Parse (w_header w)) as [p|e] eqn:Ep;
    [|apply h_ens_reply, refuse_signed; [done|]; intros a (_ & _ & p & pubs & Hp & _); congruence].
  case_decide; [by apply webui_request_ensures|by apply actor_request_ensures].
Qed.
End Exact.

(** C2. Authentication decides exactly. A request goes on as an actor when, and only
    when, its timestamp is within the skew, the user id names a client of the
    organization in the path (or else a user) that the store has with an
    unexpired key, and the signature over its method, path, body and headers
    verifies under one of those keys, or under the console's key for a request
    of the console. It goes on without an actor only on the status paths, with
    the statistics credentials, or with a grant for that file and operation.
    Otherwise the reply is 401, unless the store fails or a key is too short to
    verify with; nothing is stored in any case. *)
Theorem authentication_exact `{Unicode} `{UnicodeUpper} `{Crypto} `{HMAC} `{X509} `{BackendSpec B} {O}
    (sv : server) (w : wire) (s : Store B O) (Hcache : cache_ok ParsePublicKey (keyCache sv)) :
  let '(res, s') := authMiddleware sv w s in
  view s'.1 = view s.1 ∧
  match res with
  | inl None => exempt sv w
  | inl (Some a) => authentic sv (view s.1) w a
  | inr rep => refused sv (view s.1) w rep
  end.
Proof. pose proof (authMiddleware_ensures (O := O) sv w _ Hcache s eq_refl) as Hm. by destruct (authMiddleware sv w s) as [res s']. Qed.

(** Version 1.3 never indexes a block. *)
Lemma verify_13_total `{Unicode} `{UnicodeUpper} `{Crypto} method path body p v pub : Version p = "1.3" →
  Verify method path body p v pub ≠ None.
Proof. intros Ev. unfold Verify. rewrite Ev. decide_literals. by destruct (VerifyPKCS1v15 _ _ _). Qed.

(** C31. A client that signs its request as the protocol says is let in as itself.
    The request: any method, body and path that takes a signature (not the status
    endpoints or a file store URL), signed with a key of the user named that is
    stored and has not expired, with a timestamp within the skew and a body within
    the limit. Its headers before signing are any that do not declare the web
    console as the source (then the console's key is asked for) and leave free
    the signature header after the last one the signature takes (see
    [leftover_chunk_breaks]). The server's key cache holds what it parsed. Then
    the middleware goes on with that actor and stores nothing; the only other
    outcome is a 500, for a store fault. *)
Theorem signed_requests_admitted `{Unicode} `{UnicodeUpper} `{CryptoSpec} `{HMAC} `{X509} `{BackendSpec B} {O}
    (sv : server) (s : Store B O) (method body userID timestamp : string) (u : url) (h h' : header) (key : PrivateKey)
    (pubs : list PublicKey) (a : Actor)
    (Hcache : cache_ok ParsePublicKey (keyCache sv)) (Hpath : signed_path (u_Path u))
    (Hbody : read_body (MaxBodyBytes sv) body = Ok body) (Htime : timely sv timestamp)
    (Huser : userID ≠ "") (Hfresh : Header_Get h (chunk_name (S (key_chunks (public_of key)))) = "")
    (Hsource : str_map lower_char (Header_Get h "X-Ops-Request-Source") ≠ "web")
    (Hkey : (0 < BitLen (pub_N (public_of key)) < 2 ^ 32)%Z)
    (Hsigned : SignRequest method (wirePath u) h userID timestamp body key = Ok h')
    (Hid : identity (Now sv) (u_Path u) userID (view s.1) = Some (pubs, a)) (Hpub : public_of key ∈ pubs) :
  let '(res, s') := authMiddleware sv (mkWire method u h' body) s in
  view s'.1 = view s.1 ∧ (res = inl (Some a) ∨ ∃ rep, res = inr rep ∧ status rep = 500%Z).
Proof.
  destruct (sign_verifies _ _ _ _ _ _ _ _ Huser Hfresh Hkey Hsigned) as (p & Hp & Eu & Et & Ev & Esrc & Hv).
  set (w := mkWire method u h' body).
  assert (¬ from_webui w) as Hweb by (unfold from_webui; cbn; by rewrite Esrc).
  assert (authentic sv (view s.1) w a) as Hauth.
  { split_and!; [done..|]. exists p, pubs. rewrite Et, Eu. split_and!; [done..| |].
    - cbn. rewrite Hid. by rewrite <-(identity_actor _ _ _ _ _ _ Hid).
    - right. split_and!; [done| |by exists (public_of key)]. by rewrite (identity_actor _ _ _ _ _ _ Hid). }
  pose proof (authMiddleware_ensures (O := O) sv w _ Hcache s eq_refl) as Hm.
  destruct (authMiddleware sv w s) as [res s']. destruct Hm as [Hview Hm]. split; [done|].
  destruct res as [[a'|]|rep].
  - left. apply (authentic_parsed _ _ p) in Hm as (pubs' & _ & Hi & [(? & _)|(_ & Hvia & _)]); [done| |done].
    cbn in Hi. rewrite Eu, Hid in Hi. injection Hi as <- ->. destruct a'; cbn in *. by subst.
  - by apply signed_path_not_exempt in Hm.
  - right. exists rep. split; [done|]. destruct Hm as [?|[(_ & p' & pub & Hp' & Hn)|(_ & _ & Hno)]]; [done| |by destruct (Hno a)].
    assert (p' = p) as -> by (cbn in Hp'; congruence). by apply verify_13_total in Hn.
Qed.

(** A user with one key, signing its own request. *)
Definition toy_x509 : X509 := {|
  pem_Decode s := Some ("PUBLIC KEY", s);
  ParsePKIXPublicKey _ := Ok (Some toy_key);
  ParsePKCS1PublicKey _ := Err (ErrOther "x509") |}.
Definition toy_server : server :=
  mkServer "statsuser" "secret" 900 (mkTime 1767225600 0) (2 ^ 30) toy_key "file-key" ∅.
Definition alice_store : Store Memory.memoryBackend groupIndexCache :=
  (Org_Put Global "users" "alice" (mustEncode (VObj [("admin", VBool true); ("public_key", VStr "PEM")])) mem_server).2.
Definition alice_url : url := mkURL "/organizations/acme/nodes" "" "".

Lemma alice_identity : identity (H3 := toy_x509) (Now toy_server) (u_Path alice_url) "alice" (view alice_store.1) =
  Some ([toy_key], mkActor "alice" false true false).
Proof. vm_compute. reflexivity. Qed.

Definition alice_signed : result header :=
  SignRequest (H0 := toy_upper) (H1 := toy_crypto) "GET" (wirePath alice_url) sample_headers "alice" "2026-01-01T00:00:00Z" "" tt.
Definition alice_header : header := match alice_signed with Ok h => h | Err _ => ∅ end.
Lemma alice_signs : alice_signed = Ok alice_header.
Proof.
  assert (is_Ok alice_signed = true) as E by (vm_compute; reflexivity).
  unfold alice_header. destruct alice_signed; [reflexivity|discriminate E].
Qed.

Lemma signed_requests_admitted_witness :
  let '(res, s') := authMiddleware (H := caseless_unicode) (H0 := toy_upper) (H1 := toy_crypto) (H2 := plain_mac) (H3 := toy_x509)
      toy_server (mkWire "GET" alice_url alice_header "") alice_store in
  view s'.1 = view alice_store.1 ∧ (res = inl (Some (mkActor "alice" false true false)) ∨ ∃ rep, res = inr rep ∧ status rep = 500%Z).
Proof.
  apply (signed_requests_admitted (H := caseless_unicode) (H0 := toy_upper) (H1 := toy_crypto) (H2 := toy_spec) (H3 := plain_mac) (H4 := toy_x509)
    toy_server alice_store "GET" "" "alice" "2026-01-01T00:00:00Z" alice_url sample_headers alice_header tt [toy_key]).
  - intros pem key Hl. vm_compute in Hl. discriminate Hl.
  - split; [|split]; [|discriminate|reflexivity]. apply (bool_decide_unpack _). reflexivity.
  - reflexivity.
  - exists (mkTime 1767225600 0). split; [reflexivity|]. vm_compute. discriminate.
  - discriminate.
  - vm_compute. reflexivity.
  - vm_compute. discriminate.
  - vm_compute. split; reflexivity.
  - exact alice_signs.
  - exact alice_identity.
  - apply list_elem_of_here.
Defined.

Lemma authentication_exact_witness :
  let w := mkWire "GET" (mkURL "/_stats" "" "") {["Authorization" := "Basic " +:+ EncodeToString "statsuser:secret"]} "" in
  exempt (H1 := toy_crypto) (H2 := plain_mac) toy_server w.
Proof.
  pose proof (authentication_exact (H := caseless_unicode) (H0 := toy_upper) (H1 := toy_crypto) (H2 := plain_mac) (H3 := toy_x509)
    toy_server (mkWire "GET" (mkURL "/_stats" "" "") {["Authorization" := "Basic " +:+ EncodeToString "statsuser:secret"]} "") alice_store) as Ht.
  assert ((authMiddleware (H := caseless_unicode) (H0 := toy_upper) (H1 := toy_crypto) (H2 := plain_mac) (H3 := toy_x509)
    toy_server (mkWire "GET" (mkURL "/_stats" "" "") {["Authorization" := "Basic " +:+ EncodeToString "statsuser:secret"]} "") alice_store).1
    = inl None) as E by (vm_compute; reflexivity).
  destruct (authMiddleware _ _ _) as [res s']. cbn [fst] in E. rewrite E in Ht. apply Ht.
  intros pem key Hl. vm_compute in Hl. discriminate Hl.
Defined.
