(* ===== verification/Associations.v ===== *)
(** * Members and invitations of organizations
    (internal/api/association.go, association_requests.go)

    Associating a user with an organization and removing it, inviting it, and
    its answer to an invitation. *)
From stdpp Require Import pretty.
From S2P Require Import Prelude GoText Json Chefjson Float GoJson Stored Store Facade Groups Http Effects Acl AclDocs GroupApi Objects Manifest Environments Records Keys.
#[local] Open Scope go_scope.
#[local] Open Scope http_scope.

Definition AssociationUsersCollection : string := "association_users".
Definition assocColl : string := AssociationUsersCollection.
Definition assocReqColl : string := "association_requests".

Definition inviteID (user org : string) : string := user +:+ "-" +:+ org.

(** The association endpoints answer an error as a string. *)
Definition writeStringError (code : Z) (msg : string) : reply := writeJSON code (VObj [("error", VStr msg)]).
Definition not_allowed : reply := writeStringError 403 "You are not allowed to take this action.".

(** The structs invitations and answers are decoded into. *)
Definition decode_field (field raw : string) : option string :=
  v ← decode false raw; decode_struct (λ old name v, string_field field old name v) "" v.
Definition body_field (field body : string) : option string :=
  p ← parse_value false (2 * String.length body + 2) max_depth body; decode_struct (λ old name v, string_field field old name v) "" p.1.

Definition association (user : string) : string := mustEncode (VObj [("username", VStr user)]).
Definition invitation (id user org inviter : string) : string :=
  mustEncode (VObj [("id", VStr id); ("username", VStr user); ("orgname", VStr org); ("inviter", VStr inviter)]).

(** The first of two members that is a string other than the empty one. *)
Definition first_str (body : obj) (a b : string) : string :=
  let s := str (assoc body a) in if decide (s = "") then str (assoc body b) else s.

Section Handlers.
Context {B : Type} `{Backend B}.
Abbreviation st := (Store B groupIndexCache).

Definition addUserToOrgGroup (org group user : string) : ST st unit := addMember org group memberUsers user.

Definition orgViewAllowed (r : request) (org : string) : handler st unit :=
  match r_actor r with
  | None => h_ret tt
  | Some a =>
      if IsGlobalAdmin a then h_ret tt
      else
        let? o := or_500 (Org_Get org assocColl (a_name a)) in
        match o with
        | Some _ => h_ret tt
        | None => h_reply (writeError 403 ["You are not a member of this organization."])
        end
  end.

Definition listOrgUsers (r : request) (orgname : string) : handler st reply :=
  let? org := API_org orgname in
  orgViewAllowed r org ;;?
  let? keys := or_500 (Org_Keys org assocColl) in
  h_ret (writeJSON 200 (VArr (map (λ u, VObj [("user", VObj [("username", VStr u)])]) keys))).

Definition associateUser (r : request) (orgname : string) : handler st reply :=
  let? org := API_org orgname in
  match decode_body_map (r_body r) with
  | None => h_reply (writeError 400 ["invalid JSON body"])
  | Some m =>
      let username := first_str (members m) "username" "user" in
      if decide (username = "") then h_reply (writeError 400 ["Field 'username' missing"])
      else
        let? user := or_500 (Org_Get Global "users" username) in
        match user with
        | None => h_reply (writeError 404 ["Cannot find user " +:+ username])
        | Some _ =>
            let? present := or_500 (Org_Get org assocColl username) in
            match present with
            | Some _ => h_reply (writeStringError 409 "The association already exists.")
            | None =>
                or_500 (Org_Put org assocColl username (association username)) ;;?
                or_500 (addUserToOrgGroup org "users" username) ;;?
                h_ret (created_at (r_base r +:+ "/organizations/" +:+ org +:+ "/users/" +:+ username))
            end
        end
  end.

Definition getOrgUser (r : request) (orgname user : string) : handler st reply :=
  let? org := API_org orgname in
  orgViewAllowed r org ;;?
  let? present := or_500 (Org_Get org assocColl user) in
  match present with
  | None => h_reply (writeError 404 ["Cannot find user " +:+ user +:+ " in organization " +:+ org])
  | Some _ =>
      let? raw := or_500 (Org_Get Global "users" user) in
      match raw with
      | Some raw => h_ret (writeRaw 200 raw)
      | None => h_ret (writeJSON 200 (VObj [("username", VStr user)]))
      end
  end.

(** The index never fails to expand a membership. *)
Definition disassociateUser (orgname user : string) : handler st reply :=
  let? org := API_org orgname in
  let? present := or_500 (Org_Get org assocColl user) in
  match present with
  | None => h_reply (writeError 404 ["Cannot find user " +:+ user +:+ " in organization " +:+ org])
  | Some _ =>
      let? groups := or_500 (API_actorGroups org (mkActor user false false false)) in
      if decide ("admins" ∈ default ∅ groups) then
        h_reply (writeStringError 403 ("Please remove " +:+ user +:+
          " from this organization's admins group before removing him or her from the organization."))
      else
        or_500 (Org_Delete org assocColl user) ;;?
        or_500 (removeActorFromAllGroups org memberUsers user) ;;?
        h_ret (writeJSON 200 (VObj [("username", VStr user)]))
  end.

(** The organizations of a list that still exist and hold a key, in order. *)
Fixpoint orgs_holding (coll : string) (key : string → string) (names : list string) : ST st (list string) :=
  match names with
  | [] => st_ret []
  | name :: names' =>
      let! o := Store_Org name in
      match o with
      | None => orgs_holding coll key names'
      | Some org =>
          let! raw := Org_Get org coll (key name) in
          let! rest := orgs_holding coll key names' in
          st_ret (match raw with Some _ => name :: rest | None => rest end)
      end
  end.

Definition listUserOrgs (user : string) : handler st reply :=
  let? orgs := or_500 Store_ListOrgs in
  let? found := or_500 (orgs_holding assocColl (λ _, user) orgs) in
  h_ret (writeJSON 200 (VArr (map (λ n, VObj [("organization", VObj [("name", VStr n); ("full_name", VStr n)])]) found))).

(** ** Invitations *)

Fixpoint list_invites (org : string) (ids : list string) : handler st (list value) :=
  match ids with
  | [] => h_ret []
  | id :: ids' =>
      let? raw := or_500 (Org_Get org assocReqColl id) in
      match unmarshal_map (default "" raw) with
      | None => h_reply (internal_error (ErrOther "json: cannot unmarshal"))
      | Some inv =>
          let? rest := list_invites org ids' in
          h_ret (VObj [("id", VStr id); ("username", default VNull (assoc (members inv) "username"))] :: rest)
      end
  end.

Definition listOrgInvites (r : request) (orgname : string) : handler st reply :=
  let? org := API_org orgname in
  orgViewAllowed r org ;;?
  let? keys := or_500 (Org_Keys org assocReqColl) in
  let? out := list_invites org keys in
  h_ret (writeJSON 200 (VArr out)).

Definition createInvite (r : request) (orgname : string) : handler st reply :=
  let? org := API_org orgname in
  match decode_body_map (r_body r) with
  | None => h_reply (writeError 400 ["invalid JSON body"])
  | Some m =>
      let user := first_str (members m) "user" "username" in
      if decide (user = "") then h_reply (writeError 400 ["Field 'user' missing"])
      else
        let? stored := or_500 (Org_Get Global "users" user) in
        match stored with
        | None => h_reply (writeError 404 ["Cannot find user " +:+ user])
        | Some _ =>
            let? present := or_500 (Org_Get org assocColl user) in
            match present with
            | Some _ => h_reply (writeStringError 409 "The association already exists.")
            | None =>
                let id := inviteID user org in
                let? invited := or_500 (Org_Get org assocReqColl id) in
                match invited with
                | Some _ => h_reply (writeStringError 409 "The invitation already exists.")
                | None =>
                    let inviter := match r_actor r with Some a => a_name a | None => "" end in
                    or_500 (Org_Put org assocReqColl id (invitation id user org inviter)) ;;?
                    h_ret (writeJSON 201 (VObj
                      [("uri", VStr (r_base r +:+ "/organizations/" +:+ org +:+ "/association_requests/" +:+ id)); ("id", VStr id);
                       ("organization_user", VObj [("username", VStr user)])]))
                end
            end
        end
  end.

Definition rescindInvite (orgname id : string) : handler st reply :=
  let? org := API_org orgname in
  let? raw := or_500 (Org_Delete org assocReqColl id) in
  match raw with
  | None => h_reply (writeStringError 404 ("Cannot find association request: " +:+ id))
  | Some raw => h_ret (writeRaw 200 raw)
  end.

Definition invitationSelfAllowed (r : request) (user : string) : handler st unit :=
  match r_actor r with
  | None => h_ret tt
  | Some a => if decide (IsGlobalAdmin a = true ∨ a_name a = user) then h_ret tt else h_reply not_allowed
  end.

Definition userInvites (user : string) : ST st (list value) :=
  let! orgs := Store_ListOrgs in
  let! found := orgs_holding assocReqColl (inviteID user) orgs in
  st_ret (map (λ n, VObj [("id", VStr (inviteID user n)); ("orgname", VStr n)]) found).

Definition listUserInvites (r : request) (user : string) : handler st reply :=
  invitationSelfAllowed r user ;;?
  let? invites := or_500 (userInvites user) in h_ret (writeJSON 200 (VArr invites)).

Definition countUserInvites (r : request) (user : string) : handler st reply :=
  invitationSelfAllowed r user ;;?
  let? invites := or_500 (userInvites user) in
  h_ret (writeJSON 200 (VObj [("value", VNum (pretty (length invites)))])).

(** The organization that holds the user's invitation of that id. *)
Fixpoint find_invite (user id : string) (names : list string) : ST st (option string) :=
  match names with
  | [] => st_ret None
  | name :: names' =>
      let! o := Store_Org name in
      match o with
      | None => find_invite user id names'
      | Some org =>
          let! raw := Org_Get org assocReqColl id in
          match raw with
          | None => find_invite user id names'
          | Some raw =>
              match decode_field "username" raw with
              | None => st_fail (ErrOther "json: cannot unmarshal")
              | Some username => if decide (username = user) then st_ret (Some org) else find_invite user id names'
              end
          end
      end
  end.
Definition findInvite (user id : string) : ST st (option string) :=
  let! orgs := Store_ListOrgs in find_invite user id orgs.

Definition inviterAuthorized (org inviter : string) : ST st bool :=
  if decide (inviter = "") then st_ret true
  else
    let! uraw := Org_Get Global "users" inviter in
    match uraw with
    | None => st_ret false
    | Some uraw =>
        match unmarshal_map uraw with
        | None => st_fail (ErrOther "json: cannot unmarshal")
        | Some u =>
            if match assoc (members u) "admin" with Some (VBool b) => b | _ => false end then st_ret true
            else
              let! present := Org_Get org assocColl inviter in
              match present with
              | None => st_ret false
              | Some _ =>
                  let! m := groupMembership org "admins" in
                  st_ret (contains_str m.1.1 inviter)
              end
        end
    end.

(** Whether the invitation may still be accepted. *)
Definition acceptable_invite (org id : string) : handler st unit :=
  let? raw := or_500 (Org_Get org assocReqColl id) in
  let? inviter := match raw with
    | None => h_ret ""
    | Some raw => match decode_field "inviter" raw with
                  | Some i => h_ret i
                  | None => h_reply (internal_error (ErrOther "json: cannot unmarshal"))
                  end
    end in
  let? ok := or_500 (inviterAuthorized org inviter) in
  if ok then h_ret tt else h_reply (writeStringError 403 "The user who issued this invitation can no longer do so.").

Definition respondInvite (r : request) (user id : string) : handler st reply :=
  if match r_actor r with Some a => bool_decide (a_name a ≠ user) && negb (IsGlobalAdmin a) | None => false end
  then h_reply not_allowed
  else
    let? org := or_500 (findInvite user id) in
    match org with
    | None => h_reply (writeStringError 404 ("Cannot find association request: " +:+ id))
    | Some org =>
        match body_field "response" (r_body r) with
        | None => h_reply (writeError 400 ["invalid JSON body"])
        | Some response =>
            if decide (response ≠ "accept" ∧ response ≠ "reject")
            then h_reply (writeError 400 ["Param response must be either 'accept' or 'reject'"])
            else
              (if decide (response = "accept") then acceptable_invite org id else h_ret tt) ;;?
              or_500 (Org_Delete org assocReqColl id) ;;?
              (if decide (response = "accept") then
                 or_500 (Org_Put org assocColl user (association user)) ;;?
                 or_500 (addUserToOrgGroup org "users" user)
               else h_ret tt) ;;?
              h_ret (writeJSON 200 (VObj [("organization", VObj [("name", VStr org)])]))
        end
    end.
End Handlers.

(** ** Rules for the shared reads *)

Section Rules.
Context {B : Type} `{BackendSpec B} {O : Type}.

Lemma ens_Org name sp (Q : result (option string) → space → Prop) :
  Q (Ok (if decide (name ∈ s_orgs sp) then Some name else None)) sp → (∀ e, Q (Err e) sp) →
  ensures (B := B) (O := O) (Store_Org name) sp Q.
Proof. intros HO HE. eapply ens_observes; [by apply observes_Org|by intros a ->|done]. Qed.

Lemma ens_ListOrgs sp (Q : result (list string) → space → Prop) :
  Q (Ok (sort_strings (base.elements (s_orgs sp)))) sp → (∀ e, Q (Err e) sp) →
  ensures (B := B) (O := O) Store_ListOrgs sp Q.
Proof.
  intros HO HE. eapply ens_observes; [apply (observes_lift (λ _, True) ListOrgs (λ sp l, l = sort_strings (base.elements (s_orgs sp))))|by intros a ->|done].
  intros b. apply ListOrgs_spec.
Qed.

Lemma elem_of_orgs sp name : name ∈ sort_strings (base.elements (s_orgs sp)) ↔ name ∈ s_orgs sp.
Proof. by rewrite sort_strings_perm, elem_of_elements. Qed.
End Rules.

(** The cached membership of an actor, whatever the cache holds. *)
Lemma ens_actorGroups `{BackendSpec B} org actor sp (Q : result (option (gset string)) → space → Prop) :
  (∀ res, Q res sp) → ensures (B := B) (API_actorGroups org actor) sp Q.
Proof.
  intros HQ s <-. unfold API_actorGroups, st_bind, get, st_ret.
  pose proof (build_spec org s) as Hb.
  destruct (obs s.2 !! org) as [idx|]; [case_decide; [apply HQ|]|];
    (destruct (buildGroupIndex org s) as [[built|e] s']; cbn [fst snd];
     [destruct Hb as (_ & _ & -> & _)|destruct Hb as (_ & -> & _)]; apply HQ).
Qed.

(** ** Answering an invitation *)

(** A user the admins group shows as its member, in its document or in a row. *)
Definition shown_admin (objs : objects) (org user : string) : Prop :=
  (∃ raw g, objs !! (org, "groups", "admins") = Some raw ∧ unmarshal_map raw = Some g ∧ user ∈ (groupMembers (members g)).1.1) ∨
  (∃ key, is_Some (objs !! (org, groupMembersColl, key)) ∧ splitMemberKey key = Some ("admins", memberUsers, user)).

Lemma fold_row_users group keys m user : ¬ str_in NUL group →
  user ∈ (foldl (fold_row group) m keys).1.1 ↔ user ∈ m.1.1 ∨ ∃ key, key ∈ keys ∧ splitMemberKey key = Some (group, memberUsers, user).
Proof.
  intros Hg. revert m. induction keys as [|key keys IH]; intros m; cbn [foldl]; [set_solver|]. rewrite IH.
  assert (user ∈ (fold_row group m key).1.1 ↔ user ∈ m.1.1 ∨ splitMemberKey key = Some (group, memberUsers, user)) as ->.
  2:{ setoid_rewrite elem_of_cons. naive_solver. }
  destruct m as [[users clients] groups]. unfold fold_row. cbn [fst].
  destruct (has_prefix (group +:+ String NUL "") key) eqn:Ep.
  - destruct (splitMemberKey key) as [[[g k] a]|] eqn:Es; [|cbn; naive_solver].
    assert (g = group) as ->.
    { apply has_prefix_true in Ep as [rest ->]. rewrite app_string_assoc in Es. unfold splitMemberKey in Es. cbn [String.append] in Es.
      rewrite split_on_app in Es by done. by destruct (split_on NUL rest) as [|x [|y [|]]]; simplify_eq. }
    destruct (decide (k = memberUsers)) as [->|Hk].
    + cbn [fst]. destruct (contains_str users a) eqn:Ec; [apply contains_str_true in Ec|]; set_solver.
    + assert (∀ x y z : list string, user ∈ (x, y, z).1.1 ↔ user ∈ x) as Hf by done.
      repeat case_decide; cbn [fst]; naive_solver.
  - cbn [fst]. split; [by left|]. intros [?| ->%splitMemberKey_Some]; [done|].
    exfalso. apply not_true_iff_false in Ep. apply Ep, has_prefix_true. unfold memberKey. exists (memberUsers +:+ String NUL user).
    by rewrite app_string_assoc.
Qed.

(** The inviter may still invite: the request that invited had no actor, or the
    inviter is a superuser, or a member of the organization and of its admins. *)
Definition standing (objs : objects) (org inviter : string) : Prop :=
  inviter = "" ∨ ∃ raw u, objs !! (Global, "users", inviter) = Some raw ∧ unmarshal_map raw = Some u ∧
    (assoc (members u) "admin" = Some (VBool true) ∨
     is_Some (objs !! (org, assocColl, inviter)) ∧ shown_admin objs org inviter).

(** Who may answer: the user, the superuser, or anyone where requests have no
    actor. *)
Definition may_answer (r : request) (user : string) : Prop :=
  match r_actor r with None => True | Some a => a_name a = user ∨ IsGlobalAdmin a = true end.

(** The stored invitation is the user's. *)
Definition invited (sp : space) (user id org raw : string) : Prop :=
  org ∈ s_orgs sp ∧ s_objs sp !! (org, assocReqColl, id) = Some raw ∧ decode_field "username" raw = Some user.

(** The reply is one the request asked for: rejecting, or accepting what a user
    still able to invite has offered. *)
Definition acceptable (sp : space) (org raw : string) : Prop :=
  ∃ inviter, decode_field "inviter" raw = Some inviter ∧ standing (s_objs sp) org inviter.
Definition answers_with (r : request) (sp : space) (org raw response : string) : Prop :=
  body_field "response" (r_body r) = Some response ∧ (response = "reject" ∨ response = "accept" ∧ acceptable sp org raw).

(** What accepting stores, once the invitation is consumed. *)
Definition joined (org user : string) (sp : space) : space :=
  sp_put org groupMembersColl (memberKey "users" memberUsers user) "{}" (sp_put org assocColl user (association user) sp).

(** Each way a reply to an invitation ends, when, and what it leaves. *)
Inductive respond_outcome (r : request) (user id : string) (rep : reply) (sp : space) : space → Prop :=
  | NotTheirs : status rep = 403%Z → ¬ may_answer r user → respond_outcome r user id rep sp sp
  | NoInvitation : status rep = 404%Z → may_answer r user → (∀ org raw, ¬ invited sp user id org raw) →
      respond_outcome r user id rep sp sp
  | NoResponse org raw : status rep = 400%Z → may_answer r user → invited sp user id org raw →
      (∀ response, body_field "response" (r_body r) = Some response → response ∉ ["accept"; "reject"]) →
      respond_outcome r user id rep sp sp
  | InviterGone org raw inviter : status rep = 403%Z → may_answer r user → invited sp user id org raw →
      body_field "response" (r_body r) = Some "accept" → decode_field "inviter" raw = Some inviter →
      ¬ standing (s_objs sp) org inviter → respond_outcome r user id rep sp sp
  | Rejected org raw : status rep = 200%Z → may_answer r user → invited sp user id org raw →
      answers_with r sp org raw "reject" → respond_outcome r user id rep sp (sp_delete org assocReqColl id sp)
  | Accepted org raw : status rep = 200%Z → may_answer r user → invited sp user id org raw →
      answers_with r sp org raw "accept" → respond_outcome r user id rep sp (joined org user (sp_delete org assocReqColl id sp))
  (* a fault of the store, or a stored document that does not decode *)
  | Faulted : status rep = 500%Z → may_answer r user → respond_outcome r user id rep sp sp
  | FaultedLate org raw response sp' : status rep = 500%Z → may_answer r user → invited sp user id org raw →
      answers_with r sp org raw response →
      (sp' = sp_delete org assocReqColl id sp ∨
       sp' = sp_put org assocColl user (association user) (sp_delete org assocReqColl id sp) ∧ response = "accept") →
      respond_outcome r user id rep sp sp'.

Section Answers.
Context {B : Type} `{BackendSpec B}.
Abbreviation st := (Store B groupIndexCache).

Lemma ens_adminMembership org sp (Q : result (list string * list string * list string) → space → Prop) :
  (∀ m, (∀ user, user ∈ m.1.1 ↔ shown_admin (s_objs sp) org user) → Q (Ok m) sp) → (∀ e, Q (Err e) sp) →
  ensures (B := B) (O := groupIndexCache) (groupMembership org "admins") sp Q.
Proof.
  intros HO HE. apply ens_bind, ens_Get; [|done]. apply ens_bind, ens_Range; [intros rows Hrows|done]. apply ens_ret, HO.
  intros user. rewrite fold_row_users by (cbn; naive_solver). unfold shown_admin.
  assert (∀ key, key ∈ map fst rows ↔ is_Some (s_objs sp !! (org, groupMembersColl, key))) as Hk.
  { intros key. rewrite Hrows, <-lookup_coll_of, list_elem_of_fmap. split.
    - intros ([? v] & -> & Hv%elem_of_map_to_list). eauto.
    - intros [v Hv]. exists (key, v). split; [done|]. by apply elem_of_map_to_list. }
  setoid_rewrite Hk. destruct (s_objs sp !! (org, "groups", "admins")) as [raw|] eqn:Er; [|set_solver].
  destruct (unmarshal_map raw) as [g|] eqn:Eg; cbn [fst]; [naive_solver|].
  split; [intros [?%elem_of_nil|?]; [done|by right]|]. intros [(? & ? & [= <-] & ? & ?)|?]; [congruence|by right].
Qed.

Lemma ens_inviterAuthorized org inviter sp (Q : result bool → space → Prop) :
  (∀ b, (b = true ↔ standing (s_objs sp) org inviter) → Q (Ok b) sp) → (∀ e, Q (Err e) sp) →
  ensures (B := B) (inviterAuthorized org inviter) sp Q.
Proof.
  intros HO HE. unfold inviterAuthorized, standing in *. destruct (decide (inviter = "")) as [->|Hne]; [apply ens_ret, HO; tauto|].
  apply ens_bind, ens_Get; [|done]. destruct (s_objs sp !! (Global, "users", inviter)) as [raw|] eqn:Eu.
  2:{ apply ens_ret, HO. split; [done|]. naive_solver. }
  destruct (unmarshal_map raw) as [u|] eqn:Em; [|intros s <-; apply HE].
  destruct (match assoc (members u) "admin" with Some (VBool b) => b | _ => false end) eqn:Ea.
  { apply ens_ret, HO. split; [intros _|done]. right. exists raw, u. split_and!; [done..|]. left.
    by destruct (assoc (members u) "admin") as [[| [] | | | |]|]. }
  assert (assoc (members u) "admin" ≠ Some (VBool true)) as Hna by (intros E; by rewrite E in Ea).
  apply ens_bind, ens_Get; [|done]. destruct (s_objs sp !! (org, assocColl, inviter)) as [a|] eqn:Es.
  - apply ens_bind, ens_adminMembership; [intros m Hm|done]. apply ens_ret, HO. rewrite contains_str_true, Hm. naive_solver.
  - apply ens_ret, HO. split; [done|]. intros [?|(? & ? & ? & ? & [?|[[??] ?]])]; [done|naive_solver|congruence].
Qed.

Lemma ens_findInvite user id sp (Q : result (option string) → space → Prop) :
  (∀ org raw, invited sp user id org raw → Q (Ok (Some org)) sp) → ((∀ org raw, ¬ invited sp user id org raw) → Q (Ok None) sp) →
  (∀ e, Q (Err e) sp) → ensures (B := B) (findInvite user id) sp Q.
Proof.
  intros HO HN HE. apply ens_bind, ens_ListOrgs; [|done].
  assert (∀ org raw, org ∉ sort_strings (base.elements (s_orgs sp)) → ¬ invited sp user id org raw) as Hout.
  { intros org raw Hno [Hin _]. by rewrite elem_of_orgs in Hno. }
  revert Hout. generalize (sort_strings (base.elements (s_orgs sp))). intros names.
  induction names as [|name names IH]; intros Hout; cbn [find_invite].
  { apply ens_ret, HN. intros org raw. apply Hout. set_solver. }
  assert ((∀ raw, ¬ invited sp user id name raw) → ∀ org raw, org ∉ names → ¬ invited sp user id org raw) as Hnext.
  { intros Hn org raw Hno. destruct (decide (org = name)) as [->|]; [done|]. apply Hout. set_solver. }
  apply ens_bind, ens_Org; [|done]. case_decide as Ho; [|apply IH, Hnext; by intros raw [? _]].
  apply ens_bind, ens_Get; [|done].
  destruct (s_objs sp !! (name, assocReqColl, id)) as [raw|] eqn:Er; [|apply IH, Hnext; intros raw (_ & E & _); congruence].
  destruct (decode_field "username" raw) as [u|] eqn:Eu; [|intros s <-; apply HE].
  destruct (decide (u = user)) as [->|Hne]; [apply ens_ret; by eapply HO|].
  apply IH, Hnext. intros raw' (_ & E1 & E2). congruence.
Qed.

Lemma h_ens_acceptable org id raw sp (Q : unit + reply → space → Prop) : s_objs sp !! (org, assocReqColl, id) = Some raw →
  (acceptable sp org raw → Q (inl tt) sp) → (∀ rep, status rep = 500%Z → Q (inr rep) sp) →
  (∀ rep inviter, status rep = 403%Z → decode_field "inviter" raw = Some inviter → ¬ standing (s_objs sp) org inviter → Q (inr rep) sp) →
  h_ensures (B := B) (acceptable_invite org id) sp Q.
Proof.
  intros Hr HO HE HR. apply h_ens_bind, h_ens_or_500, ens_Get; [|intros e; by apply HE]. rewrite Hr.
  destruct (decode_field "inviter" raw) as [i|] eqn:Ei; [|by apply h_ens_bind, h_ens_reply, HE]. apply h_ens_bind, h_ens_ret.
  apply h_ens_bind, h_ens_or_500, ens_inviterAuthorized; [intros b Hb|intros e; by apply HE].
  destruct b; [|apply h_ens_reply, (HR _ i); [done|done|]; intros Hs; by apply Hb in Hs].
  apply h_ens_ret, HO. exists i. split; [done|]. by apply Hb.
Qed.

Lemma respondInvite_ensures r user id sp :
  h_ensures (B := B) (respondInvite r user id) sp (λ res sp', respond_outcome r user id (reply_of res) sp sp').
Proof.
  unfold respondInvite.
  destruct (match r_actor r with Some a => _ | None => _ end) eqn:Ea.
  { apply h_ens_reply, NotTheirs; [done|]. unfold may_answer. destruct (r_actor r) as [a|]; [|done].
    apply andb_true_iff in Ea as [Ea%bool_decide_eq_true Eg]. destruct (IsGlobalAdmin a); [done|]. by intros [?|?]. }
  assert (may_answer r user) as Hmay.
  { unfold may_answer. destruct (r_actor r) as [a|]; [|done]. apply andb_false_iff in Ea as [Ea%bool_decide_eq_false|Ea]; [left|right].
    - by apply dec_stable.
    - by destruct (IsGlobalAdmin a). }
  apply h_ens_bind, h_ens_or_500, ens_findInvite; [intros org raw Hinv| |intros e; by apply Faulted].
  2:{ intros Hn. by apply h_ens_reply, NoInvitation. }
  destruct (body_field "response" (r_body r)) as [resp|] eqn:Eb; [|apply h_ens_reply, (NoResponse _ _ _ _ _ org raw); [done..|congruence]].
  destruct (decide (resp ≠ "accept" ∧ resp ≠ "reject")) as [Hbad|Hresp].
  { apply h_ens_reply, (NoResponse _ _ _ _ _ org raw); [done..|]. intros x [= <-]%(eq_trans (eq_sym Eb)). set_solver. }
  apply h_ens_bind. destruct (decide (resp = "accept")) as [->|Hrej].
  - apply (h_ens_acceptable org id raw); [apply Hinv| |intros rep Hr; by apply Faulted|].
    2:{ intros rep inviter Hs Hd Hst. by apply (InviterGone _ _ _ _ _ org raw inviter). }
    intros Hacc. assert (answers_with r sp org raw "accept") as Hw by (split; [done|by right]).
    assert (∀ e sp', sp' = sp_delete org assocReqColl id sp ∨
       sp' = sp_put org assocColl user (association user) (sp_delete org assocReqColl id sp) →
       respond_outcome r user id (internal_error e) sp sp') as Hlate.
    { intros e sp' Hsp. apply (FaultedLate _ _ _ _ _ org raw "accept"); [done..|]. naive_solver. }
    apply h_ens_bind, h_ens_or_500, ens_Delete; [|intros e; by apply Faulted].
    apply h_ens_bind, h_ens_bind, h_ens_or_500, ens_Put; [|intros e; by apply Hlate; left]. apply h_ens_or_500, ens_Put; [|intros e; by apply Hlate; right].
    apply h_ens_ret. by apply (Accepted _ _ _ _ _ org raw).
  - assert (resp = "reject") as -> by (apply dec_stable; tauto).
    apply h_ens_ret, h_ens_bind, h_ens_or_500, ens_Delete; [|intros e; by apply Faulted]. apply h_ens_bind, h_ens_ret, h_ens_ret.
    apply (Rejected _ _ _ _ _ org raw); [done..|]. split; [done|by left].
Qed.
End Answers.

(** C22. An invitation is answered once, by the user it names or the superuser, and
    accepting it needs an inviter who could still invite. The reply to an answer
    is 403 when the requestor may not answer for the user, or accepts an
    invitation whose inviter is no longer a superuser, or a member of the
    organization and of its admins; 404 when no organization holds an invitation
    of that id for the user; 400 when the body has no response or one that is
    neither accept nor reject; none of these change anything. A 200 consumes the
    invitation, and accepting also associates the user and puts it in the users
    group. A fault of the store or an undecodable document (500) leaves the store
    as it was, or a prefix of those writes. *)
Theorem invitations_answered `{BackendSpec B} (r : request) (user id : string) (s : Store B groupIndexCache) :
  let '(rep, s') := replied (respondInvite r user id s) in respond_outcome r user id rep (view s.1) (view s'.1).
Proof. apply (replied_ensures _ (respond_outcome r user id)), respondInvite_ensures. Qed.
