(* ===== verification/Actors.v ===== *)
(** * Users and clients (internal/api/actor.go)

    The endpoints of actors, which are global users or clients of an
    organization: a JSON record with a public key, a password kept aside, and
    the names by which groups, ACLs, keys and invitations refer to it. *)
From S2P Require Import Prelude GoText Json Chefjson Float GoJson Stored Store Facade Groups Http Effects Acl AclDocs GroupApi Presign Objects Manifest Auth Time Environments DataBags Records Passwords Users Keys ServerAuth Associations.
#[local] Open Scope go_scope.
#[local] Open Scope http_scope.

Definition createAndPubkeyMessage : string := "You must specify either create_key or public_key, but not both".
Definition keyManagementMessage : string := "Since Server API v1, all keys must be updated via the keys endpoint. ".
Definition privateKeyFieldNotSupportMsg : string := "Please use create_key: true instead of private_key: true".
Definition adminField : string := "admin".

Definition del (o : obj) (k : string) : obj := filter (λ e, e.1 ≠ k) o.

(** [v == true]. *)
Definition is_true (v : option value) : bool := match v with Some (VBool b) => b | _ => false end.
Definition has (o : obj) (k : string) : bool := bool_decide (is_Some (assoc o k)).

Definition bodyPublicKey (o : obj) : string :=
  let pub := str (assoc o "public_key") in
  if decide (pub = "") then match assoc o "chef_key" with Some (VObj ck) => str (assoc ck "public_key") | _ => "" end else pub.

Definition createKeyFieldsError (o : obj) (createKey : bool) : option string :=
  if has o "private_key" then Some privateKeyFieldNotSupportMsg
  else if createKey && bool_decide (bodyPublicKey o ≠ "") then Some createAndPubkeyMessage else None.

Definition updateKeyFieldsError (o : obj) : option string :=
  if has o "private_key" then Some privateKeyFieldNotSupportMsg
  else if has o "create_key" || has o "public_key" then Some keyManagementMessage else None.

Definition cannot_find (segment name : string) : string := "Cannot find " +:+ segment +:+ " " +:+ name.

Section Handlers.
Context `{Unicode} `{X509} `{PBKDF2}.
Context {B : Type} `{Backend B}.
Abbreviation st := (Store B groupIndexCache).

(** An actor document as the API version of the request shows it. *)
Definition actorView (header raw : string) : string :=
  if decide (requestAPIVersion header < 1)%Z then raw
  else match unmarshal_map raw with
       | None => raw
       | Some doc => if has (members doc) "public_key" then mustEncode (VObj (del (members doc) "public_key")) else raw
       end.

(** The organizations, in order, up to the first with a client of the name. *)
Fixpoint client_in (name : string) (orgs : list string) : ST st (option string) :=
  match orgs with
  | [] => st_ret None
  | orgName :: orgs' =>
      let! o := Store_Org orgName in
      match o with
      | None => client_in name orgs'
      | Some org =>
          let! raw := Org_Get org "clients" name in
          match raw with Some _ => st_ret (Some orgName) | None => client_in name orgs' end
      end
  end.

Definition actorNameCollision (segment name : string) : ST st (option string) :=
  if decide (segment = "clients") then
    let! raw := Org_Get Global "users" name in
    st_ret (match raw with
            | Some _ => Some ("A user named " +:+ name +:+ " already exists; a client cannot share its name")
            | None => None
            end)
  else if decide (segment = "users") then
    let! orgs := Store_ListOrgs in
    let! found := client_in name orgs in
    st_ret (match found with
            | Some orgName => Some ("A client named " +:+ name +:+ " already exists in organization " +:+ orgName +:+
                                    "; a user cannot share its name")
            | None => None
            end)
  else st_ret None.

(** [storedRecord]: [None] when there is no record or it does not decode. *)
Definition storedRecord (org segment name : string) : ST st (option obj) :=
  let! raw := Org_Get org segment name in
  st_ret (match raw with Some raw => default None (unmarshal_map raw) | None => None end).
Definition storedField (org segment name field : string) : ST st (option value) :=
  let! o := storedRecord org segment name in st_ret (present (assoc (members o) field)).
Definition storedPublicKey (org segment name : string) : ST st string :=
  let! o := storedRecord org segment name in st_ret (str (assoc (members o) "public_key")).

(** The superuser flag is the stored one, unless the superuser sets it. *)
Definition preservePrivilege (r : request) (org segment name : string) (o : obj) : ST st obj :=
  if decide (segment ≠ "users") then st_ret o
  else match r_actor r with
  | None => st_ret o
  | Some a =>
      if IsGlobalAdmin a then st_ret o
      else
        let! stored := storedField org segment name adminField in
        st_ret (match stored with Some v => Set_ o adminField v | None => del o adminField end)
  end.

(** The key a new actor gets, and what the reply says of it; [pair] is what key
    generation returns. *)
Definition new_key (pair : result (string * string)) (generate : bool) (o : obj) : handler st (obj * obj) :=
  let pub := bodyPublicKey o in
  if decide (pub ≠ "") then h_ret (Set_ o "public_key" (VStr pub), [])
  else if generate then
    match pair with
    | Err e => h_reply (internal_error e)
    | Ok (pub, priv) =>
        h_ret (Set_ o "public_key" (VStr pub),
               [("chef_key", VObj [("name", VStr "default"); ("public_key", VStr pub); ("expiration_date", VStr "infinity");
                                   ("private_key", VStr priv)])])
    end
  else h_ret (o, []).

(** What is wrong with the body of a create, in the order it is looked for. *)
Definition create_error (segment name : string) (v1 createKey : bool) (o : obj) : option string :=
  if decide (name = "") then Some "Field 'name' missing"
  else match (if decide (segment = "users") then validateUser o None true else None) with
  | Some msg => Some msg
  | None =>
      if decide (segment = "clients" ∧ clientNameRE name = false) then Some (invalidClientNameMessage name)
      else if decide (bodyPublicKey o ≠ "" ∧ validPublicKey (bodyPublicKey o) = false) then Some invalidPublicKeyMessage
      else if v1 then createKeyFieldsError o createKey else None
  end.

Definition createActor (enforceACL : bool) (iter : Z) (salt : result string) (pair : result (string * string)) (header segment : string)
    (sc : scope) (r : request) : handler st reply :=
  let? org := scope_org sc in
  match decode_body_map (r_body r) with
  | None => h_reply (writeError 400 ["invalid JSON body"])
  | Some m =>
      let o := members m in
      let name := first_str o "name" "username" in
      let v1 := bool_decide (1 ≤ requestAPIVersion header)%Z in
      let createKey := is_true (assoc o "create_key") in
      match create_error segment name v1 createKey o with
      | Some msg => h_reply (writeError 400 [msg])
      | None =>
          let o := if decide (segment = "users") then lowerEmail o else o in
          let o := del o "create_key" in
          let? collision := or_500 (actorNameCollision segment name) in
          match collision with
          | Some msg => h_reply (writeError 409 [msg])
          | None =>
              let uri := ("uri", VStr (objectURL r (orgSegment sc) segment name)) in
              let? made := new_key pair (negb v1 || createKey) o in
              let o := del (del made.1 "chef_key") "private_key" in
              let? o := or_500 (StashPassword iter salt org name o) in
              create_or_409 org segment name (mustEncode (VObj o)) "Object already exists" ;;?
              or_500 (grantCreator enforceACL (r_actor r) org segment name) ;;?
              (if enforceACL && bool_decide (segment = "clients") && negb (is_true (assoc o "validator"))
               then or_500 (addClientToOrgGroup org "clients" name) else h_ret tt) ;;?
              h_ret (writeJSON 201 (VObj (uri :: made.2)))
          end
      end
  end.

Definition actorMatchesFilters (org segment name : string) (filters : list (string * string)) : ST st bool :=
  if decide (filters = []) then st_ret true
  else
    let! raw := Org_Get org segment name in
    st_ret (match raw with
            | None => false
            | Some raw => match unmarshal_map raw with
                          | None => false
                          | Some doc => forallb (λ f, bool_decide (str (assoc (members doc) f.1) = f.2)) filters
                          end
            end).

Fixpoint matching (org segment : string) (filters : list (string * string)) (names : list string) : ST st (list string) :=
  match names with
  | [] => st_ret []
  | name :: names' =>
      let! ok := actorMatchesFilters org segment name filters in
      let! rest := matching org segment filters names' in
      st_ret (if ok : bool then name :: rest else rest)
  end.

(** [query]: the parameters of the URL. *)
Definition scopedList (segment : string) (sc : scope) (r : request) (query : list (string * string)) : handler st reply :=
  let? org := scope_org sc in
  let filters := filter (λ f, f.2 ≠ "") (map (λ f, (f, Values_Get query f)) ["email"; "external_authentication_uid"]) in
  let? keys := or_500 (Org_Keys org segment) in
  let? names := or_500 (matching org segment filters keys) in
  h_ret (writeJSON 200 (VObj (map (λ n, (n, VStr (objectURL r (orgSegment sc) segment n))) names))).

Definition scopedGet (header segment : string) (sc : scope) (r : request) (name : string) : handler st reply :=
  let? org := scope_org sc in
  let? raw := or_500 (viewObject r org segment name) in
  match raw with
  | None => h_reply (writeError 404 [cannot_find segment name])
  | Some raw => h_ret (writeRaw 200 (enveloped segment (orgSegment sc) (actorView header raw)))
  end.

(** The body of a user update merged into the stored record. *)
Definition user_update (org segment name : string) (o : obj) : handler st obj :=
  let? stored := or_500 (storedRecord org segment name) in
  match validateUser o stored false with
  | Some msg => h_reply (writeError 400 [msg])
  | None => h_ret (mergeUser stored (lowerEmail o))
  end.

(** The public key after an update: that of the body or a new pair, which also
    goes to the row of the default key, or else the stored one. *)
Definition update_key (org segment name pub : string) : handler st string :=
  if decide (pub ≠ "") then
    let? done_ := or_500 (setStoredDefaultPublicKey org segment name pub) in
    match done_ with None => h_reply panic | Some _ => h_ret pub end
  else or_500 (storedPublicKey org segment name).

(** A body of null is a nil map: it can be read, not assigned to. *)
Definition scopedPut (iter : Z) (salt : result string) (pair : result (string * string)) (header segment : string) (sc : scope)
    (r : request) (name : string) : handler st reply :=
  let? org := scope_org sc in
  exists_ r org segment name (cannot_find segment name) ;;?
  match decode_body_map (r_body r) with
  | None => h_reply (writeError 400 ["invalid JSON body"])
  | Some m =>
      let version := requestAPIVersion header in
      match (if decide (1 ≤ version)%Z then updateKeyFieldsError (members m) else None) with
      | Some msg => h_reply (writeError 400 [msg])
      | None =>
          let o := if decide (1 ≤ version)%Z then del (members m) "chef_key" else members m in
          let o := del o "create_key" in
          let? o := (if decide (segment = "users") then user_update org segment name o else h_ret o) in
          let regenerate := is_true (assoc o "private_key") && bool_decide (version = 0)%Z in
          let o := del o "private_key" in
          let? made := (if regenerate then match pair with
                          | Err e => h_reply (internal_error e)
                          | Ok made => h_ret made
                          end
                        else h_ret (bodyPublicKey o, "")) in
          let? pub := update_key org segment name made.1 in
          let o := del o "chef_key" in
          if decide (m = None ∧ segment ≠ "users") then
            if decide (pub ≠ "") then h_reply panic
            else or_500 (Org_Put org segment name "null") ;;? h_ret (writeRaw 200 (actorView header "null"))
          else
            let o := if decide (pub ≠ "") then Set_ o "public_key" (VStr pub) else o in
            let? o := or_500 (preservePrivilege r org segment name o) in
            let? o := or_500 (StashPassword iter salt org name o) in
            or_500 (Org_Put org segment name (mustEncode (VObj o))) ;;?
            if decide (made.2 ≠ "") then h_ret (writeJSON 200 (VObj (Set_ o "private_key" (VStr made.2))))
            else h_ret (writeRaw 200 (actorView header (mustEncode (VObj o))))
      end
  end.

(** What a deleted user leaves an organization. *)
Definition removeUserFromOrg (user name : string) : ST st unit :=
  let! o := Store_Org name in
  match o with
  | None => st_ret tt
  | Some org =>
      Org_Delete org assocColl user ;;!
      Org_Delete org assocReqColl (inviteID user name) ;;!
      removeActorFromAllGroups org memberUsers user ;;!
      removeFromACLs org "actors" user
  end.
Definition removeUserFromOrgs (user : string) : ST st unit :=
  removeFromACLs Global "actors" user ;;!
  let! orgs := Store_ListOrgs in
  st_each (removeUserFromOrg user) orgs.

Definition actor_cleanup (org segment name : string) : ST st unit :=
  (if decide (segment = "users") then removeUserFromOrgs name
   else if decide (segment = "clients") then removeFromACLs org "actors" name ;;! removeActorFromAllGroups org memberClients name
   else st_ret tt) ;;!
  deleteACL org segment name ;;!
  deleteActorKeys org segment name.

Definition scopedDelete (header segment : string) (sc : scope) (name : string) : handler st reply :=
  let? org := scope_org sc in
  let? found := or_500 (Org_Get org segment name) in
  match found with
  | None => h_reply (writeError 404 [cannot_find segment name])
  | Some _ =>
      or_500 (actor_cleanup org segment name) ;;?
      let? raw := or_500 (Org_Delete org segment name) in
      match raw with
      | None => h_reply (writeError 404 [cannot_find segment name])
      | Some raw => h_ret (writeRaw 200 (enveloped segment (orgSegment sc) (actorView header raw)))
      end
  end.
End Handlers.

(** ** Records through the handlers *)

(** Lower-casing text gives text. *)
Class UnicodeText `{Unicode} := { ToLower_text s : valid_utf8 s = true → valid_utf8 (ToLower s) = true }.

Lemma member_Set (o : obj) k v k' : assoc (Set_ o k v) k' = if decide (k' = k) then Some v else assoc o k'.
Proof. exact (Get_Set o k v k'). Qed.

Lemma assoc_del (o : obj) k k' : assoc (del o k) k' = if decide (k' = k) then None else assoc o k'.
Proof. apply assoc_filter. Qed.

Lemma document_del o k : document o → document (del o k).
Proof. apply document_filter. Qed.

Lemma document_str (o : obj) k : document o → valid_utf8 (str (assoc o k)) = true.
Proof.
  intros Ho. destruct (assoc o k) as [v|] eqn:E; [|done]. destruct v as [| | |s| |]; try done. cbn.
  by apply (document_assoc o k _ Ho) in E as (_ & Hs & _).
Qed.

Lemma lowerEmail_document `{UnicodeText} o : document o → document (lowerEmail o).
Proof.
  intros Ho. unfold lowerEmail. destruct (assoc o "email") as [[| | |s| |]|] eqn:E; try done.
  apply document_set; [done|done|]. apply storable_str, ToLower_text. pose proof (document_str o "email" Ho) as Ht. by rewrite E in Ht.
Qed.

Lemma assoc_lowerEmail `{Unicode} o k : k ≠ "email" → assoc (lowerEmail o) k = assoc o k.
Proof.
  intros Hk. unfold lowerEmail. destruct (assoc o "email") as [[]|]; try done. rewrite member_Set. by rewrite decide_False.
Qed.

Lemma merge_member_document out m : document out → valid_utf8 m.1 = true ∧ storable m.2 → document (merge_member out m).
Proof.
  intros Ho [Hk Hv]. unfold merge_member. destruct m.2 eqn:E; try (by apply document_set). by apply document_filter.
Qed.

Lemma mergeUser_document stored body : document (members stored) → document body → document (mergeUser stored body).
Proof.
  intros Hs [_ Hb]. unfold mergeUser. revert Hs. generalize (members stored). induction Hb as [|m body Hm Hb IH]; intros out Ho; [done|].
  cbn [foldl]. by apply IH, merge_member_document.
Qed.

(** Each field of the body replaces that of the record, null removes it. *)
Lemma assoc_mergeUser stored body k : NoDup (map fst body) →
  assoc (mergeUser stored body) k = match assoc body k with Some VNull => None | Some v => Some v | None => assoc (members stored) k end.
Proof.
  unfold mergeUser. generalize (members stored). induction body as [|[n v] body IH]; intros out Hn; [done|].
  cbn [map fst] in Hn. apply NoDup_cons in Hn as [Hn Hnd]. cbn [foldl assoc]. rewrite IH by done.
  assert (assoc (merge_member out (n, v)) k = if decide (k = n) then match v with VNull => None | _ => Some v end else assoc out k) as ->.
  { unfold merge_member. cbn [fst snd]. destruct v; try apply member_Set. apply assoc_filter. }
  destruct (decide (k = n)) as [->|Hne]; [|by rewrite decide_False by congruence]. rewrite decide_True by done.
  assert (assoc body n = None) as ->.
  { clear -Hn. induction body as [|[x y] body IH]; [done|]. cbn [map fst assoc] in *. apply not_elem_of_cons in Hn as [? ?].
    rewrite decide_False by congruence. by apply IH. }
  by destruct v.
Qed.

Lemma bodyPublicKey_text o : document o → valid_utf8 (bodyPublicKey o) = true.
Proof.
  intros Ho. unfold bodyPublicKey. case_decide; [|by apply document_str].
  destruct (assoc o "chef_key") as [[| | | | |ck]|] eqn:E; try done.
  apply (document_assoc o _ _ Ho) in E as (_ & He & _). apply printable_obj in He.
  destruct (assoc ck "public_key") as [[| | |s| |]|] eqn:Ek; try done. cbn.
  clear -He Ek. induction He as [|[n v] ck [_ Hv] He IH]; [done|]. cbn [assoc] in Ek. case_decide; [|by apply IH]. by injection Ek as ->.
Qed.

(** What no record may hold: key material, requests, and a password. *)
Definition secret_free (o : obj) : Prop :=
  assoc o "private_key" = None ∧ assoc o "chef_key" = None ∧ assoc o "create_key" = None ∧
  ∀ pw, assoc o "password" ≠ Some (VStr pw).

(** ** What the handlers store *)

(** Equal outside some collections. *)
Definition outside (cs : list string) (objs objs' : objects) : Prop := ∀ k, k.1.2 ∉ cs → objs' !! k = objs !! k.

Lemma outside_refl cs objs : outside cs objs objs.
Proof. done. Qed.
#[local] Hint Resolve outside_refl : core.

Lemma outside_insert cs o c k v objs objs' : c ∈ cs → outside cs objs objs' → outside cs objs (<[(o, c, k) := v]> objs').
Proof. intros Hc Ho x Hx. rewrite lookup_insert_ne; [by apply Ho|]. by intros <-. Qed.

Section Effects.
Context `{UnicodeText} `{X509} `{PBKDF2}.
Context {B : Type} `{BackendSpec B}.
Context (enforceACL : bool) (iter : Z).

(** A password stashed for a name, or none. *)
Definition stashed (salt : result string) (org name : string) (objs objs' : objects) : Prop :=
  objs' = objs ∨ ∃ pw h, HashPassword iter salt pw = Ok h ∧ objs' = <[(org, PasswordsCollection, name) := h]> objs.

Lemma ens_StashPassword salt org name o sp (Q : result obj → space → Prop) :
  (∀ o' sp', stashed salt org name (s_objs sp) (s_objs sp') → s_orgs sp' = s_orgs sp →
     (document o → document o') → (∀ k, k ≠ "password" → assoc o' k = assoc o k) → (∀ k, is_Some (assoc o' k) → is_Some (assoc o k)) →
     (∀ pw, assoc o' "password" ≠ Some (VStr pw)) → Q (Ok o') sp') → (∀ e, Q (Err e) sp) →
  ensures (B := B) (O := groupIndexCache) (StashPassword iter salt org name o) sp Q.
Proof.
  intros HO HE. unfold StashPassword.
  assert ((∀ pw, assoc o "password" ≠ Some (VStr pw)) → Q (Ok o) sp) as Hnone by (intros ?; apply HO; auto; by left).
  destruct (assoc o "password") as [[| | |pw| |]|] eqn:Ep; try (by apply ens_ret, Hnone).
  destruct (HashPassword iter salt pw) as [h|e] eqn:Eh; [|intros s <-; apply HE].
  apply ens_bind, ens_Put; [|done]. apply ens_ret, HO; [right; by exists pw, h|done|apply document_del| | |].
  - intros k Hk. rewrite (assoc_filter o). by rewrite decide_False.
  - intros k. rewrite (assoc_filter o). case_decide; [by intros []|done].
  - intros pw'. rewrite (assoc_filter o). by rewrite decide_True.
Qed.

(** No other principal has the name. *)
Definition free_name (sp : space) (segment name : string) : Prop :=
  (segment = "clients" → s_objs sp !! (Global, "users", name) = None) ∧
  (segment = "users" → ∀ org, org ∈ s_orgs sp → s_objs sp !! (org, "clients", name) = None).

Lemma ens_client_in name orgs sp (Q : result (option string) → space → Prop) :
  ((∀ org, org ∈ orgs → org ∈ s_orgs sp → s_objs sp !! (org, "clients", name) = None) → Q (Ok None) sp) →
  (∀ org, Q (Ok (Some org)) sp) → (∀ e, Q (Err e) sp) → ensures (B := B) (client_in name orgs) sp Q.
Proof.
  intros HN HS HE. induction orgs as [|orgName orgs IH]; cbn [client_in]; [apply ens_ret, HN; set_solver|].
  apply ens_bind, ens_Org; [|done]. case_decide as Ho.
  - apply ens_bind, ens_Get; [|done]. destruct (s_objs sp !! (orgName, "clients", name)) as [raw|] eqn:E; [by apply ens_ret|].
    apply IH. intros Hall. apply HN. intros org [->|Hin]%elem_of_cons Hs; auto.
  - apply IH. intros Hall. apply HN. intros org [->|Hin]%elem_of_cons Hs; [done|auto].
Qed.

Lemma ens_actorNameCollision segment name sp (Q : result (option string) → space → Prop) :
  (free_name sp segment name → Q (Ok None) sp) → (∀ msg, Q (Ok (Some msg)) sp) → (∀ e, Q (Err e) sp) →
  ensures (B := B) (actorNameCollision segment name) sp Q.
Proof.
  intros HF HM HE. unfold actorNameCollision, free_name in *.
  destruct (decide (segment = "clients")) as [->|Hc]; [|destruct (decide (segment = "users")) as [->|Hu]].
  - apply ens_bind, ens_Get; [|done]. apply ens_ret. destruct (s_objs sp !! (Global, "users", name)) eqn:E; [done|].
    by apply HF; split.
  - apply ens_bind, ens_ListOrgs; [|done]. apply ens_bind, ens_client_in; [intros Hall|intros org; by apply ens_ret|done].
    apply ens_ret, HF. split; [done|]. intros _ org Ho. apply Hall; [by apply elem_of_orgs|done].
  - apply ens_ret, HF. by split; intros ->.
Qed.

(** The record of a new actor. *)
Definition new_record (segment name : string) (o : obj) : Prop :=
  document o ∧ secret_free o ∧ name ≠ "" ∧ (segment = "users" → userNameRE name = true).

Definition create_effect (salt : result string) (segment org : string) (sp sp' : space) : Prop :=
  s_orgs sp' = s_orgs sp ∧
  (s_objs sp' = s_objs sp ∨
   ∃ name o objs1, new_record segment name o ∧ free_name sp segment name ∧ stashed salt org name (s_objs sp) objs1 ∧
     (s_objs sp' = objs1 ∨
      s_objs sp !! (org, segment, name) = None ∧
      outside ["acls"; groupMembersColl] (<[(org, segment, name) := mustEncode (VObj o)]> objs1) (s_objs sp'))).

(** The generated public key is text. *)
Definition pair_text (pair : result (string * string)) : Prop :=
  match pair with Ok (pub, _) => valid_utf8 pub = true | Err _ => True end.

Lemma create_error_name segment name v1 createKey o : create_error segment name v1 createKey o = None →
  name = first_str o "name" "username" → name ≠ "" ∧ (segment = "users" → userNameRE name = true).
Proof.
  unfold create_error, validateUser, userNameField, first_str. intros He ->. cbv zeta in *.
  destruct (decide (str (assoc o "name") = "")) as [En|En].
  - destruct (decide (str (assoc o "username") = "")) as [|Hne]; [done|]. split; [done|]. intros ->. rewrite decide_True in He by done.
    destruct (assoc o "name") as [[| | |n| |]|]; try done; [by cbn in En; subst|].
    destruct (assoc o "username") as [[| | |u| |]|]; try done. cbn [str]. by destruct (userNameRE u).
  - rewrite decide_False in He by done. split; [done|]. intros ->. rewrite decide_True in He by done.
    destruct (assoc o "name") as [[| | |n| |]|]; try done. cbn [str]. by destruct (userNameRE n).
Qed.

Lemma h_ens_new_key pair generate o sp (Q : (obj * obj) + reply → space → Prop) : document o → pair_text pair →
  (∀ o' resp, document o' → (∀ k, k ≠ "public_key" → assoc o' k = assoc o k) → Q (inl (o', resp)) sp) →
  (∀ e, Q (inr (internal_error e)) sp) → h_ensures (B := B) (new_key pair generate o) sp Q.
Proof.
  intros Ho Hp HO HE.
  assert (∀ pub resp, valid_utf8 pub = true → Q (inl (Set_ o "public_key" (VStr pub), resp)) sp) as Hset.
  { intros pub resp Hpub. apply HO; [by apply document_set, storable_str|]. intros k Hk. by rewrite member_Set, decide_False. }
  unfold new_key. cbv zeta. destruct (decide (bodyPublicKey o ≠ "")); [by apply h_ens_ret, Hset, bodyPublicKey_text|].
  destruct generate; [|by apply h_ens_ret, HO]. destruct pair as [[pub priv]|e]; [by apply h_ens_ret, Hset|by apply h_ens_reply].
Qed.

Lemma createActor_ensures salt pair header segment sc r sp : pair_text pair → segment ∉ [PasswordsCollection; "acls"; groupMembersColl] →
  h_ensures (B := B) (createActor enforceACL iter salt pair header segment sc r) sp
    (λ _ sp', create_effect salt segment (scope_name sc) sp sp').
Proof.
  intros Hpair Hseg. assert (create_effect salt segment (scope_name sc) sp sp) as Hsame by (split; [done|by left]).
  apply h_ens_bind, (h_ens_scope_org (B := B) (O := groupIndexCache) sc sp); [|done].
  destruct (decode_body_map (r_body r)) as [m|] eqn:Em; [|by apply h_ens_reply]. apply body_document in Em.
  cbv zeta. destruct (create_error _ _ _ _ _) as [msg|] eqn:Ee; [by apply h_ens_reply|].
  set (name := first_str (members m) "name" "username") in *. destruct (create_error_name _ _ _ _ _ Ee eq_refl) as [Hne Hname].
  set (o0 := if decide (segment = "users") then lowerEmail (members m) else members m).
  assert (document (del o0 "create_key")) as Ho0 by (apply document_del; unfold o0; destruct (decide (segment = "users")); [by apply lowerEmail_document|done]).
  apply h_ens_bind, h_ens_or_500, ens_actorNameCollision; [intros Hfree|intros msg; by apply h_ens_reply|done].
  apply h_ens_bind, h_ens_new_key; [done|done|intros o1 resp Ho1 Ha1|done]. cbn [fst snd].
  apply h_ens_bind, h_ens_or_500, ens_StashPassword; [|done]. intros o2 sp2 Hst Horgs Hdoc Hassoc _ Hpw.
  assert (new_record segment name o2) as Hnew.
  { split_and!; [by apply Hdoc; do 2 apply document_del| |done|done]. unfold secret_free.
    split_and!; [rewrite Hassoc, !assoc_del by done..|done]; [done|done|]. by rewrite Ha1, assoc_del by done. }
  assert (create_effect salt segment (scope_name sc) sp sp2) as Hs2.
  { split; [done|]. right. exists name, o2, (s_objs sp2). split_and!; try done. by left. }
  apply h_ens_bind, h_ens_create_or_409; [intros Hfresh|done|done].
  assert (s_objs sp !! (scope_name sc, segment, name) = None) as Hfresh'.
  { destruct Hst as [<-|(? & ? & _ & Es)]; [done|]. rewrite Es, lookup_insert_ne in Hfresh by set_solver. done. }
  assert (∀ sp', s_orgs sp' = s_orgs sp → outside ["acls"; groupMembersColl]
      (<[(scope_name sc, segment, name) := mustEncode (VObj o2)]> (s_objs sp2)) (s_objs sp') →
    create_effect salt segment (scope_name sc) sp sp') as Hend.
  { intros sp' Ho' Hout. split; [done|]. right. exists name, o2, (s_objs sp2). split_and!; try done. by right. }
  apply h_ens_bind, h_ens_or_500, ens_grantCreator; [|intros e; by apply Hend]. cbv zeta.
  set (sp3 := match r_actor r with Some a => _ | None => _ end).
  assert (s_orgs sp3 = s_orgs sp ∧ outside ["acls"; groupMembersColl]
    (<[(scope_name sc, segment, name) := mustEncode (VObj o2)]> (s_objs sp2)) (s_objs sp3)) as [Ho3 Hout3].
  { unfold sp3. destruct (r_actor r) as [a|]; [destruct enforceACL|]; (split; [done|]); [|apply outside_refl..].
    apply outside_insert; [set_solver|apply outside_refl]. }
  apply h_ens_bind. destruct (_ && _ && _); [|by apply h_ens_ret, h_ens_ret, Hend].
  apply h_ens_or_500, ens_Put; [|intros e; by apply Hend]. apply h_ens_ret, Hend; [done|].
  apply outside_insert; [set_solver|done].
Qed.

(** The stored record, as a handler reads it. *)
Definition record_of (objs : objects) (org segment name : string) : option obj :=
  match objs !! (org, segment, name) with Some raw => default None (unmarshal_map raw) | None => None end.

Lemma ens_storedRecord org segment name sp (Q : result (option obj) → space → Prop) :
  Q (Ok (record_of (s_objs sp) org segment name)) sp → (∀ e, Q (Err e) sp) →
  ensures (B := B) (storedRecord org segment name) sp Q.
Proof. intros HO HE. by apply ens_bind, ens_Get; [apply ens_ret|]. Qed.

Lemma record_of_document objs org segment name : document (members (record_of objs org segment name)).
Proof.
  unfold record_of. destruct (objs !! _) as [raw|]; [|apply document_nil].
  destruct (unmarshal_map raw) as [m|] eqn:E; [by apply unmarshal_document in E|apply document_nil].
Qed.

Lemma keysColl_segment segment name : keysColl segment name ≠ segment.
Proof.
  intros E. apply (f_equal String.length) in E. unfold keysColl in E. rewrite !length_app_string in E. cbn [String.length] in E. lia.
Qed.

Lemma ens_setStoredDefault org segment name pub sp (Q : result (option unit) → space → Prop) :
  (∀ res sp', s_orgs sp' = s_orgs sp → outside [keysColl segment name] (s_objs sp) (s_objs sp') → Q res sp') →
  ensures (B := B) (O := groupIndexCache) (setStoredDefaultPublicKey org segment name pub) sp Q.
Proof.
  intros HQ. assert (∀ res, Q res sp) as Hsame by (intros; by apply HQ).
  apply ens_bind, ens_Get; [|done]. destruct (s_objs sp !! _) as [raw|]; [|by apply ens_ret].
  destruct (unmarshal_map raw) as [[row|]|]; [|by apply ens_ret|intros s <-; apply Hsame].
  apply ens_bind, ens_Put; [|done]. apply ens_ret, HQ; [done|]. apply outside_insert; [set_solver|done].
Qed.

Lemma h_ens_update_key org segment name pub sp (Q : string + reply → space → Prop) : valid_utf8 pub = true →
  (∀ res sp', s_orgs sp' = s_orgs sp → outside [keysColl segment name] (s_objs sp) (s_objs sp') →
     match res with inl pub' => valid_utf8 pub' = true | inr _ => True end → Q res sp') →
  h_ensures (B := B) (update_key org segment name pub) sp Q.
Proof.
  intros Hp HQ. unfold update_key. case_decide.
  - apply h_ens_bind, h_ens_or_500, ens_setStoredDefault. intros [[u|]|e] sp' Ho Hout;
      [apply h_ens_ret|apply h_ens_reply|]; by apply HQ.
  - apply h_ens_or_500, ens_bind, ens_storedRecord; [|intros e; by apply HQ]. apply ens_ret, HQ; [done|done|].
    apply document_str, record_of_document.
Qed.

Definition superuser (r : request) : Prop := match r_actor r with Some a => IsGlobalAdmin a = true | None => True end.

(** The superuser flag of an update is the one stored, unless the superuser sets
    it; other members come from the body or the record. *)
Definition put_record (r : request) (segment : string) (old : option obj) (o : obj) : Prop :=
  document o ∧
  (assoc o "private_key" = None ∧ assoc o "chef_key" = None ∧
   (assoc o "create_key" = None ∨ assoc o "create_key" = assoc (members old) "create_key") ∧
   ∀ pw, assoc o "password" ≠ Some (VStr pw)) ∧
  (segment = "users" → ¬ superuser r → assoc o adminField = present (assoc (members old) adminField)) ∧
  ∀ k, is_Some (assoc o k) → k = "public_key" ∨ is_Some (assoc (members old) k) ∨
    ∃ m, decode_body_map (r_body r) = Some m ∧ is_Some (assoc (members m) k).

Definition put_effect (salt : result string) (r : request) (segment org name : string) (sp sp' : space) : Prop :=
  s_orgs sp' = s_orgs sp ∧ ∃ objs1, outside [keysColl segment name] (s_objs sp) objs1 ∧
  (s_objs sp' = objs1 ∨
   is_Some (seen r sp org segment name) ∧
   (segment ≠ "users" ∧ s_objs sp' = <[(org, segment, name) := "null"]> objs1 ∨
    ∃ o objs2, put_record r segment (record_of (s_objs sp) org segment name) o ∧ stashed salt org name objs1 objs2 ∧
      (s_objs sp' = objs2 ∨ s_objs sp' = <[(org, segment, name) := mustEncode (VObj o)]> objs2))).

Lemma ens_preservePrivilege r org segment name o sp (Q : result obj → space → Prop) : document o →
  (∀ o', document o' → (∀ k, k ≠ adminField → assoc o' k = assoc o k) →
     (segment = "users" → ¬ superuser r → assoc o' adminField = present (assoc (members (record_of (s_objs sp) org segment name)) adminField)) →
     (is_Some (assoc o' adminField) → is_Some (assoc o adminField) ∨ is_Some (assoc (members (record_of (s_objs sp) org segment name)) adminField)) →
     Q (Ok o') sp) → (∀ e, Q (Err e) sp) →
  ensures (B := B) (preservePrivilege r org segment name o) sp Q.
Proof.
  intros Ho HO HE. unfold preservePrivilege, superuser in *.
  destruct (decide (segment ≠ "users")) as [|_]; [apply ens_ret, HO; tauto|].
  destruct (r_actor r) as [a|]; [|apply ens_ret, HO; tauto]. destruct (IsGlobalAdmin a); [apply ens_ret, HO; tauto|].
  apply ens_bind, ens_bind, ens_storedRecord; [|done]. apply ens_ret, ens_ret.
  set (old := members (record_of (s_objs sp) org segment name)). pose proof (record_of_document (s_objs sp) org segment name) as Hold. fold old in Hold.
  destruct (present (assoc old adminField)) as [v|] eqn:Ep.
  - assert (assoc old adminField = Some v) as Ev by (destruct (assoc old adminField) as [[]|]; simplify_eq/=; done).
    apply HO; [apply document_set; [done|done|by eapply document_assoc]| | |].
    + intros k Hk. by rewrite member_Set, decide_False.
    + intros _ _. by rewrite member_Set, decide_True.
    + intros _. right. by exists v.
  - apply HO; [by apply document_del| | |].
    + intros k Hk. by rewrite assoc_del, decide_False.
    + intros _ _. by rewrite assoc_del, decide_True.
    + rewrite assoc_del, decide_True by done. by intros [].
Qed.

Lemma h_ens_user_update org segment name o sp (Q : obj + reply → space → Prop) : document o →
  (∀ rep, status rep ≠ 200%Z → Q (inr rep) sp) →
  (∀ o', document o' →
     (∀ k, k ≠ "email" → assoc o' k = match assoc o k with Some VNull => None | Some v => Some v
                                      | None => assoc (members (record_of (s_objs sp) org segment name)) k end) →
     (is_Some (assoc o' "email") → is_Some (assoc o "email") ∨ is_Some (assoc (members (record_of (s_objs sp) org segment name)) "email")) →
     Q (inl o') sp) →
  h_ensures (B := B) (user_update org segment name o) sp Q.
Proof.
  intros Ho HE HO. apply h_ens_bind, h_ens_or_500, ens_storedRecord; [|intros e; by apply HE].
  destruct (validateUser _ _ _) as [msg|]; [by apply h_ens_reply, HE|]. pose proof (lowerEmail_document o Ho) as Hl.
  apply h_ens_ret, HO; [by apply mergeUser_document; [apply record_of_document|]| |].
  - intros k Hk. rewrite assoc_mergeUser by apply Hl. by rewrite assoc_lowerEmail.
  - rewrite assoc_mergeUser by apply Hl. unfold lowerEmail. destruct (assoc o "email") as [[| | |s| |]|] eqn:Ee;
      rewrite ?member_Set, ?Ee; try rewrite decide_True by done; naive_solver.
Qed.

(** Where each member of the record of an update comes from. *)
Definition from_body (m old : obj) (o : obj) : Prop :=
  document o ∧ (assoc o "create_key" = None ∨ assoc o "create_key" = assoc old "create_key") ∧
  ∀ k, is_Some (assoc o k) → is_Some (assoc old k) ∨ is_Some (assoc m k).

Lemma h_ens_merged org segment name (m o1 : obj) sp (Q : obj + reply → space → Prop) : document o1 →
  (∀ k, is_Some (assoc o1 k) → is_Some (assoc m k)) → assoc o1 "create_key" = None → (∀ rep, Q (inr rep) sp) →
  (∀ o, from_body m (members (record_of (s_objs sp) org segment name)) o → Q (inl o) sp) →
  h_ensures (B := B) (if decide (segment = "users") then user_update org segment name o1 else h_ret o1) sp Q.
Proof.
  intros Ho1 Hk Hc HE HO.
  case_decide; [|apply h_ens_ret, HO; split_and!; [done|by left|auto]].
  apply h_ens_user_update; [done|auto|]. intros o' Ho' Ha He. apply HO. split_and!; [done| |].
  - right. rewrite Ha by done. by rewrite Hc.
  - intros k. destruct (decide (k = "email")) as [->|Hne]; [naive_solver|]. rewrite Ha by done. specialize (Hk k).
    destruct (assoc o1 k) as [v|]; [intros _; right; by apply Hk|auto].
Qed.

(** The record with the key of the update and without the requests it carried. *)
Lemma with_key_members (o : obj) pub : document o → valid_utf8 pub = true →
  let o' := if decide (pub ≠ "") then Set_ (del (del o "private_key") "chef_key") "public_key" (VStr pub) else del (del o "private_key") "chef_key" in
  document o' ∧ ∀ k, k ≠ "public_key" → assoc o' k = if decide (k ∈ ["private_key"; "chef_key"]) then None else assoc o k.
Proof.
  intros Ho Hp. assert (∀ k, assoc (del (del o "private_key") "chef_key") k = if decide (k ∈ ["private_key"; "chef_key"]) then None else assoc o k) as Hk.
  { intros k. rewrite !assoc_del. repeat case_decide; set_solver. }
  cbv zeta. destruct (decide (pub ≠ "")).
  - split; [apply document_set; [by do 2 apply document_del|done|by apply storable_str]|]. intros k Hne. by rewrite member_Set, decide_False.
  - split; [by do 2 apply document_del|]. intros k _. apply Hk.
Qed.

Lemma put_record_intro r segment old m (o o2 o3 o4 : obj) :
  decode_body_map (r_body r) = Some m → from_body (members m) (members old) o →
  (∀ k, k ≠ "public_key" → assoc o2 k = if decide (k ∈ ["private_key"; "chef_key"]) then None else assoc o k) →
  (∀ k, k ≠ adminField → assoc o3 k = assoc o2 k) →
  (segment = "users" → ¬ superuser r → assoc o3 adminField = present (assoc (members old) adminField)) →
  (is_Some (assoc o3 adminField) → is_Some (assoc o2 adminField) ∨ is_Some (assoc (members old) adminField)) →
  document o4 → (∀ k, k ≠ "password" → assoc o4 k = assoc o3 k) → (∀ k, is_Some (assoc o4 k) → is_Some (assoc o3 k)) → (∀ pw, assoc o4 "password" ≠ Some (VStr pw)) →
  put_record r segment old o4.
Proof.
  intros Hm (_ & Hck & Hfrom) H2' H3' Hadm Hadm' Hd H4' Hsub Hpw. unfold adminField in *.
  assert (∀ k, k ≠ "public_key" → is_Some (assoc o2 k) → is_Some (assoc (members old) k) ∨ is_Some (assoc (members m) k)) as Hf2.
  { intros k Hk. rewrite H2' by done. case_decide; [by intros []|]. apply Hfrom. }
  split_and!; [done| | | |done| |].
  - by rewrite H4', H3', H2', decide_True by (done || set_solver).
  - by rewrite H4', H3', H2', decide_True by (done || set_solver).
  - by rewrite H4', H3', H2', decide_False by (done || set_solver).
  - intros Hs Hn. rewrite H4' by done. by apply Hadm.
  - intros k Hk. destruct (decide (k = "public_key")) as [->|Hpk]; [by left|right].
    enough (is_Some (assoc (members old) k) ∨ is_Some (assoc (members m) k)) by naive_solver.
    apply Hsub in Hk. destruct (decide (k = "admin")) as [->|Hna].
    + destruct (Hadm' Hk) as [?|?]; [by apply Hf2|by left].
    + rewrite H3' in Hk by done. by apply Hf2.
Qed.

Lemma scopedPut_ensures salt pair header segment sc r name sp : pair_text pair →
  h_ensures (B := B) (scopedPut iter salt pair header segment sc r name) sp
    (λ _ sp', put_effect salt r segment (scope_name sc) name sp sp').
Proof.
  intros Hpair. assert (put_effect salt r segment (scope_name sc) name sp sp) as Hsame.
  { split; [done|]. exists (s_objs sp). split; [done|by left]. }
  apply h_ens_bind, (h_ens_scope_org (B := B) (O := groupIndexCache) sc sp); [|done].
  apply h_ens_bind, h_ens_exists; [intros Hseen|done].
  destruct (decode_body_map (r_body r)) as [m|] eqn:Em; [|by apply h_ens_reply]. pose proof (body_document _ _ Em) as Hm.
  cbv zeta. destruct (if decide _ then _ else _) as [msg|]; [by apply h_ens_reply|]. apply h_ens_bind.
  set (o1 := del (if decide _ then _ else _) "create_key").
  apply (h_ens_merged _ _ _ (members m)); [..|done|intros o Ho].
  { apply document_del. case_decide; [by apply document_del|done]. }
  { intros k. unfold o1. rewrite assoc_del. case_decide; [by intros []|]. destruct (decide _); [|done]. rewrite assoc_del. by case_decide; [intros []|]. }
  { unfold o1. by rewrite assoc_del, decide_True. }
  clear o1. pose proof (proj1 Ho) as Hdoc. set (old := record_of (s_objs sp) (scope_name sc) segment name) in *.
  apply h_ens_bind. eapply (h_ens_conseq _ _ _ (λ res sp', sp' = sp ∧ match res with inl made => valid_utf8 made.1 = true | inr _ => True end)).
  { destruct (_ && _); [destruct pair as [[pub priv]|]; [by apply h_ens_ret|by apply h_ens_reply]|].
    apply h_ens_ret. split; [done|]. by apply bodyPublicKey_text, document_del. }
  intros [made|rep] ? [-> Hmade]; [|done]. apply h_ens_bind, h_ens_update_key; [done|].
  intros [pub|rep] sp1 Ho1 Hout Hpub; [|split; [done|]; exists (s_objs sp1); split; [done|by left]].
  assert (record_of (s_objs sp1) (scope_name sc) segment name = old) as Hold.
  { unfold old, record_of. rewrite Hout; [done|]. cbn. pose proof (keysColl_segment segment name). set_solver. }
  assert (put_effect salt r segment (scope_name sc) name sp sp1) as Hs1 by (split; [done|]; exists (s_objs sp1); split; [done|by left]).
  case_decide as Hnull.
  { case_decide; [by apply h_ens_reply|]. apply h_ens_bind, h_ens_or_500, ens_Put; [|done]. apply h_ens_ret. split; [done|].
    exists (s_objs sp1). split; [done|]. right. split; [done|]. left. by destruct Hnull. }
  destruct (with_key_members o pub Hdoc Hpub) as [Ho2 Ha2]. set (o2 := if decide (pub ≠ "") then _ else _) in *.
  apply h_ens_bind, h_ens_or_500, ens_preservePrivilege; [done| |done]. intros o3 Ho3 Ha3 Hadm Hadm'. rewrite Hold in Hadm, Hadm'.
  apply h_ens_bind, h_ens_or_500, ens_StashPassword; [|done]. intros o4 sp2 Hst Horgs Hd4 Ha4 Hsub Hpw.
  assert (put_record r segment old o4) as Hrec.
  { by eapply put_record_intro; eauto. }
  assert (∀ sp', s_orgs sp' = s_orgs sp → (s_objs sp' = s_objs sp2 ∨ s_objs sp' = <[(scope_name sc, segment, name) := mustEncode (VObj o4)]> (s_objs sp2)) →
    put_effect salt r segment (scope_name sc) name sp sp') as Hend.
  { intros sp' Ho' Hc. split; [done|]. exists (s_objs sp1). split; [done|]. right. split; [done|]. right. exists o4, (s_objs sp2). auto. }
  apply h_ens_bind, h_ens_or_500, ens_Put; [|intros e; apply Hend; [congruence|by left]].
  destruct (decide (made.2 ≠ "")); apply h_ens_ret, Hend; cbn; (congruence || by right).
Qed.

End Effects.

(** ** Deleting an actor *)

Section Deleting.
Context {B : Type} `{BackendSpec B}.

(** A computation that changes no object outside some collections, whatever its
    result. *)
Definition touches (cs : list string) {A} (m : ST (Store B groupIndexCache) A) : Prop :=
  ∀ sp, ensures m sp (λ _ sp', s_orgs sp' = s_orgs sp ∧ outside cs (s_objs sp) (s_objs sp')).

Lemma touches_ret cs {A} (a : A) : touches cs (st_ret a).
Proof. intros sp. by apply ens_ret. Qed.
Lemma touches_fail cs {A} e : touches cs (st_fail (A := A) e).
Proof. by intros sp s <-. Qed.
Lemma outside_trans cs x y z : outside cs x y → outside cs y z → outside cs x z.
Proof. intros Hxy Hyz k Hk. rewrite Hyz by done. by apply Hxy. Qed.
Lemma touches_bind cs {A C} (m : ST (Store B groupIndexCache) A) (k : A → ST (Store B groupIndexCache) C) :
  touches cs m → (∀ a, touches cs (k a)) → touches cs (st_bind m k).
Proof.
  intros Hm Hk sp. apply ens_bind. eapply ens_conseq; [apply Hm|]. intros [a|e] sp1 [Ho Hout]; [|done].
  eapply ens_conseq; [apply Hk|]. intros res sp2 [Ho2 Hout2]. split; [congruence|by eapply outside_trans].
Qed.
Lemma touches_each cs {A} (f : A → ST (Store B groupIndexCache) unit) l : (∀ a, touches cs (f a)) → touches cs (st_each f l).
Proof. intros Hf. induction l as [|a l IH]; cbn [st_each]; [apply touches_ret|by apply touches_bind]. Qed.
Lemma touches_Get cs org coll key : touches cs (Org_Get org coll key).
Proof. intros sp. by apply ens_Get. Qed.
Lemma touches_Range cs org coll : touches cs (Org_Range org coll).
Proof. intros sp. by apply ens_Range. Qed.
Lemma touches_Keys cs org coll : touches cs (Org_Keys org coll).
Proof. intros sp. by apply ens_Keys. Qed.
Lemma touches_Put cs org coll key v : coll ∈ cs → touches cs (Org_Put org coll key v).
Proof. intros Hc sp. apply ens_Put; [|done]. split; [done|]. by apply outside_insert. Qed.
Lemma touches_Delete cs org coll key : coll ∈ cs → touches cs (Org_Delete org coll key).
Proof.
  intros Hc sp. apply ens_Delete; [|done]. split; [done|]. intros k Hk. cbn. rewrite lookup_delete_ne; [done|]. by intros <-.
Qed.
Ltac touch :=
  repeat (first [apply touches_ret|apply touches_fail|apply touches_Get|apply touches_Range|apply touches_Keys
    |apply touches_Put; done|apply touches_Delete; done|apply touches_bind|apply touches_each
    |match goal with |- ∀ _, _ => intro end|case_match]).

Lemma removeFromACLs_touches cs org kind name : "acls" ∈ cs → touches cs (removeFromACLs org kind name).
Proof. intros Hc. unfold removeFromACLs. touch. Qed.
Lemma removeActor_touches cs org kind name : "groups" ∈ cs → groupMembersColl ∈ cs → touches cs (removeActorFromAllGroups org kind name).
Proof. intros Hg Hr. unfold removeActorFromAllGroups, removeMemberRows, delete_rows, removeFromGroupDocs, removeFromGroupDoc. touch. Qed.
Lemma deleteACL_touches cs org typ name : "acls" ∈ cs → touches cs (deleteACL org typ name).
Proof. intros Hc. unfold deleteACL. touch. Qed.
Lemma deleteActorKeys_touches cs org segment name : keysColl segment name ∈ cs → touches cs (deleteActorKeys org segment name).
Proof. intros Hc. unfold deleteActorKeys. touch. Qed.

(** Memberships and invitations are only removed. *)
Definition shrinks (objs objs' : objects) : Prop :=
  ∀ k, k.1.2 ∈ [assocColl; assocReqColl] → objs' !! k = None ∨ objs' !! k = objs !! k.

Lemma shrinks_trans x y z : shrinks x y → shrinks y z → shrinks x z.
Proof. intros Hxy Hyz k Hk. destruct (Hyz k Hk) as [| ->]; [by left|by apply Hxy]. Qed.

Lemma shrinks_outside cs x y : assocColl ∉ cs → assocReqColl ∉ cs → outside cs x y → shrinks x y.
Proof. intros Ha Hr Ho k Hk. right. apply Ho. by apply list_elem_of_In in Hk as [<-|[<-|[]]]. Qed.

Lemma shrinks_delete x k : shrinks x (delete k x).
Proof. intros k' _. destruct (decide (k = k')) as [->|]; [left; by rewrite lookup_delete_eq|right; by rewrite lookup_delete_ne]. Qed.

Definition user_gone (user : string) (objs : objects) (org : string) : Prop :=
  objs !! (org, assocColl, user) = None ∧ objs !! (org, assocReqColl, inviteID user org) = None.

Lemma user_gone_shrinks user x y org : shrinks x y → user_gone user x org → user_gone user y org.
Proof.
  intros Hs [Ha Hr]. split; [destruct (Hs (org, assocColl, user)) as [|E]|destruct (Hs (org, assocReqColl, inviteID user org)) as [|E]];
    try done; try (cbn; set_solver); congruence.
Qed.

Definition touched : list string := ["acls"; "groups"; groupMembersColl; assocColl; assocReqColl].
Definition removing (sp sp' : space) : Prop :=
  s_orgs sp' = s_orgs sp ∧ outside touched (s_objs sp) (s_objs sp') ∧ shrinks (s_objs sp) (s_objs sp').

Lemma removing_trans x y z : removing x y → removing y z → removing x z.
Proof. intros (? & ? & ?) (? & ? & ?). split_and!; [congruence|by eapply outside_trans|by eapply shrinks_trans]. Qed.

Lemma removing_delete sp org coll key : coll ∈ [assocColl; assocReqColl] → removing sp (sp_delete org coll key sp).
Proof.
  intros Hc. split_and!; [done| |apply shrinks_delete]. intros k Hk. cbn. rewrite lookup_delete_ne; [done|].
  intros <-. cbn in Hk. unfold touched in Hk. set_solver.
Qed.

Lemma removing_touches sp sp' : s_orgs sp' = s_orgs sp → outside ["acls"; "groups"; groupMembersColl] (s_objs sp) (s_objs sp') → removing sp sp'.
Proof.
  intros Ho Hout. split_and!; [done| |by eapply shrinks_outside; [..|exact Hout]; set_solver].
  intros k Hk. apply Hout. unfold touched in Hk. set_solver.
Qed.

Lemma removeUserFromOrg_ensures user name sp :
  ensures (B := B) (removeUserFromOrg user name) sp
    (λ res sp', removing sp sp' ∧ (is_Ok res = true → name ∈ s_orgs sp → user_gone user (s_objs sp') name)).
Proof.
  assert (removing sp sp) as Hrefl by (by apply removing_touches).
  apply ens_bind, ens_Org; [|done]. case_decide as Ho; [|by apply ens_ret].
  apply ens_bind, ens_Delete; [|done]. set (sp1 := sp_delete name assocColl user sp).
  assert (removing sp sp1) as H1' by (apply removing_delete; set_solver).
  apply ens_bind, ens_Delete; [|done]. set (sp2 := sp_delete name assocReqColl (inviteID user name) sp1).
  assert (removing sp sp2) as H2' by (eapply removing_trans; [done|]; apply removing_delete; set_solver).
  assert (user_gone user (s_objs sp2) name) as Hgone.
  { split; cbn; [|by rewrite lookup_delete_eq]. rewrite lookup_delete_ne by done. by rewrite lookup_delete_eq. }
  eapply ens_conseq; [apply (touches_bind ["acls"; "groups"; groupMembersColl])|].
  - apply removeActor_touches; set_solver.
  - intros _. apply removeFromACLs_touches. set_solver.
  - intros res sp3 [Ho3 Hout3]. pose proof (removing_touches sp2 sp3 Ho3 Hout3) as H3'.
    split; [by eapply removing_trans|]. intros _ _. eapply user_gone_shrinks; [apply H3'|done].
Qed.

Lemma removeUserFromOrgs_ensures user sp :
  ensures (B := B) (removeUserFromOrgs user) sp
    (λ res sp', removing sp sp' ∧ (is_Ok res = true → ∀ org, org ∈ s_orgs sp → user_gone user (s_objs sp') org)).
Proof.
  apply ens_bind. eapply ens_conseq; [by apply (removeFromACLs_touches ["acls"; "groups"; groupMembersColl]); set_solver|].
  intros [[]|e] sp1 [Ho1 Hout1]; pose proof (removing_touches sp sp1 Ho1 Hout1) as H1'; [|done].
  apply ens_bind, ens_ListOrgs; [|done].
  apply ens_each with (inv := λ dn sp', removing sp sp' ∧ ∀ org, org ∈ dn → org ∈ s_orgs sp → user_gone user (s_objs sp') org).
  - split; [done|]. set_solver.
  - intros dn org rest sp2 _ [Hr Hg]. eapply ens_conseq; [apply removeUserFromOrg_ensures|].
    intros [[]|e] sp3 [Hr3 Hg3]; [|split; [by eapply removing_trans|done]]. split; [by eapply removing_trans|].
    intros org' [Hin| ->%list_elem_of_singleton]%elem_of_app Hs.
    + eapply user_gone_shrinks; [apply Hr3|by apply Hg].
    + apply Hg3; [done|]. by rewrite (proj1 Hr).
  - intros sp2 [Hr Hg]. split; [done|]. intros _ org Hs. apply Hg; [|done]. apply elem_of_orgs. by rewrite Ho1.
Qed.

Definition delete_effect (segment org name : string) (sp sp' : space) : Prop :=
  s_orgs sp' = s_orgs sp ∧ ∃ objs1, outside (keysColl segment name :: touched) (s_objs sp) objs1 ∧ shrinks (s_objs sp) objs1 ∧
  (s_objs sp' = objs1 ∨
   s_objs sp' = delete (org, segment, name) objs1 ∧ (segment = "users" → ∀ o, o ∈ s_orgs sp → user_gone name objs1 o)).

Lemma actor_cleanup_ensures org segment name sp : segment ∈ ["users"; "clients"] →
  ensures (B := B) (actor_cleanup org segment name) sp
    (λ res sp', s_orgs sp' = s_orgs sp ∧ outside (keysColl segment name :: touched) (s_objs sp) (s_objs sp') ∧ shrinks (s_objs sp) (s_objs sp') ∧
       (is_Ok res = true → segment = "users" → ∀ o, o ∈ s_orgs sp → user_gone name (s_objs sp') o)).
Proof.
  intros Hseg. assert (keysColl segment name ≠ assocColl ∧ keysColl segment name ≠ assocReqColl) as [Hk1 Hk2].
  { apply list_elem_of_In in Hseg as [<-|[<-|[]]]; by vm_compute. }
  assert (∀ cs objs objs', outside cs objs objs' → cs ⊆ keysColl segment name :: touched → outside (keysColl segment name :: touched) objs objs') as Hsub.
  { intros cs x y Ho Hc k Hk. apply Ho. intros Hin. by apply Hk, Hc. }
  apply ens_bind. eapply ens_conseq with (Q' := λ res sp', removing sp sp' ∧
    (is_Ok res = true → segment = "users" → ∀ o, o ∈ s_orgs sp → user_gone name (s_objs sp') o)).
  { destruct (decide (segment = "users")) as [->|Hu]; [eapply ens_conseq; [apply removeUserFromOrgs_ensures|naive_solver]|].
    destruct (decide (segment = "clients")) as [->|Hc]; [|set_solver].
    eapply ens_conseq; [apply (touches_bind ["acls"; "groups"; groupMembersColl])|].
    - apply removeFromACLs_touches. set_solver.
    - intros _. apply removeActor_touches; set_solver.
    - intros res sp' [Ho Hout]. split; [by apply removing_touches|done]. }
  intros [[]|e] sp1 [(Ho1 & Hout1 & Hs1) Hg1]; [|split_and!; [done|by eapply Hsub; [exact Hout1|intros x Hx; right]|done|done]].
  eapply ens_conseq; [apply (touches_bind ["acls"; keysColl segment name])|].
  - apply deleteACL_touches. set_solver.
  - intros _. apply deleteActorKeys_touches. set_solver.
  - intros res sp2 [Ho2 Hout2].
    assert (shrinks (s_objs sp1) (s_objs sp2)) as Hs2 by (eapply shrinks_outside; [..|exact Hout2]; unfold assocColl, AssociationUsersCollection, assocReqColl in *; set_solver).
    split_and!; [congruence| |by eapply shrinks_trans|].
    + eapply outside_trans; [eapply Hsub; [exact Hout1|intros x Hx; by right]|eapply Hsub; [exact Hout2|]].
      intros x [->|[->|[]%elem_of_nil]%elem_of_cons]%elem_of_cons; [right; left|left].
    + intros _ Hu o Ho. eapply user_gone_shrinks; [done|]. by apply Hg1.
Qed.

Context `{Unicode}.

Lemma scopedDelete_ensures header segment sc name sp : segment ∈ ["users"; "clients"] →
  h_ensures (B := B) (scopedDelete header segment sc name) sp
    (λ _ sp', delete_effect segment (scope_name sc) name sp sp').
Proof.
  intros Hseg. assert (delete_effect segment (scope_name sc) name sp sp) as Hsame.
  { split; [done|]. exists (s_objs sp). split_and!; [done|intros k _; by right|by left]. }
  apply h_ens_bind, (h_ens_scope_org (B := B) (O := groupIndexCache) sc sp); [|done].
  apply h_ens_bind, h_ens_or_500, ens_Get; [|done]. destruct (s_objs sp !! _); [|by apply h_ens_reply].
  apply h_ens_bind, h_ens_or_500. eapply ens_conseq; [by apply actor_cleanup_ensures|].
  intros [[]|e] sp1 (Ho & Hout & Hs & Hg); [|split; [done|]; exists (s_objs sp1); split_and!; [done..|by left]].
  apply h_ens_bind, h_ens_or_500, ens_Delete; [|intros _; split; [done|]; exists (s_objs sp1); split_and!; [done..|by left]].
  assert (delete_effect segment (scope_name sc) name sp (sp_delete (scope_name sc) segment name sp1)) as Hd.
  { split; [done|]. exists (s_objs sp1). split_and!; [done..|]. right. split; [done|by apply Hg]. }
  destruct (s_objs sp1 !! _); [by apply h_ens_ret|by apply h_ens_reply].
Qed.
End Deleting.

(** ** Sequences of calls *)

Definition segment_of (sc : scope) : string := match sc with InOrg _ => "clients" | Everywhere => "users" end.

Lemma segment_of_actors sc : segment_of sc ∈ ["users"; "clients"].
Proof. destruct sc; set_solver. Qed.

(** A call with what the libraries give it: the salt drawn and the key pair
    generated, should it need them. *)
Inductive actor_call :=
  | CreateCall (salt : result string) (kp : result (string * string)) (header : string) (sc : scope) (r : request)
  | UpdateCall (salt : result string) (kp : result (string * string)) (header : string) (sc : scope) (r : request) (name : string)
  | DeleteCall (header : string) (sc : scope) (name : string).

Definition run_actor_call `{Unicode} `{X509} `{PBKDF2} `{Backend B} (enforceACL : bool) (iter : Z) (c : actor_call)
    : handler (Store B groupIndexCache) reply :=
  match c with
  | CreateCall salt kp header sc r => createActor enforceACL iter salt kp header (segment_of sc) sc r
  | UpdateCall salt kp header sc r name => scopedPut iter salt kp header (segment_of sc) sc r name
  | DeleteCall header sc name => scopedDelete header (segment_of sc) sc name
  end.

Fixpoint run_actor_calls `{Unicode} `{X509} `{PBKDF2} `{Backend B} (enforceACL : bool) (iter : Z) (cs : list actor_call)
    (s : Store B groupIndexCache) : list reply * Store B groupIndexCache :=
  match cs with
  | [] => ([], s)
  | c :: cs' =>
      let '(rep, s1) := replied (run_actor_call enforceACL iter c s) in
      let '(reps, s2) := run_actor_calls enforceACL iter cs' s1 in (rep :: reps, s2)
  end.

(** The libraries keep to their contracts: a salt is not empty, a key is text. *)
Definition sound_call (c : actor_call) : Prop :=
  match c with
  | CreateCall salt kp _ _ _ | UpdateCall salt kp _ _ _ _ => (∃ x, salt = Ok x ∧ x ≠ "") ∧ pair_text kp
  | DeleteCall _ _ _ => True
  end.

Definition call_effect `{PBKDF2} (iter : Z) (c : actor_call) (sp sp' : space) : Prop :=
  match c with
  | CreateCall salt _ _ sc _ => create_effect iter salt (segment_of sc) (scope_name sc) sp sp'
  | UpdateCall salt _ _ sc r name => put_effect iter salt r (segment_of sc) (scope_name sc) name sp sp'
  | DeleteCall _ sc name => delete_effect (segment_of sc) (scope_name sc) name sp sp'
  end.

Lemma run_actor_call_effect `{UnicodeText} `{X509} `{PBKDF2} `{BackendSpec B} enforceACL iter c (s : Store B groupIndexCache) : sound_call c →
  let '(_, s') := replied (run_actor_call enforceACL iter c s) in call_effect iter c (view s.1) (view s'.1).
Proof.
  intros Hc. apply (replied_ensures _ (λ _, call_effect iter c)). destruct c as [salt kp header sc r|salt kp header sc r name|header sc name].
  - apply createActor_ensures; [apply Hc|]. destruct sc; set_solver.
  - apply scopedPut_ensures, Hc.
  - apply scopedDelete_ensures, segment_of_actors.
Qed.

(** Calls that are [good] in the space each of them meets. *)
Fixpoint good_run `{Unicode} `{X509} `{PBKDF2} `{BackendSpec B} (enforceACL : bool) (iter : Z) (good : actor_call → space → Prop)
    (cs : list actor_call) (s : Store B groupIndexCache) : Prop :=
  match cs with
  | [] => True
  | c :: cs' => good c (view s.1) ∧ good_run enforceACL iter good cs' (replied (run_actor_call enforceACL iter c s)).2
  end.

(** What every call preserves, a run preserves. *)
Lemma run_actor_calls_good `{UnicodeText} `{X509} `{PBKDF2} `{BackendSpec B} enforceACL iter (good : actor_call → space → Prop) (I : space → Prop)
    cs (s : Store B groupIndexCache) :
  (∀ c sp sp', good c sp → call_effect iter c sp sp' → I sp → I sp') → Forall sound_call cs → good_run enforceACL iter good cs s →
  I (view s.1) → I (view (run_actor_calls enforceACL iter cs s).2.1).
Proof.
  intros Hstep Hcs. revert s. induction Hcs as [|c cs Hs Hcs IH]; intros s Hg HI; [done|]. cbn [run_actor_calls]. destruct Hg as [Hg1 Hg].
  pose proof (run_actor_call_effect enforceACL iter c s Hs) as He. destruct (replied _) as [rep s1].
  specialize (IH s1 Hg (Hstep _ _ _ Hg1 He HI)). by destruct (run_actor_calls enforceACL iter cs s1).
Qed.

Lemma run_actor_calls_inv `{UnicodeText} `{X509} `{PBKDF2} `{BackendSpec B} enforceACL iter (good : actor_call → Prop) (I : space → Prop)
    cs (s : Store B groupIndexCache) :
  (∀ c sp sp', good c → call_effect iter c sp sp' → I sp → I sp') → Forall (λ c, sound_call c ∧ good c) cs →
  I (view s.1) → I (view (run_actor_calls enforceACL iter cs s).2.1).
Proof.
  intros Hstep [Hs Hg]%Forall_and. apply (run_actor_calls_good enforceACL iter (λ c _, good c)); [done..|].
  revert s. induction Hg as [|c cs Hg1 Hg IH]; intros s; [done|]. apply Forall_cons in Hs as [_ Hs]. split; [done|by apply IH].
Qed.

(** ** Secrets *)

Definition row_ok (k : string * string * string) (raw : string) : Prop :=
  (k.1.2 ∈ ["users"; "clients"] → ∀ m, unmarshal_map raw = Some m → secret_free (members m)) ∧
  (k.1.2 = PasswordsCollection → IsPasswordHash raw = true).
Definition no_secrets (objs : objects) : Prop := map_Forall row_ok objs.

Lemma no_secrets_outside cs x y : Forall (λ c, c ∉ ["users"; "clients"; PasswordsCollection]) cs → outside cs x y → no_secrets x → no_secrets y.
Proof.
  intros Hcs Ho Hx k raw Hk. destruct (decide (k.1.2 ∈ cs)) as [Hin|Hin]; [|apply Hx; by rewrite <-Ho].
  rewrite Forall_forall in Hcs. specialize (Hcs _ Hin). split; [set_solver|]. intros E. rewrite E in Hcs. set_solver.
Qed.

Lemma no_secrets_stashed `{PBKDF2Spec} iter salt x org name objs objs' : (1 ≤ iter ≤ maxPasswordIterations)%Z → salt = Ok x → x ≠ "" →
  stashed iter salt org name objs objs' → no_secrets objs → no_secrets objs'.
Proof.
  intros Hi -> Hx [->|(pw & h & Hh & ->)] Ho; [done|]. apply map_Forall_insert_2; [|done]. split; [by cbn; set_solver|].
  intros _. by eapply (hash_verifies _ _ _ _ "" Hi Hx).
Qed.

Lemma secret_free_stored o m : document o → secret_free o → unmarshal_map (mustEncode (VObj o)) = Some m → secret_free (members m).
Proof.
  intros Hd (H1 & H2 & H3 & H4) Hu. destruct (document_reads _ _ Hd Hu) as (ms & -> & _ & Ha). cbn [members default].
  unfold secret_free. rewrite !Ha, H1, H2, H3. split_and!; [done..|]. intros pw Hpw.
  destruct (assoc o "password") as [v|] eqn:E; [|done]. injection Hpw as Hpw. destruct v; try done. injection Hpw as ->. by eapply H4.
Qed.

Lemma no_secrets_record org segment name o objs : segment ≠ PasswordsCollection → document o → secret_free o → no_secrets objs →
  no_secrets (<[(org, segment, name) := mustEncode (VObj o)]> objs).
Proof.
  intros Hs Hd Hf Ho. apply map_Forall_insert_2; [|done]. split; [|done]. intros _ m. by apply secret_free_stored.
Qed.

Lemma no_secrets_record_of objs org segment name : segment ∈ ["users"; "clients"] → no_secrets objs →
  secret_free (members (record_of objs org segment name)).
Proof.
  intros Hs Ho. unfold record_of. assert (secret_free []) as Hnil by done. destruct (objs !! _) as [raw|] eqn:E; [|done].
  destruct (unmarshal_map raw) as [m|] eqn:Em; [|done]. by apply (Ho _ _ E).
Qed.

Lemma no_secrets_call `{PBKDF2Spec} iter c sp sp' : (1 ≤ iter ≤ maxPasswordIterations)%Z → sound_call c →
  call_effect iter c sp sp' → no_secrets (s_objs sp) → no_secrets (s_objs sp').
Proof.
  intros Hi Hc He Hs. destruct c as [salt kp header sc r|salt kp header sc r name|header sc name]; cbn in Hc, He.
  - destruct Hc as [(x & Hsalt & Hx) _]. destruct He as (_ & [->|(name & o & objs1 & (Hd & Hf & _) & _ & Hst & He)]); [done|].
    pose proof (no_secrets_stashed _ _ _ _ _ _ _ Hi Hsalt Hx Hst Hs) as H1. destruct He as [->|(_ & Hout)]; [done|].
    eapply no_secrets_outside, no_secrets_record; [|exact Hout|by destruct sc|done..]. repeat constructor; set_solver.
  - destruct Hc as [(x & Hsalt & Hx) _]. destruct He as (_ & objs1 & Hout & He).
    assert (no_secrets objs1) as H1.
    { eapply no_secrets_outside, Hs; [|exact Hout]. repeat constructor. destruct sc; intros Hin; repeat (apply elem_of_cons in Hin as [Hin|Hin]; [vm_compute in Hin; discriminate Hin|]); by apply elem_of_nil in Hin. }
    destruct He as [->|(_ & [[_ ->]|(o & objs2 & (Hd & (Hp1 & Hp2 & Hp3 & Hp4) & _) & Hst & He)])]; [done| |].
    + apply map_Forall_insert_2; [|done]. split; [by intros _ m [= <-]|by destruct sc].
    + pose proof (no_secrets_stashed _ _ _ _ _ _ _ Hi Hsalt Hx Hst H1) as H2. destruct He as [->| ->]; [done|].
      apply no_secrets_record; [by destruct sc|done| |done]. split_and!; [done..| |done].
      destruct Hp3 as [->| ->]; [done|]. apply (no_secrets_record_of (s_objs sp) _ _ name (segment_of_actors sc) Hs).
  - destruct He as (_ & objs1 & Hout & _ & He).
    assert (no_secrets objs1) as H1.
    { eapply no_secrets_outside, Hs; [|exact Hout]. constructor; [|repeat constructor; set_solver].
      destruct sc; intros Hin; repeat (apply elem_of_cons in Hin as [Hin|Hin]; [vm_compute in Hin; discriminate Hin|]); by apply elem_of_nil in Hin. }
    destruct He as [->|[-> _]]; [done|]. by apply map_Forall_delete.
Qed.

(** C21. No secret is ever stored. Through any creates, updates and deletes of users
    and clients, by anyone, and whatever fails on the way, no stored record holds
    a private key, a nested key, a request for one or a password, and every
    stored password is a salted hash. *)
Theorem secrets_never_stored `{UnicodeText} `{X509} `{PBKDF2Spec} `{BackendSpec B} (enforceACL : bool) (iter : Z) (cs : list actor_call)
    (s : Store B groupIndexCache) (Hiter : (1 ≤ iter ≤ maxPasswordIterations)%Z) (Hcs : Forall sound_call cs) (Hs : no_secrets (objs s)) :
  no_secrets (objs (run_actor_calls enforceACL iter cs s).2).
Proof.
  apply (run_actor_calls_inv enforceACL iter sound_call (λ sp, no_secrets (s_objs sp))); [|by eapply Forall_impl|done].
  intros c sp sp' Hc. by apply no_secrets_call.
Qed.

(** A collection of actors is none of the given ones. *)
Ltac other_coll Hk :=
  let Hin := fresh in let Hk' := fresh in
  intros Hin; pose proof Hk as Hk'; apply list_elem_of_In in Hk' as [Hk'|[Hk'|[]]]; rewrite <-Hk' in Hin;
  repeat (apply elem_of_cons in Hin as [Hin|Hin]; [vm_compute in Hin; discriminate Hin|]); by apply elem_of_nil in Hin.

(** ** Names *)

(** No client has the name of a user. *)
Definition principals_distinct (sp : space) : Prop :=
  ∀ org name, org ∈ s_orgs sp → is_Some (s_objs sp !! (org, "clients", name)) → s_objs sp !! (Global, "users", name) = None.

(** A record that was read for the request before it came to the handler is still
    there. *)
Definition fresh_call (c : actor_call) (sp : space) : Prop :=
  match c with
  | UpdateCall _ _ _ sc r name =>
      is_Some (prereadFrom r (scope_name sc) (segment_of sc) name) → is_Some (s_objs sp !! (scope_name sc, segment_of sc, name))
  | _ => True
  end.

Lemma distinct_mono sp sp' : s_orgs sp' = s_orgs sp →
  (∀ k, k.1.2 ∈ ["users"; "clients"] → is_Some (s_objs sp' !! k) → is_Some (s_objs sp !! k)) →
  principals_distinct sp → principals_distinct sp'.
Proof.
  intros Ho Hk Hd org name Hin Hc. rewrite Ho in Hin. apply (Hk (org, "clients", name)) in Hc; [|cbn; set_solver].
  apply eq_None_not_Some. intros Hu. apply (Hk (Global, "users", name)) in Hu; [|cbn; set_solver].
  rewrite (Hd org name Hin Hc) in Hu. by destruct Hu.
Qed.

Lemma stashed_actors `{PBKDF2} iter salt org name objs objs' : stashed iter salt org name objs objs' → outside [PasswordsCollection] objs objs'.
Proof. intros [->|(pw & h & _ & ->)]; [done|]. apply outside_insert; [set_solver|done]. Qed.

Lemma distinct_created `{PBKDF2} iter salt sc sp sp' : create_effect iter salt (segment_of sc) (scope_name sc) sp sp' →
  principals_distinct sp → principals_distinct sp'.
Proof.
  intros (Ho & [Hsame|(name & o & objs1 & _ & [Hfc Hfu] & Hst%stashed_actors & He)]) Hd.
  { eapply distinct_mono, Hd; [done|]. intros k _. by rewrite Hsame. }
  destruct He as [He|(_ & Hout)].
  { eapply distinct_mono, Hd; [done|]. intros k Hk. rewrite He, Hst; [done|]. other_coll Hk. }
  assert (∀ k, k.1.2 ∈ ["users"; "clients"] → k ≠ (scope_name sc, segment_of sc, name) → s_objs sp' !! k = s_objs sp !! k) as Hk.
  { intros k Hk Hne. rewrite Hout by other_coll Hk. rewrite lookup_insert_ne by done. apply Hst. other_coll Hk. }
  intros org n Hin Hc. rewrite Ho in Hin. destruct sc as [on|]; cbn [segment_of scope_name] in *.
  - rewrite Hk by (cbn; set_solver). destruct (decide ((org, n) = (on, name))) as [[= -> ->]|Hne]; [by apply Hfc|].
    apply (Hd org); [done|]. rewrite <-Hk; [done|cbn; set_solver|congruence].
  - rewrite Hk in Hc by (cbn; set_solver). destruct (decide (n = name)) as [->|Hne].
    + rewrite Hfu in Hc by done. by destruct Hc.
    + rewrite Hk; [by apply (Hd org)|cbn; set_solver|congruence].
Qed.

(** C11. A name stands for one principal. Through any creates, updates and deletes
    of users and clients, whatever fails on the way, no client of an
    organization comes to share the name of a user, so an ACL entry or a
    signature never means either of two. An update may come with the record the
    authorization check read beforehand, as it does where ACLs are enforced, as
    long as a record of that name is still stored when the update runs
    ([fresh_call]); an update overtaken by a delete brings the record back
    ([stale_update_revives]) and is left out. Salts drawn are not empty and keys
    generated are text ([sound_call]). *)
Theorem principals_stay_distinct `{UnicodeText} `{X509} `{PBKDF2} `{BackendSpec B} (enforceACL : bool) (iter : Z) (cs : list actor_call)
    (s : Store B groupIndexCache) (Hcs : Forall sound_call cs) (Hfresh : good_run enforceACL iter fresh_call cs s)
    (Hs : principals_distinct (view s.1)) :
  principals_distinct (view (run_actor_calls enforceACL iter cs s).2.1).
Proof.
  revert Hs. apply (run_actor_calls_good enforceACL iter fresh_call); [|done..]. clear.
  intros c sp sp' Hc He Hd. destruct c as [salt kp header sc r|salt kp header sc r name|header sc name]; cbn [fresh_call call_effect] in Hc, He.
  - by eapply distinct_created.
  - destruct He as (Ho & objs1 & Hout & He). eapply distinct_mono, Hd; [done|]. intros k Hk.
    assert (k.1.2 ∉ [keysColl (segment_of sc) name]) as Hkey.
    { destruct sc; other_coll Hk. }
    destruct He as [->|(Hseen & He)]; [by rewrite Hout|].
    assert (is_Some (s_objs sp !! (scope_name sc, segment_of sc, name))) as Hst'.
    { unfold seen in Hseen. destruct (prereadFrom _ _ _ _); [by apply Hc|done]. }
    destruct (decide (k = (scope_name sc, segment_of sc, name))) as [->|Hne]; [done|].
    destruct He as [[_ ->]|(o & objs2 & _ & Hst%stashed_actors & [->| ->])]; rewrite ?lookup_insert_ne by done; [by rewrite Hout|..];
      (rewrite Hst by other_coll Hk; by rewrite Hout).
  - destruct He as (Ho & objs1 & Hout & _ & He). eapply distinct_mono, Hd; [done|]. intros k Hk.
    assert (k.1.2 ∉ keysColl (segment_of sc) name :: touched) as Hkey.
    { destruct sc; other_coll Hk. }
    destruct He as [->|[-> _]]; [by rewrite Hout|]. intros Hsome. rewrite <-Hout by done.
    destruct (decide (k = (scope_name sc, segment_of sc, name))) as [->|Hne]; [rewrite lookup_delete_eq in Hsome; by destruct Hsome|].
    by rewrite lookup_delete_ne in Hsome by done.
Qed.

(** ** Privilege *)

(** No member but [admin] reads as it, whatever its case. *)
Definition plain (o : obj) : Prop := ∀ k, is_Some (assoc o k) → fold_name k = adminField → k = adminField.

(** The record makes its user a superuser: to the authentication layer, or as the
    handlers read it. *)
Definition flagged (raw : string) : Prop :=
  (∃ a, decode_actor raw = Some a ∧ ar_admin a = true) ∨
  (∃ m, unmarshal_map raw = Some m ∧ assoc (members m) adminField = Some (VBool true)).

(** An update by someone who is not the superuser, or a delete. *)
Definition self_service (c : actor_call) : Prop :=
  match c with
  | UpdateCall _ _ _ _ r _ => ¬ superuser r ∧ ∀ m, decode_body_map (r_body r) = Some m → plain (members m)
  | DeleteCall _ _ _ => True
  | CreateCall _ _ _ _ _ => False
  end.

Lemma admin_member (ms : obj) (acc : option actorRecord) a :
  foldl (λ acc m, match acc with Some s => actorRecord_field s m.1 m.2 | None => None end) acc ms = Some a → ar_admin a = true →
  (∃ a0, acc = Some a0 ∧ ar_admin a0 = true) ∨ ∃ k, (k, VBool true) ∈ ms ∧ fold_name k = adminField.
Proof.
  revert acc. induction ms as [|[k v] ms IH]; intros acc; cbn [foldl fst snd].
  - intros -> Ha. left. eauto.
  - intros Hf Ha. destruct (IH _ Hf Ha) as [(a0 & E & Ha0)|(k' & Hin & Hk')]; [|right; exists k'; split; [by right|done]].
    destruct acc as [a1|]; [|done]. unfold actorRecord_field in E. case_decide.
    { left. exists a1. split; [done|]. destruct (string_field _ _ _ _); [|done]. by injection E as <-. }
    case_decide as Hk; [|injection E as ->; eauto]. destruct v as [|b| | | |]; try done; [injection E as ->; eauto|].
    injection E as <-. cbn in Ha0. subst b. right. exists k. split; [by left|done].
Qed.

Lemma assoc_elem (o : obj) k v : NoDup (map fst o) → (k, v) ∈ o → assoc o k = Some v.
Proof.
  induction o as [|[n x] o IH]; [by intros _ ?%elem_of_nil|]. cbn [map fst assoc]. intros [Hn Hnd]%NoDup_cons [[= -> ->]|Hin]%elem_of_cons.
  - by rewrite decide_True.
  - rewrite decide_False; [by apply IH|]. intros E. apply Hn, list_elem_of_fmap. exists (k, v). by rewrite E.
Qed.

(** A record the server wrote makes a superuser only by the member itself. *)
Lemma flagged_stored o : document o → plain o → flagged (mustEncode (VObj o)) → assoc o adminField = Some (VBool true).
Proof.
  intros Hd Hp [(a & Ha & Hadm)|(m & Hm & Hadm)].
  - unfold decode_actor in Ha. rewrite document_decodes in Ha by done. cbn [mbind option_bind] in Ha. rewrite sorted_obj in Ha.
    destruct (admin_member _ _ _ Ha Hadm) as [(a0 & [= <-] & ?)|(k & Hin & Hk)]; [done|].
    rewrite merge_sort_Permutation in Hin. apply list_elem_of_fmap in Hin as ([k' v] & [= -> Hv] & Hin).
    apply (assoc_elem _ _ _ (proj1 Hd)) in Hin as Ha'. assert (k' = adminField) as -> by (apply Hp; [by rewrite Ha'|done]).
    rewrite Ha'. destruct v; simplify_eq/=; done.
  - destruct (document_reads _ _ Hd Hm) as (ms & -> & _ & Hms). cbn [members default] in Hadm. rewrite Hms in Hadm.
    destruct (assoc o adminField) as [v|]; [|done]. injection Hadm as Hv. destruct v; simplify_eq/=; done.
Qed.

(** Users flagged only if they were in the beginning. *)
Definition unpromoted (objs0 : objects) (sp : space) : Prop :=
  ∀ name raw, s_objs sp !! (Global, "users", name) = Some raw →
    (∀ m, unmarshal_map raw = Some m → plain (members m)) ∧
    (flagged raw → ∃ raw0, objs0 !! (Global, "users", name) = Some raw0 ∧ flagged raw0).

Lemma unpromoted_update `{PBKDF2} iter objs0 salt kp header sc r name sp sp' : self_service (UpdateCall salt kp header sc r name) →
  call_effect iter (UpdateCall salt kp header sc r name) sp sp' → unpromoted objs0 sp → unpromoted objs0 sp'.
Proof.
  intros [Hsu Hbody] (_ & objs1 & Hout & He) Hi n raw Hraw.
  assert (s_objs sp' !! (Global, "users", n) = s_objs sp !! (Global, "users", n) ∨
    ∃ o, put_record r "users" (record_of (s_objs sp) Global "users" n) o ∧ s_objs sp' !! (Global, "users", n) = Some (mustEncode (VObj o)))
    as [Hsame|(o & (Hd & _ & Hadm & Hfrom) & Ho)].
  { assert (objs1 !! (Global, "users", n) = s_objs sp !! (Global, "users", n)) as H1.
    { apply Hout. destruct sc; intros Hin%list_elem_of_singleton; vm_compute in Hin; discriminate Hin. }
    destruct He as [->|(_ & [[Hns ->]|(o & objs2 & Hrec & Hst%stashed_actors & He)])]; [by left| |].
    - left. rewrite lookup_insert_ne; [done|]. intros [= _ E _]. congruence.
    - assert (objs2 !! (Global, "users", n) = s_objs sp !! (Global, "users", n)) as H2 by (rewrite Hst by (cbn; set_solver); done).
      destruct He as [->| ->]; [by left|].
      destruct (decide ((Global, "users", n) = (scope_name sc, segment_of sc, name))) as [[= E1 E2 ->]|Hne]; [right|left; by rewrite lookup_insert_ne].
      exists o. rewrite E1, E2, lookup_insert_eq. split; [|done]. congruence. }
  { apply Hi. by rewrite <-Hsame. }
  rewrite Ho in Hraw. injection Hraw as <-. set (old := record_of (s_objs sp) Global "users" n) in *.
  assert (plain (members old)) as Hpo.
  { unfold old, record_of. destruct (s_objs sp !! _) as [raw0|] eqn:E; [|by intros k [? ?]].
    destruct (unmarshal_map raw0) as [m|] eqn:Em; [|by intros k [? ?]]. by apply (Hi _ _ E). }
  assert (plain o) as Hplain.
  { intros k Hk Hfold. destruct (Hfrom k Hk) as [->|[?|(m & Hm & ?)]]; [done|by apply Hpo|by eapply Hbody]. }
  split.
  - intros m Hm k Hk Hfold. destruct (document_reads _ _ Hd Hm) as (ms & -> & _ & Hms). cbn [members default] in Hk. rewrite Hms in Hk.
    apply Hplain; [|done]. destruct Hk as [v Hk]. by destruct (assoc o k).
  - intros Hfl. apply flagged_stored in Hfl; [|done..]. rewrite Hadm in Hfl by done. unfold old, record_of in Hfl.
    destruct (s_objs sp !! _) as [raw0|] eqn:E; [|done]. apply (Hi _ _ E). right.
    destruct (unmarshal_map raw0) as [m|]; [|done]. exists m. split; [done|]. change (default None (Some m)) with m in Hfl. destruct (assoc (members m) adminField) as [[]|]; simplify_eq/=; done.
Qed.

Lemma unpromoted_delete `{PBKDF2} iter objs0 header sc name sp sp' :
  call_effect iter (DeleteCall header sc name) sp sp' → unpromoted objs0 sp → unpromoted objs0 sp'.
Proof.
  intros (_ & objs1 & Hout & _ & He) Hi n raw Hraw. apply Hi. rewrite <-Hout; [by destruct He as [<-|[E _]]; [|rewrite E in Hraw; apply lookup_delete_Some in Hraw as [_ ?]]|].
  intros Hin. destruct sc; repeat (apply elem_of_cons in Hin as [Hin|Hin]; [vm_compute in Hin; discriminate Hin|]); by apply elem_of_nil in Hin.
Qed.

(** C10. Nobody makes himself a superuser by editing a record. Through any deletes
    of users and clients, and any updates by requests that are not the superuser's,
    a user whose record the authentication layer takes for a superuser's had the flag in the
    beginning. The bodies must spell the member in its own case: the Go decoder
    matches names up to case, the filter does not. *)
Theorem updates_grant_no_privilege `{UnicodeText} `{X509} `{PBKDF2} `{BackendSpec B} (enforceACL : bool) (iter : Z) (cs : list actor_call)
    (s : Store B groupIndexCache) (name raw : string) (a : actorRecord)
    (Hcs : Forall (λ c, sound_call c ∧ self_service c) cs)
    (Hs : ∀ n raw m, objs s !! (Global, "users", n) = Some raw → unmarshal_map raw = Some m → plain (members m))
    (Hraw : objs (run_actor_calls enforceACL iter cs s).2 !! (Global, "users", name) = Some raw)
    (Ha : decode_actor raw = Some a) (Hadm : ar_admin a = true) :
  ∃ raw0, objs s !! (Global, "users", name) = Some raw0 ∧ flagged raw0.
Proof.
  assert (unpromoted (objs s) (view (run_actor_calls enforceACL iter cs s).2.1)) as Hi.
  { eapply (run_actor_calls_inv enforceACL iter self_service (unpromoted (objs s))); [|done|].
    - intros c sp sp' Hc. destruct c; [done|by apply unpromoted_update|apply unpromoted_delete].
    - intros n r0 Hr. split; [|eauto]. intros m. by apply (Hs n). }
  apply (Hi _ _ Hraw). left. eauto.
Qed.

(** ** Samples *)

#[local] Instance ascii_unicode : Unicode := {| unicode_lower := id; unicode_trim := id |}.
#[local] Existing Instance toy_pbkdf2.
#[local] Existing Instance toy_pbkdf2_spec.
#[local] Existing Instance toy_x509.

#[local] Instance ascii_unicode_text : UnicodeText.
Proof.
  constructor. intros s Hs. unfold ToLower. destruct (is_ascii s) eqn:E; [|exact Hs].
  apply (ascii_text is_ascii_char); [intros c; apply bool_decide_eq_true|]. clear Hs. unfold is_ascii in E. revert E.
  induction s as [|c s IH]; [done|]. cbn [str_forall str_map]. intros [Hc Hs]%andb_prop. rewrite IH by done. rewrite andb_true_r.
  unfold lower_char, is_ascii_char in *. apply bool_decide_eq_true in Hc. apply bool_decide_eq_true. case_decide; [|done].
  rewrite byte_of_chr; lia.
Qed.

Definition user_body (members_ : obj) : string := mustEncode (VObj members_).
Definition as_user (name method body : string) : request := mkRequest method "" (Some (mkActor name false false false)) body "" None.
Definition bob : obj := [("name", VStr "bob"); ("display_name", VStr "Bob"); ("email", VStr "bob@x.io"); ("password", VStr "s3cret!")].
Definition toy_salt : result string := Ok "salt".

(** Bob, created by the superuser. *)
Definition create_bob : actor_call := CreateCall toy_salt (Ok ("PUB", "PRIV")) "" Everywhere (mkRequest "POST" "" None (user_body bob) "" None).
Definition update_bob (more : obj) : actor_call :=
  UpdateCall toy_salt (Ok ("PUB2", "PRIV2")) "" Everywhere
    (as_user "bob" "PUT" (user_body ([("display_name", VStr "Bob"); ("email", VStr "bob@x.io")] ++ more))) "bob".
Definition with_bob : Store Memory.memoryBackend groupIndexCache := (run_actor_calls true 2 [create_bob] mem_server).2.

(** The filter of an update looks for [admin] and the authentication layer for any
    spelling of it: a user becomes a superuser by a request of his own. *)
Example self_promotion :
  map status (run_actor_calls true 2 [update_bob [("Admin", VBool true)]] with_bob).1 = [200%Z] ∧
  (ar_admin <$> (objs with_bob !! (Global, "users", "bob") ≫= decode_actor)) = Some false ∧
  (ar_admin <$> (objs (run_actor_calls true 2 [update_bob [("Admin", VBool true)]] with_bob).2 !! (Global, "users", "bob") ≫= decode_actor)) = Some true.
Proof. vm_compute. done. Qed.

(** A create that is refused because the user exists replaces his password. *)
Example refused_create_sets_password :
  let '(reps, s) := run_actor_calls true 2 [CreateCall toy_salt (Ok ("PUB", "PRIV")) "" Everywhere
    (mkRequest "POST" "" None (user_body (Set_ bob "password" (VStr "another"))) "" None)] with_bob in
  map status reps = [409%Z] ∧
  (λ h, VerifyPassword h "another") <$> objs s !! (Global, PasswordsCollection, "bob") = Some true.
Proof. vm_compute. done. Qed.

(** A deleted user leaves his password to the next user of the name. *)
Example deleted_user_leaves_password :
  let '(reps, s) := run_actor_calls true 2 [DeleteCall "" Everywhere "bob";
    CreateCall toy_salt (Ok ("PUB", "PRIV")) "" Everywhere
      (mkRequest "POST" "" None (user_body [("name", VStr "bob"); ("display_name", VStr "Another Bob");
        ("external_authentication_uid", VStr "bob2")]) "" None)] with_bob in
  map status reps = [200; 201]%Z ∧
  (λ h, VerifyPassword h "s3cret!") <$> objs s !! (Global, PasswordsCollection, "bob") = Some true.
Proof. vm_compute. done. Qed.

(** An update of a user at API v0 with a nested key keeps the old key: the merge
    puts the stored one at the top level, which comes first. *)
Example nested_user_key_ignored :
  let '(reps, s) := run_actor_calls true 2 [update_bob [("chef_key", VObj [("public_key", VStr "-----BEGIN PUBLIC KEY NEW")])]] with_bob in
  map status reps = [200%Z] ∧ (λ raw, str (assoc (members (default None (unmarshal_map raw))) "public_key")) <$> objs s !! (Global, "users", "bob") = Some "PUB".
Proof. vm_compute. done. Qed.

(** ** Witnesses *)

Definition acme_server : Store Memory.memoryBackend groupIndexCache := (Store_CreateOrg "acme" mem_server).2.
Definition client_bob : actor_call :=
  CreateCall toy_salt (Ok ("PUB", "PRIV")) "" (InOrg "acme") (mkRequest "POST" "" None (user_body [("name", VStr "bob")]) "" None).

Lemma acme_empty : objs acme_server = ∅.
Proof. apply map_to_list_empty_iff. vm_compute. reflexivity. Qed.

Lemma secrets_never_stored_witness :
  map status (run_actor_calls true 2 [create_bob; update_bob [("password", VStr "longer one")]; client_bob] acme_server).1 = [201; 200; 409]%Z ∧
  no_secrets (objs (run_actor_calls true 2 [create_bob; update_bob [("password", VStr "longer one")]; client_bob] acme_server).2).
Proof.
  split; [vm_compute; reflexivity|]. apply secrets_never_stored; [unfold maxPasswordIterations; lia| |].
  - repeat constructor; try (by exists "salt"); by vm_compute.
  - rewrite acme_empty. apply map_Forall_empty.
Defined.

(** An update with the record the check read, as an enforcing server makes it. *)
Definition preread_update : actor_call :=
  UpdateCall toy_salt (Ok ("PUB2", "PRIV2")) "" Everywhere
    (withPreread (as_user "bob" "PUT" (user_body [("display_name", VStr "Bob"); ("email", VStr "bob@x.io")])) Global "users" "bob"
      (user_body bob)) "bob".

(** The same update after the user is gone, and a client has his name. *)
Example stale_update_revives :
  let '(reps, s) := run_actor_calls true 2 [create_bob; DeleteCall "" Everywhere "bob"; client_bob; preread_update] acme_server in
  map status reps = [201; 200; 201; 200]%Z ∧
  is_Some (objs s !! (Global, "users", "bob")) ∧ is_Some (objs s !! ("acme", "clients", "bob")).
Proof. vm_compute. split; [done|]. split; eexists; reflexivity. Qed.

Lemma principals_stay_distinct_witness :
  map status (run_actor_calls true 2 [create_bob; preread_update; client_bob] acme_server).1 = [201; 200; 409]%Z ∧
  principals_distinct (view (run_actor_calls true 2 [create_bob; preread_update; client_bob] acme_server).2.1).
Proof.
  split; [vm_compute; reflexivity|]. apply principals_stay_distinct.
  - repeat constructor; try (by exists "salt"); by vm_compute.
  - split; [done|]. split; [|by split]. intros _. apply (bool_decide_unpack _). vm_compute. exact I.
  - intros org name _ _. change (objs acme_server !! (Global, "users", name) = None). rewrite acme_empty. apply lookup_empty.
Defined.

(** A superuser, and bob who edits himself. *)
Definition root_record : string := user_body [("admin", VBool true); ("name", VStr "root")].
Definition root_server : Store Memory.memoryBackend groupIndexCache := (Org_Put Global "users" "root" root_record mem_server).2.

Lemma plain_names (o : obj) : Forall (λ e, fold_name e.1 = adminField → e.1 = adminField) o → plain o.
Proof.
  intros Ho k Hk. destruct (decide (k ∈ map fst o)) as [Hin|Hin]; [|rewrite assoc_None in Hk by done; by destruct Hk].
  apply list_elem_of_fmap in Hin as (e & -> & Hin). rewrite Forall_forall in Ho. by apply Ho.
Qed.

Lemma root_plain n raw m : objs root_server !! (Global, "users", n) = Some raw → unmarshal_map raw = Some m → plain (members m).
Proof.
  assert (map_to_list (objs root_server) = [((Global, "users", "root"), root_record)]) as E by (vm_compute; reflexivity).
  intros Hr%elem_of_map_to_list. rewrite E in Hr. apply list_elem_of_singleton in Hr as [= -> ->]. intros Hm.
  assert (unmarshal_map root_record = Some (Some [("admin", VBool true); ("name", VStr "root")])) as Em by (vm_compute; reflexivity).
  rewrite Em in Hm. injection Hm as <-. apply plain_names. by repeat constructor.
Qed.

Lemma updates_grant_no_privilege_witness :
  ∃ raw0, objs root_server !! (Global, "users", "root") = Some raw0 ∧ flagged raw0.
Proof.
  eapply (updates_grant_no_privilege true 2 [update_bob []] root_server "root" root_record (mkActorRecord "" true));
    [|exact root_plain|vm_compute; reflexivity..].
  apply Forall_singleton. split; [split; [by exists "salt"|reflexivity]|]. split; [by intros [=]|].
  intros m Hm. assert (decode_body_map (r_body (as_user "bob" "PUT" (user_body ([("display_name", VStr "Bob"); ("email", VStr "bob@x.io")] ++ [])))) =
    Some (Some [("display_name", VStr "Bob"); ("email", VStr "bob@x.io")])) as Em by (vm_compute; reflexivity).
  rewrite Em in Hm. injection Hm as <-. apply plain_names. by repeat constructor.
Defined.
