(* ===== verification/ActorDelete.v ===== *)
(** * What a deleted actor leaves behind (internal/api/actor.go, scopedDelete)

    Groups, ACLs, keys, memberships and invitations name an actor by its bare
    name, so a delete must take all of them before the record. *)
From S2P Require Import Prelude GoText Json Chefjson Float GoJson Stored Store Facade Groups Http Effects Acl AclDocs GroupApi Objects Manifest Auth Environments DataBags Records Passwords Users Keys Associations Actors.
#[local] Open Scope go_scope.
#[local] Open Scope http_scope.

(** ** An ACL without a name

    Whatever form the stored document has: it is decoded as authorization
    decodes it, the name is dropped and the rest is encoded again. *)

(** The permission does not list the name under [kind]. *)
Definition clear_of (kind name : string) (a : acl) (p : string) : Prop :=
  ∀ entry, assoc a p = Some (VObj entry) → name ∉ any_member entry kind.

Lemma storable_set (e : obj) k v : valid_utf8 k = true → storable v → depth v ≤ 2 → storable (VObj e) → storable (VObj (Set_ e k v)).
Proof.
  unfold storable. rewrite !printable_obj, !repeats_obj. intros Hk (Hp & Hr & _) Hd (Hep & [Hen Her] & Hed).
  split_and!; [by apply Set_Forall|by apply Set_NoDup|by apply Set_Forall|]. cbn [depth] in *.
  assert (max_list (map (λ m, depth m.2) (Set_ e k v)) ≤ pred (pred max_depth)) as Hm; [|unfold max_depth in *; lia].
  apply max_list_le, Forall_fmap. apply (Set_Forall (λ m, depth m.2 ≤ pred (pred max_depth))).
  - cbn. unfold max_depth. lia.
  - apply Forall_forall. intros x Hx. cbn. assert (depth x.2 ≤ max_list (map (λ m, depth m.2) e)) as Hle.
    { apply max_list_elem, list_elem_of_fmap. eauto. }
    unfold max_depth in *. lia.
Qed.

Lemma jsonStrings_valid v : encodable v → Forall (λ s, valid_utf8 s = true) (jsonStrings (Some v)).
Proof.
  destruct v as [| | | |l|]; try (intros; constructor). intros Hl. apply printable_arr in Hl. cbn.
  induction Hl as [|x l Hx Hl IH]; [constructor|]. cbn. destruct x; cbn; try done. by constructor.
Qed.

Lemma storable_strings l : Forall (λ s, valid_utf8 s = true) l → storable (VArr (map VStr l)) ∧ depth (VArr (map VStr l)) ≤ 2.
Proof.
  intros Hl. pose proof (depth_strings l) as Hd. split; [|lia]. split_and!.
  - apply printable_arr, Forall_fmap. exact Hl.
  - apply repeats_arr, Forall_fmap, Forall_forall. done.
  - unfold max_depth. lia.
Qed.

Lemma drop_one (kind name : string) (a : acl) (dirty : bool) (p : string) : valid_utf8 kind = true → document a →
  let '(a1, dirty1) := drop_from_perm kind name (a, dirty) p in
  document a1 ∧ clear_of kind name a1 p ∧ (∀ q, clear_of kind name a q → clear_of kind name a1 q) ∧
  (dirty1 = false → a1 = a ∧ dirty = false).
Proof.
  intros Hk Ha. unfold drop_from_perm. destruct (assoc a p) as [[| | | | |entry]|] eqn:E;
    try (split_and!; [done|intros e He; rewrite E in He; discriminate He|done|done]).
  destruct (without_others (jsonStrings (assoc entry kind)) name) as (H1 & H2 & _).
  destruct (without (jsonStrings (assoc entry kind)) name) as [kept removed]. cbn [fst snd] in H1, H2. subst kept.
  destruct removed.
  - assert (clear_of kind name (Set_ a p (VObj (Set_ entry kind (VArr (map VStr (others name (jsonStrings (assoc entry kind)))))))) p) as Hc.
    { intros e He. rewrite member_Set, decide_True in He by done. injection He as <-. unfold any_member.
      rewrite member_Set, decide_True, jsonStrings_VStr by done. unfold others. intros Hin%list_elem_of_filter. tauto. }
    split_and!; [|done| |done].
    + destruct (document_assoc _ _ _ Ha E) as [Hp Hs]. apply document_set; [done|done|].
      destruct (storable_strings (others name (jsonStrings (assoc entry kind)))) as [Hst Hde].
      { apply filter_Forall. destruct (assoc entry kind) as [v|] eqn:Ev; [|constructor]. apply jsonStrings_valid.
        assert (document entry) as Hent by (apply document_value; destruct Hs as (? & ? & ?); split_and!; [done|done|lia]).
        by destruct (document_assoc _ _ _ Hent Ev) as (_ & ? & _). }
      by apply storable_set.
    + intros q Hq. destruct (decide (q = p)) as [->|Hne]; [done|]. intros e He. rewrite member_Set, decide_False in He by done. by apply Hq.
  - split_and!; [done| |done|done]. intros e He. rewrite E in He. injection He as <-. unfold any_member. intros Hin%H2. done.
Qed.

Lemma drop_all (kind name : string) (ps : list string) : valid_utf8 kind = true → ∀ a dirty, document a →
  let '(a1, dirty1) := foldl (drop_from_perm kind name) (a, dirty) ps in
  document a1 ∧ (∀ p, p ∈ ps ∨ clear_of kind name a p → clear_of kind name a1 p) ∧ (dirty1 = false → a1 = a ∧ dirty = false).
Proof.
  intros Hk. induction ps as [|p ps IH]; intros a dirty Ha; [split_and!; [done| |done]; intros p [?%elem_of_nil|]; done|].
  cbn [foldl]. pose proof (drop_one kind name a dirty p Hk Ha) as H1. destruct (drop_from_perm kind name (a, dirty) p) as [a1 dirty1].
  destruct H1 as (Hd1 & Hp & Hq & Hf). specialize (IH a1 dirty1 Hd1). destruct (foldl _ (a1, dirty1) ps) as [a2 dirty2].
  destruct IH as (Hd2 & Hall & Hf2). split_and!; [done| |naive_solver].
  intros q [[->|Hin]%elem_of_cons|Hc]; apply Hall; auto.
Qed.

(** A value read back from its encoding. *)
Lemma read_back_obj e e' : NoDup (map fst e) → any_of (sorted (VObj e)) = VObj e' → ∀ k, assoc e' k = (λ v, any_of (sorted v)) <$> assoc e k.
Proof.
  intros Hn. rewrite sorted_obj, any_of_obj.
  assert (merge_sort by_name (map (λ m, (m.1, sorted m.2)) e) ≡ₚ map (λ m, (m.1, sorted m.2)) e) as Hp by apply merge_sort_Permutation.
  assert (NoDup (map fst (map (λ m, (m.1, sorted m.2)) e))) as Hn' by (by rewrite map_map).
  rewrite fold_Set_map by (by rewrite Hp). intros [= <-] k. rewrite assoc_map.
  rewrite (assoc_perm _ _ _ Hp) by (by rewrite Hp). rewrite (assoc_map sorted). by destruct (assoc e k).
Qed.

Lemma read_back_strings v : jsonStrings ((λ v, any_of (sorted v)) <$> v) = jsonStrings v.
Proof.
  destruct v as [[| | | |l|ms]|]; try done. cbn. induction l as [|x l IH]; [done|]. cbn.
  assert (elem_string (any_of (sorted x)) = elem_string x) as -> by (by destruct x). by rewrite IH.
Qed.

(** However the ACL was written, the name is not listed after the clean-up. *)
Lemma scrub_clear (kind name raw : string) (m : option acl) (p : string) : valid_utf8 kind = true →
  unmarshal_map (scrub kind name raw) = Some m → p ∈ aclPerms → clear_of kind name (members m) p.
Proof.
  intros Hk Hm Hp. unfold scrub, dropped_acl in Hm. destruct (unmarshal_map raw) as [m0|] eqn:E; [|cbn in Hm; congruence].
  pose proof (drop_all kind name aclPerms Hk (members m0) false (unmarshal_document _ _ E)) as Hd.
  destruct (foldl _ _ aclPerms) as [a dirty]. destruct Hd as (Hdoc & Hc & Hf). specialize (Hc p (or_introl Hp)).
  destruct dirty; unfold default in Hm.
  - unfold id in Hm. destruct (document_reads _ _ Hdoc Hm) as (ms & -> & _ & Ha). intros entry He. change (members (Some ms)) with ms in He.
    rewrite Ha in He. destruct (assoc a p) as [v|] eqn:Ev; [|discriminate He]. injection He as He.
    destruct v as [| | | | |e]; try discriminate He. unfold any_member.
    destruct (document_assoc _ _ _ Hdoc Ev) as [_ (_ & Hr & _)]. apply repeats_obj in Hr as [Hn _].
    rewrite (read_back_obj e entry Hn He), read_back_strings. exact (Hc e Ev).
  - rewrite E in Hm. injection Hm as <-. by destruct (Hf eq_refl) as [<- _].
Qed.

Section Rules.
Context {B : Type} `{BackendSpec B}.
Abbreviation st := (Store B groupIndexCache).

Lemma ens_triple {A} (m : ST st A) (sp : space) (post : A → objects → Prop) : triple (λ x, x = s_objs sp) m post →
  ensures m sp (λ r sp', match r with Ok a => post a (s_objs sp') | Err _ => True end).
Proof. intros Ht s <-. specialize (Ht s eq_refl). by destruct (m s) as [[]]. Qed.

Lemma coll_of_ext (org coll : string) (x y : objects) : (∀ k, x !! (org, coll, k) = y !! (org, coll, k)) → coll_of org coll x = coll_of org coll y.
Proof. intros Hk. apply map_eq. intros k. by rewrite !lookup_coll_of. Qed.

(** The groups of an organization, documents and rows. *)
Definition same_groups (org : string) (x y : objects) : Prop :=
  docs_of org x = docs_of org y ∧ rows_of org x = rows_of org y.

Lemma same_groups_ext (org : string) (x y : objects) : (∀ c k, c ∈ ["groups"; groupMembersColl] → x !! (org, c, k) = y !! (org, c, k)) → same_groups org x y.
Proof. intros Hk. split; apply coll_of_ext; intros k; apply Hk; set_solver. Qed.

(** No row declares the name, and in a group whose document, if it has one, is as
    the server writes them, nothing does, and everybody else is declared as before. *)
Definition revoked (org kind name : string) (x y : objects) : Prop :=
  (∀ key g, splitMemberKey key = Some (g, kind, name) → rows_of org y !! key = None) ∧
  ∀ k a g, k ∈ kinds → canonical_doc (docs_of org x) g →
    declared (docs_of org y) (rows_of org y) k a g ↔ declared (docs_of org x) (rows_of org x) k a g ∧ ¬ (k = kind ∧ a = name).

Lemma revoked_same (org kind name : string) (x x' y y' : objects) : same_groups org x x' → same_groups org y y' → revoked org kind name x y → revoked org kind name x' y'.
Proof. intros [E1 E2] [E3 E4] Hr. unfold revoked. by rewrite <-E1, <-E2, <-E3, <-E4. Qed.

Lemma ens_revoke (org kind name : string) (sp : space) : kind ∈ kinds → ¬ str_in NUL name →
  ensures (B := B) (O := groupIndexCache) (removeActorFromAllGroups org kind name) sp (λ r sp', match r with
    | Ok _ => revoked org kind name (s_objs sp) (s_objs sp') ∧
              ∀ o c k, (o, c) ∉ [(org, "groups"); (org, groupMembersColl)] → s_objs sp' !! (o, c, k) = s_objs sp !! (o, c, k)
    | Err _ => True
    end).
Proof.
  intros Hk Hn s <-. destruct (removeActorFromAllGroups org kind name s) as [[[]|e] s'] eqn:E; [|done]. split.
  - split; [exact (revoked_rows org kind name s s' Hk Hn E)|exact (revocation_spec org kind name s s' Hk Hn E)].
  - intros o c k Hc. unfold removeActorFromAllGroups, st_bind in E.
    pose proof (removeMemberRows_triple org kind name (objs s) s eq_refl) as H1.
    destruct (removeMemberRows org kind name s) as [[[]|] s1]; [|done].
    pose proof (removeFromGroupDocs_triple org kind name (objs s1) s1 eq_refl) as H2. rewrite E in H2.
    unfold objs in *. rewrite H2, decide_False by set_solver. by rewrite H1, decide_False by set_solver.
Qed.

(** No ACL the organization stores lists the actor, as authorization reads it. *)
Definition unlisted (org name : string) (objs : objects) : Prop :=
  ∀ key raw m p, objs !! (org, "acls", key) = Some raw → unmarshal_map raw = Some m → p ∈ aclPerms →
    clear_of "actors" name (members m) p.

Lemma unlisted_sub (org name : string) (x y : objects) :
  (∀ key raw, y !! (org, "acls", key) = Some raw → x !! (org, "acls", key) = Some raw) → unlisted org name x → unlisted org name y.
Proof. intros Hs Hu key raw m p Hr. exact (Hu key raw m p (Hs key raw Hr)). Qed.

Lemma ens_scrub (org name : string) (sp : space) :
  ensures (B := B) (O := groupIndexCache) (removeFromACLs org "actors" name) sp (λ r sp', s_orgs sp' = s_orgs sp ∧ match r with
    | Ok _ => unlisted org name (s_objs sp') ∧
              ∀ o c k, (o, c) ≠ (org, "acls") → s_objs sp' !! (o, c, k) = s_objs sp !! (o, c, k)
    | Err _ => True
    end).
Proof.
  eapply ens_conseq; [apply ens_and; [apply (removeFromACLs_touches ["acls"]); set_solver|apply ens_triple, removeFromACLs_triple]|].
  intros res sp' [[Ho _] Hx]. split; [done|]. destruct res as [[]|e]; [|done]. split.
  - intros key raw m p. rewrite Hx, decide_True by done. destruct (s_objs sp !! _) as [old|]; [|done]. intros [= <-].
    by apply scrub_clear.
  - intros o c k Hc. rewrite Hx, decide_False; [done|]. by intros [-> ->].
Qed.

(** The organization has forgotten the actor. *)
Definition forgets (kind name org : string) (x y : objects) : Prop :=
  unlisted org name y ∧ revoked org kind name x y.

(** Everything of the organization is as it was. *)
Definition same_org (org : string) (x y : objects) : Prop := ∀ c k, y !! (org, c, k) = x !! (org, c, k).

Lemma same_org_groups (org : string) (x y : objects) : same_org org x y → same_groups org x y.
Proof. intros Hs. by apply same_groups_ext. Qed.

Lemma ens_removeUserFromOrg (user name : string) (sp : space) : ¬ str_in NUL user → name ∈ s_orgs sp →
  ensures (B := B) (removeUserFromOrg user name) sp (λ r sp', match r with
    | Ok _ => forgets memberUsers user name (s_objs sp) (s_objs sp') ∧ ∀ o, o ≠ name → same_org o (s_objs sp) (s_objs sp')
    | Err _ => True
    end).
Proof.
  intros Hn Hin. apply ens_bind, ens_Org; [|done]. rewrite decide_True by done.
  apply ens_bind, ens_Delete; [|done]. apply ens_bind, ens_Delete; [|done].
  set (sp1 := sp_delete _ _ _ _).
  assert (∀ o c k, c ∈ ["acls"; "groups"; groupMembersColl] ∨ o ≠ name → s_objs sp1 !! (o, c, k) = s_objs sp !! (o, c, k)) as H1'.
  { intros o c k Hc. cbn. rewrite !lookup_delete_ne; [done|..]; intros [= <- <- <-];
      (destruct Hc as [Hc|]; [|done]); by apply list_elem_of_In in Hc as [E|[E|[E|[]]]]. }
  assert (same_groups name (s_objs sp) (s_objs sp1)) as Hg by (apply same_groups_ext; intros; symmetry; apply H1'; set_solver).
  apply ens_bind. eapply ens_conseq; [apply ens_revoke; [set_solver|done]|].
  intros [[]|e] sp2; [|done]. intros [Hr Hf].
  eapply ens_conseq; [apply ens_scrub|].
  intros [[]|e] sp3 [_ H3']; [|done]. destruct H3' as (Hu & Hf3). split; [split; [done|]|].
  - eapply revoked_same; [by split; symmetry; apply Hg| |exact Hr].
    apply same_groups_ext. intros c k Hc. rewrite Hf3; [done|]. by intros [= ->]; apply list_elem_of_In in Hc as [E|[E|[]]].
  - intros o Ho c k. rewrite Hf3 by congruence. rewrite Hf by set_solver. by apply H1'; right.
Qed.

Lemma ens_removeUserFromOrgs (user : string) (sp : space) : ¬ str_in NUL user →
  ensures (B := B) (removeUserFromOrgs user) sp (λ r sp', match r with
    | Ok _ => unlisted Global user (s_objs sp') ∧ ∀ o, o ∈ s_orgs sp → forgets memberUsers user o (s_objs sp) (s_objs sp')
    | Err _ => True
    end).
Proof.
  intros Hn. apply ens_bind. eapply ens_conseq; [apply ens_scrub|].
  intros [[]|e] sp1 [Ho1 H1']; [|done]. destruct H1' as (Hu & Hf1).
  assert (∀ o, same_groups o (s_objs sp) (s_objs sp1)) as Hg.
  { intros o. apply same_groups_ext. intros c k Hc. rewrite Hf1; [done|]. by intros [= _ ->]; apply list_elem_of_In in Hc as [E|[E|[]]]. }
  apply ens_bind, ens_ListOrgs; [|done]. set (orgs := sort_strings _).
  assert (NoDup orgs) as Hnd by (unfold orgs; rewrite sort_strings_perm; apply NoDup_elements).
  assert (∀ o, o ∈ orgs ↔ o ∈ s_orgs sp) as Hin by (intros o; unfold orgs; by rewrite elem_of_orgs, Ho1).
  apply ens_each with (inv := λ dn sp', s_orgs sp' = s_orgs sp ∧
    (∀ o, o ∈ dn → forgets memberUsers user o (s_objs sp1) (s_objs sp')) ∧ ∀ o, o ∉ dn → same_org o (s_objs sp1) (s_objs sp')).
  - split_and!; [done|set_solver|done].
  - intros dn org rest sp2 El (Ho2 & Hd2 & Hs2).
    assert (org ∉ dn) as Hnew by (rewrite El in Hnd; apply NoDup_app in Hnd; set_solver).
    eapply ens_conseq; [apply ens_and; [apply removeUserFromOrg_ensures|apply ens_removeUserFromOrg; [done|]]|].
    { rewrite Ho2, <-Hin, El. set_solver. }
    intros [[]|e] sp3 [[(Ho3 & _) _] H3']; [|done]. destruct H3' as [[Hun Hrv] Hs3]. split_and!; [congruence| |].
    + intros o Hin'. destruct (decide (o = org)) as [->|Hne].
      * split; [done|]. eapply revoked_same; [|by split|exact Hrv].
        destruct (same_org_groups _ _ _ (Hs2 org Hnew)) as [E1 E2]. by split.
      * assert (o ∈ dn) as Hdn by set_solver. destruct (Hd2 o Hdn) as [Hun' Hrv'].
        split; [eapply unlisted_sub; [|exact Hun']; intros key raw; by rewrite (Hs3 o Hne)|].
        eapply revoked_same; [by split|apply same_org_groups, Hs3, Hne|exact Hrv'].
    + intros o Hno c k. rewrite (Hs3 o) by set_solver. apply Hs2. set_solver.
  - intros sp2 (_ & Hd2 & Hs2). split.
    + destruct (decide (Global ∈ orgs)) as [Hg'|Hg']; [apply Hd2, Hg'|].
      eapply unlisted_sub; [|exact Hu]. intros key raw. by rewrite (Hs2 _ Hg').
    + intros o Ho%Hin. destruct (Hd2 o Ho) as [Hun Hrv]. split; [done|].
      eapply revoked_same; [|by split|exact Hrv]. destruct (Hg o) as [E1 E2]. by split.
Qed.
End Rules.

(** ** The delete *)

Section Delete.
Context `{Unicode} {B : Type} `{BackendSpec B}.

(** The cleanup that depends on the kind of actor. *)
Definition cleaned (sc : scope) (name : string) (orgs : gset string) (x y : objects) : Prop :=
  match sc with
  | InOrg org => forgets memberClients name org x y
  | Everywhere => unlisted Global name y ∧ ∀ org, org ∈ orgs → forgets memberUsers name org x y ∧ user_gone name y org
  end.

(** What the delete of an actor in a scope leaves. *)
Definition gone (sc : scope) (name : string) (orgs : gset string) (x y : objects) : Prop :=
  y !! (scope_name sc, segment_of sc, name) = None ∧
  y !! (scope_name sc, "acls", aclKey (segment_of sc) name) = None ∧
  (∀ key, y !! (scope_name sc, keysColl (segment_of sc) name, key) = None) ∧
  cleaned sc name orgs x y.

Lemma cleaned_frame (sc : scope) (name : string) (orgs : gset string) (x y z : objects) :
  (∀ k, k.1.2 ∈ ["groups"; groupMembersColl; assocColl; assocReqColl] → z !! k = y !! k) →
  (∀ org key raw, z !! (org, "acls", key) = Some raw → y !! (org, "acls", key) = Some raw) →
  cleaned sc name orgs x y → cleaned sc name orgs x z.
Proof.
  intros Hs Ha. assert (∀ kind org, forgets kind name org x y → forgets kind name org x z) as Hf.
  { intros kind org [Hu Hr]. split; [by eapply unlisted_sub; [apply Ha|]|].
    eapply revoked_same; [by split| |exact Hr]. apply same_groups_ext. intros c k Hc. symmetry. apply Hs. cbn. set_solver. }
  destruct sc as [org|]; [apply Hf|]. intros [Hu Ho]. split; [by eapply unlisted_sub; [apply Ha|]|].
  intros org Hin. destruct (Ho org Hin) as [Hfo [H1' H2']]. split; [by apply Hf|]. split; rewrite Hs; cbn; (done || set_solver).
Qed.

Lemma ens_cleanup_first (sc : scope) (name : string) (sp : space) : ¬ str_in NUL name →
  ensures (B := B)
    (if decide (segment_of sc = "users") then removeUserFromOrgs name
     else if decide (segment_of sc = "clients") then removeFromACLs (scope_name sc) "actors" name ;;! removeActorFromAllGroups (scope_name sc) memberClients name
     else st_ret tt) sp
    (λ r sp', match r with Ok _ => cleaned sc name (s_orgs sp) (s_objs sp) (s_objs sp') | Err _ => True end).
Proof.
  intros Hn. destruct sc as [org|]; cbn [segment_of scope_name]; cycle 1.
  - rewrite decide_True by done. eapply ens_conseq; [apply ens_and; [by apply ens_removeUserFromOrgs|apply removeUserFromOrgs_ensures]|].
    intros [[]|e] sp' [Hf [_ Hg]]; [|done]. destruct Hf as [Hu Hf]. split; [done|]. intros org Ho. split; [by apply Hf|by apply Hg].
  - rewrite decide_False, decide_True by done. apply ens_bind. eapply ens_conseq; [apply ens_scrub|].
    intros [[]|e] sp1 [_ H1']; [|done]. destruct H1' as (Hu & Hf).
    assert (same_groups org (s_objs sp) (s_objs sp1)) as Hg.
    { apply same_groups_ext. intros c k Hc. rewrite Hf; [done|]. by intros [= ->]; apply list_elem_of_In in Hc as [E|[E|[]]]. }
    eapply ens_conseq; [apply ens_revoke; [set_solver|done]|].
    intros [[]|e] sp2; [|done]. intros [Hr Hf2]. split.
    + eapply unlisted_sub; [|exact Hu]. intros key raw. by rewrite Hf2 by set_solver.
    + eapply revoked_same; [|by split|exact Hr]. by split; symmetry; apply Hg.
Qed.

(** Every key of an actor goes with it. *)
Lemma ens_deleteActorKeys (org segment name : string) (sp : space) :
  ensures (B := B) (O := groupIndexCache) (deleteActorKeys org segment name) sp (λ r sp', match r with
    | Ok _ => (∀ key, s_objs sp' !! (org, keysColl segment name, key) = None) ∧ outside [keysColl segment name] (s_objs sp) (s_objs sp')
    | Err _ => True
    end).
Proof.
  set (coll := keysColl segment name). apply ens_bind, ens_Keys; [|done]. set (names := sort_strings _).
  assert (∀ key, is_Some (s_objs sp !! (org, coll, key)) → key ∈ names) as Hin.
  { intros key [v Hv]. unfold names. rewrite sort_strings_perm. apply list_elem_of_fmap. exists (key, v).
    split; [done|]. by rewrite elem_of_map_to_list, lookup_coll_of. }
  apply ens_each with (inv := λ dn sp', (∀ key, key ∈ dn → s_objs sp' !! (org, coll, key) = None) ∧
    (∀ key, s_objs sp !! (org, coll, key) = None → s_objs sp' !! (org, coll, key) = None) ∧ outside [coll] (s_objs sp) (s_objs sp')).
  - split_and!; [set_solver|done|done].
  - intros dn kn rest sp1 _ (Hd & Hk & Ho). apply ens_bind, ens_Delete; [|done]. apply ens_ret. split_and!.
    + intros key Hkey. cbn. destruct (decide (key = kn)) as [->|Hne]; [apply lookup_delete_eq|].
      rewrite lookup_delete_ne by congruence. apply Hd. set_solver.
    + intros key Hkey. cbn. apply lookup_delete_None. right. by apply Hk.
    + intros k Hkey. cbn. rewrite lookup_delete_ne; [by apply Ho|]. intros <-. set_solver.
  - intros sp1 (Hd & Hk & Ho). split; [|done]. intros key. destruct (s_objs sp !! (org, coll, key)) eqn:E; [|by apply Hk].
    apply Hd, Hin. eauto.
Qed.

Lemma keysColl_apart (sc : scope) (name : string) :
  keysColl (segment_of sc) name ∉ ["acls"; "groups"; groupMembersColl; assocColl; assocReqColl; segment_of sc].
Proof. intros Hin. destruct sc; by apply list_elem_of_In in Hin as [E|[E|[E|[E|[E|[E|[]]]]]]]. Qed.

Lemma ens_actor_cleanup (sc : scope) (name : string) (sp : space) : ¬ str_in NUL name →
  ensures (B := B) (actor_cleanup (scope_name sc) (segment_of sc) name) sp (λ r sp', match r with
    | Ok _ => s_objs sp' !! (scope_name sc, "acls", aclKey (segment_of sc) name) = None ∧
              (∀ key, s_objs sp' !! (scope_name sc, keysColl (segment_of sc) name, key) = None) ∧
              cleaned sc name (s_orgs sp) (s_objs sp) (s_objs sp')
    | Err _ => True
    end).
Proof.
  intros Hn. pose proof (keysColl_apart sc name) as Hap.
  apply ens_bind. eapply ens_conseq; [by apply ens_cleanup_first|]. intros [[]|e] sp1; [|done]. intros Hcl.
  apply ens_bind, ens_deleteACL; [|done]. set (sp2 := sp_delete _ _ _ _).
  eapply ens_conseq; [apply ens_deleteActorKeys|]. intros [[]|e] sp3; [|done]. intros [Hk Hout]. split_and!; [|done|].
  - rewrite Hout by (cbn; set_solver). apply lookup_delete_eq.
  - eapply cleaned_frame; [..|exact Hcl].
    + intros [[o c] k] Hc. cbn in Hc. rewrite Hout by (cbn; set_solver). cbn. apply lookup_delete_ne. intros [= <- <- <-].
      by apply list_elem_of_In in Hc as [E|[E|[E|[E|[]]]]].
    + intros o key raw. rewrite Hout by (cbn; set_solver). cbn. by intros [_ ?]%lookup_delete_Some.
Qed.

Lemma h_ens_scopedDelete (header : string) (sc : scope) (name : string) (sp : space) : ¬ str_in NUL name →
  h_ensures (B := B) (scopedDelete header (segment_of sc) sc name) sp (λ r sp', match r with
    | inl rep => status rep = 200%Z ∧ gone sc name (s_orgs sp) (s_objs sp) (s_objs sp')
    | inr rep => status rep ≠ 200%Z
    end).
Proof.
  intros Hn. pose proof (keysColl_apart sc name) as Hap.
  apply h_ens_bind, (h_ens_scope_org (B := B) (O := groupIndexCache) sc sp).
  2:{ intros rep Hs E. rewrite E in Hs. by apply list_elem_of_In in Hs as [|[|[]]]. }
  apply h_ens_bind, h_ens_or_500, ens_Get; [|done]. destruct (s_objs sp !! _); [|by apply h_ens_reply].
  apply h_ens_bind, h_ens_or_500. eapply ens_conseq; [by apply ens_actor_cleanup|]. intros [[]|e] sp1; [|done]. intros (Ha & Hk & Hcl).
  apply h_ens_bind, h_ens_or_500, ens_Delete; [|done]. destruct (s_objs sp1 !! (scope_name sc, segment_of sc, name)); [|by apply h_ens_reply].
  apply h_ens_ret. split; [done|].
  assert (∀ k, k.1.2 ≠ segment_of sc → s_objs (sp_delete (scope_name sc) (segment_of sc) name sp1) !! k = s_objs sp1 !! k) as Hsame.
  { intros k Hne. apply lookup_delete_ne. by intros <-. }
  assert (segment_of sc ∉ ["acls"; "groups"; groupMembersColl; assocColl; assocReqColl]) as Hsc.
  { intros Hin. destruct sc; by apply list_elem_of_In in Hin as [E|[E|[E|[E|[E|[]]]]]]. }
  split_and!.
  - apply lookup_delete_eq.
  - rewrite Hsame; [done|]. intros E. apply Hsc. rewrite <-E. by left.
  - intros key. rewrite Hsame; [done|]. intros E. apply Hap. cbn in E. rewrite E. do 5 right. left.
  - eapply cleaned_frame; [..|exact Hcl].
    + intros k Hc. apply Hsame. intros E. apply Hsc. rewrite <-E. by right.
    + intros o key raw. rewrite Hsame; [done|]. intros E. apply Hsc. rewrite <-E. by left.
Qed.
End Delete.

(** C12. Deleting an actor revokes what it was given. When the delete of a user or
    of a client answers 200, the record, its own ACL and every one of its keys are
    gone. No ACL a client's organization stores lists it among the actors of any
    permission, as authorization reads the document, whoever wrote it. No row makes
    it a member of a group, and in every group whose document, if it has one, is as
    the server writes them nothing declares it a member while every other
    membership is as it was; a document in another form may still name it
    ([handwritten_docs_diverge]). For a user the same holds of every organization,
    no ACL of the global scope lists it, and no organization keeps a membership or
    an invitation of it. The stored password of a user stays
    ([deleted_user_leaves_password]). The name holds no NUL byte. *)
Theorem deleted_actor_revoked `{Unicode} `{BackendSpec B} (header : string) (sc : scope) (name : string)
  (s s' : Store B groupIndexCache) (rep : reply) :
  ¬ str_in NUL name →
  scopedDelete header (segment_of sc) sc name s = (inl rep, s') →
  status rep = 200%Z ∧ gone sc name (s_orgs (view s.1)) (objs s) (objs s').
Proof.
  intros Hn E. pose proof (h_ens_scopedDelete (B := B) header sc name (view s.1) Hn s eq_refl) as Hs. by rewrite E in Hs.
Qed.

(** ** Witness *)

#[local] Existing Instance ascii_unicode.

(** Bob is a member of acme, invited nowhere, in its groups by document and by
    row, and named by an ACL. *)
Definition bob_acl : string := mustEncode (VObj (acl_doc (λ p, (["alice"; "bob"], ["admins"])))).
Definition bob_org : Store Memory.memoryBackend groupIndexCache :=
  run (Org_Put "acme" "acls" "nodes/web" bob_acl)
    (run (addMember "acme" "ops" memberUsers "bob")
      (run (Org_Put "acme" "groups" "admins" (groupJSON "admins" "" ["alice"; "bob"] [] []))
        (run (Org_Put "acme" assocColl "bob" "{}")
          (run (Org_Put Global "users" "bob" root_record)
            (run (Store_CreateOrg "acme") mem_server))))).

Lemma deleted_actor_revoked_witness :
  match scopedDelete "" "users" Everywhere "bob" bob_org with
  | (inl _, s') => gone Everywhere "bob" {["acme"]} (objs bob_org) (objs s')
  | _ => False
  end.
Proof.
  assert (ended (scopedDelete "" "users" Everywhere "bob" bob_org) = true) as Hd by (vm_compute; reflexivity).
  destruct (scopedDelete "" "users" Everywhere "bob" bob_org) as [[rep|rep] s'] eqn:E; [|discriminate Hd].
  refine (proj2 (deleted_actor_revoked "" Everywhere "bob" bob_org s' rep _ E)).
  apply (bool_decide_unpack _). vm_compute. exact I.
Defined.
