(* ===== verification/Policies.v ===== *)
(** * Policies (internal/api/policies.go, policy_validate.go)

    Revisions of a policy are documents of the collection of its name; a policy
    group names, for each policy it deploys, the revision. The two facts the
    groups rest on: what a group deploys can be fetched, and what is fetched is
    the revision that was deployed. *)
From S2P Require Import Prelude GoText Json Chefjson Float GoJson Normalize Stored Store Facade Http Effects Acl AclDocs GroupApi Objects Version Environments DataBags Records Users Associations.
#[local] Open Scope go_scope.
#[local] Open Scope http_scope.

(** ** Validation of a revision *)

Definition name_char (c : ascii) : bool := alnum c || bool_decide (c ∈ ["."; "_"; "-"]%char).

(** [^[.A-Za-z0-9_:-]{1,255}$] *)
Definition policyNameRE (s : string) : bool :=
  bool_decide (1 ≤ String.length s ≤ 255) && str_forall (λ c, name_char c || bool_decide (c = ":"%char)) s.
(** [^[.A-Za-z0-9_-]+$] *)
Definition policyLockCookbookRE (s : string) : bool := bool_decide (s ≠ "") && str_forall name_char s.

Fixpoint word (s : string) : re :=
  match s with
  | EmptyString => Eps
  | String c s' => Cat (Cls (λ r, bool_decide (r = byte_of c))) (word s')
  end.
Definition name_rune : re := Cls (λ r, bool_decide (0 ≤ r < 128)%Z && name_char (chr r)).
Definition policyRunListItemRE (s : string) : bool :=
  re_match (Cat (word "recipe[") (Cat (plus name_rune) (Cat (word "::") (Cat (plus name_rune) (word "]"))))) s.

Definition str_ok (ok : string → bool) (v : value) : bool := match v with VStr s => ok s | _ => false end.

(** The message for a field that is missing or is no name, if it is so. *)
Definition name_field_error (doc : obj) (field : string) : option string :=
  match assoc doc field with
  | None => Some ("Field '" +:+ field +:+ "' missing")
  | Some v => if str_ok policyNameRE v then None else Some ("Field '" +:+ field +:+ "' invalid")
  end.

Definition validateCookbookLock (lock : obj) : option string :=
  match name_field_error lock "identifier" with
  | Some msg => Some msg
  | None =>
      if negb (match assoc lock "dotted_decimal_identifier" with Some v => str_ok validCookbookConstraint v | None => true end)
      then Some "Field 'dotted_decimal_identifier' is not a valid version"
      else match assoc lock "version" with
           | None => Some "Field 'version' missing"
           | Some v => if str_ok validCookbookConstraint v then None else Some "Field 'version' is not a valid version"
           end
  end.

(** The locks, by name. *)
Fixpoint locks_error (locks : obj) (names : list string) : option string :=
  match names with
  | [] => None
  | cookbook :: names' =>
      if negb (policyLockCookbookRE cookbook) then Some ("Invalid key '" +:+ cookbook +:+ "' for cookbook_locks")
      else match assoc locks cookbook with
           | Some (VObj lock) => match validateCookbookLock lock with Some msg => Some msg | None => locks_error locks names' end
           | _ => Some "Field 'cookbook_locks' invalid"
           end
  end.

Definition run_list_error (doc : obj) : option string :=
  match assoc doc "run_list" with
  | None => Some "Field 'run_list' missing"
  | Some (VArr items) => if forallb (str_ok policyRunListItemRE) items then None else Some "Field 'run_list' is not a valid run list"
  | Some _ => Some "Field 'run_list' is not a valid run list"
  end.

Definition cookbook_locks_error (doc : obj) : option string :=
  match assoc doc "cookbook_locks" with
  | None => Some "Field 'cookbook_locks' missing"
  | Some (VObj locks) => locks_error locks (sort_strings (map fst locks))
  | Some _ => Some "Field 'cookbook_locks' invalid"
  end.

Fixpoint first_error (checks : list (option string)) : option string :=
  match checks with [] => None | Some msg :: _ => Some msg | None :: checks' => first_error checks' end.

Definition member_str (doc : obj) (field : string) : string := match assoc doc field with Some (VStr s) => s | _ => "" end.

Definition validatePolicyRevision (urlName : string) (doc : obj) : option string :=
  first_error [name_field_error doc "revision_id"; name_field_error doc "name"; run_list_error doc; cookbook_locks_error doc;
    if decide (member_str doc "name" ≠ urlName)
    then Some ("Field 'name' invalid : " +:+ urlName +:+ " does not match " +:+ member_str doc "name") else None].

(** The stored form of a body and its revision id, or the message to answer. *)
Definition decodeRevision (body policy : string) : (string * string) + string :=
  match decodeObjectBody body with
  | Err _ => inr "invalid JSON body"
  | Ok raw =>
      match DecodeObject raw with
      | Err _ => inr "invalid JSON body"
      | Ok doc => match validatePolicyRevision policy doc with
                  | Some msg => inr msg
                  | None => inl (raw, member_str doc "revision_id")
                  end
      end
  end.

(** ** Policy groups *)

Definition policyGroupsColl : string := "policy_groups".

(** The revision of each policy a group deploys. *)
Abbreviation deployments := (gmap string string).

(** A map is decoded into the one that is there, each of its values into a fresh
    struct; null empties it. *)
Definition policies_member (acc : option deployments) (m : string * value) : option deployments :=
  match acc with
  | None => None
  | Some g => (λ rev, <[m.1 := rev]> g) <$> decode_struct (λ old name v, string_field "revision_id" old name v) "" m.2
  end.
Definition policyGroup_field (g : deployments) (name : string) (v : value) : option deployments :=
  if decide (fold_name name = "policies") then
    match v with
    | VNull => Some ∅
    | VObj ms => foldl policies_member (Some g) ms
    | _ => None
    end
  else Some g.
Definition decode_group (raw : string) : option deployments :=
  match decode false raw with
  | Some v => decode_struct policyGroup_field ∅ v
  | None => None
  end.

Definition groupPolicy (rev : string) : value := VObj [("revision_id", VStr rev)].
Definition group_policies (g : deployments) : value := VObj (map (λ d, (d.1, groupPolicy d.2)) (map_to_list g)).
Definition encode_group (g : deployments) : string := mustEncode (VObj [("policies", group_policies g)]).

Definition policyURL (r : request) (org name : string) : string := r_base r +:+ "/organizations/" +:+ org +:+ "/policies/" +:+ name.
Definition revisions_of (revs : list string) : value := VObj (map (λ rev, (rev, VObj [])) revs).

Section Handlers.
Context {B : Type} `{Backend B} {O : Type}.
Abbreviation st := (Store B O).

(** [None]: there is no such group, or its document does not decode. *)
Definition loadGroup (org name : string) : ST st (option deployments) :=
  let! raw := Org_Get org policyGroupsColl name in
  st_ret (match raw with Some raw => decode_group raw | None => None end).
Definition saveGroup (org name : string) (g : deployments) : ST st unit := Org_Put org policyGroupsColl name (encode_group g).

Definition policyNames (org : string) : ST st (list string) :=
  let! colls := Org_Collections org in st_ret (omap (cut_prefix "policy_revisions:") colls).

Fixpoint list_policies (r : request) (org : string) (names : list string) : ST st obj :=
  match names with
  | [] => st_ret []
  | name :: names' =>
      let! revs := Org_Keys org (policyRevColl name) in
      let! rest := list_policies r org names' in
      st_ret ((name, VObj [("uri", VStr (policyURL r org name)); ("revisions", revisions_of revs)]) :: rest)
  end.
Definition listPolicies (r : request) (orgname : string) : handler st reply :=
  let? org := API_org orgname in
  let? names := or_500 (policyNames org) in
  let? out := or_500 (list_policies r org names) in
  h_ret (writeJSON 200 (VObj out)).

Definition no_policy (name : string) : reply := writeError 404 ["Cannot find policy " +:+ name].
Definition no_revision : reply := writeError 404 ["Cannot find policy revision"].
Definition no_group (name : string) : reply := writeError 404 ["Cannot find policy group " +:+ name].
Definition not_in_group (policy : string) : reply := writeError 404 ["Policy " +:+ policy +:+ " not in group"].

Definition getPolicy (orgname name : string) : handler st reply :=
  let? org := API_org orgname in
  let? revIDs := or_500 (Org_Keys org (policyRevColl name)) in
  if decide (revIDs = []) then h_reply (no_policy name)
  else h_ret (writeJSON 200 (VObj [("revisions", revisions_of revIDs)])).

(** One group of [removePolicyFromGroups]. *)
Definition removePolicyFromGroup (org policy rev group : string) : ST st unit :=
  let! g := loadGroup org group in
  match g with
  | None => st_ret tt
  | Some g =>
      match g !! policy with
      | None => st_ret tt
      | Some p => if decide (rev ≠ "" ∧ p ≠ rev) then st_ret tt else saveGroup org group (delete policy g)
      end
  end.
Definition removePolicyFromGroups (org policy rev : string) : ST st unit :=
  let! names := Org_Keys org policyGroupsColl in
  st_each (removePolicyFromGroup org policy rev) names.

Definition deletePolicy (orgname name : string) : handler st reply :=
  let? org := API_org orgname in
  let coll := policyRevColl name in
  let? revIDs := or_500 (Org_Keys org coll) in
  if decide (revIDs = []) then h_reply (no_policy name)
  else
    or_500 (st_each (λ rev, Org_Delete org coll rev ;;! st_ret tt) revIDs) ;;?
    or_500 (removePolicyFromGroups org name "") ;;?
    or_500 (deleteACL org "policies" name) ;;?
    h_ret (writeJSON 200 (VObj [("revisions", revisions_of revIDs)])).

Definition getPolicyRevision (orgname name rev : string) : handler st reply :=
  let? org := API_org orgname in
  let? raw := or_500 (Org_Get org (policyRevColl name) rev) in
  match raw with None => h_reply no_revision | Some raw => h_ret (writeRaw 200 raw) end.

Definition createPolicyRevision (r : request) (orgname name : string) : handler st reply :=
  let? org := API_org orgname in
  match decodeRevision (r_body r) name with
  | inr msg => h_reply (writeError 400 [msg])
  | inl (raw, revID) =>
      create_or_409 org (policyRevColl name) revID raw "Policy revision already exists" ;;?
      h_ret (writeRaw 201 raw)
  end.

Definition deletePolicyRevision (orgname name rev : string) : handler st reply :=
  let? org := API_org orgname in
  let? raw := or_500 (Org_Delete org (policyRevColl name) rev) in
  match raw with
  | None => h_reply no_revision
  | Some raw => or_500 (removePolicyFromGroups org name rev) ;;? h_ret (writeRaw 200 raw)
  end.

(** A group that does not decode is listed with null. *)
Fixpoint list_groups (r : request) (org : string) (names : list string) : ST st obj :=
  match names with
  | [] => st_ret []
  | name :: names' =>
      let! g := loadGroup org name in
      let! rest := list_groups r org names' in
      st_ret ((name, VObj [("uri", VStr (r_base r +:+ "/organizations/" +:+ org +:+ "/policy_groups/" +:+ name));
                           ("policies", match g with Some g => group_policies g | None => VNull end)]) :: rest)
  end.
Definition listPolicyGroups (r : request) (orgname : string) : handler st reply :=
  let? org := API_org orgname in
  let? names := or_500 (Org_Keys org policyGroupsColl) in
  let? out := or_500 (list_groups r org names) in
  h_ret (writeJSON 200 (VObj out)).

Definition getPolicyGroup (orgname group : string) : handler st reply :=
  let? org := API_org orgname in
  let? raw := or_500 (Org_Get org policyGroupsColl group) in
  match raw with None => h_reply (no_group group) | Some raw => h_ret (writeRaw 200 raw) end.

Definition deletePolicyGroup (orgname group : string) : handler st reply :=
  let? org := API_org orgname in
  let? raw := or_500 (Org_Delete org policyGroupsColl group) in
  match raw with
  | None => h_reply (no_group group)
  | Some raw => or_500 (deleteACL org policyGroupsColl group) ;;? h_ret (writeRaw 200 raw)
  end.

Definition getGroupPolicy (orgname group policy : string) : handler st reply :=
  let? org := API_org orgname in
  let? g := or_500 (loadGroup org group) in
  match g with
  | None => h_reply (no_group group)
  | Some g =>
      match g !! policy with
      | None => h_reply (not_in_group policy)
      | Some rev =>
          let? raw := or_500 (Org_Get org (policyRevColl policy) rev) in
          match raw with None => h_reply no_revision | Some raw => h_ret (writeRaw 200 raw) end
      end
  end.

Definition putGroupPolicy (r : request) (orgname group policy : string) : handler st reply :=
  let? org := API_org orgname in
  match decodeRevision (r_body r) policy with
  | inr msg => h_reply (writeError 400 [msg])
  | inl (raw, revID) =>
      or_500 (Org_Put org (policyRevColl policy) revID raw) ;;?
      let? g := or_500 (loadGroup org group) in
      or_500 (saveGroup org group (<[policy := revID]> (default ∅ g))) ;;?
      h_ret (writeRaw 200 raw)
  end.

Definition deleteGroupPolicy (orgname group policy : string) : handler st reply :=
  let? org := API_org orgname in
  let? g := or_500 (loadGroup org group) in
  match g with
  | None => h_reply (no_group group)
  | Some g =>
      match g !! policy with
      | None => h_reply (not_in_group policy)
      | Some rev =>
          let? raw := or_500 (Org_Get org (policyRevColl policy) rev) in
          or_500 (saveGroup org group (delete policy g)) ;;?
          h_ret (writeRaw 200 (default "" raw))
      end
  end.
End Handlers.

(** ** Documents of groups *)

Definition group_text (g : deployments) : Prop := map_Forall (λ p rev, valid_utf8 p = true ∧ valid_utf8 rev = true) g.

(** A fold of decoding steps, by an invariant of its accumulator. *)
Lemma decoding_ind {S : Type} (f : option S → string * value → option S) (P : S → Prop) (ms : obj) (s s' : S) :
  (∀ m, f None m = None) → P s → foldl f (Some s) ms = Some s' →
  (∀ s m s1, P s → m ∈ ms → f (Some s) m = Some s1 → P s1) → P s'.
Proof.
  intros Hf. revert s. induction ms as [|m ms IH]; intros s Hs He Hstep; [by injection He as <-|]. cbn [foldl] in He.
  destruct (f (Some s) m) as [s1|] eqn:E.
  - eapply IH; [|exact He|]; [eapply Hstep; [exact Hs|left|exact E]|]. intros s2 m' s3 ? ?. apply Hstep; [done|by right].
  - exfalso. clear -Hf He. induction ms as [|m' ms IH]; [done|]. cbn [foldl] in He. rewrite Hf in He. by apply IH.
Qed.

Lemma faithful_members (ms : obj) : faithful (canon (VObj ms)) → ∀ m, m ∈ ms → valid_utf8 m.1 = true ∧ faithful (canon m.2).
Proof.
  intros Hf m Hin. cbn [canon] in Hf. apply printable_obj, (Forall_fmap (λ m, (m.1, canon m.2))) in Hf. rewrite Forall_forall in Hf.
  exact (Hf m Hin).
Qed.

Lemma revision_text (v : value) (rev : string) : faithful (canon v) →
  decode_struct (λ old name v, string_field "revision_id" old name v) "" v = Some rev → valid_utf8 rev = true.
Proof.
  intros Hf. destruct v as [| | | | |ms]; try done; [by intros [= <-]|]. intros Hd.
  eapply (decoding_ind _ (λ s, valid_utf8 s = true) ms EmptyString); [| |exact Hd|]; [done..|].
  intros s m s1 Hs Hin. destruct (faithful_members ms Hf m Hin) as [_ Hm]. unfold string_field. case_decide; [|by intros [= <-]].
  destruct m as [k x]. cbn [snd] in *. destruct x; intros [= <-]; done.
Qed.

Lemma decode_group_text (raw : string) (g : deployments) : decode_group raw = Some g → group_text g.
Proof.
  unfold decode_group. destruct (decode false raw) as [v|] eqn:E; [|done]. apply decode_faithful in E as [Hf _].
  destruct v as [| | | | |ms]; try done; [intros [= <-]; apply map_Forall_empty|]. intros Hd.
  eapply (decoding_ind _ group_text ms ∅); [|apply map_Forall_empty|exact Hd|]; [done|].
  intros g0 m g1 Hg Hin. destruct (faithful_members ms Hf m Hin) as [_ Hm]. unfold policyGroup_field. case_decide; [|by intros [= <-]].
  destruct m as [k x]. cbn [snd] in *. destruct x as [| | | | |ps]; try done; [intros [= <-]; apply map_Forall_empty|]. intros Hp.
  eapply (decoding_ind policies_member group_text ps g0); [|done|exact Hp|]; [done|].
  intros g2 d g3 Hg2 Hd2. destruct (faithful_members ps Hm d Hd2) as [Hk Hv]. unfold policies_member.
  intros (rev & Er & ->)%fmap_Some.
  apply map_Forall_insert_2; [|done]. split; [done|]. by eapply revision_text.
Qed.

Lemma policies_fold (l : list (string * string)) (g : deployments) : NoDup l.*1 →
  foldl policies_member (Some g) (map (λ d, (d.1, groupPolicy d.2)) l) = Some (list_to_map l ∪ g).
Proof.
  revert g. induction l as [|[p rev] l IH]; intros g Hnd; cbn [map foldl]; [by rewrite list_to_map_nil, (left_id_L ∅ (∪))|].
  rewrite fmap_cons in Hnd. cbn [fst] in Hnd. rewrite list_to_map_cons. change (policies_member (Some g) ?m) with (Some (<[p := rev]> g)).
  apply NoDup_cons in Hnd as [Hp Hnd]. rewrite (IH (<[p := rev]> g)) by done. f_equal.
  rewrite <-insert_union_l, insert_union_r; [done|]. by apply not_elem_of_list_to_map_1.
Qed.

Lemma sorted_groupPolicy (rev : string) : sorted (groupPolicy rev) = groupPolicy rev.
Proof. reflexivity. Qed.

Lemma decode_encode_group (g : deployments) : group_text g → decode_group (encode_group g) = Some g.
Proof.
  intros Hg. unfold decode_group, encode_group. rewrite decode_mustEncode; cycle 1.
  - apply printable_obj, Forall_singleton. split; [done|]. apply printable_obj, Forall_fmap, Forall_forall. intros [p rev] Hd.
    apply elem_of_map_to_list in Hd. destruct (Hg _ _ Hd) as [Hp Hr]. split; [done|]. apply printable_obj, Forall_singleton. done.
  - transitivity 3; [|vm_compute; lia].
    assert (depth (group_policies g) ≤ 2) as Hd.
    { unfold group_policies. generalize (map_to_list g). intros l. cbn [depth]. rewrite map_map. apply le_n_S.
      induction l as [|d l IH]; [cbn; lia|]. cbn [map foldr snd depth max_list] in *. apply Nat.max_lub; [cbn; lia|done]. }
    revert Hd. cbn. generalize (depth (group_policies g)). lia.
  - unfold group_policies. rewrite sorted_obj. cbn [map fst snd merge_sort]. rewrite sorted_obj, map_map.
    set (l := merge_sort _ (map _ (map_to_list g))). change (foldl policies_member (Some ∅) l = Some g).
    assert (∃ l', l = map (λ d, (d.1, groupPolicy d.2)) l' ∧ l' ≡ₚ map_to_list g) as (l' & -> & Hl).
    { assert (l ≡ₚ map (λ d, (d.1, groupPolicy d.2)) (map_to_list g)) as Hp.
      { unfold l. rewrite merge_sort_Permutation. by rewrite (map_ext _ (λ d, (d.1, groupPolicy d.2))). }
      apply Permutation_map_inv in Hp as (l' & -> & Hl). exists l'. split; [done|]. by symmetry. }
    assert (NoDup l'.*1) as Hnd by (rewrite Hl; apply NoDup_fst_map_to_list).
    rewrite policies_fold by done. rewrite (right_id_L ∅ (∪)). f_equal.
    rewrite (list_to_map_proper l' (map_to_list g)) by done. apply list_to_map_to_list.
Qed.

(** ** Deployments *)

(** The group deploys the revision of the policy. *)
Definition deployed (objs : objects) (org group policy rev : string) : Prop :=
  ∃ raw g, objs !! (org, policyGroupsColl, group) = Some raw ∧ decode_group raw = Some g ∧ g !! policy = Some rev.

(** Whatever a group deploys is stored. *)
Definition resolves (objs : objects) : Prop :=
  ∀ org group policy rev, deployed objs org group policy rev → is_Some (objs !! (org, policyRevColl policy, rev)).

Lemma deployed_same (x y : objects) (org group policy rev : string) :
  y !! (org, policyGroupsColl, group) = x !! (org, policyGroupsColl, group) → deployed y org group policy rev → deployed x org group policy rev.
Proof. intros E (raw & g & Hr & Hg). rewrite E in Hr. by exists raw, g. Qed.

Lemma deployed_put (x : objects) (org name group policy rev : string) (g : deployments) : group_text g →
  deployed (<[(org, policyGroupsColl, name) := encode_group g]> x) org group policy rev →
  if decide (group = name) then g !! policy = Some rev else deployed x org group policy rev.
Proof.
  intros Hg (raw & g' & Hr & Hd & Hp). case_decide as Hn.
  - subst. rewrite lookup_insert_eq in Hr. injection Hr as <-. rewrite decode_encode_group in Hd by done. by injection Hd as <-.
  - rewrite lookup_insert_ne in Hr by congruence. by exists raw, g'.
Qed.

Section Deployments.
Context {B : Type} `{BackendSpec B} {O : Type}.

(** The groups afterwards deploy no more than before, and not what was removed. *)
Definition removed (org policy rev : string) (sp sp' : space) : Prop :=
  (∀ k, k.1 ≠ (org, policyGroupsColl) → s_objs sp' !! k = s_objs sp !! k) ∧
  ∀ group p r, deployed (s_objs sp') org group p r →
    deployed (s_objs sp) org group p r ∧ ¬ (p = policy ∧ (rev = "" ∨ r = rev)).

Lemma ens_loadGroup (org name : string) (sp : space) (Q : result (option deployments) → space → Prop) :
  Q (Ok (s_objs sp !! (org, policyGroupsColl, name) ≫= decode_group)) sp → (∀ e, Q (Err e) sp) →
  ensures (B := B) (O := O) (loadGroup org name) sp Q.
Proof. intros HO HE. apply ens_bind, ens_Get; [|done]. apply ens_ret. by destruct (s_objs sp !! _). Qed.

(** One group: what it deployed and the removal spares. *)
Lemma ens_remove_one (org policy rev group : string) (sp : space) (Q : result unit → space → Prop) :
  (∀ sp', (∀ k, k ≠ (org, policyGroupsColl, group) → s_objs sp' !! k = s_objs sp !! k) →
     (∀ p r, deployed (s_objs sp') org group p r → deployed (s_objs sp) org group p r ∧ ¬ (p = policy ∧ (rev = "" ∨ r = rev))) →
     Q (Ok tt) sp') → (∀ e, Q (Err e) sp) →
  ensures (B := B) (O := O) (removePolicyFromGroup org policy rev group) sp Q.
Proof.
  intros HO HE. apply ens_bind, ens_loadGroup; [|done].
  destruct (s_objs sp !! (org, policyGroupsColl, group) ≫= decode_group) as [g|] eqn:E; cycle 1.
  { apply ens_ret, HO; [done|]. intros p r (raw & g & Hr & Hg & _). by rewrite Hr in E; cbn in E; rewrite Hg in E. }
  apply bind_Some in E as (raw & Hr & Hg).
  assert (∀ p r, deployed (s_objs sp) org group p r ↔ g !! p = Some r) as Hd.
  { intros p r. split; [intros (raw' & g' & Hr' & Hg' & Hp); congruence|]. by exists raw, g. }
  destruct (g !! policy) as [cur|] eqn:Ep.
  - case_decide as Hc.
    + apply ens_ret, HO; [done|]. intros p r Hp. split; [done|]. rewrite Hd in Hp. intros [-> Hrev]. rewrite Ep in Hp. naive_solver.
    + apply ens_Put; [|done]. apply HO.
      * intros k Hk. by apply lookup_insert_ne.
      * intros p r Hp. apply deployed_put in Hp; [|by eapply map_Forall_delete, decode_group_text].
        rewrite decide_True in Hp by done. apply lookup_delete_Some in Hp as [Hne Hp]. split; [by apply Hd|]. naive_solver.
  - apply ens_ret, HO; [done|]. intros p r Hp. split; [done|]. rewrite Hd in Hp. intros [-> _]. congruence.
Qed.

Lemma ens_remove (org policy rev : string) (sp : space) (Q : result unit → space → Prop) :
  (∀ sp', removed org policy rev sp sp' → Q (Ok tt) sp') → (∀ e sp', Q (Err e) sp') →
  ensures (B := B) (O := O) (removePolicyFromGroups org policy rev) sp Q.
Proof.
  intros HO HE. apply ens_bind, ens_Keys; [|auto]. set (names := sort_strings _).
  apply ens_each with (inv := λ dn sp', (∀ k, k.1 ≠ (org, policyGroupsColl) → s_objs sp' !! k = s_objs sp !! k) ∧
    (∀ group, group ∉ dn → s_objs sp' !! (org, policyGroupsColl, group) = s_objs sp !! (org, policyGroupsColl, group)) ∧
    ∀ group p r, deployed (s_objs sp') org group p r → deployed (s_objs sp) org group p r ∧ (group ∈ dn → ¬ (p = policy ∧ (rev = "" ∨ r = rev)))).
  - split_and!; [done..|]. intros group p r Hd. split; [done|]. by intros ?%elem_of_nil.
  - intros dn group rest sp1 _ (Hf & Hs & Hd). apply ens_remove_one; [|auto]. intros sp2 Hf2 Hd2. split_and!.
    + intros k Hk. rewrite Hf2 by (by intros ->). by apply Hf.
    + intros g Hg. rewrite Hf2 by set_solver. apply Hs. set_solver.
    + intros g p r Hp. destruct (decide (g = group)) as [->|Hne].
      * destruct (Hd2 p r Hp) as [Hp1 Hn]. destruct (Hd _ _ _ Hp1). done.
      * apply (deployed_same (s_objs sp1)) in Hp; [|apply Hf2; congruence]. destruct (Hd _ _ _ Hp) as [Hp0 Hn]. split; [done|]. set_solver.
  - intros sp1 (Hf & Hs & Hd). apply HO. split; [done|]. intros group p r Hp. destruct (Hd _ _ _ Hp) as [Hp0 Hn]. split; [done|].
    apply Hn. destruct Hp0 as (raw & _ & Hr & _). unfold names. rewrite sort_strings_perm. apply list_elem_of_fmap. exists (group, raw).
    split; [done|]. by rewrite elem_of_map_to_list, lookup_coll_of.
Qed.
End Deployments.

(** ** Names *)

Lemma ascii_name (P : ascii → bool) (s : string) : (∀ c, P c = true → (byte_of c < 128)%Z) → str_forall P s = true → valid_utf8 s = true.
Proof.
  intros HP Hs. apply (ascii_text is_ascii_char); [intros c; apply bool_decide_eq_true|]. eapply str_forall_impl, Hs.
  intros c Hc. apply bool_decide_eq_true. by apply HP.
Qed.

Lemma policyNameRE_text (s : string) : policyNameRE s = true → valid_utf8 s = true.
Proof.
  intros [_ Hs]%andb_prop. eapply ascii_name, Hs. intros c. unfold name_char, alnum. rewrite !orb_true_iff, !bool_decide_eq_true.
  intros Hc. destruct Hc as [[Hc|Hc]|Hc]; [lia| |by subst].
  by apply list_elem_of_In in Hc as [<-|[<-|[<-|[]]]].
Qed.

Lemma decodeRevision_text (body policy raw rev : string) : decodeRevision body policy = inl (raw, rev) →
  valid_utf8 policy = true ∧ valid_utf8 rev = true.
Proof.
  unfold decodeRevision. destruct (decodeObjectBody body); [|done]. destruct (DecodeObject _) as [doc|]; [|done].
  unfold validatePolicyRevision. cbn [first_error]. unfold name_field_error, member_str.
  destruct (assoc doc "revision_id") as [v|]; [|done]. destruct (str_ok policyNameRE v) eqn:Ev; [|done].
  destruct (assoc doc "name") as [w|]; [|done]. destruct (str_ok policyNameRE w) eqn:Ew; [|done].
  destruct (run_list_error doc); [done|]. destruct (cookbook_locks_error doc); [done|]. case_decide as Hn; [done|]. intros [= <- <-].
  destruct v; try done. destruct w; try done. subst. split; by apply policyNameRE_text.
Qed.

Inductive policy_call :=
  | CreateRevision (r : request) (org policy : string)
  | DeleteRevision (org policy rev : string)
  | DeletePolicy (org policy : string)
  | Deploy (r : request) (org group policy : string)
  | Undeploy (org group policy : string)
  | DeletePolicyGroup (org group : string).

Section Calls.
Context {B : Type} `{BackendSpec B} {O : Type}.

Definition run_policy_call (c : policy_call) : handler (Store B O) reply :=
  match c with
  | CreateRevision r org policy => createPolicyRevision r org policy
  | DeleteRevision org policy rev => deletePolicyRevision org policy rev
  | DeletePolicy org policy => deletePolicy org policy
  | Deploy r org group policy => putGroupPolicy r org group policy
  | Undeploy org group policy => deleteGroupPolicy org group policy
  | DeletePolicyGroup org group => deletePolicyGroup org group
  end.

Fixpoint run_policy_calls (cs : list policy_call) (s : Store B O) : list reply * Store B O :=
  match cs with
  | [] => ([], s)
  | c :: cs' =>
      let '(rep, s1) := replied (run_policy_call c s) in
      let '(reps, s2) := run_policy_calls cs' s1 in (rep :: reps, s2)
  end.

Lemma resolves_put (x : objects) (k : string * string * string) (v : string) : k.1.2 ≠ policyGroupsColl → resolves x → resolves (<[k := v]> x).
Proof.
  intros Hk Hr org group p r Hd. apply (deployed_same x) in Hd; [|by apply lookup_insert_ne; intros ->]. apply Hr in Hd.
  apply lookup_insert_is_Some'. by right.
Qed.

Lemma resolves_put_group (x : objects) (org name : string) (g : deployments) : group_text g →
  (∀ p r, g !! p = Some r → is_Some (x !! (org, policyRevColl p, r))) →
  resolves x → resolves (<[(org, policyGroupsColl, name) := encode_group g]> x).
Proof.
  intros Hg Hn Hr o group p r Hd. apply lookup_insert_is_Some'. right. destruct (decide (o = org)) as [->|Hne].
  - apply deployed_put in Hd; [|done]. case_decide; [by apply Hn|by eapply Hr].
  - eapply Hr, deployed_same, Hd. apply lookup_insert_ne. congruence.
Qed.

Lemma resolves_group (sp : space) (org name : string) (g : deployments) : resolves (s_objs sp) →
  s_objs sp !! (org, policyGroupsColl, name) ≫= decode_group = Some g →
  group_text g ∧ ∀ p r, g !! p = Some r → is_Some (s_objs sp !! (org, policyRevColl p, r)).
Proof.
  intros Hr (raw & Hraw & Hg)%bind_Some. split; [by eapply decode_group_text|]. intros p r Hp. eapply Hr. by exists raw, g.
Qed.

(** Revisions of one policy are deleted and then removed from the groups. *)
Lemma resolves_removed (sp sp1 sp' : space) (org policy rev : string) : resolves (s_objs sp) →
  (∀ k, k.1 ≠ (org, policyRevColl policy) ∨ (rev ≠ "" ∧ k.2 ≠ rev) → s_objs sp1 !! k = s_objs sp !! k) →
  removed org policy rev sp1 sp' → resolves (s_objs sp').
Proof.
  intros Hr Hs [Hf Hd] o group p r Hp. rewrite Hf by (by intros [=]).
  destruct (decide (o = org)) as [->|Hne].
  - destruct (Hd _ _ _ Hp) as [Hp1 Hn]. apply (deployed_same (s_objs sp)) in Hp1; [|apply Hs; left; by intros [=]].
    apply Hr in Hp1. rewrite Hs; [done|]. cbn. destruct (decide (p = policy)) as [->|Hpp].
    + right. split; intros ->; apply Hn; auto.
    + left. by intros [= E].
  - rewrite Hs by (left; cbn; congruence). eapply Hr, deployed_same, Hp.
    rewrite Hf by (cbn; congruence). apply Hs. left. cbn. congruence.
Qed.

Lemma run_policy_call_resolves (c : policy_call) (sp : space) : resolves (s_objs sp) →
  h_ensures (run_policy_call c) sp (λ res sp', status (reply_of res) = 500%Z ∨ resolves (s_objs sp')).
Proof.
  intros Hr. destruct c as [r org policy|org policy rev|org policy|r org group policy|org group policy|org group]; cbn [run_policy_call];
    (apply h_ens_bind, h_ens_org; [intros _|auto]).
  - destruct (decodeRevision _ _) as [[raw rev]|msg]; [|apply h_ens_reply; auto].
    apply h_ens_bind, h_ens_create_or_409; [|auto..]. intros _. apply h_ens_ret. right. by apply resolves_put.
  - apply h_ens_bind, h_ens_or_500, ens_Delete; [|auto].
    destruct (s_objs sp !! (org, policyRevColl policy, rev)) as [raw|] eqn:E.
    + apply h_ens_bind, h_ens_or_500, ens_remove; [|auto]. intros sp' Hd. apply h_ens_ret. right.
      eapply resolves_removed; [exact Hr| |exact Hd]. intros k Hk. apply lookup_delete_ne. intros <-. cbn in Hk. naive_solver.
    + apply h_ens_reply. right. cbn. by rewrite delete_id.
  - apply h_ens_bind, h_ens_or_500, ens_Keys; [|auto]. case_decide; [apply h_ens_reply; auto|].
    apply h_ens_bind, h_ens_or_500, ens_delete_keys; [|auto]. intros sp1 Hs1.
    apply h_ens_bind, h_ens_or_500, ens_remove; [|auto]. intros sp2 Hd.
    apply h_ens_bind, h_ens_or_500, ens_deleteACL; [|auto]. apply h_ens_ret. right.
    assert (resolves (s_objs sp2)) as H2.
    { eapply resolves_removed; [exact Hr| |exact Hd]. intros k Hk. rewrite Hs1, decide_False; [done|]. naive_solver. }
    intros o g p rv Hp. cbn. rewrite lookup_delete_ne by done. eapply H2, deployed_same, Hp. cbn. by rewrite lookup_delete_ne.
  - destruct (decodeRevision _ _) as [[raw rev]|msg] eqn:E; [|apply h_ens_reply; auto]. apply decodeRevision_text in E as [Hpt Hrt].
    apply h_ens_bind, h_ens_or_500, ens_Put; [|auto]. set (sp1 := sp_put _ _ _ _ _).
    assert (resolves (s_objs sp1)) as H1 by by apply resolves_put.
    apply h_ens_bind, h_ens_or_500, ens_loadGroup; [|auto]. set (g := default ∅ _).
    assert (group_text g ∧ ∀ p r, g !! p = Some r → is_Some (s_objs sp1 !! (org, policyRevColl p, r))) as [Hg Hres].
    { unfold g. destruct (s_objs sp1 !! _ ≫= decode_group) as [g0|] eqn:E; [by eapply resolves_group|]. split; [apply map_Forall_empty|done]. }
    apply h_ens_bind, h_ens_or_500, ens_Put; [|auto]. apply h_ens_ret. right. apply resolves_put_group; [..|done].
    + by apply map_Forall_insert_2.
    + intros p rv [[<- <-]|[_ Hp]]%lookup_insert_Some; [|by apply Hres]. unfold sp1. cbn. rewrite lookup_insert_eq. eauto.
  - apply h_ens_bind, h_ens_or_500, ens_loadGroup; [|auto]. destruct (s_objs sp !! _ ≫= decode_group) as [g|] eqn:E; [|apply h_ens_reply; auto].
    destruct (resolves_group _ _ _ _ Hr E) as [Hg Hres]. destruct (g !! policy); [|apply h_ens_reply; auto].
    apply h_ens_bind, h_ens_or_500, ens_Get; [|auto]. apply h_ens_bind, h_ens_or_500, ens_Put; [|auto]. apply h_ens_ret. right.
    apply resolves_put_group; [by apply map_Forall_delete| |done]. intros p rv [_ Hp]%lookup_delete_Some. by apply Hres.
  - apply h_ens_bind, h_ens_or_500, ens_Delete; [|auto].
    assert (resolves (s_objs (sp_delete org policyGroupsColl group sp))) as H1.
    { intros o g p rv (raw & g' & Hraw & Hd). cbn in *. rewrite lookup_delete_ne by done. apply lookup_delete_Some in Hraw as [_ Hraw].
      eapply Hr. by exists raw, g'. }
    destruct (s_objs sp !! _); [|apply h_ens_reply; auto]. apply h_ens_bind, h_ens_or_500, ens_deleteACL; [|auto]. apply h_ens_ret. right.
    intros o g p rv Hp. cbn. rewrite lookup_delete_ne by done. eapply H1, deployed_same, Hp. cbn. by rewrite lookup_delete_ne.
Qed.
End Calls.

(** C7. What a policy group deploys can be fetched. Through any sequence of uploads,
    deployments and deletes of policies, revisions and groups that meets no store
    fault, every revision a group names is stored: deploying stores it first, and
    deleting a revision or a whole policy takes it out of every group. *)
Theorem deployments_resolve `{BackendSpec B} {O} (cs : list policy_call) (s : Store B O)
    (Hs : resolves (objs s)) (Hok : Forall (λ rep, status rep ≠ 500%Z) (run_policy_calls cs s).1) :
  resolves (objs (run_policy_calls cs s).2).
Proof.
  revert s Hs Hok. induction cs as [|c cs IH]; intros s Hs Hok; [done|]. cbn [run_policy_calls] in *.
  pose proof (replied_ensures (run_policy_call c) (λ rep _ sp', status rep = 500%Z ∨ resolves (s_objs sp')) s (run_policy_call_resolves c _ Hs)) as Hc.
  destruct (replied (run_policy_call c s)) as [rep s1]. specialize (IH s1).
  destruct (run_policy_calls cs s1) as [reps s2]. cbn [fst snd] in *. apply Forall_cons in Hok as [Hrep Hok].
  apply IH; [|done]. by destruct Hc.
Qed.

(** ** Fetching what was deployed *)

Section Fetch.
Context {B : Type} `{BackendSpec B} {O : Type}.

(** An organization that is there is found, unless the store fails. *)
Lemma h_ens_org_there (name : string) (sp : space) (Q : string + reply → space → Prop) : name ∈ s_orgs sp →
  Q (inl name) sp → (∀ rep, status rep = 500%Z → Q (inr rep) sp) → h_ensures (B := B) (O := O) (API_org name) sp Q.
Proof.
  intros Hin HO HE. apply h_ens_bind, h_ens_or_500, ens_Org; [|intros e; by apply HE]. rewrite decide_True by done. by apply h_ens_ret.
Qed.

(** The group deploys the policy at a revision of the given text. *)
Definition serves (org group policy raw : string) (sp : space) : Prop :=
  org ∈ s_orgs sp ∧ ∃ rev, deployed (s_objs sp) org group policy rev ∧ s_objs sp !! (org, policyRevColl policy, rev) = Some raw.

Lemma putGroupPolicy_serves (r : request) (org group policy : string) (sp : space) :
  h_ensures (B := B) (O := O) (putGroupPolicy r org group policy) sp
    (λ res sp', status (reply_of res) = 200%Z → ∃ raw, reply_of res = writeRaw 200 raw ∧ serves org group policy raw sp').
Proof.
  apply h_ens_bind, h_ens_org; [intros Hin|]; cycle 1.
  { intros rep Hs E. cbn in E. rewrite E in Hs. by apply list_elem_of_In in Hs as [|[|[]]]. }
  destruct (decodeRevision _ _) as [[raw rev]|msg] eqn:E; [|by apply h_ens_reply]. apply decodeRevision_text in E as [Hpt Hrt].
  apply h_ens_bind, h_ens_or_500, ens_Put; [|done]. set (sp1 := sp_put _ _ _ _ _).
  apply h_ens_bind, h_ens_or_500, ens_loadGroup; [|done]. set (g := default ∅ _).
  assert (group_text g) as Hg.
  { unfold g. destruct (s_objs sp1 !! _) as [old|]; [|apply map_Forall_empty]. cbn.
    destruct (decode_group old) eqn:E; [by eapply decode_group_text|apply map_Forall_empty]. }
  apply h_ens_bind, h_ens_or_500, ens_Put; [|done]. apply h_ens_ret. intros _. exists raw. split; [done|]. split; [done|].
  exists rev. split.
  - exists (encode_group (<[policy := rev]> g)), (<[policy := rev]> g). split; [rewrite s_objs_put; apply lookup_insert_eq|].
    split; [|apply lookup_insert_eq]. apply decode_encode_group. by apply map_Forall_insert_2.
  - rewrite s_objs_put, lookup_insert_ne by by intros [=]. unfold sp1. rewrite s_objs_put. apply lookup_insert_eq.
Qed.

Lemma getGroupPolicy_serves (org group policy raw : string) (sp : space) : serves org group policy raw sp →
  h_ensures (B := B) (O := O) (getGroupPolicy org group policy) sp
    (λ res sp', sp' = sp ∧ (reply_of res = writeRaw 200 raw ∨ status (reply_of res) = 500%Z)).
Proof.
  intros (Hin & rev & (doc & g & Hd & Hg & Hp) & Hr). apply h_ens_bind, h_ens_org_there; [done| |by auto].
  apply h_ens_bind, h_ens_or_500, ens_loadGroup; [|by auto]. rewrite Hd. cbn [mbind option_bind]. rewrite Hg, Hp.
  apply h_ens_bind, h_ens_or_500, ens_Get; [|by auto]. rewrite Hr. apply h_ens_ret. auto.
Qed.
End Fetch.

(** C35. What was deployed is what is fetched: after a deployment answered 200, a
    fetch of the policy through the group answers the very document the
    deployment did, unless the store fails, and changes nothing. *)
Theorem deployed_policy_served `{BackendSpec B} {O} (r : request) (org group policy : string) (s : Store B O) :
  let '(rep, s1) := replied (putGroupPolicy r org group policy s) in
  let '(rep', s2) := replied (getGroupPolicy org group policy s1) in
  status rep = 200%Z → view s2.1 = view s1.1 ∧ (rep' = rep ∨ status rep' = 500%Z).
Proof.
  pose proof (replied_ensures (putGroupPolicy (O := O) r org group policy)
    (λ rep _ sp', status rep = 200%Z → ∃ raw, rep = writeRaw 200 raw ∧ serves org group policy raw sp') s (putGroupPolicy_serves _ _ _ _ _)) as Hput.
  destruct (replied (putGroupPolicy r org group policy s)) as [rep s1].
  destruct (replied (getGroupPolicy org group policy s1)) as [rep' s2] eqn:E. intros Hok. destruct (Hput Hok) as (raw & -> & Hs).
  pose proof (replied_ensures (getGroupPolicy (O := O) org group policy)
    (λ rep sp sp', sp' = sp ∧ (rep = writeRaw 200 raw ∨ status rep = 500%Z)) s1 (getGroupPolicy_serves _ _ _ _ _ Hs)) as Hget.
  by rewrite E in Hget.
Qed.

(** ** What a stored revision is *)

(** A string member that passes a test. *)
Definition member_ok (doc : obj) (field : string) (ok : string → bool) : Prop := ∃ t, assoc doc field = Some (VStr t) ∧ ok t = true.

Record well_formed_lock (lock : obj) : Prop := mkLock {
  lock_identifier : member_ok lock "identifier" policyNameRE;
  lock_version : member_ok lock "version" validCookbookConstraint;
  lock_dotted : is_Some (assoc lock "dotted_decimal_identifier") → member_ok lock "dotted_decimal_identifier" validCookbookConstraint;
}.

(** The document of a revision of a policy. *)
Record well_formed_revision (policy rev : string) (doc : obj) : Prop := mkRevision {
  revision_id : assoc doc "revision_id" = Some (VStr rev);
  revision_id_ok : policyNameRE rev = true;
  revision_name : assoc doc "name" = Some (VStr policy);
  revision_name_ok : policyNameRE policy = true;
  revision_run_list : ∃ items, assoc doc "run_list" = Some (VArr items) ∧
    ∀ item, item ∈ items → ∃ t, item = VStr t ∧ policyRunListItemRE t = true;
  revision_locks : ∃ locks, assoc doc "cookbook_locks" = Some (VObj locks) ∧
    ∀ cookbook, cookbook ∈ map fst locks →
      policyLockCookbookRE cookbook = true ∧ ∃ lock, assoc locks cookbook = Some (VObj lock) ∧ well_formed_lock lock;
}.

Definition revisions_typed (objs : objects) : Prop :=
  ∀ org policy rev raw, objs !! (org, policyRevColl policy, rev) = Some raw →
    ∃ doc, DecodeObject raw = Ok doc ∧ well_formed_revision policy rev doc.

Lemma str_ok_true (ok : string → bool) (v : value) : str_ok ok v = true → ∃ t, v = VStr t ∧ ok t = true.
Proof. destruct v; try done. eauto. Qed.

Lemma name_field_ok (doc : obj) (field : string) : name_field_error doc field = None → member_ok doc field policyNameRE.
Proof.
  unfold name_field_error. destruct (assoc doc field) as [v|] eqn:E; [|done]. destruct (str_ok _ v) eqn:Ev; [|done]. intros _.
  apply str_ok_true in Ev as (t & -> & Ht). by exists t.
Qed.

Lemma validateCookbookLock_ok (lock : obj) : validateCookbookLock lock = None → well_formed_lock lock.
Proof.
  unfold validateCookbookLock. destruct (name_field_error lock "identifier") eqn:E; [done|]. apply name_field_ok in E.
  destruct (negb _) eqn:Ed; [done|]. apply negb_false_iff in Ed.
  destruct (assoc lock "version") as [v|] eqn:Ev; [|done]. destruct (str_ok _ v) eqn:Hv; [|done]. intros _.
  apply str_ok_true in Hv as (t & -> & Ht). split; [done|by exists t|]. intros [d Hd]. rewrite Hd in Ed.
  apply str_ok_true in Ed as (t' & -> & Ht'). by exists t'.
Qed.

Lemma locks_error_ok (locks : obj) (names : list string) : locks_error locks names = None → ∀ cookbook, cookbook ∈ names →
  policyLockCookbookRE cookbook = true ∧ ∃ lock, assoc locks cookbook = Some (VObj lock) ∧ well_formed_lock lock.
Proof.
  induction names as [|name names IH]; cbn [locks_error]; [by intros _ c ?%elem_of_nil|].
  destruct (policyLockCookbookRE name) eqn:En; [|done]. cbn [negb]. destruct (assoc locks name) as [[]|] eqn:E; try done.
  destruct (validateCookbookLock _) eqn:El; [done|]. apply validateCookbookLock_ok in El. intros Hn c [->|Hc]%elem_of_cons; eauto.
Qed.

Lemma decodeRevision_typed (body policy raw rev : string) : decodeRevision body policy = inl (raw, rev) →
  ∃ doc, DecodeObject raw = Ok doc ∧ well_formed_revision policy rev doc.
Proof.
  unfold decodeRevision. destruct (decodeObjectBody body) as [raw'|]; [|done]. destruct (DecodeObject raw') as [doc|] eqn:Ed; [|done].
  unfold validatePolicyRevision. cbn [first_error].
  destruct (name_field_error doc "revision_id") eqn:Er; [done|]. apply name_field_ok in Er as (rid & Er & Hr).
  destruct (name_field_error doc "name") eqn:En; [done|]. apply name_field_ok in En as (nm & En & Hn).
  unfold member_str. rewrite Er, En. unfold run_list_error, cookbook_locks_error.
  destruct (assoc doc "run_list") as [[]|] eqn:Erl; try done. destruct (forallb _ _) eqn:Hrl; [|done].
  destruct (assoc doc "cookbook_locks") as [[]|] eqn:Ecl; try done. destruct (locks_error _ _) eqn:Hcl; [done|].
  destruct (decide (nm ≠ policy)) as [|Hnm%dec_stable]; [done|]. subst nm. intros [= <- <-].
  exists doc. split; [done|]. split; [done..| |].
  - eexists. split; [done|]. intros item Hi. apply str_ok_true. rewrite forallb_forall in Hrl. apply Hrl. by apply list_elem_of_In.
  - eexists. split; [done|]. intros c Hc. eapply locks_error_ok; [exact Hcl|]. by rewrite sort_strings_perm.
Qed.

Section Typed.
Context {B : Type} `{BackendSpec B} {O : Type}.

Lemma typed_other (x : objects) (org coll key v : string) : (∀ p, policyRevColl p ≠ coll) → revisions_typed x →
  revisions_typed (<[(org, coll, key) := v]> x).
Proof. intros Hc Hx o p r raw. rewrite lookup_insert_ne; [apply Hx|]. intros E. by apply (Hc p); injection E. Qed.
Lemma typed_delete (x : objects) (k : string * string * string) : revisions_typed x → revisions_typed (delete k x).
Proof. intros Hx o p r raw [_ Hr]%lookup_delete_Some. by eapply Hx. Qed.
Lemma typed_put (x : objects) (org policy rev raw body : string) : decodeRevision body policy = inl (raw, rev) → revisions_typed x →
  revisions_typed (<[(org, policyRevColl policy, rev) := raw]> x).
Proof.
  intros Hd Hx o p r raw' [[E <-]|[_ Hr]]%lookup_insert_Some; [|by eapply Hx]. injection E as <- <- <-. by eapply decodeRevision_typed.
Qed.

Lemma typed_saveGroup (org name : string) (g : deployments) (sp : space) : revisions_typed (s_objs sp) →
  ensures (B := B) (O := O) (saveGroup org name g) sp (λ _ sp', revisions_typed (s_objs sp')).
Proof. intros Hs. apply ens_Put; [|done]. rewrite s_objs_put. apply typed_other; [|done]. by intros p [=]. Qed.

Lemma typed_remove (org policy rev : string) (sp : space) : revisions_typed (s_objs sp) →
  ensures (B := B) (O := O) (removePolicyFromGroups org policy rev) sp (λ _ sp', revisions_typed (s_objs sp')).
Proof.
  intros Hs. apply ens_bind, ens_Keys; [|done]. apply ens_each with (inv := λ _ sp', revisions_typed (s_objs sp')); [done| |done].
  intros _ group _ sp1 _ Ht1. apply ens_bind, ens_loadGroup; [|done]. destruct (_ ≫= _) as [g|]; [|by apply ens_ret].
  destruct (g !! policy); [|by apply ens_ret]. case_decide; [by apply ens_ret|].
  eapply ens_conseq; [by apply typed_saveGroup|]. by intros [].
Qed.

Lemma run_policy_call_typed (c : policy_call) (sp : space) : revisions_typed (s_objs sp) →
  h_ensures (B := B) (O := O) (run_policy_call c) sp (λ _ sp', revisions_typed (s_objs sp')).
Proof.
  intros Hs. destruct c as [r org policy|org policy rev|org policy|r org group policy|org group policy|org group]; cbn [run_policy_call];
    (apply h_ens_bind, h_ens_org; [intros _|done..]).
  - destruct (decodeRevision _ _) as [[raw rev]|msg] eqn:E; [|by apply h_ens_reply].
    apply h_ens_bind, h_ens_create_or_409; [|done..]. intros _. apply h_ens_ret. rewrite s_objs_put. by eapply typed_put.
  - apply h_ens_bind, h_ens_or_500, ens_Delete; [|done].
    assert (revisions_typed (s_objs (sp_delete org (policyRevColl policy) rev sp))) as Ht1 by (rewrite s_objs_delete; by apply typed_delete).
    destruct (s_objs sp !! _); [|by apply h_ens_reply]. apply h_ens_bind, h_ens_or_500. eapply ens_conseq; [by apply typed_remove|].
    intros [[]|e] sp' Ht2; [by apply h_ens_ret|done].
  - apply h_ens_bind, h_ens_or_500, ens_Keys; [|done]. case_decide; [by apply h_ens_reply|]. apply h_ens_bind, h_ens_or_500.
    apply ens_each with (inv := λ _ sp', revisions_typed (s_objs sp')); [done| |].
    + intros _ rev _ sp1 _ Ht1. apply ens_bind, ens_Delete; [|done]. apply ens_ret. rewrite s_objs_delete. by apply typed_delete.
    + intros sp1 Ht1. apply h_ens_bind, h_ens_or_500. eapply ens_conseq; [by apply typed_remove|]. intros [[]|e] sp2 Ht2; [|done].
      apply h_ens_bind, h_ens_or_500, ens_deleteACL; [|done]. apply h_ens_ret. rewrite s_objs_delete. by apply typed_delete.
  - destruct (decodeRevision _ _) as [[raw rev]|msg] eqn:E; [|by apply h_ens_reply]. apply h_ens_bind, h_ens_or_500, ens_Put; [|done].
    set (sp1 := sp_put _ _ _ _ _). assert (revisions_typed (s_objs sp1)) as Ht1 by (unfold sp1; rewrite s_objs_put; by eapply typed_put).
    apply h_ens_bind, h_ens_or_500, ens_loadGroup; [|done]. apply h_ens_bind, h_ens_or_500. eapply ens_conseq; [by apply typed_saveGroup|].
    intros [[]|e] sp2 Ht2; [by apply h_ens_ret|done].
  - apply h_ens_bind, h_ens_or_500, ens_loadGroup; [|done]. destruct (_ ≫= _) as [g|]; [|by apply h_ens_reply].
    destruct (g !! policy); [|by apply h_ens_reply]. apply h_ens_bind, h_ens_or_500, ens_Get; [|done].
    apply h_ens_bind, h_ens_or_500. eapply ens_conseq; [by apply typed_saveGroup|]. intros [[]|e] sp2 Ht2; [by apply h_ens_ret|done].
  - apply h_ens_bind, h_ens_or_500, ens_Delete; [|done].
    assert (revisions_typed (s_objs (sp_delete org policyGroupsColl group sp))) as Ht1 by (rewrite s_objs_delete; by apply typed_delete).
    destruct (s_objs sp !! _); [|by apply h_ens_reply]. apply h_ens_bind, h_ens_or_500, ens_deleteACL; [|done]. apply h_ens_ret.
    rewrite s_objs_delete. by apply typed_delete.
Qed.
End Typed.

(** C19. Every stored revision is one. Through any sequence of calls on policies and
    groups, whatever fails on the way, each document stored as a revision of a
    policy decodes to an object that carries that policy's name and that
    revision's id, a run list of qualified recipes only, and locks whose
    identifiers and versions are well formed. *)
Theorem stored_revisions_typed `{BackendSpec B} {O} (cs : list policy_call) (s : Store B O) (Hs : revisions_typed (objs s)) :
  revisions_typed (objs (run_policy_calls cs s).2).
Proof.
  revert s Hs. induction cs as [|c cs IH]; intros s Hs; [done|]. cbn [run_policy_calls].
  pose proof (replied_ensures (run_policy_call c) (λ _ _ sp', revisions_typed (s_objs sp')) s (run_policy_call_typed c _ Hs)) as Hc.
  destruct (replied (run_policy_call c s)) as [rep s1]. specialize (IH s1 Hc).
  by destruct (run_policy_calls cs s1) as [reps s2].
Qed.

(** ** Witnesses *)

Definition acme_org : Store Memory.memoryBackend unit := (Store_CreateOrg "acme" (NewWithBackend Memory.NewMemoryBackend tt)).2.
Definition revision (rev : string) : request :=
  plain_request "PUT" "" (Marshal (VObj [("revision_id", VStr rev); ("name", VStr "web"); ("run_list", VArr [VStr "recipe[nginx::default]"]);
    ("cookbook_locks", VObj [("nginx", VObj [("identifier", VStr "abc"); ("version", VStr "1.2.3")])])])).
Definition policy_calls : list policy_call :=
  [Deploy (revision "r1") "acme" "prod" "web"; Deploy (revision "r2") "acme" "dev" "web"; DeleteRevision "acme" "web" "r1";
   Undeploy "acme" "prod" "web"; DeletePolicy "acme" "web"].

Lemma policy_calls_answers : map status (run_policy_calls policy_calls acme_org).1 = [200; 200; 200; 404; 200]%Z.
Proof. vm_compute. reflexivity. Qed.

Lemma deployments_resolve_witness : resolves (objs (run_policy_calls policy_calls acme_org).2).
Proof.
  apply (deployments_resolve policy_calls acme_org).
  - assert (objs acme_org = ∅) as -> by (vm_compute; reflexivity). intros org group p r (raw & g & Hr & _). by rewrite lookup_empty in Hr.
  - pose proof policy_calls_answers as E. revert E. generalize (run_policy_calls policy_calls acme_org).1. intros reps E.
    do 5 (destruct reps as [|? reps]; [discriminate E|]; injection E as ? E; constructor; [lia|]).
    destruct reps; [constructor|discriminate E].
Defined.

Lemma deployed_policy_served_witness :
  let '(rep, s1) := replied (putGroupPolicy (revision "r1") "acme" "prod" "web" acme_org) in
  let '(rep', s2) := replied (getGroupPolicy "acme" "prod" "web" s1) in
  view s2.1 = view s1.1 ∧ (rep' = rep ∨ status rep' = 500%Z).
Proof.
  pose proof (deployed_policy_served (revision "r1") "acme" "prod" "web" acme_org) as Hs.
  assert (status (replied (putGroupPolicy (revision "r1") "acme" "prod" "web" acme_org)).1 = 200%Z) as E by (vm_compute; reflexivity).
  destruct (replied (putGroupPolicy (revision "r1") "acme" "prod" "web" acme_org)) as [rep s1].
  destruct (replied (getGroupPolicy "acme" "prod" "web" s1)) as [rep' s2]. exact (Hs E).
Defined.

Lemma stored_revisions_typed_witness : revisions_typed (objs (run_policy_calls policy_calls acme_org).2).
Proof.
  apply (stored_revisions_typed policy_calls acme_org).
  assert (objs acme_org = ∅) as -> by (vm_compute; reflexivity). intros org p r raw Hr. by rewrite lookup_empty in Hr.
Defined.
