(* ===== verification/Organizations.v ===== *)
(** * Organizations (internal/api/organizations.go)

    Creating, updating and deleting organizations. An organization is a space of
    the store and a record of the global scope; it is provisioned in one
    transaction, with its default groups, containers and environment and with a
    validator client. *)
From S2P Require Import Prelude GoText Json Chefjson Float GoJson Stored Store Facade Groups Http Effects Acl AclDocs GroupApi Objects Manifest Auth Environments DataBags Records Users Keys Associations Actors Policies.
#[local] Open Scope go_scope.
#[local] Open Scope http_scope.

Definition orgsColl : string := "organizations".

Definition org_first (c : ascii) : bool := bool_decide (97 ≤ byte_of c ≤ 122)%Z || digit c.
(** [^[a-z0-9][a-z0-9_-]{0,254}$] *)
Definition orgNameRE (s : string) : bool :=
  match s with
  | EmptyString => false
  | String c s' => org_first c && bool_decide (String.length s' ≤ 254) && str_forall (λ c, org_first c || bool_decide (c ∈ ["_"; "-"]%char)) s'
  end.

Definition validOrgFullName (s : string) : bool :=
  match s with
  | EmptyString => false
  | String c s' => bool_decide (String.length s ≤ 1023) && negb (bool_decide (byte_of c ∈ [32; 9; 10; 11; 12; 13]%Z)) &&
                   negb (bool_decide (str_in (chr 10) s'))
  end.

(** [hex.EncodeToString] of the sixteen bytes drawn. *)
Fixpoint hex_of (bs : string) : string :=
  match bs with
  | EmptyString => ""
  | String c bs' => String (hexDigits (byte_of c `div` 16)) (String (hexDigits (byte_of c `mod` 16)) (hex_of bs'))
  end.

(** [%q] of ASCII text, which is what the names and keys printed with it hold: a
    byte beyond ASCII is escaped here, where Go prints a printable rune as it is. *)
Definition quote_char (c : ascii) : string :=
  let b := byte_of c in
  if decide (c = quote ∨ c = backslash) then String backslash (String c "")
  else if decide (0x20 ≤ b < 0x7f)%Z then String c ""
  else match (list_to_map [(7, "a"); (8, "b"); (12, "f"); (10, "n"); (13, "r"); (9, "t"); (11, "v")]%Z : gmap Z string) !! b with
       | Some e => String backslash e
       | None => String backslash ("x" +:+ hex_of (String c ""))
       end.
Fixpoint quote_text (s : string) : string :=
  match s with EmptyString => "" | String c s' => quote_char c +:+ quote_text s' end.
Definition go_quote (s : string) : string := String quote (quote_text s +:+ String quote "").

Definition validator_of (name : string) : string := name +:+ "-validator".
Definition member_q (name s : string) : string := go_quote name +:+ ":" +:+ go_quote s.
(** The record of the validator client, as [fmt.Sprintf] writes it. *)
Definition clientDoc (name pub : string) : string :=
  "{" +:+ member_q "name" (validator_of name) +:+ "," +:+ member_q "clientname" (validator_of name) +:+ ","
      +:+ go_quote "validator" +:+ ":true," +:+ member_q "public_key" pub +:+ "}".
Definition org_meta (name fullName guid : string) : string :=
  mustEncode (VObj [("name", VStr name); ("full_name", VStr fullName); ("guid", VStr (hex_of guid))]).

Definition no_org (name : string) : reply := writeError 404 ["Cannot find org " +:+ name].
Definition org_url (r : request) (name : string) : string := r_base r +:+ "/organizations/" +:+ name.

Section Handlers.
Context {B : Type} `{Backend B} {O : Type}.
Abbreviation st := (Store B O).

(** What the transaction of a new organization does. *)
Definition provision (name fullName guid pub : string) : ST st unit :=
  let! org := Store_CreateOrg name in
  SeedOrg org ;;!
  Org_Put Global orgsColl name (org_meta name fullName guid) ;;!
  Org_Put org "clients" (validator_of name) (clientDoc name pub) ;;!
  Org_Put org "acls" (aclKey "containers" "clients") (mustEncode (VObj (validatorClientsACL (validator_of name)))).

(** [guid] and [pair] are what the random source and key generation return: the
    bytes, and the public and private halves in PEM, or the text of the error. *)
Definition CreateOrganizationWithKey (guid : string + string) (name fullName : string) (pair : string * string) : ST st string :=
  match guid with
  | inr msg => st_fail (ErrOther msg)
  | inl guid => Store_Tx (provision name fullName guid pair.1) ;;! st_ret pair.2
  end.
Definition CreateOrganization (guid : string + string) (pair : (string * string) + string) (name fullName : string) : ST st string :=
  match pair with
  | inr msg => st_fail (ErrOther msg)
  | inl made => CreateOrganizationWithKey guid name fullName made
  end.

Definition listOrganizations (r : request) : handler st reply :=
  let? names := or_500 (Org_Keys Global orgsColl) in
  h_ret (writeJSON 200 (VObj (map (λ n, (n, VStr (org_url r n))) names))).

(** What is wrong with a create, in the order it is looked for; else the names. *)
Definition new_org (body : string) : (string * string) + string :=
  match decode_body_map body with
  | None => inr "invalid JSON body"
  | Some m =>
      let name := str (assoc (members m) "name") in
      if decide (name = "") then inr "Field 'name' missing"
      else if negb (orgNameRE name) then inr "Field 'name' invalid"
      else match assoc (members m) "full_name" with
           | None => inr "Field 'full_name' missing"
           | Some v => if validOrgFullName (str (Some v)) then inl (name, str (Some v)) else inr "Field 'full_name' invalid"
           end
  end.

Definition createOrganization (guid : string + string) (pair : (string * string) + string) (r : request) : handler st reply :=
  match new_org (r_body r) with
  | inr msg => h_reply (writeError 400 [msg])
  | inl (name, fullName) =>
      let? made := attempt (CreateOrganization guid pair name fullName) in
      match made with
      | Err ErrConflict => h_reply (writeError 409 ["Organization already exists"])
      | Err e => h_reply (internal_error e)
      | Ok priv => h_ret (writeJSON 201 (VObj [("clientname", VStr (validator_of name)); ("private_key", VStr priv); ("uri", VStr (org_url r name))]))
      end
  end.

Definition getOrganization (name : string) : handler st reply :=
  let? raw := or_500 (Org_Get Global orgsColl name) in
  match raw with None => h_reply (no_org name) | Some raw => h_ret (writeRaw 200 raw) end.

(** A stored [null] is a nil map, and assigning to it panics. *)
Definition putOrganization (r : request) (name : string) : handler st reply :=
  let? raw := or_500 (Org_Get Global orgsColl name) in
  match raw with
  | None => h_reply (no_org name)
  | Some raw =>
      match unmarshal_map raw with
      | None => h_reply (internal_error (ErrOther "json: cannot unmarshal"))
      | Some meta =>
          match decode_body_map (r_body r) with
          | None => h_reply (writeError 400 ["invalid JSON body"])
          | Some m =>
              let update := members m in
              if match assoc update "name" with Some (VStr n) => bool_decide (n ≠ name) | Some _ => true | None => false end
              then h_reply (writeError 400 ["Field 'name' invalid"])
              else
                let? encoded := (match assoc update "full_name" with
                  | None => h_ret (match meta with Some o => mustEncode (VObj o) | None => "null" end)
                  | Some v =>
                      if negb (validOrgFullName (str (Some v))) then h_reply (writeError 400 ["Field 'full_name' invalid"])
                      else match meta with
                           | None => h_reply panic
                           | Some o => h_ret (mustEncode (VObj (Set_ o "full_name" (VStr (str (Some v))))))
                           end
                  end) in
                or_500 (Org_Put Global orgsColl name encoded) ;;?
                h_ret (writeRaw 200 encoded)
          end
      end
  end.

Definition deleteOrganization (name : string) : handler st reply :=
  let? raw := or_500 (Org_Delete Global orgsColl name) in
  match raw with
  | None => h_reply (no_org name)
  | Some raw => or_500 (Store_DeleteOrg name) ;;? h_ret (writeRaw 200 raw)
  end.
End Handlers.

(** ** Rules *)

Section Rules.
Context {B : Type} `{BackendSpec B} {O : Type}.
Abbreviation st := (Store B O).

Lemma ens_CreateOrg (name : string) (sp : space) (Q : result string → space → Prop) :
  (name ∉ s_orgs sp → Q (Ok name) (sp_create_org name sp)) → (name ∈ s_orgs sp → Q (Err ErrConflict) sp) →
  (∀ e, e ≠ ErrConflict → Q (Err e) sp) → ensures (B := B) (O := O) (Store_CreateOrg name) sp Q.
Proof.
  intros HO HC HE [b sh] <-. cbn [fst]. unfold Store_CreateOrg, st_bind, lift. pose proof (CreateOrg_spec name b) as L. unfold creates in L.
  destruct (CreateOrg name b) as [[[]|e] b']; cbn; [destruct L as [L ->]; auto|].
  destruct (decide (e = ErrConflict)) as [->|Hne]; [destruct L as [L ->]; auto|]. destruct e; [done|]. rewrite L. auto.
Qed.

Lemma ens_DeleteOrg (name : string) (sp : space) (Q : result bool → space → Prop) :
  (name ∈ s_orgs sp → Q (Ok true) (sp_drop_org name sp)) → (name ∉ s_orgs sp → Q (Ok false) sp) →
  (∀ e sp', Q (Err e) sp') → ensures (B := B) (O := O) (Store_DeleteOrg name) sp Q.
Proof.
  intros HT HF HE [b sh] <-. cbn [fst]. unfold Store_DeleteOrg. pose proof (DeleteOrg_spec name b) as L.
  destruct (DeleteOrg name b) as [[[]|e] b']; cbn [fst]; [destruct L as [L E]; rewrite E; auto..|auto].
Qed.

(** A transaction that fails leaves the store as it was, and answers a conflict
    only when its body did. *)
Lemma ens_Tx (fn : ST st unit) (sp : space) (P Q : result unit → space → Prop) : ensures fn sp P →
  (∀ sp', P (Ok tt) sp' → Q (Ok tt) sp') → (∀ sp', P (Err ErrConflict) sp' → Q (Err ErrConflict) sp) →
  (∀ e, e ≠ ErrConflict → Q (Err e) sp) → ensures (Store_Tx fn) sp Q.
Proof.
  intros Hfn HO HC HE [b sh] <-. cbn [fst]. unfold Store_Tx.
  pose proof (Tx_spec fn b (with_buf (Some []) sh)) as L. pose proof (Tx_conflict fn b (with_buf (Some []) sh)) as C.
  destruct (Tx fn _) as [[[]|e] [b' sh']]; cbn [fst].
  - destruct L as (b1 & b2 & Hv & Hf & ->). apply HO. specialize (Hfn (b1, with_buf (Some []) sh) Hv). by rewrite Hf in Hfn.
  - destruct L as [-> _]. destruct (decide (e = ErrConflict)) as [->|Hne]; [|by apply HE].
    destruct (C _ eq_refl) as (b1 & st2 & Hv & Hf). specialize (Hfn (b1, with_buf (Some []) sh) Hv). rewrite Hf in Hfn. by eapply HC.
Qed.

(** Objects that were missing are there, and the rest is as it was. *)
Definition seeded (org : string) (keys : list (string * string)) (sp sp' : space) : Prop :=
  s_orgs sp' = s_orgs sp ∧
  (∀ k, s_objs sp' !! k = s_objs sp !! k ∨ s_objs sp !! k = None ∧ ∃ c, c ∈ keys ∧ k = (org, c.1, c.2)) ∧
  ∀ c, c ∈ keys → is_Some (s_objs sp' !! (org, c.1, c.2)).

Lemma seeded_nil (org : string) (sp : space) : seeded org [] sp sp.
Proof. split_and!; [done|by left|]. by intros c ?%elem_of_nil. Qed.

Lemma seeded_app (org : string) (l k : list (string * string)) (x y z : space) :
  seeded org l x y → seeded org k y z → seeded org (l ++ k) x z.
Proof.
  intros (Ho & Hs & Hp) (Ho' & Hs' & Hp'). split_and!; [congruence| |].
  - intros key. destruct (Hs' key) as [E|(E & c & Hc & ->)].
    + rewrite E. destruct (Hs key) as [|(? & c & Hc & ->)]; [by left|right]. split; [done|]. exists c. split; [set_solver|done].
    + right. destruct (Hs (org, c.1, c.2)) as [E'|[E' _]]; (split; [congruence|]); exists c; (split; [set_solver|done]).
  - intros c [Hc|Hc]%elem_of_app; [|by apply Hp']. destruct (Hp c Hc) as [v Hv].
    destruct (Hs' (org, c.1, c.2)) as [E|[E _]]; [rewrite E; eauto|congruence].
Qed.

Lemma ens_seed (org coll key doc : string) (sp : space) :
  ensures (B := B) (O := O) (seed org coll key doc) sp
    (λ r sp', match r with Ok _ => seeded org [(coll, key)] sp sp' | Err _ => True end).
Proof.
  apply ens_bind, ens_Get; [|done]. destruct (s_objs sp !! (org, coll, key)) as [v|] eqn:E.
  - apply ens_ret. split_and!; [done|by left|]. intros c ->%list_elem_of_singleton. eauto.
  - apply ens_Put; [|done]. split_and!; [done| |].
    + intros k. cbn. destruct (decide (k = (org, coll, key))) as [->|Hne]; [right; split; [done|]; exists (coll, key); set_solver|].
      left. by rewrite lookup_insert_ne.
    + intros c ->%list_elem_of_singleton. cbn. rewrite lookup_insert_eq. eauto.
Qed.

Lemma ens_seeds (org coll : string) (doc : string → string) (keys : list string) (sp : space) :
  ensures (B := B) (O := O) (st_each (λ g, seed org coll g (doc g)) keys) sp
    (λ r sp', match r with Ok _ => seeded org (map (pair coll) keys) sp sp' | Err _ => True end).
Proof.
  apply ens_each with (inv := λ dn sp', seeded org (map (pair coll) dn) sp sp'); [apply seeded_nil| |done].
  intros dn x rest sp' _ Hs. eapply ens_conseq; [apply ens_seed|]. intros [[]|e] sp'' Hx; [|done].
  rewrite map_app. by eapply seeded_app.
Qed.

Definition seed_keys : list (string * string) :=
  ("environments", "_default") :: map (pair "groups") defaultGroups ++ map (pair "containers") defaultContainers.

Lemma ens_SeedOrg (org : string) (sp : space) :
  ensures (B := B) (O := O) (SeedOrg org) sp (λ r sp', match r with Ok _ => seeded org seed_keys sp sp' | Err _ => True end).
Proof.
  apply ens_bind. eapply ens_conseq; [apply ens_seed|]. intros [[]|e] sp1 H1; [|done].
  apply ens_bind. eapply ens_conseq; [apply ens_seeds|]. intros [[]|e] sp2 H2; [|done].
  eapply ens_conseq; [apply ens_seeds|]. intros [[]|e] sp3 H3; [|done].
  change seed_keys with ([("environments", "_default")] ++ map (pair "groups") defaultGroups ++ map (pair "containers") defaultContainers).
  eapply seeded_app; [done|]. by eapply seeded_app.
Qed.

(** Computations that never answer a conflict. *)
Definition conflict_free {A} (m : ST st A) : Prop := ∀ s, (m s).1 ≠ Err ErrConflict.

Lemma cf_ret {A} (a : A) : conflict_free (st_ret a).
Proof. done. Qed.
Lemma cf_bind {A C} (m : ST st A) (k : A → ST st C) : conflict_free m → (∀ a, conflict_free (k a)) → conflict_free (st_bind m k).
Proof.
  intros Hm Hk s. unfold st_bind. specialize (Hm s). destruct (m s) as [[a|e] s1]; [apply Hk|]. cbn in *. congruence.
Qed.
Lemma cf_each {A} (f : A → ST st unit) (l : list A) : (∀ a, conflict_free (f a)) → conflict_free (st_each f l).
Proof. intros Hf. induction l as [|a l IH]; cbn [st_each]; [apply cf_ret|by apply cf_bind]. Qed.
Lemma cf_Get (org coll key : string) : conflict_free (Org_Get org coll key).
Proof.
  apply cf_bind; [by intros []|]. intros _ [b sh]. unfold lift. pose proof (Get_spec org coll key b) as L. unfold reads in L.
  destruct (Get org coll key b) as [[]]; cbn; [done|]. destruct L. congruence.
Qed.
Lemma cf_Put (org coll key v : string) : conflict_free (Org_Put org coll key v).
Proof.
  apply cf_bind; [by intros []|]. intros _. apply cf_bind; [|by intros _ []]. intros [b sh]. unfold lift.
  pose proof (Put_spec org coll key v b) as L. unfold writes in L. destruct (Put org coll key v b) as [[]]; cbn; [done|]. destruct L. congruence.
Qed.
Lemma cf_seed (org coll key doc : string) : conflict_free (seed org coll key doc).
Proof. apply cf_bind; [apply cf_Get|]. intros []; [apply cf_ret|apply cf_Put]. Qed.
Lemma cf_SeedOrg (org : string) : conflict_free (SeedOrg org).
Proof.
  apply cf_bind; [apply cf_seed|]. intros _. apply cf_bind; [|intros _]; apply cf_each; intros a; apply cf_seed.
Qed.
Create HintDb cf.
#[local] Hint Resolve cf_ret cf_bind cf_Get cf_Put cf_SeedOrg : cf.

Lemma ens_free {A} (m : ST st A) (sp : space) (Q : result A → space → Prop) : conflict_free m →
  ensures m sp (λ r sp', r ≠ Err ErrConflict → Q r sp') → ensures m sp Q.
Proof. intros Hc Hm s Hs. specialize (Hm s Hs). specialize (Hc s). destruct (m s). by apply Hm. Qed.

(** ** Creating *)

(** What a new organization is, and what it leaves alone. *)
Definition provisioned (name fullName guid pub : string) (sp sp' : space) : Prop :=
  (name ∉ s_orgs sp) ∧ s_orgs sp' = ({[name]} ∪ s_orgs sp) ∧
  s_objs sp' !! (Global, orgsColl, name) = Some (org_meta name fullName guid) ∧
  s_objs sp' !! (name, "clients", validator_of name) = Some (clientDoc name pub) ∧
  s_objs sp' !! (name, "acls", aclKey "containers" "clients") = Some (mustEncode (VObj (validatorClientsACL (validator_of name)))) ∧
  (∀ c, c ∈ seed_keys → is_Some (s_objs sp' !! (name, c.1, c.2))) ∧
  ∀ k, k ∉ [(Global, orgsColl, name); (name, "clients", validator_of name); (name, "acls", aclKey "containers" "clients")] →
    (k.1.1 ≠ name ∨ (k.1.2, k.2) ∉ seed_keys ∨ is_Some (s_objs sp !! k)) → s_objs sp' !! k = s_objs sp !! k.

Lemma ens_provision (name fullName guid pub : string) (sp : space) :
  ensures (B := B) (O := O) (provision name fullName guid pub) sp
    (λ r sp', match r with
     | Ok _ => provisioned name fullName guid pub sp sp'
     | Err e => e = ErrConflict → name ∈ s_orgs sp
     end).
Proof.
  apply ens_bind, ens_CreateOrg; [intros Hnew|done|intros e He ?; done].
  apply ens_free; [by auto 10 with cf|]. set (sp0 := sp_create_org name sp).
  apply ens_bind. eapply ens_conseq; [apply ens_SeedOrg|]. intros [[]|e] sp1 Hs; [|intros ? ->; done].
  destruct Hs as (Ho & Hk & Hseeds). apply ens_bind, ens_Put; [|intros e ? ->; done]. set (sp2 := sp_put _ _ _ _ _).
  apply ens_bind, ens_Put; [|intros e ? ->; done]. set (sp3 := sp_put _ _ _ _ _).
  apply ens_Put; [|intros e ? ->; done]. intros _.
  assert (∀ k, k ∉ [(Global, orgsColl, name); (name, "clients", validator_of name); (name, "acls", aclKey "containers" "clients")] →
    s_objs (sp_put name "acls" (aclKey "containers" "clients") (mustEncode (VObj (validatorClientsACL (validator_of name)))) sp3) !! k = s_objs sp1 !! k) as Hf.
  { intros k Hk'. rewrite s_objs_put. unfold sp3. rewrite s_objs_put. unfold sp2. rewrite s_objs_put.
    rewrite !lookup_insert_ne; [reflexivity|..]; intros <-; apply Hk'; [left|right; left|right; right; left]. }
  split_and!; [exact Hnew|exact Ho| | | | |].
  - rewrite s_objs_put, lookup_insert_ne by (by intros [=]). unfold sp3. rewrite s_objs_put, lookup_insert_ne by (by intros [=]).
    apply lookup_insert_eq.
  - rewrite s_objs_put, lookup_insert_ne by (by intros [=]). apply lookup_insert_eq.
  - apply lookup_insert_eq.
  - intros c Hc. destruct (decide ((name, c.1, c.2) ∈ [(Global, orgsColl, name); (name, "clients", validator_of name); (name, "acls", aclKey "containers" "clients")])) as [Hin|Hin].
    + exfalso. assert (c.1 ∉ [orgsColl; "clients"; "acls"]) as Hc'; [|set_solver].
      revert Hc. clear. intros Hc Hin. assert (Forall (λ c, c.1 ∉ [orgsColl; "clients"; "acls"]) seed_keys) as Hall
        by (apply (bool_decide_unpack _); vm_compute; exact I). rewrite Forall_forall in Hall. by apply (Hall c Hc).
    + rewrite Hf by done. by apply Hseeds.
  - intros k Hk' Hor. rewrite Hf by done. destruct (Hk k) as [->|(Hnone & c & Hc & ->)]; [done|].
    destruct Hor as [Hne|[Hns|[v Hv]]]; [done| |cbn in Hnone; congruence]. exfalso. apply Hns. cbn [fst snd]. by destruct c.
Qed.
End Rules.

(** ** The validator's record *)

(** The text of a PEM block: printable characters and newlines. *)
Definition pem_char (c : ascii) : bool := (bool_decide (0x20 ≤ byte_of c < 0x7f)%Z && negb (bool_decide (c = quote ∨ c = backslash))) || bool_decide (c = chr 10).

Lemma pem_quote_char (c : ascii) : pem_char c = true → (byte_of c < 0x80)%Z ∧ json_escape_char true c = quote_char c.
Proof.
  unfold pem_char. rewrite orb_true_iff, andb_true_iff, negb_true_iff, !bool_decide_eq_true, bool_decide_eq_false. intros [[Hc Hq]| ->].
  - split; [lia|]. unfold json_escape_char, quote_char. rewrite !(decide_False (P := c = quote ∨ c = backslash)) by done.
    rewrite decide_True by lia. by rewrite decide_True by lia.
  - split; [vm_compute; reflexivity|]. vm_compute. reflexivity.
Qed.

Lemma pem_quote (s : string) : str_forall pem_char s = true → json_escape s = quote_text s.
Proof.
  unfold json_escape. induction s as [|c s IH]; [done|]. cbn [str_forall]. intros [Hc Hs]%andb_prop.
  destruct (pem_quote_char c Hc) as [Hlow E]. cbn [String.length json_escape_from quote_text]. rewrite decide_True by done.
  by rewrite E, (IH Hs).
Qed.

Definition validator_record (name pub : string) : obj :=
  [("name", VStr (validator_of name)); ("clientname", VStr (validator_of name)); ("validator", VBool true); ("public_key", VStr pub)].

Lemma org_name_pem (name : string) : orgNameRE name = true → str_forall pem_char (validator_of name) = true.
Proof.
  assert (∀ c, org_first c || bool_decide (c ∈ ["_"; "-"]%char) = true → pem_char c = true) as Hchar.
  { intros c. unfold org_first, digit, pem_char. rewrite !orb_true_iff, !bool_decide_eq_true. intros Hc.
    rewrite andb_true_iff, negb_true_iff, bool_decide_eq_true, bool_decide_eq_false. left.
    destruct Hc as [Hc|Hc].
    - split; [lia|]. intros [->| ->]; vm_compute in Hc; intuition congruence.
    - apply list_elem_of_In in Hc as [<-|[<-|[]]]; (split; [by vm_compute|by intros []]). }
  destruct name as [|c s]; [done|]. cbn [orgNameRE]. intros [[Hc _]%andb_prop Hs]%andb_prop.
  unfold validator_of. rewrite str_forall_app. apply andb_true_iff. split; [|by vm_compute].
  cbn [str_forall]. rewrite Hchar by (by rewrite Hc). eapply str_forall_impl, Hs. exact Hchar.
Qed.

Lemma pem_text (s : string) : str_forall pem_char s = true → valid_utf8 s = true.
Proof.
  apply Policies.ascii_name. intros c Hc. by apply pem_quote_char in Hc as [? _].
Qed.

(** The record [fmt.Sprintf] writes is the document it was meant to be. *)
Lemma clientDoc_reads (name pub : string) : orgNameRE name = true → str_forall pem_char pub = true →
  unmarshal_map (clientDoc name pub) = Some (Some (validator_record name pub)).
Proof.
  intros Hn%org_name_pem Hp.
  assert (clientDoc name pub = print json_escape (VObj (validator_record name pub))) as ->.
  { unfold clientDoc, member_q, go_quote, validator_record. cbn [print map fst snd]. unfold print_string.
    rewrite <-!pem_quote by done. generalize (json_escape (validator_of name)) (json_escape pub). intros a b.
    cbn [join String.append]. repeat (rewrite !app_string_assoc; cbn [String.append]). reflexivity. }
  unfold unmarshal_map. rewrite (decode_print false json_escape (λ s, valid_utf8 s = true)).
  - reflexivity.
  - apply json_escape_scan.
  - apply pem_text in Hn, Hp. apply printable_obj. repeat constructor; done.
  - unfold max_depth. cbn. lia.
Qed.

(** ** What a create does *)

Definition create_outcome (guid : string + string) (pair : (string * string) + string) (r : request) (rep : reply) (sp sp' : space) : Prop :=
  match new_org (r_body r) with
  | inr msg => rep = writeError 400 [msg] ∧ sp' = sp
  | inl (name, fullName) =>
      status rep = 500%Z ∧ sp' = sp ∨
      status rep = 409%Z ∧ name ∈ s_orgs sp ∧ sp' = sp ∨
      status rep = 201%Z ∧ ∃ g pub priv, guid = inl g ∧ pair = inl (pub, priv) ∧ provisioned name fullName g pub sp sp' ∧
        (str_forall pem_char pub = true → unmarshal_map (clientDoc name pub) = Some (Some (validator_record name pub)))
  end.

Lemma new_org_name (body name fullName : string) : new_org body = inl (name, fullName) → orgNameRE name = true.
Proof.
  unfold new_org. destruct (decode_body_map body) as [m|]; [|done]. cbv zeta. case_decide; [done|].
  destruct (orgNameRE _) eqn:E; [|done]. cbn [negb]. destruct (assoc _ "full_name"); [|done]. case_match; [|done]. by intros [= <- <-].
Qed.

Lemma createOrganization_ensures `{BackendSpec B} {O} (guid : string + string) (pair : (string * string) + string) (r : request) (sp : space) :
  h_ensures (B := B) (O := O) (createOrganization guid pair r) sp (λ res sp', create_outcome guid pair r (reply_of res) sp sp').
Proof.
  unfold createOrganization, create_outcome. destruct (new_org (r_body r)) as [[name fullName]|msg] eqn:En; [|by apply h_ens_reply].
  apply new_org_name in En. apply h_ens_bind, h_ens_attempt. destruct pair as [[pub priv]|msg]; cbn [CreateOrganization].
  2:{ intros s <-. apply h_ens_reply. by left. }
  destruct guid as [g|msg]; cbn [CreateOrganizationWithKey].
  2:{ intros s <-. apply h_ens_reply. by left. }
  apply ens_bind. eapply ens_Tx; [apply ens_provision|..].
  - intros sp' Hp. apply ens_ret, h_ens_ret. right. right. split; [done|]. exists g, pub, priv. split_and!; [done..|].
    by apply clientDoc_reads.
  - intros sp' Hin. apply h_ens_reply. right. left. split_and!; [done|by apply Hin|done].
  - intros [|e] He; [done|]. apply h_ens_reply. by left.
Qed.

(** C8. An organization is created whole or not at all. A body the endpoint does
    not accept is answered 400; an organization that exists, 409; a failure of the
    store, the random source or the key generator, 500: in each case nothing is
    stored. A create answered 201 was of a new name, and leaves the space, its
    record, the default environment, groups and containers, the validator client
    with the public half of the key, whose record decodes as it was meant, and
    the ACL that lets it register clients; nothing else changes. *)
Theorem organization_created_whole `{BackendSpec B} {O} (guid : string + string) (keypair : (string * string) + string) (r : request) (s : Store B O) :
  let '(rep, s') := replied (createOrganization guid keypair r s) in create_outcome guid keypair r rep (view s.1) (view s'.1).
Proof. apply (replied_ensures _ (create_outcome guid keypair r)), createOrganization_ensures. Qed.

(** ** Sequences of calls *)

Inductive org_call :=
  | CreateOrgCall (guid : string + string) (keypair : (string * string) + string) (r : request)
  | UpdateOrgCall (r : request) (name : string)
  | DeleteOrgCall (name : string).

(** The organizations are those with a record, and the global scope is none. *)
Definition registered (sp : space) : Prop :=
  (Global ∉ s_orgs sp) ∧ ∀ name, name ∈ s_orgs sp ↔ is_Some (s_objs sp !! (Global, orgsColl, name)).

Section Calls.
Context {B : Type} `{BackendSpec B} {O : Type}.

Definition run_org_call (c : org_call) : handler (Store B O) reply :=
  match c with
  | CreateOrgCall guid keypair r => createOrganization guid keypair r
  | UpdateOrgCall r name => putOrganization r name
  | DeleteOrgCall name => deleteOrganization name
  end.
Fixpoint run_org_calls (cs : list org_call) (s : Store B O) : list reply * Store B O :=
  match cs with
  | [] => ([], s)
  | c :: cs' =>
      let '(rep, s1) := replied (run_org_call c s) in
      let '(reps, s2) := run_org_calls cs' s1 in (rep :: reps, s2)
  end.

Lemma registered_put (sp : space) (name raw : string) : is_Some (s_objs sp !! (Global, orgsColl, name)) →
  registered sp → registered (sp_put Global orgsColl name raw sp).
Proof.
  intros Hs [Hg Hr]. split; [done|]. intros n. rewrite s_objs_put. cbn [s_orgs sp_put]. rewrite Hr.
  destruct (decide (n = name)) as [->|Hne]; [by rewrite lookup_insert_eq|]. by rewrite lookup_insert_ne by congruence.
Qed.

Lemma registered_drop (sp : space) (name : string) : registered sp → name ∈ s_orgs sp →
  registered (sp_drop_org name (sp_delete Global orgsColl name sp)).
Proof.
  intros [Hg Hr] Hin. split; [cbn; set_solver|]. intros n. rewrite s_objs_drop, lookup_drop_objs, s_objs_delete. cbn [s_orgs sp_drop_org sp_delete].
  rewrite decide_False by (intros E; by rewrite E in Hg). destruct (decide (n = name)) as [->|Hne].
  - rewrite lookup_delete_eq. split; [set_solver|by intros []].
  - rewrite lookup_delete_ne by congruence. rewrite <-Hr. set_solver.
Qed.

Lemma registered_new (name fullName guid pub : string) (sp sp' : space) : orgNameRE name = true →
  provisioned name fullName guid pub sp sp' → registered sp → registered sp'.
Proof.
  intros Hn (Hnew & Ho & Hm & _ & _ & _ & Hf) [Hg Hr]. assert (name ≠ Global) as Hne by (intros ->; by vm_compute in Hn).
  split; [rewrite Ho; set_solver|]. intros n. rewrite Ho. destruct (decide (n = name)) as [->|Hnn].
  - rewrite Hm. split; [eauto|set_solver].
  - rewrite Hf; [|set_solver|left; cbn; congruence]. rewrite <-Hr. set_solver.
Qed.

Lemma run_org_call_registered (c : org_call) (sp : space) : registered sp →
  h_ensures (run_org_call c) sp (λ res sp', status (reply_of res) = 500%Z ∨ registered sp').
Proof.
  intros Hr. destruct c as [guid keypair r|r name|name]; cbn [run_org_call].
  - eapply h_ens_conseq; [apply createOrganization_ensures|]. intros res sp'. unfold create_outcome.
    destruct (new_org (r_body r)) as [[name fullName]|] eqn:En; [|intros [_ ->]; by right]. apply new_org_name in En.
    intros [[? _]|[(_ & _ & ->)|(_ & g & pub & priv & _ & _ & Hp & _)]]; [by left|by right|right]. by eapply registered_new.
  - apply h_ens_bind, h_ens_or_500, ens_Get; [|auto]. destruct (s_objs sp !! _) as [raw|] eqn:E; [|apply h_ens_reply; auto].
    destruct (unmarshal_map raw) as [meta|]; [|apply h_ens_reply; auto].
    destruct (decode_body_map _) as [m|]; [|apply h_ens_reply; auto]. cbv zeta. destruct (match assoc (members m) "name" with Some _ => _ | None => _ end); [apply h_ens_reply; auto|].
    apply h_ens_bind. eapply (h_ens_conseq _ _ _ (λ _ sp', sp' = sp)).
    { destruct (assoc _ "full_name"); [|by apply h_ens_ret]. destruct (negb _); [by apply h_ens_reply|]. destruct meta; [by apply h_ens_ret|by apply h_ens_reply]. }
    intros [encoded|rep] ? ->; [|by right]. apply h_ens_bind, h_ens_or_500, ens_Put; [|auto]. apply h_ens_ret. right.
    apply registered_put; [by rewrite E|done].
  - apply h_ens_bind, h_ens_or_500, ens_Delete; [|auto]. destruct (s_objs sp !! (Global, orgsColl, name)) as [raw|] eqn:E.
    + assert (name ∈ s_orgs sp) as Hin by (apply Hr; by rewrite E).
      apply h_ens_bind, h_ens_or_500, ens_DeleteOrg; [intros _|done|auto]. apply h_ens_ret. right. by apply registered_drop.
    + apply h_ens_reply. right. destruct Hr as [Hg Hr]. split; [done|]. intros n. rewrite s_objs_delete. cbn [s_orgs sp_delete].
      by rewrite delete_id, <-Hr.
Qed.
End Calls.

(** C20. The organizations and their records agree. Through any creates, updates and
    deletes of organizations that meet no fault, the organizations the store holds
    are exactly those that have a record, so whatever is listed can be used and
    whatever exists can be deleted. *)
Theorem organizations_registered `{BackendSpec B} {O} (cs : list org_call) (s : Store B O)
    (Hs : registered (view s.1)) (Hok : Forall (λ rep, status rep ≠ 500%Z) (run_org_calls cs s).1) :
  registered (view (run_org_calls cs s).2.1).
Proof.
  revert s Hs Hok. induction cs as [|c cs IH]; intros s Hs Hok; [done|]. cbn [run_org_calls] in *.
  pose proof (replied_ensures (run_org_call c) (λ rep _ sp', status rep = 500%Z ∨ registered sp') s (run_org_call_registered c _ Hs)) as Hc.
  destruct (replied (run_org_call c s)) as [rep s1]. specialize (IH s1).
  destruct (run_org_calls cs s1) as [reps s2]. cbn [fst snd] in *. apply Forall_cons in Hok as [Hrep Hok].
  apply IH; [|done]. by destruct Hc.
Qed.

(** ** Samples *)

Definition new_body (name : string) : string := mustEncode (VObj [("name", VStr name); ("full_name", VStr ("The " +:+ name))]).
Definition create_call (name : string) : org_call :=
  CreateOrgCall (inl "0123456789abcdef") (inl ("PUB", "PRIV")) (plain_request "POST" "" (new_body name)).
Definition empty_server : Store Memory.memoryBackend unit := NewWithBackend Memory.NewMemoryBackend tt.
Definition org_calls : list org_call :=
  [create_call "acme"; create_call "acme"; UpdateOrgCall (plain_request "PUT" "" (mustEncode (VObj [("full_name", VStr "ACME")]))) "acme"; DeleteOrgCall "acme"].

Lemma org_calls_answers : map status (run_org_calls org_calls empty_server).1 = [201; 409; 200; 200]%Z.
Proof. vm_compute. reflexivity. Qed.

Lemma organizations_registered_witness : registered (view (run_org_calls org_calls empty_server).2.1).
Proof.
  apply (organizations_registered org_calls empty_server).
  - split; [by vm_compute|]. intros name. change (name ∈ (∅ : gset string) ↔ is_Some ((∅ : objects) !! (Global, orgsColl, name))).
    rewrite lookup_empty. split; [set_solver|by intros []].
  - pose proof org_calls_answers as E. revert E. generalize (run_org_calls org_calls empty_server).1. intros reps E.
    do 4 (destruct reps as [|? reps]; [discriminate E|]; injection E as ? E; constructor; [lia|]).
    destruct reps; [constructor|discriminate E].
Defined.

(** A delete that fails after the record is gone leaves an organization that can be
    neither deleted nor created again. *)
Definition failing_delete : Store (Faulty.faulty Memory.memoryBackend) unit :=
  (Faulty.mkFaulty (run_org_calls [create_call "acme"] empty_server).2.1 [false; true], (NewWithBackend tt tt).2).
Example half_deleted_organization :
  let out := run_org_calls [DeleteOrgCall "acme"; DeleteOrgCall "acme"; create_call "acme"] failing_delete in
  (map status out.1, base.elements (s_orgs (view out.2.1))) = ([500; 404; 409]%Z, ["acme"]).
Proof. vm_compute. reflexivity. Qed.

(** The validator of a new organization may take the name of a user. *)
Definition with_user : Store Memory.memoryBackend unit := (Org_Put Global "users" "acme-validator" "{}" empty_server).2.
Example validator_takes_user_name :
  let out := run_org_calls [create_call "acme"] with_user in
  (map status out.1, (objs out.2 !! ("acme", "clients", "acme-validator")), (objs out.2 !! (Global, "users", "acme-validator"))) =
  ([201]%Z, Some (clientDoc "acme" "PUB"), Some "{}").
Proof. vm_compute. reflexivity. Qed.
