(* ===== verification/Bootstrap.v ===== *)
(** * Starting the server (server/server.go, server/auth.go, internal/auth/keys.go)

    What [New] does to the store before it serves: the bootstrap of the admin user
    and of the configured organizations, whose private keys are kept in the store,
    and the upgrades of what older versions stored. PEM and X.509 are parameters,
    as are the generated keys. *)
From S2P Require Import Prelude GoText Json Chefjson Float GoJson Stored Store Facade Http Effects Acl AclDocs GroupApi Objects Auth Records Passwords Keys Associations Organizations.
#[local] Open Scope go_scope.

(** ** Private keys *)

Class PrivateX509 (K : Type) := {
  pem_EncodeToMemory : string → string → string;
  ParsePKCS1PrivateKey : string → result K;
  ParsePKCS8PrivateKey : string → result (option K);     (* [None]: not an RSA key *)
  MarshalPKCS1PrivateKey : K → string;
  MarshalPKIXPublicKey : PublicKey → result string;
  public_half : K → PublicKey;
}.

(** Documented: decoding undoes encoding. *)
Class PrivateX509Spec (K : Type) `{X509} `{PrivateX509 K} := {
  pem_round_trip bytes : pem_Decode (pem_EncodeToMemory "RSA PRIVATE KEY" bytes) = Some ("RSA PRIVATE KEY", bytes);
  PKCS1_round_trip k : ParsePKCS1PrivateKey (MarshalPKCS1PrivateKey k) = Ok k;
}.

Section Keys.
Context {K : Type} `{X509} `{PrivateX509 K}.

Definition ParsePrivateKey (pem : string) : result K :=
  match pem_Decode pem with
  | None => Err (ErrOther "auth: no PEM block found in private key")
  | Some (typ, bytes) =>
      if decide (typ = "RSA PRIVATE KEY") then ParsePKCS1PrivateKey bytes
      else if decide (typ = "PRIVATE KEY") then
        match ParsePKCS8PrivateKey bytes with
        | Err e => Err (ErrOther ("auth: parse PKCS8 private key: " +:+ error_text e))
        | Ok None => Err (ErrOther "auth: private key is not RSA")
        | Ok (Some key) => Ok key
        end
      else Err (ErrOther ("auth: unexpected PEM type " +:+ go_quote typ +:+ " for private key"))
  end.

Definition EncodePrivateKeyPEM (key : K) : string := pem_EncodeToMemory "RSA PRIVATE KEY" (MarshalPKCS1PrivateKey key).
Definition EncodePublicKeyPEM (pub : PublicKey) : result string :=
  match MarshalPKIXPublicKey pub with Err e => Err e | Ok der => Ok (pem_EncodeToMemory "PUBLIC KEY" der) end.

Definition parseWebUIKey (pem : string) : result PublicKey :=
  match ParsePublicKey pem with
  | Ok pub => Ok pub
  | Err _ => match ParsePrivateKey pem with Err e => Err e | Ok priv => Ok (public_half priv) end
  end.
End Keys.

(** ** Options *)

(** The clock and an injected backend are values of the embedding program. *)
Record Options := mkOptions {
  Addr : string; Orgs : list string; AdminName : string; DisableAuth : bool; EnforceACL : bool; SkewSeconds : Z;
  Repo : string; StatePath : string; WebUIKey : string; MaxBodyBytes : Z; Storage : string; DB : string; SQLiteGroupCommit : bool;
  StatsUser : string; StatsPassword : string; ExternalURL : string; TLSCertFile : string; TLSKeyFile : string;
}.

Definition or_default (s d : string) : string := if decide (s = "") then d else s.
Definition withDefaults (o : Options) : Options := {|
  Addr := or_default (Addr o) "127.0.0.1:0";
  Storage := or_default (Storage o) "memory";
  Orgs := match Orgs o with [] => ["acme"] | l => l end;
  AdminName := or_default (AdminName o) "pivotal";
  SkewSeconds := (if decide (SkewSeconds o = 0) then 900 else SkewSeconds o)%Z;
  StatsUser := or_default (StatsUser o) "statsuser";
  MaxBodyBytes := (if decide (MaxBodyBytes o = 0) then Z.shiftl 1 30 else MaxBodyBytes o)%Z;
  DisableAuth := DisableAuth o; EnforceACL := EnforceACL o; Repo := Repo o; StatePath := StatePath o; WebUIKey := WebUIKey o;
  DB := DB o; SQLiteGroupCommit := SQLiteGroupCommit o; StatsPassword := StatsPassword o; ExternalURL := ExternalURL o;
  TLSCertFile := TLSCertFile o; TLSKeyFile := TLSKeyFile o;
|}.

(** What [New] refuses before it looks at anything but the options. *)
Definition options_error (o : Options) : option string :=
  if DisableAuth o && EnforceACL o then Some "EnforceACL requires authentication; do not set DisableAuth"
  else if decide (Repo o ≠ "" ∧ StatePath o ≠ "")
  then Some "options Repo and StatePath are mutually exclusive; a state directory already subsumes a chef-repo"
  else None.

(** The backend the options ask for, when none is injected. *)
Inductive storage := MemoryStorage | SqliteStorage (db : string) (group_commit : bool).
Definition buildStore (o : Options) : result storage :=
  if decide (Storage o = "memory") then Ok MemoryStorage
  else if decide (Storage o = "sqlite") then
    if decide (DB o = "") then Err (ErrOther ("storage " +:+ go_quote "sqlite" +:+ " requires a database path (Options.DB / --db)"))
    else Ok (SqliteStorage (DB o) (SQLiteGroupCommit o))
  else Err (ErrOther ("unknown storage " +:+ go_quote (Storage o) +:+ " (want " +:+ go_quote "memory" +:+ " or " +:+ go_quote "sqlite" +:+ ")")).

(** ** Bootstrap *)

Definition serverKeysColl : string := "server_keys".
Definition serverKeyAdmin : string := "admin".
Definition serverKeyValidator (org : string) : string := "validator:" +:+ org.

(** The admin's record is printed with [%q], modelled for ASCII text
    ([go_quote]): the bytes of a name beyond ASCII would be printed as the rune
    they encode. The other texts are literals and PEM blocks. *)
Definition adminDoc (name pub : string) : string :=
  "{" +:+ member_q "username" name +:+ "," +:+ go_quote "admin" +:+ ":true," +:+ member_q "public_key" pub +:+ "}".

(** What the random sources return: [n] new keys, the bytes of the identifier of
    each organization, the salts of each scope; and the order in which a map is
    ranged over. *)
Record entropy (K : Type) := mkEntropy {
  generateKeys : nat → result (list K);
  guids : string → string + string;
  password_salts : string → string → string;
  map_order : list (string * string) → list (string * string);
}.
Arguments generateKeys {K}.
Arguments guids {K}.
Arguments password_salts {K}.
Arguments map_order {K}.
Arguments mkEntropy {K}.

(** The keys the server goes on with. *)
Record credentials_ (K : Type) := mkCredentials { adminKey : K; webui_key : PublicKey; validatorKeys : gmap string string }.
Arguments adminKey {K}.
Arguments webui_key {K}.
Arguments validatorKeys {K}.
Arguments mkCredentials {K}.

Section Bootstrap.
Context {K : Type} `{X509} `{PrivateX509 K} `{PBKDF2} {B : Type} `{Backend B} {O : Type}.
Abbreviation st := (Store B O).

(** [fmt.Errorf] with the error at the end. *)
Definition wrapping {A} (prefix : string) (m : ST st A) : ST st A := λ s,
  match m s with
  | (Err e, s') => (Err (ErrOther (prefix +:+ error_text e)), s')
  | r => r
  end.
Definition of_result {A} (r : result A) : ST st A := match r with Ok a => st_ret a | Err e => st_fail e end.

(** [None]: no key is stored yet. *)
Definition loadServerKey (name : string) : ST st (option K) :=
  let! raw := Org_Get Global serverKeysColl name in
  match raw with
  | None => st_ret None
  | Some raw => let! key := wrapping ("parse stored " +:+ go_quote name +:+ " key: ") (of_result (ParsePrivateKey raw)) in st_ret (Some key)
  end.
Definition storeServerKey (name : string) (key : K) : ST st unit := Org_Put Global serverKeysColl name (EncodePrivateKeyPEM key).

Fixpoint load_plans (orgs : list string) : ST st (list (string * option K)) :=
  match orgs with
  | [] => st_ret []
  | name :: orgs' =>
      let! key := loadServerKey (serverKeyValidator name) in
      let! rest := load_plans orgs' in
      st_ret ((name, key) :: rest)
  end.

(** The generated keys go to the plans without one, in order; indexing past the
    keys panics. *)
Fixpoint assign_keys (plans : list (string * option K)) (gen : list K) : option (list (string * K * bool)) :=
  match plans with
  | [] => Some []
  | (name, Some key) :: plans' => cons (name, key, false) <$> assign_keys plans' gen
  | (name, None) :: plans' =>
      match gen with
      | [] => None
      | key :: gen' => cons (name, key, true) <$> assign_keys plans' gen'
      end
  end.

Definition create_admin (name : string) (key : K) : ST st unit :=
  let! pub := of_result (EncodePublicKeyPEM (public_half key)) in
  Org_Put Global "users" name (adminDoc name pub) ;;!
  storeServerKey serverKeyAdmin key.

(** [CreateOrganizationWithKey] of a key. *)
Definition create_with_key (guid : string + string) (name : string) (key : K) : ST st string :=
  match guid with
  | inr msg => st_fail (ErrOther msg)
  | inl _ => let! pub := of_result (EncodePublicKeyPEM (public_half key)) in
             CreateOrganizationWithKey guid name name (pub, EncodePrivateKeyPEM key)
  end.

Fixpoint bootstrap_orgs (ent : entropy K) (plans : list (string * K * bool)) (keys : gmap string string) : ST st (gmap string string) :=
  match plans with
  | [] => st_ret keys
  | (name, key, false) :: plans' => bootstrap_orgs ent plans' (<[name := EncodePrivateKeyPEM key]> keys)
  | (name, key, true) :: plans' =>
      let! validator := wrapping ("create org " +:+ go_quote name +:+ ": ") (create_with_key (guids ent name) name key) in
      storeServerKey (serverKeyValidator name) key ;;!
      bootstrap_orgs ent plans' (<[name := validator]> keys)
  end.

(** A loop over the organizations the store lists and still has. *)
Definition in_each_org (f : string → ST st unit) : ST st unit :=
  let! names := Store_ListOrgs in
  st_each (λ name, let! o := Store_Org name in match o with None => st_ret tt | Some org => f org end) names.

Definition upgradeOrgACLs : ST st unit :=
  in_each_org (λ name, wrapping ("upgrade org " +:+ go_quote name +:+ " ACLs: ") (UpgradeOrgACLs name)).

Definition upgrade_scope (iter : Z) (ent : entropy K) (prefix org : string) : ST st unit :=
  wrapping prefix (UpgradePasswords iter (λ name, Ok (password_salts ent org name)) (map_order ent) org) ;;! st_ret tt.
Definition upgradePasswords (iter : Z) (ent : entropy K) : ST st unit :=
  upgrade_scope iter ent "upgrade user passwords: " Global ;;!
  in_each_org (λ name, upgrade_scope iter ent ("upgrade org " +:+ go_quote name +:+ " passwords: ") name).

(** The admin's key: the stored one, or the first of the generated ones. *)
Definition admin_key (admin : option K) (gen : list K) : option (K * list K) :=
  match admin, gen with
  | Some key, _ => Some (key, gen)
  | None, key :: gen' => Some (key, gen')
  | None, [] => None
  end.
Definition webui (o : Options) (admin : K) : ST st PublicKey :=
  if decide (WebUIKey o ≠ "") then wrapping "parse webui key: " (of_result (parseWebUIKey (WebUIKey o))) else st_ret (public_half admin).

(** The part of [New] that works on the store, up to the upgrades. *)
Definition bootstrap_with (o : Options) (iter : Z) (ent : entropy K) (admin : option K) : ST st (credentials_ K) :=
  let! plans := load_plans (Orgs o) in
  let nGen := (match admin with None => 1 | Some _ => 0 end + length (filter (λ p, p.2 = None) plans))%nat in
  let! gen := of_result (generateKeys ent nGen) in
  match admin_key admin gen with
  | None => st_fail (ErrOther "panic: index out of range")
  | Some (key, gen) =>
      match assign_keys plans gen with
      | None => st_fail (ErrOther "panic: index out of range")
      | Some plans =>
          (match admin with None => create_admin (AdminName o) key | Some _ => st_ret tt end) ;;!
          let! pub := webui o key in
          let! keys := bootstrap_orgs ent plans ∅ in
          upgradeOrgACLs ;;!
          upgradePasswords iter ent ;;!
          st_ret (mkCredentials key pub keys)
      end
  end.
Definition bootstrap (o : Options) (iter : Z) (ent : entropy K) : ST st (credentials_ K) :=
  let! admin := loadServerKey serverKeyAdmin in
  bootstrap_with o iter ent admin.
End Bootstrap.

(** ** What a start leaves *)

Section Restart.
Context {K : Type} `{PrivateX509Spec K} `{PBKDF2Spec} {B : Type} `{BackendSpec B} {O : Type}.
Abbreviation st := (Store B O).

Lemma parse_encoded (key : K) : ParsePrivateKey (EncodePrivateKeyPEM key) = Ok key.
Proof. unfold ParsePrivateKey, EncodePrivateKeyPEM. rewrite pem_round_trip, decide_True by done. apply PKCS1_round_trip. Qed.

(** The key stored under a name, when it can be read. *)
Definition stored_key (objs : objects) (name : string) : option K :=
  match objs !! (Global, serverKeysColl, name) with
  | Some raw => match ParsePrivateKey raw with Ok key => Some key | Err _ => None end
  | None => None
  end.

Lemma stored_key_same (x y : objects) (name : string) :
  y !! (Global, serverKeysColl, name) = x !! (Global, serverKeysColl, name) → stored_key y name = stored_key x name.
Proof. intros E. unfold stored_key. by rewrite E. Qed.

Lemma stored_key_put (x : objects) (name n : string) (key : K) :
  stored_key (<[(Global, serverKeysColl, name) := EncodePrivateKeyPEM key]> x) n = if decide (n = name) then Some key else stored_key x n.
Proof.
  unfold stored_key. destruct (decide (n = name)) as [->|Hne]; [by rewrite lookup_insert_eq, parse_encoded|].
  by rewrite lookup_insert_ne by congruence.
Qed.

Lemma ens_wrapping {A} (prefix : string) (m : ST st A) (sp : space) (Q : result A → space → Prop) :
  ensures m sp (λ r sp', match r with Ok a => Q (Ok a) sp' | Err _ => ∀ e, Q (Err e) sp' end) → ensures (wrapping prefix m) sp Q.
Proof. intros Hm s Hs. specialize (Hm s Hs). unfold wrapping. by destruct (m s) as [[a|e] s']. Qed.

Lemma ens_of_result {A} (r : result A) (sp : space) (Q : result A → space → Prop) : Q r sp → ensures (B := B) (O := O) (of_result r) sp Q.
Proof. intros HQ s <-. by destruct r. Qed.

Lemma ens_loadServerKey (name : string) (sp : space) (Q : result (option K) → space → Prop) :
  (s_objs sp !! (Global, serverKeysColl, name) = None → Q (Ok None) sp) →
  (∀ key, stored_key (s_objs sp) name = Some key → Q (Ok (Some key)) sp) → (∀ e, Q (Err e) sp) →
  ensures (B := B) (O := O) (loadServerKey name) sp Q.
Proof.
  intros HN HS HE. apply ens_bind, ens_Get; [|done]. unfold stored_key in HS.
  destruct (s_objs sp !! _) as [raw|]; [|by apply ens_ret, HN]. apply ens_bind, ens_wrapping, ens_of_result.
  destruct (ParsePrivateKey raw); [by apply ens_ret, HS|done].
Qed.

(** The plan of an organization says what the store holds for it. *)
Definition planned (objs : objects) (p : string * option K) : Prop :=
  match p.2 with
  | None => objs !! (Global, serverKeysColl, serverKeyValidator p.1) = None
  | Some key => stored_key objs (serverKeyValidator p.1) = Some key
  end.

Lemma ens_load_plans (orgs : list string) (sp : space) (Q : result (list (string * option K)) → space → Prop) :
  (∀ plans, plans.*1 = orgs → Forall (planned (s_objs sp)) plans → Q (Ok plans) sp) → (∀ e, Q (Err e) sp) →
  ensures (B := B) (O := O) (load_plans orgs) sp Q.
Proof.
  revert Q. induction orgs as [|name orgs IH]; intros Q HO HE; cbn [load_plans]; [by apply ens_ret, HO|].
  apply ens_bind, ens_loadServerKey; [intros Hn|intros key Hk|done]; apply ens_bind, IH; try done;
    intros plans Hp Hall; apply ens_ret, HO; [by rewrite fmap_cons, Hp|by constructor|by rewrite fmap_cons, Hp|by constructor].
Qed.

Lemma assign_keys_planned (objs : objects) (plans : list (string * option K)) (gen : list K) (ps : list (string * K * bool)) :
  assign_keys plans gen = Some ps → Forall (planned objs) plans →
  map (λ p, p.1.1) ps = plans.*1 ∧
  Forall (λ p, planned objs (p.1.1, if p.2 : bool then None else Some p.1.2)) ps.
Proof.
  revert gen ps. induction plans as [|[name [key|]] plans IH]; intros gen ps; cbn [assign_keys].
  - intros [= <-] _. done.
  - intros (ps' & Ha & ->)%fmap_Some [Hp Hall]%Forall_cons. destruct (IH _ _ Ha Hall) as [E Hf]. split; [cbn; by rewrite E|by constructor].
  - destruct gen as [|key gen]; [done|]. intros (ps' & Ha & ->)%fmap_Some [Hp Hall]%Forall_cons. destruct (IH _ _ Ha Hall) as [E Hf].
    split; [cbn; by rewrite E|by constructor].
Qed.

(** ** The organizations *)

Lemma ens_create_with_key (guid : string + string) (name : string) (key : K) (sp : space) (Q : result string → space → Prop) :
  (∀ sp', (∀ n, s_objs sp' !! (Global, serverKeysColl, n) = s_objs sp !! (Global, serverKeysColl, n)) → Q (Ok (EncodePrivateKeyPEM key)) sp') →
  (∀ e, Q (Err e) sp) → ensures (B := B) (O := O) (create_with_key guid name key) sp Q.
Proof.
  intros HO HE. unfold create_with_key. destruct guid as [g|msg]; [|intros s <-; apply HE].
  apply ens_bind, ens_of_result. destruct (EncodePublicKeyPEM _) as [pub|]; [|done].
  apply ens_bind. eapply ens_Tx; [apply ens_provision| |by auto..]. intros sp' (_ & _ & _ & _ & _ & _ & Hf).
  apply ens_ret, HO. intros n. apply Hf; [|right; left].
  - intros Hin. apply list_elem_of_In in Hin as [E|[E|[E|[]]]]; discriminate E.
  - intros Hin. assert (Forall (λ c, c.1 ≠ serverKeysColl) seed_keys) as Hall by (apply (bool_decide_unpack _); vm_compute; exact I).
    rewrite Forall_forall in Hall. by apply (Hall _ Hin).
Qed.

(** The names in [ps] have their key in the store, as the answer says. *)
Lemma ens_bootstrap_orgs (ent : entropy K) (ps : list (string * K * bool)) : ∀ (acc : gmap string string) (sp : space),
  Forall (λ p, p.2 = false → stored_key (s_objs sp) (serverKeyValidator p.1.1) = Some p.1.2) ps →
  (∀ p q, p ∈ ps → q ∈ ps → p.1.1 = q.1.1 → p.2 = q.2) →
  ensures (B := B) (O := O) (bootstrap_orgs ent ps acc) sp (λ r sp', match r with
    | Ok keys =>
        (∀ n, (∀ p, p ∈ ps → p.2 = true → serverKeyValidator p.1.1 ≠ n) →
           s_objs sp' !! (Global, serverKeysColl, n) = s_objs sp !! (Global, serverKeysColl, n)) ∧
        ∀ name, if decide (name ∈ map (λ p, p.1.1) ps)
                then ∃ key, stored_key (s_objs sp') (serverKeyValidator name) = Some key ∧ keys !! name = Some (EncodePrivateKeyPEM key)
                else keys !! name = acc !! name
    | Err _ => True
    end).
Proof.
  induction ps as [|[[name key] fresh] ps IH]; intros acc sp Hold Hflag; cbn [bootstrap_orgs].
  { apply ens_ret. split; [done|]. intros n. by rewrite decide_False by (apply not_elem_of_nil). }
  apply Forall_cons in Hold as [Hk Hold]. cbn [fst snd] in Hk.
  assert (∀ p q, p ∈ ps → q ∈ ps → p.1.1 = q.1.1 → p.2 = q.2) as Hflag' by (intros p q Hp Hq; apply Hflag; by right).
  assert (∀ p, p ∈ ps → p.1.1 = name → p.2 = fresh) as Hsame by (intros p Hp E; eapply (Hflag p (name, key, fresh)); [by right|by left|done]).
  assert (∀ (sp1 sp' : space) (keys : gmap string string), stored_key (s_objs sp1) (serverKeyValidator name) = Some key →
    (∀ n, (∀ p, p ∈ ps → p.2 = true → serverKeyValidator p.1.1 ≠ n) →
       s_objs sp' !! (Global, serverKeysColl, n) = s_objs sp1 !! (Global, serverKeysColl, n)) →
    (∀ n, if decide (n ∈ map (λ p, p.1.1) ps)
          then ∃ key, stored_key (s_objs sp') (serverKeyValidator n) = Some key ∧ keys !! n = Some (EncodePrivateKeyPEM key)
          else keys !! n = <[name := EncodePrivateKeyPEM key]> acc !! n) →
    ∀ n, if decide (n ∈ map (λ p, p.1.1) ((name, key, fresh) :: ps))
          then ∃ key, stored_key (s_objs sp') (serverKeyValidator n) = Some key ∧ keys !! n = Some (EncodePrivateKeyPEM key)
          else keys !! n = acc !! n) as Hend.
  { intros sp1 sp' keys Hst Hf Hks n. specialize (Hks n). destruct (decide (n ∈ map (λ p, p.1.1) ps)) as [Hin|Hin].
    - rewrite decide_True by (by right). done.
    - destruct (decide (n = name)) as [->|Hne].
      + rewrite decide_True by (by left). rewrite lookup_insert_eq in Hks. exists key. split; [|done].
        rewrite <-Hst. apply stored_key_same, Hf. intros p Hp _ E. apply Hin. apply list_elem_of_fmap. exists p. split; [|done].
        by apply (inj (String.append "validator:")) in E.
      + rewrite decide_False by (intros [?|?]%elem_of_cons; done). by rewrite lookup_insert_ne in Hks. }
  destruct fresh.
  - apply ens_bind, ens_wrapping, ens_create_with_key; [|done]. intros sp1 Hs1. apply ens_bind, ens_Put; [|done].
    set (sp2 := sp_put _ _ _ _ _).
    assert (∀ n, stored_key (s_objs sp2) n = if decide (n = serverKeyValidator name) then Some key else stored_key (s_objs sp) n) as Hst2.
    { intros n. unfold sp2. rewrite s_objs_put, stored_key_put. case_decide; [done|]. by apply stored_key_same. }
    eapply ens_conseq; [apply IH; [|done]|].
    { rewrite Forall_forall in Hold |- *. intros p Hp Hf. rewrite Hst2, decide_False; [by apply Hold|].
      intros E. apply (inj (String.append "validator:")) in E. apply Hsame in E; [|done]. congruence. }
    intros [keys|e] sp'; [|done]. intros [Hf Hks]. split.
    + intros n Hn. rewrite Hf by (intros p Hp; apply Hn; by right). unfold sp2. rewrite s_objs_put, lookup_insert_ne; [apply Hs1|].
      intros [= <-]. by apply (Hn (name, key, true)); [left|..].
    + apply (Hend sp2); [by rewrite Hst2, decide_True|done|done].
  - eapply ens_conseq; [apply IH; [done|done]|]. intros [keys|e] sp'; [|done]. intros [Hf Hks]. split.
    + intros n Hn. apply Hf. intros p Hp. apply Hn. by right.
    + apply (Hend sp); [by apply Hk|done|done].
Qed.

(** ** The upgrades *)

Definition legacy_acl (org : string) : string := mustEncode (VObj (legacyClientsACL (org +:+ "-validator"))).
Definition policy_acl (org : string) : string := mustEncode (VObj (validatorClientsACL (org +:+ "-validator"))).

(** The upgrade has nothing to change. *)
Definition acl_current (org : string) (objs : objects) : Prop :=
  objs !! clients_acl org = Some (legacy_acl org) → legacy_acl org = policy_acl org.
Definition hashed (org : string) (objs : objects) : Prop :=
  ∀ name v, objs !! (org, PasswordsCollection, name) = Some v → IsPasswordHash v = true.

(** Everything but what the upgrade of the collection is about. *)
Definition beside (coll : string) (sp sp' : space) : Prop :=
  s_orgs sp' = s_orgs sp ∧ ∀ k, k.1.2 ≠ coll → s_objs sp' !! k = s_objs sp !! k.
Definition unchanged (sp sp' : space) : Prop := s_orgs sp' = s_orgs sp ∧ s_objs sp' = s_objs sp.

Lemma beside_trans (coll : string) (x y z : space) : beside coll x y → beside coll y z → beside coll x z.
Proof. intros [Ho Hk] [Ho' Hk']. split; [congruence|]. intros k Hc. by rewrite Hk', Hk. Qed.

(** A loop that settles each organization it visits and disturbs no other. *)
Lemma ens_in_each_org (f : string → ST st unit) (coll : string) (P : string → objects → Prop) (sp : space) :
  (∀ org (sp0 : space), ensures (f org) sp0 (λ r sp', match r with
     | Ok _ => beside coll sp0 sp' ∧ P org (s_objs sp') ∧ (∀ o, o ≠ org → ∀ k, s_objs sp' !! (o, coll, k) = s_objs sp0 !! (o, coll, k))
     | Err _ => True end)) →
  (∀ o (x y : objects), (∀ k, y !! (o, coll, k) = x !! (o, coll, k)) → P o x → P o y) →
  ensures (B := B) (O := O) (in_each_org f) sp (λ r sp', match r with
    | Ok _ => beside coll sp sp' ∧ (∀ o, o ∈ s_orgs sp → P o (s_objs sp')) ∧
              ∀ o, o ∉ s_orgs sp → ∀ k, s_objs sp' !! (o, coll, k) = s_objs sp !! (o, coll, k)
    | Err _ => True end).
Proof.
  intros Hf HP. apply ens_bind, ens_ListOrgs; [|done]. set (names := sort_strings _).
  assert (∀ o, o ∈ names ↔ o ∈ s_orgs sp) as Hin by (intros o; apply elem_of_orgs).
  apply ens_each with (inv := λ dn sp', beside coll sp sp' ∧ (∀ o, o ∈ dn → P o (s_objs sp')) ∧
    ∀ o, o ∉ dn → ∀ k, s_objs sp' !! (o, coll, k) = s_objs sp !! (o, coll, k)).
  - split_and!; [done|by intros o ?%elem_of_nil|done].
  - intros dn org rest sp1 El (Hb & Hd & Hn). apply ens_bind, ens_Org; [|done].
    assert (org ∈ s_orgs sp) as Horg by (rewrite <-Hin, El; set_solver). rewrite decide_True by (by rewrite (proj1 Hb)).
    eapply ens_conseq; [apply Hf|]. intros [[]|e] sp2; [|done]. intros (Hb2 & Hp & Ho2). split_and!.
    + by eapply beside_trans.
    + intros o Ho. destruct (decide (o = org)) as [->|Hne]; [done|]. eapply HP; [apply (Ho2 o Hne)|]. apply Hd. set_solver.
    + intros o Ho k. rewrite Ho2 by set_solver. apply Hn. set_solver.
  - intros sp1 (Hb & Hd & Hn). split_and!; [done| |].
    + intros o Ho. apply Hd. by apply Hin.
    + intros o Ho. apply Hn. by rewrite Hin.
Qed.

Lemma ens_in_each_unchanged (f : string → ST st unit) (sp : space) :
  (∀ org sp0, org ∈ s_orgs sp → unchanged sp sp0 → ensures (f org) sp0 (λ _ sp', unchanged sp sp')) →
  ensures (B := B) (O := O) (in_each_org f) sp (λ _ sp', unchanged sp sp').
Proof.
  intros Hf. apply ens_bind, ens_ListOrgs; [|done]. apply ens_each with (inv := λ _ sp', unchanged sp sp'); [done| |done].
  intros dn org rest sp1 _ Hu. apply ens_bind, ens_Org; [|done]. case_decide as Ho; [|by apply ens_ret].
  eapply ens_conseq; [apply (Hf org sp1); [by rewrite <-(proj1 Hu)|done]|]. by intros [[]|e] sp'.
Qed.

Lemma UpgradeOrgACLs_unfold (org : string) :
  UpgradeOrgACLs (B := B) (O := O) org = (let! raw := Org_Get org "acls" (aclKey "containers" "clients") in
    match raw with
    | None => st_ret tt
    | Some raw => if decide (raw = legacy_acl org) then Org_Put org "acls" (aclKey "containers" "clients") (policy_acl org) else st_ret tt
    end).
Proof. reflexivity. Qed.
Lemma upgraded_unfold (org : string) (x : objects) :
  AclDocs.upgraded org x = if decide (x !! clients_acl org = Some (legacy_acl org)) then <[clients_acl org := policy_acl org]> x else x.
Proof. reflexivity. Qed.
#[local] Opaque legacy_acl policy_acl.

Lemma ens_UpgradeOrgACLs (org : string) (sp : space) (Q : result unit → space → Prop) :
  (∀ sp', s_orgs sp' = s_orgs sp → s_objs sp' = AclDocs.upgraded org (s_objs sp) → Q (Ok tt) sp') → (∀ e, Q (Err e) sp) →
  ensures (B := B) (O := O) (UpgradeOrgACLs org) sp Q.
Proof.
  intros HO HE. rewrite UpgradeOrgACLs_unfold. apply ens_bind, ens_Get; [|exact HE]. fold (clients_acl org).
  rewrite upgraded_unfold in HO. destruct (s_objs sp !! clients_acl org) as [raw|] eqn:E.
  - destruct (decide (raw = legacy_acl org)) as [->|Hne].
    + rewrite decide_True in HO by reflexivity. apply ens_Put; [|exact HE]. apply HO; [reflexivity|]. apply s_objs_put.
    + rewrite decide_False in HO by congruence. by apply ens_ret, HO.
  - rewrite decide_False in HO by discriminate. by apply ens_ret, HO.
Qed.

Lemma acl_current_upgraded (org : string) (objs : objects) : acl_current org (AclDocs.upgraded org objs).
Proof.
  unfold acl_current. rewrite upgraded_unfold. case_decide as E.
  - rewrite lookup_insert_eq. intros Hs. symmetry. exact (Some_inj _ _ Hs).
  - done.
Qed.
Lemma upgraded_current (org : string) (objs : objects) : acl_current org objs → AclDocs.upgraded org objs = objs.
Proof.
  unfold acl_current. rewrite upgraded_unfold. case_decide as E; [|done]. intros Hc.
  apply insert_id. by rewrite <-(Hc E).
Qed.
Lemma upgraded_beside (org : string) (x : objects) (k : string * string * string) :
  k ≠ clients_acl org → AclDocs.upgraded org x !! k = x !! k.
Proof. intros Hk. rewrite upgraded_unfold. case_decide; [|done]. by apply lookup_insert_ne. Qed.

Lemma ens_upgradeOrgACLs (sp : space) :
  ensures (B := B) (O := O) upgradeOrgACLs sp (λ r sp', match r with
    | Ok _ => beside "acls" sp sp' ∧ ∀ o, o ∈ s_orgs sp → acl_current o (s_objs sp')
    | Err _ => True end).
Proof.
  eapply ens_conseq; [apply (ens_in_each_org _ "acls" acl_current)|].
  - intros org sp0. apply ens_wrapping, ens_UpgradeOrgACLs; [|done]. intros sp' Ho E. rewrite E. split_and!.
    + split; [done|]. intros k Hk. rewrite E. apply upgraded_beside. by intros ->.
    + apply acl_current_upgraded.
    + intros o Hne k. apply upgraded_beside. intros Ek%(f_equal (λ x, x.1.1)). by apply Hne.
  - intros o x y Hk Hx. unfold acl_current in *. unfold clients_acl in *. by rewrite Hk.
  - intros [[]|e] sp'; [|done]. intros (Hb & Hd & _). done.
Qed.

Lemma ens_upgradeOrgACLs_current (sp : space) : (∀ o, o ∈ s_orgs sp → acl_current o (s_objs sp)) →
  ensures (B := B) (O := O) upgradeOrgACLs sp (λ _ sp', unchanged sp sp').
Proof.
  intros Hc. apply ens_in_each_unchanged. intros org sp0 Hin [Ho Hk]. apply ens_wrapping, ens_UpgradeOrgACLs; [|done].
  intros sp' Ho' E. split; [congruence|]. rewrite E, Hk. by apply upgraded_current, Hc.
Qed.

Context (iter : Z) (ent : entropy K).
Hypothesis Hiter : (1 ≤ iter ≤ maxPasswordIterations)%Z.
Hypothesis Hsalts : ∀ org name, password_salts ent org name ≠ "".
Hypothesis Horder : ∀ l, map_order ent l ≡ₚ l.

Lemma ens_both {A} (m : ST st A) (sp : space) (Q Q' : result A → space → Prop) :
  ensures m sp Q → ensures m sp Q' → ensures m sp (λ r sp', Q r sp' ∧ Q' r sp').
Proof. intros Hm Hm' s Hs. specialize (Hm s Hs). specialize (Hm' s Hs). by destruct (m s). Qed.

Lemma ens_upgrade_orgs (prefix org : string) (sp : space) :
  ensures (B := B) (O := O) (upgrade_scope iter ent prefix org) sp (λ _ sp', s_orgs sp' = s_orgs sp).
Proof.
  apply ens_bind, ens_wrapping, ens_bind, ens_Range; [|done]. intros docs _.
  apply ens_bind, ens_each with (inv := λ _ sp', s_orgs sp' = s_orgs sp); [done| |intros sp' E; by apply ens_ret, ens_ret].
  intros dn [n v] rest sp' _ E. cbn [fst snd]. destruct (HashPassword _ _ v); [by apply ens_Put|intros s <-; exact (λ _, E)].
Qed.

Lemma ens_upgrade_hashes (prefix org : string) (sp : space) :
  ensures (B := B) (O := O) (upgrade_scope iter ent prefix org) sp (λ r sp', match r with
    | Ok _ => hashed org (s_objs sp') ∧ ∀ k, k.1 ≠ (org, PasswordsCollection) → s_objs sp' !! k = s_objs sp !! k
    | Err _ => True end).
Proof.
  apply ens_bind, ens_wrapping, ens_Upgrade with (1 := Horder); [|exact (λ _ _ _ _, I)].
  intros sp' plain [Hf Hr] _ _. apply ens_ret. split; [|exact Hf].
  intros name v' Hv'. specialize (Hr name). destruct (s_objs sp !! _) as [v|]; [|congruence].
  destruct Hr as (w & Hw & [Hu|[_ Hn]]); [|by destruct (Hn I)]. replace v' with w by congruence.
  by eapply (upgraded_verifies iter (password_salts ent org) name v w ""), Hu.
Qed.

Lemma ens_upgrade_scope (prefix org : string) (sp : space) :
  ensures (B := B) (O := O) (upgrade_scope iter ent prefix org) sp (λ r sp', match r with
    | Ok _ => beside PasswordsCollection sp sp' ∧ hashed org (s_objs sp') ∧
              ∀ o, o ≠ org → ∀ k, s_objs sp' !! (o, PasswordsCollection, k) = s_objs sp !! (o, PasswordsCollection, k)
    | Err _ => True end).
Proof.
  eapply ens_conseq; [apply (ens_both _ _ _ _ (ens_upgrade_orgs prefix org sp) (ens_upgrade_hashes prefix org sp))|].
  intros [[]|e] sp'; [|done]. intros (Ho & Hh & Hf). split_and!; [split; [done|]|done|].
  - intros k Hk. apply Hf. intros Ek. by rewrite Ek in Hk.
  - intros o Hne k. apply Hf. by intros [= ?].
Qed.

Lemma ens_upgrade_scope_hashed (prefix org : string) (sp : space) : hashed org (s_objs sp) →
  ensures (B := B) (O := O) (upgrade_scope iter ent prefix org) sp (λ _ sp', unchanged sp sp').
Proof.
  intros Hh. eapply ens_conseq; [apply (ens_both _ _ _ (λ _ sp', s_objs sp' = s_objs sp) (ens_upgrade_orgs prefix org sp))|by intros r sp'].
  apply ens_bind, ens_wrapping, ens_Upgrade with (1 := Horder).
  - intros sp' plain Hu _ _. apply ens_ret. by eapply upgrading_hashes.
  - intros e sp' Hu e'. by eapply upgrading_hashes.
Qed.

(** Every stored password is a hash. *)
Definition all_hashed (sp : space) : Prop := hashed Global (s_objs sp) ∧ ∀ org, org ∈ s_orgs sp → hashed org (s_objs sp).

Lemma ens_upgradePasswords (sp : space) :
  ensures (B := B) (O := O) (upgradePasswords iter ent) sp (λ r sp', match r with
    | Ok _ => beside PasswordsCollection sp sp' ∧ all_hashed sp'
    | Err _ => True end).
Proof.
  assert (∀ o (x y : objects), (∀ k, y !! (o, PasswordsCollection, k) = x !! (o, PasswordsCollection, k)) → hashed o x → hashed o y) as Hsame.
  { intros o x y E Hx name v. rewrite E. apply Hx. }
  apply ens_bind. eapply ens_conseq; [apply ens_upgrade_scope|]. intros [[]|e] sp1; [|done]. intros (Hb1 & Hg & _).
  eapply ens_conseq; [apply (ens_in_each_org _ PasswordsCollection hashed); [|done]|].
  - intros org sp0. apply ens_upgrade_scope.
  - intros [[]|e] sp'; [|done]. intros (Hb & Hin & Hout). split; [by eapply beside_trans|]. split.
    + destruct (decide (Global ∈ s_orgs sp1)) as [Hi|Hi]; [by apply Hin|]. eapply Hsame; [by apply Hout|done].
    + intros org Ho. apply Hin. by rewrite <-(proj1 Hb).
Qed.

Lemma ens_upgradePasswords_hashed (sp : space) : all_hashed sp →
  ensures (B := B) (O := O) (upgradePasswords iter ent) sp (λ _ sp', unchanged sp sp').
Proof.
  intros [Hg Hall]. apply ens_bind. eapply ens_conseq; [by apply ens_upgrade_scope_hashed|]. intros [[]|e] sp1 [Ho Hk]; [|done].
  eapply ens_conseq; [apply ens_in_each_unchanged|].
  - intros org sp0 Hin [Ho0 Hk0]. eapply ens_conseq; [apply ens_upgrade_scope_hashed; rewrite Hk0, Hk; apply Hall; congruence|].
    intros r sp' [Ho' Hk']. split; congruence.
  - intros r sp' [Ho' Hk']. split; congruence.
Qed.
End Restart.

(** ** A start and a restart *)

Section Start.
Context {K : Type} `{PrivateX509Spec K} `{PBKDF2Spec} {B : Type} `{BackendSpec B} {O : Type}.

(** What a start that answered [out] leaves: each key it goes on with is in the
    store, and the upgrades have nothing left to do. *)
Definition key_kept (o : Options) (out : credentials_ K) (objs : objects) : Prop :=
  stored_key objs serverKeyAdmin = Some (adminKey out) ∧
  ∀ name, if decide (name ∈ Orgs o)
          then ∃ key, stored_key objs (serverKeyValidator name) = Some key ∧ validatorKeys out !! name = Some (EncodePrivateKeyPEM key)
          else validatorKeys out !! name = None.
Definition webui_of (o : Options) (admin : K) : result PublicKey :=
  if decide (WebUIKey o ≠ "") then parseWebUIKey (WebUIKey o) else Ok (public_half admin).
Definition acls_current (sp : space) : Prop := ∀ org, org ∈ s_orgs sp → acl_current org (s_objs sp).
Definition settled (o : Options) (out : credentials_ K) (sp : space) : Prop :=
  key_kept o out (s_objs sp) ∧ webui_of o (adminKey out) = Ok (webui_key out) ∧ acls_current sp ∧ all_hashed sp.

Lemma key_kept_same (o : Options) (out : credentials_ K) (x y : objects) :
  (∀ n, y !! (Global, serverKeysColl, n) = x !! (Global, serverKeysColl, n)) → key_kept o out x → key_kept o out y.
Proof.
  intros E [Ha Hv]. split; [by rewrite (stored_key_same x y)|]. intros name. specialize (Hv name). case_decide; [|done].
  by rewrite (stored_key_same x y).
Qed.

(** The webui key of the start. *)
Lemma ens_webui (o : Options) (admin : K) (sp : space) (Q : result PublicKey → space → Prop) :
  (∀ pub, webui_of o admin = Ok pub → Q (Ok pub) sp) → (∀ e, Q (Err e) sp) → ensures (B := B) (O := O) (webui o admin) sp Q.
Proof.
  intros HO HE. unfold webui, webui_of in *. case_decide; [|by apply ens_ret, HO]. apply ens_wrapping, ens_of_result.
  destruct (parseWebUIKey _); [by apply HO|done].
Qed.

(** The admin's key, loaded or made, is in the store; nothing else of the keys
    has changed. *)
Lemma ens_admin (o : Options) (admin : option K) (key : K) (sp : space) (Q : result unit → space → Prop) :
  match admin with Some k => k = key ∧ stored_key (s_objs sp) serverKeyAdmin = Some key | None => True end →
  (∀ sp', stored_key (s_objs sp') serverKeyAdmin = Some key →
     (∀ n, n ≠ serverKeyAdmin → s_objs sp' !! (Global, serverKeysColl, n) = s_objs sp !! (Global, serverKeysColl, n)) → Q (Ok tt) sp') →
  (∀ e sp', Q (Err e) sp') →
  ensures (B := B) (O := O) (match admin with None => create_admin (AdminName o) key | Some _ => st_ret tt end) sp Q.
Proof.
  intros Ha HO HE. destruct admin as [k|]; [destruct Ha as [-> Ha]; by apply ens_ret, HO|].
  apply ens_bind, ens_of_result. destruct (EncodePublicKeyPEM _) as [pub|e]; [|apply HE].
  apply ens_bind, ens_Put; [|by auto]. apply ens_Put; [|by auto]. apply HO.
  - by rewrite s_objs_put, stored_key_put, decide_True.
  - intros n Hn. rewrite s_objs_put, lookup_insert_ne by congruence. rewrite s_objs_put. by apply lookup_insert_ne.
Qed.

(** The plans with a key of their own have it in the store, and plans of one
    name agree. *)
Lemma planned_flags (objs : objects) (ps : list (string * K * bool)) :
  Forall (λ p, planned objs (p.1.1, if p.2 : bool then None else Some p.1.2)) ps →
  Forall (λ p, p.2 = false → stored_key objs (serverKeyValidator p.1.1) = Some p.1.2) ps ∧
  (∀ p q, p ∈ ps → q ∈ ps → p.1.1 = q.1.1 → p.2 = q.2).
Proof.
  intros Hall. rewrite Forall_forall in Hall. split.
  - apply Forall_forall. intros [[n k] f] Hp Ef. specialize (Hall _ Hp). cbn in *. by subst f.
  - intros [[n k] f] [[n' k'] f'] Hp Hq E. pose proof (Hall _ Hp) as H1'. pose proof (Hall _ Hq) as H2'. cbn in *. subst n'.
    destruct f, f'; try done; unfold planned, stored_key in *; cbn in *; by rewrite ?H1', ?H2' in *.
Qed.

Lemma planned_same (x y : objects) (p : string * option K) :
  y !! (Global, serverKeysColl, serverKeyValidator p.1) = x !! (Global, serverKeysColl, serverKeyValidator p.1) → planned x p → planned y p.
Proof. intros E. unfold planned, stored_key. by rewrite E. Qed.

Section Runs.
Context (o : Options) (iter : Z) (ent : entropy K).
Hypothesis Hiter : (1 ≤ iter ≤ maxPasswordIterations)%Z.
Hypothesis Hsalts : ∀ org name, password_salts ent org name ≠ "".
Hypothesis Horder : ∀ l, map_order ent l ≡ₚ l.

Lemma ens_bootstrap_with (admin : option K) (sp : space) :
  match admin with Some k => stored_key (s_objs sp) serverKeyAdmin = Some k | None => True end →
  ensures (B := B) (O := O) (bootstrap_with o iter ent admin) sp (λ r sp', match r with Ok out => settled o out sp' | Err _ => True end).
Proof.
  intros Hadmin. apply ens_bind, ens_load_plans; [|done]. intros plans Hnames Hplans.
  apply ens_bind, ens_of_result. destruct (generateKeys _ _) as [gen|]; [|done].
  destruct (admin_key admin gen) as [[key gen']|] eqn:Ekey; [|by intros s <-].
  destruct (assign_keys plans gen') as [ps|] eqn:Eps; [|by intros s <-].
  destruct (assign_keys_planned _ _ _ _ Eps Hplans) as [Eps1 Hps].
  apply ens_bind, (ens_admin o admin key); [|intros sp1 Hk1 Hf1|done].
  { destruct admin as [k|]; [|done]. cbn in Ekey. by simplify_eq. }
  assert (Forall (λ p, planned (s_objs sp1) (p.1.1, if p.2 : bool then None else Some p.1.2)) ps) as Hps1.
  { eapply Forall_impl; [exact Hps|]. intros p. apply planned_same, Hf1. done. }
  destruct (planned_flags _ _ Hps1) as [Hown Hflags].
  apply ens_bind, ens_webui; [|done]. intros pub Hpub. apply ens_bind.
  eapply ens_conseq; [by apply ens_bootstrap_orgs|]. intros [keys|e] sp2; [|done]. intros [Hf2 Hk2].
  apply ens_bind. eapply ens_conseq; [apply ens_upgradeOrgACLs|]. intros [[]|e] sp3; [|done]. intros [[Ho3 Hf3] Hacl].
  apply ens_bind. eapply ens_conseq; [by apply ens_upgradePasswords|]. intros [[]|e] sp4; [|done]. intros [[Ho4 Hf4] Hhash].
  apply ens_ret. split_and!; [|done| |done].
  - apply (key_kept_same _ _ (s_objs sp2)); [intros n; by rewrite Hf4, Hf3|]. split.
    + transitivity (stored_key (K := K) (s_objs sp1) serverKeyAdmin); [|exact Hk1]. apply stored_key_same, Hf2. done.
    + intros name. specialize (Hk2 name). by rewrite Eps1, Hnames in Hk2.
  - intros org Ho. unfold acl_current, clients_acl. rewrite Hf4 by done. apply Hacl. congruence.
Qed.

Lemma ens_bootstrap (sp : space) :
  ensures (B := B) (O := O) (bootstrap o iter ent) sp (λ r sp', match r with Ok out => settled o out sp' | Err _ => True end).
Proof. apply ens_bind, ens_loadServerKey; [intros _|intros key Hk|done]; by apply ens_bootstrap_with. Qed.

(** A loop over plans that all have their key writes nothing. *)
Lemma ens_bootstrap_orgs_kept (ps : list (string * K * bool)) (acc : gmap string string) (sp : space) (Q : result (gmap string string) → space → Prop) :
  Forall (λ p, p.2 = false) ps →
  (∀ keys, (∀ name, if decide (name ∈ map (λ p, p.1.1) ps)
                    then ∃ p, p ∈ ps ∧ p.1.1 = name ∧ keys !! name = Some (EncodePrivateKeyPEM p.1.2) else keys !! name = acc !! name) →
     Q (Ok keys) sp) →
  ensures (B := B) (O := O) (bootstrap_orgs ent ps acc) sp Q.
Proof.
  revert acc. induction ps as [|[[name key] fresh] ps IH]; intros acc Hall HQ; cbn [bootstrap_orgs].
  { apply ens_ret, HQ. intros n. by rewrite decide_False by (apply not_elem_of_nil). }
  apply Forall_cons in Hall as [Hf Hall]. cbn in Hf. subst fresh. apply IH; [done|]. intros keys Hk. apply HQ. intros n. specialize (Hk n).
  destruct (decide (n ∈ map (λ p, p.1.1) ps)) as [Hin|Hin].
  - rewrite decide_True by (by right). destruct Hk as (p & Hp & Hk). exists p. split; [by right|done].
  - destruct (decide (n = name)) as [->|Hne].
    + rewrite decide_True by (by left). rewrite lookup_insert_eq in Hk. exists (name, key, false). split; [by left|done].
    + rewrite decide_False by (intros [?|?]%elem_of_cons; done). by rewrite lookup_insert_ne in Hk.
Qed.

Lemma assign_keys_kept (plans : list (string * option K)) (gen : list K) : Forall (λ p, p.2 ≠ None) plans →
  ∃ ps, assign_keys plans gen = Some ps ∧ Forall (λ p, p.2 = false) ps.
Proof.
  induction plans as [|[name [key|]] plans IH]; intros Hall; cbn [assign_keys]; [by exists []| |by apply Forall_cons in Hall as [? _]].
  apply Forall_cons in Hall as [_ Hall]. destruct (IH Hall) as (ps & -> & Hps). eexists. split; [done|by constructor].
Qed.

(** The keys a restart reads are the ones the start answered. *)
Lemma kept_keys (out : credentials_ K) (objs : objects) (ps : list (string * K * bool)) (keys : gmap string string) :
  key_kept o out objs → map (λ p, p.1.1) ps = Orgs o → Forall (λ p, p.2 = false) ps →
  Forall (λ p, planned objs (p.1.1, if p.2 : bool then None else Some p.1.2)) ps →
  (∀ name, if decide (name ∈ map (λ p, p.1.1) ps)
           then ∃ p, p ∈ ps ∧ p.1.1 = name ∧ keys !! name = Some (EncodePrivateKeyPEM p.1.2)
           else keys !! name = (∅ : gmap string string) !! name) →
  keys = validatorKeys out.
Proof.
  intros [_ Hout] Enames Hf Hall Hk. apply map_eq. intros name. specialize (Hk name). specialize (Hout name). rewrite Enames in Hk.
  destruct (decide (name ∈ Orgs o)); [|by rewrite Hk, Hout, lookup_empty].
  destruct Hk as (p & Hp & <- & ->), Hout as (key & Hs & ->). rewrite Forall_forall in Hf, Hall. specialize (Hall p Hp). rewrite (Hf p Hp) in Hall.
  unfold planned in Hall. cbn [fst snd] in Hall. rewrite Hs in Hall. by injection Hall as ->.
Qed.

Lemma ens_restart (out : credentials_ K) (sp : space) : settled o out sp →
  ensures (B := B) (O := O) (bootstrap o iter ent) sp (λ r sp', unchanged sp sp' ∧ (r = Ok out ∨ is_Ok r = false)).
Proof.
  intros (Hkept & Hwebui & Hacls & Hhash). pose proof Hkept as [Hadmin Hvals].
  apply ens_bind, ens_loadServerKey; [intros Hn|intros key Hk|by split; [|right]].
  { unfold stored_key in Hadmin. by rewrite Hn in Hadmin. }
  assert (key = adminKey out) as -> by congruence.
  apply ens_bind, ens_load_plans; [|by split; [|right]]. intros plans Hnames Hplans.
  apply ens_bind, ens_of_result. destruct (generateKeys _ _) as [gen|]; [|by split; [|right]]. cbn [admin_key].
  destruct (assign_keys_kept plans gen) as (ps & Eps & Hflags).
  { rewrite Forall_forall in Hplans |- *. intros [name key] Hp. specialize (Hplans _ Hp). destruct key as [key|]; [by cbn|]. specialize (Hvals name).
    rewrite decide_True in Hvals by (rewrite <-Hnames; apply list_elem_of_fmap; by exists (name, None)). destruct Hvals as (key & Hs & _).
    unfold planned in Hplans. cbn [fst snd] in Hplans. unfold stored_key in Hs. by rewrite Hplans in Hs. }
  rewrite Eps. destruct (assign_keys_planned _ _ _ _ Eps Hplans) as [Enames Hps].
  apply ens_bind, ens_ret, ens_bind, ens_webui; [|by split; [|right]]. intros pub Hpub.
  apply ens_bind, ens_bootstrap_orgs_kept; [done|]. intros keys Hkeys.
  assert (keys = validatorKeys out) as -> by (eapply kept_keys; [done|by rewrite Enames, Hnames|done..]).
  apply ens_bind. eapply ens_conseq; [by apply ens_upgradeOrgACLs_current|]. intros [[]|e] sp1 [Ho1 Hk1]; [|by split; [|right]].
  apply ens_bind. eapply ens_conseq; [apply ens_upgradePasswords_hashed; [done..|]|].
  { unfold all_hashed. by rewrite Ho1, Hk1. }
  intros r sp2 [Ho2 Hk2]. assert (unchanged sp sp2) as Hu by (split; congruence). destruct r; [|by split; [|right]].
  apply ens_ret. split; [done|left]. destruct out. cbn in *. congruence.
Qed.
End Runs.

End Start.

(** ** Samples *)

(** A key is its own encoding. *)
#[local] Instance toy_x509 : X509 := {|
  pem_Decode := λ s, if String.prefix "RSA PRIVATE KEY|" s then Some ("RSA PRIVATE KEY", str_drop 16 s) else None;
  ParsePKIXPublicKey := λ _, Ok None;
  ParsePKCS1PublicKey := λ _, Err (ErrOther "x509: not a key");
|}.
#[local] Instance toy_private : PrivateX509 string := {|
  pem_EncodeToMemory := λ typ bytes, typ +:+ "|" +:+ bytes;
  ParsePKCS1PrivateKey := λ bytes, Ok bytes;
  ParsePKCS8PrivateKey := λ _, Ok None;
  MarshalPKCS1PrivateKey := λ k, k;
  MarshalPKIXPublicKey := λ _, Ok "public";
  public_half := λ k, mkPublicKey (Z.of_nat (String.length k)) 3;
|}.
#[local] Instance toy_private_spec : PrivateX509Spec string.
Proof.
  split; [|done]. intros bytes. change (pem_Decode (pem_EncodeToMemory "RSA PRIVATE KEY" bytes)) with
    (if String.prefix "" bytes then Some ("RSA PRIVATE KEY", bytes) else None). by destruct bytes.
Qed.
#[local] Existing Instance toy_pbkdf2.
#[local] Existing Instance toy_pbkdf2_spec.

Definition no_options : Options := mkOptions "" [] "" false false 0 "" "" "" 0 "" "" false "" "" "" "" "".
Definition sample_options : Options := {|
  Addr := ""; Orgs := ["acme"; "globex"]; AdminName := AdminName (withDefaults no_options); DisableAuth := false; EnforceACL := true; SkewSeconds := 900;
  Repo := ""; StatePath := ""; WebUIKey := ""; MaxBodyBytes := -1; Storage := "memory"; DB := ""; SQLiteGroupCommit := false;
  StatsUser := ""; StatsPassword := ""; ExternalURL := ""; TLSCertFile := ""; TLSKeyFile := "";
|}.
(** The zero options make an ephemeral server with one organization. *)
Example zero_options :
  let o := withDefaults no_options in
  (options_error o, buildStore o, Orgs o, AdminName o, SkewSeconds o, MaxBodyBytes o) = (None, Ok MemoryStorage, ["acme"], "pivotal", 900%Z, (1024 ^ 3)%Z).
Proof. reflexivity. Qed.
Definition drawing (keys : list string) : entropy string :=
  mkEntropy (λ n, Ok (take n keys)) (λ name, inl name) (λ org name, "salt" +:+ name) id.

(** A start that stops between making an organization and keeping its validator's
    key leaves a store no start succeeds on: the organization is there, and the
    next start, which finds no key, makes it again. Only there: stopped at any
    other write, the next start succeeds. *)
Definition stopped_at (n : nat) : string * string :=
  let s : Store (Faulty.faulty Memory.memoryBackend) unit := (Faulty.mkFaulty Memory.NewMemoryBackend (replicate n false ++ [true]), (NewWithBackend tt tt).2) in
  let '(r, s1) := bootstrap sample_options 2 (drawing ["A"; "B"; "C"]) s in
  let text (r : result (credentials_ string)) := match r with Ok _ => "" | Err e => error_text e end in
  (text r, text (bootstrap sample_options 2 (drawing ["D"; "E"; "F"]) s1).1).
Definition taken (org : string) : string := "create org " +:+ go_quote org +:+ ": store: already exists".
Example interrupted_start_stays_down :
  stopped_at 46 = ("backend fault", taken "acme") ∧ filter (λ n, (stopped_at n).2 ≠ "") (seq 0 100) = [46; 88].
Proof. vm_compute. split; reflexivity. Qed.

(** So does configuring an organization that was made through the API. *)
Example configured_after_created :
  (bootstrap sample_options 2 (drawing ["A"; "B"; "C"]) (run_org_calls [create_call "acme"] empty_server).2).1 =
  Err (ErrOther (taken "acme")).
Proof. vm_compute. reflexivity. Qed.

(** A configured organization deleted through the API is not made again: the start
    answers the key of a validator that is gone. *)
Example deleted_stays_deleted :
  let s := (run_org_calls [DeleteOrgCall "acme"] (bootstrap sample_options 2 (drawing ["A"; "B"; "C"]) empty_server).2).2 in
  let '(r, s2) := bootstrap sample_options 2 (drawing ["D"; "E"; "F"]) s in
  (match r with Ok out => validatorKeys out !! "acme" | Err _ => None end, base.elements (s_orgs (view s2.1))) =
  (Some "RSA PRIVATE KEY|B", ["globex"]).
Proof. vm_compute. reflexivity. Qed.
