(* ===== verification/Import.v ===== *)
(** * Loading from disk (internal/repo/repo.go, internal/repo/cookbooks.go, internal/state/state.go)

    Reading a chef-repo into an organization and a state directory into a server.
    The file system is a parameter; a path is the list of its names. *)
From stdpp Require Import pretty.
From S2P Require Import Prelude GoText Json Chefjson Float GoJson Normalize Stored Store Facade Runlist Groups Http Effects Acl AclDocs GroupApi SearchFilter Presign Objects GoMarshal Manifest Cookbooks Blobs Environments DataBags Records Passwords Keys Associations RunSearch Organizations Bootstrap.
#[local] Open Scope go_scope.

(** What the disk holds. [None]: there is no such file or directory. Entries come
    in the order of their names, with whether they are directories; a walk is
    the calls of its callback, in order: a directory, a file, or an error. *)
Class FileSystem := {
  ReadDir : list string → option (result (list (string * bool)));
  ReadFile : list string → option (result string);
  WalkDir : list string → list (list string * result bool);
}.

Definition path_text (p : list string) : string := join "/" p.
Definition at_path {A} (p : list string) (r : result A) : result A :=
  match r with Err e => Err (ErrOther (path_text p +:+ ": " +:+ error_text e)) | Ok a => Ok a end.
Definition not_exist (p : list string) : gerror := ErrOther ("open " +:+ path_text p +:+ ": no such file or directory").

Section Files.
Context `{FileSystem}.

Definition jsonFiles (dir : list string) : result (list (list string)) :=
  match ReadDir dir with
  | None => Ok []
  | Some (Err e) => Err e
  | Some (Ok entries) =>
      Ok (map (λ e, dir ++ [e.1]) (filter (λ e, e.2 = false ∧ has_suffix ".json" e.1 = true) entries))
  end.

Definition subdirs (dir : list string) : result (list string) :=
  match ReadDir dir with
  | None => Ok []
  | Some (Err e) => Err e
  | Some (Ok entries) => Ok (map fst (filter (λ e, e.2 = true) entries))
  end.

Definition read_file (path : list string) : result string :=
  match ReadFile path with None => Err (not_exist path) | Some r => r end.

(** The object and the form it is stored in. *)
Definition readObject (path : list string) : result (obj * string) :=
  match read_file path with
  | Err e => Err e
  | Ok data =>
      match at_path path (Normalize.Normalize data) with
      | Err e => Err e
      | Ok raw => match at_path path (DecodeObject raw) with Err e => Err e | Ok o => Ok (o, raw) end
      end
  end.

(** The files read end in [.json]. *)
Definition objectKey (o : obj) (nameField : string) (path : list string) : string :=
  match assoc o nameField with
  | Some (VStr name) => if decide (name ≠ "") then name else trim_suffix ".json" (List.last path "")
  | _ => trim_suffix ".json" (List.last path "")
  end.
End Files.

(** [json.Marshal] and then the stored form. *)
Definition canonicalize (o : obj) : string :=
  match Normalize.Normalize (json_Marshal (VObj o)) with Ok raw => raw | Err _ => json_Marshal (VObj o) end.

(** ** metadata.rb *)

Definition re_space (c : ascii) : bool := bool_decide (byte_of c ∈ [9; 10; 12; 13; 32])%Z.
Fixpoint skip_space (s : string) : string :=
  match s with String c s' => if re_space c then skip_space s' else s | EmptyString => "" end.
Definition quote_mark (c : ascii) : bool := bool_decide (c = quote ∨ c = "'"%char).

(** One or more characters up to a quote, and what follows it. *)
Fixpoint upto_quote (s : string) : option (string * string) :=
  match s with
  | EmptyString => None
  | String c s' => if quote_mark c then Some ("", s') else (λ r, (String c r.1, r.2)) <$> upto_quote s'
  end.
Definition quoted (s : string) : option (string * string) :=
  match s with
  | String q s' => if quote_mark q then match upto_quote s' with Some (EmptyString, _) => None | r => r end else None
  | EmptyString => None
  end.

(** A line that gives [word] a quoted value. *)
Definition field_at (word s : string) : option (string * string) :=
  match cut_prefix word (skip_space s) with
  | Some (String c rest) => if re_space c then quoted (skip_space (String c rest)) else None
  | _ => None
  end.
(** [FindStringSubmatch]: the first line that does; [bol]: at its start. *)
Fixpoint find_field (word : string) (bol : bool) (s : string) : option string :=
  match (if bol then field_at word s else None) with
  | Some (v, _) => Some v
  | None => match s with EmptyString => None | String c s' => find_field word (bool_decide (c = chr 10)) s' end
  end.

(** A dependency, with its constraint if it has one. *)
Definition depends_at (s : string) : option (string * string * string) :=
  match field_at "depends" s with
  | None => None
  | Some (name, rest) =>
      let rest := skip_space rest in
      match rest with
      | String c rest' =>
          if decide (c = ","%char) then
            match quoted (skip_space rest') with Some (v, end_) => Some (name, v, end_) | None => Some (name, "", rest) end
          else Some (name, "", rest)
      | EmptyString => Some (name, "", rest)
      end
  end.
(** Whether what is left of [s] starts a line. *)
Definition starts_line (s rest : string) : bool :=
  match String.get (String.length s - String.length rest - 1) s with Some c => bool_decide (c = chr 10) | None => true end.
(** [FindAllStringSubmatch]: the matches do not overlap. *)
Fixpoint all_depends (fuel : nat) (bol : bool) (s : string) : list (string * string) :=
  match fuel with
  | O => []
  | S fuel =>
      match (if bol then depends_at s else None) with
      | Some (name, v, rest) => (name, v) :: all_depends fuel (starts_line s rest) rest
      | None => match s with EmptyString => [] | String c s' => all_depends fuel (bool_decide (c = chr 10)) s' end
      end
  end.

(** Its dependencies, and each of the other fields. *)
Definition metadata_rb (word : string) (s : string) : option string := find_field word true s.
Definition metadata_depends (s : string) : list (string * string) := all_depends (S (String.length s)) true s.

(** ** Cookbook metadata *)

Definition defaultCookbookVersion : string := "0.0.0".

Record cookbookMetadata := mkMeta {
  m_name : string; m_version : string; m_license : string; m_description : string; m_maintainer : string;
  m_maintainerEmail : string; m_sourceURL : string; m_issuesURL : string; m_dependencies : gmap string string;
}.

(** The struct metadata.json is decoded into: its strings by name, and its
    dependencies, [None] for the nil map. *)
Definition metadata_strings : list string :=
  ["name"; "version"; "license"; "description"; "maintainer"; "maintainer_email"; "source_url"; "issues_url"].
Record parsedMetadata := mkParsed { p_strings : gmap string string; p_deps : option (gmap string string) }.
Definition p_string (p : parsedMetadata) (field : string) : string := default "" (p_strings p !! field).

(** A null element of a map is the zero value. *)
Fixpoint fill_deps (old : gmap string string) (ms : obj) : option (gmap string string) :=
  match ms with
  | [] => Some old
  | (k, VStr s) :: ms => fill_deps (<[k := s]> old) ms
  | (k, VNull) :: ms => fill_deps (<[k := ""]> old) ms
  | _ => None
  end.
Definition metadata_field (p : parsedMetadata) (name : string) (v : value) : option parsedMetadata :=
  let f := fold_name name in
  if decide (f ∈ metadata_strings) then
    match v with
    | VStr s => Some (mkParsed (<[f := s]> (p_strings p)) (p_deps p))
    | VNull => Some p
    | _ => None
    end
  else if decide (f = "dependencies") then
    match v with
    | VNull => Some (mkParsed (p_strings p) None)
    | VObj ms => (λ m, mkParsed (p_strings p) (Some m)) <$> fill_deps (default ∅ (p_deps p)) ms
    | _ => None
    end
  else Some p.

(** The text of the decoder's error is left out. *)
Definition unmarshal_metadata (data : string) : result parsedMetadata :=
  match decode false data ≫= decode_struct metadata_field (mkParsed ∅ None) with
  | Some p => Ok p
  | None => Err (ErrOther "json: cannot unmarshal metadata.json")
  end.

Definition or_default (s def : string) : string := if decide (s = "") then def else s.

Section Metadata.
Context `{Unicode} `{FileSystem}.

Definition readable (path : list string) : option string :=
  match ReadFile path with Some (Ok data) => Some data | _ => None end.

Definition readCookbookMetadata (cbDir : list string) (dirName : string) : result cookbookMetadata :=
  match readable (cbDir ++ ["metadata.json"]) with
  | Some data =>
      match unmarshal_metadata data with
      | Err e => Err e
      | Ok p => Ok (mkMeta (or_default (p_string p "name") dirName) (or_default (p_string p "version") defaultCookbookVersion)
                      (p_string p "license") (p_string p "description") (p_string p "maintainer") (p_string p "maintainer_email")
                      (p_string p "source_url") (p_string p "issues_url") (default ∅ (p_deps p)))
      end
  | None =>
      match readable (cbDir ++ ["metadata.rb"]) with
      | Some text =>
          let field word def := default def (metadata_rb word text) in
          Ok (mkMeta (field "name" dirName) (field "version" defaultCookbookVersion) (field "license" "") (field "description" "")
                (field "maintainer" "") (field "maintainer_email" "") (field "source_url" "") (field "issues_url" "")
                (foldl (λ deps d, <[d.1 := TrimSpace d.2]> deps) ∅ (metadata_depends text)))
      | None => Ok (mkMeta dirName defaultCookbookVersion "" "" "" "" "" "" ∅)
      end
  end.
End Metadata.

Definition file_entry (rel checksum : string) : value :=
  VObj [("name", VStr rel); ("path", VStr rel); ("checksum", VStr checksum); ("specificity", VStr "default")].
Definition metadata_doc (meta : cookbookMetadata) : value :=
  VObj [("name", VStr (m_name meta)); ("version", VStr (m_version meta)); ("license", VStr (m_license meta));
        ("description", VStr (m_description meta)); ("maintainer", VStr (m_maintainer meta));
        ("maintainer_email", VStr (m_maintainerEmail meta)); ("source_url", VStr (m_sourceURL meta));
        ("issues_url", VStr (m_issuesURL meta));
        ("dependencies", VObj (map (λ d, (d.1, VStr d.2)) (map_to_list (m_dependencies meta))))].
Definition manifest_doc (meta : cookbookMetadata) (allFiles : list value) : obj :=
  [("name", VStr (m_name meta +:+ "-" +:+ m_version meta)); ("cookbook_name", VStr (m_name meta)); ("version", VStr (m_version meta));
   ("chef_type", VStr "cookbook_version"); ("json_class", VStr "Chef::CookbookVersion"); ("all_files", VArr allFiles);
   ("metadata", metadata_doc meta)].

(** ** Loading a chef-repo (repo.go) *)

(** [n > 0]: the counts of a summary. *)
Abbreviation counts_ := (gmap string nat).
Definition counted (key : string) (n : nat) (sum : counts_) : counts_ :=
  if decide (0 < n) then <[key := n]> sum else sum.

Definition objectDirs : list (string * string * string) :=
  [("nodes", "nodes", "name"); ("roles", "roles", "name"); ("environments", "environments", "name");
   ("clients", "clients", "name"); ("policy_groups", "policy_groups", "name")].

Section Repo.
Context `{Unicode} `{MD5} `{GoQuote} `{FileSystem} {B : Type} `{Backend B} {O : Type}.
Abbreviation st := (Store B O).

(** The switch on the collection. *)
Definition stored_form (collection raw : string) : result string :=
  if decide (collection = "nodes") then NormalizeNode raw
  else if decide (collection = "roles") then NormalizeRole raw
  else Ok raw.

Definition loadObject (org collection nameField : string) (path : list string) : ST st unit :=
  let! '(o, raw) := of_result (readObject path) in
  let! raw := of_result (at_path path (stored_form collection raw)) in
  Org_Put org collection (objectKey o nameField path) raw.
Definition loadObjects (org : string) (dir : list string) (collection nameField : string) : ST st nat :=
  let! entries := of_result (jsonFiles dir) in
  st_each (loadObject org collection nameField) entries ;;!
  st_ret (length entries).

Definition loadPolicy (org : string) (path : list string) : ST st unit :=
  let! '(o, raw) := of_result (readObject path) in
  let name := str (assoc o "name") in
  let rev := str (assoc o "revision_id") in
  if decide (name = "" ∨ rev = "") then
    st_fail (ErrOther (path_text path +:+ ": policy lock needs both " +:+ go_quote "name" +:+ " and " +:+ go_quote "revision_id"))
  else Org_Put org (policyRevColl name) rev raw.
Definition loadPolicies (org : string) (dir : list string) : ST st nat :=
  let! entries := of_result (jsonFiles dir) in
  st_each (loadPolicy org) entries ;;!
  st_ret (length entries).

Definition loadItem (org bag : string) (path : list string) : ST st unit :=
  let! '(o, raw) := of_result (readObject path) in
  Org_Put org (dataBagItemsColl bag) (objectKey o "id" path) raw.
(** The counts of bags and items are summed on the way. *)
Fixpoint loadBags (org : string) (dir : list string) (bags : list string) : ST st (nat * nat) :=
  match bags with
  | [] => st_ret (0, 0)
  | bag :: rest =>
      Org_Put org dataBagsColl bag ("{" +:+ go_quote "name" +:+ ":" +:+ strconv_Quote bag +:+ "}") ;;!
      let! files := of_result (jsonFiles (dir ++ [bag])) in
      st_each (loadItem org bag) files ;;!
      let! '(n, items) := loadBags org dir rest in
      st_ret (S n, length files + items)
  end.
Definition loadDataBags (org : string) (dir : list string) : ST st (nat * nat) :=
  let! bags := of_result (subdirs dir) in loadBags org dir bags.

(** The walk over the files of a cookbook, which are stored by their checksum. *)
Fixpoint loadFiles (org : string) (cbDir : list string) (visits : list (list string * result bool)) : ST st (list value) :=
  match visits with
  | [] => st_ret []
  | (_, Err e) :: _ => st_fail e
  | (_, Ok true) :: rest => loadFiles org cbDir rest
  | (path, Ok false) :: rest =>
      let! content := of_result (read_file path) in
      let rel := join "/" (drop (length cbDir) path) in
      let checksum := hex_encode (md5_sum content) in
      Org_PutBlob org checksum content ;;!
      let! files := loadFiles org cbDir rest in
      st_ret (file_entry rel checksum :: files)
  end.
Definition loadCookbook (org : string) (cbDir : list string) (dirName : string) : ST st unit :=
  let! meta := of_result (readCookbookMetadata cbDir dirName) in
  let! allFiles := loadFiles org cbDir (WalkDir cbDir) in
  Org_Put org "cookbooks" (cookbookKey (m_name meta) (m_version meta)) (canonicalize (manifest_doc meta allFiles)).
Definition loadCookbooks (org : string) (dir : list string) : ST st nat :=
  let! names := of_result (subdirs dir) in
  st_each (λ name, loadCookbook org (dir ++ [name]) name) names ;;!
  st_ret (length names).

Fixpoint loadDirs (org : string) (root : list string) (dirs : list (string * string * string)) (sum : counts_) : ST st counts_ :=
  match dirs with
  | [] => st_ret sum
  | (dir, collection, nameField) :: rest =>
      let! n := loadObjects org (root ++ [dir]) collection nameField in
      loadDirs org root rest (counted collection (default 0 (sum !! collection) + n) sum)
  end.
Definition Repo_Load (org : string) (root : list string) : ST st counts_ :=
  let! sum := loadDirs org root objectDirs ∅ in
  let! revisions := loadPolicies org (root ++ ["policies"]) in
  let sum := counted "policy_revisions" revisions sum in
  let! '(bags, items) := loadDataBags org (root ++ [dataBagsColl]) in
  let sum := if decide (0 < bags) then <["data_bag_items" := items]> (<["data_bags" := bags]> sum) else sum in
  let! cookbooks := loadCookbooks org (root ++ ["cookbooks"]) in
  st_ret (counted "cookbooks" cookbooks sum).
End Repo.

(** ** Loading a whole server (state.go) *)

(** The same files, in the order of their names. *)
Definition sorted_jsonFiles `{FileSystem} (dir : list string) : result (list (list string)) :=
  match ReadDir dir with
  | None => Ok []
  | Some (Err e) => Err e
  | Some (Ok entries) =>
      Ok (map (λ n, dir ++ [n]) (sort_strings (map fst (filter (λ e, e.2 = false ∧ has_suffix ".json" e.1 = true) entries))))
  end.
Definition sorted_subdirs `{FileSystem} (dir : list string) : result (list string) :=
  match subdirs dir with Ok names => Ok (sort_strings names) | Err e => Err e end.

Record memberObject := mkMember { mo_username : string; mo_user : string }.
Definition member_field (m : memberObject) (name : string) (v : value) : option memberObject :=
  if decide (fold_name name = "username") then (λ s, mkMember s (mo_user m)) <$> string_field "username" (mo_username m) name v
  else if decide (fold_name name = "user") then
    mkMember (mo_username m) <$> decode_struct (λ old name v, string_field "username" old name v) (mo_user m) v
  else Some m.
Definition memberName (item : value) : string :=
  match item with
  | VStr s => s
  | VNull => ""
  | _ =>
      match decode_struct member_field (mkMember "" "") item with
      | Some m => or_default (mo_username m) (mo_user m)
      | None => ""
      end
  end.
(** The elements of the file; null is no element. *)
Definition unmarshal_members (data : string) : option (list value) :=
  match decode false data with Some (VArr l) => Some l | Some VNull => Some [] | _ => None end.

Record OrgSummary := mkOrgSummary { o_counts : gmap string nat; o_groups : nat }.
Record Summary := mkSummary { sm_users : nat; sm_orgs : gmap string OrgSummary }.

Section State.
Context `{Unicode} `{MD5} `{GoQuote} `{PBKDF2} `{FileSystem} {B : Type} `{Backend B} {O : Type}.
Abbreviation st := (Store B O).

(** What the random source gives: a salt for each user file, an identifier and a
    key pair for each organization. *)
Record entropy := mkEntropy {
  e_salt : list string → result string;
  e_guid : string → string + string;
  e_pair : string → (string * string) + string;
}.
Context (iter : Z) (rnd : entropy).

Definition loadGlobalUser (path : list string) : ST st unit :=
  let! '(o, raw) := of_result (readObject path) in
  let name := objectKey o "username" path in
  let! o' := StashPassword iter (e_salt rnd path) Global name o in
  Org_Put Global "users" name (match assoc o "password" with Some (VStr _) => json_Marshal (VObj o') | _ => raw end).
Definition loadGlobalUsers (dir : list string) : ST st nat :=
  let! files := of_result (sorted_jsonFiles dir) in
  st_each loadGlobalUser files ;;!
  st_ret (length files).

Definition loadGroup (org : string) (path : list string) : ST st unit :=
  let! '(o, raw) := of_result (readObject path) in
  Org_Put org "groups" (objectKey o "groupname" path) raw.
Definition loadGroups (org : string) (dir : list string) : ST st nat :=
  let! files := of_result (sorted_jsonFiles dir) in
  st_each (loadGroup org) files ;;!
  st_ret (length files).

Definition loadMember (org : string) (path : list string) (item : value) : ST st unit :=
  let name := memberName item in
  if decide (name = "") then st_fail (ErrOther (path_text path +:+ ": member entry has no username"))
  else
    Org_Put org AssociationUsersCollection name (json_Marshal (VObj [("username", VStr name)])) ;;!
    addMember org "users" memberUsers name.
Definition loadMembers (org : string) (path : list string) : ST st unit :=
  match ReadFile path with
  | None => st_ret tt
  | Some (Err e) => st_fail e
  | Some (Ok data) =>
      match unmarshal_members data with
      | None => st_fail (ErrOther (path_text path +:+ ": json: cannot unmarshal members"))
      | Some items => st_each (loadMember org path) items
      end
  end.

(** An organization that is not there after it was made would be a nil handle. *)
Definition orgOrCreate (name : string) : ST st string :=
  let! o := Store_Org name in
  match o with
  | Some org => st_ret org
  | None =>
      wrapping ("create org " +:+ strconv_Quote name +:+ ": ") (CreateOrganization (e_guid rnd name) (e_pair rnd name) name name) ;;!
      let! o := Store_Org name in
      match o with Some org => st_ret org | None => st_fail (ErrOther "nil organization") end
  end.

Fixpoint loadOrgs (orgsRoot : list string) (names : list string) (orgs : gmap string OrgSummary) : ST st (gmap string OrgSummary) :=
  match names with
  | [] => st_ret orgs
  | name :: rest =>
      let! org := orgOrCreate name in
      let orgDir := orgsRoot ++ [name] in
      let in_org {A} : ST st A → ST st A := wrapping ("org " +:+ strconv_Quote name +:+ ": ") in
      let! repoSum := in_org (Repo_Load org orgDir) in
      let! groups := in_org (loadGroups org (orgDir ++ ["groups"])) in
      in_org (loadMembers org (orgDir ++ ["members.json"])) ;;!
      loadOrgs orgsRoot rest (<[name := mkOrgSummary repoSum groups]> orgs)
  end.
Definition State_Load (root : list string) : ST st Summary :=
  let! users := loadGlobalUsers (root ++ ["users"]) in
  let orgsRoot := root ++ ["organizations"] in
  let! orgNames := of_result (sorted_subdirs orgsRoot) in
  let! orgs := loadOrgs orgsRoot orgNames ∅ in
  st_ret (mkSummary users orgs).

(** ** Loading at start (server/server.go) *)

(** [None]: the option is not set. *)
Definition hydrate (orgs : list string) (repo state : option (list string)) : ST st unit :=
  match repo with
  | None => st_ret tt
  | Some dir =>
      let first := default "" (head orgs) in
      let! o := Store_Org first in
      match o with
      | None => st_fail (ErrOther ("repo target org " +:+ strconv_Quote first +:+ " not found"))
      | Some org => wrapping ("load repo " +:+ strconv_Quote (path_text dir) +:+ ": ") (Repo_Load org dir) ;;! st_ret tt
      end
  end ;;!
  match state with
  | None => st_ret tt
  | Some dir => wrapping ("load state " +:+ strconv_Quote (path_text dir) +:+ ": ") (State_Load dir) ;;! st_ret tt
  end.
End State.

(** ** What a load does is a script the disk fixes *)

Inductive write_ := WObj (coll key val : string) | WFile (sum content : string).
Definition apply_write (org : string) (sp : space) (w : write_) : space :=
  match w with WObj coll key val => sp_put org coll key val sp | WFile sum content => sp_put_blob org sum content sp end.
Definition applies (org : string) (ws : list write_) (sp : space) : space := foldl (apply_write org) sp ws.

(** The collections a chef-repo is loaded into. *)
Definition import_coll (coll : string) : Prop :=
  coll ∈ map (λ d, d.1.2) objectDirs ++ [dataBagsColl; "cookbooks"] ∨ (∃ p, coll = policyRevColl p) ∨ (∃ bag, coll = dataBagItemsColl bag).
Definition import_write (w : write_) : Prop := match w with WObj coll _ _ => import_coll coll | WFile _ _ => True end.

Lemma applies_app org a b sp : applies org (a ++ b) sp = applies org b (applies org a sp).
Proof. apply foldl_app. Qed.

Lemma applies_union org ws sp : applies org ws sp =
  mkSpace (s_orgs sp) (s_objs (applies org ws (mkSpace ∅ ∅ ∅)) ∪ s_objs sp) (s_blobs (applies org ws (mkSpace ∅ ∅ ∅)) ∪ s_blobs sp).
Proof.
  induction ws as [|w ws IH] using rev_ind; [destruct sp; cbn; by rewrite !(left_id_L ∅ (∪))|].
  rewrite !applies_app, IH. destruct w; cbn; unfold sp_put, sp_put_blob; cbn; by rewrite ?insert_union_l.
Qed.

(** Last writer wins, so a script run twice is run once. *)
Lemma applies_twice org ws sp : applies org ws (applies org ws sp) = applies org ws sp.
Proof.
  rewrite (applies_union org ws (applies org ws sp)), (applies_union org ws sp). cbn.
  by rewrite !(assoc_L (∪)), !(idemp_L (∪)).
Qed.

Section Scripts.
Context {B : Type} `{BackendSpec B} {O : Type} (org : string).

(** Some fixed writes to the organization and a fixed result: a run that
    succeeds makes them all and gives it, one that fails has made the first few. *)
Definition scripted {A} (P : write_ → Prop) (m : ST (Store B O) A) : Prop := ∃ ws res, Forall P ws ∧ ∀ sp,
  ensures m sp (λ r sp', match r with
    | Ok a => res = Ok a ∧ sp' = applies org ws sp
    | Err _ => ∃ n, sp' = applies org (take n ws) sp end).

Lemma scripted_ret {A} P (a : A) : scripted P (st_ret a).
Proof. exists [], (Ok a). split; [done|]. intros sp. by apply ens_ret. Qed.
Lemma scripted_fail {A} P e : scripted P (st_fail (A := A) e).
Proof. exists [], (Err e). split; [done|]. intros sp s <-. by exists 0. Qed.
Lemma scripted_of {A} P (r : result A) : scripted P (of_result r).
Proof. destruct r; [apply scripted_ret|apply scripted_fail]. Qed.
Lemma scripted_Put (P : write_ → Prop) coll key val : P (WObj coll key val) → scripted P (Org_Put org coll key val).
Proof. intros HP. exists [WObj coll key val], (Ok tt). split; [by constructor|]. intros sp. apply ens_Put; [done|]. intros e. by exists 0. Qed.
Lemma scripted_PutBlob (P : write_ → Prop) sum content : P (WFile sum content) → scripted P (Org_PutBlob org sum content).
Proof. intros HP. exists [WFile sum content], (Ok tt). split; [by constructor|]. intros sp. apply ens_PutBlob; [done|]. intros e. by exists 0. Qed.

Lemma scripted_bind {A C} P (m : ST (Store B O) A) (k : A → ST (Store B O) C) :
  scripted P m → (∀ a, scripted P (k a)) → scripted P (st_bind m k).
Proof.
  intros (ws & [a|e] & HP & Hm) Hk.
  - destruct (Hk a) as (ws' & res & HP' & Hk'). exists (ws ++ ws'), res. split; [by apply Forall_app|]. intros sp.
    apply ens_bind. eapply ens_conseq; [apply Hm|]. intros [a'|e] sp' Hr.
    + destruct Hr as [[= <-] ->]. eapply ens_conseq; [apply Hk'|]. intros [c|e] sp' Hr.
      * destruct Hr as [-> ->]. by rewrite applies_app.
      * destruct Hr as [n ->]. exists (length ws + n). by rewrite take_app_add, applies_app.
    + destruct Hr as [n ->]. exists (n `min` length ws). by rewrite take_app_le, <-take_take, firstn_all by lia.
  - exists ws, (Err e). split; [done|]. intros sp. apply ens_bind. eapply ens_conseq; [apply Hm|]. intros [a'|e'] sp' Hr; [by destruct Hr|done].
Qed.
Lemma scripted_each {A} P (f : A → ST (Store B O) unit) l : (∀ a, scripted P (f a)) → scripted P (st_each f l).
Proof. intros Hf. induction l; [apply scripted_ret|by apply scripted_bind]. Qed.
End Scripts.

Ltac script :=
  repeat first
  [ progress intros | apply scripted_ret | apply scripted_of | apply scripted_fail | apply scripted_each
  | apply scripted_Put | apply scripted_PutBlob
  | match goal with |- scripted _ _ (st_bind _ (λ x, match x with (_, _) => _ end)) => apply scripted_bind; [|intros []] end
  | apply scripted_bind
  | match goal with |- scripted _ _ (if ?c then _ else _) => destruct c end ].

Section Scripted.
Context `{Unicode} `{MD5} `{GoQuote} `{FileSystem} {B : Type} `{BackendSpec B} {O : Type} (org : string).
Abbreviation scripted_ := (scripted (B := B) (O := O) org).

Lemma loadObjects_scripted (P : write_ → Prop) dir coll field : (∀ k v, P (WObj coll k v)) →
  scripted_ P (loadObjects org dir coll field).
Proof. intros HP. unfold loadObjects, loadObject. script; auto. Qed.
Lemma loadPolicies_scripted (P : write_ → Prop) dir : (∀ p k v, P (WObj (policyRevColl p) k v)) → scripted_ P (loadPolicies org dir).
Proof. intros HP. unfold loadPolicies, loadPolicy. script; auto. Qed.
Lemma loadDataBags_scripted (P : write_ → Prop) dir : (∀ k v, P (WObj dataBagsColl k v)) → (∀ b k v, P (WObj (dataBagItemsColl b) k v)) →
  scripted_ P (loadDataBags org dir).
Proof.
  intros HP HQ. unfold loadDataBags. script. induction a as [|bag bags IH]; cbn [loadBags]; unfold loadItem; script; auto.
Qed.
Lemma loadFiles_scripted (P : write_ → Prop) cbDir visits : (∀ s c, P (WFile s c)) → scripted_ P (loadFiles org cbDir visits).
Proof. intros HP. induction visits as [|[p [[]|e]] visits IH]; cbn [loadFiles]; script; auto. Qed.
Lemma loadCookbooks_scripted (P : write_ → Prop) dir : (∀ s c, P (WFile s c)) → (∀ k v, P (WObj "cookbooks" k v)) →
  scripted_ P (loadCookbooks org dir).
Proof. intros HP HQ. unfold loadCookbooks, loadCookbook. script; [by apply loadFiles_scripted|auto]. Qed.

Lemma loadDirs_scripted (P : write_ → Prop) root dirs sum : (∀ d k v, d ∈ dirs → P (WObj d.1.2 k v)) →
  scripted_ P (loadDirs org root dirs sum).
Proof.
  revert sum. induction dirs as [|[[dir coll] field] dirs IH]; intros sum HP; cbn [loadDirs]; [apply scripted_ret|].
  apply scripted_bind; [apply loadObjects_scripted; intros k v; apply (HP (dir, coll, field)); set_solver|].
  intros n. apply IH. intros d k v Hd. apply HP. set_solver.
Qed.

Lemma Repo_Load_scripted root : scripted_ import_write (Repo_Load org root).
Proof.
  unfold Repo_Load. apply scripted_bind.
  { apply loadDirs_scripted. intros d k v Hd. left. apply elem_of_app. left. by apply list_elem_of_fmap_2'  with d. }
  intros sum. apply scripted_bind; [apply loadPolicies_scripted; intros p k v; right; left; eauto|].
  intros n. apply scripted_bind; [|intros [bags items]; apply scripted_bind].
  - apply loadDataBags_scripted; [|intros b k v; right; right; eauto]. intros k v. left. set_solver.
  - apply loadCookbooks_scripted; [done|]. intros k v. left. set_solver.
  - intros. apply scripted_ret.
Qed.
End Scripted.

(** ** What a load leaves *)

(** The object a file holds, and the objects of a directory: the last file of a
    name counts. [None]: one of them is not read. *)
Definition disk_object `{FileSystem} (coll field : string) (path : list string) : option (string * string) :=
  match readObject path with
  | Err _ => None
  | Ok (o, raw) => match stored_form coll raw with Err _ => None | Ok doc => Some (objectKey o field path, doc) end
  end.
Definition disk_objects `{FileSystem} (coll field : string) (paths : list (list string)) : option (gmap string string) :=
  foldl (λ acc path, m ← acc; d ← disk_object coll field path; Some (<[d.1 := d.2]> m)) (Some ∅) paths.

(** A collection of the organization is what it was, with the objects of [m] over it. *)
Definition overlaid (org coll : string) (m : gmap string string) (sp sp' : space) : Prop := ∀ k,
  s_objs sp' !! (org, coll, k) = match m !! k with Some v => Some v | None => s_objs sp !! (org, coll, k) end.

Definition in_colls (cs : list string) (w : write_) : Prop := match w with WObj coll _ _ => coll ∈ cs | WFile _ _ => True end.

Section Loads.
Context `{Unicode} `{MD5} `{GoQuote} `{FileSystem} {B : Type} `{BackendSpec B} {O : Type}.

Lemma ens_of {A} (r : result A) sp (Q : result A → space → Prop) : Q r sp → ensures (B := B) (O := O) (of_result r) sp Q.
Proof. destruct r; [apply ens_ret|intros HQ s <-; exact HQ]. Qed.

(** Collections a script does not name stay as they are. *)
Lemma applies_other org ws sp o c k : Forall (λ w, match w with WObj coll _ _ => org ≠ o ∨ coll ≠ c | WFile _ _ => True end) ws →
  s_objs (applies org ws sp) !! (o, c, k) = s_objs sp !! (o, c, k).
Proof.
  revert sp. induction ws as [|[coll key val|sum content] ws IH]; intros sp Hw; [done| |]; inversion Hw; subst;
    change (applies org (?w :: ws) sp) with (applies org ws (apply_write org sp w)); rewrite (IH _ ltac:(done)); [|done].
  cbn. apply lookup_insert_ne. intros [=]. naive_solver.
Qed.
Lemma scripted_frame {A} (P : write_ → Prop) (m : ST (Store B O) A) org sp : scripted org P m →
  ensures m sp (λ _ sp', ∀ c, (∀ k v, ¬ P (WObj c k v)) → ∀ k, s_objs sp' !! (org, c, k) = s_objs sp !! (org, c, k)).
Proof.
  intros (ws & res & HP & Hm). eapply ens_conseq; [apply Hm|]. intros r sp' Hr c Hc k.
  assert (∀ n, Forall (λ w, match w with WObj coll _ _ => org ≠ org ∨ coll ≠ c | WFile _ _ => True end) (take n ws)) as Hf.
  { intros n. apply Forall_take. eapply Forall_impl; [exact HP|]. intros [coll k' v|] Hw; [|done]. right. intros ->. by eapply Hc. }
  destruct r as [a|e]; [destruct Hr as [_ ->]|destruct Hr as [n ->]]; apply applies_other; [|done].
  rewrite <-(firstn_all ws). apply Hf.
Qed.

Lemma disk_objects_snoc coll field paths path : disk_objects coll field (paths ++ [path]) =
  (m ← disk_objects coll field paths; d ← disk_object coll field path; Some (<[d.1 := d.2]> m)).
Proof. unfold disk_objects. by rewrite foldl_app. Qed.

Lemma loadObjects_exact org dir coll field sp :
  ensures (B := B) (O := O) (loadObjects org dir coll field) sp (λ r sp', match r with
    | Ok _ => ∃ paths m, jsonFiles dir = Ok paths ∧ disk_objects coll field paths = Some m ∧ overlaid org coll m sp sp'
    | Err _ => True end).
Proof.
  unfold loadObjects. apply ens_bind, ens_of. destruct (jsonFiles dir) as [paths|e]; [|done]. apply ens_bind.
  apply ens_each with (inv := λ dn sp', ∃ m, disk_objects coll field dn = Some m ∧ overlaid org coll m sp sp').
  - exists ∅. split; [done|]. intros k. by rewrite lookup_empty.
  - intros dn path rest sp1 _ (m & Hm & Ho). unfold loadObject. apply ens_bind, ens_of.
    destruct (readObject path) as [[o raw]|e] eqn:Er; [|done]. apply ens_bind, ens_of.
    destruct (stored_form coll raw) as [doc|e] eqn:Ed; [|done]. apply ens_Put; [|done].
    exists (<[objectKey o field path := doc]> m). rewrite disk_objects_snoc, Hm. unfold disk_object. rewrite Er, Ed.
    split; [done|]. intros k. rewrite s_objs_put. destruct (decide (k = objectKey o field path)) as [->|Hk].
    + by rewrite !lookup_insert_eq.
    + rewrite !lookup_insert_ne by congruence. apply Ho.
  - intros sp1 (m & Hm & Ho). apply ens_ret. by exists paths, m.
Qed.

Lemma loadDirs_exact org root dirs sum sp : NoDup (map (λ d, d.1.2) dirs) →
  ensures (B := B) (O := O) (loadDirs org root dirs sum) sp (λ r sp', match r with
    | Ok _ => ∀ dir coll field, (dir, coll, field) ∈ dirs → ∃ paths m,
        jsonFiles (root ++ [dir]) = Ok paths ∧ disk_objects coll field paths = Some m ∧ overlaid org coll m sp sp'
    | Err _ => True end).
Proof.
  revert sum sp. induction dirs as [|[[dir coll] field] dirs IH]; intros sum sp Hnd; cbn [loadDirs].
  { apply ens_ret. intros ??? []%not_elem_of_nil. }
  apply NoDup_cons in Hnd as [Hn Hnd]. apply ens_bind.
  eapply ens_conseq; [apply ens_and; [apply loadObjects_exact|eapply scripted_frame; apply (loadObjects_scripted org (in_colls [coll])); cbn; set_solver]|].
  intros [n|e] sp1 [Ho Hf]; [|done].
  eapply ens_conseq; [apply ens_and; [by apply IH|eapply scripted_frame; apply (loadDirs_scripted org (in_colls (map (λ d, d.1.2) dirs)))]|].
  { intros d k v Hd. by apply (list_elem_of_fmap_2 (λ d, d.1.2)). }
  intros [sum'|e] sp2 [Hr Hf2]; [|done]. intros dir' coll' field' [[= -> -> ->]|Hd]%elem_of_cons.
  - destruct Ho as (paths & m & Hp & Hm & Ho). exists paths, m. split; [done|]. split; [done|]. intros k. rewrite Hf2; [apply Ho|by cbn].
  - destruct (Hr _ _ _ Hd) as (paths & m & Hp & Hm & Ho'). exists paths, m. split; [done|]. split; [done|]. intros k.
    rewrite Ho', Hf; [done|]. cbn. intros _ _ ->%list_elem_of_singleton. apply Hn. by apply (list_elem_of_fmap_2 (λ d, d.1.2)) in Hd.
Qed.

Definition beside_objects (w : write_) : Prop := match w with WObj coll _ _ => coll ∉ map (λ d, d.1.2) objectDirs | WFile _ _ => True end.

Lemma beside_prefixed (p : string) coll : coll = policyRevColl p ∨ coll = dataBagItemsColl p → coll ∉ map (λ d, d.1.2) objectDirs.
Proof. intros Hc Hin. apply list_elem_of_In in Hin. cbn in Hin. destruct Hc as [-> | ->]; by repeat destruct Hin as [Hin|Hin]. Qed.

Lemma Repo_Load_exact org root sp :
  ensures (B := B) (O := O) (Repo_Load org root) sp (λ r sp', match r with
    | Ok _ => ∀ dir coll field, (dir, coll, field) ∈ objectDirs → ∃ paths m,
        jsonFiles (root ++ [dir]) = Ok paths ∧ disk_objects coll field paths = Some m ∧ overlaid org coll m sp sp'
    | Err _ => True end).
Proof.
  unfold Repo_Load. apply ens_bind. eapply ens_conseq; [apply loadDirs_exact; apply (bool_decide_unpack _); by vm_compute|].
  intros [sum|e] sp1 Ho; [|done].
  eapply ens_conseq; [apply (scripted_frame beside_objects)|].
  { apply scripted_bind; [apply loadPolicies_scripted; intros p k v; eapply (beside_prefixed p); auto|].
    intros n. apply scripted_bind; [|intros [bags items]; apply scripted_bind; [|intros; apply scripted_ret]].
    - apply loadDataBags_scripted; [intros k v; by apply (bool_decide_unpack _)|intros b k v; eapply (beside_prefixed b); auto].
    - apply loadCookbooks_scripted; [done|]. intros k v. by apply (bool_decide_unpack _). }
  intros [sum'|e] sp2 Hf; [|done]. intros dir coll field Hd. destruct (Ho _ _ _ Hd) as (paths & m & Hp & Hm & Hm').
  exists paths, m. split; [done|]. split; [done|]. intros k. rewrite Hf; [apply Hm'|]. intros k1 v1 Hn. apply Hn.
  by apply (list_elem_of_fmap_2 (λ d, d.1.2)) in Hd.
Qed.
End Loads.

(** ** What the disk says is loaded *)

(** The files of a directory that are read: those whose name ends in [.json], in
    the order of the entries. *)
Definition json_entries `{FileSystem} (dir : list string) (paths : list (list string)) : Prop :=
  match ReadDir dir with
  | None => paths = []
  | Some (Err _) => False
  | Some (Ok entries) => ∃ names, paths = map (λ n, dir ++ [n]) names ∧ sublist names (map fst entries) ∧
      ∀ n, n ∈ names ↔ (n, false) ∈ entries ∧ ∃ stem, n = stem +:+ ".json"
  end.

(** An object's name: its member [field], or the name of the file when the object
    gives none. *)
Definition named_by (o : obj) (field : string) (path : list string) (key : string) : Prop :=
  (assoc o field = Some (VStr key) ∧ key ≠ "") ∨
  ((∀ n, assoc o field = Some (VStr n) → n = "") ∧ List.last path "" = key +:+ ".json").

(** The object of a file, and what the API would store of the same text: the form
    [chefjson.Normalize] gives it, its run lists as [normalizeRunLists] leaves
    them (object.go). *)
Definition file_object `{FileSystem} (coll field : string) (path : list string) (kd : string * string) : Prop :=
  ∃ data raw o, ReadFile path = Some (Ok data) ∧ Normalize.Normalize data = Ok raw ∧ DecodeObject raw = Ok o ∧
    named_by o field path kd.1 ∧ normalizeRunLists coll raw = Ok kd.2.

(** The organization's collection holds the objects of the files, the last file of
    a name counting, over what was there. *)
Definition loaded_from `{FileSystem} (org : string) (dir : list string) (coll field : string) (sp sp' : space) : Prop :=
  ∃ paths objects, json_entries dir paths ∧ Forall2 (file_object coll field) paths objects ∧
    overlaid org coll (list_to_map (reverse objects)) sp sp'.

Section Disk.
Context `{FileSystem}.

Lemma trim_suffix_self suf s : trim_suffix suf (s +:+ suf) = s.
Proof. unfold trim_suffix. rewrite str_rev_app_str, cut_prefix_app. apply str_rev_involutive. Qed.

Lemma objectKey_named o field path stem : List.last path "" = stem +:+ ".json" → named_by o field path (objectKey o field path).
Proof.
  intros Hp. unfold objectKey, named_by. rewrite Hp, trim_suffix_self.
  destruct (assoc o field) as [[| | |n| |]|]; try (right; split; [by intros n' [=]|done]).
  destruct (decide (n = "")) as [->|Hn]; [|left; by rewrite decide_True].
  right. rewrite decide_False by tauto. split; [|done]. by intros n' [= <-].
Qed.

Lemma disk_object_file coll field path kd stem : List.last path "" = stem +:+ ".json" →
  disk_object coll field path = Some kd → file_object coll field path kd.
Proof.
  intros Hp. unfold disk_object, readObject, read_file. destruct (ReadFile path) as [[data|e]|] eqn:E1; try done.
  destruct (Normalize.Normalize data) as [raw|e] eqn:E2; [|done]. cbn [at_path].
  destruct (DecodeObject raw) as [o|e] eqn:E3; [|done]. cbn [at_path].
  destruct (stored_form coll raw) as [doc|e] eqn:E4; [|done]. intros [= <-]. exists data, raw, o.
  split_and!; [done..|by eapply objectKey_named|exact E4].
Qed.

Lemma disk_objects_list coll field paths m : disk_objects coll field paths = Some m →
  ∃ objects, Forall2 (λ path kd, disk_object coll field path = Some kd) paths objects ∧ m = list_to_map (reverse objects).
Proof.
  revert m. induction paths as [|path paths IH] using rev_ind; intros m.
  - intros [= <-]. by exists [].
  - rewrite disk_objects_snoc. destruct (disk_objects coll field paths) as [m0|]; [|done]. cbn.
    destruct (disk_object coll field path) as [kd|] eqn:E; [|done]. intros [= <-].
    destruct (IH m0 eq_refl) as (objects & Hf & ->). exists (objects ++ [kd]).
    split; [by apply Forall2_app; [|repeat constructor]|]. rewrite reverse_snoc. by destruct kd.
Qed.

Lemma jsonFiles_entries dir paths : jsonFiles dir = Ok paths → json_entries dir paths ∧
  Forall (λ path, ∃ stem, List.last path "" = stem +:+ ".json") paths.
Proof.
  unfold jsonFiles, json_entries. destruct (ReadDir dir) as [[entries|e]|]; [|done|by intros [= <-]]. intros [= <-].
  set (kept := filter _ entries). split.
  - exists (map fst kept). split_and!; [by rewrite map_map|apply fmap_sublist, sublist_filter|].
    intros n. rewrite <-has_suffix_true. unfold kept. split.
    + intros ([n' d] & -> & [[Hd Hs] Hin]%list_elem_of_filter)%list_elem_of_fmap. cbn in *. by subst d.
    + intros [Hin Hs]. apply list_elem_of_fmap. exists (n, false). split; [done|]. by apply list_elem_of_filter.
  - apply Forall_fmap, Forall_forall. intros [n d] [[_ Hs] _]%list_elem_of_filter. cbn in *.
    apply has_suffix_true in Hs as [stem ->]. exists stem. apply last_last.
Qed.
End Disk.

Lemma disk_loaded `{FileSystem} org dir coll field sp sp' :
  (∃ paths m, jsonFiles dir = Ok paths ∧ disk_objects coll field paths = Some m ∧ overlaid org coll m sp sp') →
  loaded_from org dir coll field sp sp'.
Proof.
  intros (paths & m & [Hj Hl]%jsonFiles_entries & (objects & Hf & ->)%disk_objects_list & Ho). exists paths, objects.
  split_and!; [done| |done]. clear Hj Ho. induction Hf as [|path kd paths objects Hk Hf IH]; [constructor|].
  apply Forall_cons in Hl as [[stem Hs] Hl]. constructor; [by eapply disk_object_file|by apply IH].
Qed.

(** C14. A load that succeeds leaves what the disk says. For nodes, roles,
    environments, clients and policy groups, the organization holds an object for
    every [.json] file of the directory, over what was there: under the name the
    object gives itself or else the name of the file, the last file of a name
    counting, and with the text the API's own [normalizeRunLists] over
    [chefjson.Normalize] makes of the file, which for a node, a role or an
    environment is the form an upload is stored in. And a second load of the same
    disk into a store with these contents, when it succeeds, gives the same
    summary and changes nothing. *)
Theorem repo_loaded_exactly `{Unicode} `{MD5} `{GoQuote} `{FileSystem} `{BackendSpec B} {O} (org : string)
    (root : list string) (s : Store B O) :
  match Repo_Load org root s with
  | (Ok sum, s') =>
      (∀ coll, coll ∈ ["nodes"; "roles"; "environments"; "clients"; "policy_groups"] →
         loaded_from org (root ++ [coll]) coll "name" (view s.1) (view s'.1)) ∧
      ∀ t : Store B O, view t.1 = view s'.1 →
        match Repo_Load org root t with (Ok sum', t') => sum' = sum ∧ view t'.1 = view t.1 | (Err _, _) => True end
  | (Err _, _) => True
  end.
Proof.
  destruct (Repo_Load_scripted (B := B) (O := O) org root) as (ws & res & _ & Hs).
  pose proof (Repo_Load_exact org root (view s.1) s eq_refl) as He. pose proof (Hs (view s.1) s eq_refl) as H1'.
  destruct (Repo_Load org root s) as [[sum|e] s'] eqn:E; [|done]. split.
  { intros coll Hc. apply disk_loaded. apply (He coll coll "name"). unfold objectDirs.
    apply list_elem_of_In in Hc. cbn in Hc. set_solver. }
  intros t Ht.
  destruct H1' as [-> Hv]. specialize (Hs (view t.1) t eq_refl).
  destruct (Repo_Load org root t) as [[sum'|e] t']; [|done]. destruct Hs as [[= <-] ->]. split; [done|].
  by rewrite Ht, Hv, applies_twice.
Qed.

(** Whatever happens, a load removes nothing, makes no organization, and writes
    into its organization and the collections of a chef-repo only. *)
Theorem repo_load_confined `{Unicode} `{MD5} `{GoQuote} `{FileSystem} `{BackendSpec B} {O} (org : string)
    (root : list string) (s : Store B O) :
  let sp := view s.1 in let sp' := view (Repo_Load org root s).2.1 in
  s_orgs sp' = s_orgs sp ∧
  (∀ o c k, o ≠ org ∨ ¬ import_coll c → s_objs sp' !! (o, c, k) = s_objs sp !! (o, c, k)) ∧
  (∀ i, is_Some (s_objs sp !! i) → is_Some (s_objs sp' !! i)) ∧
  (∀ i, is_Some (s_blobs sp !! i) → is_Some (s_blobs sp' !! i)).
Proof.
  destruct (Repo_Load_scripted (B := B) (O := O) org root) as (ws & res & Hw & Hs). cbn zeta. specialize (Hs (view s.1) s eq_refl).
  assert (∃ n, view (Repo_Load org root s).2.1 = applies org (take n ws) (view s.1)) as [n ->].
  { destruct (Repo_Load org root s) as [[sum|e] s']; [|done]. exists (length ws). by rewrite firstn_all; destruct Hs. }
  split; [by rewrite applies_union|]. split; [|rewrite applies_union; cbn; split; intros i Hi; rewrite lookup_union; by apply union_is_Some; right].
  intros o c k Hc. apply applies_other, Forall_take. eapply Forall_impl; [exact Hw|]. intros [coll ? ?|] Hi; [|done].
  destruct (decide (org = o)) as [->|]; [|by left]. right. intros ->. destruct Hc as [Hc|Hc]; [done|by apply Hc].
Qed.

(** ** The manifest of a loaded cookbook names the files it was loaded from *)

(** Every string member "checksum", at any depth. *)
Definition sum_ok (P : string → Prop) (m : string * value) : Prop :=
  m.1 = "checksum" → match m.2 with VStr s => P s | _ => True end.
Fixpoint all_sums (P : string → Prop) (v : value) : Prop :=
  match v with
  | VArr l => foldr (λ x Q, all_sums P x ∧ Q) True l
  | VObj ms => foldr (λ m Q, (sum_ok P m ∧ all_sums P m.2) ∧ Q) True ms
  | _ => True
  end.

Section Sums.
Context (P : string → Prop).

Lemma all_sums_arr l : all_sums P (VArr l) ↔ Forall (all_sums P) l.
Proof. induction l as [|x l IH]; [done|]. cbn. rewrite Forall_cons, <-IH. done. Qed.
Lemma all_sums_obj ms : all_sums P (VObj ms) ↔ Forall (λ m, sum_ok P m ∧ all_sums P m.2) ms.
Proof. induction ms as [|x l IH]; [done|]. cbn. rewrite Forall_cons, <-IH. done. Qed.

Lemma assoc_in (ms : obj) k v : assoc ms k = Some v → (k, v) ∈ ms.
Proof. induction ms as [|[k' x] ms IH]; [done|]. cbn [assoc]. case_decide; [intros [= ->]; subst; by left|right; auto]. Qed.

Lemma all_sums_sums v x : all_sums P v → x ∈ sums v → P x.
Proof.
  induction v as [|[]| | |l IH|ms IH] using value_ind'; intros Hv Hx; try by apply not_elem_of_nil in Hx.
  - apply all_sums_arr in Hv. rewrite sums_arr in Hx. apply list_elem_of_In, in_concat in Hx as (l' & Hl & Hx).
    apply in_map_iff in Hl as (y & <- & Hy). rewrite Forall_forall in IH, Hv. apply (IH y); rewrite ?list_elem_of_In; auto.
    + apply Hv. by apply list_elem_of_In.
  - apply all_sums_obj in Hv. rewrite Forall_forall in IH, Hv. unfold sums in Hx. cbn [file_entries] in Hx. rewrite omap_app in Hx.
    apply elem_of_app in Hx as [Hx|Hx].
    + destruct (assoc ms "checksum") as [w|] eqn:Ea; [|by apply not_elem_of_nil in Hx].
      pose proof (assoc_in _ _ _ Ea) as Hin. destruct (Hv _ Hin) as [Hs _]. specialize (Hs eq_refl).
      destruct w; try by apply not_elem_of_nil in Hx. cbn in Hx. unfold checksum_of in Hx. rewrite Ea in Hx. cbn in Hx.
      apply list_elem_of_singleton in Hx as ->. exact Hs.
    + apply list_elem_of_omap in Hx as (e & He & Hx). apply list_elem_of_In, in_concat in He as (l' & Hl & He).
      apply in_map_iff in Hl as (m & <- & Hm). apply list_elem_of_In in Hm. apply (IH m Hm); [by apply Hv|].
      unfold sums. apply list_elem_of_omap. exists e. by rewrite list_elem_of_In.
Qed.

(** The pieces of an object, changed one by one without changing names. *)
Lemma all_sums_map (f : value → value) ms : (∀ v s, f v = VStr s → v = VStr s) → Forall (λ m, all_sums P m.2 → all_sums P (f m.2)) ms →
  all_sums P (VObj ms) → all_sums P (VObj (map (λ m, (m.1, f m.2)) ms)).
Proof.
  intros Hf IH Hv. apply all_sums_obj in Hv. apply all_sums_obj. apply Forall_fmap. rewrite Forall_forall in IH, Hv |- *.
  intros m Hm. destruct (Hv m Hm) as [Hs Ha]. split; [|by apply IH]. intros E. specialize (Hs E). cbn. 
  destruct (f m.2) eqn:Ef; try done. apply Hf in Ef. by rewrite Ef in Hs.
Qed.

Lemma all_sums_sorted v : all_sums P v → all_sums P (sorted v).
Proof.
  induction v as [|[]| | |l IH|ms IH] using value_ind'; intros Hv; try done.
  - apply all_sums_arr in Hv. apply (all_sums_arr (map sorted l)), Forall_fmap. rewrite Forall_forall in IH, Hv |- *. intros x Hx. apply IH; auto.
  - rewrite sorted_obj. apply all_sums_obj. rewrite merge_sort_Permutation. apply all_sums_obj, all_sums_map; [|done|done].
    by intros [] ?.
Qed.

Lemma all_sums_canon v : all_sums P v → all_sums P (canon v).
Proof.
  induction v as [|[]| | |l IH|ms IH] using value_ind'; intros Hv; try done.
  - apply all_sums_arr in Hv. apply (all_sums_arr (map canon l)), Forall_fmap. rewrite Forall_forall in IH, Hv |- *. intros x Hx. apply IH; auto.
  - apply all_sums_map; [|done|done]. by intros [] ?.
Qed.

Lemma all_sums_set (ms : obj) k v : all_sums P (VObj ms) → sum_ok P (k, v) → all_sums P v → all_sums P (VObj (Set_ ms k v)).
Proof.
  rewrite !all_sums_obj. intros Hms Hk Hv. induction Hms as [|[k' x] ms Hm Hms IH]; cbn [Set_]; [by repeat constructor|].
  case_decide; subst; by constructor.
Qed.

Lemma all_sums_any v : all_sums P v → all_sums P (any_of v).
Proof.
  induction v as [|[]| | |l IH|ms IH] using value_ind'; intros Hv; try done.
  - apply all_sums_arr in Hv. apply (all_sums_arr (map any_of l)), Forall_fmap. rewrite Forall_forall in IH, Hv |- *. intros x Hx. apply IH; auto.
  - apply all_sums_obj in Hv. cbn [any_of]. assert (all_sums P (VObj [])) as Ha by done. revert Ha. generalize ([] : obj).
    induction ms as [|m ms IHm]; intros acc Ha; [done|]. inversion IH as [|?? H1' H2']; subst. inversion Hv as [|?? [Hs Hm] H3']; subst.
    cbn [foldl]. apply IHm; [done|done|]. apply all_sums_set; [done| |by apply H1'].
    intros E. specialize (Hs E). cbn. destruct m.2; done.
Qed.

Lemma all_sums_valid v : (∀ s, P s → is_ascii s = true) → all_sums P v → all_sums P (valid_tree v).
Proof.
  intros HP. induction v as [|[]| | |l IH|ms IH] using value_ind'; intros Hv; try done.
  - apply all_sums_arr in Hv. apply (all_sums_arr (map valid_tree l)), Forall_fmap. rewrite Forall_forall in IH, Hv |- *. intros x Hx. apply IH; auto.
  - apply all_sums_obj in Hv. apply (all_sums_obj (map (λ m, (to_valid m.1, valid_tree m.2)) ms)), Forall_fmap.
    rewrite Forall_forall in IH, Hv |- *. intros m Hm. destruct (Hv m Hm) as [Hs Ha]. split; [|by apply IH].
    intros E%to_valid_ascii; [|done]. specialize (Hs E). cbn. destruct m.2 as [| | |s| |]; try done. cbn.
    rewrite to_valid_id; [done|]. apply (ascii_text is_ascii_char); [|by apply HP]. intros c Hc. by apply bool_decide_eq_true in Hc.
Qed.
End Sums.

Lemma hex_ascii s : is_ascii (hex_encode s) = true.
Proof.
  assert (∀ z, (0 ≤ z < 16)%Z → is_ascii_char (hexDigits z) = true) as Hd.
  { intros z Hz. unfold is_ascii_char, hexDigits. apply bool_decide_eq_true. case_decide; rewrite byte_of_chr by lia; lia. }
  induction s as [|c s IH]; [done|]. unfold is_ascii in *. cbn [hex_encode str_forall]. rewrite IH, !andb_true_r.
  pose proof (byte_of_range c). apply andb_true_intro. split; apply Hd.
  - rewrite Z.shiftr_div_pow2 by lia. zlia.
  - change 15%Z with (Z.ones 4). rewrite Z.land_ones by lia. zlia.
Qed.

Lemma canonicalize_reads o : textual (VObj o) → depth (VObj o) ≤ max_depth →
  let v := valid_tree (sorted (VObj o)) in decode false (canonicalize o) = Some (canon v) ∨ decode false (canonicalize o) = Some v.
Proof.
  intros Ht Hd. cbn zeta. unfold canonicalize. destruct (Normalize.Normalize _) as [raw|e] eqn:E; [left|right; by apply decode_json_Marshal].
  apply Normalize_Ok in E as (v & Hp & _ & ->). destruct (Parse_faithful _ _ Hp).
  apply Parse_decoded in Hp. rewrite (decode_json_Marshal true) in Hp by done. injection Hp as <-. by apply decode_Marshal.
Qed.

Lemma canonicalize_sums (P : string → Prop) o x : (∀ s, P s → is_ascii s = true) → textual (VObj o) → depth (VObj o) ≤ max_depth →
  all_sums P (VObj o) → x ∈ manifest_sums (canonicalize o) → P x.
Proof.
  intros HP Ht Hd Ha. unfold manifest_sums, unmarshal_map.
  assert (∃ w, decode false (canonicalize o) = Some w ∧ all_sums P w) as (w & -> & Hw).
  { pose proof (all_sums_valid P _ HP (all_sums_sorted P _ Ha)) as Hv.
    destruct (canonicalize_reads o Ht Hd) as [-> | ->]; eexists; (split; [done|]); [by apply all_sums_canon|done]. }
  unfold as_any. destruct (numbers_fit w); [|by intros ?%not_elem_of_nil]. pose proof (all_sums_any P _ Hw) as Hm.
  destruct (any_of w) as [| | | | |ms]; try by intros ?%not_elem_of_nil. by apply all_sums_sums.
Qed.

(** The entries [loadFiles] makes. *)
Definition entries_of (P : string → Prop) (files : list value) : Prop := Forall (λ f, ∃ rel sum, f = file_entry rel sum ∧ P sum) files.

Lemma deps_text (d : list (string * string)) : textual (VObj (map (λ d, (d.1, VStr d.2)) d)).
Proof. apply textual_obj, Forall_fmap, Forall_true. done. Qed.
Lemma manifest_textual P meta files : entries_of P files → textual (VObj (manifest_doc meta files)).
Proof.
  intros Hf. assert (textual (VArr files)) by (apply textual_arr; eapply Forall_impl; [exact Hf|]; by intros f (rel & sum & -> & _)).
  pose proof (deps_text (map_to_list (m_dependencies meta))). cbn in *. tauto.
Qed.

Lemma manifest_depth P meta files : entries_of P files → depth (VObj (manifest_doc meta files)) ≤ max_depth.
Proof.
  intros Hf. assert (depth (VArr files) ≤ 2) as Ha.
  { cbn. apply le_n_S, max_list_le, Forall_fmap. eapply Forall_impl; [exact Hf|]. intros f (rel & sum & -> & _); cbn; lia. }
  assert (depth (metadata_doc meta) ≤ 2) as Hm.
  { cbn. assert (max_list (map (λ m, depth m.2) (map (λ d, (d.1, VStr d.2)) (map_to_list (m_dependencies meta)))) ≤ 0) as Hd.
    { apply max_list_le, Forall_fmap, Forall_fmap, Forall_true. intros d. cbn. lia. }
    lia. }
  assert (depth (VObj (manifest_doc meta files)) ≤ 3); [|unfold max_depth; lia].
  unfold manifest_doc. cbn -[metadata_doc]. cbn in Ha. lia.
Qed.

Lemma manifest_sums_ok P meta files : entries_of P files → m_dependencies meta !! "checksum" = None → all_sums P (VObj (manifest_doc meta files)).
Proof.
  intros Hf Hd.
  assert (all_sums P (VArr files)) as Ha.
  { apply all_sums_arr. eapply Forall_impl; [exact Hf|]. intros f (rel & sum & -> & Hs). cbn. by repeat split; intros E; first [discriminate E|exact Hs]. }
  assert (all_sums P (VObj (map (λ d, (d.1, VStr d.2)) (map_to_list (m_dependencies meta))))) as Hm.
  { apply all_sums_obj, Forall_fmap. apply Forall_forall. intros [k v] Hk%elem_of_map_to_list. split; [|done]. cbn. intros E. cbn in E. congruence. }
  cbn -[metadata_doc]. cbn in Ha. repeat split; first [exact Ha|exact Hm|by intros [=]].
Qed.

Section Backed.
Context `{Unicode} `{MD5} `{GoQuote} `{FileSystem} {B : Type} `{BackendSpec B} {O : Type}.

Definition beside_manifests (w : write_) : Prop := match w with WObj coll _ _ => coll ∉ manifest_colls | WFile _ _ => True end.

Lemma backed_blob sp org sum content : backed sp → backed (sp_put_blob org sum content sp).
Proof. intros Hb o x Hr. cbn. apply lookup_insert_is_Some. destruct (decide ((org, sum) = (o, x))); [by left|right; split; [done|by apply Hb]]. Qed.

Lemma applies_backed org ws sp : Forall beside_manifests ws → backed sp → backed (applies org ws sp).
Proof.
  intros Hw. revert sp. induction Hw as [|[coll key val|sum content] ws Hw Hws IH]; intros sp Hb; [done| |]; apply IH.
  - by apply backed_put_other.
  - by apply backed_blob.
Qed.
Lemma scripted_backed {A} org (m : ST (Store B O) A) sp : scripted org beside_manifests m → backed sp → ensures m sp (λ _ sp', backed sp').
Proof.
  intros (ws & res & Hw & Hm) Hb. eapply ens_conseq; [apply Hm|]. intros [a|e] sp' Hr.
  - destruct Hr as [_ ->]. by apply applies_backed.
  - destruct Hr as [n ->]. apply applies_backed; [by apply Forall_take|done].
Qed.

Definition stored_sum (org : string) (sp : space) (sum : string) : Prop := is_ascii sum = true ∧ is_Some (s_blobs sp !! (org, sum)).

Lemma loadFiles_entries org cbDir visits sp : backed sp →
  ensures (B := B) (O := O) (loadFiles org cbDir visits) sp (λ r sp', backed sp' ∧ (∀ x, stored_sum org sp x → stored_sum org sp' x) ∧
    match r with Ok files => entries_of (stored_sum org sp') files | Err _ => True end).
Proof.
  revert sp. induction visits as [|[path [[]|e]] visits IH]; intros sp Hb; cbn [loadFiles].
  - apply ens_ret. split; [done|]. split; [done|]. apply Forall_nil. done.
  - by apply IH.
  - apply ens_bind, ens_of. destruct (read_file path) as [content|e]; [|done]. cbn zeta. set (sum := hex_encode (md5_sum content)).
    assert (∀ x, stored_sum org sp x → stored_sum org (sp_put_blob org sum content sp) x) as Hg.
    { intros x [Ha Hx]. split; [done|]. cbn. apply lookup_insert_is_Some. destruct (decide ((org, sum) = (org, x))); [by left|by right]. }
    apply ens_bind, ens_PutBlob; [|done]. apply ens_bind. eapply ens_conseq; [by apply IH, backed_blob|].
    intros [files|e] sp' (Hb' & Hs & Hf); [|split; [done|]; split; [auto|done]]. apply ens_ret. split; [done|]. split; [auto|].
    apply Forall_cons. split; [|done]. eexists _, sum. split; [done|]. apply Hs. split; [apply hex_ascii|]. cbn. by rewrite lookup_insert_eq.
  - intros s <-. done.
Qed.

(** No cookbook of the directory depends on one called "checksum". *)
Definition plain_dependencies (dir : list string) : Prop := ∀ name meta,
  readCookbookMetadata (dir ++ [name]) name = Ok meta → m_dependencies meta !! "checksum" = None.

Lemma loadCookbook_backed org dir name sp : plain_dependencies dir → backed sp →
  ensures (B := B) (O := O) (loadCookbook org (dir ++ [name]) name) sp (λ _ sp', backed sp').
Proof.
  intros Hp Hb. unfold loadCookbook. apply ens_bind, ens_of. destruct (readCookbookMetadata _ _) as [meta|e] eqn:Em; [|done].
  apply ens_bind. eapply ens_conseq; [by apply loadFiles_entries|]. intros [files|e] sp' (Hb' & _ & Hf); [|done].
  apply ens_Put; [|done]. apply backed_put; [done|]. intros sum Hs. apply (canonicalize_sums (stored_sum org sp')) in Hs; [apply Hs|by intros ? []| | |].
  - by eapply manifest_textual.
  - by eapply manifest_depth.
  - apply manifest_sums_ok; [done|by eapply Hp].
Qed.

Lemma Repo_Load_backed org root sp : plain_dependencies (root ++ ["cookbooks"]) → backed sp →
  ensures (B := B) (O := O) (Repo_Load org root) sp (λ _ sp', backed sp').
Proof.
  intros Hp Hb. unfold Repo_Load.
  apply ens_bind. eapply ens_conseq; [apply (scripted_backed org); [apply loadDirs_scripted|done]|].
  { intros d k v Hd. cbn. apply list_elem_of_In in Hd. cbn in Hd. by repeat (destruct Hd as [<-|Hd]; [apply (bool_decide_unpack _)|]). }
  intros [sum|e] sp1 Hb1; [|done].
  apply ens_bind. eapply ens_conseq; [apply (scripted_backed org); [apply loadPolicies_scripted|done]|].
  { intros p k v Hin. apply list_elem_of_In in Hin. by destruct Hin as [|[|[]]]. }
  intros [n|e] sp2 Hb2; [|done].
  apply ens_bind. eapply ens_conseq; [apply (scripted_backed org); [apply loadDataBags_scripted|done]|].
  { intros k v. by apply (bool_decide_unpack _). }
  { intros p k v Hin. apply list_elem_of_In in Hin. by destruct Hin as [|[|[]]]. }
  intros [[bags items]|e] sp3 Hb3; [|done].
  apply ens_bind. unfold loadCookbooks. apply ens_bind, ens_of. destruct (subdirs _) as [names|e]; [|done].
  apply ens_bind. apply ens_each with (inv := λ _ sp', backed sp'); [done| |].
  - intros dn name rest sp' _ Hb'. eapply ens_conseq; [by apply loadCookbook_backed|]. by intros [[]|e].
  - intros sp' Hb'. by apply ens_ret, ens_ret.
Qed.
End Backed.

(** C15. At any end of a load, every stored manifest is backed by its files, if the
    stored ones were and no cookbook loaded depends on one called "checksum". *)
Theorem imported_manifests_backed `{Unicode} `{MD5} `{GoQuote} `{FileSystem} `{BackendSpec B} {O} (org : string)
    (root : list string) (s : Store B O) (Hdeps : plain_dependencies (root ++ ["cookbooks"])) (Hs : backed (view s.1)) :
  backed (view (Repo_Load org root s).2.1).
Proof. pose proof (Repo_Load_backed org root (view s.1) Hdeps Hs s eq_refl) as Hr. by destruct (Repo_Load org root s). Qed.

(** ** Users of a state directory *)

(** A loaded user: its password is stored apart, hashed, and the record has no
    such member; without one the record is the file in its stored form. *)
Definition loaded_user `{PBKDF2} `{FileSystem} (path : list string) (objs : objects) : Prop := ∃ o raw,
  readObject path = Ok (o, raw) ∧
  let name := objectKey o "username" path in
  match assoc o "password" with
  | Some (VStr pw) =>
      (∃ h, objs !! (Global, PasswordsCollection, name) = Some h ∧ IsPasswordHash h = true ∧ VerifyPassword h pw = true) ∧
      ∃ o', objs !! (Global, "users", name) = Some (json_Marshal (VObj o')) ∧ assoc o' "password" = None ∧
        ∀ k, k ≠ "password" → assoc o' k = assoc o k
  | _ => objs !! (Global, "users", name) = Some raw
  end.

Lemma assoc_drop (o : obj) (f : string) : assoc (filter (λ e, e.1 ≠ f) o) f = None ∧
  ∀ k, k ≠ f → assoc (filter (λ e, e.1 ≠ f) o) k = assoc o k.
Proof.
  induction o as [|[k' v] o [IH1 IH2]]; [done|]. destruct (decide (k' = f)) as [->|Hk].
  - rewrite filter_cons_False by (cbn; naive_solver). split; [done|]. intros k Hne. cbn [assoc]. rewrite decide_False by done. auto.
  - rewrite filter_cons_True by done. cbn [assoc]. split; [by rewrite decide_False|]. intros k Hne. case_decide; auto.
Qed.

(** Loading a user file stores its record without the password, which is stored
    hashed and can be logged in with. *)
Theorem loaded_users_hide_passwords `{Unicode} `{MD5} `{GoQuote} `{PBKDF2Spec} `{FileSystem} `{BackendSpec B} {O} (iter : Z)
    (rnd : entropy) (path : list string) (s : Store B O)
    (Hiter : (1 ≤ iter ≤ maxPasswordIterations)%Z) (Hsalt : ∃ salt, e_salt rnd path = Ok salt ∧ salt ≠ "") :
  match loadGlobalUser iter rnd path s with
  | (Ok _, s') => loaded_user path (objs s')
  | (Err _, _) => True
  end.
Proof.
  destruct Hsalt as (salt & Hsalt & Hne).
  assert (ensures (B := B) (O := O) (loadGlobalUser iter rnd path) (view s.1)
    (λ r sp', match r with Ok _ => loaded_user path (s_objs sp') | Err _ => True end)) as He.
  { unfold loadGlobalUser, StashPassword. rewrite Hsalt. apply ens_bind, ens_of. destruct (readObject path) as [[o raw]|e] eqn:Er; [|done].
    cbn zeta. apply ens_bind. destruct (assoc o "password") as [[| | |pw| |]|] eqn:Ea;
      try (apply ens_ret, ens_Put; [|done]; exists o, raw; split; [done|]; cbn zeta; rewrite Ea, s_objs_put; by rewrite lookup_insert_eq).
    destruct (HashPassword iter (Ok salt) pw) as [h|e] eqn:Eh; [|by intros s1 Hs1].
    apply ens_bind, ens_Put; [|done]. apply ens_ret, ens_Put; [|done]. exists o, raw. split; [done|]. cbn zeta. rewrite Ea, !s_objs_put.
    destruct (hash_verifies iter salt pw h pw Hiter Hne Eh) as [Hh Hv]. split.
    - exists h. rewrite lookup_insert_ne by done. rewrite lookup_insert_eq. split; [done|]. split; [done|]. by apply Hv.
    - exists (filter (λ e, e.1 ≠ "password") o). rewrite lookup_insert_eq. split; [done|]. apply assoc_drop. }
  specialize (He s eq_refl). by destruct (loadGlobalUser iter rnd path s).
Qed.

(** ** The scan of metadata.rb ends *)

Lemma skip_space_length s : String.length (skip_space s) ≤ String.length s.
Proof. induction s as [|c s IH]; [done|]. cbn. destruct (re_space c); cbn; lia. Qed.
Lemma upto_quote_length s v r : upto_quote s = Some (v, r) → String.length r < String.length s.
Proof.
  revert v r. induction s as [|c s IH]; intros v r; [done|]. cbn. destruct (quote_mark c); [intros [= _ <-]; lia|].
  destruct (upto_quote s) as [[v' r']|]; [|done]. intros [= _ <-]. specialize (IH _ _ eq_refl). lia.
Qed.
Lemma quoted_length s v r : quoted s = Some (v, r) → String.length r < String.length s.
Proof.
  destruct s as [|q s]; [done|]. cbn. destruct (quote_mark q); [|done]. destruct (upto_quote s) as [[[|c v'] r']|] eqn:E; [done| |done].
  intros [= _ <-]. apply upto_quote_length in E. lia.
Qed.
Lemma cut_prefix_length p s r : cut_prefix p s = Some r → String.length r ≤ String.length s.
Proof. revert s. induction p as [|c p IH]; intros [|d s]; cbn; try done; [by intros [= <-]|by intros [= <-]|]. case_decide; [|done]. intros Hr%IH. lia. Qed.

Lemma depends_at_length s n v r : depends_at s = Some (n, v, r) → String.length r < String.length s.
Proof.
  unfold depends_at, field_at. destruct (cut_prefix _ _) as [[|c rest]|] eqn:Ec; [done| |done]. apply cut_prefix_length in Ec.
  pose proof (skip_space_length s). destruct (re_space c); [|done]. destruct (quoted _) as [[name r1]|] eqn:Eq; [|done].
  apply quoted_length in Eq. pose proof (skip_space_length (String c rest)). pose proof (skip_space_length r1) as Hr.
  destruct (skip_space r1) as [|d r2]; cbn in Hr; [intros [= _ _ <-]; cbn; lia|]. case_decide; [|intros [= _ _ <-]; cbn; lia].
  destruct (quoted (skip_space r2)) as [[v' r3]|] eqn:Eq2; intros [= _ _ <-]; [|cbn; lia].
  apply quoted_length in Eq2. pose proof (skip_space_length r2). lia.
Qed.

(** Every step takes a byte, so the fuel is never met: more of it finds no more. *)
Lemma all_depends_fuel n m bol s : String.length s < n → String.length s < m → all_depends n bol s = all_depends m bol s.
Proof.
  revert m bol s. induction n as [|n IH]; intros [|m] bol s Hn Hm; [lia..|]. cbn [all_depends].
  destruct (if bol then depends_at s else None) as [[[name v] rest]|] eqn:E.
  - destruct bol; [|done]. apply depends_at_length in E. f_equal. apply IH; lia.
  - destruct s as [|c s]; [done|]. cbn in Hn, Hm. apply IH; lia.
Qed.

(** ** Samples *)

Definition line (l : list string) : string := join (String (chr 10) "") l.

(** A directory tree as a table: its files and what each directory lists; a walk
    goes over the files of the one cookbook. *)
Definition disk (files : list (list string * string)) (dirs : list (list string * list (string * bool))) (walk : list (list string)) : FileSystem := {|
  ReadDir := λ p, (λ d, Ok d.2.2) <$> list_find (λ d, d.1 = p) dirs;
  ReadFile := λ p, (λ f, Ok f.2.2) <$> list_find (λ f, f.1 = p) files;
  WalkDir := λ p, (p, Ok true) :: map (λ w, (w, Ok false)) walk;
|}.

Definition node_file : string := mustEncode (VObj [("name", VStr "web1"); ("run_list", VArr [VStr "apache"])]).
Definition user_file : string := mustEncode (VObj [("username", VStr "alice"); ("password", VStr "s3cret")]).
Definition cookbook_dir : list string := ["repo"; "cookbooks"; "apache"].
(** One node and one cookbook with the dependencies [deps]. *)
Definition sample_repo (deps : list string) : FileSystem := disk
  [(["repo"; "nodes"; "web.json"], node_file); (["state"; "users"; "a.json"], user_file);
   (cookbook_dir ++ ["metadata.rb"], line (["name 'apache'"; "version '1.2.0'"] ++ deps));
   (cookbook_dir ++ ["recipes"; "default.rb"], "puts 1")]
  [(["repo"; "nodes"], [("notes.txt", false); ("web.json", false)]); (["repo"; "cookbooks"], [("apache", true)])]
  [cookbook_dir ++ ["metadata.rb"]; cookbook_dir ++ ["recipes"; "default.rb"]].

#[local] Instance import_unicode : Unicode := caseless_unicode.
#[local] Instance import_quote : GoQuote := {| strconv_Quote := go_quote |}.
#[local] Instance import_md5 : MD5 := λ s, str_take 4 s.

Definition loaded_repo (deps : list string) : result (gmap string nat) * Store Memory.memoryBackend groupIndexCache :=
  Repo_Load (H2 := sample_repo deps) "acme" ["repo"] acme_org.

Example repo_sample :
  let '(r, s) := loaded_repo ["depends 'apt'"] in
  r = Ok {[ "nodes" := 1; "cookbooks" := 1 ]} ∧
  objs s !! ("acme", "nodes", "web1") = Some (mustEncode (VObj [("name", VStr "web1"); ("run_list", VArr [VStr "recipe[apache]"])])) ∧
  map (λ c, bool_decide (is_Some (s_blobs (view s.1) !! ("acme", c)))) (match objs s !! ("acme", "cookbooks", "apache/1.2.0") with
    | Some raw => manifest_sums raw | None => [] end) = [true; true].
Proof. vm_compute. auto. Qed.

Lemma sample_dependencies : plain_dependencies (H2 := sample_repo ["depends 'apt'"]) (["repo"] ++ ["cookbooks"]).
Proof.
  intros name meta. destruct (decide (name = "apache")) as [->|Hne]; [vm_compute; by intros [= <-]|].
  assert (∀ f, ReadFile (FileSystem := sample_repo ["depends 'apt'"]) (["repo"] ++ ["cookbooks"] ++ [name] ++ [f]) = None) as Hf.
  { intros f. cbn. by rewrite !decide_False by (intros [=]; congruence). }
  unfold readCookbookMetadata, readable. rewrite <-!app_assoc, !Hf. by intros [= <-].
Qed.

Lemma imported_manifests_backed_witness : backed (view (loaded_repo ["depends 'apt'"]).2.1).
Proof.
  exact (imported_manifests_backed (H2 := sample_repo ["depends 'apt'"]) "acme" ["repo"] acme_org sample_dependencies acme_backed).
Defined.

#[local] Instance import_pbkdf2 : PBKDF2 := {| pbkdf2_Key := λ pw salt iter n, Ok (str_take n (pw +:+ zeros n)) |}.
#[local] Instance import_pbkdf2_spec : PBKDF2Spec.
Proof.
  constructor. intros pw salt iter n k [= <-]. apply length_str_take. rewrite length_app_string.
  assert (String.length (zeros n) = n) as -> by (induction n; cbn; congruence). lia.
Qed.
Definition sample_entropy : entropy := mkEntropy (λ _, Ok "salt") (λ _, inl "guid") (λ _, inl ("pub", "priv")).

Lemma loaded_users_hide_passwords_witness :
  match loadGlobalUser (H3 := sample_repo []) 2 sample_entropy ["state"; "users"; "a.json"] acme_org with
  | (Ok _, s') => loaded_user (H0 := sample_repo []) ["state"; "users"; "a.json"] (objs s')
  | (Err _, _) => True
  end ∧ (loadGlobalUser (H3 := sample_repo []) 2 sample_entropy ["state"; "users"; "a.json"] acme_org).1 = Ok tt.
Proof.
  split; [|vm_compute; reflexivity].
  apply (loaded_users_hide_passwords 2 sample_entropy ["state"; "users"; "a.json"] acme_org); [unfold maxPasswordIterations; lia|].
  exists "salt". by split.
Defined.

(** A state directory with a user and a new organization it is a member of. *)
Definition sample_state : FileSystem := disk
  [(["state"; "users"; "a.json"], user_file); (["state"; "organizations"; "eng"; "nodes"; "web.json"], node_file);
   (["state"; "organizations"; "eng"; "members.json"], mustEncode (VArr [VObj [("user", VObj [("username", VStr "alice")])]]))]
  [(["state"; "users"], [("a.json", false)]); (["state"; "organizations"], [("eng", true)]);
   (["state"; "organizations"; "eng"; "nodes"], [("web.json", false)])] [].
Example state_sample :
  let '(r, s) := State_Load (H3 := sample_state) 2 sample_entropy ["state"] acme_org in
  r = Ok (mkSummary 1 {[ "eng" := mkOrgSummary {[ "nodes" := 1 ]} 0 ]}) ∧
  objs s !! (Global, "users", "alice") = Some (mustEncode (VObj [("username", VStr "alice")])) ∧
  match objs s !! (Global, PasswordsCollection, "alice") with Some h => VerifyPassword h "s3cret" | None => false end = true ∧
  is_Some (objs s !! ("eng", AssociationUsersCollection, "alice")) ∧
  is_Some (objs s !! ("eng", groupMembersColl, memberKey "users" memberUsers "alice")).
Proof. vm_compute. eauto 10. Qed.

(** The dependency after an indented one without a constraint is lost: the match
    takes the white space that follows, and with it the start of the next line. *)
Example indented_dependency_lost :
  map fst (metadata_depends (line ["depends 'apt'"; "depends 'yum'"; "depends 'logrotate'"])) = ["apt"; "yum"; "logrotate"] ∧
  map fst (metadata_depends (line ["  depends 'apt'"; "  depends 'yum'"; "  depends 'logrotate'"])) = ["apt"; "logrotate"].
Proof. vm_compute. auto. Qed.

(** A dependency on a cookbook called "checksum" is taken for a file: the manifest
    is stored, and names a file that is not there. *)
Definition names_file (s : Store Memory.memoryBackend groupIndexCache) (key sum : string) : bool :=
  match objs s !! ("acme", "cookbooks", key) with Some raw => contains_str (manifest_sums raw) sum | None => false end.
Example dependency_taken_for_file :
  let '(r, s) := loaded_repo ["depends 'checksum', '>= 1.0'"] in
  is_Ok r = true ∧ names_file s "apache/1.2.0" ">= 1.0" = true ∧ s_blobs (view s.1) !! ("acme", ">= 1.0") = None.
Proof. vm_compute. auto. Qed.
