(* ===== verification/Endpoints.v ===== *)
(** * The server's own endpoints (internal/api/server_endpoints.go, system.go, stats.go)

    The negotiated version, licence and status replies, the principals of an
    organization, and the classification of replies for the request counter. *)
From stdpp Require Import pretty.
From S2P Require Import Prelude GoText Json Chefjson Float GoJson Stored Store Facade Groups Http Effects Acl Presign Objects Manifest Auth Time Records Keys Associations Policies.
#[local] Open Scope go_scope.
#[local] Open Scope http_scope.

(** ** Fixed replies *)

(** [encoding/json] of a struct: its fields in their order. *)
Definition struct_json (fields : obj) : string := print json_escape (VObj fields) +:+ String (chr 10) "".

Definition serverAPIVersion `{Unicode} (header : string) : reply :=
  let requested := VNum (pretty (requestAPIVersion header)) in
  writeJSON 200 (VObj [("min_api_version", VNum (pretty apiVersionMin)); ("max_api_version", VNum (pretty apiVersionMax));
    ("request_version", requested); ("response_version", requested)]).

Definition license : reply :=
  writeJSON 200 (VObj [("limit_exceeded", VBool false); ("node_license", VNum "25"); ("node_count", VNum "0");
    ("upgrade_url", VStr "https://www.chef.io/contact-us/")]).

Definition requiredRecipe : reply := writeError 404 ["Required recipe is not configured on this server."].

(** [GET /_status]. *)
Definition status_reply (draining : bool) : reply :=
  if draining then writeJSON 503 (VObj [("status", VStr "draining")])
  else writeJSON 200 (VObj [("status", VStr "pong"); ("keygen", VObj [("keys", VNum "0")])]).

(** The value of the negotiation header. *)
Definition setVersionHeader (requested response : Z) : string :=
  mustEncode (VObj [("min_version", VStr (pretty apiVersionMin)); ("max_version", VStr (pretty apiVersionMax));
    ("request_version", VStr (pretty requested)); ("response_version", VStr (pretty response))]).

(** ** Counting replies *)

Definition outcomeFor (code : Z) : string :=
  if decide (code = 401)%Z then "401"
  else if decide (500 ≤ code)%Z then "5xx"
  else if decide (400 ≤ code)%Z then "4xx"
  else if decide (300 ≤ code)%Z then "3xx"
  else "2xx".

Fixpoint prefers_text `{Unicode} (parts : list string) : bool :=
  match parts with
  | [] => false
  | part :: parts' =>
      let media := TrimSpace (match cut ";" (TrimSpace part) with Some (m, _) => m | None => TrimSpace part end) in
      if decide (media = "application/json") then false
      else if decide (media = "text/plain") then true
      else prefers_text parts'
  end.
Definition prefersText `{Unicode} (accept : string) : bool :=
  if decide (accept = "") then false else prefers_text (split_on "," accept).

(** ** Principals *)

Record principalJSON := mkPrincipal { p_name : string; p_public_key : string; p_type : string; p_authz_id : string; p_org_member : bool }.
Definition principal_fields (p : principalJSON) : obj :=
  [("name", VStr (p_name p)); ("public_key", VStr (p_public_key p)); ("type", VStr (p_type p)); ("authz_id", VStr (p_authz_id p));
   ("org_member", VBool (p_org_member p))].

Section Principals.
Context {B : Type} `{Backend B} {O : Type}.
Abbreviation st := (Store B O).

Definition principalOrgMember (org typ name : string) : ST st bool :=
  if decide (typ = "client") then st_ret true
  else let! row := Org_Get org assocColl name in st_ret (bool_decide (row ≠ None)).

(** The first of the sources that knows the name: its space, collection and
    type. *)
Fixpoint first_source (org name : string) (sources : list (string * string * string)) : ST st (list principalJSON) :=
  match sources with
  | [] => st_ret []
  | (scope, coll, typ) :: sources' =>
      let! raw := Org_Get scope coll name in
      match raw with
      | None => first_source org name sources'
      | Some raw =>
          let! member := principalOrgMember org typ name in
          st_ret [mkPrincipal name (default "" (String_ raw "public_key")) typ name member]
      end
  end.
Definition principalV0 (org name : string) : ST st (list principalJSON) :=
  first_source org name [(org, "clients", "client"); (Global, "users", "user")].

Fixpoint all_sources (org name : string) (now : time) (sources : list (string * string * string)) : ST st (list principalJSON) :=
  match sources with
  | [] => st_ret []
  | (scope, coll, typ) :: sources' =>
      let! raw := Org_Get scope coll name in
      let! here := (match raw with
        | None => st_ret []
        | Some raw =>
            let! keys := SigningKeys scope coll name (default "" (String_ raw "public_key")) now in
            match keys with
            | [] => st_ret []
            | _ =>
                let! member := principalOrgMember org typ name in
                st_ret (map (λ k, mkPrincipal name k typ name member) keys)
            end
        end) in
      let! rest := all_sources org name now sources' in
      st_ret (here ++ rest)
  end.
Definition principalsByKey (org name : string) (now : time) : ST st (list principalJSON) :=
  all_sources org name now [(Global, "users", "user"); (org, "clients", "client")].

Definition no_principal (name : string) : reply :=
  mkReply 404 (Raw (struct_json [("not_found", VStr "principal"); ("error", VStr ("Cannot find principal " +:+ name))])).
Definition principals_reply (found : list principalJSON) : reply :=
  mkReply 200 (Raw (struct_json [("principals", VArr (map (λ p, VObj (principal_fields p)) found))])).

Definition principal `{Unicode} (version_header : string) (now : time) (orgname name : string) : handler st reply :=
  let? org := API_org orgname in
  let v0 := bool_decide (requestAPIVersion version_header = 0%Z) in
  let? found := or_500 (if v0 then principalV0 org name else principalsByKey org name now) in
  match found with
  | [] => h_reply (no_principal name)
  | p :: _ => h_ret (if v0 then mkReply 200 (Raw (struct_json (principal_fields p))) else principals_reply found)
  end.
End Principals.

(** ** What the principals of a name are *)

Section Answers.
Context {B : Type} `{BackendSpec B} {O : Type}.
Abbreviation st := (Store B O).

(** Whether the actor counts as a member of the organization. *)
Definition is_member (objs : objects) (org typ name : string) : bool :=
  bool_decide (typ = "client" ∨ objs !! (org, assocColl, name) ≠ None).

(** The keys of an actor that authenticate at [now]. *)
Definition usable_keys (objs : objects) (now : time) (scope coll name raw : string) : list string :=
  omap (live now) (map_to_list (ring_of (key_rows scope coll name objs) (default "" (String_ raw "public_key")))).*2.

(** The entries of one source, in whatever order its keys are stored. *)
Definition source_entries (objs : objects) (org name : string) (now : time) (src : string * string * string) (l : list principalJSON) : Prop :=
  let '(scope, coll, typ) := src in
  match objs !! (scope, coll, name) with
  | None => l = []
  | Some raw => l ≡ₚ map (λ k, mkPrincipal name k typ name (is_member objs org typ name)) (usable_keys objs now scope coll name raw)
  end.

Lemma ens_principalOrgMember (org typ name : string) (sp : space) (Q : result bool → space → Prop) :
  Q (Ok (is_member (s_objs sp) org typ name)) sp → (∀ e, Q (Err e) sp) → ensures (B := B) (O := O) (principalOrgMember org typ name) sp Q.
Proof.
  intros HO HE. unfold principalOrgMember, is_member in *. case_decide as Ht.
  - apply ens_ret. by rewrite bool_decide_eq_true_2 in HO by (by left).
  - apply ens_bind, ens_Get; [|done]. apply ens_ret.
    erewrite bool_decide_ext in HO; [exact HO|]. split; [by intros [?|?]|by right].
Qed.

Lemma ens_all_sources (org name : string) (now : time) (sources : list (string * string * string)) (sp : space)
    (Q : result (list principalJSON) → space → Prop) :
  (∀ parts, Forall2 (source_entries (s_objs sp) org name now) sources parts → Q (Ok (concat parts)) sp) → (∀ e, Q (Err e) sp) →
  ensures (B := B) (O := O) (all_sources org name now sources) sp Q.
Proof.
  revert Q. induction sources as [|[[scope coll] typ] sources IH]; intros Q HO HE; cbn [all_sources]; [by apply ens_ret, (HO [])|].
  apply ens_bind, ens_Get; [|done].
  assert (∀ here, source_entries (s_objs sp) org name now (scope, coll, typ) here →
    ensures (B := B) (O := O) (let! rest := all_sources org name now sources in st_ret (here ++ rest)) sp Q) as Hrest.
  { intros here Hh. apply ens_bind, IH; [|done]. intros parts Hp. apply ens_ret. apply (HO (here :: parts)). by constructor. }
  unfold source_entries in Hrest. destruct (s_objs sp !! (scope, coll, name)) as [raw|]; [|by apply ens_bind, ens_ret, Hrest].
  apply ens_bind, ens_bind, ens_SigningKeys; [|done]. intros keys Hk. destruct keys as [|k keys].
  - apply ens_ret, Hrest. unfold usable_keys. by rewrite <-Hk.
  - apply ens_bind, ens_principalOrgMember; [|done]. apply ens_ret, Hrest. unfold usable_keys. by rewrite <-Hk.
Qed.
End Answers.

(** The reply as a function of what is stored. *)
Definition principal_outcome `{Unicode} (header : string) (now : time) (org name : string) (sp : space) (rep : reply) : Prop :=
  let objs := s_objs sp in
  if decide (org ∈ s_orgs sp) then
    if decide (requestAPIVersion header = 0%Z) then
      rep = match objs !! (org, "clients", name), objs !! (Global, "users", name) with
            | Some raw, _ => mkReply 200 (Raw (struct_json (principal_fields (mkPrincipal name (default "" (String_ raw "public_key")) "client" name true))))
            | None, Some raw => mkReply 200 (Raw (struct_json (principal_fields (mkPrincipal name (default "" (String_ raw "public_key")) "user" name
                                  (is_member objs org "user" name)))))
            | None, None => no_principal name
            end
    else ∃ users clients, source_entries objs org name now (Global, "users", "user") users ∧
           source_entries objs org name now (org, "clients", "client") clients ∧
           rep = match users ++ clients with [] => no_principal name | found => principals_reply found end
  else status rep = 404%Z.

Lemma principal_ensures `{Unicode} `{BackendSpec B} {O} (header : string) (now : time) (org name : string) (sp : space) :
  h_ensures (B := B) (O := O) (principal header now org name) sp
    (λ res sp', sp' = sp ∧ (status (reply_of res) = 500%Z ∨ principal_outcome header now org name sp (reply_of res))).
Proof.
  unfold principal_outcome. destruct (decide (org ∈ s_orgs sp)) as [Hin|Hin]; cycle 1.
  { apply h_ens_bind, h_ens_org; [done|]. intros rep Hr. split; [done|]. apply list_elem_of_In in Hr as [E|[E|[]]]; [right|left]; symmetry; exact E. }
  apply h_ens_bind, h_ens_org_there; [done| |by auto]. destruct (decide (requestAPIVersion header = 0%Z)) as [Hv|Hv].
  - rewrite bool_decide_eq_true_2 by done. apply h_ens_bind, h_ens_or_500. unfold principalV0. cbn [first_source].
    apply ens_bind, ens_Get; [|by auto]. destruct (s_objs sp !! (org, "clients", name)) as [raw|].
    + apply ens_bind, ens_principalOrgMember; [|by auto]. apply ens_ret, h_ens_ret. split; [done|]. by right.
    + apply ens_bind, ens_Get; [|by auto]. destruct (s_objs sp !! (Global, "users", name)) as [raw|].
      * apply ens_bind, ens_principalOrgMember; [|by auto]. apply ens_ret, h_ens_ret. split; [done|]. by right.
      * apply ens_ret, h_ens_reply. split; [done|]. by right.
  - rewrite bool_decide_eq_false_2 by done. apply h_ens_bind, h_ens_or_500, ens_all_sources; [|by auto].
    intros parts Hp. apply Forall2_cons_inv_l in Hp as (users & rest & Hu & Hp & ->). apply Forall2_cons_inv_l in Hp as (clients & rest' & Hc & Hp & ->).
    apply Forall2_nil_inv_l in Hp as ->. cbn [concat]. rewrite app_nil_r. destruct (users ++ clients) as [|p found] eqn:E.
    + apply h_ens_reply. split; [done|]. right. exists users, clients. by rewrite E.
    + apply h_ens_ret. split; [done|]. right. exists users, clients. by rewrite E.
Qed.

(** The principals an organization answers to a name. At API version 0: the client
    of the name, or else the user, with the key of its record; later: one entry
    per key the user, and then the client, could sign a request with now, and
    404 when there is none. Users are members when associated, clients always;
    nothing is stored. *)
Theorem principals_answer `{Unicode} `{BackendSpec B} {O} (header : string) (now : time) (org name : string) (s : Store B O) :
  let '(rep, s') := replied (principal header now org name s) in
  view s'.1 = view s.1 ∧ (status rep = 500%Z ∨ principal_outcome header now org name (view s.1) rep).
Proof.
  apply (replied_ensures _ (λ rep sp sp', sp' = sp ∧ (status rep = 500%Z ∨ principal_outcome header now org name sp rep))), principal_ensures.
Qed.

(** A user and a client of one name: a v0 request gets the client, a later one
    both, the user first. *)
Definition two_actors : Store Memory.memoryBackend unit :=
  (Org_Put Global "users" "web" (mustEncode (VObj [("public_key", VStr "USERKEY")]))
    (Org_Put "acme" "clients" "web" (mustEncode (VObj [("public_key", VStr "CLIENTKEY")])) acme_org).2).2.
Example principals_sample (now : time) :
  let ask header := (replied (principal (H0 := caseless_unicode) header now "acme" "web" two_actors)).1 in
  (ask "", ask "1") =
  (mkReply 200 (Raw (struct_json (principal_fields (mkPrincipal "web" "CLIENTKEY" "client" "web" true)))),
   principals_reply [mkPrincipal "web" "USERKEY" "user" "web" false; mkPrincipal "web" "CLIENTKEY" "client" "web" true]).
Proof. vm_compute. reflexivity. Qed.
