(* ===== verification/Metrics.v ===== *)
(** * Instruments (internal/metrics/metrics.go, internal/api/stats.go)

    Counters, gauges and histograms, how they are gathered into families and
    written as text, and the instruments of the server. Doubles are a parameter. *)
From stdpp Require Import pretty.
From S2P Require Import Prelude GoText SearchIndex Http RunSearch Endpoints.
#[local] Open Scope Z_scope.
#[local] Open Scope go_scope.

(** [float64]: what the registry does with one. *)
Class Float := {
  float : Type;
  float_add : float → float → float;
  float_ge : float → float → bool;
  of_int64 : Z → float;
  float_lit : string → float;         (* a literal of the source *)
  FormatFloat : float → string;       (* format 'g', shortest *)
}.

(** Integers up to 2^53 are exact. *)
Class FloatSpec `{Float} := {
  float_add_int a b : 0 ≤ a → 0 ≤ b → a + b ≤ 2 ^ 53 → float_add (of_int64 a) (of_int64 b) = of_int64 (a + b);
}.

Record Label := mkLabel { l_name : string; l_value : string }.

Section Metrics.
Context `{Float}.

Record Series := mkSeries { s_labels : list Label; s_value : float }.
Record Bucket := mkBucket { le : string; b_count : float }.
Record Family := mkFamily {
  f_name : string; f_type : string; f_help : string; f_metrics : list Series; f_buckets : list Bucket; f_sum : float; f_count : float;
}.

(** ** Counters *)

Record Counter := mkCounter { c_name : string; c_help : string; c_label : string; c_order : list string; c_values : gmap string Z }.

Definition newCounter (name help label : string) (labelValues : list string) : Counter :=
  let labelValues := match labelValues with [] => [""] | l => l end in
  mkCounter name help label labelValues (list_to_map (map (λ v, (v, 0)) labelValues)).

(** A handle is the series it selects; none for a value that is not registered. *)
Definition With (value : string) (c : Counter) : list string :=
  match c_values c !! value with None => [] | Some _ => [value] end.

Definition Counter_Add (handle : list string) (n : Z) (c : Counter) : Counter :=
  match handle with
  | [] => c
  | v :: _ =>
      match c_values c !! v with
      | None => c
      | Some x => mkCounter (c_name c) (c_help c) (c_label c) (c_order c) (<[v := wrap_int64 (x + n)]> (c_values c))
      end
  end.
Definition Inc (handle : list string) (c : Counter) : Counter := Counter_Add handle 1 c.

Definition Counter_gather (c : Counter) : Family :=
  mkFamily (c_name c) "COUNTER" (c_help c)
    (map (λ v, mkSeries (if decide (c_label c ≠ "") then [mkLabel (c_label c) v] else []) (of_int64 (default 0 (c_values c !! v)))) (c_order c))
    [] (of_int64 0) (of_int64 0).

(** ** Values read when gathered *)

Definition gauge_gather (name help : string) (read : float) : Family :=
  mkFamily name "GAUGE" help [mkSeries [] read] [] (of_int64 0) (of_int64 0).
Definition counterFunc_gather (name help : string) (read : float) : Family :=
  mkFamily name "COUNTER" help [mkSeries [] read] [] (of_int64 0) (of_int64 0).

(** ** Histograms *)

(** [sort.Search]: the loop narrows [i, j) to the first index that satisfies [f]. *)
Fixpoint sort_Search (fuel : nat) (f : nat → bool) (i j : nat) : nat :=
  match fuel with
  | O => i
  | S fuel =>
      if decide (i < j)%nat then
        let h := ((i + j) / 2)%nat in
        if f h then sort_Search fuel f i h else sort_Search fuel f (S h) j
      else i
  end.
Definition SearchFloat64s (a : list float) (x : float) : nat :=
  sort_Search (length a) (λ i, match a !! i with Some b => float_ge b x | None => true end) 0 (length a).

Record Histogram := mkHistogram { h_name : string; h_help : string; h_bounds : list float; h_counts : list Z; h_sum : float; h_total : Z }.

Definition newHistogram (name help : string) (bounds : list float) : Histogram :=
  mkHistogram name help bounds (replicate (S (length bounds)) 0) (of_int64 0) 0.

(** The atomic additions; [None]: the index is out of range. *)
Definition Observe (v : float) (h : Histogram) : option Histogram :=
  let i := SearchFloat64s (h_bounds h) v in
  n ← h_counts h !! i;
  Some (mkHistogram (h_name h) (h_help h) (h_bounds h) (<[i := wrap_int64 (n + 1)]> (h_counts h)) (float_add (h_sum h) v)
    (wrap_int64 (h_total h + 1))).

Fixpoint gather_buckets (cumulative : float) (bounds : list float) (counts : list Z) : option (list Bucket) :=
  match bounds, counts with
  | [], c :: _ => Some [mkBucket "+Inf" (float_add cumulative (of_int64 c))]
  | b :: bounds', c :: counts' =>
      let cumulative := float_add cumulative (of_int64 c) in
      cons (mkBucket (FormatFloat b) cumulative) <$> gather_buckets cumulative bounds' counts'
  | _, [] => None
  end.
Definition Histogram_gather (h : Histogram) : option Family :=
  buckets ← gather_buckets (of_int64 0) (h_bounds h) (h_counts h);
  Some (mkFamily (h_name h) "HISTOGRAM" (h_help h) [] buckets (h_sum h) (of_int64 (h_total h))).

(** ** Text *)

Definition typeText (t : string) : string :=
  if decide (t = "COUNTER") then "counter" else if decide (t = "GAUGE") then "gauge"
  else if decide (t = "HISTOGRAM") then "histogram" else "untyped".

Definition newline_text : string := String (chr 10) "".

Section Text.
Context `{GoQuote}.

Definition labelText (labels : list Label) : string :=
  match labels with
  | [] => ""
  | _ => "{" +:+ join "," (map (λ l, l_name l +:+ "=" +:+ strconv_Quote (l_value l)) labels) +:+ "}"
  end.

Definition family_text (f : Family) : string :=
  "# HELP " +:+ f_name f +:+ " " +:+ f_help f +:+ newline_text +:+ "# TYPE " +:+ f_name f +:+ " " +:+ typeText (f_type f) +:+ newline_text +:+
  (if decide (f_type f = "HISTOGRAM") then
     join "" (map (λ b, f_name f +:+ "_bucket{le=" +:+ strconv_Quote (le b) +:+ "} " +:+ FormatFloat (b_count b) +:+ newline_text) (f_buckets f)) +:+
     f_name f +:+ "_sum " +:+ FormatFloat (f_sum f) +:+ newline_text +:+ f_name f +:+ "_count " +:+ FormatFloat (f_count f) +:+ newline_text
   else join "" (map (λ s, f_name f +:+ labelText (s_labels s) +:+ " " +:+ FormatFloat (s_value s) +:+ newline_text) (f_metrics f))).
Definition WriteText (families : list Family) : string := join "" (map family_text families).
End Text.

(** ** The registry *)

Inductive gatherer :=
  | ACounter (c : Counter)
  | AGauge (name help : string)
  | ACounterFunc (name help : string)
  | AHistogram (h : Histogram).

(** [read]: what the functions of the gauges return when they are sampled. *)
Definition gather (read : string → float) (g : gatherer) : option Family :=
  match g with
  | ACounter c => Some (Counter_gather c)
  | AGauge name help => Some (gauge_gather name help (read name))
  | ACounterFunc name help => Some (counterFunc_gather name help (read name))
  | AHistogram h => Histogram_gather h
  end.

Definition by_name (a b : Family) : Prop := String.le (f_name a) (f_name b).
#[global] Instance by_name_dec a b : Decision (by_name a b).
Proof. unfold by_name. apply _. Defined.
Definition Gather (read : string → float) (registry : list gatherer) : option (list Family) :=
  families ← mapM (M := option) (gather read) registry; Some (merge_sort by_name families).
End Metrics.

(** ** Counting *)

Section Exact.
Context `{FloatSpec}.

Lemma sort_Search_spec (f : nat → bool) : (∀ a b, (a ≤ b)%nat → f a = true → f b = true) → ∀ fuel i j, (i ≤ j)%nat → (j - i ≤ fuel)%nat →
  (∀ k, (k < i)%nat → f k = false) → (∀ k, (j ≤ k)%nat → f k = true) →
  (i ≤ sort_Search fuel f i j ≤ j)%nat ∧ ∀ k, f k = true ↔ (sort_Search fuel f i j ≤ k)%nat.
Proof.
  intros Hm. induction fuel as [|fuel IH]; intros i j Hij Hf Hlo Hhi; cbn [sort_Search].
  { assert (i = j) as <- by lia. split; [lia|]. intros k. destruct (decide (k < i)%nat); [rewrite Hlo by lia|rewrite Hhi by lia]; split; intros; (done || lia). }
  case_decide as Hlt; cycle 1.
  { assert (i = j) as <- by lia. split; [lia|]. intros k. destruct (decide (k < i)%nat); [rewrite Hlo by lia|rewrite Hhi by lia]; split; intros; (done || lia). }
  pose proof (Nat.div_mod_eq (i + j) 2). pose proof (Nat.mod_upper_bound (i + j) 2 ltac:(lia)). set (h := ((i + j) / 2)%nat) in *.
  destruct (f h) eqn:Eh.
  - destruct (IH i h) as [Hb Hk]; [lia|lia|done| |split; [lia|exact Hk]]. intros k Hk. by apply (Hm h).
  - destruct (IH (S h) j) as [Hb Hk]; [lia|lia| |done|split; [lia|exact Hk]].
    intros k Hk. destruct (f k) eqn:E; [|done]. apply (Hm k h) in E; [congruence|lia].
Qed.

(** The bounds are in order for the value: past the first that is not less than
    it, none is. *)
Definition ordered_for (bounds : list float) (v : float) : Prop :=
  ∀ i j b c, (i ≤ j)%nat → bounds !! i = Some b → bounds !! j = Some c → float_ge b v = true → float_ge c v = true.

(** The bucket of a value is the first whose bound is not less than it. *)
Lemma SearchFloat64s_spec (bounds : list float) (v : float) : ordered_for bounds v →
  (SearchFloat64s bounds v ≤ length bounds)%nat ∧
  ∀ i b, bounds !! i = Some b → float_ge b v = true ↔ (SearchFloat64s bounds v ≤ i)%nat.
Proof.
  intros Ho. unfold SearchFloat64s. set (f := λ i, match bounds !! i with Some b => float_ge b v | None => true end).
  destruct (sort_Search_spec f) with (fuel := length bounds) (i := 0%nat) (j := length bounds) as [Hb Hk]; [|lia..| | |].
  - intros a b Hab. unfold f. destruct (bounds !! a) as [x|] eqn:Ea.
    + destruct (bounds !! b) as [y|] eqn:Eb; [|done]. by eapply Ho.
    + apply lookup_ge_None in Ea. by rewrite lookup_ge_None_2 by lia.
  - intros k Hk. lia.
  - intros k Hk. unfold f. by rewrite lookup_ge_None_2 by lia.
  - split; [lia|]. intros i b Hi. rewrite <-Hk. unfold f. by rewrite Hi.
Qed.

Definition count {A} (P : A → Prop) `{∀ x, Decision (P x)} (l : list A) : Z := Z.of_nat (length (filter P l)).

Lemma count_snoc {A} (P : A → Prop) `{∀ x, Decision (P x)} (l : list A) (x : A) :
  count P (l ++ [x]) = count P l + (if decide (P x) then 1 else 0).
Proof. unfold count. rewrite filter_app, length_app. case_decide; [rewrite filter_cons_True by done|rewrite filter_cons_False by done]; cbn; lia. Qed.
Lemma count_bounds {A} (P : A → Prop) `{∀ x, Decision (P x)} (l : list A) : 0 ≤ count P l ≤ Z.of_nat (length l).
Proof. unfold count. pose proof (length_filter P l). lia. Qed.
Lemma count_ext {A} (P Q : A → Prop) `{∀ x, Decision (P x)} `{∀ x, Decision (Q x)} (l : list A) :
  (∀ x, x ∈ l → P x ↔ Q x) → count P l = count Q l.
Proof.
  intros HPQ. unfold count. f_equal. f_equal. induction l as [|x l IH]; [done|].
  rewrite !filter_cons. assert (P x ↔ Q x) as Hx by (apply HPQ; by left). rewrite IH by (intros y Hy; apply HPQ; by right).
  destruct (decide (P x)), (decide (Q x)); (done || tauto).
Qed.
Lemma count_none {A} (P : A → Prop) `{∀ x, Decision (P x)} (l : list A) : (∀ x, x ∈ l → ¬ P x) → count P l = 0.
Proof.
  intros HP. unfold count. induction l as [|x l IH]; [done|]. rewrite filter_cons_False by (apply HP; by left). apply IH.
  intros y Hy. apply HP. by right.
Qed.
Lemma count_all {A} (P : A → Prop) `{∀ x, Decision (P x)} (l : list A) : (∀ x, x ∈ l → P x) → count P l = Z.of_nat (length l).
Proof.
  intros HP. unfold count. f_equal. induction l as [|x l IH]; [done|]. rewrite filter_cons_True by (apply HP; by left). cbn. f_equal. apply IH.
  intros y Hy. apply HP. by right.
Qed.
Lemma count_split {A} (f : A → nat) (k : nat) (l : list A) :
  count (λ x, (f x < S k)%nat) l = count (λ x, (f x < k)%nat) l + count (λ x, f x = k) l.
Proof.
  unfold count. induction l as [|x l IH]; [done|]. rewrite !filter_cons. repeat case_decide; cbn [length]; lia.
Qed.

Fixpoint observe_all (vs : list float) (h : Histogram) : option Histogram :=
  match vs with [] => Some h | v :: vs' => Observe v h ≫= observe_all vs' end.

(** What a histogram holds after the values [vs]. *)
Definition holds (bounds vs : list float) (h : Histogram) : Prop :=
  h_bounds h = bounds ∧ length (h_counts h) = S (length bounds) ∧ h_total h = Z.of_nat (length vs) ∧
  ∀ i n, h_counts h !! i = Some n → n = count (λ v, SearchFloat64s bounds v = i) vs.

Lemma Observe_holds (bounds vs : list float) (v : float) (h : Histogram) : holds bounds vs h → ordered_for bounds v →
  Z.of_nat (length vs) < 2 ^ 53 → ∃ h', Observe v h = Some h' ∧ holds bounds (vs ++ [v]) h'.
Proof.
  intros (Hb & Hl & Ht & Hc) Ho Hn. destruct (SearchFloat64s_spec bounds v Ho) as [Hi _].
  assert (∀ z, 0 ≤ z ≤ 2 ^ 53 → wrap_int64 z = z) as Hw by (intros z Hz; unfold wrap_int64; rewrite Z.mod_small by lia; lia).
  destruct (lookup_lt_is_Some_2 (h_counts h) (SearchFloat64s bounds v)) as [n En]; [lia|].
  unfold Observe. rewrite Hb, En. cbn. eexists. split; [done|]. split_and!; cbn; [done|by rewrite length_insert| |].
  - rewrite Ht, Hw, length_app by lia. cbn. lia.
  - intros i m Hm. rewrite count_snoc. destruct (decide (SearchFloat64s bounds v = i)) as [<-|Hne].
    + rewrite list_lookup_insert_eq in Hm by lia. injection Hm as <-. rewrite <-(Hc _ _ En).
      apply Hw. rewrite (Hc _ _ En). pose proof (count_bounds (λ v0, SearchFloat64s bounds v0 = SearchFloat64s bounds v) vs). lia.
    + rewrite list_lookup_insert_ne in Hm by done. rewrite (Hc _ _ Hm). lia.
Qed.

Lemma observe_all_holds (bounds : list float) (more : list float) : Forall (ordered_for bounds) more → ∀ vs h, holds bounds vs h →
  Z.of_nat (length (vs ++ more)) ≤ 2 ^ 53 → ∃ h', observe_all more h = Some h' ∧ holds bounds (vs ++ more) h'.
Proof.
  induction 1 as [|v more Hv Hmore IH]; intros vs h Hh Hn; cbn [observe_all]; [exists h; by rewrite app_nil_r|].
  rewrite length_app in Hn. cbn in Hn. destruct (Observe_holds bounds vs v h Hh Hv) as (h1 & -> & Hh1); [lia|]. cbn.
  destruct (IH (vs ++ [v]) h1 Hh1) as (h2 & E & Hh2); [rewrite !length_app in *; cbn in *; lia|]. exists h2. split; [done|]. by rewrite <-app_assoc in Hh2.
Qed.

Lemma new_holds (name help : string) (bounds : list float) : holds bounds [] (newHistogram name help bounds).
Proof. split_and!; [done|cbn; by rewrite length_replicate|done|]. intros i n Hn. by apply lookup_replicate in Hn as [-> _]. Qed.

(** The buckets from the [k]-th on, when [cumulative] counts those before. *)
Lemma gather_buckets_spec (bounds vs : list float) (h : Histogram) : holds bounds vs h → Z.of_nat (length vs) ≤ 2 ^ 53 →
  ∀ rest k, drop k bounds = rest → (k ≤ length bounds)%nat →
  gather_buckets (of_int64 (count (λ v, (SearchFloat64s bounds v < k)%nat) vs)) rest (drop k (h_counts h)) =
  Some (imap (λ j b, mkBucket (FormatFloat b) (of_int64 (count (λ v, (SearchFloat64s bounds v ≤ k + j)%nat) vs))) rest ++
        [mkBucket "+Inf" (of_int64 (count (λ v, (SearchFloat64s bounds v ≤ length bounds)%nat) vs))]).
Proof.
  intros (_ & Hl & _ & Hc) Hn. induction rest as [|b rest IH]; intros k Hd Hk.
  - assert (k = length bounds) as -> by (apply (f_equal length) in Hd; rewrite length_drop in Hd; cbn in Hd; lia).
    destruct (lookup_lt_is_Some_2 (h_counts h) (length bounds)) as [n En]; [lia|]. rewrite (drop_S _ _ _ En), drop_ge by lia. cbn.
    rewrite (Hc _ _ En), float_add_int, <-count_split; [|apply count_bounds..|].
    + do 4 f_equal. apply count_ext. intros v _. lia.
    + rewrite <-count_split. pose proof (count_bounds (λ v, (SearchFloat64s bounds v < S (length bounds))%nat) vs). lia.
  - assert (k < length bounds)%nat as Hlt by (apply (f_equal length) in Hd; rewrite length_drop in Hd; cbn in Hd; lia).
    destruct (lookup_lt_is_Some_2 (h_counts h) k) as [n En]; [lia|]. rewrite (drop_S _ _ _ En). cbn [gather_buckets imap].
    rewrite (Hc _ _ En), float_add_int, <-count_split; [|apply count_bounds..|].
    2:{ rewrite <-count_split. pose proof (count_bounds (λ v, (SearchFloat64s bounds v < S k)%nat) vs). lia. }
    rewrite (IH (S k)); [|by rewrite <-Nat.add_1_r, <-drop_drop, Hd|lia]. cbn. f_equal. f_equal.
    + f_equal. f_equal. apply count_ext. intros v _. lia.
    + f_equal. apply imap_ext. intros j c _. cbn. f_equal. f_equal. apply count_ext. intros v _. lia.
Qed.

Lemma observe_all_names (vs : list float) (h h' : Histogram) : observe_all vs h = Some h' → h_name h' = h_name h ∧ h_help h' = h_help h.
Proof.
  revert h. induction vs as [|v vs IH]; intros h; cbn [observe_all]; [by intros [= <-]|]. intros (h1 & Ho & Hr)%bind_Some.
  apply IH in Hr as [-> ->]. unfold Observe in Ho. destruct (h_counts h !! _); [|done]. by injection Ho as <-.
Qed.

(** A histogram that holds values is gathered as their counts. *)
Lemma gather_holds (bounds vs : list float) (h : Histogram) : holds bounds vs h → Forall (ordered_for bounds) vs → Z.of_nat (length vs) ≤ 2 ^ 53 →
  Histogram_gather h = Some (mkFamily (h_name h) "HISTOGRAM" (h_help h) []
    (map (λ b, mkBucket (FormatFloat b) (of_int64 (count (λ v, float_ge b v = true) vs))) bounds ++
     [mkBucket "+Inf" (of_int64 (Z.of_nat (length vs)))]) (h_sum h) (of_int64 (Z.of_nat (length vs)))).
Proof.
  intros Hh Hord Hn. pose proof (gather_buckets_spec bounds vs h Hh Hn bounds 0%nat eq_refl ltac:(lia)) as Hg.
  destruct Hh as (Hb & _ & Ht & _). unfold Histogram_gather. rewrite Hb, Ht.
  assert (count (λ v, (SearchFloat64s bounds v < 0)%nat) vs = 0) as E0.
  { apply count_none. intros v _. lia. }
  rewrite E0, drop_0 in Hg. rewrite Hg. cbn. f_equal. f_equal. rewrite Forall_forall in Hord. f_equal.
  - apply list_eq. intros i. rewrite list_lookup_imap. change (map ?f bounds) with (f <$> bounds). rewrite list_lookup_fmap.
    destruct (bounds !! i) as [b|] eqn:Hi; [|done]. cbn. do 3 f_equal. apply count_ext. intros v Hv.
    destruct (SearchFloat64s_spec bounds v (Hord v Hv)) as [_ Hs]. by rewrite (Hs i b Hi).
  - do 3 f_equal. apply count_all. intros v Hv. by destruct (SearchFloat64s_spec bounds v (Hord v Hv)).
Qed.
End Exact.

(** C40. A histogram tells how many values were at most each bound. After any values
    for which the bounds are in order, gathering answers, for each bound, the
    number of values it is not less than, and their number in all, exactly; no
    index is ever out of range. *)
Theorem histogram_counts_exact `{FloatSpec} (name help : string) (bounds vs : list float)
    (Hord : Forall (ordered_for bounds) vs) (Hn : Z.of_nat (length vs) ≤ 2 ^ 53) :
  ∃ h sum, observe_all vs (newHistogram name help bounds) = Some h ∧
    Histogram_gather h = Some (mkFamily name "HISTOGRAM" help []
      (map (λ b, mkBucket (FormatFloat b) (of_int64 (count (λ v, float_ge b v = true) vs))) bounds ++
       [mkBucket "+Inf" (of_int64 (Z.of_nat (length vs)))]) sum (of_int64 (Z.of_nat (length vs)))).
Proof.
  destruct (observe_all_holds bounds vs Hord [] _ (new_holds name help bounds) Hn) as (h & Eh & Hh). exists h, (h_sum h). split; [done|].
  destruct (observe_all_names _ _ _ Eh) as [En Eh']. rewrite (gather_holds bounds vs h Hh Hord Hn). by rewrite En, Eh'.
Qed.

(** ** The instruments of the server *)

Section Instruments.
Context `{Float}.

Definition latencyBuckets : list float :=
  map float_lit ["0.0001"; "0.00025"; "0.0005"; "0.001"; "0.0025"; "0.005"; "0.01"; "0.025"; "0.05"; "0.1"; "0.25"; "0.5"; "1"; "2.5"; "5"].

Definition outcomes : list string := ["2xx"; "3xx"; "4xx"; "5xx"; "401"].

(** Those the request paths record into. *)
Record instruments := mkInstruments { requests : Counter; latency : Histogram; searches : Counter }.
Definition newInstruments : instruments :=
  mkInstruments (newCounter "cinc_server_ng_http_requests_total" "HTTP requests served, by response class" "outcome" outcomes)
    (newHistogram "cinc_server_ng_http_request_duration_seconds" "HTTP request latency" latencyBuckets)
    (newCounter "cinc_server_ng_search_queries_total" "Search queries, by how they were resolved" "resolution" ["indexed"; "scanned"]).

(** All that is registered, in order; the functions are sampled by name. *)
Definition registry (i : instruments) : list gatherer :=
  [ACounter (requests i); AHistogram (latency i); ACounter (searches i);
   ACounterFunc "cinc_server_ng_store_reads_total"
     ("Single-object store reads. Compare with writes: the check-in path is read-dominated, " +:+
      "and read amplification is what limits throughput on a durable backend.");
   ACounterFunc "cinc_server_ng_store_writes_total" "Object writes performed";
   ACounterFunc "cinc_server_ng_store_deletes_total" "Object deletes performed";
   ACounterFunc "cinc_server_ng_store_scans_total"
     ("Collection scans performed. A scan reads a whole collection, so a rising rate here " +:+
      "means work that grows with the size of the data.");
   AGauge "cinc_server_ng_search_indexed_documents" "Documents currently held in the inverted search indexes";
   AGauge "cinc_server_ng_uptime_seconds" "Seconds since this server started";
   AGauge "cinc_server_ng_goroutines" "Goroutines currently running";
   AGauge "cinc_server_ng_heap_bytes" "Heap memory currently allocated"].

(** What the gauge of the search indexes reads. *)
Definition documents (indexes : gmap string collIndex) : Z := map_fold (λ _ idx total, total + Z.of_nat (size_ idx)) 0 indexes.

(** [statusRecorder]: the status of a request that wrote none is 0. *)
Definition Instrument (code : Z) (elapsed : float) (i : instruments) : option instruments :=
  h ← Observe elapsed (latency i);
  let c := requests i in
  Some (mkInstruments (Inc (With (outcomeFor code) c) c) h (searches i)).

Fixpoint serve_all (rs : list (Z * float)) (i : instruments) : option instruments :=
  match rs with [] => Some i | (code, t) :: rs' => Instrument code t i ≫= serve_all rs' end.
End Instruments.

Section Served.
Context `{FloatSpec}.

Lemma outcomeFor_registered (code : Z) : outcomeFor code ∈ outcomes.
Proof. unfold outcomeFor, outcomes. repeat case_decide; set_solver. Qed.

(** The request counter after [codes]. *)
Definition counted (codes : list Z) (c : Counter) : Prop :=
  c_order c = outcomes ∧ c_label c = "outcome" ∧ ∀ o, c_values c !! o = if decide (o ∈ outcomes) then Some (count (λ code, outcomeFor code = o) codes) else None.

Lemma counted_inc (codes : list Z) (code : Z) (c : Counter) : counted codes c → Z.of_nat (length codes) < 2 ^ 53 →
  counted (codes ++ [code]) (Inc (With (outcomeFor code) c) c).
Proof.
  intros (Ho & Hl & Hv) Hn. unfold With, Inc, Counter_Add. pose proof (outcomeFor_registered code) as Hr. rewrite Hv, decide_True by done.
  rewrite Hv, decide_True by done. split; [done|]. split; [done|]. intros o. cbn [c_values]. destruct (decide (o = outcomeFor code)) as [->|Hne].
  - rewrite lookup_insert_eq, decide_True, count_snoc, decide_True by done. f_equal.
    pose proof (count_bounds (λ code0, outcomeFor code0 = outcomeFor code) codes). unfold wrap_int64. rewrite Z.mod_small by lia. lia.
  - rewrite lookup_insert_ne, Hv by done. case_decide; [|done]. by rewrite count_snoc, decide_False, Z.add_0_r by done.
Qed.

Lemma new_counted : counted [] (requests newInstruments).
Proof.
  split; [done|]. split; [done|]. intros o. case_decide as Ho.
  - apply list_elem_of_In in Ho as [<-|[<-|[<-|[<-|[<-|[]]]]]]; reflexivity.
  - cbn. rewrite !lookup_insert_ne; [apply lookup_empty|intros <-; apply Ho; set_solver..].
Qed.

(** The classes share out the requests. *)
Lemma outcomes_partition (codes : list Z) :
  foldr Z.add 0 (map (λ o, count (λ code, outcomeFor code = o) codes) outcomes) = Z.of_nat (length codes).
Proof.
  induction codes as [|code codes IH]; [done|]. cbn [map foldr outcomes] in *.
  assert (∀ o, count (λ c, outcomeFor c = o) (code :: codes) = (if decide (outcomeFor code = o) then 1 else 0) + count (λ c, outcomeFor c = o) codes) as Hc.
  { intros o. unfold count. rewrite filter_cons. case_decide; cbn [length]; lia. }
  rewrite !Hc. pose proof (outcomeFor_registered code) as Hr.
  apply list_elem_of_In in Hr as [<-|[<-|[<-|[<-|[<-|[]]]]]]; cbn [length]; repeat (first [rewrite decide_True by reflexivity|rewrite decide_False by discriminate]); lia.
Qed.

Lemma serve_all_counts (rs : list (Z * float)) : Forall (ordered_for latencyBuckets) rs.*2 → ∀ seen i,
  counted seen.*1 (requests i) → holds latencyBuckets seen.*2 (latency i) → Z.of_nat (length (seen ++ rs)) ≤ 2 ^ 53 →
  ∃ i', serve_all rs i = Some i' ∧ counted (seen ++ rs).*1 (requests i') ∧ holds latencyBuckets (seen ++ rs).*2 (latency i').
Proof.
  induction rs as [|[code t] rs IH]; intros Hord seen i Hc Hh Hn; cbn [serve_all]; [exists i; by rewrite app_nil_r|].
  cbn in Hord. apply Forall_cons in Hord as [Ht Hord]. rewrite length_app in Hn. cbn in Hn.
  destruct (Observe_holds latencyBuckets seen.*2 t (latency i) Hh Ht) as (h & Eh & Hh1); [rewrite length_fmap; lia|].
  unfold Instrument. rewrite Eh. cbn [mbind option_bind].
  destruct (IH Hord (seen ++ [(code, t)]) (mkInstruments (Inc (With (outcomeFor code) (requests i)) (requests i)) h (searches i))) as (i' & E & Hc' & Hh').
  - rewrite fmap_app. apply counted_inc; [done|]. rewrite length_fmap. lia.
  - by rewrite fmap_app.
  - rewrite !length_app. cbn. lia.
  - exists i'. by rewrite <-app_assoc in Hc', Hh'.
Qed.
End Served.

(** Every request is measured. After any requests, the counter of each class of
    reply holds exactly the number of requests answered in that class, whatever
    their statuses, no other series exists, and the classes and the latency
    histogram add up to the number of requests. *)
Theorem requests_measured `{FloatSpec} (rs : list (Z * float)) (Hord : Forall (ordered_for latencyBuckets) rs.*2)
    (Hn : Z.of_nat (length rs) ≤ 2 ^ 53) :
  ∃ i, serve_all rs newInstruments = Some i ∧
    f_metrics (Counter_gather (requests i)) =
      map (λ o, mkSeries [mkLabel "outcome" o] (of_int64 (count (λ code, outcomeFor code = o) rs.*1))) outcomes ∧
    foldr Z.add 0 (map (λ o, count (λ code, outcomeFor code = o) rs.*1) outcomes) = Z.of_nat (length rs) ∧
    f_count <$> Histogram_gather (latency i) = Some (of_int64 (Z.of_nat (length rs))).
Proof.
  destruct (serve_all_counts rs Hord [] newInstruments) as (i & E & (Ho & Hl & Hv) & Hh); [apply new_counted|apply new_holds|done|].
  cbn [app] in *. exists i. split; [done|]. split_and!.
  - unfold Counter_gather. cbn [f_metrics]. rewrite Ho, Hl. apply map_ext_in. intros o Hin. apply list_elem_of_In in Hin.
    by rewrite Hv, (decide_True (P := o ∈ outcomes)).
  - rewrite outcomes_partition. by rewrite length_fmap.
  - rewrite (gather_holds latencyBuckets rs.*2 (latency i) Hh Hord) by (by rewrite length_fmap). cbn. by rewrite length_fmap.
Qed.

(** ** Witnesses *)

(** Whole numbers for doubles. *)
#[local] Instance toy_float : Float :=
  {| float := Z; float_add := Z.add; float_ge := λ a b, bool_decide (b ≤ a); of_int64 := id; float_lit := λ s, Z.of_nat (String.length s); FormatFloat := pretty |}.
#[local] Instance toy_float_spec : FloatSpec.
Proof. by split. Qed.

Lemma in_order (bounds : list Z) (v : Z) : StronglySorted Z.le bounds → ordered_for bounds v.
Proof.
  intros Hs i j b c Hij Hi Hj Hb. apply bool_decide_eq_true in Hb. apply bool_decide_eq_true. assert (b ≤ c); [|lia].
  revert i j Hij Hi Hj. induction Hs as [|x l Hs IH Hx]; intros i j Hij Hi Hj; [done|].
  destruct i as [|i], j as [|j]; cbn in *; [simplify_eq; lia| |lia|by eapply (IH i j); [lia|..]].
  injection Hi as <-. rewrite Forall_lookup in Hx. by eapply Hx.
Qed.

Definition toy_bounds : list (@float toy_float) := [2; 5; 10].
Definition toy_values : list (@float toy_float) := [1; 7; 3; 12].

Lemma histogram_counts_exact_witness :
  ∃ h sum, observe_all toy_values (newHistogram "n" "h" toy_bounds) = Some h ∧
    Histogram_gather h = Some (mkFamily "n" "HISTOGRAM" "h" []
      (map (λ b, mkBucket (FormatFloat b) (of_int64 (count (λ v, float_ge b v = true) toy_values))) toy_bounds ++ [mkBucket "+Inf" (of_int64 4)])
      sum (of_int64 4)).
Proof.
  apply (histogram_counts_exact "n" "h" toy_bounds toy_values).
  - apply Forall_forall. intros v _. apply in_order. repeat constructor; lia.
  - vm_compute. discriminate.
Defined.

Definition toy_requests : list (Z * @float toy_float) := [(200, 0); (401, 0); (404, 0); (200, 0)].

Lemma requests_measured_witness :
  ∃ i, serve_all toy_requests newInstruments = Some i ∧
    f_metrics (Counter_gather (requests i)) =
      map (λ o, mkSeries [mkLabel "outcome" o] (of_int64 (count (λ code, outcomeFor code = o) [200; 401; 404; 200]))) outcomes.
Proof.
  destruct (requests_measured toy_requests) as (i & E & Hm & _).
  - apply Forall_forall. intros v Hv. assert (v = 0) as -> by (apply list_elem_of_In in Hv as [<-|[<-|[<-|[<-|[]]]]]; reflexivity).
    intros i j b c _ _ Hj _. apply list_elem_of_lookup_2, list_elem_of_In, in_map_iff in Hj as (t & <- & _). apply bool_decide_eq_true, Nat2Z.is_nonneg.
  - vm_compute. discriminate.
  - by exists i.
Defined.
