(* ===== verification/Differential.v ===== *)
(** * Comparing two servers (differential/)

    The rules that make two servers' answers comparable (normalize.go), the
    comparison, the accepted differences (known.go), the baseline (baseline.go)
    and a run over both (differential.go), whose answers are arguments. Answers are
    decoded by chefjson, so no object is a Go map and those cases do not arise. *)
From stdpp Require Import pretty gmultiset.
From S2P Require Import Prelude GoText Json Chefjson Float GoJson Stored Store Facade Http Objects Manifest.
#[local] Open Scope go_scope.

(** ** Normalization *)

Definition placeholderServer : string := "<server>".
Definition placeholderGUID : string := "<guid>".
Definition placeholderTime : string := "<time>".
Definition placeholderKey : string := "<key>".

Definition volatileFields : list (string * string) :=
  [("guid", placeholderGUID); ("org_guid", placeholderGUID); ("id", ""); ("public_key", placeholderKey); ("private_key", placeholderKey);
   ("certificate", placeholderKey); ("created_at", placeholderTime); ("updated_at", placeholderTime); ("create_time", placeholderTime);
   ("last_updated_at", placeholderTime); ("ohai_time", placeholderTime)].

Definition unorderedFields : list string := ["actors"; "groups"; "users"; "clients"; "containers"; "recipes"].

(** A character of a regular expression's word. *)
Definition word_char (c : ascii) : bool :=
  digit c || bool_decide (65 ≤ byte_of c ≤ 90)%Z || bool_decide (97 ≤ byte_of c ≤ 122)%Z || bool_decide (c = "_"%char).
Definition hex_char (c : ascii) : bool := match hex_val c with Some _ => true | None => false end.

(** [n] hexadecimal digits, and what follows. *)
Fixpoint hex_run (n : nat) (s : string) : option string :=
  match n with
  | O => Some s
  | S n' => match s with String c s' => if hex_char c then hex_run n' s' else None | EmptyString => None end
  end.
Fixpoint hyphenated (groups : list nat) (s : string) : option string :=
  match groups with
  | [] => Some s
  | [n] => hex_run n s
  | n :: groups => rest ← hex_run n s; rest ← cut_prefix "-" rest; hyphenated groups rest
  end.
Definition at_boundary (rest : string) : bool := match rest with String c _ => negb (word_char c) | EmptyString => true end.
Definition whole (r : option string) : bool := match r with Some rest => at_boundary rest | None => false end.
(** The length of an identifier at the start of [s]; [prev]: a character of a word is before it. *)
Definition guid_at (prev : bool) (s : string) : option nat :=
  if prev then None
  else if whole (hex_run 32 s) then Some 32
  else if whole (hyphenated [8; 4; 4; 4; 12] s) then Some 36
  else None.

(** [skip]: how much of a match is still to be passed over. *)
Fixpoint replaceGUIDs (skip : nat) (prev : bool) (s : string) : string :=
  match s with
  | EmptyString => ""
  | String c s' =>
      match skip with
      | S k => replaceGUIDs k (word_char c) s'
      | O =>
          match guid_at prev s with
          | Some n => placeholderGUID +:+ replaceGUIDs (n - 1) (word_char c) s'
          | None => String c (replaceGUIDs 0 (word_char c) s')
          end
      end
  end.
Fixpoint matchesGUID (prev : bool) (s : string) : bool :=
  match guid_at prev s with
  | Some _ => true
  | None => match s with EmptyString => false | String c s' => matchesGUID (word_char c) s' end
  end.

(** One or more characters other than a hyphen, then five hyphens. *)
Fixpoint span_nodash (s : string) : string * string :=
  match s with
  | String c s' => if decide (c = "-"%char) then ("", s) else let '(a, r) := span_nodash s' in (String c a, r)
  | EmptyString => ("", "")
  end.
Definition label (s : string) : option string :=
  let '(name, rest) := span_nodash s in if decide (name = "") then None else cut_prefix "-----" rest.
(** The first end of a block. *)
Fixpoint pem_end (s : string) : option string :=
  match cut_prefix "-----END " s ≫= label with
  | Some rest => Some rest
  | None => match s with EmptyString => None | String _ s' => pem_end s' end
  end.
Definition pem_at (s : string) : option nat :=
  (λ rest, String.length s - String.length rest) <$> (rest ← cut_prefix "-----BEGIN " s; rest ← label rest; pem_end rest).
Fixpoint replacePEM (skip : nat) (s : string) : string :=
  match s with
  | EmptyString => ""
  | String c s' =>
      match skip with
      | S k => replacePEM k s'
      | O => match pem_at s with Some n => placeholderKey +:+ replacePEM (n - 1) s' | None => String c (replacePEM 0 s') end
      end
  end.

(** [strings.ReplaceAll] of a text that is not empty. *)
Fixpoint ReplaceAll (skip : nat) (s old new : string) : string :=
  match s with
  | EmptyString => ""
  | String c s' =>
      match skip with
      | S k => ReplaceAll k s' old new
      | O => if has_prefix old s then new +:+ ReplaceAll (String.length old - 1) s' old new else String c (ReplaceAll 0 s' old new)
      end
  end.

Definition originOf (base : string) : string :=
  let host rest := match cut "/" rest with Some (h, _) => h | None => rest end in
  match cut_prefix "https://" base with
  | Some rest => "https://" +:+ host rest
  | None => match cut_prefix "http://" base with Some rest => "http://" +:+ host rest | None => "" end
  end.

Fixpoint lookup_field (fields : list (string * string)) (key : string) : string :=
  match fields with [] => "" | (k, v) :: fields => if decide (k = key) then v else lookup_field fields key end.

Definition normalizeString (s key origin : string) : string :=
  let r := lookup_field volatileFields key in
  if decide (r ≠ "") then r
  else
    let s := if decide (origin ≠ "") then ReplaceAll 0 s origin placeholderServer else s in
    replaceGUIDs 0 false (replacePEM 0 s).

(** The first number from [n] on whose name is free; at most every name taken is in the way. *)
Fixpoint free_name (fuel : nat) (k : string) (n : nat) (taken : list string) : string :=
  let c := k +:+ "#" +:+ pretty n in
  match fuel with
  | O => c
  | S fuel => if decide (c ∈ taken) then free_name fuel k (S n) taken else c
  end.
Definition normalizeKey (k : string) (taken : list string) : string :=
  if matchesGUID false k then
    let k := replaceGUIDs 0 false k in
    if decide (k ∈ taken) then free_name (length taken) k 2 taken else k
  else k.

(** A string as itself, anything else as the JSON a client received. *)
Definition render (v : value) : string := match v with VStr s => s | _ => Marshal v end.

(** [sort.SliceStable] by what is rendered. *)
Fixpoint insert_before (x : value) (l : list value) : list value :=
  match l with
  | [] => [x]
  | y :: l' => if decide (String.le (render x) (render y)) then x :: l else y :: insert_before x l'
  end.
Definition sortAny (l : list value) : list value := foldr insert_before [] l.

(** The members of an object, whose names are taken one after the other. *)
Fixpoint normalize_members (norm : value → string → value) (taken : list string) (ms : obj) : obj :=
  match ms with
  | [] => []
  | (name, v) :: ms =>
      if matchesGUID false name then
        let name' := normalizeKey name taken in (name', norm v name) :: normalize_members norm (name' :: taken) ms
      else (name, norm v name) :: normalize_members norm taken ms
  end.
Fixpoint normalize (v : value) (key origin : string) : value :=
  match v with
  | VObj ms => VObj (normalize_members (λ v key, normalize v key origin) [] ms)
  | VArr l =>
      let out := map (λ x, normalize x key origin) l in
      VArr (if decide (key ∈ unorderedFields) then sortAny out else out)
  | VStr s => VStr (normalizeString s key origin)
  | _ => v
  end.
Definition Normalize (v : value) (base : string) : value := normalize v "" (originOf base).

(** ** Comparison *)

(** A side of a difference: a value, or a number (a status or a length). *)
Inductive side := SVal (v : value) | SInt (n : Z).
Definition render_side (x : side) : string := match x with SVal v => render v | SInt n => pretty n end.

Record Difference := mkDiff { d_step : string; d_field : string; d_reference : side; d_candidate : side; d_reason : string }.

Definition typeName (v : value) : string :=
  match v with
  | VObj _ => "<object>" | VNum _ => "<number>" | VBool _ => "<bool>" | VArr _ => "<array>" | VNull => "<null>" | VStr _ => "<string>"
  end.
Definition join_path (path key : string) : string := if decide (path = "") then key else path +:+ "." +:+ key.
Definition pathOr (path : string) : string := if decide (path = "") then "(body)" else path.
Definition missing : side := SVal (VStr "<missing>").

Definition type_difference (step path : string) (reference candidate : value) : list Difference :=
  [mkDiff step (pathOr path) (SVal (VStr (typeName reference))) (SVal (VStr (typeName candidate))) ""].

Definition memberValues {A} (ms : list (string * A)) (name : string) : list A := map snd (filter (λ m, m.1 = name) ms).
Definition memberNames {A} (ms : list (string * A)) : list string := map fst ms.
Definition onlyIn (names : list string) (set : list string) : list string := filter (λ n, n ∈ set) names.

(** Two sequences side by side as far as both go, each of the reference with its
    comparison; [at_]: the path of a position. *)
Fixpoint compare_zip (at_ : nat → string) (i : nat) (refs : list (string → value → list Difference)) (cans : list value) : list Difference :=
  match refs, cans with
  | r :: refs, c :: cans => r (at_ i) c ++ compare_zip at_ (S i) refs cans
  | _, _ => []
  end.
(** The occurrences both sides have of a name. *)
Definition compare_occurrences (path name : string) : list (string → value → list Difference) → list value → list Difference :=
  compare_zip (λ i, join_path path (if decide (0 < i) then name +:+ "#" +:+ pretty (i + 1) else name)) 0.
Definition compare_elems (path : string) : list (string → value → list Difference) → list value → list Difference :=
  compare_zip (λ i, pathOr path +:+ "[" +:+ pretty i +:+ "]") 0.

(** Each member of the reference comes with its comparison. *)
Definition compareObjects (step path : string) (ref : list (string * (value * (string → value → list Difference)))) (can : obj) : list Difference :=
  let a := onlyIn (memberNames ref) (memberNames can) in
  let b := onlyIn (memberNames can) (memberNames ref) in
  (if decide (a = b) then []
   else [mkDiff step (pathOr path +:+ "{members}") (SVal (VStr (join "," a))) (SVal (VStr (join "," b))) ""])
  ++ concat (map (λ name,
       match memberValues ref name, memberValues can name with
       | (v, _) :: _, [] => [mkDiff step (join_path path name) (SVal v) missing ""]
       | [], c :: _ => [mkDiff step (join_path path name) missing (SVal c) ""]
       | refs, cans => compare_occurrences path name (map snd refs) cans
       end) (sort_strings (remove_dups (memberNames ref ++ memberNames can)))).

Fixpoint compare (step : string) (reference : value) (path : string) (candidate : value) : list Difference :=
  match reference with
  | VObj ms =>
      match candidate with
      | VObj cs => compareObjects step path (map (λ m, (m.1, (m.2, compare step m.2))) ms) cs
      | _ => type_difference step path reference candidate
      end
  | VArr l =>
      match candidate with
      | VArr k =>
          if decide (length l = length k) then compare_elems path (map (compare step) l) k
          else [mkDiff step (pathOr path +:+ ".length") (SInt (Z.of_nat (length l))) (SInt (Z.of_nat (length k))) ""]
      | _ => type_difference step path reference candidate
      end
  | _ =>
      if decide (typeName reference ≠ typeName candidate ∨ render reference ≠ render candidate)
      then [mkDiff step (pathOr path) (SVal reference) (SVal candidate) ""] else []
  end.

(** ** Accepted differences and the baseline *)

Record Accepted := mkAccepted { acc_step : string; acc_field : string; acc_reason : string }.

Definition fieldMatches (pattern field : string) : bool :=
  if decide (pattern = "*") then true
  else if has_suffix "*" pattern then has_prefix (trim_suffix "*" pattern) field
  else bool_decide (pattern = field).
Definition covers (a : Accepted) (d : Difference) : bool :=
  bool_decide (acc_step a = "*" ∨ acc_step a = d_step d) && fieldMatches (acc_field a) (d_field d).
Fixpoint annotate (d : Difference) (list_ : list Accepted) : Difference :=
  match list_ with
  | [] => d
  | a :: rest =>
      if covers a d then mkDiff (d_step d) (d_field d) (d_reference d) (d_candidate d) (acc_reason a) else annotate d rest
  end.
Definition Split (diffs : list Difference) : list Difference * list Difference :=
  (filter (λ d, d_reason d ≠ "") diffs, filter (λ d, d_reason d = "") diffs).

Record BaselineEntry := mkEntry { b_step : string; b_field : string; b_reference : string; b_candidate : string }.
#[local] Instance BaselineEntry_eq_dec : EqDecision BaselineEntry.
Proof. solve_decision. Defined.
#[local] Instance BaselineEntry_countable : Countable BaselineEntry.
Proof.
  refine (inj_countable' (λ e, (b_step e, b_field e, b_reference e, b_candidate e)) (λ t, mkEntry t.1.1.1 t.1.1.2 t.1.2 t.2) _).
  by intros [].
Defined.
Definition entryOf (d : Difference) : BaselineEntry := mkEntry (d_step d) (d_field d) (render_side (d_reference d)) (render_side (d_candidate d)).

Definition entry_le (a b : BaselineEntry) : Prop :=
  if decide (b_step a ≠ b_step b) then String.le (b_step a) (b_step b)
  else if decide (b_field a ≠ b_field b) then String.le (b_field a) (b_field b)
  else if decide (b_reference a ≠ b_reference b) then String.le (b_reference a) (b_reference b)
  else String.le (b_candidate a) (b_candidate b).
#[local] Instance entry_le_dec a b : Decision (entry_le a b).
Proof. unfold entry_le. repeat case_decide; apply _. Defined.
(** Entries that compare alike are equal, so the sort need not be stable. *)
Definition BaselineOf (diffs : list Difference) : list BaselineEntry := merge_sort entry_le (map entryOf diffs).

(** [remaining]: how many of each entry are not used up. *)
Fixpoint take_fresh (remaining : gmultiset BaselineEntry) (diffs : list Difference) : list Difference * gmultiset BaselineEntry :=
  match diffs with
  | [] => ([], remaining)
  | d :: diffs =>
      if decide (entryOf d ∈ remaining) then take_fresh (remaining ∖ {[+ entryOf d +]}) diffs
      else let '(fresh, unused) := take_fresh remaining diffs in (d :: fresh, unused)
  end.
Fixpoint take_stale (remaining : gmultiset BaselineEntry) (base : list BaselineEntry) : list BaselineEntry :=
  match base with
  | [] => []
  | e :: base => if decide (e ∈ remaining) then e :: take_stale (remaining ∖ {[+ e +]}) base else take_stale remaining base
  end.
Definition ApplyBaseline (diffs : list Difference) (base : list BaselineEntry) : list Difference * list BaselineEntry :=
  let '(fresh, remaining) := take_fresh (list_to_set_disj base) diffs in (fresh, take_stale remaining base).

(** ** A run *)

Record Step := mkStep {
  st_name : string; st_method : string; st_path : string; st_serverRoot : bool; st_body : string; st_eventually : bool; st_skipBody : bool;
}.
(** [o_transport]: the request could not be made. *)
Record Observation := mkObs { o_status : Z; o_body : value; o_transport : option string }.
(** The keys a target is asked with are left out. *)
Record Target := mkTarget { t_name : string; t_base : string; t_user : string }.

(** [strings.TrimRight] of slashes. *)
Fixpoint drop_slashes (s : string) : string :=
  match s with String c s' => if decide (c = "/"%char) then drop_slashes s' else s | EmptyString => "" end.
Definition urlFor (t : Target) (step : Step) : string :=
  let base := str_rev (drop_slashes (str_rev (t_base t))) in
  (if st_serverRoot step then originOf base else base) +:+ st_path step.

(** A body that is not JSON is kept as text; an empty one is nil. *)
Definition observed_body `{Unicode} (raw : string) : value :=
  if decide (TrimSpace raw = "") then VNull else match Parse raw with Ok v => v | Err _ => VStr raw end.

Definition stepDifferences (step : Step) (ref can : Observation) (refBase canBase : string) : list Difference :=
  (if decide (o_status ref ≠ o_status can) then [mkDiff (st_name step) "status" (SInt (o_status ref)) (SInt (o_status can)) ""] else [])
  ++ (if st_skipBody step then [] else compare (st_name step) (Normalize (o_body ref) refBase) "" (Normalize (o_body can) canBase)).

Definition transport_error (step : Step) (t : Target) (msg : string) : string := st_name step +:+ ": " +:+ t_name t +:+ ": " +:+ msg.

Section Run.
Context (reference candidate : Target) (accepted : list Accepted).

(** [again]: what the reference answers when it is asked again, until the
    deadline. The last answer compared goes with the differences. *)
Fixpoint settle (step : Step) (ref can : Observation) (found : list Difference) (again : list Observation) : (list Difference * Observation) + string :=
  match again with
  | [] => inl (found, ref)
  | ref' :: again =>
      if st_eventually step && bool_decide (found ≠ []) then
        match o_transport ref' with
        | Some msg => inr (transport_error step reference msg)
        | None => settle step ref' can (stepDifferences step ref' can (t_base reference) (t_base candidate)) again
        end
      else inl (found, ref)
  end.

(** The answers to a step: the reference's, the candidate's, and the reference's
    when asked again. *)
Record answers := mkAnswers { a_step : Step; a_ref : Observation; a_can : Observation; a_again : list Observation }.

Definition run_step (x : answers) : (list Difference * Observation) + string :=
  match o_transport (a_ref x), o_transport (a_can x) with
  | Some msg, _ => inr (transport_error (a_step x) reference msg)
  | None, Some msg => inr (transport_error (a_step x) candidate msg)
  | None, None => settle (a_step x) (a_ref x) (a_can x)
                    (stepDifferences (a_step x) (a_ref x) (a_can x) (t_base reference) (t_base candidate)) (a_again x)
  end.
Fixpoint Run (diffs : list Difference) (script : list answers) : list Difference * option string :=
  match script with
  | [] => (diffs, None)
  | x :: script =>
      match run_step x with
      | inr msg => (diffs, Some msg)
      | inl (found, _) => Run (diffs ++ map (λ d, annotate d accepted) found) script
      end
  end.
End Run.

(** ** The comparison is exact *)

Lemma typeName_canon v : typeName (canon v) = typeName v.
Proof. by destruct v. Qed.

Lemma scalar_exact v w : (∀ ms, v ≠ VObj ms) → (∀ l, v ≠ VArr l) →
  (typeName v = typeName w ∧ render v = render w) ↔ canon v = canon w.
Proof.
  intros Ho Ha. split.
  - intros [Ht Hr]. destruct v as [|[]|lit|s|l|ms], w as [|[]|lit'|s'|l'|ms']; try done; try by destruct (Ha l). all: try by destruct (Ho ms).
    + unfold render in Hr. rewrite !Marshal_print in Hr. cbn in Hr |- *. by f_equal.
    + cbn in Hr. by subst.
  - intros E. split; [by rewrite <-(typeName_canon v), E, typeName_canon|].
    destruct v as [|[]|lit|s|l|ms], w as [|[]|lit'|s'|l'|ms']; try done; try by destruct (Ha l). all: try by destruct (Ho ms).
    + cbn in E. unfold render. rewrite !Marshal_print. cbn. by injection E as ->.
    + cbn in E. by injection E as ->.
Qed.

(** Two lists of members with the same names in order, and values related
    occurrence by occurrence. *)
Lemma memberValues_cons {A} (m : string * A) ms name :
  memberValues (m :: ms) name = if decide (m.1 = name) then m.2 :: memberValues ms name else memberValues ms name.
Proof. unfold memberValues. rewrite filter_cons. by case_decide. Qed.

Lemma members_related {A C} (R : A → C → Prop) (ms : list (string * A)) (cs : list (string * C)) :
  memberNames ms = memberNames cs → (∀ name, Forall2 R (memberValues ms name) (memberValues cs name)) ↔ Forall2 (λ m c, R m.2 c.2) ms cs.
Proof.
  revert cs. induction ms as [|m ms IH]; intros [|c cs] Hn; try done. injection Hn as Hmc Hn. specialize (IH cs Hn). split.
  - intros Hv. constructor.
    + specialize (Hv m.1). rewrite !memberValues_cons, Hmc, !decide_True in Hv by done. by inversion Hv.
    + apply IH. intros name. specialize (Hv name). rewrite !memberValues_cons, Hmc in Hv. case_decide; [by inversion Hv|done].
  - intros Hf name. inversion Hf; subst. rewrite !memberValues_cons, Hmc. pose proof (proj2 IH ltac:(done) name). case_decide; [by constructor|done].
Qed.

Lemma memberValues_nil {A} (ms : list (string * A)) name : memberValues ms name = [] ↔ name ∉ memberNames ms.
Proof.
  induction ms as [|m ms IH]; [split; [intros _; apply not_elem_of_nil|done]|]. rewrite memberValues_cons. unfold memberNames in *. cbn [map].
  rewrite not_elem_of_cons, <-IH. case_decide; naive_solver.
Qed.

Lemma memberValues_map {A C} (f : A → C) (ms : list (string * A)) name :
  memberValues (map (λ m, (m.1, f m.2)) ms) name = map f (memberValues ms name).
Proof. induction ms as [|m ms IH]; [done|]. cbn [map]. rewrite !memberValues_cons. cbn [fst snd]. case_decide; cbn [map]; by rewrite IH. Qed.

Lemma same_length_values {A C} (ms : list (string * A)) (cs : list (string * C)) name : memberNames ms = memberNames cs →
  length (memberValues ms name) = length (memberValues cs name).
Proof.
  revert cs. induction ms as [|m ms IH]; intros [|c cs] Hn; try done. injection Hn as Hmc Hn. rewrite !memberValues_cons, Hmc.
  case_decide; cbn; by rewrite (IH cs).
Qed.

Lemma onlyIn_all names set : (∀ n, n ∈ names → n ∈ set) → onlyIn names set = names.
Proof. intros Hs. unfold onlyIn. induction names as [|n names IH]; [done|]. rewrite filter_cons_True by set_solver. f_equal. apply IH. set_solver. Qed.

(** A comparison that finds nothing exactly when [R] holds. *)
Definition decides (R : value → Prop) (f : string → value → list Difference) : Prop := ∀ path c, f path c = [] ↔ R c.

Lemma compare_zip_nil at_ i fs cs (Rs : list (value → Prop)) : Forall2 decides Rs fs → length fs = length cs →
  compare_zip at_ i fs cs = [] ↔ Forall2 (λ R c, R c) Rs cs.
Proof.
  intros Hd. revert i cs. induction Hd as [|R f Rs fs Hf Hd IH]; intros i [|c cs] Hl; try done.
  cbn [compare_zip]. rewrite app_nil, (Hf _ c), IH by (cbn in Hl; lia). split.
  - intros []. by constructor.
  - intros Hc. by inversion Hc.
Qed.

Lemma concat_nil_iff {A} (l : list (list A)) : concat l = [] ↔ Forall (λ x, x = []) l.
Proof. induction l as [|x l IH]; [done|]. cbn. rewrite app_nil, Forall_cons, IH. done. Qed.

(** The comparison of objects finds nothing exactly when the names are the same
    in the same order and no value differs. *)
Lemma compareObjects_nil step path (ref : list (string * (value * (string → value → list Difference)))) (can : obj) (R : value → value → Prop) :
  Forall (λ m, decides (R m.2.1) m.2.2) ref →
  compareObjects step path ref can = [] ↔ memberNames ref = memberNames can ∧ Forall2 (λ m c, R m.2.1 c.2) ref can.
Proof.
  intros Hd. assert (∀ name, Forall2 decides (map (λ x, R x.1) (memberValues ref name)) (map snd (memberValues ref name))) as Hv.
  { intros name. induction ref as [|m ref IH]; [constructor|]. rewrite memberValues_cons. apply Forall_cons in Hd as [Hm Hd].
    case_decide; [constructor; [done|]|]; by apply IH. }
  unfold compareObjects. cbn zeta. rewrite app_nil, concat_nil_iff, Forall_fmap, Forall_forall.
  setoid_rewrite (merge_sort_Permutation String.le). setoid_rewrite elem_of_remove_dups. setoid_rewrite elem_of_app. split.
  - intros [Hn Hall].
    assert (∀ name, name ∈ memberNames ref ↔ name ∈ memberNames can) as Hsame.
    { intros name. split; intros Hin; specialize (Hall name ltac:(tauto)); cbn in Hall.
      - destruct (memberValues ref name) as [|[v f] refs] eqn:Er; [by apply memberValues_nil in Er|].
        destruct (memberValues can name) as [|c cans] eqn:Ec; [done|]. apply dec_stable. rewrite <-memberValues_nil. by rewrite Ec.
      - destruct (memberValues can name) as [|c cans] eqn:Ec; [by apply memberValues_nil in Ec|].
        destruct (memberValues ref name) as [|[v f] refs] eqn:Er; [done|]. apply dec_stable. rewrite <-memberValues_nil. by rewrite Er. }
    destruct (decide _) as [E|]; [|done]. rewrite !onlyIn_all in E by (intros; by apply Hsame). split; [done|].
    apply (members_related (λ m c, R m.1 c)); [done|]. intros name. pose proof (same_length_values _ _ name E) as Hl.
    destruct (decide (name ∈ memberNames ref)) as [Hin|Hin].
    + specialize (Hall name ltac:(tauto)). cbn in Hall. specialize (Hv name).
      destruct (memberValues ref name) as [|x refs], (memberValues can name) as [|c cans]; try done.
      destruct x as [v f]. change (compare_occurrences path name (map snd ((v, f) :: refs)) (c :: cans) = []) in Hall.
      apply (compare_zip_nil _ _ _ _ _ Hv) in Hall; [|by rewrite length_map].
      by apply Forall2_fmap_l in Hall.
    + rewrite (proj2 (memberValues_nil ref name)), (proj2 (memberValues_nil can name)) by (rewrite ?E in *; done || by rewrite <-E). constructor.
  - intros [E Hf]. split; [rewrite !onlyIn_all by (intros; by rewrite ?E, <-?E in * ); by rewrite decide_True|].
    intros name _. apply (members_related (λ m c, R m.1 c)) with (name := name) in Hf; [|done]. specialize (Hv name).
    pose proof (same_length_values _ _ name E) as Hl. unfold compose.
    destruct (memberValues ref name) as [|[v f] refs], (memberValues can name) as [|c cans]; try done.
    change (compare_occurrences path name (map snd ((v, f) :: refs)) (c :: cans) = []).
    apply (compare_zip_nil _ _ _ _ _ Hv); [by rewrite length_map|]. by apply Forall2_fmap_l.
Qed.

Lemma canon_same_obj (ms cs : obj) : canon (VObj ms) = canon (VObj cs) ↔
  memberNames ms = memberNames cs ∧ Forall2 (λ m c, canon m.2 = canon c.2) ms cs.
Proof.
  cbn [canon]. revert cs. induction ms as [|[k v] ms IH]; intros [|[k' v'] cs]; try (split; [done|]; by intros [? Hf]; inversion Hf).
  specialize (IH cs). split.
  - intros E. cbn in E. injection E as -> Ev E. destruct (proj1 IH ltac:(by rewrite E)) as [Hn Hf].
    split; [unfold memberNames in *; cbn; by f_equal|by constructor].
  - intros [Hn Hf]. injection Hn as -> Hn. inversion Hf; subst. cbn [map fst snd] in *.
    assert (VObj (map (λ m, (m.1, canon m.2)) ms) = VObj (map (λ m, (m.1, canon m.2)) cs)) as E by (by apply IH). injection E as E. congruence.
Qed.
Lemma canon_same_arr (l k : list value) : canon (VArr l) = canon (VArr k) ↔ Forall2 (λ x y, canon x = canon y) l k.
Proof.
  cbn [canon]. split.
  - intros E. injection E as E. apply list_eq_Forall2 in E. by apply (Forall2_fmap canon canon) in E.
  - intros Hf. f_equal. apply list_eq_Forall2. by apply Forall2_fmap.
Qed.

Lemma compare_same (step path : string) (reference candidate : value) :
  compare step reference path candidate = [] ↔ canon reference = canon candidate.
Proof.
  revert path candidate. induction reference as [|b|lit|s|l IH|ms IH] using value_ind'; intros path candidate.
  1-4: cbn [compare]; rewrite <-scalar_exact by done; case_decide; [split; [done|]; tauto|]; split; [intros _|done]; by split; apply dec_stable; tauto.
  - destruct candidate as [|b|lit|s|k|cs]; try done. rewrite canon_same_arr. cbn [compare]. case_decide as Hl.
    + unfold compare_elems. rewrite (compare_zip_nil _ _ _ _ (map (λ x y, canon x = canon y) l)).
      * by rewrite Forall2_fmap_l.
      * apply Forall2_fmap. apply Forall_Forall2_diag. eapply Forall_impl; [exact IH|]. intros x Hx p c. apply Hx.
      * by rewrite length_map.
    + split; [done|]. by intros ?%Forall2_length.
  - destruct candidate as [|b|lit|s|k|cs]; try done. rewrite canon_same_obj. cbn [compare].
    rewrite (compareObjects_nil _ _ _ _ (λ v w, canon v = canon w)).
    + unfold memberNames. rewrite map_map, Forall2_fmap_l. done.
    + apply Forall_fmap. eapply Forall_impl; [exact IH|]. intros m Hm p c. apply Hm.
Qed.

(** C38. The comparison reports nothing exactly when the two values are the same:
    members in the same order, repeated names included, and numbers as they are written
    back. *)
Theorem compare_exact (step path : string) (reference candidate : value) :
  compare step reference path candidate = [] ↔ canon reference = canon candidate.
Proof. apply compare_same. Qed.

(** ** What a passing run says *)

Definition unannotated (diffs : list Difference) : Prop := Forall (λ d, d_reason d = "") diffs.

Lemma compare_zip_unannotated at_ i fs cs : Forall (λ f, ∀ p c, unannotated (f p c)) fs → unannotated (compare_zip at_ i fs cs).
Proof.
  intros Hf. revert i cs. induction Hf as [|f fs Hf Hfs IH]; intros i [|c cs]; try by apply Forall_nil.
  cbn [compare_zip]. apply Forall_app. split; [apply Hf|apply IH].
Qed.
Lemma Forall_memberValues {A} (P : A → Prop) (ms : list (string * A)) name : Forall (λ m, P m.2) ms → Forall P (memberValues ms name).
Proof. intros Hf. unfold memberValues. apply Forall_fmap. rewrite !Forall_forall in *. intros m [_ Hm]%list_elem_of_filter. by apply Hf. Qed.
Lemma compare_unannotated step reference path candidate : unannotated (compare step reference path candidate).
Proof.
  revert path candidate. induction reference as [|b|lit|s|l IH|ms IH] using value_ind'; intros path candidate; cbn [compare].
  1-4: by case_decide; repeat constructor.
  - destruct candidate; try by repeat constructor. case_decide; [|by repeat constructor].
    apply compare_zip_unannotated, Forall_fmap. eapply Forall_impl; [exact IH|]. intros x Hx p c. apply Hx.
  - destruct candidate as [| | | | |cs]; try by repeat constructor. unfold compareObjects. cbn zeta. apply Forall_app.
    split; [by case_decide; repeat constructor|]. apply Forall_concat, Forall_fmap, Forall_true. intros name. unfold compose.
    assert (Forall (λ f, ∀ p c, unannotated (f p c)) (map snd (memberValues (map (λ m, (m.1, (m.2, compare step m.2))) ms) name))) as Hf.
    { apply Forall_fmap, (Forall_memberValues (λ x : value * _, ∀ p c, unannotated (x.2 p c))), Forall_fmap. eapply Forall_impl; [exact IH|].
      intros m Hm p c. apply Hm. }
    destruct (memberValues _ name) as [|[v f] refs], (memberValues cs name) as [|c cans]; try by repeat constructor.
    apply compare_zip_unannotated, Hf.
Qed.

(** The two answers to a step agree. *)
Definition agree (refBase canBase : string) (step : Step) (ref can : Observation) : Prop :=
  o_status ref = o_status can ∧
  (st_skipBody step = true ∨ canon (Normalize (o_body ref) refBase) = canon (Normalize (o_body can) canBase)).

Lemma stepDifferences_nil step ref can rb cb : stepDifferences step ref can rb cb = [] ↔ agree rb cb step ref can.
Proof.
  unfold stepDifferences, agree. rewrite app_nil. case_decide; [naive_solver|]. destruct (st_skipBody step).
  - naive_solver.
  - rewrite compare_same. naive_solver.
Qed.
Lemma stepDifferences_unannotated step ref can rb cb : unannotated (stepDifferences step ref can rb cb).
Proof.
  unfold stepDifferences. apply Forall_app. split; [by case_decide; repeat constructor|].
  destruct (st_skipBody step); [by apply Forall_nil|apply compare_unannotated].
Qed.

Lemma annotate_accepted d list_ : d_reason d = "" → d_reason (annotate d list_) ≠ "" →
  ∃ a, a ∈ list_ ∧ covers a d = true ∧ acc_reason a ≠ "".
Proof.
  intros Hd. induction list_ as [|a list_ IH]; cbn [annotate]; [done|]. destruct (covers a d) eqn:E.
  - cbn. intros Hr. exists a. split; [by left|done].
  - intros Hr. destruct (IH Hr) as (a' & Ha & Hc). exists a'. split; [by right|done].
Qed.

Section Passing.
Context (reference candidate : Target) (accepted : list Accepted).

Lemma settle_last step ref can again found last :
  settle reference candidate step ref can (stepDifferences step ref can (t_base reference) (t_base candidate)) again = inl (found, last) →
  last ∈ ref :: again ∧ found = stepDifferences step last can (t_base reference) (t_base candidate).
Proof.
  revert ref. induction again as [|ref' again IH]; intros ref; cbn [settle].
  - intros [= <- <-]. split; [by left|done].
  - destruct (st_eventually step && _); [|intros [= <- <-]; split; [by left|done]].
    destruct (o_transport ref'); [done|]. intros Hs. destruct (IH _ Hs) as [Hin ->]. split; [by right|done].
Qed.

Lemma Run_diffs script diffs out : Run reference candidate accepted diffs script = (out, None) →
  ∃ founds, Forall2 (λ x f, ∃ last, run_step reference candidate x = inl (f, last)) script founds ∧
    out = diffs ++ concat (map (map (λ d, annotate d accepted)) founds).
Proof.
  revert diffs. induction script as [|x script IH]; intros diffs; cbn [Run].
  - intros [= <-]. exists []. split; [constructor|by rewrite app_nil_r].
  - destruct (run_step reference candidate x) as [[found last]|msg] eqn:E; [|done]. intros Hr.
    destruct (IH _ Hr) as (founds & Hf & ->). exists (found :: founds). split; [constructor; eauto|]. cbn. by rewrite app_assoc.
Qed.

(** A step of a passing run: some answer of the reference agrees with the
    candidate's, or every difference from it is one an accepted entry explains. *)
Definition explained (x : answers) : Prop := ∃ last,
  last ∈ a_ref x :: a_again x ∧
  (agree (t_base reference) (t_base candidate) (a_step x) last (a_can x) ∨
   let found := stepDifferences (a_step x) last (a_can x) (t_base reference) (t_base candidate) in
   found ≠ [] ∧ Forall (λ d, ∃ a, a ∈ accepted ∧ covers a d = true ∧ acc_reason a ≠ "") found).

(** A run that ends with no difference left unexplained was answered alike by
    both servers at every step, but for what the accepted entries name. *)
Theorem passing_run_agrees (script : list answers) (diffs : list Difference)
    (Hrun : Run reference candidate accepted [] script = (diffs, None)) (Hpass : (Split diffs).2 = []) : Forall explained script.
Proof.
  apply Run_diffs in Hrun as (founds & Hf & ->). cbn [app Split snd] in Hpass.
  assert (Forall (λ d, d_reason d ≠ "") (concat (map (map (λ d, annotate d accepted)) founds))) as Hr.
  { apply Forall_forall. intros d Hd Hn. assert (d ∈ filter (λ d, d_reason d = "") (concat (map (map (λ d, annotate d accepted)) founds))) as Hin
      by (by apply list_elem_of_filter). rewrite Hpass in Hin. by apply not_elem_of_nil in Hin. }
  clear Hpass. induction Hf as [|x f script founds (last & Hx) Hf IH]; [constructor|]. cbn in Hr. apply Forall_app in Hr as [Hr Hrs].
  constructor; [|by apply IH]. unfold run_step in Hx. destruct (o_transport (a_ref x)); [done|]. destruct (o_transport (a_can x)); [done|].
  apply settle_last in Hx as [Hin ->]. exists last. split; [done|].
  destruct (decide (stepDifferences (a_step x) last (a_can x) (t_base reference) (t_base candidate) = [])) as [E|E];
    [left; by apply stepDifferences_nil|]. right. split; [done|].
  pose proof (stepDifferences_unannotated (a_step x) last (a_can x) (t_base reference) (t_base candidate)) as Hu.
  apply (Forall_fmap (λ d, annotate d accepted)) in Hr. unfold unannotated in Hu. rewrite Forall_forall in Hr, Hu |- *. intros d Hd.
  apply (annotate_accepted d); [by apply Hu|by apply Hr].
Qed.
End Passing.

(** ** The baseline *)

Abbreviation entries l := (list_to_set_disj l : gmultiset BaselineEntry).

Lemma take_fresh_spec diffs remaining fresh rest : take_fresh remaining diffs = (fresh, rest) →
  entries (map entryOf diffs) ⊎ rest = remaining ⊎ entries (map entryOf fresh) ∧ rest ⊆ remaining ∧
  (∀ d, d ∈ fresh → entryOf d ∉ rest) ∧ fresh `sublist_of` diffs.
Proof.
  revert remaining fresh rest. induction diffs as [|d diffs IH]; intros remaining fresh rest; cbn [take_fresh].
  - intros [= <- <-]. split; [multiset_solver|]. split; [done|]. split; [by intros ? ?%not_elem_of_nil|done].
  - case_decide as Hd.
    + intros E. destruct (IH _ _ _ E) as (He & Hs & Hn & Hl). cbn [map list_to_set_disj]. split; [multiset_solver|].
      split; [multiset_solver|]. split; [done|by constructor].
    + destruct (take_fresh remaining diffs) as [fresh' rest'] eqn:E. intros [= <- <-]. destruct (IH _ _ _ E) as (He & Hs & Hn & Hl).
      cbn [map list_to_set_disj]. split; [multiset_solver|]. split; [done|]. split; [|by constructor].
      intros d' [->|Hd']%elem_of_cons; [multiset_solver|by apply Hn].
Qed.

Lemma take_stale_spec base remaining : remaining ⊆ entries base → entries (take_stale remaining base) = remaining ∧ take_stale remaining base `sublist_of` base.
Proof.
  revert remaining. induction base as [|e base IH]; intros remaining Hs; cbn [take_stale] in *.
  - split; [multiset_solver|done].
  - case_decide as He.
    + destruct (IH (remaining ∖ {[+ e +]})) as [Hr Hl]; [multiset_solver|]. split; [|by constructor].
      change (entries (e :: take_stale (remaining ∖ {[+ e +]}) base)) with ({[+ e +]} ⊎ entries (take_stale (remaining ∖ {[+ e +]}) base)).
      rewrite Hr. symmetry. by apply gmultiset_disj_union_difference'.
    + destruct (IH remaining) as [Hr Hl]; [multiset_solver|]. split; [done|by constructor].
Qed.

(** Each entry of the baseline absorbs one difference: the fresh ones are the
    differences beyond the baseline, the stale ones the entries beyond the
    differences, and nothing is both. *)
Theorem baseline_exact (diffs : list Difference) (base : list BaselineEntry) :
  let '(fresh, stale) := ApplyBaseline diffs base in
  entries (map entryOf diffs) ⊎ entries stale = entries base ⊎ entries (map entryOf fresh) ∧
  fresh `sublist_of` diffs ∧ stale `sublist_of` base ∧ ∀ d, d ∈ fresh → entryOf d ∉ stale.
Proof.
  unfold ApplyBaseline. destruct (take_fresh (entries base) diffs) as [fresh rest] eqn:E.
  destruct (take_fresh_spec _ _ _ _ E) as (He & Hs & Hn & Hl). destruct (take_stale_spec base rest Hs) as [Hr Hl'].
  rewrite Hr. split; [done|]. split; [done|]. split; [done|]. intros d Hd Hin.
  apply elem_of_list_to_set_disj in Hin. rewrite Hr in Hin. by apply (Hn d Hd).
Qed.

(** ** Names given to identifiers *)

Lemma free_name_taken fuel k n taken : free_name fuel k n taken ∈ taken →
  ∀ i, i ≤ fuel → (k +:+ "#" +:+ pretty (n + i)) ∈ taken.
Proof.
  revert n. induction fuel as [|fuel IH]; intros n; cbn [free_name].
  - intros Hc i Hi. by replace (n + i) with n by lia.
  - case_decide as Hc; [|done]. intros Hf [|i] Hi; [by rewrite Nat.add_0_r|]. replace (n + S i) with (S n + i) by lia. by apply IH; [|lia].
Qed.

(** The numbering of identifiers ends with a name that is free. *)
Theorem normalizeKey_fresh (k : string) (taken : list string) : matchesGUID false k = true → normalizeKey k taken ∉ taken.
Proof.
  unfold normalizeKey. intros ->. cbn zeta. case_decide as Hk; [|done]. intros Hf.
  pose proof (free_name_taken _ _ _ _ Hf) as Ht. set (k' := replaceGUIDs 0 false k) in *.
  assert (map (λ i, k' +:+ "#" +:+ pretty (2 + i)) (seq 0 (S (length taken))) ⊆+ taken) as Hs.
  { apply NoDup_submseteq.
    - apply NoDup_fmap_2; [|apply NoDup_seq]. intros i j E. apply (inj (String.append k')), (inj (String.append "#")), (inj pretty) in E. lia.
    - intros x (i & -> & Hi)%list_elem_of_fmap. apply elem_of_seq in Hi. apply Ht. lia. }
  apply submseteq_length in Hs. rewrite length_map, length_seq in Hs. lia.
Qed.

(** ** Samples *)

Definition hex32 : string := "0123456789abcdef0123456789ABCDEF".
Example normalize_sample :
  map (λ s, normalizeString s "" "https://a.example")
    ["https://a.example/organizations/x"; "id " +:+ hex32 +:+ "!"; "x" +:+ hex32; hex32 +:+ "0";
     "01234567-89ab-cdef-0123-456789abcdef"; "-----BEGIN K-----" +:+ String (chr 10) "zz-----END K----- and on"]
  = ["<server>/organizations/x"; "id <guid>!"; "x" +:+ hex32; hex32 +:+ "0"; "<guid>"; "<key> and on"] ∧
  normalizeKey hex32 ["<guid>"; "<guid>#2"] = "<guid>#3" ∧
  Normalize (VObj [("users", VArr [VStr "b"; VStr "a"]); ("created_at", VStr "now"); ("run_list", VArr [VStr "b"; VStr "a"])]) "https://a/"
  = VObj [("users", VArr [VStr "a"; VStr "b"]); ("created_at", VStr "<time>"); ("run_list", VArr [VStr "b"; VStr "a"])].
Proof. vm_compute. auto. Qed.

Example compare_sample :
  map (λ d, (d_field d, render_side (d_reference d), render_side (d_candidate d)))
    (compare "s" (VObj [("a", VNum "1"); ("b", VArr [VStr "x"]); ("c", VNull)]) "" (VObj [("b", VArr [VStr "y"]); ("a", VNum "1.0"); ("d", VNull)]))
  = [("(body){members}", "a,b", "b,a"); ("a", "1", "1.0"); ("b[0]", "x", "y"); ("c", "null", "<missing>"); ("d", "<missing>", "null")].
Proof. vm_compute. reflexivity. Qed.

(** One step both answer alike, once the reference's index has settled, and one
    that differs where an entry accepts it. *)
Definition sample_script : list answers :=
  [mkAnswers (mkStep "search" "GET" "/search/node" false "" true false) (mkObs 200 (VObj [("total", VNum "0")]) None) (mkObs 200 (VObj [("total", VNum "1")]) None)
     [mkObs 200 (VObj [("total", VNum "1")]) None];
   mkAnswers (mkStep "license" "GET" "/license" true "" false false) (mkObs 200 (VObj [("node_license", VNum "25")]) None) (mkObs 200 (VObj [("node_license", VNum "0")]) None) []].
Definition sample_accepted : list Accepted := [mkAccepted "license" "*" "no entitlement system"].
Definition sample_reference : Target := mkTarget "reference" "https://chef.example/organizations/acme" "pivotal".
Definition sample_candidate : Target := mkTarget "candidate" "http://localhost:8889/organizations/acme/" "pivotal".

Example url_sample : map (λ x, urlFor sample_candidate (a_step x)) sample_script
  = ["http://localhost:8889/organizations/acme/search/node"; "http://localhost:8889/license"].
Proof. vm_compute. reflexivity. Qed.

Lemma passing_run_agrees_witness : Forall (explained sample_reference sample_candidate sample_accepted) sample_script.
Proof.
  eapply (passing_run_agrees sample_reference sample_candidate sample_accepted sample_script
    (Run sample_reference sample_candidate sample_accepted [] sample_script).1); vm_compute; reflexivity.
Defined.
